(* ===== verification/_CoqProject ===== *)
-Q . S2P
Prelude.v
Float64.v
Headers.v
Codec.v
Wire.v
Handshake.v
DialPolicy.v
Underlays.v
Waiters.v
Senders.v
ChannelImpl.v
MultiListener.v
Envelope.v
Calls.v
Options.v
Heartbeat.v
Latency.v
Trace.v
Adapters.v
Listener.v
Logging.v
Link.v
Transports.v
Contract.v
Groups.v
Binding.v
Facade.v
Sendables.v
ListenerConfig.v
TraceText.v
Server.v
Beats.v
Monitor.v
Texts.v
