(* ===== verification/Prelude.v ===== *)
(** * A verification development for the channel library

    The program (package [channel] under src/) gives applications message
    channels over one or more network connections.  Its parts and how they
    interact:

    - a message has a content type, a sequence number, headers and a body
      (src/message.go, src/messages.go); it is marshalled to and read from a
      byte stream in the V2 format, and some header values are themselves
      encoded slices and maps;
    - an underlay is one connection.  Its dialer and its listener exchange a
      hello, which settles identities, the connection id and, for a group of
      underlays, a shared secret (src/classic_dialer.go, src/classic_listener.go,
      src/classic_impl.go, src/datagram_underlay.go, src/existing_conn_*.go,
      src/hello_reject.go); the listener hands an accepted underlay to an
      acceptor (src/hello_acceptor.go, src/accept_dispatcher.go);
    - the multi-underlay listener is such an acceptor: it attaches an underlay
      to the channel of its group or creates that channel
      (src/multi_listener.go);
    - a channel (src/impl.go, src/bind.go) holds a set of underlays
      (src/underlays.go), each served by a receive and a send loop; it matches
      replies with waiters, gives other messages to handlers, takes messages to
      send from queues that senders fill (src/senders.go, src/message_source.go),
      and dials missing underlays through a dial policy with backoff
      (src/dial_policy.go);
    - an application sends a message through an envelope, which bounds the send
      with a context and can wait until the message is queued, written or
      answered (src/envelope.go);
    - handlers that come with the library send heartbeats (src/heartbeater.go),
      measure latency (src/latency/) and record traffic (src/trace.go,
      src/trace/); options configure a channel (src/options.go); websockets
      (src/ws_impl.go, src/websockets/) and protocol buffers (src/protobufs/)
      are adapted to underlays and messages.

    ** Files

    - [Prelude] (this file): machine integers, bytes, Go errors and outcomes
      ([Ret], [Err], [Panic], [OutOfFuel]), the state-and-error monad [ST],
      slices, ranges over maps in any order (class [RangeOrder]), the hint
      databases [go] and [go_len], and the lemmas the components share.
    - [Float64]: [float64] as the Standard Library's [spec_float], with the
      rounding facts that backoff and the draws of options need.
    - [Headers]: [Message], typed headers and reply-for bookkeeping.
    - [Codec]: the encodings of slices and maps in header values.
    - [Wire]: [MarshalV2], [ReadV2], [readHello] and version negotiation, over a
      [reader] that delivers its stream in arbitrary chunks.
    - [Handshake]: hello and result messages, both sides of the handshake,
      rejection, stream and packet underlays, acceptors and the dispatcher.
    - [DialPolicy]: [BackoffDialPolicy].
    - [Underlays]: the ordered set of underlays with its listeners.
    - [Waiters]: [waiterMap]; its module [Steps] has the interleaved accesses.
    - [Senders]: queues, [Send] and [TrySend] in their three steps, requeueing
      and message sources.
    - [ChannelImpl]: [channelImpl], from [NewChannel] to [applyConstraints].
    - [MultiListener]: [MultiListener.AcceptUnderlay] as interleaving threads.
    - [Envelope]: contexts, sendables with their callbacks, Go channels.
    - [Calls]: one sending call composed with [Senders], [ChannelImpl] and
      [Envelope]; any interleaving of its steps with those of the loops.  A send
      loop takes the sendable, looks at its context and writes it in three steps.
    - [Options]: defaults, loading (with [time.ParseDuration]) and validation.
    - [Heartbeat]: the heartbeater and its pulse loop; its module [Steps] has
      the interleaved accesses to the unanswered heartbeat.
    - [Latency]: the probes, their responders and handler.
    - [Trace]: trace records, their files, and the decoder of the channel's own
      messages.
    - [Adapters]: websocket underlays, typed protocol buffer messages, channels
      with a single underlay.
    - [Listener]: the classic listener as a source of underlays, [Create],
      [Listen] and [Close] as interleaved steps.
    - [Logging]: the choice of loggers and the delegating handler.
    - [Link]: two channels of [ChannelImpl] joined by connections; the class
      [Transport] states what a connection promises, and the specification is a
      queue per connection.
    - [Transports]: streams and websockets as instances of [Transport] with the
      theorems of [Link] for streams, packets, and structured header values over
      the wire.
    - [Contract]: the interface [Underlay] as a class with its documented
      contract, and every implementation in full, the logging one included.
    - [Groups]: [DialPolicy], [Handshake] and [ChannelImpl] composed: how a
      channel with several underlays comes about.
    - [Binding]: binders, typed bindings, receivers and probes that are
      registered with them (src/bind.go, src/handler.go).
    - [Facade]: the channel with its senders, as its users see it.
    - [Sendables]: the interfaces [Sendable] and [SendListener] as a class, with
      an instance per Go type.
    - [ListenerConfig]: the configuration and construction of a listener and of
      a dialer.
    - [TraceText]: the text that is logged for a trace.
    - [Server]: [MultiListener] composed with the channels of [ChannelImpl] that
      its factory makes (here always with [NewChannel]), whose goroutines run and
      close them.
    - [Beats]: the accesses of a transmission of [Heartbeat] one by one, and the
      steps of a pulse loop, on two sides with any number of send loops, over a
      network that loses messages.
    - [Monitor]: heartbeaters registered with a binding, and channels that run
      them among their transform handlers.
    - [Texts]: the texts of messages, options and errors.

    A definition has the name of the function or type it models; a part of a
    function that is a definition of its own has a descriptive name.  State is
    a record with the fields of the struct.  What the code does not decide is an
    argument: the answers of a transport connection, the clock, the random
    source, which ready case a [select] takes, the order of a range over a map,
    the results of callbacks into the application.

    ** What the theorems show

    - Wire format: reading inverts marshalling in any chunking; the reader
      refines a parser of the undivided stream, accepts exactly the grammar of
      header sections, and keeps the limits of a hello; the version answer is
      decoded.  With a 64-bit [int] it never panics; where [int] has 32 bits the
      header parser can, on streams of 2^31 - 8 bytes or more.
    - Header values: round trips, and decoders that are total and accept only
      what the reference encoding writes.
    - Handshake: the two sides agree; a rejection reaches the dialer with its
      class; no connection leaks on either side; the dispatcher routes by type.
    - Multi-underlay listener: no panic, one creator per group, no waiting for
      nobody, an acknowledged group is known, live registrations stay, every
      underlay is disposed of once.
    - Channel: admission by the group secret, complete and single close,
      delivery to exactly one place, the fate of every send, ordered loops,
      constraints checked and filled.
    - Dial policy: bounds of the delay (and its overflow), the accounting of
      failures, fresh group ids, the paths of a dial.
    - Waiters, underlays, senders: replies find their waiters and how the count
      can drift; removals are reported once; what sends report as queued is what
      the queue holds and gives, in the order of their selects, with numbers of
      their own.
    - Sending calls: callbacks never block a loop, results are justified, a call
      that can return is not forgotten, nothing is written whose context is looked
      at after the wait gave up (what was looked at before may still be), and a
      request is answered end to end, over the wire format.
    - Envelopes: timeouts only tighten, and cancelling affects no other context.
    - Heartbeats and latency: heartbeats are on time, and, undisturbed, between
      two channels they are answered; whatever interleaves, a message gets a
      heartbeat or finds a recent one, and what is reported was sent; what is
      bounded; what concurrent transmissions lose; probes report the true
      time.
    - Options: what loading accepts and sets, and the validated ranges.
    - Traces, websockets, typed messages: round trips; reading any file ends.
    - Listener and logging: every underlay is handed over once; what is logged
      through a default logger arrives as if logged directly.
    - Connected channels: whatever loops, network and application do, two
      channels refine a queue of messages per connection, and what one delivers
      is, in order and each once, what the other wrote, up to where the
      connection broke.  This is shown for streams that lose and reorder nothing
      until they break, and for websockets; packets are not such connections, and
      longer ones than 2000 bytes are lost.
    - Underlays: every implementation keeps the contract of the interface; all
      but [websockets.Underlay], which asks the websocket library, are silent
      after [Close]; and the logging underlay is not noticed.
    - Groups: a further underlay is accepted by the channels on both sides; a
      group that lost all underlays starts again under another id; a listener
      with its channels keeps every underlay in the channel of its group, and a
      further underlay of a group joins the channel of the first.
    - Set-up and sending: nested bind handlers are the flat ones; receivers get
      their messages; a send is refused as closed only by a closed channel, and
      none blocks on one; the kinds of sendables have the methods that [Calls]
      relies on; the listener's pool is as configured, and a dialer and a
      listener for one type of endpoint make the same kind of underlay.
    - Texts: what the text of a message and of options says, and that the text
      of a reply has an address for the sequence it replies to.

    ** Bounds and fuel

    Integers have their Go width, with explicit wrap-around where the code does
    not exclude overflow; [int] has [W] bits in [Wire] and [Handshake] (32 or
    64, with what a theorem needs of it as the hypothesis [int_ok]).  A loop
    that is not structural takes fuel and yields [OutOfFuel] without it.  The
    parsers are called with the length of their input plus one, which is enough
    since every round consumes bytes, and the theorems show that they return.
    The two dialing loops end after their second round and get the fuel for
    it.  The loop of [applyConstraints] dials until its
    desires are met and is not bounded in the code; [constraints_fill] gives the
    fuel that is enough when dials succeed.  The receive and send loops run over
    the list of what they read or are given, and so do the pulse loop of a
    heartbeater and the probe loop.  Reading a trace file and parsing a duration
    get the length of their input plus one, since a round consumes bytes.  The
    forwarding of a log record is bounded only if the handlers are not
    circular; [logging_faithful] says how many steps are enough.

    ** What is not modelled

    Generated code (src/trace/pb/): the protocol buffer codecs, and the JSON
    codec of traces, are parameters, as is the goroutine pool of the classic
    listener.  Left out: the texts of log records, and declarations that have no
    behaviour of their own (interfaces that are only named, function types that
    are handlers, configuration structs that are copied field by field).  Locks
    are modelled by what they make atomic.  In [Calls] a send loop takes a
    sendable, looks at its context, and then transforms, registers and writes it
    in one step, with the callbacks on the envelope as later steps; in [Link] a
    transmission and in [Server] a step of a channel are atomic; in [Monitor]
    transmissions and pulse rounds run one after the other.  A handler that calls back into the channel that runs it is
    not modelled. *)

From Stdlib Require Import Strings.Byte.
From stdpp Require Export base tactics numbers list option gmap strings.
From Stdlib Require Export ZArith Lia.

#[global] Open Scope Z_scope.

(** ** Notations and scopes *)

Declare Scope go_scope.
Delimit Scope go_scope with go.

(** A Go [[]byte] and a Go [string] are both sequences of bytes; the
    conversions [[]byte(s)] and [string(b)] keep the bytes. *)
Abbreviation byte := Byte.byte.
Abbreviation bytes := (list Byte.byte).
Abbreviation gostring := (list Byte.byte).

(** The Go string literal with the given text. *)
Definition lit (s : string) : gostring := String.list_byte_of_string s.
Arguments lit s%_string_scope.

#[global] Instance byte_eq_dec : EqDecision byte := Byte.byte_eq_dec.

#[global] Instance byte_countable : Countable byte :=
  inj_countable Byte.to_N Byte.of_N Byte.of_to_N.

(** The length of a slice, a Go [int]. *)
Definition len {A} (l : list A) : Z := Z.of_nat (length l).

(** ** Machine integers

    An integer of width [w] is a [Z]; conversions wrap explicitly. *)

(** Conversion to an unsigned integer of [w] bits. *)
Definition to_uint (w z : Z) : Z := z mod 2 ^ w.

(** Conversion to a signed integer of [w] bits (two's complement). *)
Definition to_sint (w z : Z) : Z := (z + 2 ^ (w - 1)) mod 2 ^ w - 2 ^ (w - 1).

Definition is_uint (w z : Z) : Prop := 0 <= z < 2 ^ w.
Definition is_sint (w z : Z) : Prop := - 2 ^ (w - 1) <= z < 2 ^ (w - 1).

Abbreviation uint32 := (to_uint 32).
Abbreviation int32 := (to_sint 32).
Abbreviation uint64 := (to_uint 64).
Abbreviation int64 := (to_sint 64).
Abbreviation is_u32 := (is_uint 32).
Abbreviation is_i32 := (is_sint 32).
Abbreviation is_u64 := (is_uint 64).
Abbreviation is_i64 := (is_sint 64).

#[global] Instance is_uint_dec w z : Decision (is_uint w z).
Proof. unfold is_uint. apply _. Defined.
#[global] Instance is_sint_dec w z : Decision (is_sint w z).
Proof. unfold is_sint. apply _. Defined.

Definition MaxInt32 : Z := 2 ^ 31 - 1.

(** ** Bytes and little-endian integers ([encoding/binary], little endian) *)

Definition b2Z (b : byte) : Z := Z.of_N (Byte.to_N b).
Definition Z2b (z : Z) : byte := default Byte.x00 (Byte.of_N (Z.to_N (z mod 256))).

(** [PutUint16], [PutUint32], [PutUint64] and [binary.Write] of a fixed-size
    integer: the [n] low bytes of [z], least significant first. *)
Fixpoint le_put (n : nat) (z : Z) : bytes :=
  match n with
  | O => []
  | S n' => Z2b z :: le_put n' (z / 256)
  end.

Arguments le_put : simpl never.

(** [Uint16], [Uint32], [Uint64] on a slice of exactly that many bytes. *)
Fixpoint le_get (b : bytes) : Z :=
  match b with
  | [] => 0
  | x :: b' => b2Z x + 256 * le_get b'
  end.

(** ** Errors

    The [error] values the code distinguishes.  A formatted error keeps its
    format and, when the format wraps (verb [%w], [errors.Wrap], or a wrapper
    type with an [Unwrap] method), the wrapped error. *)
Inductive error : Type :=
  | io_EOF
  | io_ErrUnexpectedEOF
  | net_Error (code : nat)
  | BadMagicNumberError
  | UnsupportedVersionError (supportedVersions : list Z)
  | errors_New (text : gostring)
  | fmt_Errorf (text : gostring) (args : list Z)
  | errors_Wrap (e : error) (text : gostring)
  | context_DeadlineExceeded
  | context_Canceled
  | TimeoutError (e : error)
  | ClosedError
  | ListenerClosedError
  | NonRetryableError (e : error)
  | RejectedError (Class : Z) (Message : gostring).

#[global] Instance error_eq_dec : EqDecision error.
Proof. solve_decision. Defined.

(** One step of [errors.Unwrap]. *)
Definition Unwrap (e : error) : option error :=
  match e with
  | errors_Wrap e' _ | TimeoutError e' | NonRetryableError e' => Some e'
  | _ => None
  end.

(** [errors.As]: the first error of the chain that [f] accepts. *)
Fixpoint errors_As {A} (f : error -> option A) (e : error) : option A :=
  match f e with
  | Some a => Some a
  | None =>
      match e with
      | errors_Wrap e' _ | TimeoutError e' | NonRetryableError e' => errors_As f e'
      | _ => None
      end
  end.

(** [errors.Is] against a sentinel value. *)
Definition errors_Is (e target : error) : bool :=
  bool_decide (is_Some (errors_As (fun x => if decide (x = target) then Some x else None) e)).

(** ** Outcomes

    A call returns a value, returns an error, panics, or (in a model with
    fuel) does not finish within its fuel. *)
Inductive outcome (A : Type) : Type :=
  | Ret (a : A)
  | Err (e : error)
  | Panic
  | OutOfFuel.
Arguments Ret {A} a.
Arguments Err {A} e.
Arguments Panic {A}.
Arguments OutOfFuel {A}.

#[global] Instance outcome_ret : MRet outcome := fun A a => Ret a.
#[global] Instance outcome_bind : MBind outcome := fun A B f c =>
  match c with
  | Ret a => f a
  | Err e => Err e
  | Panic => Panic
  | OutOfFuel => OutOfFuel
  end.
#[global] Instance outcome_fmap : FMap outcome := fun A B f c =>
  match c with
  | Ret a => Ret (f a)
  | Err e => Err e
  | Panic => Panic
  | OutOfFuel => OutOfFuel
  end.

(** The call returns: a value or an error, never a panic. *)
Definition returns {A} (c : outcome A) : Prop :=
  match c with Ret _ | Err _ => True | Panic | OutOfFuel => False end.

#[global] Instance returns_dec {A} (c : outcome A) : Decision (returns c).
Proof. destruct c; simpl; apply _. Defined.

(** ** Stateful calls

    A call that reads and changes a state [S] and may fail.  The state after an
    error is the state at the point of the error, as in the code. *)
Definition ST (S A : Type) : Type := S -> outcome A * S.

#[global] Instance ST_ret {S} : MRet (ST S) := fun A a s => (Ret a, s).
#[global] Instance ST_bind {S} : MBind (ST S) := fun A B f c s =>
  match c s with
  | (Ret a, s') => f a s'
  | (Err e, s') => (Err e, s')
  | (Panic, s') => (Panic, s')
  | (OutOfFuel, s') => (OutOfFuel, s')
  end.

(** The result of an expression that changes no state. *)
Definition lift {S A} (c : outcome A) : ST S A := fun s => (c, s).
Definition throw {S A} (e : error) : ST S A := fun s => (Err e, s).
Definition gets {S A} (f : S -> A) : ST S A := fun s => (Ret (f s), s).
Definition modify {S} (f : S -> S) : ST S unit := fun s => (Ret tt, f s).

(** [v, err := call()]: the error as a value. *)
Definition attempt {S A} (c : ST S A) : ST S (error + A) := fun s =>
  match c s with
  | (Ret a, s') => (Ret (inr a), s')
  | (Err e, s') => (Ret (inl e), s')
  | (Panic, s') => (Panic, s')
  | (OutOfFuel, s') => (OutOfFuel, s')
  end.

(** [_ = call()]: the error is dropped (or only logged). *)
Definition ignore {S A} (c : ST S A) : ST S unit := _ ← attempt c; mret tt.

(** [defer f()], where [f] sees whether the call returns an error. *)
Definition deferred {S A} (f : bool -> ST S unit) (c : ST S A) : ST S A := fun s =>
  match c s with
  | (Ret a, s') => (_ ← f false; mret a) s'
  | (Err e, s') => (_ ← f true; throw e) s'
  | (Panic, s') => (_ ← f false; lift Panic) s'
  | (OutOfFuel, s') => (OutOfFuel, s')
  end.

(** The call returns, with a value or an error, and keeps the invariant. *)
Definition stable {S A} (P : S -> Prop) (c : ST S A) : Prop :=
  forall s, P s -> returns (c s).1 /\ P (c s).2.

(** [if b { call() }] *)
Definition when {S} (b : bool) (c : ST S unit) : ST S unit := if b then c else mret tt.

(** [b[i:j]], which panics unless [0 <= i <= j <= len(b)].  (Go allows [j] up
    to the capacity; the model panics already beyond the length, so what it
    shows free of panics is so in Go, with the same value.) *)
Definition slice {A} (b : list A) (i j : Z) : outcome (list A) :=
  if decide (0 <= i <= j /\ j <= len b)
  then Ret (take (Z.to_nat (j - i)) (drop (Z.to_nat i) b))
  else Panic.

(** [binary.LittleEndian.Uint32(b)], which reads [b[0..3]]. *)
Definition Uint32 (b : bytes) : outcome Z :=
  if decide (4 <= len b) then Ret (le_get (take 4 b)) else Panic.

(** ** Iteration over maps

    [range] over a Go map visits every entry once in an unspecified order: a
    range order is any function that lists a map's entries. *)
Class RangeOrder {K V} `{Countable K} (rng : gmap K V -> list (K * V)) : Prop :=
  range_perm m : rng m ≡ₚ map_to_list m.

#[global] Instance range_map_to_list {K V} `{Countable K} :
  RangeOrder (fun m : gmap K V => map_to_list m).
Proof. intros m. reflexivity. Qed.

(** [for k, v := range src { dst[k] = v }], over the entries in range order. *)
Definition copy_entries {K V} `{Countable K} (kvs : list (K * V)) (dst : gmap K V) : gmap K V :=
  foldl (fun m kv => <[kv.1 := kv.2]> m) dst kvs.

(** [for _, x := range l { s = f(s, x) }] with a body that may fail. *)
Fixpoint for_each {A S} (f : S -> A -> outcome S) (l : list A) (s : S) : outcome S :=
  match l with
  | [] => Ret s
  | x :: l' => s' ← f s x; for_each f l' s'
  end.

(** ** Writing into a buffer *)

(** [buf] with [data] written over it from index [idx] on. *)
Definition splice (buf : bytes) (idx : Z) (data : bytes) : bytes :=
  take (Z.to_nat idx) buf ++ data ++ drop (Z.to_nat idx + length data) buf.

(** [make([]byte, n)] *)
Definition make_bytes (n : Z) : bytes := replicate (Z.to_nat n) Byte.x00.

(** [binary.LittleEndian.PutUint32(buf[idx:], v)] *)
Definition put_u32 (buf : bytes) (idx v : Z) : outcome bytes :=
  if decide (0 <= idx /\ idx + 4 <= len buf) then Ret (splice buf idx (le_put 4 v)) else Panic.

(** [copy(buf[idx:], src)] *)
Definition copy_at (buf : bytes) (idx : Z) (src : bytes) : outcome bytes :=
  if decide (0 <= idx <= len buf)
  then Ret (splice buf idx (take (Z.to_nat (len buf - idx)) src)) else Panic.

(** ** Tactics and hint databases *)

Create HintDb go.
Create Rewrite HintDb go_len.

(** Case analysis on the [decide]s, matches and conditionals of the goal and
    the hypotheses, with contradictory cases closed. *)
Ltac go_cases :=
  repeat (case_decide || case_match || case_bool_decide); simplify_eq/=; try done; try lia.

(** One step of a computation whose first call is known. *)
Ltac run := cbn [mbind outcome_bind mret outcome_ret fst snd].

(** Lengths of slices, normalised to linear arithmetic. *)
Ltac go_len :=
  unfold len in *; autorewrite with go_len in *; try lia.

(** ** Lemmas: integers *)

Lemma to_sint_id w z : 0 < w -> is_sint w z -> to_sint w z = z.
Proof.
  unfold is_sint, to_sint. intros Hw H.
  assert (2 ^ w = 2 * 2 ^ (w - 1)) as E.
  { rewrite <- Z.pow_succ_r by lia. f_equal. lia. }
  rewrite Z.mod_small; lia.
Qed.

Lemma to_uint_id w z : is_uint w z -> to_uint w z = z.
Proof. apply Z.mod_small. Qed.

Lemma to_sint_range w z : 0 < w -> is_sint w (to_sint w z).
Proof.
  unfold is_sint, to_sint. intros Hw.
  assert (2 ^ w = 2 * 2 ^ (w - 1)) as E.
  { rewrite <- Z.pow_succ_r by lia. f_equal. lia. }
  pose proof (Z.mod_pos_bound (z + 2 ^ (w - 1)) (2 ^ w) ltac:(apply Z.pow_pos_nonneg; lia)).
  lia.
Qed.

Lemma to_uint_range w z : 0 <= w -> is_uint w (to_uint w z).
Proof. intros. apply Z.mod_pos_bound, Z.pow_pos_nonneg; lia. Qed.

(** Converting to unsigned and back recovers a signed value. *)
Lemma to_sint_to_uint w z : 0 < w -> is_sint w z -> to_sint w (to_uint w z) = z.
Proof.
  intros Hw H. rewrite <- (to_sint_id w z) at 2 by done.
  unfold to_sint, to_uint. f_equal.
  rewrite Zplus_mod_idemp_l. done.
Qed.

(** ** Lemmas: bytes *)

Lemma Z2b_b2Z b : Z2b (b2Z b) = b.
Proof.
  unfold Z2b, b2Z.
  pose proof (Byte.to_N_bounded b) as Hb.
  rewrite Z.mod_small by lia. by rewrite N2Z.id, Byte.of_to_N.
Qed.

Lemma b2Z_range b : 0 <= b2Z b < 256.
Proof. unfold b2Z. pose proof (Byte.to_N_bounded b). lia. Qed.

Lemma b2Z_Z2b z : b2Z (Z2b z) = z mod 256.
Proof.
  unfold Z2b, b2Z.
  pose proof (Z.mod_pos_bound z 256 ltac:(lia)).
  pose proof (Byte.to_of_N_option_map (Z.to_N (z mod 256))) as E.
  destruct (Byte.of_N _) as [y|] eqn:Ey; simpl in *.
  - apply Byte.to_of_N in Ey. lia.
  - destruct (N.leb_spec (Z.to_N (z mod 256)) 255); [done | lia].
Qed.

Lemma le_put_S n z : le_put (S n) z = Z2b z :: le_put n (z / 256).
Proof. done. Qed.

Lemma length_le_put n z : length (le_put n z) = n.
Proof. revert z. induction n; intros; rewrite ?le_put_S; simpl; auto. Qed.

Lemma le_get_put n z : le_get (le_put n z) = z mod 2 ^ (8 * Z.of_nat n).
Proof.
  revert z. induction n as [|n IH]; intros z.
  - cbn. by rewrite Z.mod_1_r.
  - rewrite le_put_S. cbn [le_get]. rewrite IH, b2Z_Z2b.
    replace (2 ^ (8 * Z.of_nat (S n))) with (256 * 2 ^ (8 * Z.of_nat n)).
    + rewrite Z.rem_mul_r; [done | lia | apply Z.pow_pos_nonneg; lia].
    + rewrite Nat2Z.inj_succ, Z.mul_succ_r, Z.add_comm, Z.pow_add_r by lia. done.
Qed.

Lemma le_get_range b : 0 <= le_get b < 2 ^ (8 * len b).
Proof.
  unfold len. induction b as [|x b IH]; simpl length; [done|].
  cbn [le_get]. pose proof (b2Z_range x).
  rewrite Nat2Z.inj_succ, Z.mul_succ_r, Z.add_comm, Z.pow_add_r by lia. lia.
Qed.

Lemma le_put_get b : le_put (length b) (le_get b) = b.
Proof.
  induction b as [|x b IH]; cbn [length le_get]; [done|]. rewrite le_put_S.
  pose proof (b2Z_range x). f_equal.
  - rewrite <- (Z2b_b2Z x) at 2. unfold Z2b. do 3 f_equal.
    rewrite Z.mul_comm, Z.mod_add, !Z.mod_small by lia. done.
  - rewrite Z.mul_comm, Z.div_add, Z.div_small by lia. done.
Qed.

Lemma le_get_put_u32 z : is_u32 z -> le_get (le_put 4 z) = z.
Proof. intros H. rewrite le_get_put. by apply Z.mod_small. Qed.

(** Only the low bytes matter. *)
Lemma le_put_mod n z1 z2 :
  z1 mod 2 ^ (8 * Z.of_nat n) = z2 mod 2 ^ (8 * Z.of_nat n) -> le_put n z1 = le_put n z2.
Proof.
  intros E. rewrite <- (le_put_get (le_put n z1)), <- (le_put_get (le_put n z2)).
  by rewrite !length_le_put, !le_get_put, E.
Qed.

Lemma le_put_uint32 z : le_put 4 (uint32 z) = le_put 4 z.
Proof. apply le_put_mod. apply Zmod_mod. Qed.

Lemma le_put_i32 z : is_i32 z -> int32 (le_get (le_put 4 z)) = z.
Proof. intros H. rewrite le_get_put. by apply (to_sint_to_uint 32). Qed.

(** ** Lemmas: lists *)

Lemma filter_id {A} (P : A -> Prop) `{!forall x, Decision (P x)} (l : list A) :
  Forall P l -> filter P l = l.
Proof. induction 1 as [|x l Hx Hl IH]; [done|]. by rewrite filter_cons_True, IH. Qed.

(** ** Lemmas: slices *)

Lemma len_nonneg {A} (l : list A) : 0 <= len l.
Proof. unfold len. lia. Qed.

Lemma len_zero {A} (l : list A) : len l = 0 <-> l = [].
Proof. unfold len. destruct l; cbn; split; intros; done || lia. Qed.

Lemma len_nil {A} : len (@nil A) = 0.
Proof. done. Qed.

Lemma len_cons {A} (x : A) l : len (x :: l) = 1 + len l.
Proof. unfold len. simpl length. lia. Qed.

Lemma len_app {A} (l1 l2 : list A) : len (l1 ++ l2) = len l1 + len l2.
Proof. unfold len. rewrite length_app. lia. Qed.

Lemma len_le_put n z : len (le_put n z) = Z.of_nat n.
Proof. unfold len. by rewrite length_le_put. Qed.

#[export] Hint Rewrite @length_app @length_take @length_drop length_le_put @length_cons
  @length_nil @length_fmap @length_replicate : go_len.

#[export] Hint Resolve len_nonneg : go.

Lemma slice_Ret {A} (b : list A) i j :
  0 <= i <= j -> j <= len b ->
  slice b i j = Ret (take (Z.to_nat (j - i)) (drop (Z.to_nat i) b)).
Proof. intros. unfold slice. by rewrite decide_True. Qed.

(** Slicing the middle part out of a concatenation. *)
Lemma slice_app {A} (a b c : list A) i j :
  i = len a -> j = i + len b -> slice (a ++ b ++ c) i j = Ret b.
Proof.
  intros -> ->. rewrite slice_Ret; [|go_len..].
  f_equal. unfold len. rewrite Nat2Z.id, drop_app_length.
  replace (Z.to_nat _) with (length b) by lia. apply take_app_length.
Qed.

Lemma slice_mid {A} (b a m c : list A) i j :
  b = a ++ m ++ c -> i = len a -> j = i + len m -> slice b i j = Ret m.
Proof. intros ->. apply slice_app. Qed.

Lemma slice_prefix {A} (a c : list A) j : j = len a -> slice (a ++ c) 0 j = Ret a.
Proof. intros ->. apply (slice_app [] a c); go_len. Qed.

Lemma slice_suffix {A} (a c : list A) i j :
  i = len a -> j = len (a ++ c) -> slice (a ++ c) i j = Ret c.
Proof. intros -> ->. rewrite <- (app_nil_r c) at 1. apply slice_app; go_len. Qed.

(** A slice of at least [n] elements has a prefix of [n] elements. *)
Lemma split_prefix {A} (b : list A) n :
  0 <= n <= len b -> exists a c, b = a ++ c /\ len a = n.
Proof.
  intros H. exists (take (Z.to_nat n) b), (drop (Z.to_nat n) b).
  rewrite take_drop. split; [done|]. go_len.
Qed.

(** Four bytes are the little-endian form of a [uint32]. *)
Lemma split_u32 (b : bytes) :
  4 <= len b -> exists z c, b = le_put 4 z ++ c /\ is_u32 z.
Proof.
  intros H. destruct (split_prefix b 4) as (a & c & -> & Ha); [lia|].
  exists (le_get a), c. unfold len in Ha. replace 4%nat with (length a) by lia.
  rewrite le_put_get. split; [done|]. pose proof (le_get_range a) as R.
  unfold len in R. by rewrite Ha in R.
Qed.

Lemma uint32_le z : 0 <= z -> 0 <= uint32 z <= z.
Proof.
  intros H. pose proof (to_uint_range 32 z) as R. unfold is_uint in R.
  split; [apply R; lia|]. apply Z.mod_le; lia.
Qed.

Lemma slice_len {A} (b : list A) i j s : slice b i j = Ret s -> len s = j - i.
Proof. unfold slice. case_decide; [|done]. intros [= <-]. go_len. Qed.

Lemma Uint32_slice (b : bytes) i :
  0 <= i -> i + 4 <= len b ->
  exists z, slice b i (i + 4) ≫= Uint32 = Ret z /\ is_u32 z /\
    z = le_get (take 4 (drop (Z.to_nat i) b)).
Proof.
  intros. rewrite slice_Ret by lia. cbn. unfold Uint32.
  replace (Z.to_nat (i + 4 - i)) with 4%nat by lia.
  rewrite decide_True by go_len. rewrite take_take. eexists; split; [done|]. split; [|done].
  pose proof (le_get_range (take 4 (drop (Z.to_nat i) b))) as R.
  replace (len (take 4 _)) with 4 in R by go_len. done.
Qed.

Lemma Uint32_put z : is_u32 z -> Uint32 (le_put 4 z) = Ret z.
Proof. intros. unfold Uint32. rewrite take_ge by go_len. by rewrite le_get_put_u32. Qed.

(** ** Lemmas: buffers filled from the left *)

Lemma splice_fresh (d data : bytes) (n : nat) :
  (length data <= n)%nat ->
  splice (d ++ replicate n Byte.x00) (len d) data =
  (d ++ data) ++ replicate (n - length data) Byte.x00.
Proof.
  intros H. unfold splice, len. rewrite Nat2Z.id, take_app_length, <- app_assoc.
  do 2 f_equal. rewrite drop_app_add, drop_replicate. done.
Qed.

Lemma put_u32_fresh (d : bytes) (n : nat) v :
  (4 <= n)%nat ->
  put_u32 (d ++ replicate n Byte.x00) (len d) v =
  Ret ((d ++ le_put 4 v) ++ replicate (n - 4) Byte.x00).
Proof.
  intros H. unfold put_u32. rewrite decide_True by go_len.
  by rewrite splice_fresh, length_le_put by (rewrite length_le_put; done).
Qed.

Lemma copy_at_fresh (d src : bytes) (n : nat) :
  (length src <= n)%nat ->
  copy_at (d ++ replicate n Byte.x00) (len d) src =
  Ret ((d ++ src) ++ replicate (n - length src) Byte.x00).
Proof.
  intros H. unfold copy_at. rewrite decide_True by go_len.
  rewrite take_ge by go_len. by rewrite splice_fresh.
Qed.

(** ** Lemmas: outcomes *)

Lemma returns_bind {A B} (c : outcome A) (f : A -> outcome B) :
  returns c -> (forall a, c = Ret a -> returns (f a)) -> returns (c ≫= f).
Proof. destruct c; simpl; auto. Qed.

(** One step of a stateful call, by what its first part does. *)
Section Steps.
Context {S A B : Type} (c : ST S A) (f : A -> ST S B) (s s' : S).

Lemma bind_Ret a : c s = (Ret a, s') -> (c ≫= f) s = f a s'.
Proof using Type. intros E. unfold mbind, ST_bind. by rewrite E. Qed.

Lemma bind_Err e : c s = (Err e, s') -> (c ≫= f) s = (Err e, s').
Proof using Type. intros E. unfold mbind, ST_bind. by rewrite E. Qed.

Lemma attempt_Ret a : c s = (Ret a, s') -> attempt c s = (Ret (inr a), s').
Proof using Type. intros E. unfold attempt. by rewrite E. Qed.

Lemma attempt_Err e : c s = (Err e, s') -> attempt c s = (Ret (inl e), s').
Proof using Type. intros E. unfold attempt. by rewrite E. Qed.

Lemma ignore_Ret a : c s = (Ret a, s') -> ignore c s = (Ret tt, s').
Proof using Type. intros E. unfold ignore, mbind, ST_bind. by rewrite (attempt_Ret a). Qed.

Lemma ignore_Err e : c s = (Err e, s') -> ignore c s = (Ret tt, s').
Proof using Type. intros E. unfold ignore, mbind, ST_bind. by rewrite (attempt_Err e). Qed.

Lemma deferred_Ret d a s'' :
  c s = (Ret a, s') -> d false s' = (Ret tt, s'') -> deferred d c s = (Ret a, s'').
Proof using Type. intros E E'. unfold deferred. rewrite E. unfold mbind, ST_bind. by rewrite E'. Qed.

Lemma deferred_Err d e s'' :
  c s = (Err e, s') -> d true s' = (Ret tt, s'') -> deferred d c s = (Err e, s'').
Proof using Type. intros E E'. unfold deferred. rewrite E. unfold mbind, ST_bind. by rewrite E'. Qed.

End Steps.

(** Stable calls compose. *)
Section Stable.
Context {S : Type} (P : S -> Prop).

Lemma stable_ret {A} (a : A) : stable P (mret a).
Proof using Type. intros s Hs. done. Qed.

Lemma stable_throw {A} e : stable P (throw (A := A) e).
Proof using Type. intros s Hs. done. Qed.

Lemma stable_gets {A} (f : S -> A) : stable P (gets f).
Proof using Type. intros s Hs. done. Qed.

Lemma stable_lift {A} (c : outcome A) : returns c -> stable P (lift c).
Proof using Type. intros Hc s Hs. done. Qed.

Lemma stable_modify f : (forall s, P s -> P (f s)) -> stable P (modify f).
Proof using Type. intros Hf s Hs. split; [done | by apply Hf]. Qed.

Lemma stable_bind {A B} (c : ST S A) (f : A -> ST S B) :
  stable P c -> (forall a, stable P (f a)) -> stable P (c ≫= f).
Proof using Type.
  intros Hc Hf s Hs. destruct (Hc s Hs) as [Hr Hp]. unfold mbind, ST_bind.
  destruct (c s) as [[a|e| |] s']; try done. by apply Hf.
Qed.

Lemma stable_attempt {A} (c : ST S A) : stable P c -> stable P (attempt c).
Proof using Type.
  intros Hc s Hs. destruct (Hc s Hs) as [Hr Hp]. unfold attempt.
  by destruct (c s) as [[a|e| |] s'].
Qed.

Lemma stable_ignore {A} (c : ST S A) : stable P c -> stable P (ignore c).
Proof using Type.
  intros Hc. apply stable_bind; [by apply stable_attempt | intros; apply stable_ret].
Qed.

Lemma stable_when b (c : ST S unit) : stable P c -> stable P (when b c).
Proof using Type. destruct b; [done | intros; apply stable_ret]. Qed.

Lemma stable_deferred {A} d (c : ST S A) :
  (forall b, stable P (d b)) -> stable P c -> stable P (deferred d c).
Proof using Type.
  intros Hd Hc s Hs. destruct (Hc s Hs) as [Hr Hp]. unfold deferred.
  destruct (c s) as [[a|e| |] s']; try done;
    (apply stable_bind; [apply Hd | intros; (apply stable_ret || apply stable_throw) | done]).
Qed.

End Stable.

#[export] Hint Resolve stable_ret stable_throw stable_gets stable_lift stable_modify stable_bind
  stable_attempt stable_ignore stable_when stable_deferred : go.

(** ** Lemmas: maps *)

Lemma range_NoDup {K V} `{Countable K} (rng : gmap K V -> list (K * V)) `{!RangeOrder rng} m :
  NoDup (rng m).*1.
Proof. rewrite (range_perm m). apply NoDup_fst_map_to_list. Qed.

Lemma copy_entries_lookup {K V} `{Countable K} (kvs : list (K * V)) (dst : gmap K V) :
  NoDup kvs.*1 -> copy_entries kvs dst = list_to_map kvs ∪ dst.
Proof.
  revert dst. induction kvs as [|[k v] kvs IH]; intros dst Hnd; simpl.
  - by rewrite (left_id_L ∅ (∪)).
  - inversion Hnd as [|? ? Hk Hnd']; subst. rewrite IH by done.
    rewrite <- insert_union_r; [by rewrite insert_union_l|].
    apply not_elem_of_list_to_map_1. done.
Qed.

(** Copying every entry of [src], in any order, overrides [dst] with [src]. *)
Lemma copy_entries_range {K V} `{Countable K} (rng : gmap K V -> list (K * V)) `{!RangeOrder rng}
    (src dst : gmap K V) :
  copy_entries (rng src) dst = src ∪ dst.
Proof.
  rewrite copy_entries_lookup by (apply range_NoDup; done). f_equal.
  rewrite <- (list_to_map_to_list src) at 2.
  apply list_to_map_proper; [apply range_NoDup; done | apply range_perm].
Qed.

(** Reading the entries back into an empty map, in any order. *)
Lemma copy_entries_empty {K V} `{Countable K} (rng : gmap K V -> list (K * V)) `{!RangeOrder rng}
    (src : gmap K V) :
  copy_entries (rng src) ∅ = src.
Proof. rewrite copy_entries_range by done. apply (right_id_L ∅ (∪)). Qed.
