(* ===== verification/Float64.v ===== *)
(** * Floating-point numbers

    The [float64] of Go, as the [spec_float] of the Standard Library with a
    mantissa of 53 bits: what the options (src/options.go) and the dial policy
    (src/dial_policy.go) compute with.

    Lemmas: a product, or the conversion of an integer, whose exact value is at
    most a whole number below 2^53 is still at most that number after
    rounding. *)

From Stdlib Require Import Floats.SpecFloat.
From S2P Require Import Prelude.

Abbreviation float64 := spec_float.

Definition float_of_Z (z : Z) : float64 := binary_normalize 53 1024 z 0 false.
Definition float_mul : float64 -> float64 -> float64 := SFmul 53 1024.
Definition float_div : float64 -> float64 -> float64 := SFdiv 53 1024.

(** [uint64(v)] or [int64(v)] for a value in range: the fraction is cut off. *)
Definition float_trunc (v : float64) : Z :=
  match v with
  | S754_finite s m e => let n := if (0 <=? e)%Z then Z.pos m * 2 ^ e else Z.pos m / 2 ^ (- e) in
      if s then - n else n
  | _ => 0
  end.

(** A number of the half-open interval from 0 to 1, as [rand.Float64] gives. *)
Definition unit_float (v : float64) : Prop :=
  match v with
  | S754_zero s => s = false
  | S754_finite false m e => -1074 <= e <= 0 /\ Z.pos m < 2 ^ (- e)
  | _ => False
  end.

(** ** Lemmas: rounding *)

Section Rounding.
(** All exponents are at least [- K]; values are compared as multiples of
    [2 ^ - K]. *)
Context (K : Z) (HK : 5000 <= K).

(** [m * 2^e] is at most [N]. *)
Definition at_most (m e N : Z) : Prop := m * 2 ^ (e + K) <= N * 2 ^ K.

(** [m] is [whole] divided by [2^k] and rounded down, and the two bits tell if
    something was cut off. *)
Definition shifted (whole k : Z) (r : shr_record) : Prop :=
  0 <= shr_m r /\ shr_m r * 2 ^ k <= whole /\ (shr_r r || shr_s r = true -> shr_m r * 2 ^ k < whole).

Lemma shr_1_shifted whole k r : 0 <= k -> shifted whole k r -> shifted whole (k + 1) (shr_1 r).
Proof using Type.
  intros Hk (H0 & H1 & H2). unfold shifted. rewrite Z.pow_add_r, Z.pow_1_r by lia.
  assert (0 < 2 ^ k) as Hp by (apply Z.pow_pos_nonneg; lia).
  destruct r as [m r s]. cbn [shr_m shr_r shr_s] in *. unfold shr_1.
  destruct m as [|[p|p|]|p]; cbn [shr_m shr_r shr_s orb]; try lia.
  all: try pose proof (Pos2Z.inj_xI p); try pose proof (Pos2Z.inj_xO p).
  all: split; [lia|]; split; [nia|]; intros H'; try specialize (H2 H'); nia.
Qed.

Lemma iter_shifted p : forall whole k r, 0 <= k -> shifted whole k r -> shifted whole (k + Z.pos p) (SpecFloat.iter_pos shr_1 p r).
Proof using Type.
  induction p as [p IH|p IH|]; intros whole k r Hk Hs; cbn [SpecFloat.iter_pos].
  - replace (k + Z.pos p~1) with (k + 1 + Z.pos p + Z.pos p) by lia.
    apply IH; [lia|]. apply IH; [lia|]. by apply shr_1_shifted.
  - replace (k + Z.pos p~0) with (k + Z.pos p + Z.pos p) by lia. apply IH; [lia|]. by apply IH.
  - by apply shr_1_shifted.
Qed.

Lemma shr_shifted m e n : 0 <= m ->
  exists r, shr (shr_record_of_loc m loc_Exact) e n = (r, e + Z.max n 0) /\ shifted m (Z.max n 0) r /\
    (n <= 0 -> shr_r r || shr_s r = false).
Proof using Type.
  intros Hm. assert (shifted m 0 (shr_record_of_loc m loc_Exact)) as H0 by (unfold shifted; cbn; lia).
  destruct n as [|p|p]; cbn [shr].
  - eexists. split; [f_equal; lia|]. by split.
  - eexists. split; [f_equal; lia|]. split; [by apply (iter_shifted p m 0) | lia].
  - eexists. split; [f_equal; lia|]. by split.
Qed.

Lemma rounded_up_at_most m lx : m <= round_nearest_even m lx <= m + 1 /\ (lx = loc_Exact -> round_nearest_even m lx = m).
Proof using Type. destruct lx as [|[]]; cbn; try case_match; split; try lia; done. Qed.

Lemma loc_exact r : loc_of_shr_record r = loc_Exact \/ shr_r r || shr_s r = true.
Proof using Type. destruct r as [m [] []]; cbn; auto. Qed.

Lemma digits2_lower p : 2 ^ (Z.pos (digits2_pos p) - 1) <= Z.pos p.
Proof using Type.
  induction p as [p IH|p IH|]; cbn [digits2_pos]; [..|done].
  all: rewrite Pos2Z.inj_succ; replace (Z.succ (Z.pos (digits2_pos p)) - 1) with (Z.pos (digits2_pos p) - 1 + 1) by lia;
    rewrite Z.pow_add_r, Z.pow_1_r by lia; lia.
Qed.

Lemma digits2_upper p : Z.pos p < 2 ^ Z.pos (digits2_pos p).
Proof using Type.
  induction p as [p IH|p IH|]; cbn [digits2_pos]; [..|done].
  all: rewrite Pos2Z.inj_succ, Z.pow_succ_r by lia; lia.
Qed.

(** What is left of an exact number after cutting bits off is not more. *)
Lemma at_most_cut m e N k m' : 0 <= k -> 0 <= e + K -> m' * 2 ^ k <= m -> at_most m e N -> at_most m' (e + k) N.
Proof using HK.
  intros Hk He Hm. unfold at_most. replace (e + k + K) with (k + (e + K)) by lia. rewrite (Z.pow_add_r 2 k) by lia.
  pose proof (Z.pow_nonneg 2 (e + K) ltac:(lia)). nia.
Qed.

(** Rounding to the grid of exponent [e1 <= 0] does not pass a whole number. *)
Lemma at_most_grid m1 e1 N : e1 <= 0 -> 0 <= e1 + K -> m1 * 2 ^ (e1 + K) < N * 2 ^ K -> at_most (m1 + 1) e1 N.
Proof using HK.
  intros He HeK. unfold at_most. replace (2 ^ K) with (2 ^ (- e1) * 2 ^ (e1 + K)) by (rewrite <- Z.pow_add_r by lia; f_equal; lia).
  assert (0 < 2 ^ (e1 + K)) as Hp by (apply Z.pow_pos_nonneg; lia). rewrite (Z.mul_assoc N). intros H.
  apply (Z.mul_lt_mono_pos_r _ _ _ Hp) in H. apply Z.mul_le_mono_nonneg_r; lia.
Qed.

Lemma at_most_small m e N : 0 < m -> 0 <= e + K -> 0 < N < 2 ^ 53 -> at_most m e N -> e < 53.
Proof using HK.
  intros Hm He HN. unfold at_most. intros H. apply Z.nle_gt. intros H53.
  assert (2 ^ 53 * 2 ^ K <= 2 ^ (e + K)) as Hp
    by (rewrite <- Z.pow_add_r by lia; apply Z.pow_le_mono_r; lia).
  pose proof (Z.pow_pos_nonneg 2 K ltac:(lia) ltac:(lia)). nia.
Qed.

(** A number that is not negative and at most [N]. *)
Definition float_at_most (N : Z) (v : float64) : Prop :=
  v = S754_zero false \/ exists m e, v = S754_finite false m e /\ -1074 <= e /\ at_most (Z.pos m) e N.

Lemma round_at_most m e N : -2148 <= e -> 0 < N < 2 ^ 53 -> at_most (Z.pos m) e N ->
  float_at_most N (binary_round_aux 53 1024 false (Z.pos m) e loc_Exact).
Proof using HK.
  intros He HN Hm. unfold binary_round_aux, shr_fexp.
  set (k1 := fexp 53 1024 (Zdigits2 (Z.pos m) + e) - e).
  destruct (shr_shifted (Z.pos m) e k1 ltac:(lia)) as (r1 & -> & (Hs0 & Hs1 & Hs2) & Hk1).
  set (e1 := e + Z.max k1 0). set (m2 := round_nearest_even _ _).
  assert (at_most m2 e1 N) as H2.
  { destruct (rounded_up_at_most (shr_m r1) (loc_of_shr_record r1)) as [Hr Hx]. fold m2 in Hr, Hx.
    destruct (loc_exact r1) as [E|E].
    - rewrite (Hx E). by eapply at_most_cut; [lia|lia| |exact Hm].
    - specialize (Hs2 E). assert (0 < k1) as Hk by (apply Z.nle_gt; intros Hk; rewrite Hk1 in E; done).
      assert (shr_m r1 * 2 ^ (e1 + K) < N * 2 ^ K) as Hlt.
      { unfold at_most in Hm. replace (e1 + K) with (Z.max k1 0 + (e + K)) by (unfold e1; lia).
        rewrite Z.pow_add_r by lia. pose proof (Z.pow_pos_nonneg 2 (e + K) ltac:(lia) ltac:(lia)). nia. }
      assert (e1 <= 0) as He1.
      { apply Z.nlt_ge. intros Hpos. pose proof (digits2_lower m) as Hd. cbn [Zdigits2] in *.
        assert (Z.pos (digits2_pos m) - 1 + (e + K) >= 53 + K) as Hbig by (unfold e1, k1, fexp, emin in Hpos, Hk; lia).
        unfold at_most in Hm. assert (2 ^ (53 + K) <= 2 ^ (Z.pos (digits2_pos m) - 1 + (e + K))) as Hp
          by (apply Z.pow_le_mono_r; lia).
        rewrite (Z.pow_add_r 2 53), (Z.pow_add_r 2 (Z.pos (digits2_pos m) - 1)) in Hp by lia.
        pose proof (Z.pow_pos_nonneg 2 (e + K) ltac:(lia) ltac:(lia)). pose proof (Z.pow_pos_nonneg 2 K ltac:(lia) ltac:(lia)). nia. }
      pose proof (at_most_grid _ _ _ He1 ltac:(unfold e1; lia) Hlt) as Hg. unfold at_most in *.
      pose proof (Z.pow_nonneg 2 (e1 + K) ltac:(lia)). nia. }
  assert (0 <= m2) as Hm2.
  { destruct (rounded_up_at_most (shr_m r1) (loc_of_shr_record r1)) as [Hr _]. unfold m2. lia. }
  set (k2 := fexp 53 1024 (Zdigits2 m2 + e1) - e1).
  destruct (shr_shifted m2 e1 k2 Hm2) as (r3 & -> & (Ht0 & Ht1 & _) & _).
  pose proof (at_most_cut m2 e1 N (Z.max k2 0) (shr_m r3) ltac:(lia) ltac:(unfold e1; lia) Ht1 H2) as H3.
  destruct (shr_m r3) as [|m3|m3]; [by left | | lia].
  pose proof (at_most_small (Z.pos m3) (e1 + Z.max k2 0) N ltac:(lia) ltac:(unfold e1; lia) HN H3).
  rewrite (proj2 (Z.leb_le _ _)) by lia. right. eexists _, _. split; [done|].
  split; [unfold k2, fexp, emin; lia | exact H3].
Qed.

Lemma product_at_most mx ex my ey N : -1074 <= ex -> -1074 <= ey -> 0 <= N ->
  at_most (Z.pos mx) ex 1 -> at_most (Z.pos my) ey N -> at_most (Z.pos (mx * my)) (ex + ey) N.
Proof using HK.
  intros Hx Hy HN. unfold at_most. intros H1 H2. rewrite Pos2Z.inj_mul.
  assert (0 < 2 ^ K) as HK0 by (apply Z.pow_pos_nonneg; lia).
  assert (2 ^ (ex + ey + K) * 2 ^ K = 2 ^ (ex + K) * 2 ^ (ey + K)) as E
    by (rewrite <- !Z.pow_add_r by lia; f_equal; lia).
  apply (Z.mul_le_mono_pos_r _ _ (2 ^ K) HK0).
  replace (Z.pos mx * Z.pos my * 2 ^ (ex + ey + K) * 2 ^ K)
    with ((Z.pos mx * 2 ^ (ex + K)) * (Z.pos my * 2 ^ (ey + K))) by (rewrite <- (Z.mul_assoc (_ * _)), E; ring).
  transitivity ((1 * 2 ^ K) * (N * 2 ^ K)); [|lia].
  apply Z.mul_le_mono_nonneg; try done; pose proof (Z.pow_nonneg 2 (ex + K)); pose proof (Z.pow_nonneg 2 (ey + K)); lia.
Qed.

(** *** What is computed with numbers that are at most [N] *)

Lemma mul_at_most x y N : 0 < N < 2 ^ 53 -> float_at_most 1 x -> float_at_most N y -> float_at_most N (float_mul x y).
Proof using HK.
  intros HN [-> | (mx & ex & -> & Hx & H1)] [-> | (my & ey & -> & Hy & H2)]; try by left.
  apply round_at_most; [lia | done | by apply product_at_most; [..|lia| |]].
Qed.

Lemma iter_xO p k : Z.pos (Pos.iter xO p k) = Z.pos p * 2 ^ Z.pos k.
Proof using Type.
  induction k as [|k IH] using Pos.peano_ind; [change (Pos.iter xO p 1) with (xO p); rewrite Z.pow_1_r; lia|].
  rewrite Pos.iter_succ, Pos2Z.inj_succ, Z.pow_succ_r by lia. lia.
Qed.

Lemma of_Z_at_most d : 0 < d < 2 ^ 53 -> float_at_most d (float_of_Z d).
Proof using HK.
  intros Hd. destruct d as [|p|p]; try lia. unfold float_of_Z, binary_normalize, binary_round, shl_align.
  set (e1 := fexp 53 1024 _). destruct (e1 - 0) as [|k|k] eqn:E.
  1, 2: apply round_at_most; [lia | lia | unfold at_most; by rewrite Z.add_0_l].
  apply round_at_most; [unfold e1, fexp, emin; lia | lia |]. unfold at_most. rewrite iter_xO.
  rewrite <- Z.mul_assoc, <- Z.pow_add_r by (unfold e1, fexp, emin in *; lia). by replace (Z.pos k + (e1 + K)) with K by lia.
Qed.

Lemma trunc_at_most v N : 0 <= N -> float_at_most N v -> 0 <= float_trunc v <= N.
Proof using HK.
  intros HN [-> | (m & e & -> & He & H)]; [cbn; lia|]. unfold at_most in H. cbn [float_trunc].
  destruct (Z.leb_spec 0 e) as [Hp|Hp].
  - rewrite (Z.pow_add_r 2 e) in H by lia. assert (0 < 2 ^ K) as HK0 by (apply Z.pow_pos_nonneg; lia).
    rewrite Z.mul_assoc in H. apply (Z.mul_le_mono_pos_r _ _ _ HK0) in H.
    pose proof (Z.pow_nonneg 2 e ltac:(lia)). nia.
  - assert (0 < 2 ^ (- e)) as H0 by (apply Z.pow_pos_nonneg; lia). split; [apply Z.div_pos; lia|].
    apply Z.div_le_upper_bound; [done|]. assert (0 < 2 ^ (e + K)) as HK0 by (apply Z.pow_pos_nonneg; lia).
    apply (Z.mul_le_mono_pos_r _ _ _ HK0). rewrite (Z.mul_comm (2 ^ (- e))), <- Z.mul_assoc, <- Z.pow_add_r by lia.
    by replace (- e + (e + K)) with K by lia.
Qed.

Lemma unit_at_most v : unit_float v -> float_at_most 1 v.
Proof using HK.
  destruct v as [s| | |[] m e]; cbn; try done; [by intros ->; left|]. intros [He Hm]. right. exists m, e.
  split; [done|]. split; [lia|]. unfold at_most. assert (0 < 2 ^ (e + K)) as HK0 by (apply Z.pow_pos_nonneg; lia).
  replace (1 * 2 ^ K) with (2 ^ (- e) * 2 ^ (e + K)); [nia|]. rewrite <- Z.pow_add_r by lia. rewrite Z.mul_1_l. f_equal. lia.
Qed.

(** A [float64] that is positive and not above 1. *)
Lemma capped_at_most j : valid_binary 53 1024 j = true -> SFltb (S754_zero false) j = true ->
  float_at_most 1 (if SFltb (float_of_Z 1) j then float_of_Z 1 else j).
Proof using HK.
  intros Hv H0. destruct (SFltb (float_of_Z 1) j) eqn:E1; [by apply of_Z_at_most|].
  change (float_of_Z 1) with (S754_finite false 4503599627370496 (-52)) in E1.
  destruct j as [s|[]| |[] m e]; try discriminate H0; [discriminate E1|]. right. exists m, e. split; [done|].
  cbn [valid_binary] in Hv. unfold bounded, canonical_mantissa in Hv.
  apply andb_true_iff in Hv as [Hv%Z.eqb_eq _]. unfold fexp, emin in Hv. split; [lia|].
  assert (e <= -52 /\ Z.pos m <= 2 ^ (- e)) as [He Hm].
  { unfold SFltb, SFcompare in E1. destruct (Z.compare_spec (-52) e) as [<-|Hlt|Hgt]; [|done|].
    - split; [lia|]. change (Pos.compare_cont Eq 4503599627370496 m) with (4503599627370496 ?= m)%positive in E1.
      change (2 ^ (- -52)) with (Z.pos 4503599627370496). apply Pos2Z.pos_le_pos, Pos.le_nlt. intros Hlt.
      apply Pos.compare_lt_iff in Hlt. by rewrite Hlt in E1.
    - split; [lia|]. assert (Z.pos (digits2_pos m) <= 53) as Hd by lia.
      transitivity (2 ^ 53); [|apply Z.pow_le_mono_r; lia]. pose proof (digits2_upper m).
      pose proof (Z.pow_le_mono_r 2 _ _ ltac:(lia) Hd). lia. }
  unfold at_most. assert (0 < 2 ^ (e + K)) as HK0 by (apply Z.pow_pos_nonneg; lia).
  replace (1 * 2 ^ K) with (2 ^ (- e) * 2 ^ (e + K)); [nia|]. rewrite <- Z.pow_add_r by lia. rewrite Z.mul_1_l. f_equal. lia.
Qed.

End Rounding.

(** A random part of a whole number below 2^53 is not negative and not more than
    the number. *)
Lemma random_part rand j d : unit_float rand -> valid_binary 53 1024 j = true -> SFltb (S754_zero false) j = true ->
  0 < d < 2 ^ 53 ->
  0 <= float_trunc (float_mul (float_mul rand (if SFltb (float_of_Z 1) j then float_of_Z 1 else j)) (float_of_Z d)) <= d.
Proof.
  intros Hr Hv H0 Hd. assert (5000 <= 5000) as HK by lia. apply (trunc_at_most 5000 HK); [lia|].
  apply (mul_at_most 5000 HK); [done | | by apply of_Z_at_most]. apply (mul_at_most 5000 HK); [lia | |].
  - by apply unit_at_most.
  - by apply capped_at_most.
Qed.
