(* ===== verification/Headers.v ===== *)
(** * Messages and typed headers (src/message.go, lines 31 to 416)

    The message record, the typed accessors of its header map and the
    reply-for bookkeeping.  Every [Put] and [Get] of [Headers] is a definition;
    the [MessageHeader] methods of the same names delegate to them and are in
    the module [MessageHeader].  Theorems: what every getter returns after the
    put of its type and on a value of the wrong width, the reply-for value a
    message reports, and the well-formedness every operation keeps. *)

From S2P Require Import Prelude.

(** ** Header keys (message.go:41-72) and content types (messages.go:20-28) *)

Definition ConnectionIdHeader : Z := 0.
Definition ReplyForHeader : Z := 1.
Definition ResultSuccessHeader : Z := 2.
Definition HelloRouterAdvertisementsHeader : Z := 3.
Definition HelloVersionHeader : Z := 4.
Definition HeartbeatHeader : Z := 5.
Definition HeartbeatResponseHeader : Z := 6.
Definition TypeHeader : Z := 7.
Definition IdHeader : Z := 8.
Definition IsGroupedHeader : Z := 9.
Definition GroupSecretHeader : Z := 10.
Definition IsFirstGroupConnection : Z := 11.
Definition UnderlayTypeHeader : Z := 12.
Definition HelloRejectClassHeader : Z := 13.
Definition ReflectedHeader : Z := 128.
Definition replyForHeaderLen : Z := 4.

Definition ContentTypeHelloType : Z := 0.
Definition ContentTypePingType : Z := 1.
Definition ContentTypeResultType : Z := 2.
Definition ContentTypeLatencyType : Z := 3.
Definition ContentTypeLatencyResponseType : Z := 4.
Definition ContentTypeHeartbeat : Z := 5.
Definition ContentTypeRaw : Z := 6.

Definition AnyContentType : Z := -1.
Definition HelloSequence : Z := -1.

(** ** Data *)

(** [type Headers map[int32][]byte].  A nil slice and an empty slice are the
    same value here: the code looks at headers only through [len], indexing
    and copies, which do not tell them apart. *)
Abbreviation HeaderMap := (gmap Z bytes).

(** [Message] with its embedded [MessageHeader] flattened.  [replyFor] is the
    cached [*int32]: [None] for the nil pointer. *)
Record Message : Type := mkMessage {
  ContentType : Z;
  sequence : Z;
  replyFor : option Z;
  Headers : HeaderMap;
  Body : bytes
}.

#[global] Instance Message_eq_dec : EqDecision Message.
Proof. solve_decision. Defined.

Definition with_Headers (f : HeaderMap -> HeaderMap) (m : Message) : Message :=
  mkMessage (ContentType m) (sequence m) (replyFor m) (f (Headers m)) (Body m).

Definition with_replyFor (r : option Z) (m : Message) : Message :=
  mkMessage (ContentType m) (sequence m) r (Headers m) (Body m).

Definition NewMessage (contentType : Z) (body : bytes) : Message :=
  mkMessage contentType (-1) None ∅ body.

Definition SetSequence (seq : Z) (m : Message) : Message :=
  mkMessage (ContentType m) seq (replyFor m) (Headers m) (Body m).

(** ** Typed accessors of the header map *)

Definition PutUint64Header (key value : Z) (self : HeaderMap) : HeaderMap :=
  <[key := le_put 8 value]> self.

Definition GetUint64Header (self : HeaderMap) (key : Z) : Z * bool :=
  match self !! key with
  | None => (0, false)
  | Some encoded =>
      if decide (len encoded ≠ 8) then (0, true) else (le_get encoded, true)
  end.

Definition PutUint32Header (key value : Z) (self : HeaderMap) : HeaderMap :=
  <[key := le_put 4 value]> self.

Definition GetUint32Header (self : HeaderMap) (key : Z) : Z * bool :=
  match self !! key with
  | None => (0, false)
  | Some encoded =>
      if decide (len encoded ≠ 4) then (0, false) else (le_get encoded, true)
  end.

Definition PutUint16Header (key value : Z) (self : HeaderMap) : HeaderMap :=
  <[key := le_put 2 value]> self.

Definition GetUint16Header (self : HeaderMap) (key : Z) : Z * bool :=
  match self !! key with
  | None => (0, false)
  | Some encoded =>
      if decide (len encoded ≠ 2) then (0, false) else (le_get encoded, true)
  end.

Definition PutByteHeader (key : Z) (value : byte) (self : HeaderMap) : HeaderMap :=
  <[key := [value]]> self.

Definition PutStringHeader (key : Z) (value : gostring) (self : HeaderMap) : HeaderMap :=
  <[key := value]> self.

Definition GetByteHeader (self : HeaderMap) (key : Z) : byte * bool :=
  match self !! key with
  | None => (Z2b 0, false)
  | Some [] => (Z2b 0, true)
  | Some (b :: _) => (b, true)
  end.

Definition PutBoolHeader (key : Z) (value : bool) (self : HeaderMap) : HeaderMap :=
  <[key := [Z2b (if value then 1 else 0)]]> self.

Definition GetBoolHeader (self : HeaderMap) (key : Z) : bool * bool :=
  match self !! key with
  | None => (false, false)
  | Some encoded =>
      (match encoded with b :: _ => bool_decide (b = Z2b 1) | [] => false end, true)
  end.

Definition GetStringHeader (self : HeaderMap) (key : Z) : gostring * bool :=
  (default [] (self !! key), bool_decide (is_Some (self !! key))).

(** ** The methods of [MessageHeader] that delegate to its headers *)

Module MessageHeader.

Definition PutUint64Header (key value : Z) (m : Message) : Message :=
  with_Headers (<[key := le_put 8 value]>) m.
Definition GetUint64Header (m : Message) (key : Z) : Z * bool := GetUint64Header (Headers m) key.
Definition PutUint32Header (key value : Z) (m : Message) : Message :=
  with_Headers (PutUint32Header key value) m.
Definition GetUint32Header (m : Message) (key : Z) : Z * bool := GetUint32Header (Headers m) key.
Definition PutUint16Header (key value : Z) (m : Message) : Message :=
  with_Headers (PutUint16Header key value) m.
Definition GetUint16Header (m : Message) (key : Z) : Z * bool := GetUint16Header (Headers m) key.
Definition PutByteHeader (key : Z) (value : byte) (m : Message) : Message :=
  with_Headers (PutByteHeader key value) m.
Definition PutStringHeader (key : Z) (value : gostring) (m : Message) : Message :=
  with_Headers (PutStringHeader key value) m.
Definition GetByteHeader (m : Message) (key : Z) : byte * bool := GetByteHeader (Headers m) key.
Definition PutBoolHeader (key : Z) (value : bool) (m : Message) : Message :=
  with_Headers (PutBoolHeader key value) m.
Definition GetBoolHeader (m : Message) (key : Z) : bool * bool := GetBoolHeader (Headers m) key.
Definition GetStringHeader (m : Message) (key : Z) : gostring * bool :=
  GetStringHeader (Headers m) key.

End MessageHeader.

(** ** Reply-for *)

(** [cacheReplyFor] stores the value of the reply-for header in the message,
    [-1] when the header is absent or not four bytes wide. *)
Definition cacheReplyFor (m : Message) : Message :=
  match replyFor m with
  | Some _ => m
  | None =>
      let val :=
        match Headers m !! ReplyForHeader with
        | Some r => if decide (len r = replyForHeaderLen) then int32 (le_get r) else -1
        | None => -1
        end in
      with_replyFor (Some val) m
  end.

(** The dereference [*header.replyFor] of the cached pointer. *)
Definition deref (r : option Z) : outcome Z :=
  match r with Some z => Ret z | None => Panic end.

(** The three readers also return the message they have cached the value in. *)
Definition ReplyFor (m : Message) : outcome Z * Message :=
  let m' := cacheReplyFor m in (deref (replyFor m'), m').

Definition IsReply (m : Message) : outcome bool * Message :=
  let m' := cacheReplyFor m in
  ((fun r => bool_decide (r ≠ -1)) <$> deref (replyFor m'), m').

Definition IsReplyingTo (m : Message) (seq : Z) : outcome bool * Message :=
  let m' := cacheReplyFor m in
  ((fun r => bool_decide (r = seq)) <$> deref (replyFor m'), m').

(** [m.ReplyTo(o)]: the reply-for of [m] becomes the sequence of [o], and the
    reflected header, if [o] has it, is copied. *)
Definition ReplyTo (m o : Message) : Message :=
  let m1 := with_replyFor (Some (sequence o)) m in
  match Headers o !! ReflectedHeader with
  | Some value => with_Headers (<[ReflectedHeader := value]>) m1
  | None => m1
  end.

(** ** Well-formed messages: every field is in the range of its Go type *)

Record wf_message (m : Message) : Prop := {
  wf_contentType : is_i32 (ContentType m);
  wf_sequence : is_i32 (sequence m);
  wf_replyFor : forall r, replyFor m = Some r -> is_i32 r;
  wf_keys : forall k v, Headers m !! k = Some v -> is_i32 k
}.

(** The value a message reports as its reply-for: the cached value, else the
    four-byte header, else [-1]. *)
Definition reply_for_spec (m : Message) : Z :=
  match replyFor m, Headers m !! ReplyForHeader with
  | Some r, _ => r
  | None, Some v => if decide (len v = 4) then int32 (le_get v) else -1
  | None, None => -1
  end.

(** ** Lemmas *)

Lemma GetUint64Header_put k v h :
  is_u64 v -> GetUint64Header (PutUint64Header k v h) k = (v, true).
Proof.
  intros Hv. unfold GetUint64Header, PutUint64Header. rewrite lookup_insert_eq.
  rewrite decide_False by (rewrite len_le_put; lia).
  f_equal. rewrite le_get_put. by apply Z.mod_small.
Qed.

Lemma GetUint32Header_put k v h :
  is_u32 v -> GetUint32Header (PutUint32Header k v h) k = (v, true).
Proof.
  intros Hv. unfold GetUint32Header, PutUint32Header. rewrite lookup_insert_eq.
  rewrite decide_False by (rewrite len_le_put; lia). by rewrite le_get_put_u32.
Qed.

Lemma GetUint16Header_put k v h :
  is_uint 16 v -> GetUint16Header (PutUint16Header k v h) k = (v, true).
Proof.
  intros Hv. unfold GetUint16Header, PutUint16Header. rewrite lookup_insert_eq.
  rewrite decide_False by (rewrite len_le_put; lia).
  f_equal. rewrite le_get_put. by apply Z.mod_small.
Qed.

Lemma GetBoolHeader_put k b h : GetBoolHeader (PutBoolHeader k b h) k = (b, true).
Proof. unfold GetBoolHeader, PutBoolHeader. rewrite lookup_insert_eq. by destruct b. Qed.

Lemma GetByteHeader_put k b h : GetByteHeader (PutByteHeader k b h) k = (b, true).
Proof. unfold GetByteHeader, PutByteHeader. by rewrite lookup_insert_eq. Qed.

Lemma GetStringHeader_put k s h : GetStringHeader (PutStringHeader k s h) k = (s, true).
Proof. unfold GetStringHeader, PutStringHeader. by rewrite lookup_insert_eq. Qed.

Lemma GetBoolHeader_true h k :
  (GetBoolHeader h k).1 = true <-> exists rest, h !! k = Some (Z2b 1 :: rest).
Proof.
  unfold GetBoolHeader. destruct (h !! k) as [[|b r]|] eqn:E; simpl.
  - split; [done | by intros [? ?]].
  - rewrite bool_decide_eq_true. split; [intros ->; eauto | by intros [? [= -> ->]]].
  - split; [done | by intros [? ?]].
Qed.

Lemma cacheReplyFor_idemp m : cacheReplyFor (cacheReplyFor m) = cacheReplyFor m.
Proof. unfold cacheReplyFor. destruct (replyFor m) eqn:E; simpl; by rewrite ?E. Qed.

Lemma cacheReplyFor_Some m : is_Some (replyFor (cacheReplyFor m)).
Proof. unfold cacheReplyFor. destruct (replyFor m) eqn:E; simpl; [by rewrite E | eauto]. Qed.

Lemma cacheReplyFor_same m :
  ContentType (cacheReplyFor m) = ContentType m /\ sequence (cacheReplyFor m) = sequence m /\
  Headers (cacheReplyFor m) = Headers m /\ Body (cacheReplyFor m) = Body m.
Proof. unfold cacheReplyFor. by destruct (replyFor m). Qed.

Lemma int32_range z : is_i32 (int32 z).
Proof. by apply to_sint_range. Qed.

#[export] Hint Resolve int32_range : go.

Lemma wf_cacheReplyFor m : wf_message m -> wf_message (cacheReplyFor m).
Proof.
  intros [Hc Hs Hr Hk]. destruct (cacheReplyFor_same m) as (Ec & Es & Eh & _).
  split; rewrite ?Ec, ?Es, ?Eh; try done.
  unfold cacheReplyFor. destruct (replyFor m) eqn:E; simpl; [intros; apply Hr; congruence|].
  intros r [= <-]. repeat case_match; auto with go; done.
Qed.

Lemma wf_with_Headers f m :
  wf_message m -> (forall k v, f (Headers m) !! k = Some v -> is_i32 k) ->
  wf_message (with_Headers f m).
Proof. intros [] ?. by split. Qed.

Lemma wf_insert_Headers k v m :
  wf_message m -> is_i32 k -> wf_message (with_Headers (<[k := v]>) m).
Proof.
  intros Hwf Hk. apply wf_with_Headers; [done|]. intros k' v'.
  destruct (decide (k = k')) as [->|]; [done|].
  rewrite lookup_insert_ne by done. by apply wf_keys.
Qed.

Lemma wf_ReplyTo m o : wf_message m -> wf_message o -> wf_message (ReplyTo m o).
Proof.
  intros Hm Ho. assert (wf_message (with_replyFor (Some (sequence o)) m)) as H1.
  { destruct Hm, Ho. split; simpl; try done. by intros ? [= <-]. }
  unfold ReplyTo. case_match; [by apply wf_insert_Headers | done].
Qed.

#[export] Hint Resolve wf_ReplyTo wf_cacheReplyFor wf_insert_Headers : go.

(** ** Properties *)

(** Every typed header reads back as it was put (64, 32 and 16 bit
    integers in their range, booleans, bytes and strings), and a put changes no
    other key. *)
Theorem typed_header_roundtrip (k : Z) (h : HeaderMap) :
  (forall v, is_u64 v -> GetUint64Header (PutUint64Header k v h) k = (v, true)) /\
  (forall v, is_u32 v -> GetUint32Header (PutUint32Header k v h) k = (v, true)) /\
  (forall v, is_uint 16 v -> GetUint16Header (PutUint16Header k v h) k = (v, true)) /\
  (forall b, GetBoolHeader (PutBoolHeader k b h) k = (b, true)) /\
  (forall b, GetByteHeader (PutByteHeader k b h) k = (b, true)) /\
  (forall s, GetStringHeader (PutStringHeader k s h) k = (s, true)) /\
  (forall k' v b s x, k' ≠ k ->
     PutUint64Header k v h !! k' = h !! k' /\ PutUint32Header k v h !! k' = h !! k' /\
     PutUint16Header k v h !! k' = h !! k' /\ PutBoolHeader k b h !! k' = h !! k' /\
     PutByteHeader k x h !! k' = h !! k' /\ PutStringHeader k s h !! k' = h !! k').
Proof.
  repeat split; intros; auto using GetUint64Header_put, GetUint32Header_put,
    GetUint16Header_put, GetBoolHeader_put, GetByteHeader_put, GetStringHeader_put;
    by apply lookup_insert_ne.
Qed.

(** A header whose value has the wrong width is never decoded.  The 32 and
    16 bit getters report it as absent; the 64 bit and the byte getter report
    it as found with the value zero, and the boolean getter as found and false. *)
Theorem malformed_header_behaviour (h : HeaderMap) (k : Z) (v : bytes) :
  h !! k = Some v ->
  (len v ≠ 8 -> GetUint64Header h k = (0, true)) /\
  (len v ≠ 4 -> GetUint32Header h k = (0, false)) /\
  (len v ≠ 2 -> GetUint16Header h k = (0, false)) /\
  (v = [] -> GetByteHeader h k = (Z2b 0, true) /\ GetBoolHeader h k = (false, true)).
Proof.
  intros E. unfold GetUint64Header, GetUint32Header, GetUint16Header, GetByteHeader, GetBoolHeader.
  rewrite E. repeat split; intros; subst; by rewrite ?decide_True.
Qed.

Lemma malformed_header_behaviour_witness :
  let h : HeaderMap := {[ HeartbeatHeader := [Z2b 1; Z2b 2; Z2b 3] ]} in
  GetUint64Header h HeartbeatHeader = (0, true) /\ GetUint32Header h HeartbeatHeader = (0, false).
Proof.
  intros h.
  destruct (malformed_header_behaviour h HeartbeatHeader [Z2b 1; Z2b 2; Z2b 3]) as (H8 & H4 & _);
    [reflexivity|].
  split; [apply H8; vm_compute; discriminate | apply H4; vm_compute; discriminate].
Defined.

Lemma ReplyFor_value m : (ReplyFor m).1 = Ret (reply_for_spec m).
Proof.
  unfold ReplyFor, reply_for_spec, cacheReplyFor.
  destruct (replyFor m) eqn:E; simpl; [by rewrite E|]. by repeat case_match.
Qed.

(** [ReplyFor], [IsReply] and [IsReplyingTo] never dereference a nil
    pointer, agree on one value (the cached one, else the four-byte header,
    else -1 for not a reply), and leave everything but the cache unchanged, so
    asking again gives the same answers. *)
Theorem replyFor_readers (m : Message) :
  (ReplyFor m).1 = Ret (reply_for_spec m) /\
  (IsReply m).1 = Ret (bool_decide (reply_for_spec m ≠ -1)) /\
  (forall s, (IsReplyingTo m s).1 = Ret (bool_decide (reply_for_spec m = s))) /\
  (ReplyFor m).2 = cacheReplyFor m /\ (IsReply m).2 = cacheReplyFor m /\
  (forall s, (IsReplyingTo m s).2 = cacheReplyFor m) /\
  Headers (cacheReplyFor m) = Headers m /\ Body (cacheReplyFor m) = Body m /\
  (ReplyFor (cacheReplyFor m)).1 = (ReplyFor m).1.
Proof.
  pose proof (ReplyFor_value m) as E. unfold ReplyFor in E; simpl in E.
  repeat split; simpl; try rewrite E; try done.
  - apply cacheReplyFor_same.
  - apply cacheReplyFor_same.
  - unfold ReplyFor. simpl. by rewrite cacheReplyFor_idemp, E.
Qed.

(** A message made a reply to [o] replies to exactly the sequence of [o];
    its headers are its own except the reflected correlation header, which is
    [o]'s when [o] has one; its content, sequence and body do not change, and
    well-formedness is kept. *)
Theorem ReplyTo_correct (m o : Message) :
  (forall s, (IsReplyingTo (ReplyTo m o) s).1 = Ret (bool_decide (sequence o = s))) /\
  (forall k, k ≠ ReflectedHeader -> Headers (ReplyTo m o) !! k = Headers m !! k) /\
  Headers (ReplyTo m o) !! ReflectedHeader =
    (match Headers o !! ReflectedHeader with Some v => Some v | None => Headers m !! ReflectedHeader end) /\
  ContentType (ReplyTo m o) = ContentType m /\ sequence (ReplyTo m o) = sequence m /\
  Body (ReplyTo m o) = Body m /\
  (wf_message m -> wf_message o -> wf_message (ReplyTo m o)).
Proof.
  assert (replyFor (ReplyTo m o) = Some (sequence o)) as E by (unfold ReplyTo; by case_match).
  split_and!.
  - intros s. unfold IsReplyingTo, cacheReplyFor. rewrite E. simpl. by rewrite E.
  - intros k Hk. unfold ReplyTo. case_match; simpl; [by rewrite lookup_insert_ne | done].
  - unfold ReplyTo. case_match; simpl; [by rewrite lookup_insert_eq | done].
  - unfold ReplyTo. by case_match.
  - unfold ReplyTo. by case_match.
  - unfold ReplyTo. by case_match.
  - auto with go.
Qed.
