(* ===== verification/Codec.v ===== *)
(** * Structured header values (src/message.go, lines 297 to 337 and 778 to 991)

    The length-prefixed encodings of string slices, uint32-to-bytes maps and
    string-to-string maps.  The encoders are modelled as the code has them, as
    writes into a buffer of a computed size with every slice and index
    operation checked; [enc_*] are the reference encodings they are shown equal
    to.  The decoders keep every bound the code checks.  A range over a map is
    in any order ([RangeOrder]); the code ranges twice, to measure and to
    write, so there are two orders. *)

From S2P Require Import Prelude Headers.

(** ** Decoding one string *)

Definition DecodeString (t : gostring) (b : bytes) : outcome (bytes * gostring) :=
  if decide (len b < 4)
  then Err (errors_New (lit "invalid string in " ++ t ++ lit ", not enough bytes for string length"))
  else
    hd ← slice b 0 4;
    sl ← Uint32 hd;
    if decide (8192 < sl)
    then Err (errors_New (lit "strings in " ++ t ++ lit " may have max length 8192"))
    else
      b1 ← slice b 4 (len b);
      if decide (uint32 (len b1) < sl)
      then Err (errors_New (lit "invalid string length in " ++ t ++ lit ", longer than remaining data"))
      else
        s ← slice b1 0 sl;
        b2 ← slice b1 sl (len b1);
        Ret (b2, s).

(** ** String slices *)

(** Writes [uint32(len(s))] and then [s] at [idx]. *)
Definition put_string (st : bytes * Z) (s : gostring) : outcome (bytes * Z) :=
  let '(result, idx) := st in
  r1 ← put_u32 result idx (uint32 (len s));
  r2 ← copy_at r1 (idx + 4) s;
  Ret (r2, idx + (4 + len s)).

Definition finish (l : Z) (st : bytes * Z) : outcome bytes :=
  let '(result, idx) := st in
  if decide (idx ≠ l) then Panic else Ret result.

Definition EncodeStringSlice (strSlice : list gostring) : outcome bytes :=
  if decide (len strSlice = 0) then Ret []
  else
    let l := foldl (fun l s => l + len s) (4 + 4 * len strSlice) strSlice in
    let result := make_bytes l in
    result ← put_u32 result 0 (uint32 (len strSlice));
    st ← for_each put_string strSlice (result, 4);
    finish l st.

(** [for i = 0; i < l; i++], appending each decoded string. *)
Fixpoint decode_strings (n : nat) (b : bytes) (result : list gostring) : outcome (list gostring) :=
  match n with
  | O => Ret result
  | S n' =>
      bs ← DecodeString (lit "string slice") b;
      decode_strings n' bs.1 (result ++ [bs.2])
  end.

Definition DecodeStringSlice (b : bytes) : outcome (list gostring) :=
  if decide (len b = 0) then Ret []
  else if decide (len b < 4)
  then Err (errors_New (lit "invalid string slice, not enough bytes for slice length"))
  else
    hd ← slice b 0 4;
    l ← Uint32 hd;
    if decide (128 < l)
    then Err (errors_New (lit "string slice may have at most 128 entries"))
    else
      b1 ← slice b 4 (len b);
      decode_strings (Z.to_nat l) b1 [].

(** ** uint32-to-bytes maps *)

Definition put_u32_entry (st : bytes * Z) (kv : Z * bytes) : outcome (bytes * Z) :=
  let '(result, idx) := st in
  r1 ← put_u32 result idx kv.1;
  r2 ← put_u32 r1 (idx + 4) (uint32 (len kv.2));
  r3 ← copy_at r2 (idx + 8) kv.2;
  Ret (r3, idx + (8 + len kv.2)).

Definition EncodeU32ToBytesMap (rng1 rng2 : gmap Z bytes -> list (Z * bytes))
    (m : gmap Z bytes) : outcome bytes :=
  if decide (Z.of_nat (size m) = 0) then Ret []
  else
    let l := foldl (fun l kv => l + len kv.2) (4 + 8 * Z.of_nat (size m)) (rng1 m) in
    let result := make_bytes l in
    result ← put_u32 result 0 (uint32 (Z.of_nat (size m)));
    st ← for_each put_u32_entry (rng2 m) (result, 4);
    finish l st.

Fixpoint decode_u32_entries (n : nat) (b : bytes) (result : gmap Z bytes) : outcome (gmap Z bytes) :=
  match n with
  | O => Ret result
  | S n' =>
      if decide (len b < 4)
      then Err (errors_New (lit "invalid uint32->bytes map, not enough bytes for key"))
      else
        kb ← slice b 0 4;
        key ← Uint32 kb;
        b1 ← slice b 4 (len b);
        if decide (len b1 < 4)
        then Err (errors_New (lit "invalid uint32->bytes map, not enough bytes for entry length"))
        else
          lb ← slice b1 0 4;
          entryLen ← Uint32 lb;
          if decide (8192 < entryLen)
          then Err (errors_New (lit "entries in uint32->bytes map may have max length 8192"))
          else
            b2 ← slice b1 4 (len b1);
            if decide (uint32 (len b2) < entryLen)
            then Err (errors_New (lit "invalid uint32->bytes map entry length, longer than remaining data"))
            else if decide (entryLen = 0)
            then decode_u32_entries n' b2 (<[key := []]> result)
            else
              v ← slice b2 0 entryLen;
              b3 ← slice b2 entryLen (len b2);
              decode_u32_entries n' b3 (<[key := v]> result)
  end.

Definition DecodeU32ToBytesMap (b : bytes) : outcome (gmap Z bytes) :=
  if decide (len b = 0) then Ret ∅
  else if decide (len b < 4)
  then Err (errors_New (lit "invalid uint32->bytes map, not enough bytes for map length"))
  else
    hd ← slice b 0 4;
    l ← Uint32 hd;
    if decide (128 < l)
    then Err (errors_New (lit "uint32->bytes map may have at most 128 entries"))
    else
      b1 ← slice b 4 (len b);
      decode_u32_entries (Z.to_nat l) b1 ∅.

(** ** String-to-string maps *)

Definition put_string_entry (st : bytes * Z) (kv : gostring * gostring) : outcome (bytes * Z) :=
  st1 ← put_string st kv.1;
  put_string st1 kv.2.

Definition EncodeStringToStringMap (rng1 rng2 : gmap gostring gostring -> list (gostring * gostring))
    (m : gmap gostring gostring) : outcome bytes :=
  if decide (Z.of_nat (size m) = 0) then Ret []
  else
    let l := foldl (fun l kv => l + (len kv.1 + len kv.2)) (4 + 8 * Z.of_nat (size m)) (rng1 m) in
    let result := make_bytes l in
    result ← put_u32 result 0 (uint32 (Z.of_nat (size m)));
    st ← for_each put_string_entry (rng2 m) (result, 4);
    finish l st.

Fixpoint decode_string_entries (n : nat) (b : bytes) (result : gmap gostring gostring)
    : outcome (gmap gostring gostring) :=
  match n with
  | O => Ret result
  | S n' =>
      bk ← DecodeString (lit "string->string map") b;
      bv ← DecodeString (lit "string->string map") bk.1;
      decode_string_entries n' bv.1 (<[bk.2 := bv.2]> result)
  end.

Definition DecodeStringToStringMap (b : bytes) : outcome (gmap gostring gostring) :=
  if decide (len b = 0) then Ret ∅
  else if decide (len b < 4)
  then Err (errors_New (lit "invalid string->string map, not enough bytes for map length"))
  else
    hd ← slice b 0 4;
    l ← Uint32 hd;
    if decide (128 < l)
    then Err (errors_New (lit "string->string map may have at most 128 entries"))
    else
      b1 ← slice b 4 (len b);
      decode_string_entries (Z.to_nat l) b1 ∅.

(** ** The header accessors for these values *)

Definition PutStringSliceHeader (key : Z) (s : list gostring) (self : HeaderMap) : outcome HeaderMap :=
  (fun v => <[key := v]> self) <$> EncodeStringSlice s.

(** The value, whether the header was found, and the error. *)
Definition GetStringSliceHeader (self : HeaderMap) (key : Z) : bool * outcome (list gostring) :=
  match self !! key with
  | None => (false, Ret [])
  | Some encoded => (true, DecodeStringSlice encoded)
  end.

Definition PutU32ToBytesMapHeader (rng1 rng2 : gmap Z bytes -> list (Z * bytes)) (key : Z)
    (m : gmap Z bytes) (self : HeaderMap) : outcome HeaderMap :=
  (fun v => <[key := v]> self) <$> EncodeU32ToBytesMap rng1 rng2 m.

Definition GetU32ToBytesMapHeader (self : HeaderMap) (key : Z) : bool * outcome (gmap Z bytes) :=
  match self !! key with
  | None => (false, Ret ∅)
  | Some encoded => (true, DecodeU32ToBytesMap encoded)
  end.

Definition PutStringToStringMapHeader
    (rng1 rng2 : gmap gostring gostring -> list (gostring * gostring)) (key : Z)
    (m : gmap gostring gostring) (self : HeaderMap) : outcome HeaderMap :=
  (fun v => <[key := v]> self) <$> EncodeStringToStringMap rng1 rng2 m.

Definition GetStringToStringMapHeader (self : HeaderMap) (key : Z)
    : bool * outcome (gmap gostring gostring) :=
  match self !! key with
  | None => (false, Ret ∅)
  | Some encoded => (true, DecodeStringToStringMap encoded)
  end.

(** The same on the header of a message. *)
Module MessageHeader.

Definition on_headers (f : HeaderMap -> outcome HeaderMap) (m : Message) : outcome Message :=
  (fun h => with_Headers (fun _ => h) m) <$> f (Headers m).

Definition PutStringSliceHeader (key : Z) (s : list gostring) : Message -> outcome Message :=
  on_headers (PutStringSliceHeader key s).
Definition GetStringSliceHeader (m : Message) (key : Z) : bool * outcome (list gostring) :=
  GetStringSliceHeader (Headers m) key.
Definition PutU32ToBytesMapHeader (rng1 rng2 : gmap Z bytes -> list (Z * bytes)) (key : Z) (v : gmap Z bytes)
    : Message -> outcome Message :=
  on_headers (PutU32ToBytesMapHeader rng1 rng2 key v).
Definition GetU32ToBytesMapHeader (m : Message) (key : Z) : bool * outcome (gmap Z bytes) :=
  GetU32ToBytesMapHeader (Headers m) key.
Definition PutStringToStringMapHeader (rng1 rng2 : gmap gostring gostring -> list (gostring * gostring)) (key : Z)
    (v : gmap gostring gostring) : Message -> outcome Message :=
  on_headers (PutStringToStringMapHeader rng1 rng2 key v).
Definition GetStringToStringMapHeader (m : Message) (key : Z) : bool * outcome (gmap gostring gostring) :=
  GetStringToStringMapHeader (Headers m) key.

End MessageHeader.

(** ** Reference encodings *)

Definition enc_string (s : gostring) : bytes := le_put 4 (uint32 (len s)) ++ s.
Definition enc_u32_entry (kv : Z * bytes) : bytes := le_put 4 kv.1 ++ enc_string kv.2.
Definition enc_string_entry (kv : gostring * gostring) : bytes := enc_string kv.1 ++ enc_string kv.2.

(** A counted sequence; the empty one is the empty value. *)
Definition enc_counted {A} (enc : A -> bytes) (l : list A) : bytes :=
  match l with [] => [] | _ => le_put 4 (uint32 (len l)) ++ concat (enc <$> l) end.

(** The limits the decoders enforce. *)
Definition slice_limits (l : list gostring) : Prop :=
  len l <= 128 /\ Forall (fun s => len s <= 8192) l.

Definition u32_map_limits (m : gmap Z bytes) : Prop :=
  Z.of_nat (size m) <= 128 /\ map_Forall (fun k v => is_u32 k /\ len v <= 8192) m.

Definition string_map_limits (m : gmap gostring gostring) : Prop :=
  Z.of_nat (size m) <= 128 /\ map_Forall (fun k v => len k <= 8192 /\ len v <= 8192) m.

(** ** The encoders write the reference encoding *)

(** A writer that fills a fresh buffer from the left with [enc x]. *)
Definition fills {A} (f : bytes * Z -> A -> outcome (bytes * Z)) (enc : A -> bytes) : Prop :=
  forall d n x, (length (enc x) <= n)%nat ->
    f (d ++ replicate n Byte.x00, len d) x =
    Ret ((d ++ enc x) ++ replicate (n - length (enc x)) Byte.x00, len (d ++ enc x)).

Lemma for_each_fills {A} (f : bytes * Z -> A -> outcome (bytes * Z)) enc (l : list A) d n :
  fills f enc -> (length (concat (enc <$> l)) <= n)%nat ->
  for_each f l (d ++ replicate n Byte.x00, len d) =
  Ret ((d ++ concat (enc <$> l)) ++ replicate (n - length (concat (enc <$> l))) Byte.x00,
       len (d ++ concat (enc <$> l))).
Proof.
  intros Hf. revert d n. induction l as [|x l IH]; intros d n; csimpl.
  - intros _. by rewrite app_nil_r, Nat.sub_0_r.
  - rewrite length_app. intros Hn. rewrite Hf by lia. csimpl. rewrite IH by lia.
    rewrite <- !(app_assoc d). by rewrite Nat.sub_add_distr.
Qed.

Lemma put_string_fills : fills put_string enc_string.
Proof.
  intros d n s. unfold enc_string. rewrite length_app, length_le_put. intros Hn.
  unfold put_string. rewrite put_u32_fresh by lia. run.
  replace (len d + 4) with (len (d ++ le_put 4 (uint32 (len s)))) by go_len.
  rewrite copy_at_fresh by lia. run. rewrite <- !(app_assoc d), Nat.sub_add_distr.
  do 2 f_equal. go_len.
Qed.

Lemma put_u32_entry_fills : fills put_u32_entry enc_u32_entry.
Proof.
  intros d n [k v]. unfold enc_u32_entry, enc_string. cbn [fst snd].
  rewrite !length_app, !length_le_put. intros Hn.
  unfold put_u32_entry. run. rewrite put_u32_fresh by lia. run.
  replace (len d + 4) with (len (d ++ le_put 4 k)) by go_len.
  rewrite put_u32_fresh by lia. run.
  replace (len d + 8) with (len ((d ++ le_put 4 k) ++ le_put 4 (uint32 (len v)))) by go_len.
  rewrite copy_at_fresh by lia. run. rewrite <- !(app_assoc d), <- !(app_assoc (le_put 4 k)).
  rewrite !Nat.sub_add_distr. do 2 f_equal. go_len.
Qed.

Lemma put_string_entry_fills : fills put_string_entry enc_string_entry.
Proof.
  intros d n [k v]. unfold enc_string_entry. cbn [fst snd]. rewrite length_app. intros Hn.
  unfold put_string_entry. run. rewrite put_string_fills by lia. run.
  rewrite put_string_fills by lia. by rewrite <- !(app_assoc d), Nat.sub_add_distr.
Qed.

(** The whole encoder: allocate, write the count, write the entries, check. *)
Lemma encode_counted {A} (f : bytes * Z -> A -> outcome (bytes * Z)) enc (l : list A) total c :
  fills f enc -> total = 4 + len (concat (enc <$> l)) ->
  (result ← put_u32 (make_bytes total) 0 c;
   st ← for_each f l (result, 4); finish total st) =
  Ret (le_put 4 c ++ concat (enc <$> l)).
Proof.
  intros Hf ->. unfold make_bytes.
  change (replicate ?n Byte.x00) with ([] ++ replicate n Byte.x00).
  change 0 with (len (@nil byte)). rewrite put_u32_fresh by go_len. cbn [mbind outcome_bind app].
  replace 4 with (len (le_put 4 c)) at 2 by go_len.
  rewrite (for_each_fills f enc) by (done || go_len). cbn [mbind outcome_bind finish].
  rewrite decide_False by go_len.
  replace (_ - _)%nat with 0%nat by go_len. by rewrite app_nil_r.
Qed.

Lemma foldl_sum {A} (g : A -> Z) (l : list A) c :
  foldl (fun acc x => acc + g x) c l = c + foldr (fun x acc => g x + acc) 0 l.
Proof. revert c. induction l as [|x l IH]; intros c; simpl; [lia|]. rewrite IH. lia. Qed.

Lemma foldl_sum_perm {A} (g : A -> Z) (l1 l2 : list A) c :
  l1 ≡ₚ l2 -> foldl (fun acc x => acc + g x) c l1 = foldl (fun acc x => acc + g x) c l2.
Proof.
  intros H. rewrite !foldl_sum. f_equal.
  apply (foldr_permutation_proper eq); [apply _ | | done]. intros; lia.
Qed.

Lemma total_concat {A} (enc : A -> bytes) (k : Z) (g : A -> Z) (l : list A) :
  (forall x, len (enc x) = k + g x) ->
  foldl (fun acc x => acc + g x) (4 + k * len l) l = 4 + len (concat (enc <$> l)).
Proof.
  intros He. rewrite foldl_sum.
  induction l as [|x l IH]; csimpl; [unfold len; simpl length; lia|].
  rewrite len_app, len_cons, He. lia.
Qed.

Lemma EncodeStringSlice_ref l : EncodeStringSlice l = Ret (enc_counted enc_string l).
Proof.
  unfold EncodeStringSlice. destruct l as [|x l]; [done|]. rewrite decide_False by go_len.
  apply encode_counted; [apply put_string_fills|]. apply total_concat.
  intros s. unfold enc_string. go_len.
Qed.

Section MapEncoders.
Context (rng1 rng2 : gmap Z bytes -> list (Z * bytes)) `{!RangeOrder rng1, !RangeOrder rng2}.
Context (srng1 srng2 : gmap gostring gostring -> list (gostring * gostring))
  `{!RangeOrder srng1, !RangeOrder srng2}.

Lemma range_length {K V} `{Countable K} (rng : gmap K V -> list (K * V)) `{!RangeOrder rng} m :
  len (rng m) = Z.of_nat (size m).
Proof. unfold len. rewrite (range_perm m), length_map_to_list. done. Qed.

Lemma range_empty {K V} `{Countable K} (rng : gmap K V -> list (K * V)) `{!RangeOrder rng} m :
  size m = 0%nat -> rng m = [].
Proof.
  intros Hs. pose proof (range_length rng m) as Hl. destruct (rng m); [done|].
  unfold len in Hl. simpl in Hl. lia.
Qed.

Lemma range_cons {K V} `{Countable K} (rng : gmap K V -> list (K * V)) `{!RangeOrder rng} m
    (enc : K * V -> bytes) :
  size m ≠ 0%nat ->
  enc_counted enc (rng m) = le_put 4 (uint32 (len (rng m))) ++ concat (enc <$> rng m).
Proof.
  intros Hs. pose proof (range_length rng m) as Hl. destruct (rng m); [|done].
  unfold len in Hl. simpl in Hl. lia.
Qed.

Lemma EncodeU32ToBytesMap_ref m :
  EncodeU32ToBytesMap rng1 rng2 m = Ret (enc_counted enc_u32_entry (rng2 m)).
Proof.
  unfold EncodeU32ToBytesMap. case_decide as Hs.
  { by rewrite (range_empty rng2) by lia. }
  rewrite (range_cons rng2) by lia.
  rewrite (foldl_sum_perm _ _ (rng2 m)) by (by rewrite !range_perm).
  rewrite <- (range_length rng2). apply encode_counted; [apply put_u32_entry_fills|].
  apply total_concat. intros [k v]. unfold enc_u32_entry, enc_string. simpl. go_len.
Qed.

Lemma EncodeStringToStringMap_ref m :
  EncodeStringToStringMap srng1 srng2 m = Ret (enc_counted enc_string_entry (srng2 m)).
Proof.
  unfold EncodeStringToStringMap. case_decide as Hs.
  { by rewrite (range_empty srng2) by lia. }
  rewrite (range_cons srng2) by lia.
  rewrite (foldl_sum_perm _ _ (srng2 m)) by (by rewrite !range_perm).
  rewrite <- (range_length srng2). apply encode_counted; [apply put_string_entry_fills|].
  apply total_concat. intros [k v]. unfold enc_string_entry, enc_string. simpl. go_len.
Qed.

End MapEncoders.

(** ** What the decoders accept *)

Lemma enc_string_len s : len (enc_string s) = 4 + len s.
Proof. unfold enc_string. go_len. Qed.

Lemma concat_fmap_cons {A B} (enc : A -> list B) x l rest :
  concat (enc <$> x :: l) ++ rest = enc x ++ concat (enc <$> l) ++ rest.
Proof. csimpl. by rewrite app_assoc. Qed.

Lemma concat_fmap_one {A B} (enc : A -> list B) x l :
  concat (enc <$> x :: l) = enc x ++ concat (enc <$> l).
Proof. done. Qed.

Lemma small_u32 z : 0 <= z <= 8192 -> is_u32 z /\ uint32 z = z.
Proof. intros H. assert (is_u32 z) by (split; lia). split; [done|]. by apply to_uint_id. Qed.

Lemma DecodeString_enc t s rest :
  len s <= 8192 -> len s + len rest < 2 ^ 32 ->
  DecodeString t (enc_string s ++ rest) = Ret (rest, s).
Proof.
  intros Hs Hr. pose proof (len_nonneg s). pose proof (len_nonneg rest).
  destruct (small_u32 (len s)) as [Hu E]; [lia|].
  unfold DecodeString, enc_string. rewrite E, <- app_assoc.
  rewrite decide_False by (rewrite len_app, len_le_put; pose proof (len_nonneg (s ++ rest)); lia).
  rewrite slice_prefix by (by rewrite len_le_put). run. rewrite Uint32_put by done. run.
  rewrite decide_False by lia.
  rewrite slice_suffix by (by rewrite ?len_le_put). run.
  rewrite decide_False by (rewrite to_uint_id; rewrite len_app; unfold is_uint; lia).
  rewrite slice_prefix by done. run. by rewrite slice_suffix by done.
Qed.

Lemma DecodeString_cases t b :
  (exists s rest, b = enc_string s ++ rest /\ len s <= 8192 /\ DecodeString t b = Ret (rest, s)) \/
  (exists e, DecodeString t b = Err e).
Proof.
  unfold DecodeString. case_decide as H4; [eauto|].
  destruct (split_u32 b) as (sl & c & -> & Hsl); [lia|].
  rewrite slice_prefix by (by rewrite len_le_put). run. rewrite Uint32_put by done. run.
  case_decide as H8; [eauto|].
  rewrite slice_suffix by (by rewrite ?len_le_put). run.
  case_decide as Hc; [eauto|]. left.
  pose proof (uint32_le (len c) (len_nonneg c)). unfold is_uint in Hsl.
  destruct (split_prefix c sl) as (s & r & -> & <-); [lia|].
  exists s, r. rewrite slice_prefix by done. run. rewrite slice_suffix by done. run.
  destruct (small_u32 (len s)) as [_ E]; [lia|].
  unfold enc_string. rewrite E, <- app_assoc. split; [done|]. split; [lia | done].
Qed.

Lemma decode_strings_enc l rest acc :
  Forall (fun s => len s <= 8192) l -> len (concat (enc_string <$> l) ++ rest) < 2 ^ 32 ->
  decode_strings (length l) (concat (enc_string <$> l) ++ rest) acc = Ret (acc ++ l).
Proof.
  intros Hl. revert acc. induction Hl as [|s l Hs Hl IH]; intros acc Hb.
  - simpl. by rewrite app_nil_r.
  - rewrite concat_fmap_cons, len_app, enc_string_len in Hb.
    rewrite concat_fmap_cons. cbn [length decode_strings].
    pose proof (len_nonneg s). pose proof (len_nonneg (concat (enc_string <$> l) ++ rest)).
    rewrite DecodeString_enc by lia. run. rewrite IH by lia. by rewrite <- app_assoc.
Qed.

Lemma decode_strings_cases n b acc :
  (exists l rest, length l = n /\ b = concat (enc_string <$> l) ++ rest /\
     Forall (fun s => len s <= 8192) l /\ decode_strings n b acc = Ret (acc ++ l)) \/
  (exists e, decode_strings n b acc = Err e).
Proof.
  revert b acc. induction n as [|n IH]; intros b acc.
  - left. exists [], b. simpl. by rewrite app_nil_r.
  - cbn [decode_strings].
    destruct (DecodeString_cases (lit "string slice") b) as [(s & r & -> & Hs & ->)|[e ->]];
      run; [|eauto].
    destruct (IH r (acc ++ [s])) as [(l & r' & <- & -> & Hl & ->)|[e ->]]; [|eauto].
    left. exists (s :: l), r'. csimpl. rewrite <- !app_assoc. auto.
Qed.

Lemma decode_u32_entries_enc l rest acc :
  Forall (fun kv => is_u32 kv.1 /\ len kv.2 <= 8192) l ->
  len (concat (enc_u32_entry <$> l) ++ rest) < 2 ^ 32 ->
  decode_u32_entries (length l) (concat (enc_u32_entry <$> l) ++ rest) acc =
  Ret (copy_entries l acc).
Proof.
  intros Hl. revert acc. induction Hl as [|[k v] l [Hk Hv] Hl IH]; intros acc Hb; [done|].
  rewrite concat_fmap_cons in *. cbn [fst snd length decode_u32_entries] in *.
  set (tl := concat _ ++ rest) in *. unfold enc_u32_entry, enc_string in Hb |- *. cbn [fst snd] in *.
  destruct (small_u32 (len v)) as [Hu E]; [pose proof (len_nonneg v); lia|].
  rewrite E in *. rewrite <- !app_assoc in *. rewrite !len_app, !len_le_put in Hb.
  pose proof (len_nonneg v). pose proof (len_nonneg tl).
  rewrite decide_False by (rewrite len_app, len_le_put; pose proof (len_nonneg (le_put 4 (len v) ++ v ++ tl)); lia).
  rewrite slice_prefix by (by rewrite len_le_put). run. rewrite Uint32_put by done. run.
  rewrite slice_suffix by (by rewrite ?len_le_put). run.
  rewrite decide_False by (rewrite len_app, len_le_put; pose proof (len_nonneg (v ++ tl)); lia).
  rewrite slice_prefix by (by rewrite len_le_put). run. rewrite Uint32_put by done. run.
  rewrite decide_False by lia.
  rewrite slice_suffix by (by rewrite ?len_le_put). run.
  rewrite decide_False by (rewrite to_uint_id; rewrite len_app; unfold is_uint; lia).
  case_decide as Hz.
  - assert (v = []) as -> by (destruct v; [done|rewrite len_cons in Hz; pose proof (len_nonneg v); lia]).
    apply IH. lia.
  - rewrite slice_prefix by done. run. rewrite slice_suffix by done. run. apply IH. lia.
Qed.

Lemma decode_u32_entries_cases n b acc :
  (exists l rest, length l = n /\ b = concat (enc_u32_entry <$> l) ++ rest /\
     Forall (fun kv => is_u32 kv.1 /\ len kv.2 <= 8192) l /\
     decode_u32_entries n b acc = Ret (copy_entries l acc)) \/
  (exists e, decode_u32_entries n b acc = Err e).
Proof.
  revert b acc. induction n as [|n IH]; intros b acc.
  { left. by exists [], b. }
  cbn [decode_u32_entries]. case_decide as H4; [eauto|].
  destruct (split_u32 b) as (k & c & -> & Hk); [lia|].
  rewrite slice_prefix by (by rewrite len_le_put). run. rewrite Uint32_put by done. run.
  rewrite slice_suffix by (by rewrite ?len_le_put). run.
  case_decide as H4'; [eauto|].
  destruct (split_u32 c) as (n' & c' & -> & Hn); [lia|].
  rewrite slice_prefix by (by rewrite len_le_put). run. rewrite Uint32_put by done. run.
  case_decide as H8; [eauto|].
  rewrite slice_suffix by (by rewrite ?len_le_put). run.
  case_decide as Hc; [eauto|].
  pose proof (uint32_le (len c') (len_nonneg c')). unfold is_uint in Hn.
  destruct (split_prefix c' n') as (v & r & -> & <-); [lia|].
  destruct (small_u32 (len v)) as [_ E]; [lia|].
  assert (forall acc', acc' = <[k := v]> acc ->
    (exists l rest, length l = S n /\
      le_put 4 k ++ le_put 4 (len v) ++ v ++ r = concat (enc_u32_entry <$> l) ++ rest /\
      Forall (fun kv => is_u32 kv.1 /\ len kv.2 <= 8192) l /\
      decode_u32_entries n r acc' = Ret (copy_entries l acc)) \/
    (exists e, decode_u32_entries n r acc' = Err e)) as Hgo.
  { intros acc' ->. destruct (IH r (<[k := v]> acc)) as [(l & r' & <- & -> & Hl & ->)|[e ->]]; [|eauto].
    left. exists ((k, v) :: l), r'. rewrite concat_fmap_cons.
    replace (enc_u32_entry (k, v)) with (le_put 4 k ++ le_put 4 (len v) ++ v)
      by (unfold enc_u32_entry, enc_string; cbn [fst snd]; by rewrite E).
    rewrite <- !app_assoc.
    split; [done|]. split; [done|]. split; [|done]. constructor; [|done]. simpl; split; [done | lia]. }
  case_decide as Hz.
  - assert (v = []) as Ev by (destruct v; [done|rewrite len_cons in Hz; pose proof (len_nonneg v); lia]).
    rewrite Ev in *. by apply Hgo.
  - rewrite slice_prefix by done. run. rewrite slice_suffix by done. run. by apply Hgo.
Qed.

Lemma decode_string_entries_enc l rest acc :
  Forall (fun kv => len kv.1 <= 8192 /\ len kv.2 <= 8192) l ->
  len (concat (enc_string_entry <$> l) ++ rest) < 2 ^ 32 ->
  decode_string_entries (length l) (concat (enc_string_entry <$> l) ++ rest) acc =
  Ret (copy_entries l acc).
Proof.
  intros Hl. revert acc. induction Hl as [|[k v] l [Hk Hv] Hl IH]; intros acc Hb; [done|].
  rewrite concat_fmap_cons in *. cbn [fst snd length decode_string_entries] in *.
  set (tl := concat _ ++ rest) in *. unfold enc_string_entry in Hb |- *. cbn [fst snd] in *.
  rewrite <- !app_assoc in *. rewrite !len_app, !enc_string_len in Hb.
  pose proof (len_nonneg k). pose proof (len_nonneg v). pose proof (len_nonneg tl).
  rewrite DecodeString_enc by (rewrite ?len_app, ?enc_string_len; lia). run.
  rewrite DecodeString_enc by lia. run. apply IH. lia.
Qed.

Lemma decode_string_entries_cases n b acc :
  (exists l rest, length l = n /\ b = concat (enc_string_entry <$> l) ++ rest /\
     Forall (fun kv => len kv.1 <= 8192 /\ len kv.2 <= 8192) l /\
     decode_string_entries n b acc = Ret (copy_entries l acc)) \/
  (exists e, decode_string_entries n b acc = Err e).
Proof.
  revert b acc. induction n as [|n IH]; intros b acc.
  { left. by exists [], b. }
  cbn [decode_string_entries].
  destruct (DecodeString_cases (lit "string->string map") b) as [(k & r & -> & Hk & ->)|[e ->]];
    run; [|eauto].
  destruct (DecodeString_cases (lit "string->string map") r) as [(v & r' & -> & Hv & ->)|[e ->]];
    run; [|eauto].
  destruct (IH r' (<[k := v]> acc)) as [(l & r'' & <- & -> & Hl & ->)|[e ->]]; [|eauto].
  left. exists ((k, v) :: l), r''. rewrite concat_fmap_cons.
  change (enc_string_entry (k, v)) with (enc_string k ++ enc_string v).
  rewrite <- app_assoc. split; [done|]. split; [done|]. split; [by constructor | done].
Qed.

(** The part the three decoders share: the count and its bound. *)
Lemma counted_split (b : bytes) :
  len b ≠ 0 -> ~ len b < 4 ->
  exists c body, b = le_put 4 c ++ body /\ is_u32 c /\
    slice b 0 4 = Ret (le_put 4 c) /\ Uint32 (le_put 4 c) = Ret c /\
    slice b 4 (len b) = Ret body.
Proof.
  intros H0 H4. destruct (split_u32 b) as (c & body & -> & Hc); [lia|].
  exists c, body. rewrite slice_prefix by (by rewrite len_le_put).
  rewrite slice_suffix by (by rewrite ?len_le_put). rewrite Uint32_put by done. auto.
Qed.

(** What a counted decoder does on a counted encoding within the count limit. *)
Lemma counted_enc {A} (enc : A -> bytes) (l : list A) :
  l ≠ [] -> len l <= 128 ->
  let b := enc_counted enc l in
  len b ≠ 0 /\ ~ len b < 4 /\ slice b 0 4 = Ret (le_put 4 (len l)) /\
  Uint32 (le_put 4 (len l)) = Ret (len l) /\ ~ 128 < len l /\
  slice b 4 (len b) = Ret (concat (enc <$> l)) /\ Z.to_nat (len l) = length l.
Proof.
  intros Hne Hl b. pose proof (len_nonneg l).
  destruct (small_u32 (len l)) as [Hu E]; [lia|].
  assert (b = le_put 4 (len l) ++ concat (enc <$> l)) as ->.
  { unfold b, enc_counted. rewrite E. by destruct l. }
  pose proof (len_nonneg (concat (enc <$> l))). rewrite len_app, len_le_put at 1 2.
  rewrite slice_prefix by (by rewrite len_le_put).
  rewrite slice_suffix by (by rewrite ?len_le_put). rewrite Uint32_put by done.
  repeat split; try lia. unfold len. lia.
Qed.

Lemma concat_len_bound {A} (enc : A -> bytes) (l : list A) k :
  0 <= k -> Forall (fun x => len (enc x) <= k) l -> len (concat (enc <$> l)) <= k * len l.
Proof.
  intros Hk. induction 1 as [|x l Hx Hl IH]; [unfold len; simpl length; lia|].
  csimpl. rewrite len_app, len_cons. lia.
Qed.

Lemma map_to_list_Forall {K V} `{Countable K} (rng : gmap K V -> list (K * V)) `{!RangeOrder rng}
    (P : K -> V -> Prop) m :
  map_Forall P m -> Forall (fun kv => P kv.1 kv.2) (rng m).
Proof.
  intros HP. rewrite (range_perm m). apply Forall_forall. intros [k v] Hkv.
  apply HP. by apply elem_of_map_to_list.
Qed.

Lemma DecodeStringSlice_enc l :
  slice_limits l -> DecodeStringSlice (enc_counted enc_string l) = Ret l.
Proof.
  intros [Hn Hl]. destruct (decide (l = [])) as [->|Hne]; [done|].
  destruct (counted_enc enc_string l Hne Hn) as (H0 & H4 & Es & Eu & Hc & Eb & Et).
  unfold DecodeStringSlice. rewrite !decide_False by done. rewrite Es. run. rewrite Eu. run.
  rewrite decide_False by done. rewrite Eb. run. rewrite Et.
  rewrite <- (app_nil_r (concat _)). rewrite decode_strings_enc; [done | done |].
  rewrite app_nil_r. pose proof (concat_len_bound enc_string l 8196 ltac:(lia)) as B.
  assert (len (concat (enc_string <$> l)) <= 8196 * len l); [apply B|lia].
  eapply Forall_impl; [exact Hl|]. intros s Hs. cbn in Hs. rewrite enc_string_len. lia.
Qed.

Section RoundTrips.
Context (rng : gmap Z bytes -> list (Z * bytes)) `{!RangeOrder rng}.
Context (srng : gmap gostring gostring -> list (gostring * gostring)) `{!RangeOrder srng}.

Lemma DecodeU32ToBytesMap_enc m :
  u32_map_limits m -> DecodeU32ToBytesMap (enc_counted enc_u32_entry (rng m)) = Ret m.
Proof.
  intros [Hn Hm]. pose proof (range_length rng m) as Hlen.
  destruct (decide (rng m = [])) as [E|Hne].
  { rewrite E in *. rewrite len_nil in Hlen. by rewrite (map_size_empty_inv m) by lia. }
  apply map_to_list_Forall with (rng := rng) in Hm; [|done].
  destruct (counted_enc enc_u32_entry (rng m) Hne) as (H0 & H4 & Es & Eu & Hc & Eb & Et); [lia|].
  unfold DecodeU32ToBytesMap. rewrite !decide_False by done. rewrite Es. run. rewrite Eu. run.
  rewrite decide_False by done. rewrite Eb. run. rewrite Et.
  rewrite <- (app_nil_r (concat _)). rewrite decode_u32_entries_enc; [|done|].
  - by rewrite copy_entries_empty.
  - rewrite app_nil_r. pose proof (concat_len_bound enc_u32_entry (rng m) 8200 ltac:(lia)) as B.
    assert (len (concat (enc_u32_entry <$> rng m)) <= 8200 * len (rng m)); [apply B|lia].
    eapply Forall_impl; [exact Hm|]. intros [k v] [_ Hv]. unfold enc_u32_entry. cbn [fst snd] in *.
    rewrite len_app, enc_string_len, len_le_put. lia.
Qed.

Lemma DecodeStringToStringMap_enc m :
  string_map_limits m -> DecodeStringToStringMap (enc_counted enc_string_entry (srng m)) = Ret m.
Proof.
  intros [Hn Hm]. pose proof (range_length srng m) as Hlen.
  destruct (decide (srng m = [])) as [E|Hne].
  { rewrite E in *. rewrite len_nil in Hlen. by rewrite (map_size_empty_inv m) by lia. }
  apply map_to_list_Forall with (rng := srng) in Hm; [|done].
  destruct (counted_enc enc_string_entry (srng m) Hne) as (H0 & H4 & Es & Eu & Hc & Eb & Et); [lia|].
  unfold DecodeStringToStringMap. rewrite !decide_False by done. rewrite Es. run. rewrite Eu. run.
  rewrite decide_False by done. rewrite Eb. run. rewrite Et.
  rewrite <- (app_nil_r (concat _)). rewrite decode_string_entries_enc; [|done|].
  - by rewrite copy_entries_empty.
  - rewrite app_nil_r. pose proof (concat_len_bound enc_string_entry (srng m) 16392 ltac:(lia)) as B.
    assert (len (concat (enc_string_entry <$> srng m)) <= 16392 * len (srng m)); [apply B|lia].
    eapply Forall_impl; [exact Hm|]. intros [k v] [Hk Hv]. unfold enc_string_entry. cbn [fst snd] in *.
    rewrite len_app, !enc_string_len. lia.
Qed.

End RoundTrips.

(** ** Soundness of the decoders *)

(** The count read back is the length of the entries it announces. *)
Lemma counted_count {A} (enc : A -> bytes) (l : list A) c rest :
  is_u32 c -> length l = Z.to_nat c ->
  le_put 4 c ++ concat (enc <$> l) ++ rest = enc_counted enc l ++ rest \/
  (l = [] /\ le_put 4 c ++ concat (enc <$> l) ++ rest = le_put 4 c ++ rest).
Proof.
  intros Hc Hl. unfold is_uint in Hc. destruct l as [|x l]; [by right|]. left.
  assert (len (x :: l) = c) as <- by (unfold len; lia).
  unfold enc_counted. rewrite to_uint_id by done. by rewrite <- app_assoc.
Qed.

Lemma DecodeStringSlice_sound b :
  returns (DecodeStringSlice b) /\
  forall l, DecodeStringSlice b = Ret l ->
    slice_limits l /\ exists rest, b = enc_counted enc_string l ++ rest \/ (l = [] /\ rest = b).
Proof.
  unfold DecodeStringSlice. case_decide as H0.
  { split; [done|]. intros l [= <-]. split; [by split|]. exists b. by right. }
  case_decide as H4; [done|].
  destruct (counted_split b H0 H4) as (c & body & -> & Hc & -> & Eu & ->). run. rewrite Eu. run.
  case_decide as H128; [done|].
  destruct (decode_strings_cases (Z.to_nat c) body []) as [(l & r & Hl & -> & Hf & ->)|[e ->]]; [|done].
  split; [done|]. intros l' [= <-]. unfold is_uint in Hc.
  split; [split; [unfold len; lia | done]|].
  destruct (counted_count enc_string l c r Hc Hl) as [E|[-> _]]; eauto.
Qed.

Lemma DecodeU32_sound b :
  returns (DecodeU32ToBytesMap b) /\
  forall m, DecodeU32ToBytesMap b = Ret m -> exists l rest,
    len l <= 128 /\ Forall (fun kv => is_u32 kv.1 /\ len kv.2 <= 8192) l /\
    m = copy_entries l ∅ /\ (b = enc_counted enc_u32_entry l ++ rest \/ (l = [] /\ rest = b)).
Proof.
  unfold DecodeU32ToBytesMap. case_decide as H0.
  { split; [done|]. intros l [= <-]. exists [], b. split; [done|]. split; [done|]. split; [done|]. by right. }
  case_decide as H4; [done|].
  destruct (counted_split b H0 H4) as (c & body & -> & Hc & -> & Eu & ->). run. rewrite Eu. run.
  case_decide as H128; [done|].
  destruct (decode_u32_entries_cases (Z.to_nat c) body ∅) as [(l & r & Hl & -> & Hf & ->)|[e ->]]; [|done].
  split; [done|]. intros l' [= <-].
  destruct (counted_count enc_u32_entry l c r Hc Hl) as [E|[-> _]]; [exists l, r | exists []; eexists];
    unfold is_uint in Hc; (split; [unfold len in *; simpl; lia|]); eauto.
Qed.

Lemma DecodeStringMap_sound b :
  returns (DecodeStringToStringMap b) /\
  forall m, DecodeStringToStringMap b = Ret m -> exists l rest,
    len l <= 128 /\ Forall (fun kv => len kv.1 <= 8192 /\ len kv.2 <= 8192) l /\
    m = copy_entries l ∅ /\ (b = enc_counted enc_string_entry l ++ rest \/ (l = [] /\ rest = b)).
Proof.
  unfold DecodeStringToStringMap. case_decide as H0.
  { split; [done|]. intros l [= <-]. exists [], b. split; [done|]. split; [done|]. split; [done|]. by right. }
  case_decide as H4; [done|].
  destruct (counted_split b H0 H4) as (c & body & -> & Hc & -> & Eu & ->). run. rewrite Eu. run.
  case_decide as H128; [done|].
  destruct (decode_string_entries_cases (Z.to_nat c) body ∅) as [(l & r & Hl & -> & Hf & ->)|[e ->]]; [|done].
  split; [done|]. intros l' [= <-].
  destruct (counted_count enc_string_entry l c r Hc Hl) as [E|[-> _]]; [exists l, r | exists []; eexists];
    unfold is_uint in Hc; (split; [unfold len in *; simpl; lia|]); eauto.
Qed.

(** ** Properties *)

(** The encoders never panic and write exactly the reference encoding, a
    count followed by the length-prefixed entries, whatever order the two ranges
    over the map take; the computed buffer size is the size written. *)
Theorem encoders_write_reference
    (rng1 rng2 : gmap Z bytes -> list (Z * bytes)) `{!RangeOrder rng1, !RangeOrder rng2}
    (srng1 srng2 : gmap gostring gostring -> list (gostring * gostring))
    `{!RangeOrder srng1, !RangeOrder srng2}
    (l : list gostring) (m : gmap Z bytes) (sm : gmap gostring gostring) :
  EncodeStringSlice l = Ret (enc_counted enc_string l) /\
  EncodeU32ToBytesMap rng1 rng2 m = Ret (enc_counted enc_u32_entry (rng2 m)) /\
  EncodeStringToStringMap srng1 srng2 sm = Ret (enc_counted enc_string_entry (srng2 sm)).
Proof.
  split; [apply EncodeStringSlice_ref|].
  split; [by apply EncodeU32ToBytesMap_ref | by apply EncodeStringToStringMap_ref].
Qed.

Lemma encoders_write_reference_witness :
  EncodeStringSlice [lit "a"] = Ret (enc_counted enc_string [lit "a"]).
Proof.
  apply (encoders_write_reference (fun m => map_to_list m) (fun m => map_to_list m)
    (fun m => map_to_list m) (fun m => map_to_list m) [lit "a"] ∅ ∅).
Defined.

(** Put and get, of the three kinds of values. *)
Lemma structured_header_values
    (rng1 rng2 : gmap Z bytes -> list (Z * bytes)) `{!RangeOrder rng1, !RangeOrder rng2}
    (srng1 srng2 : gmap gostring gostring -> list (gostring * gostring))
    `{!RangeOrder srng1, !RangeOrder srng2} (h : HeaderMap) (k : Z) :
  (forall l, slice_limits l -> exists h', PutStringSliceHeader k l h = Ret h' /\
     GetStringSliceHeader h' k = (true, Ret l) /\ forall k', k' ≠ k -> h' !! k' = h !! k') /\
  (forall m, u32_map_limits m -> exists h', PutU32ToBytesMapHeader rng1 rng2 k m h = Ret h' /\
     GetU32ToBytesMapHeader h' k = (true, Ret m) /\ forall k', k' ≠ k -> h' !! k' = h !! k') /\
  (forall m, string_map_limits m -> exists h', PutStringToStringMapHeader srng1 srng2 k m h = Ret h' /\
     GetStringToStringMapHeader h' k = (true, Ret m) /\ forall k', k' ≠ k -> h' !! k' = h !! k').
Proof.
  unfold PutStringSliceHeader, GetStringSliceHeader, PutU32ToBytesMapHeader,
    GetU32ToBytesMapHeader, PutStringToStringMapHeader, GetStringToStringMapHeader.
  split; [|split]; intros x Hx.
  - rewrite EncodeStringSlice_ref. eexists; split; [done|]. rewrite lookup_insert_eq.
    rewrite DecodeStringSlice_enc by done. split; [done|]. intros; by apply lookup_insert_ne.
  - rewrite EncodeU32ToBytesMap_ref by done. eexists; split; [done|]. rewrite lookup_insert_eq.
    rewrite DecodeU32ToBytesMap_enc by done. split; [done|]. intros; by apply lookup_insert_ne.
  - rewrite EncodeStringToStringMap_ref by done. eexists; split; [done|]. rewrite lookup_insert_eq.
    rewrite DecodeStringToStringMap_enc by done. split; [done|]. intros; by apply lookup_insert_ne.
Qed.

(** C35: a string slice, a uint32-to-bytes map or a string-to-string map within
    the limits of 128 entries of 8192 bytes, put into a header, is read back
    from it unchanged, for every iteration order of the maps, and no other
    header changes. *)
Theorem structured_header_roundtrip
    (rng1 rng2 : gmap Z bytes -> list (Z * bytes)) `{!RangeOrder rng1, !RangeOrder rng2}
    (srng1 srng2 : gmap gostring gostring -> list (gostring * gostring))
    `{!RangeOrder srng1, !RangeOrder srng2} (h : HeaderMap) (k : Z) :
  (forall l, slice_limits l -> exists h', PutStringSliceHeader k l h = Ret h' /\
     GetStringSliceHeader h' k = (true, Ret l) /\ forall k', k' ≠ k -> h' !! k' = h !! k') /\
  (forall m, u32_map_limits m -> exists h', PutU32ToBytesMapHeader rng1 rng2 k m h = Ret h' /\
     GetU32ToBytesMapHeader h' k = (true, Ret m) /\ forall k', k' ≠ k -> h' !! k' = h !! k') /\
  (forall m, string_map_limits m -> exists h', PutStringToStringMapHeader srng1 srng2 k m h = Ret h' /\
     GetStringToStringMapHeader h' k = (true, Ret m) /\ forall k', k' ≠ k -> h' !! k' = h !! k').
Proof. exact (structured_header_values rng1 rng2 srng1 srng2 h k). Qed.

Lemma structured_header_roundtrip_witness :
  exists h', PutStringSliceHeader 1000 [lit "ab"; lit ""] ∅ = Ret h' /\
    GetStringSliceHeader h' 1000 = (true, Ret [lit "ab"; lit ""]) /\
    forall k', k' ≠ 1000 -> h' !! k' = (∅ : HeaderMap) !! k'.
Proof.
  apply (structured_header_roundtrip (fun m => map_to_list m) (fun m => map_to_list m)
    (fun m => map_to_list m) (fun m => map_to_list m) ∅ 1000).
  split; [vm_compute; discriminate|]. repeat constructor; vm_compute; discriminate.
Defined.

(** On any bytes whatever, each of the three decoders returns (it never
    slices out of range and always ends), and a value it accepts obeys the
    limits and is what its entries, in the reference encoding, were written
    from, up to bytes after the last entry, which are ignored. *)
Theorem decoders_total_and_sound (b : bytes) :
  (returns (DecodeStringSlice b) /\
   forall l, DecodeStringSlice b = Ret l ->
     slice_limits l /\ exists rest, b = enc_counted enc_string l ++ rest \/ (l = [] /\ rest = b)) /\
  (returns (DecodeU32ToBytesMap b) /\
   forall m, DecodeU32ToBytesMap b = Ret m -> exists l rest,
     len l <= 128 /\ Forall (fun kv => is_u32 kv.1 /\ len kv.2 <= 8192) l /\
     m = copy_entries l ∅ /\ (b = enc_counted enc_u32_entry l ++ rest \/ (l = [] /\ rest = b))) /\
  (returns (DecodeStringToStringMap b) /\
   forall m, DecodeStringToStringMap b = Ret m -> exists l rest,
     len l <= 128 /\ Forall (fun kv => len kv.1 <= 8192 /\ len kv.2 <= 8192) l /\
     m = copy_entries l ∅ /\ (b = enc_counted enc_string_entry l ++ rest \/ (l = [] /\ rest = b))).
Proof. split; [apply DecodeStringSlice_sound | split; [apply DecodeU32_sound | apply DecodeStringMap_sound]]. Qed.
