(* ===== verification/Wire.v ===== *)
(** * The wire format (src/message.go, lines 418 to 776 and 993 to 1000)

    Framing, header sections and version negotiation.  A peer is a reader that
    delivers the stream in chunks of any size and then ends with an error
    ([io.EOF], a timeout, ...), so a read may return less than it asked for at
    any point.  Every slice and index of the parser is checked, lengths are
    kept at their width, and [W] is the width of Go's [int] (32 or 64).

    Theorems: the reader refines [parse_frame], a parser over the
    undivided stream, for every chunking; it never panics; marshalling and
    reading back is the identity; the header section grammar; the bounds of the
    hello; and version negotiation. *)

From S2P Require Import Prelude Headers Codec.

(** ** Readers ([io.Reader], [io.ReadAtLeast], [io.ReadFull], [io.MultiReader]) *)

(** What the successive [Read] calls deliver, and the error after the last. *)
Record reader : Type := mkReader { chunks : list bytes; fin : error }.

(** The loop of [io.ReadAtLeast] into a buffer with [cap] bytes free, until
    [min] more bytes have been read. *)
Fixpoint read_loop (cs : list bytes) (e : error) (cap min : Z) : bytes * option error * list bytes :=
  if decide (min <= 0) then ([], None, cs)
  else
    match cs with
    | [] => ([], Some e, [])
    | c :: cs' =>
        if decide (len c <= cap)
        then let '(got, err, rest) := read_loop cs' e (cap - len c) (min - len c) in
             (c ++ got, err, rest)
        else (take (Z.to_nat cap) c, None, drop (Z.to_nat cap) c :: cs')
    end.

Definition ReadAtLeast (r : reader) (cap min : Z) : outcome (bytes * reader) :=
  if decide (cap < min) then Err (errors_New (lit "short buffer"))
  else
    let '(got, err, rest) := read_loop (chunks r) (fin r) cap min in
    if decide (min <= len got) then Ret (got, mkReader rest (fin r))
    else
      match err with
      | Some e =>
          if decide (0 < len got /\ e = io_EOF) then Err io_ErrUnexpectedEOF else Err e
      | None => Ret (got, mkReader rest (fin r))
      end.

Definition ReadFull (r : reader) (n : Z) : outcome (bytes * reader) := ReadAtLeast r n n.

(** [io.MultiReader(bytes.NewReader(initial), r)] *)
Definition MultiReader (initial : bytes) (r : reader) : reader :=
  mkReader (initial :: chunks r) (fin r).

(** ** Constants *)

Definition magicLength : Z := 4.
Definition versionLen : Z := 4.
Definition maxSupportedVersionCount : Z := 64.
Definition dataSectionV2 : Z := 20.
Definition magicUnknownVersion : bytes := [Z2b 3; Z2b 6; Z2b 9; Z2b 10].
Definition magicV2 : bytes := [Z2b 3; Z2b 6; Z2b 9; Z2b 12].
Definition magicV3 : bytes := [Z2b 3; Z2b 6; Z2b 9; Z2b 13].

Definition readInt32 (data : bytes) : outcome Z := int32 <$> Uint32 data.
Definition readUint32 (data : bytes) : outcome Z := Uint32 data.

(** ** Marshalling *)

(** [bytes.Buffer.Write] never fails, so the error returns of the code below
    it are not reached.  [kvs] are the entries in the order of the range. *)
Definition marshalHeaders (kvs : list (Z * bytes)) : outcome bytes :=
  for_each (fun data kv =>
    Ret (data ++ le_put 4 kv.1 ++ le_put 4 (int32 (len kv.2)) ++ kv.2)) kvs [].

(** Marshalling stores the cached reply-for in the headers of the message, so
    it returns the message as well. *)
Definition marshalWithVersion (rng : HeaderMap -> list (Z * bytes)) (m : Message) (version : bytes)
    : outcome bytes * Message :=
  let data := version ++ le_put 4 (ContentType m) ++ le_put 4 (sequence m) in
  let m' :=
    match replyFor m with
    | Some r => MessageHeader.PutUint32Header ReplyForHeader (uint32 r) m
    | None => m
    end in
  (headersData ← marshalHeaders (rng (Headers m'));
   Ret (data ++ le_put 4 (int32 (len headersData)) ++ le_put 4 (int32 (len (Body m'))) ++
        headersData ++ Body m'), m').

Definition MarshalV2 (rng : HeaderMap -> list (Z * bytes)) (m : Message) : outcome bytes * Message :=
  marshalWithVersion rng m magicV2.

Definition marshalV3 (rng : HeaderMap -> list (Z * bytes)) (m : Message) : outcome bytes * Message :=
  marshalWithVersion rng m magicV3.

Definition MarshalV2WithRaw (rng : HeaderMap -> list (Z * bytes)) (m : Message)
    : outcome bytes * Message :=
  if decide (ContentType m = ContentTypeRaw) then (Ret (Body m), m) else MarshalV2 rng m.

(** ** Version negotiation *)

(** What [WriteUnknownVersionResponse] writes. *)
Definition WriteUnknownVersionResponse : bytes :=
  magicUnknownVersion ++ concat (le_put 4 <$> [2; 1; 2]).

Definition channel_synchronization : error := errors_New (lit "channel synchronization").

(** [for len(versionsBuf) > 0 { ... }]; every round takes four bytes off. *)
Fixpoint read_versions (fuel : nat) (versionsBuf : bytes) (supported : list Z) : outcome (list Z) :=
  match fuel with
  | O => OutOfFuel
  | S fuel' =>
      if decide (0 < len versionsBuf)
      then
        v ← Uint32 versionsBuf;
        rest ← slice versionsBuf versionLen (len versionsBuf);
        read_versions fuel' rest (supported ++ [v])
      else Ret supported
  end.

(** The code maps a failed read to the error it returns; [or_sync] is that
    mapping of the error of a read. *)
Definition or_sync {A} (c : outcome A) : outcome (error + A) :=
  match c with
  | Ret a => Ret (inr a)
  | Err _ => Ret (inl channel_synchronization)
  | Panic => Panic
  | OutOfFuel => OutOfFuel
  end.

(** The error [readUnknownVersionResponse] returns (it always returns one). *)
Definition readUnknownVersionResponse (initial : bytes) (r : reader) : outcome error :=
  let response := MultiReader initial r in
  c1 ← or_sync (ReadFull response versionLen);
  match c1 with
  | inl e => Ret e
  | inr (countBuf, r1) =>
      versionCount ← Uint32 countBuf;
      if decide (maxSupportedVersionCount < versionCount) then Ret channel_synchronization
      else
        c2 ← or_sync (ReadFull r1 (uint32 (versionCount * versionLen)));
        match c2 with
        | inl e => Ret e
        | inr (versionsBuf, _) =>
            supported ← read_versions (S (length versionsBuf)) versionsBuf [];
            Ret (UnsupportedVersionError supported)
        end
  end.

(** The first of [localVersions] the peer named, else the default. *)
Fixpoint getRetryVersionFor (err : error) (defaultVersion : Z) (localVersions : list Z) : Z * bool :=
  match err, localVersions with
  | UnsupportedVersionError ((_ :: _) as supported), version :: localVersions' =>
      if existsb (fun remoteVersion => bool_decide (remoteVersion = version)) supported
      then (version, true)
      else getRetryVersionFor err defaultVersion localVersions'
  | _, _ => (defaultVersion, false)
  end.

Definition GetRetryVersion (err : error) : Z * bool := getRetryVersionFor err 2 [2].

(** ** Unmarshalling *)

Section Unmarshal.

(** The width of Go's [int]. *)
Context (W : Z).

(** Addition and conversion at [int]. *)
Definition add_int (a b : Z) : Z := to_sint W (a + b).
Definition to_int (a : Z) : Z := to_sint W a.

(** The loop of [unmarshalHeaders] from index [i]. *)
Fixpoint unmarshal_loop (fuel : nat) (headerData : bytes) (i : Z) (out : HeaderMap) : outcome HeaderMap :=
  match fuel with
  | O => OutOfFuel
  | S fuel' =>
      if decide (i < len headerData)
      then
        if decide (len headerData < add_int i 8)
        then Err (fmt_Errorf (lit "short header meta-data (%d >= %d)") [add_int i 8; len headerData])
        else
          kb ← slice headerData i (add_int i 4);
          key ← readInt32 kb;
          lb ← slice headerData (add_int i 4) (add_int i 8);
          length ← readUint32 lb;
          let e := uint64 (uint64 (uint64 i + 8) + length) in
          if decide (uint64 (len headerData) < e)
          then Err (fmt_Errorf (lit "short header data (%d >= %d)") [e; len headerData])
          else
            data ← slice headerData (add_int i 8) (add_int (add_int i 8) (to_int length));
            unmarshal_loop fuel' headerData (add_int i (add_int 8 (to_int length)))
              (<[key := data]> out)
      else Ret out
  end.

Definition unmarshalHeaders (headerData : bytes) : outcome HeaderMap :=
  if decide (0 < len headerData /\ len headerData < 8)
  then Err (errors_New (lit "truncated header data"))
  else unmarshal_loop (S (length headerData)) headerData 0 ∅.

Definition unmarshalV2 (peer : reader) (messageSectionData : bytes) (headersLength bodyLength : Z)
    : outcome (Message * reader) :=
  let dataSectionLen := uint64 (headersLength + bodyLength) in
  if decide (MaxInt32 < dataSectionLen)
  then Err (fmt_Errorf (lit "declared data section of %d bytes exceeds the maximum of %d")
              [dataSectionLen; MaxInt32])
  else
    '(dataSectionData, peer') ← ReadFull peer dataSectionLen;
    if decide (len dataSectionData ≠ dataSectionLen) then Err (errors_New (lit "short read"))
    else if decide (len messageSectionData < dataSectionV2)
    then Err (errors_New (lit "short data stream"))
    else
      mg ← slice messageSectionData 0 magicLength;
      if decide (mg ≠ magicV2) then Err (errors_New (lit "magic mismatch"))
      else
        headers ← (if decide (0 < headersLength)
                   then hd ← slice dataSectionData 0 headersLength; unmarshalHeaders hd
                   else Ret ∅);
        ctb ← slice messageSectionData 4 8;
        ct ← readInt32 ctb;
        sqb ← slice messageSectionData 8 12;
        sq ← readInt32 sqb;
        body ← slice dataSectionData headersLength (len dataSectionData);
        Ret (mkMessage ct sq None headers body, peer').

Definition ReadV2 (peer : reader) : outcome (Message * reader) :=
  '(got, r1) ← ReadAtLeast peer dataSectionV2 magicLength;
  let messageSection := got ++ make_bytes (dataSectionV2 - len got) in
  mg ← slice messageSection 0 magicLength;
  if decide (mg ≠ magicV2)
  then
    if decide (mg = magicUnknownVersion)
    then
      initial ← slice messageSection magicLength (len got);
      e ← readUnknownVersionResponse initial r1;
      Err e
    else Err BadMagicNumberError
  else
    '(messageSection, r2) ←
       (if decide (len got < dataSectionV2)
        then '(more, r2) ← ReadFull r1 (dataSectionV2 - len got); Ret (got ++ more, r2)
        else Ret (got, r1));
    hlb ← slice messageSection 12 16;
    headersLength ← readUint32 hlb;
    blb ← slice messageSection 16 20;
    bodyLength ← readUint32 blb;
    unmarshalV2 r2 messageSection headersLength bodyLength.

Definition readHelloV2 (peer : reader) : outcome (Message * reader) :=
  '(more, r1) ← ReadFull peer (dataSectionV2 - versionLen);
  let messageSection := magicV2 ++ more in
  if decide (len more ≠ dataSectionV2 - versionLen) then Err (errors_New (lit "short read"))
  else
    hlb ← slice messageSection 12 16;
    headersLength ← readUint32 hlb;
    blb ← slice messageSection 16 20;
    bodyLength ← readUint32 blb;
    if decide (16384 < headersLength \/ 4192 < bodyLength)
    then Err (fmt_Errorf (lit "hello message too big. header len: %v, body len: %v")
                [headersLength; bodyLength])
    else unmarshalV2 r1 messageSection headersLength bodyLength.

(** [readHello] also returns the read and marshal functions for the version it
    found; both are always the V2 ones. *)
Definition readHello (peer : reader) : outcome (Message * reader) :=
  '(version, r1) ← ReadFull peer versionLen;
  if decide (len version ≠ versionLen) then Err (errors_New (lit "short read"))
  else if decide (version = magicV2) then readHelloV2 r1
  else Err BadMagicNumberError.

(** ** The parser over the undivided stream

    What a stream of bytes means, with no regard to how it arrives. *)

Inductive frame : Type :=
  | FMessage (m : Message) (rest : bytes)
  | FError (e : error)
  | FTruncated.

Definition parse_versions (b : bytes) : error :=
  if decide (len b < 4) then channel_synchronization
  else
    let n := le_get (take 4 b) in
    if decide (64 < n) then channel_synchronization
    else if decide (len b < 4 + 4 * n) then channel_synchronization
    else UnsupportedVersionError
           ((fun i : nat => le_get (take 4 (drop (4 + 4 * i) b))) <$> seq 0 (Z.to_nat n)).

(** The frame whose 20-byte message section is [s], with the stream after it. *)
Definition parse_data (s b : bytes) : frame :=
  let hl := le_get (take 4 (drop 12 s)) in
  let bl := le_get (take 4 (drop 16 s)) in
  if decide (MaxInt32 < hl + bl)
  then FError (fmt_Errorf (lit "declared data section of %d bytes exceeds the maximum of %d")
                 [hl + bl; MaxInt32])
  else if decide (len b < hl + bl) then FTruncated
  else
    match unmarshalHeaders (take (Z.to_nat hl) b) with
    | Ret h =>
        FMessage
          (mkMessage (int32 (le_get (take 4 (drop 4 s)))) (int32 (le_get (take 4 (drop 8 s)))) None h
             (take (Z.to_nat bl) (drop (Z.to_nat hl) b)))
          (drop (Z.to_nat (hl + bl)) b)
    | Err e => FError e
    | _ => FTruncated
    end.

Definition parse_frame (b : bytes) : frame :=
  if decide (len b < 4) then FTruncated
  else if decide (take 4 b = magicV2)
  then if decide (len b < 20) then FTruncated else parse_data (take 20 b) (drop 20 b)
  else if decide (take 4 b = magicUnknownVersion) then FError (parse_versions (drop 4 b))
  else FError BadMagicNumberError.

(** How a stream that ends with [e] may report that it is too short. *)
Definition truncation_error (e e' : error) : Prop :=
  e' = e \/ (e = io_EOF /\ e' = io_ErrUnexpectedEOF).

(** The result of a reader refines the frame at the head of its stream. *)
Definition refines (r : reader) (c : outcome (Message * reader)) (f : frame) : Prop :=
  match f with
  | FMessage m rest =>
      exists r', c = Ret (m, r') /\ concat (chunks r') = rest /\ fin r' = fin r
  | FError e => c = Err e
  | FTruncated => exists e, c = Err e /\ truncation_error (fin r) e
  end.

End Unmarshal.

(** The width of [int] leaves room above the longest index into [b]: always so
    on a 64-bit platform, and on a 32-bit one for any stream of less than
    [2^31 - 8] bytes. *)
Definition int_ok (W : Z) (b : bytes) : Prop :=
  32 <= W /\ (MaxInt32 + 8 < 2 ^ (W - 1) \/ len b + 8 < 2 ^ (W - 1)).

(** A header section entry, as [marshalHeaders] writes it. *)
Definition enc_header (kv : Z * bytes) : bytes := le_put 4 kv.1 ++ le_put 4 (len kv.2) ++ kv.2.

Definition header_ok (kv : Z * bytes) : Prop := is_i32 kv.1 /\ is_u32 (len kv.2).

(** The message a receiver sees for [m]: the reply-for travels as a header. *)
Definition wire_message (m : Message) : Message :=
  mkMessage (ContentType m) (sequence m) None
    (match replyFor m with
     | Some r => <[ReplyForHeader := le_put 4 r]> (Headers m)
     | None => Headers m
     end) (Body m).

(** The size of the header section of a header map. *)
Definition header_size (h : HeaderMap) : Z :=
  foldr (fun kv n => 8 + len kv.2 + n) 0 (map_to_list h).

(** The data section of [m] is one the format can carry. *)
Definition fits (m : Message) : Prop :=
  header_size (Headers (wire_message m)) + len (Body m) <= MaxInt32.

(** The hello parser over the undivided stream. *)
Definition parse_hello (W : Z) (b : bytes) : frame :=
  if decide (len b < 4) then FTruncated
  else if decide (take 4 b = magicV2)
  then
    if decide (len b < 20) then FTruncated
    else
      let hl := le_get (take 4 (drop 12 (take 20 b))) in
      let bl := le_get (take 4 (drop 16 (take 20 b))) in
      if decide (16384 < hl \/ 4192 < bl)
      then FError (fmt_Errorf (lit "hello message too big. header len: %v, body len: %v") [hl; bl])
      else parse_data W (take 20 b) (drop 20 b)
  else FError BadMagicNumberError.

(** ** Lemmas: reading *)

Lemma read_loop_spec cs e cap min got err rest :
  0 <= min <= cap -> read_loop cs e cap min = (got, err, rest) ->
  got ++ concat rest = concat cs /\ len got <= cap /\
  ((err = None /\ min <= len got) \/ (err = Some e /\ len got < min /\ rest = [])).
Proof.
  revert cap min got err rest. induction cs as [|c cs IH]; intros cap min got err rest Hm;
    cbn [read_loop]; case_decide as H0; try (intros [= <- <- <-]).
  - rewrite len_nil. split; [done|]. split; [lia|]. left. split; [done | lia].
  - rewrite len_nil. split; [done|]. split; [lia|]. right. split; [done|]. split; [lia | done].
  - rewrite len_nil. split; [done|]. split; [lia|]. left. split; [done | lia].
  - case_decide as Hc.
    + destruct (decide (min - len c <= 0)) as [Hd|Hd].
      * assert (read_loop cs e (cap - len c) (min - len c) = ([], None, cs)) as ->
          by (destruct cs; cbn [read_loop]; by rewrite decide_True).
        intros [= <- <- <-]. rewrite app_nil_r. split; [done|]. split; [lia|]. left. split; [done|lia].
      * destruct (read_loop cs e _ _) as [[got' err'] rest'] eqn:E. intros [= <- <- <-].
        apply IH in E as (E1 & E2 & E3); [|lia].
        rewrite len_app, <- app_assoc, E1. split; [done|]. split; [lia|].
        destruct E3 as [[-> ?]|(-> & ? & ->)]; [left | right]; repeat split; lia || done.
    + intros [= <- <- <-]. cbn [concat]. rewrite app_assoc, take_drop.
      split; [done|]. assert (len (take (Z.to_nat cap) c) = cap) as -> by go_len.
      split; [lia|]. left. split; [done|lia].
Qed.

(** [ReadAtLeast] on a stream long enough, and on one too short. *)
Lemma ReadAtLeast_enough r cap min :
  0 <= min <= cap -> min <= len (concat (chunks r)) ->
  exists got r', ReadAtLeast r cap min = Ret (got, r') /\ fin r' = fin r /\
    concat (chunks r) = got ++ concat (chunks r') /\ min <= len got <= cap.
Proof.
  intros Hm Hl. unfold ReadAtLeast. rewrite decide_False by lia.
  destruct (read_loop _ _ _ _) as [[got err] rest] eqn:E.
  apply read_loop_spec in E as (E1 & E2 & E3); [|lia].
  assert (min <= len got) as Hg.
  { destruct E3 as [[? ?]|(? & ? & ->)]; [done|].
    simpl in E1. rewrite app_nil_r in E1. by rewrite E1. }
  rewrite decide_True by done. exists got, (mkReader rest (fin r)). simpl. auto.
Qed.

Lemma ReadAtLeast_short r cap min :
  0 <= min <= cap -> len (concat (chunks r)) < min ->
  exists e, ReadAtLeast r cap min = Err e /\ truncation_error (fin r) e.
Proof.
  intros Hm Hl. unfold ReadAtLeast. rewrite decide_False by lia.
  destruct (read_loop _ _ _ _) as [[got err] rest] eqn:E.
  apply read_loop_spec in E as (E1 & E2 & E3); [|lia].
  assert (len got < min) by (rewrite <- E1, len_app in Hl; pose proof (len_nonneg (concat rest)); lia).
  rewrite decide_False by lia. destruct E3 as [[_ ?]|(-> & _ & _)]; [lia|].
  unfold truncation_error. case_decide as He; [destruct He as [_ ->]|]; eauto.
Qed.

Lemma ReadFull_enough r n :
  0 <= n -> n <= len (concat (chunks r)) ->
  exists got r', ReadFull r n = Ret (got, r') /\ fin r' = fin r /\
    concat (chunks r) = got ++ concat (chunks r') /\ len got = n.
Proof.
  intros Hn Hl. destruct (ReadAtLeast_enough r n n) as (got & r' & ? & ? & ? & ?); [lia..|].
  exists got, r'. repeat split; try done. lia.
Qed.

Lemma ReadFull_short r n :
  0 <= n -> len (concat (chunks r)) < n ->
  exists e, ReadFull r n = Err e /\ truncation_error (fin r) e.
Proof. intros. apply ReadAtLeast_short; lia. Qed.

(** ** Lemmas: fixed-width fields of a section *)

Lemma readInt32_put z : is_u32 z -> readInt32 (le_put 4 z) = Ret (int32 z).
Proof. intros. unfold readInt32. by rewrite Uint32_put. Qed.

(** The [n]-th four-byte field of a section. *)
Lemma field_slice (s : bytes) (i j : Z) :
  0 <= i -> j = i + 4 -> j <= len s ->
  exists z, slice s i j = Ret (le_put 4 z) /\ is_u32 z /\ z = le_get (take 4 (drop (Z.to_nat i) s)).
Proof.
  intros Hi -> Hs.
  destruct (split_prefix s i) as (a & b & -> & Ha); [lia|].
  destruct (split_u32 b) as (z & c & -> & Hz); [rewrite len_app in Hs; lia|].
  exists z. rewrite slice_app by (rewrite ?len_le_put; lia). split; [done|]. split; [done|].
  replace (Z.to_nat i) with (length a) by (unfold len in Ha; lia).
  rewrite drop_app_length. rewrite take_app_le by (rewrite length_le_put; lia).
  rewrite take_ge by (rewrite length_le_put; lia). by rewrite le_get_put_u32.
Qed.

(** ** Lemmas: header sections *)

(** The side conditions of [slice_mid], for a slice with the decomposition [E]. *)
Ltac solve_mid E :=
  first [ lia | rewrite ?len_app, ?len_le_put; lia | rewrite E, <- ?app_assoc; reflexivity ].

Section HeaderSections.
Context (W : Z) (HW : 32 <= W).

Lemma pow_W : 2 ^ 31 <= 2 ^ (W - 1).
Proof using HW. apply Z.pow_le_mono_r; lia. Qed.

Lemma to_int_small a : 0 <= a < 2 ^ (W - 1) -> to_int W a = a.
Proof using HW. intros H. apply to_sint_id; [lia|]. unfold is_sint. lia. Qed.

Lemma add_int_small a b : 0 <= a + b < 2 ^ (W - 1) -> add_int W a b = a + b.
Proof using HW. intros H. by apply to_int_small. Qed.

Lemma enc_header_len kv : len (enc_header kv) = 8 + len kv.2.
Proof using Type. unfold enc_header. rewrite !len_app, !len_le_put. lia. Qed.

Lemma uint64_small z : 0 <= z < 2 ^ 64 -> uint64 z = z.
Proof using Type. apply to_uint_id. Qed.

(** One round of the loop, at an entry. *)
Lemma unmarshal_loop_entry fuel b pre k v suf out :
  header_ok (k, v) -> b = pre ++ enc_header (k, v) ++ suf ->
  len b <= MaxInt32 ->
  unmarshal_loop W (S fuel) b (len pre) out =
  unmarshal_loop W fuel b (len (pre ++ enc_header (k, v))) (<[k := v]> out).
Proof using HW.
  intros [Hk Hv] Eb Hmax. cbn [fst snd] in *. cbn [unmarshal_loop].
  assert (len b = len pre + (8 + len v) + len suf) as Hlen
    by (rewrite Eb, !len_app, enc_header_len; simpl; lia).
  pose proof (len_nonneg pre). pose proof (len_nonneg v). pose proof (len_nonneg suf).
  unfold MaxInt32 in Hmax. pose proof pow_W.
  unfold enc_header in Eb. cbn [fst snd] in Eb.
  rewrite !add_int_small by lia. rewrite decide_True by lia. rewrite decide_False by lia.
  rewrite (slice_mid b pre (le_put 4 k) (le_put 4 (len v) ++ v ++ suf) (len pre))
    by solve_mid Eb. run.
  unfold readInt32, readUint32.
  assert (Uint32 (le_put 4 k) = Ret (uint32 k)) as ->.
  { unfold Uint32. rewrite take_ge by go_len. by rewrite le_get_put. }
  change (fmap (M := outcome) ?f (Ret ?a)) with (Ret (f a)). run.
  rewrite to_sint_to_uint by (lia || done).
  rewrite (slice_mid b (pre ++ le_put 4 k) (le_put 4 (len v)) (v ++ suf) (len pre + 4))
    by solve_mid Eb. run.
  rewrite Uint32_put by done. run.
  rewrite (uint64_small (len pre)), (uint64_small (len pre + 8)), !uint64_small by lia.
  rewrite decide_False by lia.
  rewrite !(to_int_small (len v)) by lia. rewrite !add_int_small by (rewrite ?add_int_small; lia).
  rewrite (slice_mid b (pre ++ le_put 4 k ++ le_put 4 (len v)) v suf (len pre + 8))
    by solve_mid Eb. run.
  f_equal. rewrite len_app, enc_header_len. simpl. lia.
Qed.

(** The loop from the end of [pre] accepts exactly a sequence of entries. *)
Lemma unmarshal_loop_enc l : forall fuel b pre out,
  Forall header_ok l -> b = pre ++ concat (enc_header <$> l) ->
  len b <= MaxInt32 -> (length l < fuel)%nat ->
  unmarshal_loop W fuel b (len pre) out = Ret (copy_entries l out).
Proof using HW.
  induction l as [|[k v] l IH]; intros fuel b pre out Hl Eb Hb Hf.
  - destruct fuel; [lia|]. cbn [unmarshal_loop]. simpl in Eb. rewrite app_nil_r in Eb. subst b.
    by rewrite decide_False by lia.
  - inversion Hl as [|? ? Hkv Hl']; subst. destruct fuel; [simpl in Hf; lia|].
    rewrite concat_fmap_one in *.
    rewrite (unmarshal_loop_entry fuel _ pre k v (concat (enc_header <$> l)) out) by done.
    apply IH; try done; [by rewrite app_assoc | simpl in Hf; lia].
Qed.

Lemma unmarshal_loop_cases fuel b : forall pre suf out,
  b = pre ++ suf -> len b <= MaxInt32 -> len b + 8 < 2 ^ (W - 1) -> (length suf < fuel)%nat ->
  (exists l, Forall header_ok l /\ suf = concat (enc_header <$> l) /\
     unmarshal_loop W fuel b (len pre) out = Ret (copy_entries l out)) \/
  (exists e, unmarshal_loop W fuel b (len pre) out = Err e).
Proof using HW.
  induction fuel as [|fuel IH]; intros pre suf out Eb Hb HbW Hf; [lia|].
  assert (len b = len pre + len suf) as Hlen by (by rewrite Eb, len_app).
  pose proof (len_nonneg pre). pose proof (len_nonneg suf). unfold MaxInt32 in Hb. pose proof pow_W.
  destruct (decide (suf = [])) as [->|Hne].
  { left. exists []. rewrite len_nil in Hlen. cbn [unmarshal_loop]. rewrite decide_False by lia. auto. }
  assert (0 < len suf) by (destruct suf; [done|]; rewrite len_cons; pose proof (len_nonneg suf); lia).
  destruct (decide (len suf < 8)) as [H8|H8].
  { right. cbn [unmarshal_loop]. rewrite decide_True by lia.
    rewrite !add_int_small by lia. rewrite decide_True by lia. eauto. }
  destruct (split_u32 suf) as (k & c & -> & Hk); [lia|]. rewrite len_app, len_le_put in *.
  destruct (split_u32 c) as (n & c' & -> & Hn); [lia|]. rewrite len_app, len_le_put in *.
  unfold is_uint in Hn. destruct (decide (n <= len c')) as [Hc|Hc].
  - destruct (split_prefix c' n) as (v & r & -> & <-); [lia|].
    assert (le_put 4 k = le_put 4 (int32 k)) as Ek.
    { rewrite <- (le_put_get (le_put 4 (int32 k))), length_le_put, le_get_put. f_equal.
      unfold to_sint. rewrite Zminus_mod_idemp_l. rewrite <- (Z.mod_small k (2 ^ 32)) by done.
      f_equal. change (2 ^ (8 * Z.of_nat 4)) with (2 ^ 32). rewrite Z.mod_small by done. lia. }
    assert (header_ok (int32 k, v)) as Hok by (split; [apply int32_range | done]).
    rewrite (unmarshal_loop_entry fuel b pre (int32 k) v r out); try (done || unfold MaxInt32; lia).
    2: { rewrite Eb, Ek. unfold enc_header. cbn [fst snd]. by rewrite <- !app_assoc. }
    destruct (IH (pre ++ enc_header (int32 k, v)) r (<[int32 k := v]> out)) as [(l & Hl & -> & ->)|[e ->]];
      try (done || unfold MaxInt32; lia).
    + rewrite Eb, Ek. unfold enc_header. cbn [fst snd]. by rewrite <- !app_assoc.
    + rewrite !length_app, !length_le_put in Hf. lia.
    + left. exists ((int32 k, v) :: l). split; [by constructor|]. split; [|done].
      rewrite concat_fmap_one, Ek.
      change (enc_header (int32 k, v)) with (le_put 4 (int32 k) ++ le_put 4 (len v) ++ v).
      by rewrite <- !app_assoc.
    + right. eauto.
  - right. cbn [unmarshal_loop]. rewrite decide_True by lia.
    rewrite !add_int_small by lia. rewrite decide_False by lia.
    rewrite (slice_mid b pre (le_put 4 k) (le_put 4 n ++ c') (len pre))
      by solve_mid Eb. run.
    rewrite readInt32_put by done. run.
    rewrite (slice_mid b (pre ++ le_put 4 k) (le_put 4 n) c' (len pre + 4))
      by solve_mid Eb. run.
    unfold readUint32. rewrite Uint32_put by done. run.
    rewrite (uint64_small (len pre)), (uint64_small (len pre + 8)), !uint64_small by lia.
    rewrite decide_True by lia. eauto.
Qed.

Lemma unmarshalHeaders_enc l b :
  Forall header_ok l -> b = concat (enc_header <$> l) ->
  len b <= MaxInt32 -> unmarshalHeaders W b = Ret (copy_entries l ∅).
Proof using HW.
  intros Hl Eb Hb.
  assert (8 * len l <= len b) as Hlen.
  { subst b. clear. induction l as [|kv l IH]; [done|].
    rewrite concat_fmap_one, len_app, enc_header_len, len_cons. pose proof (len_nonneg kv.2). lia. }
  unfold unmarshalHeaders. rewrite decide_False.
  - apply (unmarshal_loop_enc l _ b []); try done. unfold len in Hlen. lia.
  - intros [H1 H2]. destruct l; [by subst b|]. rewrite len_cons in Hlen.
    pose proof (len_nonneg l). lia.
Qed.

Lemma unmarshalHeaders_cases b :
  len b <= MaxInt32 -> len b + 8 < 2 ^ (W - 1) ->
  (exists l, Forall header_ok l /\ b = concat (enc_header <$> l) /\
     unmarshalHeaders W b = Ret (copy_entries l ∅)) \/
  (exists e, unmarshalHeaders W b = Err e).
Proof using HW.
  intros Hb HbW. unfold unmarshalHeaders. case_decide; [eauto|].
  destruct (unmarshal_loop_cases (S (length b)) b [] b ∅) as [(l & ? & ? & ?)|[e ?]];
    try done; [lia | left; eauto | eauto].
Qed.

End HeaderSections.

(** ** Lemmas: the reader refines the parser *)

Lemma int_ok_64 b : int_ok 64 b.
Proof. split; [lia | left; done]. Qed.

Lemma read_versions_spec n : forall fuel buf acc,
  length buf = (4 * n)%nat -> (n < fuel)%nat ->
  read_versions fuel buf acc =
  Ret (acc ++ ((fun i : nat => le_get (take 4 (drop (4 * i) buf))) <$> seq 0 n)).
Proof.
  induction n as [|n IH]; intros fuel buf acc Hb Hf; (destruct fuel; [lia|]); cbn [read_versions].
  - rewrite decide_False by (unfold len; lia). by rewrite app_nil_r.
  - rewrite decide_True by (unfold len; lia).
    destruct (split_u32 buf) as (z & c & -> & Hz); [unfold len; lia|].
    unfold Uint32. rewrite decide_True by (rewrite len_app, len_le_put; pose proof (len_nonneg c); lia).
    run. rewrite slice_suffix by (by rewrite ?len_le_put). run.
    rewrite length_app, length_le_put in Hb. rewrite IH by lia.
    rewrite <- app_assoc. do 2 f_equal.
    change (seq 0 (S n)) with (0%nat :: seq 1 n). rewrite <- fmap_S_seq.
    rewrite fmap_cons. cbn [app]. f_equal. rewrite <- list_fmap_compose. apply list_fmap_ext. intros _ i _. unfold compose.
    replace (4 * S i)%nat with (length (le_put 4 z) + 4 * i)%nat by (rewrite length_le_put; lia).
    by rewrite drop_app_add.
Qed.

Lemma readUnknownVersionResponse_spec initial r :
  readUnknownVersionResponse initial r = Ret (parse_versions (initial ++ concat (chunks r))).
Proof.
  unfold readUnknownVersionResponse, parse_versions.
  set (r0 := MultiReader initial r). change (initial ++ concat (chunks r)) with (concat (chunks r0)).
  set (b := concat (chunks r0)).
  case_decide as H4.
  { destruct (ReadFull_short r0 versionLen) as (e & -> & _); done. }
  destruct (ReadFull_enough r0 versionLen) as (cb & r1 & -> & _ & Eb & Hcb);
    [done | unfold versionLen; fold b; lia|].
  fold b in Eb. cbn [or_sync]. run. unfold versionLen in *.
  destruct (split_u32 cb) as (n & c & -> & Hn); [lia|].
  assert (c = []) as -> by (rewrite len_app, len_le_put in Hcb; destruct c; [done|];
    rewrite len_cons in Hcb; pose proof (len_nonneg c); lia).
  rewrite app_nil_r in *. rewrite Uint32_put by done. run.
  assert (le_get (take 4 b) = n) as ->.
  { rewrite Eb, take_app_le, take_ge by (rewrite length_le_put; lia). by apply le_get_put_u32. }
  unfold maxSupportedVersionCount. case_decide as H64; [done|].
  unfold is_uint in Hn. rewrite to_uint_id by (unfold is_uint; lia).
  assert (len b = 4 + len (concat (chunks r1))) as Hlb by (by rewrite Eb, len_app, len_le_put).
  case_decide as Hlen.
  { destruct (ReadFull_short r1 (n * 4)) as (e & -> & _); [lia | lia | done]. }
  destruct (ReadFull_enough r1 (n * 4)) as (vb & r2 & -> & _ & Ev & Hvb); [lia..|].
  cbn [or_sync]. run. unfold len in Hvb.
  rewrite (read_versions_spec (Z.to_nat n)) by lia. run. do 2 f_equal.
  apply list_fmap_ext. intros k i Hk. apply lookup_seq in Hk as [-> Hk]. rewrite !Nat.add_0_l.
  rewrite Eb, Ev. replace (4 + 4 * k)%nat with (length (le_put 4 n) + 4 * k)%nat
    by (rewrite length_le_put; lia).
  rewrite drop_app_add, drop_app_le, take_app_le by (rewrite ?length_drop; lia). done.
Qed.

Lemma take_len {A} (a c : list A) n : Z.of_nat n = len a -> take n (a ++ c) = a.
Proof. intros H. replace n with (length a) by (unfold len in H; lia). apply take_app_length. Qed.

Lemma drop_len {A} (a c : list A) n : Z.of_nat n = len a -> drop n (a ++ c) = c.
Proof. intros H. replace n with (length a) by (unfold len in H; lia). apply drop_app_length. Qed.

Lemma refines_returns r c f : refines r c f -> returns c.
Proof. destruct f; cbn [refines]; [intros (? & -> & _) | intros -> | intros (? & -> & _)]; exact I. Qed.

Lemma unmarshalV2_refines W r s hl bl :
  int_ok W (concat (chunks r)) -> len s = 20 -> take 4 s = magicV2 ->
  hl = le_get (take 4 (drop 12 s)) -> bl = le_get (take 4 (drop 16 s)) -> is_u32 hl -> is_u32 bl ->
  refines r (unmarshalV2 W r s hl bl) (parse_data W s (concat (chunks r))).
Proof.
  intros [HW Hint] Hs Hmg Ehl Ebl Hhl Hbl. unfold unmarshalV2, parse_data. rewrite <- Ehl, <- Ebl.
  unfold is_uint in Hhl, Hbl. rewrite (to_uint_id 64) by (unfold is_uint; lia).
  destruct (decide (MaxInt32 < hl + bl)) as [Hmax|Hmax]; [done|].
  destruct (decide (len (concat (chunks r)) < hl + bl)) as [Hlen|Hlen].
  { destruct (ReadFull_short r (hl + bl)) as (e & -> & He); [lia..|]. cbn. eauto. }
  destruct (ReadFull_enough r (hl + bl)) as (d & r' & -> & Hfin & Eb & Hd); [lia..|]. run.
  rewrite decide_False by lia. rewrite decide_False by (unfold dataSectionV2; lia).
  destruct (split_prefix s 4) as (m4 & s' & -> & Hm4); [lia|].
  rewrite take_len in Hmg by lia. subst m4. unfold magicLength.
  rewrite slice_prefix by done. run. rewrite decide_False by tauto.
  destruct (split_prefix d hl) as (hd & body & -> & Hhd); [lia|].
  rewrite len_app in Hd.
  assert (take (Z.to_nat hl) (concat (chunks r)) = hd) as ->
    by (rewrite Eb, <- app_assoc; apply take_len; lia).
  assert (take (Z.to_nat bl) (drop (Z.to_nat hl) (concat (chunks r))) = body) as ->.
  { rewrite Eb, <- app_assoc, drop_len by lia. apply take_len. lia. }
  assert (drop (Z.to_nat (hl + bl)) (concat (chunks r)) = concat (chunks r')) as ->.
  { rewrite Eb. apply drop_len. rewrite len_app. lia. }
  assert ((if decide (0 < hl) then hd0 ← slice (hd ++ body) 0 hl; unmarshalHeaders W hd0 else Ret ∅) =
          unmarshalHeaders W hd) as ->.
  { case_decide as Hpos; [by rewrite slice_prefix by done|].
    destruct hd; [done|]. rewrite len_cons in Hhd. pose proof (len_nonneg hd). lia. }
  assert (len hd + 8 < 2 ^ (W - 1)) as HhW.
  { destruct Hint; [lia|]. rewrite Eb, !len_app in *. pose proof (len_nonneg (concat (chunks r'))). lia. }
  destruct (unmarshalHeaders_cases W HW hd) as [(l & _ & _ & ->)|[e ->]]; [lia | done | | done]. run.
  destruct (field_slice (magicV2 ++ s') 4 8) as (ct & -> & Hct & Ect); [lia..|]. run.
  rewrite readInt32_put by done. run.
  destruct (field_slice (magicV2 ++ s') 8 12) as (sq & -> & Hsq & Esq); [lia..|]. run.
  rewrite readInt32_put by done. run. rewrite slice_suffix by (done || by rewrite len_app). run.
  cbn [refines]. exists r'. rewrite Ect, Esq. done.
Qed.

Lemma ReadV2_refines W r :
  int_ok W (concat (chunks r)) -> refines r (ReadV2 W r) (parse_frame W (concat (chunks r))).
Proof.
  intros Hint. unfold ReadV2, parse_frame. set (b := concat (chunks r)) in *.
  unfold dataSectionV2, magicLength. case_decide as H4.
  { destruct (ReadAtLeast_short r 20 4) as (e & -> & He); [lia | done |]. cbn. eauto. }
  destruct (ReadAtLeast_enough r 20 4) as (got & r1 & -> & Hfin & Eb & Hgot); [lia | fold b; lia |].
  run. fold b in Eb. destruct (split_prefix got 4) as (m & g & -> & Hm); [lia|].
  rewrite <- app_assoc. rewrite slice_prefix by done. run.
  assert (take 4 b = m) as Em by (rewrite Eb, <- app_assoc; apply take_len; lia). rewrite Em.
  destruct (decide (m = magicV2)) as [->|HnV2].
  2: { rewrite decide_True by done. case_decide as Hu; [|done]. rewrite Hu in *.
       rewrite (slice_mid _ magicUnknownVersion g (make_bytes (20 - len (magicUnknownVersion ++ g))))
         by first [reflexivity | rewrite len_app; reflexivity]. run.
       rewrite readUnknownVersionResponse_spec. run. cbn [refines].
       rewrite Eb, <- app_assoc, drop_len by done. done. }
  rewrite decide_False by tauto. set (got := magicV2 ++ g) in *.
  assert (len b = len got + len (concat (chunks r1))) as Hlb by (by rewrite Eb, len_app).
  destruct (decide (len b < 20)) as [H20|H20].
  { pose proof (len_nonneg (concat (chunks r1))). rewrite decide_True by lia.
    destruct (ReadFull_short r1 (20 - len got)) as (e & -> & He); [lia..|].
    cbn. rewrite <- Hfin. eauto. }
  assert (exists s r2, (if decide (len got < 20)
      then '(more, r2) ← ReadFull r1 (20 - len got); Ret (got ++ more, r2) else Ret (got, r1)) = Ret (s, r2) /\
      len s = 20 /\ b = s ++ concat (chunks r2) /\ fin r2 = fin r) as (s & r2 & -> & Hs & Es & Hf2).
  { case_decide as Hlt; [|exists got, r1; repeat split; try done; lia].
    destruct (ReadFull_enough r1 (20 - len got)) as (more & r2 & -> & Hf2 & E2 & Hmore); [lia..|].
    run. exists (got ++ more), r2. rewrite len_app, Eb, E2, app_assoc. repeat split; try lia; congruence. }
  run. destruct (field_slice s 12 16) as (hl & -> & Hhl & Ehl); [lia..|]. run.
  unfold readUint32. rewrite Uint32_put by done. run.
  destruct (field_slice s 16 20) as (bl & -> & Hbl & Ebl); [lia..|]. run.
  rewrite Uint32_put by done. run.
  rewrite Es. rewrite take_len, drop_len by lia.
  pose proof (unmarshalV2_refines W r2 s hl bl) as R. destruct Hint as [HW Hint].
  assert (refines r2 (unmarshalV2 W r2 s hl bl) (parse_data W s (concat (chunks r2)))) as R'.
  { apply R; try done.
    - split; [done|]. destruct Hint as [|Hint]; [by left|right].
      rewrite Es, len_app in Hint. lia.
    - rewrite <- Em, Es. symmetry. rewrite take_app_le; [done|]. unfold len in Hs. lia. }
  unfold refines in *. by rewrite <- Hf2.
Qed.

Lemma readHello_refines W r :
  int_ok W (concat (chunks r)) -> refines r (readHello W r) (parse_hello W (concat (chunks r))).
Proof.
  intros [HW Hint]. unfold readHello, parse_hello. set (b := concat (chunks r)) in *.
  unfold versionLen. destruct (decide (len b < 4)) as [H4|H4].
  { destruct (ReadFull_short r 4) as (e & -> & He); [lia | done |]. cbn. eauto. }
  destruct (ReadFull_enough r 4) as (m & r1 & -> & Hfin & Eb & Hm); [lia | fold b; lia |].
  run. fold b in Eb. rewrite (decide_False (P := len m ≠ 4)) by lia.
  assert (take 4 b = m) as Em by (rewrite Eb; apply take_len; lia). rewrite Em.
  destruct (decide (m = magicV2)) as [->|]; [|done].
  unfold readHelloV2, dataSectionV2, versionLen.
  assert (len b = 4 + len (concat (chunks r1))) as Hlb by (rewrite Eb, len_app; lia).
  destruct (decide (len b < 20)) as [H20|H20].
  { destruct (ReadFull_short r1 (20 - 4)) as (e & -> & He); [lia..|]. cbn. rewrite <- Hfin. eauto. }
  destruct (ReadFull_enough r1 (20 - 4)) as (more & r2 & -> & Hf2 & E2 & Hmore); [lia..|]. run.
  rewrite (decide_False (P := len more ≠ 20 - 4)) by lia.
  set (s := magicV2 ++ more). assert (len s = 20) as Hs by (unfold s; rewrite len_app; lia).
  assert (b = s ++ concat (chunks r2)) as Es by (unfold s; by rewrite Eb, E2, app_assoc).
  rewrite Es. rewrite take_len, drop_len by lia.
  destruct (field_slice s 12 16) as (hl & -> & Hhl & Ehl); [lia..|]. run.
  unfold readUint32. rewrite Uint32_put by done. run.
  destruct (field_slice s 16 20) as (bl & -> & Hbl & Ebl); [lia..|]. run.
  rewrite Uint32_put by done. run.
  change (Z.to_nat 12) with 12%nat in Ehl. change (Z.to_nat 16) with 16%nat in Ebl.
  rewrite <- Ehl, <- Ebl. destruct (decide (16384 < hl \/ 4192 < bl)); [done|].
  assert (refines r2 (unmarshalV2 W r2 s hl bl) (parse_data W s (concat (chunks r2)))) as R.
  { apply unmarshalV2_refines; try done. split; [done|]. destruct Hint as [|Hint]; [by left|right].
    rewrite Es, len_app in Hint. lia. }
  unfold refines in *. by rewrite <- Hfin, <- Hf2.
Qed.

(** ** Lemmas: marshalling *)

Lemma marshalHeaders_spec kvs :
  Forall (fun kv => len kv.2 <= MaxInt32) kvs ->
  marshalHeaders kvs = Ret (concat (enc_header <$> kvs)).
Proof.
  unfold marshalHeaders. intros Hk.
  enough (forall d, for_each (fun data kv =>
    Ret (data ++ le_put 4 kv.1 ++ le_put 4 (int32 (len kv.2)) ++ kv.2)) kvs d =
    Ret (d ++ concat (enc_header <$> kvs))) as H by apply H.
  induction Hk as [|kv kvs Hkv Hk IH]; intros d; cbn [for_each]; [by rewrite app_nil_r|]. run.
  rewrite IH, concat_fmap_one. unfold enc_header at 2. rewrite to_sint_id; [by rewrite <- !app_assoc | lia |].
  unfold is_sint, MaxInt32 in *. pose proof (len_nonneg kv.2). lia.
Qed.

Lemma marshalHeaders_Ret kvs : exists data, marshalHeaders kvs = Ret data.
Proof.
  unfold marshalHeaders. generalize (@nil byte). induction kvs as [|kv kvs IH]; intros d; [by eexists|].
  cbn [for_each]. run. apply IH.
Qed.

Section RoundTrip.
Context (rng : HeaderMap -> list (Z * bytes)) `{!RangeOrder rng}.

Lemma header_size_rng h : len (concat (enc_header <$> rng h)) = header_size h.
Proof using RangeOrder0.
  unfold header_size.
  assert (foldr (fun kv n => 8 + len kv.2 + n) 0 (map_to_list h) =
          foldr (fun (kv : Z * bytes) n => 8 + len kv.2 + n) 0 (rng h)) as ->.
  { apply (foldr_permutation_proper eq); [apply _ | intros; lia | symmetry; apply (range_perm (rng := rng))]. }
  induction (rng h) as [|kv l IH]; [done|].
  rewrite concat_fmap_one, len_app, enc_header_len, IH. done.
Qed.

Lemma MarshalV2_headers m : Headers (MarshalV2 rng m).2 = Headers (wire_message m).
Proof using Type.
  unfold MarshalV2, marshalWithVersion, wire_message. cbn [snd].
  destruct (replyFor m); [|done].
  unfold MessageHeader.PutUint32Header, with_Headers, PutUint32Header. cbn [Headers].
  by rewrite le_put_uint32.
Qed.

Lemma foldr_entry_le (l : list (Z * bytes)) kv :
  kv ∈ l -> len kv.2 <= foldr (fun kv n => 8 + len kv.2 + n) 0 l.
Proof using Type.
  intros H. induction l as [|x l IH]; [by apply not_elem_of_nil in H|]. simpl.
  assert (0 <= foldr (fun (kv : Z * bytes) n => 8 + len kv.2 + n) 0 l).
  { clear. induction l as [|x l IH]; simpl; [done|]. pose proof (len_nonneg x.2). lia. }
  pose proof (len_nonneg x.2). apply elem_of_cons in H as [->|H]; [lia|]. apply IH in H. lia.
Qed.

Lemma header_size_entry h k v : h !! k = Some v -> len v <= header_size h.
Proof using Type.
  intros H. apply (foldr_entry_le _ (k, v)). by apply elem_of_map_to_list.
Qed.

Lemma header_size_nonneg h : 0 <= header_size h.
Proof using Type.
  unfold header_size. induction (map_to_list h) as [|x l IH]; simpl; [done|].
  pose proof (len_nonneg x.2). lia.
Qed.

(** The frame [MarshalV2] writes. *)
Definition frame_bytes (m : Message) : bytes :=
  magicV2 ++ le_put 4 (ContentType m) ++ le_put 4 (sequence m) ++
  le_put 4 (header_size (Headers (wire_message m))) ++ le_put 4 (len (Body m)) ++
  concat (enc_header <$> rng (Headers (wire_message m))) ++ Body m.

Lemma MarshalV2_bytes m : fits m -> (MarshalV2 rng m).1 = Ret (frame_bytes m).
Proof using RangeOrder0.
  intros Hf. unfold fits in Hf. unfold MarshalV2, marshalWithVersion.
  pose proof (MarshalV2_headers m) as Eh. unfold MarshalV2, marshalWithVersion in Eh. cbn [snd] in Eh.
  cbn [fst]. rewrite Eh. pose proof (len_nonneg (Body m)).
  pose proof (header_size_nonneg (Headers (wire_message m))).
  rewrite marshalHeaders_spec.
  2: { rewrite (range_perm (rng := rng)). apply Forall_forall. intros [k v] Hkv. apply elem_of_map_to_list in Hkv.
       apply header_size_entry in Hkv. simpl. lia. }
  run. unfold frame_bytes. rewrite header_size_rng. unfold MaxInt32 in Hf.
  assert (Body (match replyFor m with
          | Some r => MessageHeader.PutUint32Header ReplyForHeader (uint32 r) m
          | None => m end) = Body m) as -> by (by destruct (replyFor m)).
  rewrite !to_sint_id by (lia || (unfold is_sint; lia)). by rewrite <- !app_assoc.
Qed.

Lemma wire_message_keys m : wf_message m -> forall k v, Headers (wire_message m) !! k = Some v -> is_i32 k.
Proof using Type.
  intros Hwf k v. unfold wire_message. simpl. destruct (replyFor m) as [r|].
  - destruct (decide (ReplyForHeader = k)) as [<-|]; [done|]. rewrite lookup_insert_ne by done.
    by apply wf_keys.
  - by apply wf_keys.
Qed.

(** The stream that starts with the frame of [m] parses to [m]. *)
Lemma frame_data W m tail :
  32 <= W -> wf_message m -> fits m ->
  parse_data W (take 20 (frame_bytes m ++ tail)) (drop 20 (frame_bytes m ++ tail)) =
  FMessage (wire_message m) tail.
Proof using RangeOrder0.
  intros HW Hwf Hf. unfold fits, MaxInt32 in Hf.
  set (H := Headers (wire_message m)) in *. set (hd := concat (enc_header <$> rng H)).
  pose proof (len_nonneg (Body m)). pose proof (header_size_nonneg H).
  set (s := magicV2 ++ le_put 4 (ContentType m) ++ le_put 4 (sequence m) ++
            le_put 4 (header_size H) ++ le_put 4 (len (Body m))).
  assert (frame_bytes m ++ tail = s ++ hd ++ Body m ++ tail) as ->
    by (unfold frame_bytes, s, hd, H; by rewrite <- !app_assoc).
  assert (len hd = header_size H) as Hhd by apply header_size_rng.
  assert (take 20 (s ++ hd ++ Body m ++ tail) = s) as -> by (apply take_len; reflexivity).
  assert (drop 20 (s ++ hd ++ Body m ++ tail) = hd ++ Body m ++ tail) as ->
    by (apply drop_len; reflexivity).
  unfold parse_data.
  assert (take 4 (drop 12 s) = le_put 4 (header_size H)) as -> by reflexivity.
  assert (take 4 (drop 16 s) = le_put 4 (len (Body m))) as -> by reflexivity.
  assert (take 4 (drop 4 s) = le_put 4 (ContentType m)) as -> by reflexivity.
  assert (take 4 (drop 8 s) = le_put 4 (sequence m)) as -> by reflexivity.
  rewrite !le_get_put_u32 by (unfold is_uint; lia). rewrite !le_put_i32 by apply Hwf.
  rewrite decide_False by (unfold MaxInt32; lia).
  pose proof (len_nonneg tail).
  rewrite decide_False by (rewrite !len_app; lia).
  rewrite (take_len hd) by lia. rewrite (drop_len hd) by lia. rewrite take_len by lia.
  rewrite (app_assoc hd), drop_len by (rewrite len_app; lia).
  rewrite (unmarshalHeaders_enc W HW (rng H)); [|..|done|unfold MaxInt32; lia].
  - rewrite copy_entries_empty by done. done.
  - rewrite (range_perm (rng := rng)). apply Forall_forall. intros [k v] Hkv. apply elem_of_map_to_list in Hkv.
    split; cbn [fst snd]; [by eapply wire_message_keys|].
    apply header_size_entry in Hkv. pose proof (len_nonneg v). unfold is_uint. lia.
Qed.

Lemma frame_bytes_len m : 20 <= len (frame_bytes m).
Proof using Type.
  unfold frame_bytes. rewrite !len_app, !len_le_put. change (len magicV2) with 4.
  pose proof (len_nonneg (concat (enc_header <$> rng (Headers (wire_message m))))).
  pose proof (len_nonneg (Body m)). lia.
Qed.

Lemma frame_magic m tail : take 4 (frame_bytes m ++ tail) = magicV2.
Proof using Type. reflexivity. Qed.

Lemma frame_parse W m tail :
  32 <= W -> wf_message m -> fits m ->
  parse_frame W (frame_bytes m ++ tail) = FMessage (wire_message m) tail.
Proof using RangeOrder0.
  intros. unfold parse_frame. pose proof (frame_bytes_len m). pose proof (len_nonneg tail).
  rewrite decide_False by (rewrite len_app; lia). rewrite decide_True by apply frame_magic.
  rewrite decide_False by (rewrite len_app; lia). by apply frame_data.
Qed.

Lemma frame_hello W m tail :
  32 <= W -> wf_message m -> header_size (Headers (wire_message m)) <= 16384 -> len (Body m) <= 4192 ->
  parse_hello W (frame_bytes m ++ tail) = FMessage (wire_message m) tail.
Proof using RangeOrder0.
  intros HW Hwf Hh Hb. unfold parse_hello. pose proof (frame_bytes_len m).
  pose proof (len_nonneg tail). pose proof (len_nonneg (Body m)).
  pose proof (header_size_nonneg (Headers (wire_message m))).
  rewrite decide_False by (rewrite len_app; lia). rewrite decide_True by apply frame_magic.
  rewrite decide_False by (rewrite len_app; lia).
  change (take 4 (drop 12 (take 20 (frame_bytes m ++ tail))))
    with (le_put 4 (header_size (Headers (wire_message m)))).
  change (take 4 (drop 16 (take 20 (frame_bytes m ++ tail)))) with (le_put 4 (len (Body m))).
  rewrite !le_get_put_u32 by (unfold is_uint; lia). rewrite decide_False by lia.
  apply frame_data; try done. unfold fits, MaxInt32. lia.
Qed.

(** Marshalling keeps every header but the reply-for one. *)
Lemma wire_header m k : k ≠ ReplyForHeader -> Headers (wire_message m) !! k = Headers m !! k.
Proof using Type.
  intros Hk. unfold wire_message. cbn. destruct (replyFor m); [|done]. by rewrite lookup_insert_ne.
Qed.

Lemma wire_message_replyFor m : wf_message m -> reply_for_spec (wire_message m) = reply_for_spec m.
Proof using Type.
  intros Hwf. unfold reply_for_spec, wire_message. cbn [replyFor Headers].
  destruct (replyFor m) as [r|] eqn:E; [|done]. rewrite lookup_insert_eq.
  rewrite decide_True by done. apply le_put_i32. by eapply wf_replyFor.
Qed.

End RoundTrip.

(** ** Lemmas: version negotiation *)

(** A response that lists the versions [vs]. *)
Definition version_response (vs : list Z) : bytes :=
  magicUnknownVersion ++ le_put 4 (len vs) ++ concat (le_put 4 <$> vs).

Lemma nth_version (vs : list Z) tail i v :
  Forall is_u32 vs -> vs !! i = Some v ->
  le_get (take 4 (drop (4 * i) (concat (le_put 4 <$> vs) ++ tail))) = v.
Proof.
  intros Hvs. revert i. induction Hvs as [|x vs Hx Hvs IH]; intros i Hi; [done|].
  rewrite concat_fmap_cons. destruct i as [|i].
  - simpl in Hi. injection Hi as ->. rewrite Nat.mul_0_r, drop_0.
    rewrite take_app_le, take_ge by (rewrite length_le_put; lia). by apply le_get_put_u32.
  - replace (4 * S i)%nat with (length (le_put 4 x) + 4 * i)%nat by (rewrite length_le_put; lia).
    rewrite drop_app_add. by apply IH.
Qed.

Lemma concat_le_put_len (vs : list Z) : len (concat (le_put 4 <$> vs)) = 4 * len vs.
Proof.
  induction vs as [|x vs IH]; [done|].
  rewrite concat_fmap_one, len_app, len_le_put, len_cons, IH. lia.
Qed.

Lemma parse_versions_response vs tail :
  Forall is_u32 vs -> len vs <= 64 ->
  parse_versions (drop 4 (version_response vs ++ tail)) = UnsupportedVersionError vs.
Proof.
  intros Hvs Hl. pose proof (len_nonneg vs). pose proof (len_nonneg tail).
  unfold version_response. rewrite <- !app_assoc. rewrite drop_len by done.
  unfold parse_versions. set (body := concat (le_put 4 <$> vs) ++ tail).
  assert (len body = 4 * len vs + len tail) as Hb by (unfold body; by rewrite len_app, concat_le_put_len).
  rewrite decide_False by (rewrite len_app, len_le_put; lia).
  rewrite (take_len (le_put 4 (len vs))) by done.
  rewrite le_get_put_u32 by (unfold is_uint; lia).
  rewrite decide_False by lia. rewrite decide_False by (rewrite len_app, len_le_put; lia).
  f_equal. apply list_eq. intros i. rewrite list_lookup_fmap.
  destruct (decide (i < length vs)%nat) as [Hi|Hi].
  - destruct (lookup_lt_is_Some_2 vs i Hi) as [v Hv]. rewrite Hv.
    rewrite lookup_seq_lt by (unfold len; lia). cbn [fmap option_fmap option_map].
    f_equal. rewrite Nat.add_0_l.
    replace (4 + 4 * i)%nat with (length (le_put 4 (len vs)) + 4 * i)%nat by (rewrite length_le_put; lia).
    rewrite drop_app_add. by apply nth_version.
  - rewrite lookup_seq_ge by (unfold len; lia). symmetry. apply lookup_ge_None. lia.
Qed.

(** ** Properties *)

(** C1: reading back what was marshalled.  For every well-formed message whose
    data section the format can carry, every iteration order of its headers,
    and every way the stream (followed by any further bytes) is cut into
    chunks, [ReadV2] returns the message's content type, sequence, headers and
    body, with the reply-for carried over, and leaves exactly the further
    bytes. *)
Theorem marshal_read_roundtrip (W : Z) (rng : HeaderMap -> list (Z * bytes)) `{!RangeOrder rng}
    (m : Message) :
  wf_message m -> fits m ->
  exists data, (MarshalV2 rng m).1 = Ret data /\
    reply_for_spec (wire_message m) = reply_for_spec m /\
    forall r tail, concat (chunks r) = data ++ tail -> int_ok W (data ++ tail) ->
      exists r', ReadV2 W r = Ret (wire_message m, r') /\
        concat (chunks r') = tail /\ fin r' = fin r.
Proof.
  intros Hwf Hf. exists (frame_bytes rng m). split; [by apply MarshalV2_bytes|].
  split; [by apply wire_message_replyFor|]. intros r tail E Hint.
  pose proof (ReadV2_refines W r) as R. rewrite E in R.
  rewrite (frame_parse rng W m tail) in R by first [assumption | apply Hint]. by apply R.
Qed.

Lemma marshal_read_roundtrip_witness :
  let m := ReplyTo (NewMessage 7 (lit "body")) (SetSequence 5 (NewMessage 6 [])) in
  exists data, (MarshalV2 (fun h => map_to_list h) m).1 = Ret data /\
    reply_for_spec (wire_message m) = reply_for_spec m /\
    forall r tail, concat (chunks r) = data ++ tail -> int_ok 64 (data ++ tail) ->
      exists r', ReadV2 64 r = Ret (wire_message m, r') /\
        concat (chunks r') = tail /\ fin r' = fin r.
Proof.
  intros m. apply (marshal_read_roundtrip 64 (fun h => map_to_list h) m).
  - split; [vm_compute; split; discriminate || reflexivity | vm_compute; split; discriminate || reflexivity | |].
    + intros r [= <-]. vm_compute. split; discriminate || reflexivity.
    + intros k v Hk. change (Headers m) with (∅ : HeaderMap) in Hk. by rewrite lookup_empty in Hk.
  - vm_compute. discriminate.
Defined.

(** C14: [ReadV2] refines the parser over the undivided stream: whatever chunks
    the transport delivers, it returns the message at the head of the stream
    and leaves the rest, or the same error; a stream too short for its frame is
    reported with the transport's own error or, for end of stream, possibly as
    an unexpected one (which of the two is the only thing the chunking decides). *)
Theorem ReadV2_refines_parser (W : Z) (r : reader) :
  int_ok W (concat (chunks r)) -> refines r (ReadV2 W r) (parse_frame W (concat (chunks r))).
Proof. apply ReadV2_refines. Qed.

Lemma ReadV2_refines_parser_witness :
  let r := mkReader [[Z2b 3; Z2b 6]; [Z2b 9]; [Z2b 7; Z2b 0]] io_EOF in
  refines r (ReadV2 64 r) (FError BadMagicNumberError).
Proof.
  intros r. replace (FError BadMagicNumberError) with (parse_frame 64 (concat (chunks r)))
    by (vm_compute; reflexivity).
  apply (ReadV2_refines_parser 64 r). apply int_ok_64.
Defined.

(** A stream that ends inside a frame: inside the magic, inside the rest of the
    message section, or inside the data section it declares. *)
Definition cut_frame (b : bytes) : Prop :=
  len b < 4 \/
  take 4 b = magicV2 /\
  let hl := le_get (take 4 (drop 12 (take 20 b))) in
  let bl := le_get (take 4 (drop 16 (take 20 b))) in
  len b < 20 \/ hl + bl <= MaxInt32 /\ len b < 20 + hl + bl.

(** A hello that is not too long. *)
Definition small_hello (b : bytes) : Prop :=
  len b < 20 \/ le_get (take 4 (drop 12 (take 20 b))) <= 16384 /\ le_get (take 4 (drop 16 (take 20 b))) <= 4192.

Lemma parse_data_cut W b :
  let hl := le_get (take 4 (drop 12 (take 20 b))) in
  let bl := le_get (take 4 (drop 16 (take 20 b))) in
  20 <= len b -> hl + bl <= MaxInt32 -> len b < 20 + hl + bl -> parse_data W (take 20 b) (drop 20 b) = FTruncated.
Proof.
  intros hl bl Hb Hm Hc. unfold parse_data. fold hl bl. rewrite decide_False by lia. rewrite decide_True; [done|].
  unfold len in *. rewrite length_drop. lia.
Qed.

Lemma cut_parse W b : cut_frame b ->
  parse_frame W b = FTruncated /\ (small_hello b -> parse_hello W b = FTruncated).
Proof.
  unfold cut_frame, small_hello, parse_frame, parse_hello. intros Hc.
  destruct (decide (len b < 4)); [done|]. destruct Hc as [?|[-> Hc]]; [lia|].
  rewrite !(decide_True (P := magicV2 = magicV2)) by done.
  destruct (decide (len b < 20)); [done|]. destruct Hc as [?|[Hm Hl]]; [lia|].
  rewrite parse_data_cut by lia. split; [done|]. intros [?|[Hs1 Hs2]]; [lia|].
  by rewrite decide_False by lia.
Qed.

(** C30: no input makes the frame readers panic or run on.  On a 64-bit platform
    for any stream, and on a 32-bit one for any stream of less than 2^31 - 8
    bytes ([int_ok]; a longer one can panic there, [unmarshalHeaders_wraps_32]),
    in any chunks, [ReadV2] and [readHello] return a message or an error; and
    for a stream that ends inside a frame, wherever it is cut (inside the magic,
    the message section or the data section), the error is that of the stream,
    for [readHello] unless the section lengths are refused first. *)
Theorem frame_readers_never_panic (W : Z) (r : reader) :
  int_ok W (concat (chunks r)) ->
  returns (ReadV2 W r) /\ returns (readHello W r) /\
  (cut_frame (concat (chunks r)) -> exists e, ReadV2 W r = Err e /\ truncation_error (fin r) e) /\
  (cut_frame (concat (chunks r)) -> small_hello (concat (chunks r)) ->
   exists e, readHello W r = Err e /\ truncation_error (fin r) e).
Proof.
  intros Hint. pose proof (ReadV2_refines W r Hint) as R1. pose proof (readHello_refines W r Hint) as R2.
  split_and!.
  - by eapply refines_returns.
  - by eapply refines_returns.
  - intros [Hc _]%(cut_parse W). by rewrite Hc in R1.
  - intros [_ Hc]%(cut_parse W) Hs. by rewrite (Hc Hs) in R2.
Qed.

Lemma frame_readers_never_panic_witness :
  let r := mkReader [magicV2; [Z2b 1]] io_EOF in
  returns (ReadV2 64 r) /\ returns (readHello 64 r) /\
  (exists e, ReadV2 64 r = Err e /\ truncation_error io_EOF e) /\
  exists e, readHello 64 r = Err e /\ truncation_error io_EOF e.
Proof.
  intros r. destruct (frame_readers_never_panic 64 r (int_ok_64 _)) as (H1 & H2 & H3 & H4).
  assert (cut_frame (concat (chunks r))) as Hc by (right; split; [reflexivity | left; reflexivity]).
  split; [exact H1|]. split; [exact H2|]. split; [exact (H3 Hc)|]. apply (H4 Hc). left. reflexivity.
Defined.

(** The header section grammar.  [unmarshalHeaders] accepts exactly the
    sequences of (int32 key, length, value) entries, with the last of several
    entries for a key winning, and returns an error on everything else. *)
Theorem unmarshalHeaders_grammar (W : Z) (b : bytes) :
  32 <= W -> len b <= MaxInt32 -> len b + 8 < 2 ^ (W - 1) ->
  (forall h, unmarshalHeaders W b = Ret h <->
     exists l, Forall header_ok l /\ b = concat (enc_header <$> l) /\ h = copy_entries l ∅) /\
  ((forall l, Forall header_ok l -> b ≠ concat (enc_header <$> l)) ->
   exists e, unmarshalHeaders W b = Err e).
Proof.
  intros HW Hb HbW. split.
  - intros h. split.
    + intros E. destruct (unmarshalHeaders_cases W HW b Hb HbW) as [(l & ? & ? & E')|[e E']];
        [|congruence]. exists l. naive_solver congruence.
    + intros (l & Hl & E & ->). by apply unmarshalHeaders_enc.
  - intros Hno. destruct (unmarshalHeaders_cases W HW b Hb HbW) as [(l & Hl & E & _)|?]; [|done].
    by destruct (Hno l).
Qed.

Lemma unmarshalHeaders_grammar_witness :
  unmarshalHeaders 64 (concat (enc_header <$> [(1, lit "a"); (1, lit "b")])) =
  Ret (copy_entries [(1, lit "a"); (1, lit "b")] ∅).
Proof.
  apply (unmarshalHeaders_grammar 64); [lia | vm_compute; discriminate | reflexivity |].
  exists [(1, lit "a"); (1, lit "b")]. split; [|split; reflexivity].
  do 2 (apply Forall_cons_2; [split; vm_compute; split; discriminate || reflexivity|]).
  apply Forall_nil_2.
Defined.

(** C31: the hello reader's bounds.  A hello within 16384 bytes of headers and
    4192 bytes of body is read back as sent; any hello that declares more is
    refused from its fixed-size section alone, before its data is read. *)
Theorem readHello_bounds (W : Z) (rng : HeaderMap -> list (Z * bytes)) `{!RangeOrder rng}
    (r : reader) :
  int_ok W (concat (chunks r)) ->
  (forall m tail, wf_message m -> header_size (Headers (wire_message m)) <= 16384 ->
     len (Body m) <= 4192 -> concat (chunks r) = frame_bytes rng m ++ tail ->
     exists r', readHello W r = Ret (wire_message m, r') /\ concat (chunks r') = tail) /\
  (forall s rest, concat (chunks r) = s ++ rest -> len s = 20 -> take 4 s = magicV2 ->
     16384 < le_get (take 4 (drop 12 s)) \/ 4192 < le_get (take 4 (drop 16 s)) ->
     exists args, readHello W r =
       Err (fmt_Errorf (lit "hello message too big. header len: %v, body len: %v") args)).
Proof.
  intros Hint. pose proof (readHello_refines W r Hint) as R. split.
  - intros m tail Hwf Hh Hb E. rewrite E, (frame_hello rng W m tail) in R by first [assumption | apply Hint].
    destruct R as (r' & -> & ? & _). eauto.
  - intros s rest E Hs Hm Hbig. rewrite E in R. unfold parse_hello in R.
    pose proof (len_nonneg rest). rewrite decide_False in R by (rewrite len_app; lia).
    rewrite take_app_le in R by (unfold len in Hs; lia). rewrite Hm in R.
    rewrite (decide_True (P := magicV2 = magicV2)) in R by done.
    rewrite decide_False in R by (rewrite len_app; lia).
    rewrite (take_len s) in R by lia. rewrite decide_True in R by done. simpl in R. eauto.
Qed.

Lemma readHello_bounds_witness :
  let s := magicV2 ++ le_put 4 0 ++ le_put 4 (-1) ++ le_put 4 0 ++ le_put 4 5000 in
  exists args, readHello 64 (mkReader [s] (net_Error 1)) =
    Err (fmt_Errorf (lit "hello message too big. header len: %v, body len: %v") args).
Proof.
  intros s.
  destruct (readHello_bounds 64 (fun h => map_to_list h) (mkReader [s] (net_Error 1)) (int_ok_64 _))
    as [_ H].
  apply (H s []); [reflexivity | reflexivity | reflexivity | right; reflexivity].
Defined.

(** Version negotiation.  A response listing at most 64 versions, as soon
    as its last byte has arrived and whatever follows or ends the stream, in
    any chunks, makes [ReadV2] return exactly those versions in an
    [UnsupportedVersionError]; the response this library writes lists versions
    1 and 2, and from it the dialer picks version 2. *)
Theorem version_negotiation (W : Z) (vs : list Z) (r : reader) (tail : bytes) :
  int_ok W (concat (chunks r)) -> Forall is_u32 vs -> len vs <= 64 ->
  concat (chunks r) = version_response vs ++ tail ->
  ReadV2 W r = Err (UnsupportedVersionError vs) /\
  GetRetryVersion (UnsupportedVersionError vs) = (2, bool_decide (2 ∈ vs)) /\
  WriteUnknownVersionResponse = version_response [1; 2].
Proof.
  intros Hint Hvs Hl E. split_and!.
  - pose proof (ReadV2_refines W r Hint) as R. unfold parse_frame in R. rewrite E in R.
    rewrite decide_False in R.
    2: { unfold version_response. rewrite <- app_assoc, len_app. change (len magicUnknownVersion) with 4.
         pose proof (len_nonneg ((le_put 4 (len vs) ++ concat (le_put 4 <$> vs)) ++ tail)). lia. }
    change (take 4 (version_response vs ++ tail)) with magicUnknownVersion in R.
    rewrite decide_False in R by done. rewrite decide_True in R by done.
    rewrite parse_versions_response in R by done. exact R.
  - unfold GetRetryVersion. destruct vs as [|v vs]; [done|]. cbn [getRetryVersionFor].
    destruct (existsb _ _) eqn:Ex.
    + rewrite bool_decide_eq_true_2; [done|]. apply existsb_exists in Ex as (x & Hx & Hd).
      apply bool_decide_eq_true in Hd as ->. by apply list_elem_of_In.
    + rewrite bool_decide_eq_false_2; [done|]. intros Hin.
      enough (false = true) by done. rewrite <- Ex. apply existsb_exists.
      exists 2. split; [by apply list_elem_of_In | done].
  - reflexivity.
Qed.

Lemma version_negotiation_witness :
  let r := mkReader [magicUnknownVersion; le_put 4 2 ++ le_put 4 1; le_put 4 2] (net_Error 1) in
  ReadV2 64 r = Err (UnsupportedVersionError [1; 2]) /\
  GetRetryVersion (UnsupportedVersionError [1; 2]) = (2, true).
Proof.
  intros r. destruct (version_negotiation 64 [1; 2] r []) as (H1 & H2 & _).
  - apply int_ok_64.
  - repeat constructor; vm_compute; discriminate || reflexivity.
  - vm_compute. discriminate.
  - reflexivity.
  - split; [exact H1 | rewrite H2; reflexivity].
Defined.

(** Where [int] has 32 bits, a header section of the maximal declared size
    the reader admits can still make the header parser panic: after an entry
    that ends 7 bytes before the section does, the index check [i + 8] wraps
    around and the slice that follows is out of range. *)
Theorem unmarshalHeaders_wraps_32 (v trailing : bytes) :
  len v = 2 ^ 31 - 16 -> len trailing = 7 ->
  len (enc_header (0, v) ++ trailing) = MaxInt32 /\
  unmarshalHeaders 32 (enc_header (0, v) ++ trailing) = Panic /\
  unmarshalHeaders 64 (enc_header (0, v) ++ trailing) ≠ Panic.
Proof.
  intros Hv Ht. set (b := enc_header (0, v) ++ trailing).
  assert (len b = MaxInt32) as Hb by (unfold b; rewrite len_app, enc_header_len; simpl; unfold MaxInt32; lia).
  split; [done|]. unfold MaxInt32 in Hb.
  split.
  2: { destruct (unmarshalHeaders_cases 64 ltac:(lia) b) as [(l & _ & _ & ->)|[e ->]];
       try done; unfold MaxInt32; lia. }
  unfold unmarshalHeaders. rewrite decide_False by lia.
  assert (header_ok (0, v)) as Hok by (split; [done | cbn; unfold is_uint; lia]).
  assert (exists f, S (length b) = S (S f)) as [f ->] by (unfold len in Hb; exists (pred (length b)); lia).
  change (unmarshal_loop 32 (S (S f)) b (len (@nil byte)) ∅ = Panic).
  rewrite (unmarshal_loop_entry 32 ltac:(lia) (S f) b [] 0 v trailing) by (done || unfold MaxInt32; lia).
  cbn [app]. rewrite enc_header_len. cbn [snd]. cbn [unmarshal_loop].
  assert (8 + len v = 2 ^ 31 - 8) as -> by lia.
  rewrite decide_True by lia.
  assert (add_int 32 (2 ^ 31 - 8) 8 = - 2 ^ 31) as -> by reflexivity.
  assert (add_int 32 (2 ^ 31 - 8) 4 = 2 ^ 31 - 4) as -> by reflexivity.
  rewrite decide_False by lia. rewrite (slice_Ret b (2 ^ 31 - 8)) by lia. run.
  unfold readInt32, Uint32. rewrite decide_True.
  - cbn [fmap outcome_fmap]. run. unfold slice. by rewrite decide_False by lia.
  - unfold len in *. rewrite length_take, length_drop. lia.
Qed.

Lemma unmarshalHeaders_wraps_32_witness :
  unmarshalHeaders 32
    (enc_header (0, replicate (Z.to_nat (2 ^ 31 - 16)) Byte.x00) ++ replicate 7 Byte.x00) = Panic.
Proof.
  apply (unmarshalHeaders_wraps_32 (replicate (Z.to_nat (2 ^ 31 - 16)) Byte.x00) (replicate 7 Byte.x00)).
  - unfold len. rewrite length_replicate, Z2Nat.id; [reflexivity | discriminate].
  - reflexivity.
Defined.

Definition without_body (m : Message) : Message := mkMessage (ContentType m) (sequence m) (replyFor m) (Headers m) [].

(** Sizes are not checked when a message is marshalled.  A body of 2^32 bytes is
    announced as empty, and marshalling reports success; the reader gets the
    message without its body and takes the body for the next messages. *)
Theorem long_body_desynchronizes (W : Z) (rng : HeaderMap -> list (Z * bytes)) `{!RangeOrder rng} (m : Message) :
  wf_message m -> fits (without_body m) -> len (Body m) = 2 ^ 32 ->
  exists data, (MarshalV2 rng m).1 = Ret data /\
    forall r tail, concat (chunks r) = data ++ tail -> int_ok W (data ++ tail) ->
      exists r', ReadV2 W r = Ret (wire_message (without_body m), r') /\ concat (chunks r') = Body m ++ tail.
Proof.
  intros Hwf Hf Hl. set (m0 := without_body m) in *. exists (frame_bytes rng m0 ++ Body m). split.
  - assert ((MarshalV2 rng m).1 = (data ← (MarshalV2 rng m0).1; Ret (data ++ Body m))) as ->.
    { unfold MarshalV2, marshalWithVersion. cbn [replyFor m0 without_body].
      destruct (replyFor m); cbn [fst Headers Body with_Headers MessageHeader.PutUint32Header m0 without_body];
        rewrite Hl; destruct (marshalHeaders _); try done; cbn [mbind outcome_bind fst]; f_equal;
        rewrite <- !app_assoc; by rewrite app_nil_l. }
    by rewrite (MarshalV2_bytes rng m0 Hf).
  - intros r tail E Hint. rewrite <- app_assoc in E, Hint. pose proof (ReadV2_refines W r) as R. rewrite E in R.
    rewrite (frame_parse rng W m0 (Body m ++ tail)) in R by first [exact Hf | apply Hint | (destruct Hwf; by split)].
    destruct (R Hint) as (r' & ER & Erest & _). exists r'. by split.
Qed.
