(* ===== verification/Handshake.v ===== *)
(** * The hello handshake

    Result and hello messages (src/messages.go), refusals (src/hello_reject.go),
    the stream underlay (src/classic_impl.go, and src/existing_conn_impl.go,
    whose methods have the same bodies), the packet underlay
    (src/datagram_underlay.go), the dialing side (src/classic_dialer.go,
    src/existing_conn_dialer.go), the listening side (src/classic_listener.go,
    src/existing_conn_listener.go), and the acceptors a listener hands an
    underlay to (src/hello_acceptor.go, src/accept_dispatcher.go).

    The transport connection is outside the repository: a [Conn] records what
    reading from it will deliver, what it answers to [Write], [SetDeadline] and
    [Close], and what has been done to it.  Every operation of an underlay is a
    stateful call on the underlay that owns the connection.  Theorems: both
    sides of a handshake agree on the identity, the connection id and the group
    secret; a refusal reaches the dialer with its class and text; a dial that
    fails closes every connection it opened; a connection the listener does not
    hand over is closed. *)

From S2P Require Import Prelude Headers Wire.

(** ** Results and hellos (messages.go) *)

Record Hello : Type := mkHello { IdToken : gostring; HelloHeaders : HeaderMap }.

Record Result : Type := mkResult { Success : bool; ResultMessage : gostring }.

Definition NewHello (rng : HeaderMap -> list (Z * bytes)) (idToken : gostring)
    (attributes : HeaderMap) : Message :=
  with_Headers (copy_entries (rng attributes)) (NewMessage ContentTypeHelloType idToken).

Definition UnmarshalHello (message : Message) : Hello := mkHello (Body message) (Headers message).

Definition NewResult (success : bool) (message : gostring) : Message :=
  MessageHeader.PutBoolHeader ResultSuccessHeader success (NewMessage ContentTypeResultType message).

Definition UnmarshalResult (message : Message) : Result :=
  mkResult (MessageHeader.GetBoolHeader message ResultSuccessHeader).1 (Body message).

(** ** Refusals (hello_reject.go) *)

Definition RejectClassUnspecified : Z := 0.
Definition RejectClassBusy : Z := 1.
Definition RejectClassNotPermitted : Z := 2.

(** [RejectClass.String] *)
Definition RejectClass_String (self : Z) : gostring :=
  if decide (self = RejectClassBusy) then lit "busy"
  else if decide (self = RejectClassNotPermitted) then lit "not-permitted"
  else lit "unspecified".

(** [RejectedError.Error] *)
Definition RejectedError_Error (Class : Z) (Message : gostring) : gostring :=
  if decide (Message ≠ []) then Message
  else if decide (Class = RejectClassUnspecified) then lit "hello rejected"
  else lit "hello rejected: " ++ RejectClass_String Class.

(** [errors.As] to a [RejectedError]; a nil error is [None]. *)
Definition GetRejectClass (err : option error) : Z :=
  default RejectClassUnspecified
    (err ≫= errors_As (fun e => match e with RejectedError c _ => Some c | _ => None end)).

(** [RejectClass] is an [int32], the header a [uint32]. *)
Definition getRejectClass (response : Message) : Z :=
  let '(class, found) := MessageHeader.GetUint32Header response HelloRejectClassHeader in
  if (found : bool) then int32 class else RejectClassUnspecified.

Definition IsNonRetryable (err : error) : bool :=
  bool_decide (is_Some (errors_As (fun e =>
    match e with NonRetryableError _ => Some tt | _ => None end) err)).

(** ** The transport connection *)

Record Conn : Type := mkConn {
  rd : reader;                      (* what reading delivers *)
  written : bytes;                  (* what has been written *)
  writeErr : option error;          (* the answer to [Write] *)
  setDeadlineErr : option error;    (* the answer to [SetDeadline] of a time *)
  clearDeadlineErr : option error;  (* the answer to [SetDeadline] of the zero time *)
  closeErr : option error;          (* the answer to [Close] *)
  commonNames : list gostring;      (* of the peer's certificates *)
  hasDeadline : bool;
  closes : nat                      (* how often [Close] was called *)
}.

Definition net_ErrClosed : error := net_Error 0.

Definition answer (err : option error) : outcome unit :=
  match err with Some e => Err e | None => Ret tt end.

(** A closed connection answers every call with an error. *)
Definition on_open {A} (c : Conn) (r : outcome A * Conn) : outcome A * Conn :=
  if decide (closes c = 0%nat) then r else (Err net_ErrClosed, c).

Definition with_written (b : bytes) (c : Conn) : Conn :=
  mkConn (rd c) b (writeErr c) (setDeadlineErr c) (clearDeadlineErr c) (closeErr c)
    (commonNames c) (hasDeadline c) (closes c).

Definition conn_Write (data : bytes) : ST Conn unit := fun c =>
  on_open c (match writeErr c with
  | Some e => (Err e, c)
  | None => (Ret tt, with_written (written c ++ data) c)
  end).

Definition with_deadline (b : bool) (c : Conn) : Conn :=
  mkConn (rd c) (written c) (writeErr c) (setDeadlineErr c) (clearDeadlineErr c) (closeErr c)
    (commonNames c) b (closes c).

(** [SetDeadline(t)] for a time ([set = true]) or the zero time. *)
Definition conn_SetDeadline (set : bool) : ST Conn unit := fun c =>
  on_open c (match (if set then setDeadlineErr c else clearDeadlineErr c) with
  | Some e => (Err e, c)
  | None => (Ret tt, with_deadline set c)
  end).

Definition conn_Close : ST Conn unit := fun c =>
  (answer (closeErr c), mkConn (rd c) (written c) (writeErr c) (setDeadlineErr c)
     (clearDeadlineErr c) (closeErr c) (commonNames c) (hasDeadline c) (S (closes c))).

Definition with_rd (r : reader) (c : Conn) : Conn :=
  mkConn r (written c) (writeErr c) (setDeadlineErr c) (clearDeadlineErr c) (closeErr c)
    (commonNames c) (hasDeadline c) (closes c).

(** A read function applied to the connection. *)
Definition conn_read {A} (f : reader -> outcome (A * reader)) : ST Conn A := fun c =>
  on_open c (match f (rd c) with
  | Ret (a, r) => (Ret a, with_rd r c)
  | Err e => (Err e, c)
  | Panic => (Panic, c)
  | OutOfFuel => (OutOfFuel, c)
  end).

(** ** The underlays *)

Definition readFunction : Type := reader -> outcome (Message * reader).

(** Marshalling may store the reply-for header in the message it is given. *)
Definition marshalFunction : Type := Message -> outcome bytes * Message.

(** [classicImpl], and [existingConnImpl], which has the same fields. *)
Record classicImpl : Type := mkImpl {
  peer : Conn;
  id : gostring;
  connectionId : gostring;
  headers : HeaderMap;
  closed : bool;
  readF : readFunction;
  marshalF : marshalFunction
}.

Definition with_peer (c : Conn) (impl : classicImpl) : classicImpl :=
  mkImpl c (id impl) (connectionId impl) (headers impl) (closed impl) (readF impl) (marshalF impl).

(** A call on the connection of the underlay. *)
Definition on_peer {A} (f : ST Conn A) : ST classicImpl A := fun impl =>
  let '(r, c) := f (peer impl) in (r, with_peer c impl).

Definition underlay_closed : error := errors_New (lit "underlay closed").

Definition Rx : ST classicImpl Message := fun impl =>
  if closed impl then (Err underlay_closed, impl) else on_peer (conn_read (readF impl)) impl.

(** [Tx] also returns the message, which marshalling may have changed. *)
Definition Tx (m : Message) : ST classicImpl Message := fun impl =>
  if closed impl then (Err underlay_closed, impl)
  else
    match marshalF impl m with
    | (Ret data, m') => (_ ← on_peer (conn_Write data); mret m') impl
    | (Err e, _) => (Err e, impl)
    | (Panic, _) => (Panic, impl)
    | (OutOfFuel, _) => (OutOfFuel, impl)
    end.

Definition Close : ST classicImpl unit := fun impl =>
  if closed impl then (Ret tt, impl)
  else on_peer conn_Close
         (mkImpl (peer impl) (id impl) (connectionId impl) (headers impl) true (readF impl) (marshalF impl)).

Definition init (id' connectionId' : gostring) (headers' : HeaderMap) : ST classicImpl unit :=
  modify (fun impl =>
    mkImpl (peer impl) id' connectionId' headers' (closed impl) (readF impl) (marshalF impl)).

(** A [MessageStrategy] whose three producers may each be absent. *)
Record MessageStrategy : Type := mkStrategy {
  GetMarshaller : option marshalFunction;
  GetStreamProducer : option readFunction;
  GetPacketProducer : option (bytes -> outcome Message)
}.

(** The width of [int], and the order in which maps are iterated. *)
Section Handshake.
Context (W : Z) (rng : HeaderMap -> list (Z * bytes)).

Definition newClassicImpl (messageStrategy : option MessageStrategy) (peer : Conn) (version : Z)
    : classicImpl :=
  let marshal0 := if decide (version = 3) then marshalV3 rng else MarshalV2 rng in
  mkImpl peer [] [] ∅ false
    (default (ReadV2 W) (messageStrategy ≫= GetStreamProducer))
    (default marshal0 (messageStrategy ≫= GetMarshaller)).

(** [readHello] also gives the read and marshal functions of the connection,
    which are the V2 ones on all of its returns. *)
Definition rxHello : ST classicImpl Message := fun impl =>
  let '(o, i) := on_peer (conn_read (readHello W)) impl in
  (o, mkImpl (peer i) (id i) (connectionId i) (headers i) (closed i) (ReadV2 W) (MarshalV2 rng)).

(** *** Packets: one read of at most 2000 bytes is one message. *)

Definition packet_buffer : Z := 2000.

(** [peer.Read(buf)]: the part of the next packet that fits; the rest is gone. *)
Definition read_packet (r : reader) : outcome (bytes * reader) :=
  match chunks r with
  | [] => Err (fin r)
  | p :: ps => Ret (take (Z.to_nat packet_buffer) p, mkReader ps (fin r))
  end.

(** The default packet reader: [ReadV2] over a buffer, which ends with EOF. *)
Definition read_buffer (buf : bytes) : outcome Message :=
  '(m, _) ← ReadV2 W (mkReader [buf] io_EOF); Ret m.

Definition packet_readF (readF : bytes -> outcome Message) : readFunction := fun r =>
  '(buf, r') ← read_packet r; m ← readF buf; Ret (m, r').

(** [newDatagramUnderlay]; its reader takes whole packets. *)
Definition newDatagramUnderlay (messageStrategy : option MessageStrategy) (peer : Conn) (version : Z)
    : classicImpl :=
  let marshal0 := if decide (version = 3) then marshalV3 rng else MarshalV2 rng in
  mkImpl peer [] [] ∅ false
    (packet_readF (default read_buffer (messageStrategy ≫= GetPacketProducer)))
    (default marshal0 (messageStrategy ≫= GetMarshaller)).

(** [DatagramMessageStrategy(producer)] *)
Definition DatagramMessageStrategy (producer : bytes -> outcome Message) : MessageStrategy :=
  mkStrategy (Some (MarshalV2WithRaw rng)) None (Some producer).

(** The packet underlay's [Rx] and [Tx] do not look at the closed flag. *)
Definition Datagram_Rx : ST classicImpl Message := fun impl =>
  on_peer (conn_read (readF impl)) impl.

Definition Datagram_Tx (m : Message) : ST classicImpl Message := fun impl =>
  match marshalF impl m with
  | (Ret data, m') => (_ ← on_peer (conn_Write data); mret m') impl
  | (Err e, _) => (Err e, impl)
  | (Panic, _) => (Panic, impl)
  | (OutOfFuel, _) => (OutOfFuel, impl)
  end.

(** ** The dialing side (classic_dialer.go) *)

(** [HelloHeaderProvider]: the headers it leaves, or its error. *)
Definition HelloHeaderProvider : Type := list gostring -> HeaderMap -> outcome HeaderMap.

Record classicDialer : Type := mkDialer {
  dialerToken : gostring;
  dialerHeaders : HeaderMap;
  helloHeaderProvider : option HelloHeaderProvider
}.

(** The hello, with the headers of the dialer, of this dial and of the provider. *)
Definition hello_request (self : classicDialer) (names : list gostring) (headers : HeaderMap)
    : outcome Message :=
  let request := NewHello rng (dialerToken self) (dialerHeaders self) in
  let request := with_Headers (copy_entries (rng headers)) request in
  match helloHeaderProvider self with
  | None => Ret (SetSequence HelloSequence request)
  | Some provider =>
      match provider names (Headers request) with
      | Ret h => Ret (SetSequence HelloSequence (with_Headers (fun _ => h) request))
      | Err e => Err (NonRetryableError e)
      | Panic => Panic
      | OutOfFuel => OutOfFuel
      end
  end.

(** The identity the peer gave, else the common name of its first certificate. *)
Definition peer_id (response : Message) (names : list gostring) : gostring :=
  let '(val, ok) := MessageHeader.GetStringHeader response IdHeader in
  if (ok : bool) then val else default [] (head names).

Definition sync_error (got : Z) : error :=
  fmt_Errorf (lit "channel synchronization error, expected %v, got %v") [HelloSequence; got].

(** The checks of the reply, and what it tells the dialer. *)
Definition check_reply (response : Message) : outcome Message :=
  let '(replying, response1) := IsReplyingTo response HelloSequence in
  ok ← replying;
  if negb ok || bool_decide (ContentType response1 ≠ ContentTypeResultType)
  then got ← (ReplyFor response1).1; Err (sync_error got)
  else
    let result := UnmarshalResult response1 in
    if negb (Success result)
    then Err (NonRetryableError (RejectedError (getRejectClass response1) (ResultMessage result)))
    else Ret response1.

(** The end of the dialer's handshake: what the reply tells goes into the
    underlay.  The type is set by the dialing side, not by the listener. *)
Definition complete_hello (request : Message) (names : list gostring) (response : Message)
    : ST classicImpl unit :=
  response ← lift (check_reply response);
  let requested := default [] (Headers request !! ConnectionIdHeader) in
  let connectionId :=
    if decide (requested = []) then default [] (Headers response !! ConnectionIdHeader)
    else requested in
  init (peer_id response names) connectionId
    (<[TypeHeader := default [] (Headers request !! TypeHeader)]> (Headers response)).

Definition close_on_error (failed : bool) : ST classicImpl unit := when failed (ignore Close).
Definition clear_deadline (failed : bool) : ST classicImpl unit :=
  ignore (on_peer (conn_SetDeadline false)).

Definition bad_magic_text : gostring :=
  lit "could not negotiate connection with %v, invalid header".

Definition sendHello (self : classicDialer) (headers : HeaderMap) : ST classicImpl unit :=
  deferred close_on_error (
    _ ← on_peer (conn_SetDeadline true);
    deferred clear_deadline (
      names ← gets (fun impl => commonNames (peer impl));
      request ← attempt (lift (hello_request self names headers));
      match request with
      | inl e => _ ← ignore Close; throw e
      | inr request =>
          request ← Tx request;
          answer ← attempt Rx;
          match answer with
          | inl e =>
              if errors_Is e BadMagicNumberError
              then throw (fmt_Errorf bad_magic_text []) else throw e
          | inr response => complete_hello request names response
          end
      end)).

(** [CreateWithHeaders].  Dialing the endpoint for the [n]-th time gives
    [dial n], and the [n]-th look at the clock gives [clock n].  A round of the
    loop ends the call or increments [tryCount]; the call returns the underlay,
    and every underlay it created is recorded in the state it was left in. *)
Section Dial.
Context (self : classicDialer) (messageStrategy : option MessageStrategy) (dtls : bool)
  (dial : nat -> outcome Conn) (clock : nat -> Z) (headers : HeaderMap).

Definition underlayFactory : option MessageStrategy -> Conn -> Z -> classicImpl :=
  if dtls then newDatagramUnderlay else newClassicImpl.

Fixpoint dial_loop (fuel : nat) (deadline : Z) (tryCount : nat) (version : Z)
    (created : list classicImpl) : outcome classicImpl * list classicImpl :=
  match fuel with
  | O => (OutOfFuel, created)
  | S fuel' =>
      if decide (clock (S tryCount) < deadline)
      then
        match dial tryCount with
        | Ret peer =>
            match sendHello self headers (underlayFactory messageStrategy peer version) with
            | (Ret _, u) => (Ret u, created ++ [u])
            | (Err err, u) =>
                if bool_decide (0 < tryCount)%nat || IsNonRetryable err then (Err err, created ++ [u])
                else
                  let '(retryVersion, versionNegotiable) := GetRetryVersion err in
                  if negb versionNegotiable then (Err err, created ++ [u])
                  else dial_loop fuel' deadline (S tryCount) retryVersion (created ++ [u])
            | (Panic, u) => (Panic, created ++ [u])
            | (OutOfFuel, u) => (OutOfFuel, created ++ [u])
            end
        | Err err => (Err err, created)
        | Panic => (Panic, created)
        | OutOfFuel => (OutOfFuel, created)
        end
      else (Err (errors_New (lit "timeout waiting for dial")), created)
  end.

(** Times are in nanoseconds.  Two rounds are enough: the second never
    continues. *)
Definition CreateWithHeaders (timeout : Z) : outcome classicImpl * list classicImpl :=
  let timeout := if decide (timeout = 0) then 15 * 10 ^ 9 else timeout in
  dial_loop 2 (clock 0 + timeout) 0 2 [].

End Dial.

(** ** The listening side (classic_listener.go) *)

(** A [HelloAcceptor] takes over an underlay, with the call that acknowledges
    its hello; it returns nothing. *)
Definition HelloAcceptor : Type := ST classicImpl unit -> ST classicImpl unit.

Record classicListener : Type := mkListener {
  listenerToken : option gostring;         (* of the identity, which may be nil *)
  listenerHeaders : HeaderMap;
  headersF : option HeaderMap;             (* what [headersF()] gives, if it is set *)
  handlers : list (Hello -> list gostring -> outcome unit);
  datagram : bool                          (* the endpoint's type is dtls *)
}.

Definition receiveHello (self : classicListener) : ST classicImpl (Message * Hello) :=
  request ← attempt (if datagram self then Datagram_Rx else rxHello);
  match request with
  | inl e =>
      _ ← when (errors_Is e BadMagicNumberError)
            (ignore (on_peer (conn_Write WriteUnknownVersionResponse)));
      _ ← ignore Close;
      throw (fmt_Errorf (lit "receive error (%s)") [])
  | inr request =>
      if decide (ContentType request ≠ ContentTypeHelloType)
      then
        _ ← ignore Close;
        throw (fmt_Errorf (lit "unexpected content type [%d]") [ContentType request])
      else mret (request, UnmarshalHello request)
  end.

(** The acknowledgement of [request] over an underlay with the given connection id. *)
Definition ack_response (self : classicListener) (connectionId : gostring) (request : Message)
    (success : bool) (message : gostring) : Message :=
  let response := NewResult success message in
  let response := with_Headers (copy_entries (rng (listenerHeaders self))) response in
  let response :=
    match headersF self with
    | Some h => with_Headers (copy_entries (rng h)) response
    | None => response
    end in
  let response := MessageHeader.PutStringHeader ConnectionIdHeader connectionId response in
  let response :=
    match listenerToken self with
    | Some token => MessageHeader.PutStringHeader IdHeader token response
    | None => response
    end in
  let response :=
    if (MessageHeader.GetBoolHeader request IsGroupedHeader).1
    then MessageHeader.PutBoolHeader IsGroupedHeader true response else response in
  let response :=
    if decide ((MessageHeader.GetStringHeader request TypeHeader).1 = []) then response
    else MessageHeader.PutStringHeader TypeHeader
           (MessageHeader.GetStringHeader request TypeHeader).1 response in
  let groupSecret := default [] (Headers request !! GroupSecretHeader) in
  let response :=
    if decide (0 < len groupSecret)
    then with_Headers (<[GroupSecretHeader := groupSecret]>) response else response in
  ReplyTo (SetSequence HelloSequence response) request.

Definition ackHello (self : classicListener) (request : Message) (success : bool)
    (message : gostring) : ST classicImpl unit :=
  cid ← gets connectionId;
  _ ← Tx (ack_response self cid request success message);
  mret tt.

(** The connection id a listener gives an underlay: the one requested for a
    group, else a fresh one ([NextConnectionId], or a UUID if that fails). *)
Definition listener_connectionId (request : Message) (nextConnectionId : outcome gostring)
    (uuid : gostring) : gostring :=
  let connectionId := (MessageHeader.GetStringHeader request ConnectionIdHeader).1 in
  let isGrouped := (MessageHeader.GetBoolHeader request IsGroupedHeader).1 in
  if negb isGrouped || bool_decide (connectionId = [])
  then match nextConnectionId with Ret c => c | _ => uuid end
  else connectionId.

(** The hello's headers are the request's (one map): the secret generated for a
    group whose hello has none is seen through both. *)
Definition with_group_secret (newSecret : bytes) (request : Message) : Message :=
  if (MessageHeader.GetBoolHeader request IsGroupedHeader).1
  then
    if decide (len (default [] (Headers request !! GroupSecretHeader)) = 0)
    then with_Headers (<[GroupSecretHeader := newSecret]>) request else request
  else request.

(** The deferred end of the job: the deadline is cleared or the connection closed. *)
Definition clear_or_close (failed : bool) : ST classicImpl unit :=
  cleared ← attempt (on_peer (conn_SetDeadline false));
  match cleared with
  | inl _ => ignore (on_peer conn_Close)
  | inr _ => mret tt
  end.

(** The job [acceptConnection] queues for a new connection. *)
Definition accept_job (self : classicListener) (nextConnectionId : outcome gostring)
    (uuid newSecret : bytes) (acceptor : HelloAcceptor) : ST classicImpl unit :=
  deadline ← attempt (on_peer (conn_SetDeadline true));
  match deadline with
  | inl _ => ignore (on_peer conn_Close)
  | inr _ =>
      deferred clear_or_close (
        received ← attempt (receiveHello self);
        match received with
        | inl _ => ignore (on_peer conn_Close)
        | inr (request, hello) =>
            names ← gets (fun impl => commonNames (peer impl));
            handled ← attempt (lift (for_each (fun _ h => h hello names) (handlers self) tt));
            match handled with
            | inl _ => ignore (on_peer conn_Close)
            | inr _ =>
                let cid := listener_connectionId request nextConnectionId uuid in
                let request := with_group_secret newSecret request in
                _ ← init (IdToken hello) cid (Headers request);
                acceptor (ackHello self request true [])
            end
        end)
  end.

(** [acceptConnection]: [queueErr] is the answer of the goroutine pool.  A job it
    does not take is only logged. *)
Definition acceptConnection (queueErr : option error) (self : classicListener) (nextConnectionId : outcome gostring)
    (uuid newSecret : bytes) (acceptor : HelloAcceptor) : ST classicImpl unit :=
  match queueErr with
  | Some _ => mret tt
  | None => accept_job self nextConnectionId uuid newSecret acceptor
  end.

(** ** An existing connection (existing_conn_dialer.go, existing_conn_listener.go) *)

Definition newExistingImpl (peer : Conn) (version : Z) : classicImpl :=
  mkImpl peer [] [] ∅ false (ReadV2 W)
    (if decide (version = 2) then MarshalV2 rng
     else if decide (version = 3) then marshalV3 rng else MarshalV2 rng).

Definition existing_sendHello (token : gostring) (attributes : HeaderMap) : ST classicImpl unit :=
  let request := SetSequence HelloSequence (NewHello rng token attributes) in
  sent ← attempt (Tx request);
  match sent with
  | inl e => _ ← ignore (on_peer conn_Close); throw e
  | inr request =>
      response ← Rx;
      let '(replying, response) := IsReplyingTo response (sequence request) in
      ok ← lift replying;
      if negb ok || bool_decide (ContentType response ≠ ContentTypeResultType)
      then
        got ← lift (ReplyFor response).1;
        throw (fmt_Errorf (lit "channel synchronization error, expected %v, got %v")
                 [sequence request; got])
      else
        let result := UnmarshalResult response in
        if negb (Success result) then throw (errors_New (ResultMessage result))
        else
          i ← gets id;
          init i (default [] (Headers response !! ConnectionIdHeader)) (Headers response)
  end.

Definition set_id (token : gostring) : ST classicImpl unit :=
  modify (fun i => mkImpl (peer i) token (connectionId i) (headers i) (closed i) (readF i) (marshalF i)).

(** The loop of the dialer's [Create]; every round works on the same
    connection. *)
Fixpoint existing_loop (fuel : nat) (token : gostring) (attributes : HeaderMap) (timeout : Z)
    (tryCount : nat) (version : Z) (c : Conn) : outcome classicImpl * Conn :=
  match fuel with
  | O => (OutOfFuel, c)
  | S fuel' =>
      let attempt_hello :=
        _ ← when (bool_decide (0 < timeout)) (on_peer (conn_SetDeadline true));
        r ← attempt (existing_sendHello token attributes);
        match r with
        | inl e => mret (Some e)
        | inr _ => _ ← set_id token; mret None
        end in
      match attempt_hello (newExistingImpl c version) with
      | (Ret None, impl) => (Ret impl, peer impl)
      | (Ret (Some e), impl) =>
          if decide (0 < tryCount)%nat then (Err e, peer impl)
          else
            let retryVersion := (GetRetryVersion e).1 in
            if decide (retryVersion ≠ version)
            then existing_loop fuel' token attributes timeout (S tryCount) retryVersion (peer impl)
            else (Err e, peer impl)
      | (Err e, impl) => (Err e, peer impl)
      | (Panic, impl) => (Panic, peer impl)
      | (OutOfFuel, impl) => (OutOfFuel, peer impl)
      end
  end.

(** [existingConnDialer.Create]: the underlay, and the connection afterwards
    (which is the underlay's when there is one). *)
Definition existingConnDialer_Create (token : gostring) (attributes : HeaderMap) (timeout : Z)
    (c : Conn) : outcome classicImpl * Conn :=
  let '(o, c1) := existing_loop 2 token attributes timeout 0 2 c in
  let '(_, c2) := ignore (conn_SetDeadline false) c1 in
  ((fun impl => with_peer c2 impl) <$> o, c2).

Definition existing_receiveHello : ST classicImpl (Message * Hello) :=
  request ← attempt rxHello;
  match request with
  | inl e =>
      _ ← when (bool_decide (e = BadMagicNumberError))
            (ignore (on_peer (conn_Write WriteUnknownVersionResponse)));
      _ ← ignore Close;
      throw (fmt_Errorf (lit "receive error (%s)") [])
  | inr request =>
      if decide (ContentType request ≠ ContentTypeHelloType)
      then
        _ ← ignore Close;
        throw (fmt_Errorf (lit "unexpected content type [%d]") [ContentType request])
      else mret (request, UnmarshalHello request)
  end.

Definition existing_ack_response (attributes : HeaderMap) (connectionId : gostring)
    (request : Message) (success : bool) (message : gostring) : Message :=
  let response := with_Headers (copy_entries (rng attributes)) (NewResult success message) in
  let response := with_Headers (<[ConnectionIdHeader := connectionId]>) response in
  ReplyTo (SetSequence HelloSequence response) request.

Definition wrap {S A} (text : gostring) (c : ST S A) : ST S A :=
  r ← attempt c; match r with inl e => throw (errors_Wrap e text) | inr a => mret a end.

(** [existingConnListener.Create], on the underlay [newExistingImpl peer 2]. *)
Definition existingConnListener_Create (attributes : HeaderMap) (timeout : Z)
    (nextConnectionId : outcome gostring) : ST classicImpl unit :=
  cid ← wrap (lit "error getting connection id") (lift nextConnectionId);
  _ ← modify (fun i => mkImpl (peer i) (id i) cid (headers i) (closed i) (readF i) (marshalF i));
  let timed := bool_decide (0 < timeout) in
  deferred (fun _ => when timed (ignore (on_peer (conn_SetDeadline false)))) (
    _ ← when timed (wrap (lit "could not set deadline on conn") (on_peer (conn_SetDeadline true)));
    '(request, hello) ← wrap (lit "error receiving hello") existing_receiveHello;
    _ ← init (IdToken hello) cid (HelloHeaders hello);
    wrap (lit "unable to acknowledge hello")
      (_ ← Tx (existing_ack_response attributes cid request true []); mret tt)).

(** ** Refusing a hello *)

(** The negative result; [Error] gives the text of an error.  It is stamped as
    the reply to a hello without holding the request. *)
Definition reject_response (Error : error -> gostring) (reason : option error) : Message :=
  let message := match reason with Some e => Error e | None => [] end in
  let response := NewResult false message in
  let class := GetRejectClass reason in
  let response :=
    if decide (class ≠ RejectClassUnspecified)
    then MessageHeader.PutUint32Header HelloRejectClassHeader (uint32 class) response
    else response in
  with_replyFor (Some HelloSequence) (SetSequence HelloSequence response).

(** The errors joined into the result; none is nil. *)
Definition RejectHello (Error : error -> gostring) (reason : option error)
    : ST classicImpl (list error) :=
  sent ← attempt (Tx (reject_response Error reason));
  ended ← attempt Close;
  mret ((match sent with inl e => [e] | inr _ => [] end) ++
        (match ended with inl e => [e] | inr _ => [] end)).

(** ** Acceptors (hello_acceptor.go, accept_dispatcher.go) *)

Definition HelloAcceptorF (f : ST classicImpl unit) : HelloAcceptor := fun ackHello =>
  acked ← attempt ackHello;
  match acked with
  | inl _ => ignore Close
  | inr _ => f
  end.

(** An [UnderlayAcceptor] takes ownership of the underlay, or errs. *)
Definition AsHelloAcceptor (acceptor : ST classicImpl unit) : HelloAcceptor :=
  HelloAcceptorF (
    accepted ← attempt acceptor;
    match accepted with
    | inl _ => ignore Close
    | inr _ => mret tt
    end).

(** The acceptor for the type header of an underlay, else the default. *)
Definition choose_acceptor {A} (acceptors : gmap gostring A) (defaultAcceptor : option A)
    (underlay : classicImpl) : option A :=
  match headers underlay !! TypeHeader with
  | Some chanType =>
      match acceptors !! chanType with
      | Some typed => Some typed
      | None => defaultAcceptor
      end
  | None => defaultAcceptor
  end.

Definition TypeRoutingAcceptor (acceptors : gmap gostring HelloAcceptor)
    (defaultAcceptor : option HelloAcceptor) : HelloAcceptor := fun ackHello =>
  acceptor ← gets (choose_acceptor acceptors defaultAcceptor);
  match acceptor with
  | None => ignore Close
  | Some a => a ackHello
  end.

(** One round of [UnderlayDispatcher.Run], on an underlay the listener gave. *)
Definition dispatch (acceptors : gmap gostring (ST classicImpl unit))
    (defaultAcceptor : option (ST classicImpl unit)) : ST classicImpl unit :=
  acceptor ← gets (choose_acceptor acceptors defaultAcceptor);
  match acceptor with
  | None => ignore Close
  | Some a =>
      accepted ← attempt a;
      match accepted with inl _ => ignore Close | inr _ => mret tt end
  end.

(** [err.Error() == "closed"] *)
Definition says_closed (e : error) : bool :=
  bool_decide (e = ListenerClosedError \/ e = errors_New (lit "closed")).

(** [Run] over the results of the listener's [Create], up to the first that
    says the listener is closed: the outcome for each underlay, and whether it
    has returned. *)
Fixpoint dispatcher_Run (acceptors : gmap gostring (ST classicImpl unit))
    (defaultAcceptor : option (ST classicImpl unit)) (created : list (outcome classicImpl))
    : list (outcome unit * classicImpl) * bool :=
  match created with
  | [] => ([], false)
  | Ret underlay :: rest =>
      let '(done, returned) := dispatcher_Run acceptors defaultAcceptor rest in
      (dispatch acceptors defaultAcceptor underlay :: done, returned)
  | Err e :: rest =>
      if says_closed e then ([], true) else dispatcher_Run acceptors defaultAcceptor rest
  | _ :: _ => ([], false)
  end.

End Handshake.

(** ** Specifications *)

(** An open connection on which every call works. *)
Definition healthy (c : Conn) : Prop :=
  closes c = 0%nat /\ writeErr c = None /\ setDeadlineErr c = None /\ clearDeadlineErr c = None.

(** The header keys of a map are [int32]s. *)
Definition keys_ok (h : HeaderMap) : Prop := forall k v, h !! k = Some v -> is_i32 k.

(** What a listener's configured headers must leave alone for its
    acknowledgements to be ones. *)
Definition ack_headers_ok (self : classicListener) : Prop :=
  keys_ok (listenerHeaders self) /\ listenerHeaders self !! ResultSuccessHeader = None /\
  (forall h, headersF self = Some h -> keys_ok h /\ h !! ResultSuccessHeader = None).

(** The underlay has not been closed, and reads and writes V2 frames. *)
Definition ready (W : Z) (rng : HeaderMap -> list (Z * bytes)) (i : classicImpl) : Prop :=
  closed i = false /\ readF i = ReadV2 W /\ marshalF i = MarshalV2 rng.

(** The read and marshal functions of the underlay return. *)
Definition total_fns (i : classicImpl) : Prop :=
  (forall r, returns (readF i r)) /\ (forall m, returns (marshalF i m).1).

(** What holds of every underlay: its functions return, and when it is closed,
    its connection has been. *)
Definition underlay_inv (i : classicImpl) : Prop :=
  total_fns i /\ (closed i = true -> (0 < closes (peer i))%nat).

(** ** Lemmas: the underlay *)

Section Underlay.
Context (W : Z) (rng : HeaderMap -> list (Z * bytes)) `{!RangeOrder rng}.

Lemma Tx_frame i m :
  closed i = false -> marshalF i = MarshalV2 rng -> closes (peer i) = 0%nat ->
  writeErr (peer i) = None -> fits m ->
  Tx m i = (Ret (MarshalV2 rng m).2,
            with_peer (with_written (written (peer i) ++ frame_bytes rng m) (peer i)) i).
Proof using RangeOrder0.
  intros Hc Hm Hcl Hw Hf. unfold Tx. rewrite Hc, Hm.
  pose proof (MarshalV2_bytes rng m Hf) as E. destruct (MarshalV2 rng m) as [o m'].
  cbn [fst] in E. subst o. unfold on_peer, conn_Write, on_open.
  erewrite bind_Ret; [|rewrite decide_True, Hw by done; reflexivity]. done.
Qed.

Lemma Rx_frame i m tail :
  ready W rng i -> closes (peer i) = 0%nat -> wf_message m -> fits m ->
  concat (chunks (rd (peer i))) = frame_bytes rng m ++ tail ->
  int_ok W (concat (chunks (rd (peer i)))) ->
  exists r, Rx i = (Ret (wire_message m), with_peer (with_rd r (peer i)) i) /\
    concat (chunks r) = tail.
Proof using RangeOrder0.
  intros (Hc & Hr & _) Hcl Hwf Hf E Hint. pose proof (ReadV2_refines W (rd (peer i)) Hint) as R.
  rewrite E, (frame_parse rng W m tail) in R by first [assumption | apply Hint].
  destruct R as (r & ER & Et & _). exists r. split; [|done].
  unfold Rx, on_peer, conn_read, on_open. rewrite Hc, Hr, decide_True, ER by done. done.
Qed.

Lemma rxHello_frame i m tail :
  closes (peer i) = 0%nat -> wf_message m ->
  header_size (Headers (wire_message m)) <= 16384 -> len (Body m) <= 4192 ->
  concat (chunks (rd (peer i))) = frame_bytes rng m ++ tail ->
  int_ok W (concat (chunks (rd (peer i)))) ->
  exists r, rxHello W rng i =
    (Ret (wire_message m), mkImpl (with_rd r (peer i)) (id i) (connectionId i) (headers i) (closed i)
                             (ReadV2 W) (MarshalV2 rng)) /\
    concat (chunks r) = tail.
Proof using RangeOrder0.
  intros Hcl Hwf Hh Hb E Hint. pose proof (readHello_refines W (rd (peer i)) Hint) as R.
  rewrite E, (frame_hello rng W m tail) in R by first [assumption | apply Hint].
  destruct R as (r & ER & Et & _). exists r. split; [|done].
  unfold rxHello, on_peer, conn_read, on_open. rewrite decide_True, ER by done. done.
Qed.

End Underlay.

(** ** Lemmas: hellos, acknowledgements and refusals *)

(** Lookups through updates at other, concrete keys. *)
Ltac lookup_keys :=
  unfold PutStringHeader, PutBoolHeader, PutUint32Header;
  repeat first [rewrite lookup_insert_eq | rewrite lookup_insert_ne by done].

Lemma wire_message_None m : replyFor m = None -> wire_message m = m.
Proof. destruct m. simpl. by intros ->. Qed.

Lemma IsReplyingTo_value m s :
  IsReplyingTo m s = (Ret (bool_decide (reply_for_spec m = s)), cacheReplyFor m).
Proof.
  pose proof (ReplyFor_value m) as E. unfold ReplyFor, IsReplyingTo in *. cbn [fst] in *. by rewrite E.
Qed.

Lemma GetBool_cons h k (b : bool) :
  h !! k = Some [Z2b (if b then 1 else 0)] -> (GetBoolHeader h k).1 = b.
Proof. intros E. unfold GetBoolHeader. rewrite E. by destruct b. Qed.

Section Messages.
Context (W : Z) (rng : HeaderMap -> list (Z * bytes)) `{!RangeOrder rng}.

Lemma hello_request_shape d names hs request :
  hello_request rng d names hs = Ret request ->
  ContentType request = ContentTypeHelloType /\ sequence request = HelloSequence /\
  replyFor request = None /\ Body request = dialerToken d.
Proof using Type.
  unfold hello_request. intros E. by repeat case_match; simplify_eq/=.
Qed.

Lemma ack_shape l cid request ok text :
  let a := ack_response rng l cid request ok text in
  ContentType a = ContentTypeResultType /\ sequence a = HelloSequence /\
  replyFor a = Some (sequence request) /\ Body a = text.
Proof using Type.
  intros a. unfold a, ack_response, ReplyTo. repeat case_match; done.
Qed.

Lemma ack_connectionId l cid request ok text :
  Headers (ack_response rng l cid request ok text) !! ConnectionIdHeader = Some cid.
Proof using Type.
  unfold ack_response, ReplyTo. repeat case_match; cbn -[lookup insert]; by lookup_keys.
Qed.

Lemma ack_id l cid request ok text token :
  listenerToken l = Some token ->
  Headers (ack_response rng l cid request ok text) !! IdHeader = Some token.
Proof using Type.
  intros E. unfold ack_response, ReplyTo. rewrite E.
  repeat case_match; cbn -[lookup insert]; by lookup_keys.
Qed.

Lemma ack_secret l cid request ok text :
  0 < len (default [] (Headers request !! GroupSecretHeader)) ->
  Headers (ack_response rng l cid request ok text) !! GroupSecretHeader =
  Headers request !! GroupSecretHeader.
Proof using Type.
  intros E. unfold ack_response, ReplyTo. rewrite (decide_True (P := 0 < _)) by done.
  destruct (Headers request !! GroupSecretHeader) eqn:Es; [|done].
  repeat case_match; cbn -[lookup insert]; by lookup_keys.
Qed.

Lemma ack_success l cid request ok text :
  ack_headers_ok l ->
  Headers (ack_response rng l cid request ok text) !! ResultSuccessHeader =
  Some [Z2b (if ok then 1 else 0)].
Proof using RangeOrder0.
  intros (_ & H1 & H2). unfold ack_response, ReplyTo.
  repeat case_match; cbn -[lookup insert union]; lookup_keys;
    rewrite ?copy_entries_range, ?lookup_union by done; rewrite ?H1;
    try (rewrite (proj2 (H2 _ eq_refl)));
    rewrite ?(left_id_L None (∪)); by rewrite lookup_insert_eq.
Qed.

Lemma keys_ok_insert h k v : keys_ok h -> is_i32 k -> keys_ok (<[k := v]> h).
Proof using Type.
  intros Hh Hk k' v'. destruct (decide (k = k')) as [->|]; [done|].
  rewrite lookup_insert_ne by done. apply Hh.
Qed.

Lemma keys_ok_copy h1 h2 : keys_ok h1 -> keys_ok h2 -> keys_ok (copy_entries (rng h1) h2).
Proof using RangeOrder0.
  intros H1 H2 k v. rewrite copy_entries_range by done.
  intros [?|[_ ?]]%lookup_union_Some_raw; eauto.
Qed.

Lemma wf_ack l cid request ok text :
  ack_headers_ok l -> is_i32 (sequence request) -> wf_message (ack_response rng l cid request ok text).
Proof using RangeOrder0.
  intros (H1 & _ & H2) Hseq. destruct (ack_shape l cid request ok text) as (Ec & Es & Er & _).
  split; rewrite ?Ec, ?Es, ?Er; try done; [by intros ? [= <-]|].
  clear Ec Es Er. change (keys_ok (Headers (ack_response rng l cid request ok text))).
  unfold ack_response, ReplyTo. repeat case_match; cbn -[lookup insert];
    unfold PutStringHeader, PutBoolHeader;
    repeat first [apply keys_ok_insert; [|done] | apply keys_ok_copy; [by apply H1 || by apply H2|]];
    by intros ? ? ?%lookup_empty_Some.
Qed.

Lemma check_reply_ack l cid request text :
  ack_headers_ok l -> sequence request = HelloSequence ->
  let a := wire_message (ack_response rng l cid request true text) in
  check_reply a = Ret (cacheReplyFor a).
Proof using RangeOrder0.
  intros Hl Hseq a. destruct (ack_shape l cid request true text) as (Ec & Es & Er & Eb).
  unfold check_reply. rewrite IsReplyingTo_value.
  assert (reply_for_spec a = HelloSequence) as ->.
  { unfold a. rewrite wire_message_replyFor.
    - unfold reply_for_spec. by rewrite Er.
    - apply wf_ack; [done | by rewrite Hseq]. }
  run. rewrite bool_decide_eq_true_2 by done.
  destruct (cacheReplyFor_same a) as (-> & _ & Eh & _).
  assert (ContentType a = ContentTypeResultType) as -> by done.
  cbn [negb orb]. rewrite bool_decide_eq_false_2 by naive_solver.
  unfold UnmarshalResult, MessageHeader.GetBoolHeader. cbn [Success]. rewrite Eh.
  rewrite (GetBool_cons _ _ true); [done|].
  unfold a, wire_message. rewrite Er. cbn [Headers]. rewrite lookup_insert_ne by done.
  by apply ack_success.
Qed.

(** A header other than the reply-for arrives as it was set. *)
Lemma wire_lookup m k :
  k ≠ ReplyForHeader -> Headers (cacheReplyFor (wire_message m)) !! k = Headers m !! k.
Proof using Type.
  intros Hk. destruct (cacheReplyFor_same (wire_message m)) as (_ & _ & -> & _).
  unfold wire_message. cbn [Headers]. destruct (replyFor m); [by rewrite lookup_insert_ne | done].
Qed.

End Messages.

Lemma deferred_eq {S A} (d : bool -> ST S unit) (c1 c2 : ST S A) s1 s2 :
  c1 s1 = c2 s2 -> deferred d c1 s1 = deferred d c2 s2.
Proof. unfold deferred. by intros ->. Qed.

Lemma on_peer_Ret {A} (f : ST Conn A) i a c :
  f (peer i) = (Ret a, c) -> on_peer f i = (Ret a, with_peer c i).
Proof. unfold on_peer. by intros ->. Qed.

Lemma SetDeadline_healthy b c :
  healthy c -> conn_SetDeadline b c = (Ret tt, with_deadline b c).
Proof.
  intros (H1 & _ & H3 & H4). unfold conn_SetDeadline, on_open. rewrite decide_True by done.
  destruct b; by rewrite ?H3, ?H4.
Qed.

(** ** Lemmas: the two sides of a handshake *)

Section Sides.
Context (W : Z) (rng : HeaderMap -> list (Z * bytes)) `{!RangeOrder rng}.

(** A hello the listener's limits admit. *)
Definition hello_ok (request : Message) : Prop :=
  wf_message request /\ ContentType request = ContentTypeHelloType /\
  sequence request = HelloSequence /\ replyFor request = None /\
  header_size (Headers request) <= 16384 /\ len (Body request) <= 4192.

(** The acknowledgement a listener sends for [request]. *)
Definition ack_for (l : classicListener) (nextId : outcome gostring) (uuid secret : bytes)
    (request : Message) : Message :=
  ack_response rng l (listener_connectionId request nextId uuid)
    (with_group_secret secret request) true [].

Lemma with_group_secret_seq secret request :
  sequence (with_group_secret secret request) = sequence request.
Proof using Type. unfold with_group_secret. by repeat case_match. Qed.

(** The listener hands over an underlay that has been acknowledged. *)
Lemma listener_side l nextId uuid secret f i0 request tail :
  healthy (peer i0) -> closed i0 = false -> datagram l = false -> ack_headers_ok l ->
  hello_ok request -> int_ok W (concat (chunks (rd (peer i0)))) ->
  concat (chunks (rd (peer i0))) = frame_bytes rng request ++ tail ->
  for_each (fun _ h => h (UnmarshalHello request) (commonNames (peer i0))) (handlers l) tt = Ret tt ->
  fits (ack_for l nextId uuid secret request) ->
  exists l1,
    accept_job W rng l nextId uuid secret (HelloAcceptorF f) i0 = deferred clear_or_close f l1 /\
    healthy (peer l1) /\ closed l1 = false /\ concat (chunks (rd (peer l1))) = tail /\
    written (peer l1) = written (peer i0) ++ frame_bytes rng (ack_for l nextId uuid secret request) /\
    id l1 = Body request /\ connectionId l1 = listener_connectionId request nextId uuid /\
    headers l1 = Headers (with_group_secret secret request).
Proof using RangeOrder0.
  intros Hh Hc Hd Hl (Hwf & Hct & Hseq & Hrep & Hhs & Hbs) Hint E Hhand Hfits.
  unfold accept_job.
  erewrite bind_Ret; [|by apply attempt_Ret, on_peer_Ret, SetDeadline_healthy]. cbn beta iota.
  set (i1 := with_peer (with_deadline true (peer i0)) i0).
  destruct (rxHello_frame W rng i1 request tail) as (r & Erx & Er);
    [apply Hh | done | by rewrite wire_message_None | done | done | done |].
  rewrite (wire_message_None request Hrep) in Erx.
  unfold receiveHello. rewrite Hd.
  set (i2 := mkImpl _ _ _ _ _ _ _) in Erx.
  set (ack := ack_for l nextId uuid secret request) in *.
  set (i3 := mkImpl (peer i2) (Body request) (listener_connectionId request nextId uuid)
               (Headers (with_group_secret secret request)) (closed i0) (ReadV2 W) (MarshalV2 rng)).
  exists (with_peer (with_written (written (peer i3) ++ frame_bytes rng ack) (peer i3)) i3).
  split; [|destruct Hh as (? & ? & ? & ?); by repeat split].
  apply deferred_eq.
  erewrite bind_Ret.
  2: { apply attempt_Ret. erewrite bind_Ret; [|apply attempt_Ret, Erx].
       cbn beta iota. rewrite decide_False by (intros Hne; by apply Hne). reflexivity. }
  cbn beta iota. erewrite bind_Ret; [|reflexivity]. cbn beta.
  erewrite bind_Ret; [|apply attempt_Ret; unfold lift; change (commonNames (peer i2)) with (commonNames (peer i0)); by rewrite Hhand].
  cbn beta iota zeta. erewrite bind_Ret; [|reflexivity]. cbn beta.
  unfold HelloAcceptorF, ackHello. erewrite bind_Ret.
  2: { apply attempt_Ret. erewrite bind_Ret; [|reflexivity]. cbn beta. erewrite bind_Ret; [reflexivity|].
       apply (Tx_frame rng i3 ack); [done | done | apply Hh | apply Hh | exact Hfits]. }
  cbn beta iota. done.
Qed.

(** The dialer has sent its hello and received [resp]. *)
Lemma dialer_exchange d hs i0 request resp tail :
  healthy (peer i0) -> ready W rng i0 ->
  hello_request rng d (commonNames (peer i0)) hs = Ret request -> fits request ->
  wf_message resp -> fits resp -> int_ok W (concat (chunks (rd (peer i0)))) ->
  concat (chunks (rd (peer i0))) = frame_bytes rng resp ++ tail ->
  exists i2,
    sendHello rng d hs i0 =
      deferred close_on_error
        (deferred clear_deadline
           (complete_hello request (commonNames (peer i0)) (wire_message resp))) i2 /\
    healthy (peer i2) /\ closed i2 = false /\ concat (chunks (rd (peer i2))) = tail /\
    written (peer i2) = written (peer i0) ++ frame_bytes rng request.
Proof using RangeOrder0.
  intros Hh Hr Hreq Hfreq Hwf Hfits Hint E.
  destruct (hello_request_shape rng _ _ _ _ Hreq) as (_ & _ & Hrep & _).
  set (i1 := with_peer (with_deadline true (peer i0)) i0).
  set (i2 := with_peer (with_written (written (peer i1) ++ frame_bytes rng request) (peer i1)) i1).
  destruct (Rx_frame W rng i2 resp tail) as (r & Erx & Er); [done | apply Hh | done..|].
  exists (with_peer (with_rd r (peer i2)) i2).
  split; [|destruct Hh as (? & ? & ? & ?), Hr as (? & ? & ?); by repeat split].
  unfold sendHello. apply deferred_eq.
  erewrite bind_Ret; [|by apply on_peer_Ret, SetDeadline_healthy]. fold i1.
  apply deferred_eq. erewrite bind_Ret; [|reflexivity]. cbn beta.
  change (commonNames (peer i1)) with (commonNames (peer i0)). rewrite Hreq.
  erewrite bind_Ret; [|reflexivity]. cbn beta iota.
  erewrite bind_Ret; [|apply (Tx_frame rng i1 request); [apply Hr | apply Hr | apply Hh | apply Hh | done]].
  fold i2. erewrite bind_Ret; [|by apply attempt_Ret, Erx]. cbn beta iota.
  unfold MarshalV2, marshalWithVersion. rewrite Hrep. done.
Qed.

Lemma finish_ok (c : ST classicImpl unit) i i' :
  c i = (Ret tt, i') -> healthy (peer i') ->
  deferred close_on_error (deferred clear_deadline c) i =
  (Ret tt, with_peer (with_deadline false (peer i')) i').
Proof using Type.
  intros E Hh. eapply deferred_Ret; [|reflexivity]. eapply deferred_Ret; [exact E|].
  by eapply ignore_Ret, on_peer_Ret, SetDeadline_healthy.
Qed.

Lemma Close_open i :
  closed i = false ->
  exists i', ignore Close i = (Ret tt, i') /\ closed i' = true /\
    closes (peer i') = S (closes (peer i)) /\ written (peer i') = written (peer i).
Proof using Type.
  intros Hc. set (j := Close i). exists j.2. unfold j, Close, on_peer, conn_Close. rewrite Hc. cbn.
  split; [|done]. unfold ignore, attempt, mbind, ST_bind. unfold Close, on_peer, conn_Close. rewrite Hc.
  cbn. by destruct (closeErr (peer i)).
Qed.

Lemma finish_err (c : ST classicImpl unit) i i' e :
  c i = (Err e, i') -> healthy (peer i') -> closed i' = false ->
  exists i4, deferred close_on_error (deferred clear_deadline c) i = (Err e, i4) /\
    closed i4 = true /\ closes (peer i4) = 1%nat /\ written (peer i4) = written (peer i').
Proof using Type.
  intros E Hh Hc. set (i3 := with_peer (with_deadline false (peer i')) i').
  destruct (Close_open i3 Hc) as (i4 & E4 & ? & Hcl & Hw). exists i4.
  split; [|rewrite Hcl, Hw; split_and!; [done | by f_equal; apply Hh | done]].
  eapply deferred_Err; [|exact E4]. eapply deferred_Err; [exact E|].
  by eapply ignore_Ret, on_peer_Ret, SetDeadline_healthy.
Qed.

Lemma complete_ok request names response response' i :
  check_reply response = Ret response' ->
  exists i3, complete_hello request names response i = (Ret tt, i3) /\ peer i3 = peer i /\
    id i3 = peer_id response' names /\
    connectionId i3 =
      (let requested := default [] (Headers request !! ConnectionIdHeader) in
       if decide (requested = []) then default [] (Headers response' !! ConnectionIdHeader)
       else requested) /\
    headers i3 = <[TypeHeader := default [] (Headers request !! TypeHeader)]> (Headers response').
Proof using Type.
  intros E. unfold complete_hello. rewrite E. erewrite bind_Ret; [|reflexivity]. cbn beta zeta.
  eexists. split; [reflexivity|]. done.
Qed.

(** The connection id of the acknowledged underlay, from both sides. *)
Lemma agreed_connectionId l nextId uuid secret request :
  let requested := default [] (Headers request !! ConnectionIdHeader) in
  (GetBoolHeader (Headers request) IsGroupedHeader).1 = true \/ requested = [] ->
  (if decide (requested = [])
   then default [] (Headers (cacheReplyFor (wire_message (ack_for l nextId uuid secret request)))
                      !! ConnectionIdHeader)
   else requested) = listener_connectionId request nextId uuid.
Proof using Type.
  intros requested Hg. rewrite wire_lookup by done. unfold ack_for. rewrite ack_connectionId.
  case_decide; [done|]. destruct Hg as [Hg|]; [|done].
  unfold listener_connectionId, MessageHeader.GetBoolHeader, MessageHeader.GetStringHeader.
  rewrite Hg. cbn [negb orb]. unfold GetStringHeader, requested in *.
  destruct (Headers request !! ConnectionIdHeader); simpl in *; [|done].
  by rewrite bool_decide_eq_false_2.
Qed.

(** The group secret, from both sides. *)
Lemma agreed_secret l nextId uuid secret request :
  0 < len secret -> (GetBoolHeader (Headers request) IsGroupedHeader).1 = true ->
  let sent := default [] (Headers request !! GroupSecretHeader) in
  let agreed := if decide (sent = []) then secret else sent in
  agreed ≠ [] /\
  Headers (cacheReplyFor (wire_message (ack_for l nextId uuid secret request))) !! GroupSecretHeader = Some agreed /\
  Headers (with_group_secret secret request) !! GroupSecretHeader = Some agreed.
Proof using Type.
  intros Hs Hg sent agreed. rewrite wire_lookup by done. unfold ack_for.
  assert (agreed ≠ []) as Ha by (unfold agreed; case_decide; [by intros -> | done]).
  assert (Headers (with_group_secret secret request) !! GroupSecretHeader = Some agreed) as E.
  { unfold with_group_secret, MessageHeader.GetBoolHeader, agreed. rewrite Hg. fold sent. case_decide as Hl.
    - rewrite decide_True by (by apply len_zero). apply lookup_insert_eq.
    - rewrite decide_False by (intros E; by rewrite E in Hl). unfold sent in *.
      by destruct (Headers request !! GroupSecretHeader). }
  rewrite ack_secret; [done|]. rewrite E. cbn. pose proof (len_nonneg agreed).
  assert (len agreed ≠ 0) by (intros E0; by apply len_zero in E0). lia.
Qed.

Lemma reject_shape Error reason :
  let m := reject_response Error reason in
  ContentType m = ContentTypeResultType /\ sequence m = HelloSequence /\
  replyFor m = Some HelloSequence /\
  Body m = (match reason with Some e => Error e | None => [] end) /\
  Headers m !! ResultSuccessHeader = Some [Z2b 0] /\
  Headers m !! HelloRejectClassHeader =
    (if decide (GetRejectClass reason = 0) then None
     else Some (le_put 4 (uint32 (GetRejectClass reason)))) /\
  keys_ok (Headers m).
Proof using Type.
  intros m. unfold m, reject_response, RejectClassUnspecified. 
  destruct (decide (GetRejectClass reason = 0)) as [E|E].
  - rewrite decide_False by (intros H; by apply H). cbn -[lookup insert]. lookup_keys.
    do 6 (split; [done|]). apply keys_ok_insert; [|done]. by intros ? ? ?%lookup_empty_Some.
  - rewrite decide_True by done. cbn -[lookup insert]. lookup_keys. do 6 (split; [done|]).
    apply keys_ok_insert; [|done]. apply keys_ok_insert; [|done]. by intros ? ? ?%lookup_empty_Some.
Qed.

Lemma wf_reject Error reason : wf_message (reject_response Error reason).
Proof using Type.
  destruct (reject_shape Error reason) as (Ec & Es & Er & _ & _ & _ & Hk).
  split; rewrite ?Ec, ?Es, ?Er; try done. by intros ? [= <-].
Qed.

(** The dialer's reading of a refusal. *)
Lemma check_reply_reject Error reason :
  is_i32 (GetRejectClass reason) ->
  check_reply (wire_message (reject_response Error reason)) =
  Err (NonRetryableError (RejectedError (GetRejectClass reason)
         (match reason with Some e => Error e | None => [] end))).
Proof using Type.
  intros Hc. destruct (reject_shape Error reason) as (Ec & Es & Er & Eb & Esucc & Ecl & _).
  pose proof (wf_reject Error reason) as Hwf. set (m := reject_response Error reason) in *.
  unfold check_reply. rewrite IsReplyingTo_value, wire_message_replyFor by done.
  unfold reply_for_spec. rewrite Er. run. rewrite bool_decide_eq_true_2 by done.
  destruct (cacheReplyFor_same (wire_message m)) as (Ect & _ & _ & Ebd).
  rewrite Ect. cbn [ContentType wire_message]. rewrite Ec. cbn [negb orb].
  rewrite bool_decide_eq_false_2 by (intros H; by apply H).
  unfold UnmarshalResult, MessageHeader.GetBoolHeader. cbn [Success ResultMessage].
  rewrite (GetBool_cons _ _ false) by (by rewrite wire_lookup). cbn [negb].
  rewrite Ebd. cbn [Body wire_message]. rewrite Eb. do 3 f_equal.
  unfold getRejectClass, MessageHeader.GetUint32Header, GetUint32Header.
  rewrite wire_lookup by done. rewrite Ecl. case_decide as E; [by rewrite E|].
  rewrite decide_False by (rewrite len_le_put; lia). rewrite le_put_uint32. by apply le_put_i32.
Qed.

Lemma Tx_returns i m :
  marshalF i = MarshalV2 rng ->
  exists o i', attempt (Tx m) i = (Ret o, i') /\ closed i' = closed i /\
    closes (peer i') = closes (peer i).
Proof using Type.
  intros Hm. unfold attempt, Tx. destruct (closed i) eqn:Hc; [naive_solver|].
  rewrite Hm. destruct (MarshalV2 rng m) as [o m'] eqn:E.
  assert (exists data, o = Ret data) as [data ->].
  { unfold MarshalV2, marshalWithVersion in E. injection E as <- _.
    destruct (marshalHeaders_Ret (rng (Headers (match replyFor m with
      | Some r => MessageHeader.PutUint32Header ReplyForHeader (uint32 r) m
      | None => m end)))) as [hd ->]. run. eauto. }
  unfold mbind, ST_bind, on_peer, conn_Write, on_open.
  destruct (decide (closes (peer i) = 0%nat)); [destruct (writeErr (peer i))|];
    eexists _, _; (split; [reflexivity|]); by rewrite <- Hc.
Qed.

End Sides.

(** ** Lemmas: calls keep the invariant of an underlay *)

Lemma on_peer_stable {A} (f : ST Conn A) :
  (forall c, returns (f c).1 /\ (closes c <= closes (f c).2)%nat) -> stable underlay_inv (on_peer f).
Proof.
  intros Hf i [Ht Hc]. unfold on_peer. destruct (Hf (peer i)) as [Hr Hn].
  destruct (f (peer i)) as [r c]. split; [done|]. split; [done|]. simpl in *. intros. 
  pose proof (Hc ltac:(done)). lia.
Qed.

Lemma on_open_returns {A} c (r : outcome A * Conn) :
  returns r.1 -> (closes c <= closes r.2)%nat ->
  returns (on_open c r).1 /\ (closes c <= closes (on_open c r).2)%nat.
Proof. intros. unfold on_open. by case_decide. Qed.

Lemma SetDeadline_stable b : stable underlay_inv (on_peer (conn_SetDeadline b)).
Proof. apply on_peer_stable. intros c. apply on_open_returns; by case_match. Qed.

Lemma Write_stable data : stable underlay_inv (on_peer (conn_Write data)).
Proof. apply on_peer_stable. intros c. apply on_open_returns; by case_match. Qed.

Lemma conn_Close_stable : stable underlay_inv (on_peer conn_Close).
Proof.
  apply on_peer_stable. intros c. unfold conn_Close. simpl. split; [by destruct (closeErr c) | lia].
Qed.

Lemma conn_read_stable {A} (f : reader -> outcome (A * reader)) :
  (forall r, returns (f r)) -> stable underlay_inv (on_peer (conn_read f)).
Proof.
  intros Hf. apply on_peer_stable. intros c. specialize (Hf (rd c)).
  apply on_open_returns; destruct (f (rd c)) as [[a r]| | |]; done.
Qed.

Lemma Close_stable : stable underlay_inv Close.
Proof.
  intros i [Ht Hc]. unfold Close. destruct (closed i) eqn:E.
  { split; [done|]. split; [done|]. intros. by apply Hc. }
  unfold on_peer, conn_Close. cbn. split; [by destruct (closeErr (peer i))|]. split; [done|]. cbn. lia.
Qed.

Lemma Rx_stable : stable underlay_inv Rx.
Proof.
  intros i Hi. unfold Rx. destruct (closed i); [done|]. apply conn_read_stable; [apply Hi | done].
Qed.

Lemma Tx_stable m : stable underlay_inv (Tx m).
Proof.
  intros i Hi. unfold Tx. destruct (closed i); [done|]. destruct Hi as [Ht Hc].
  pose proof (proj2 Ht m) as Hm. destruct (marshalF i m) as [[data| | |] m']; try done.
  apply stable_bind; [apply Write_stable | auto with go | done].
Qed.

Lemma init_stable a b h : stable underlay_inv (init a b h).
Proof. apply stable_modify. intros i []. done. Qed.

#[export] Hint Resolve SetDeadline_stable Write_stable conn_Close_stable Close_stable Rx_stable
  Tx_stable init_stable : go.

(** What a successful call leaves open stays open. *)
Definition keeps_open {A} (c : ST classicImpl A) : Prop :=
  forall i a i', c i = (Ret a, i') -> closed i' = closed i /\ closes (peer i') = closes (peer i).

Lemma keeps_open_bind {A B} (c : ST classicImpl A) (f : A -> ST classicImpl B) :
  keeps_open c -> (forall a, keeps_open (f a)) -> keeps_open (c ≫= f).
Proof.
  intros Hc Hf i b i'. unfold mbind, ST_bind. destruct (c i) as [[a| | |] i1] eqn:E; try done.
  intros E'. apply Hc in E as [<- <-]. by eapply Hf.
Qed.

(** A call that changes nothing of the two, whatever it returns. *)
Definition leaves_open {A} (c : ST classicImpl A) : Prop :=
  forall i, closed (c i).2 = closed i /\ closes (peer (c i).2) = closes (peer i).

Lemma leaves_keeps {A} (c : ST classicImpl A) : leaves_open c -> keeps_open c.
Proof. intros H i a i' E. specialize (H i). by rewrite E in H. Qed.

Lemma leaves_open_attempt {A} (c : ST classicImpl A) : leaves_open c -> leaves_open (attempt c).
Proof. intros H i. specialize (H i). unfold attempt. by destruct (c i) as [[| | |] ?]. Qed.

Lemma leaves_open_ignore {A} (c : ST classicImpl A) : leaves_open c -> leaves_open (ignore c).
Proof.
  intros H i. pose proof (leaves_open_attempt c H i) as H'. unfold ignore, mbind, ST_bind.
  by destruct (attempt c i) as [[| | |] ?].
Qed.

Lemma keeps_open_deferred {A} d (c : ST classicImpl A) :
  leaves_open (d false) -> keeps_open c -> keeps_open (deferred d c).
Proof.
  intros Hd Hc i a i'. unfold deferred. destruct (c i) as [[| | |] j] eqn:E; unfold mbind, ST_bind.
  - apply Hc in E as [<- <-]. specialize (Hd j). destruct (d false j) as [[| | |] j']; try done.
    by intros [= _ <-].
  - by destruct (d true j) as [[| | |] ?].
  - by destruct (d false j) as [[| | |] ?].
  - done.
Qed.

Lemma leaves_open_pure {A} (f : classicImpl -> outcome A) : leaves_open (fun i => (f i, i)).
Proof. by intros i. Qed.

Lemma on_open_closes {A} c (r : outcome A * Conn) :
  closes r.2 = closes c -> closes (on_open c r).2 = closes c.
Proof. unfold on_open. by case_decide. Qed.

Lemma leaves_open_SetDeadline b : leaves_open (on_peer (conn_SetDeadline b)).
Proof.
  intros i. unfold on_peer. pose proof (on_open_closes (peer i)
    (match (if b then setDeadlineErr (peer i) else clearDeadlineErr (peer i)) with
     | Some e => (Err e, peer i) | None => (Ret tt, with_deadline b (peer i)) end)) as H.
  unfold conn_SetDeadline in *. destruct (on_open _ _) as [r c] eqn:E. split; [done|].
  apply H. by destruct (if b then _ else _).
Qed.

Lemma leaves_open_Rx : leaves_open Rx.
Proof.
  intros i. unfold Rx. destruct (closed i) eqn:Hc; [done|]. unfold on_peer, conn_read.
  rewrite <- Hc. destruct (on_open _ _) as [r c] eqn:E. split; [done|].
  change (closes (r, c).2 = closes (peer i)). rewrite <- E. apply on_open_closes.
  by destruct (readF i _) as [[]| | |].
Qed.

Lemma leaves_open_Tx m : leaves_open (Tx m).
Proof.
  intros i. unfold Tx. destruct (closed i) eqn:Hc; [done|].
  destruct (marshalF i m) as [[data| | |] m']; try done.
  unfold mbind, ST_bind, on_peer, conn_Write, on_open.
  destruct (decide (closes (peer i) = 0%nat)); [destruct (writeErr (peer i))|]; by rewrite <- Hc.
Qed.

Lemma ignore_Close i : exists i', ignore Close i = (Ret tt, i') /\ closed i' = true.
Proof.
  destruct (closed i) eqn:E.
  - exists i. split; [|done]. eapply ignore_Ret. unfold Close. by rewrite E.
  - destruct (Close_open i E) as (i' & ? & ? & _). eauto.
Qed.

Lemma close_on_error_Err {A} (c : ST classicImpl A) i e i' :
  deferred close_on_error c i = (Err e, i') -> closed i' = true.
Proof.
  unfold deferred. destruct (c i) as [[a|e'| |] s] eqn:E; try done.
  unfold close_on_error, when, mbind, ST_bind. destruct (ignore_Close s) as (s' & -> & Hc).
  unfold throw. by intros [= -> ->].
Qed.

Lemma check_reply_returns m : returns (check_reply m).
Proof.
  unfold check_reply. rewrite IsReplyingTo_value. run. case_match.
  - rewrite ReplyFor_value. done.
  - by case_match.
Qed.

Lemma GetRetryVersion_true e v :
  GetRetryVersion e = (v, true) -> exists vs, e = UnsupportedVersionError vs /\ 2 ∈ vs /\ v = 2.
Proof.
  unfold GetRetryVersion. destruct e; try done. destruct supportedVersions as [|x vs]; [done|].
  cbn [getRetryVersionFor]. destruct (existsb _ _) eqn:E; [|done]. intros [= <-].
  apply existsb_exists in E as (y & Hy & Ey). apply bool_decide_eq_true in Ey as ->.
  eexists. split; [done|]. split; [by apply list_elem_of_In | done].
Qed.

(** Without a message strategy the functions of an underlay return. *)
Lemma marshalWithVersion_returns rng m v : returns (marshalWithVersion rng m v).1.
Proof.
  unfold marshalWithVersion. cbn [fst].
  destruct (marshalHeaders_Ret (rng (Headers (match replyFor m with
      | Some r => MessageHeader.PutUint32Header ReplyForHeader (uint32 r) m
      | None => m end)))) as [hd ->]. done.
Qed.

Lemma total_default W rng dtls c v :
  (forall b, int_ok W b) -> total_fns (underlayFactory W rng dtls None c v).
Proof.
  intros wide. assert (forall r, returns (ReadV2 W r)) as HR
    by (intros r; exact (refines_returns _ _ _ (ReadV2_refines W r (wide _)))).
  unfold underlayFactory. destruct dtls; (split; [|intros m; cbn; case_decide; apply marshalWithVersion_returns]).
  - intros r. cbn. unfold packet_readF, read_packet. destruct (chunks r) as [|p ps]; [done|]. run.
    unfold read_buffer. specialize (HR (mkReader [take (Z.to_nat packet_buffer) p] io_EOF)).
    by destruct (ReadV2 W _) as [[m r']| | |].
  - apply HR.
Qed.

Section DialLemmas.
Context (W : Z) (rng : HeaderMap -> list (Z * bytes)) (d : classicDialer) (hs : HeaderMap).
Hypothesis provider_returns :
  forall p names h, helloHeaderProvider d = Some p -> returns (p names h).

Lemma hello_request_returns names : returns (hello_request rng d names hs).
Proof using provider_returns.
  unfold hello_request. destruct (helloHeaderProvider d) as [p|] eqn:E; [|done].
  specialize (provider_returns p names). case_match eqn:E1; try done;
  match type of E1 with p names ?h = _ => specialize (provider_returns h eq_refl) end; by rewrite E1 in *.
Qed.

Lemma sendHello_stable : stable underlay_inv (sendHello rng d hs).
Proof using provider_returns.
  unfold sendHello, close_on_error, clear_deadline, complete_hello.
  apply stable_deferred; [auto with go|]. apply stable_bind; [auto with go|]. intros _.
  apply stable_deferred; [auto with go|]. apply stable_bind; [auto with go|]. intros names.
  apply stable_bind; [auto using hello_request_returns with go|]. intros [e|request]; [auto with go|].
  apply stable_bind; [auto with go|]. intros request'. apply stable_bind; [auto with go|].
  intros [e|response]; [case_match; auto with go|].
  apply stable_bind; auto using check_reply_returns with go.
Qed.

Lemma sendHello_keeps_open : keeps_open (sendHello rng d hs).
Proof using Type.
  apply keeps_open_deferred; [by intros i|].
  apply keeps_open_bind; [apply leaves_keeps, leaves_open_SetDeadline|]. intros _.
  apply keeps_open_deferred; [apply leaves_open_ignore, leaves_open_SetDeadline|].
  apply keeps_open_bind; [apply leaves_keeps, leaves_open_pure|]. intros names.
  apply keeps_open_bind; [apply leaves_keeps, leaves_open_attempt, leaves_open_pure|].
  intros [e|request].
  { intros j u j'. unfold mbind, ST_bind. by destruct (ignore Close j) as [[| | |] ?]. }
  apply keeps_open_bind; [apply leaves_keeps, leaves_open_Tx|]. intros request'.
  apply keeps_open_bind; [apply leaves_keeps, leaves_open_attempt, leaves_open_Rx|].
  intros [e|response]; [case_match; apply leaves_keeps, leaves_open_pure|].
  apply keeps_open_bind; [apply leaves_keeps, leaves_open_pure|]. intros response'.
  apply leaves_keeps. by intros j.
Qed.

(** One round of the dial loop: the underlay is open or closed. *)
Lemma dial_round (strategy : option MessageStrategy) (dtls : bool) (dial : nat -> outcome Conn) :
  (forall n c, dial n = Ret c -> closes c = 0%nat) ->
  (forall c v, total_fns (underlayFactory W rng dtls strategy c v)) ->
  forall n c v, dial n = Ret c ->
    match sendHello rng d hs (underlayFactory W rng dtls strategy c v) with
    | (Ret _, u) => closed u = false /\ closes (peer u) = 0%nat
    | (Err _, u) => closed u = true /\ (0 < closes (peer u))%nat
    | _ => False
    end.
Proof using provider_returns.
  intros Hfresh Htot n c v En. set (u0 := underlayFactory _ _ _ _ _ _).
  assert (closed u0 = false /\ peer u0 = c) as [Hc1 Hc2]
    by (unfold u0, underlayFactory; by destruct dtls).
  destruct (sendHello_stable u0) as [Hr [_ Hi]].
  { split; [apply Htot|]. by rewrite Hc1. }
  destruct (sendHello rng d hs _) as [[[]|e| |] u] eqn:E; try done.
  - apply sendHello_keeps_open in E as [-> ->]. rewrite Hc1, Hc2. eauto.
  - assert (closed u = true) as Hu by (by eapply close_on_error_Err). split; [done | by apply Hi].
Qed.

End DialLemmas.

(** ** Lemmas: the listener's ownership of a connection *)

Lemma MarshalV2_returns rng m : returns (MarshalV2 rng m).1.
Proof. apply marshalWithVersion_returns. Qed.

Lemma SetDeadline_cases b i :
  attempt (on_peer (conn_SetDeadline b)) i = (Ret (inr tt), with_peer (with_deadline b (peer i)) i) \/
  exists e, attempt (on_peer (conn_SetDeadline b)) i = (Ret (inl e), with_peer (peer i) i).
Proof.
  unfold attempt, on_peer, conn_SetDeadline, on_open.
  destruct (decide (closes (peer i) = 0%nat)); [|by right; eexists].
  destruct (if b then setDeadlineErr (peer i) else clearDeadlineErr (peer i)); [by right; eexists | by left].
Qed.

Lemma clear_or_close_Ret b i :
  exists i', clear_or_close b i = (Ret tt, i') /\ (closes (peer i) <= closes (peer i'))%nat.
Proof.
  unfold clear_or_close. destruct (SetDeadline_cases false i) as [E|[e E]].
  - eexists. erewrite bind_Ret by exact E. split; [reflexivity | done].
  - erewrite bind_Ret by exact E. cbn beta iota.
    unfold ignore, attempt, on_peer, conn_Close, mbind, ST_bind. cbn.
    destruct (closeErr (peer i)); eexists; (split; [reflexivity|]); cbn; lia.
Qed.

Lemma deferred_closed (c : ST classicImpl unit) i i1 :
  c i = (Ret tt, i1) -> (0 < closes (peer i1))%nat ->
  exists i', deferred clear_or_close c i = (Ret tt, i') /\ (0 < closes (peer i'))%nat.
Proof.
  intros E H. destruct (clear_or_close_Ret false i1) as (i' & E' & Hc). exists i'.
  split; [by eapply deferred_Ret | lia].
Qed.

Lemma ignore_conn_Close i :
  exists i', ignore (on_peer conn_Close) i = (Ret tt, i') /\ (0 < closes (peer i'))%nat.
Proof.
  unfold ignore, attempt, on_peer, conn_Close, mbind, ST_bind. cbn.
  destruct (closeErr (peer i)); eexists; (split; [reflexivity|]); cbn; lia.
Qed.

Lemma handlers_cases (hs : list (Hello -> list gostring -> outcome unit)) hello names :
  (forall h hello names, h ∈ hs -> returns (h hello names)) ->
  (exists e, for_each (fun _ h => h hello names) hs tt = Err e) \/
  (for_each (fun _ h => h hello names) hs tt = Ret tt /\ Forall (fun h => h hello names = Ret tt) hs).
Proof.
  intros Hr. induction hs as [|h hs IH]; [by right|]. cbn [for_each].
  pose proof (Hr h hello names ltac:(left)) as Hh.
  destruct (h hello names) as [[]|e| |] eqn:E; try done; run; [|by left; eexists].
  destruct IH as [?|[? ?]]; [|by left|by right; split; [|constructor]].
  intros. apply Hr. by right.
Qed.

Lemma Tx_cases i m :
  returns (marshalF i m).1 -> closed i = false ->
  (exists e i', Tx m i = (Err e, i')) \/
  (exists data m', (marshalF i m).1 = Ret data /\
     Tx m i = (Ret m', with_peer (with_written (written (peer i) ++ data) (peer i)) i)).
Proof.
  intros Hr Hc. unfold Tx. rewrite Hc. destruct (marshalF i m) as [[data|e| |] m'] eqn:E; try done;
    [|left; eauto]. cbn [fst] in *.
  destruct (decide (closes (peer i) = 0%nat)) as [Hn|Hn].
  - destruct (writeErr (peer i)) as [e|] eqn:Hw.
    + left. eexists e, _. erewrite bind_Err; [reflexivity|]. unfold on_peer, conn_Write, on_open.
      by rewrite decide_True, Hw.
    + right. exists data, m'. split; [done|]. erewrite bind_Ret; [reflexivity|].
      unfold on_peer, conn_Write, on_open. by rewrite decide_True, Hw.
  - left. eexists _, _. erewrite bind_Err; [reflexivity|]. unfold on_peer, conn_Write, on_open.
    by rewrite decide_False.
Qed.

Section Ownership.
Context (W : Z) (rng : HeaderMap -> list (Z * bytes)).
Hypothesis wide : forall b, int_ok W b.

Lemma rxHello_cases i :
  (exists e i', rxHello W rng i = (Err e, i')) \/
  (exists m i', rxHello W rng i = (Ret m, i') /\ closed i' = closed i /\
     closes (peer i') = closes (peer i) /\ written (peer i') = written (peer i) /\
     marshalF i' = MarshalV2 rng).
Proof using wide.
  pose proof (refines_returns _ _ _ (readHello_refines W (rd (peer i)) (wide _))) as Hr.
  unfold rxHello, on_peer, conn_read, on_open. case_decide; [|left; eauto].
  destruct (readHello W (rd (peer i))) as [[m r]|e| |]; try done; [right|left]; eauto 10.
Qed.

Lemma Datagram_Rx_cases i :
  total_fns i ->
  (exists e i', Datagram_Rx i = (Err e, i')) \/
  (exists m i', Datagram_Rx i = (Ret m, i') /\ closed i' = closed i /\
     closes (peer i') = closes (peer i) /\ written (peer i') = written (peer i) /\
     marshalF i' = marshalF i).
Proof using Type.
  intros [Hr _]. specialize (Hr (rd (peer i))).
  unfold Datagram_Rx, on_peer, conn_read, on_open. case_decide; [|left; eauto].
  destruct (readF i (rd (peer i))) as [[m r]|e| |]; try done; [right|left]; eauto 10.
Qed.

Lemma receiveHello_cases l i :
  total_fns i ->
  (exists e i', attempt (receiveHello W rng l) i = (Ret (inl e), i')) \/
  (exists request i',
     attempt (receiveHello W rng l) i = (Ret (inr (request, UnmarshalHello request)), i') /\
     ContentType request = ContentTypeHelloType /\ closed i' = closed i /\
     closes (peer i') = closes (peer i) /\ written (peer i') = written (peer i) /\
     (forall m, returns (marshalF i' m).1)).
Proof using wide.
  intros Ht. unfold receiveHello.
  assert ((exists e i', (if datagram l then Datagram_Rx else rxHello W rng) i = (Err e, i')) \/
    (exists m i', (if datagram l then Datagram_Rx else rxHello W rng) i = (Ret m, i') /\
       closed i' = closed i /\ closes (peer i') = closes (peer i) /\
       written (peer i') = written (peer i) /\ (forall m, returns (marshalF i' m).1)))
    as [(e & i' & E)|(m & i' & E & H1 & H2 & H3 & H4)].
  { destruct (datagram l).
    - destruct (Datagram_Rx_cases i Ht) as [?|(m & i' & E & ? & ? & ? & Em)]; [by left|right].
      exists m, i'. rewrite Em. split_and!; try done. apply Ht.
    - destruct (rxHello_cases i) as [?|(m & i' & E & ? & ? & ? & Em)]; [by left|right].
      exists m, i'. rewrite Em. split_and!; try done. apply MarshalV2_returns. }
  - left. exists (fmt_Errorf (lit "receive error (%s)") []).
    assert (forall j, exists j', (_ ← ignore Close; throw (fmt_Errorf (lit "receive error (%s)") [])) j =
      (@Err (Message * Hello) (fmt_Errorf (lit "receive error (%s)") []), j')) as Hc.
    { intros j. destruct (ignore_Close j) as (j' & Ej & _). exists j'. by erewrite bind_Ret by exact Ej. }
    assert (exists j, when (errors_Is e BadMagicNumberError)
      (ignore (on_peer (conn_Write WriteUnknownVersionResponse))) i' = (Ret tt, j)) as [j Ej].
    { unfold when. destruct (errors_Is _ _); [|by eexists]. 
      unfold ignore, attempt, on_peer, conn_Write, on_open, mbind, ST_bind.
      repeat case_match; simplify_eq; by eexists. }
    destruct (Hc j) as [j' Ej']. exists j'. eapply attempt_Err.
    erewrite bind_Ret by (by apply attempt_Err). cbn beta iota. by erewrite bind_Ret by exact Ej.
  - destruct (decide (ContentType m = ContentTypeHelloType)) as [Hct|Hct].
    + right. exists m, i'. split_and!; try done. eapply attempt_Ret.
      erewrite bind_Ret by (by apply attempt_Ret). cbn beta iota.
      by rewrite decide_False by (intros H; by apply H).
    + left. destruct (ignore_Close i') as (j & Ej & _). eexists _, j. eapply attempt_Err.
      erewrite bind_Ret by (by apply attempt_Ret). cbn beta iota.
      rewrite decide_True by done. by erewrite bind_Ret by exact Ej.
Qed.

End Ownership.

(** ** Lemmas: the handshake over an existing connection *)

Lemma wrap_Ret {S A} text (c : ST S A) s a s' : c s = (Ret a, s') -> wrap text c s = (Ret a, s').
Proof. intros E. unfold wrap. by erewrite bind_Ret by (by apply attempt_Ret). Qed.

Section Existing.
Context (W : Z) (rng : HeaderMap -> list (Z * bytes)) `{!RangeOrder rng}.

Lemma existing_ack_shape attrs cid request text :
  keys_ok attrs -> attrs !! ResultSuccessHeader = None -> is_i32 (sequence request) ->
  let a := existing_ack_response rng attrs cid request true text in
  ContentType a = ContentTypeResultType /\ replyFor a = Some (sequence request) /\
  Headers a !! ConnectionIdHeader = Some cid /\ Headers a !! ResultSuccessHeader = Some [Z2b 1] /\
  wf_message a.
Proof using RangeOrder0.
  intros Hk Hs Hseq a. unfold a, existing_ack_response, ReplyTo.
  assert (copy_entries (rng attrs) (PutBoolHeader ResultSuccessHeader true ∅) !! ResultSuccessHeader = Some [Z2b 1]) as E.
  { rewrite copy_entries_range, lookup_union, Hs, (left_id_L None (∪)) by done.
    unfold PutBoolHeader. by rewrite lookup_insert_eq. }
  case_match; cbn -[insert lookup]; lookup_keys; (split_and!; [done | done | done | done |]);
    (split; cbn -[insert lookup]; [done | done | by intros ? [= <-] |]);
    repeat first [apply keys_ok_insert; [|done] | apply keys_ok_copy; [done | done|]];
    by intros ? ? ?%lookup_empty_Some.
Qed.

Lemma existing_listener_side attrs timeout cid lc request tail :
  let ack := existing_ack_response rng attrs cid request true [] in
  hello_ok request -> fits ack -> healthy lc -> int_ok W (concat (chunks (rd lc))) ->
  concat (chunks (rd lc)) = frame_bytes rng request ++ tail ->
  exists l1,
    existingConnListener_Create W rng attrs timeout (Ret cid) (newExistingImpl W rng lc 2) = (Ret tt, l1) /\
    written (peer l1) = written lc ++ frame_bytes rng ack /\ closes (peer l1) = 0%nat /\
    id l1 = Body request /\ headers l1 = Headers request /\ connectionId l1 = cid.
Proof using RangeOrder0.
  intros ack (Hwf & Hct & Hseq & Hrep & Hhs & Hbs) Hf Hh Hint E.
  unfold existingConnListener_Create.
  erewrite bind_Ret by (by apply wrap_Ret). erewrite bind_Ret by reflexivity. cbn beta zeta.
  set (timed := bool_decide (0 < timeout)).
  set (i1 := mkImpl (peer (newExistingImpl W rng lc 2)) _ cid _ _ _ _).
  set (i2 := if timed then with_peer (with_deadline true lc) i1 else i1).
  assert (healthy (peer i2)) as Hh2 by (unfold i2; by destruct timed).
  destruct (rxHello_frame W rng i2 request tail) as (r & Erx & Er); try done;
    [apply Hh2 | by rewrite wire_message_None | unfold i2; by destruct timed | unfold i2; by destruct timed |].
  rewrite (wire_message_None request Hrep) in Erx.
  set (i3 := mkImpl (with_rd r (peer i2)) _ _ _ _ _ _) in Erx.
  set (i4 := mkImpl (peer i3) (Body request) cid (Headers request) (closed i3) (readF i3) (marshalF i3)).
  set (i5 := with_peer (with_written (written (peer i4) ++ frame_bytes rng ack) (peer i4)) i4).
  exists (if timed then with_peer (with_deadline false (peer i5)) i5 else i5).
  split; [|unfold i5, i4, i3, i2; destruct timed; split_and!; try done; apply Hh].
  eapply (deferred_Ret _ i1 i5).
  - erewrite bind_Ret; [|instantiate (1 := i2); unfold i2, when; destruct timed; [|reflexivity];
      by apply wrap_Ret, on_peer_Ret, SetDeadline_healthy].
    unfold existing_receiveHello. erewrite bind_Ret.
    2: { apply wrap_Ret. erewrite bind_Ret by (apply attempt_Ret, Erx). cbn beta iota.
         rewrite decide_False by (intros Hne; by apply Hne). reflexivity. }
    cbn beta iota. erewrite bind_Ret by reflexivity. apply wrap_Ret.
    erewrite bind_Ret; [reflexivity|]. apply (Tx_frame rng i4 ack); try done; try apply Hh2.
    unfold i4, i3, i2. by destruct timed.
  - unfold when. destruct timed; [|reflexivity].
    by eapply ignore_Ret, on_peer_Ret, SetDeadline_healthy.
Qed.

Lemma existing_dialer_side token attrs timeout dc resp cid tail :
  let request := SetSequence HelloSequence (NewHello rng token attrs) in
  fits request -> wf_message resp -> fits resp -> healthy dc ->
  ContentType resp = ContentTypeResultType -> replyFor resp = Some HelloSequence ->
  Headers resp !! ConnectionIdHeader = Some cid -> Headers resp !! ResultSuccessHeader = Some [Z2b 1] ->
  int_ok W (concat (chunks (rd dc))) -> concat (chunks (rd dc)) = frame_bytes rng resp ++ tail ->
  exists d1 dc1,
    existingConnDialer_Create W rng token attrs timeout dc = (Ret d1, dc1) /\ peer d1 = dc1 /\
    written dc1 = written dc ++ frame_bytes rng request /\
    connectionId d1 = cid /\ id d1 = token /\ hasDeadline dc1 = false /\ closes dc1 = 0%nat.
Proof using RangeOrder0.
  intros request Hfr Hwf Hf Hh Hct Hrep Hcid Hsucc Hint E.
  set (timed := bool_decide (0 < timeout)).
  set (i0 := newExistingImpl W rng dc 2).
  set (i1 := if timed then with_peer (with_deadline true dc) i0 else i0).
  assert (healthy (peer i1) /\ rd (peer i1) = rd dc /\ written (peer i1) = written dc /\
    closed i1 = false /\ readF i1 = ReadV2 W /\ marshalF i1 = MarshalV2 rng) as (Hh1 & Er1 & Ew1 & Ec1 & Erf & Emf)
    by (unfold i1; by destruct timed).
  set (i2 := with_peer (with_written (written (peer i1) ++ frame_bytes rng request) (peer i1)) i1).
  destruct (Rx_frame W rng i2 resp tail) as (r & Erx & _); [by split_and! | apply Hh1 | done | done | | |];
    [cbn; by rewrite Er1 | cbn; by rewrite Er1|].
  set (i3 := with_peer (with_rd r (peer i2)) i2) in Erx.
  set (m := cacheReplyFor (wire_message resp)).
  set (i5 := mkImpl (peer i3) token cid (Headers m) (closed i3) (readF i3) (marshalF i3)).
  exists (with_peer (with_deadline false (peer i3)) i5), (with_deadline false (peer i3)).
  split; [|split_and!; try done; [cbn; by rewrite Ew1 | apply Hh1]].
  unfold existingConnDialer_Create. cbn [existing_loop]. fold timed i0.
  assert (existing_sendHello rng token attrs i1 = (Ret tt,
    mkImpl (peer i3) (id i3) cid (Headers m) (closed i3) (readF i3) (marshalF i3))) as ES.
  { unfold existing_sendHello. fold request. cbn zeta.
    erewrite bind_Ret by (apply attempt_Ret, (Tx_frame rng i1 request); (done || apply Hh1)).
    cbn beta iota. fold i2. erewrite bind_Ret by exact Erx. cbn beta.
    assert (sequence (MarshalV2 rng request).2 = HelloSequence) as -> by reflexivity.
    rewrite IsReplyingTo_value, wire_message_replyFor by done. fold m.
    unfold reply_for_spec. rewrite Hrep. erewrite bind_Ret by reflexivity. cbn beta.
    rewrite bool_decide_eq_true_2 by done. cbn [negb orb].
    assert (ContentType m = ContentTypeResultType) as ->
      by (unfold m; by destruct (cacheReplyFor_same (wire_message resp)) as (-> & _)).
    rewrite bool_decide_eq_false_2 by (intros Hne; by apply Hne).
    unfold UnmarshalResult, MessageHeader.GetBoolHeader. cbn [Success].
    rewrite (GetBool_cons _ _ true) by (unfold m; by rewrite wire_lookup). cbn [negb].
    erewrite bind_Ret by reflexivity. cbn beta. unfold m. rewrite wire_lookup, Hcid by done. reflexivity. }
  assert (when timed (on_peer (conn_SetDeadline true)) i0 = (Ret tt, i1)) as ED.
  { unfold i1, when. destruct timed; [|done]. by apply on_peer_Ret, SetDeadline_healthy. }
  set (body := _ ← when timed _; _). assert (body i0 = (Ret None, i5)) as ->.
  { unfold body. erewrite bind_Ret by exact ED. erewrite bind_Ret by (apply attempt_Ret, ES).
    cbn beta iota. by erewrite bind_Ret by reflexivity. }
  cbn beta iota. rewrite (ignore_Ret _ _ (with_deadline false (peer i3)) tt); [done|].
  by apply SetDeadline_healthy.
Qed.

End Existing.

(** ** Properties *)

(** One exchange, with what both sides hold afterwards. *)
Section Exchange.
Context (W : Z) (rng : HeaderMap -> list (Z * bytes)) `{!RangeOrder rng}
  (d : classicDialer) (hs : HeaderMap) (l : classicListener) (nextId : outcome gostring)
  (uuid secret : bytes) (f : ST classicImpl unit) (i0 l0 : classicImpl) (request : Message) (t1 t2 : bytes).

Definition reply_sent : Message := ack_for rng l nextId uuid secret request.

(** Each side's stream carries what the other side writes. *)
Record exchange_ok : Prop := {
  ex_request : hello_request rng d (commonNames (peer i0)) hs = Ret request;
  ex_hello : hello_ok request;
  ex_dialer : ready W rng i0 /\ healthy (peer i0) /\ written (peer i0) = [];
  ex_listener : healthy (peer l0) /\ closed l0 = false /\ written (peer l0) = [] /\ datagram l = false;
  ex_ack : ack_headers_ok l /\ fits reply_sent /\ 0 < len secret;
  ex_handlers : for_each (fun _ h => h (UnmarshalHello request) (commonNames (peer l0))) (handlers l) tt = Ret tt;
  ex_ints : int_ok W (concat (chunks (rd (peer l0)))) /\ int_ok W (concat (chunks (rd (peer i0))));
  ex_heard : concat (chunks (rd (peer l0))) = frame_bytes rng request ++ t1;
  ex_answered : concat (chunks (rd (peer i0))) = frame_bytes rng reply_sent ++ t2
}.

Lemma exchange_result : exchange_ok ->
  let resp := cacheReplyFor (wire_message reply_sent) in
  let requested := default [] (Headers request !! ConnectionIdHeader) in
  exists l1 d1,
    acceptConnection W rng None l nextId uuid secret (HelloAcceptorF f) l0 = deferred clear_or_close f l1 /\
    sendHello rng d hs i0 = (Ret tt, d1) /\
    written (peer d1) = frame_bytes rng request /\ written (peer l1) = frame_bytes rng reply_sent /\
    id l1 = dialerToken d /\ connectionId l1 = listener_connectionId request nextId uuid /\
    headers l1 = Headers (with_group_secret secret request) /\
    id d1 = peer_id resp (commonNames (peer i0)) /\
    connectionId d1 = (if decide (requested = []) then default [] (Headers resp !! ConnectionIdHeader) else requested) /\
    headers d1 = <[TypeHeader := default [] (Headers request !! TypeHeader)]> (Headers resp) /\
    hasDeadline (peer d1) = false /\ closes (peer d1) = 0%nat /\ closes (peer l1) = 0%nat.
Proof using RangeOrder0.
  intros [Hreq Hok (Hr & Hhi & Hwi) (Hhl & Hcl & Hwl & Hd) (Hl & Hfits & Hsec) Hhand (Hil & Hii) El Ei] resp requested.
  destruct (hello_request_shape rng _ _ _ _ Hreq) as (_ & Hseq & _ & Hbody).
  destruct (listener_side W rng l nextId uuid secret f l0 request t1)
    as (l1 & EL & Hl1 & _ & _ & Ewl & Eid & Ecid & Ehs); try done.
  destruct (dialer_exchange W rng d hs i0 request reply_sent t2) as (i2 & ED & Hh2 & Hc2 & _ & Ewd); try done.
  { unfold fits. rewrite wire_message_None by apply Hok. destruct Hok as (_ & _ & _ & _ & ? & ?).
    unfold MaxInt32. lia. }
  { apply wf_ack; [done|done|]. by rewrite with_group_secret_seq, Hseq. }
  assert (check_reply (wire_message reply_sent) = Ret resp) as Ereply.
  { apply (check_reply_ack rng); [done|]. by rewrite with_group_secret_seq. }
  destruct (complete_ok request (commonNames (peer i0)) (wire_message reply_sent) resp i2 Ereply)
    as (i3 & E3 & Ep & Eid3 & Ecid3 & Ehs3).
  exists l1, (with_peer (with_deadline false (peer i3)) i3).
  unfold acceptConnection. rewrite ED, EL. split; [done|]. split; [apply finish_ok; [done | by rewrite Ep]|].
  cbn [peer id connectionId headers written hasDeadline closes with_peer with_deadline].
  rewrite Ep, Ewd, Ewl, Hwi, Hwl, Eid, Hbody. split_and!; try done; [apply Hh2 | apply Hl1].
Qed.

End Exchange.

(** C4: the two sides of a handshake agree.  If each side's stream carries
    what the other side writes (in any chunks, followed by anything), the
    listener acknowledges and hands over the underlay, the dialer returns
    without error, and: each side holds the other's identity; both hold the
    same connection id when the hello is for a group or requests no id; both
    hold the same non-empty group secret for a group, the one the hello sent or,
    if it sent none or an empty one, the one the listener generated; the
    dialer's type header is the one it requested; no deadline is left on the
    dialer's connection and neither connection is closed. *)
Theorem handshake_agreement (W : Z) (rng : HeaderMap -> list (Z * bytes)) `{!RangeOrder rng}
    (d : classicDialer) (hs : HeaderMap) (l : classicListener) (nextId : outcome gostring)
    (uuid secret : bytes) (f : ST classicImpl unit) (i0 l0 : classicImpl) (request : Message)
    (t1 t2 : bytes) :
  let ack := ack_for rng l nextId uuid secret request in
  let grouped := (MessageHeader.GetBoolHeader request IsGroupedHeader).1 in
  let requested := default [] (Headers request !! ConnectionIdHeader) in
  let sent := default [] (Headers request !! GroupSecretHeader) in
  let agreed := if decide (sent = []) then secret else sent in
  hello_request rng d (commonNames (peer i0)) hs = Ret request -> hello_ok request ->
  ready W rng i0 -> healthy (peer i0) -> written (peer i0) = [] ->
  healthy (peer l0) -> closed l0 = false -> written (peer l0) = [] -> datagram l = false ->
  ack_headers_ok l -> fits ack -> 0 < len secret ->
  for_each (fun _ h => h (UnmarshalHello request) (commonNames (peer l0))) (handlers l) tt = Ret tt ->
  int_ok W (concat (chunks (rd (peer l0)))) -> int_ok W (concat (chunks (rd (peer i0)))) ->
  concat (chunks (rd (peer l0))) = frame_bytes rng request ++ t1 ->
  concat (chunks (rd (peer i0))) = frame_bytes rng ack ++ t2 ->
  exists l1 d1,
    acceptConnection W rng None l nextId uuid secret (HelloAcceptorF f) l0 = deferred clear_or_close f l1 /\
    sendHello rng d hs i0 = (Ret tt, d1) /\
    written (peer d1) = frame_bytes rng request /\ written (peer l1) = frame_bytes rng ack /\
    id l1 = dialerToken d /\ (forall token, listenerToken l = Some token -> id d1 = token) /\
    (grouped = true \/ requested = [] -> connectionId d1 = connectionId l1) /\
    (grouped = true -> agreed ≠ [] /\ headers d1 !! GroupSecretHeader = Some agreed /\
                       headers l1 !! GroupSecretHeader = Some agreed) /\
    headers d1 !! TypeHeader = Some (default [] (Headers request !! TypeHeader)) /\
    hasDeadline (peer d1) = false /\ closes (peer d1) = 0%nat /\ closes (peer l1) = 0%nat.
Proof.
  intros ack grouped requested sent agreed Hreq Hok Hr Hhi Hwi Hhl Hcl Hwl Hd Hl Hfits Hsec Hhand Hil Hii El Ei.
  destruct (exchange_result W rng d hs l nextId uuid secret f i0 l0 request t1 t2)
    as (l1 & d1 & EL & ED & Ewd & Ewl & Eid & Ecid & Ehs & Eid3 & Ecid3 & Ehs3 & Hend); [by split|].
  exists l1, d1. rewrite Eid, Ecid, Ehs, Eid3, Ecid3, Ehs3. do 5 (split; [done|]). split.
  { intros token Et. unfold peer_id, MessageHeader.GetStringHeader, GetStringHeader.
    rewrite wire_lookup by done. unfold reply_sent, ack_for. by rewrite (ack_id rng _ _ _ _ _ token). }
  split; [intros Hg; by apply agreed_connectionId|].
  split; [intros Hg; lookup_keys; by apply agreed_secret|].
  split; [by lookup_keys | done].
Qed.

Lemma keys_ok_empty : keys_ok ∅.
Proof. by intros ? ? ?%lookup_empty_Some. Qed.

Lemma handshake_agreement_witness :
  let rng := fun h : HeaderMap => map_to_list h in
  let hs := PutStringHeader ConnectionIdHeader (lit "g1") (PutBoolHeader IsGroupedHeader true ∅) in
  let d := mkDialer (lit "dialer") ∅ None in
  let l := mkListener (Some (lit "listener")) ∅ None [] false in
  let request := SetSequence HelloSequence (with_Headers (copy_entries (rng hs)) (NewHello rng (lit "dialer") ∅)) in
  let ack := ack_for rng l (Ret (lit "n1")) [] (lit "secret") request in
  let conn data := mkConn (mkReader [take 5 data; drop 5 data] io_EOF) [] None None None None [] false 0 in
  exists l1 d1,
    acceptConnection 64 rng None l (Ret (lit "n1")) [] (lit "secret") (HelloAcceptorF (mret tt))
      (newClassicImpl 64 rng None (conn (frame_bytes rng request)) 2) = deferred clear_or_close (mret tt) l1 /\
    sendHello rng d hs (newClassicImpl 64 rng None (conn (frame_bytes rng ack)) 2) = (Ret tt, d1) /\
    id l1 = lit "dialer" /\ id d1 = lit "listener" /\ connectionId d1 = connectionId l1 /\
    headers d1 !! GroupSecretHeader = Some (lit "secret") /\ headers l1 !! GroupSecretHeader = Some (lit "secret").
Proof.
  intros rng hs d l request ack conn.
  set (i0 := newClassicImpl 64 rng None (conn (frame_bytes rng ack)) 2).
  set (l0 := newClassicImpl 64 rng None (conn (frame_bytes rng request)) 2).
  destruct (handshake_agreement 64 rng d hs l (Ret (lit "n1")) [] (lit "secret") (mret tt) i0 l0 request [] [])
    as (l1 & d1 & H1 & H2 & _ & _ & H3 & H4 & H5 & H6 & _).
  - reflexivity.
  - split_and!; [|reflexivity..|vm_compute; discriminate | vm_compute; discriminate].
    split; [vm_compute; split; discriminate || reflexivity | vm_compute; split; discriminate || reflexivity | discriminate |].
    apply keys_ok_copy; [apply _ | | apply keys_ok_copy; [apply _ | apply keys_ok_empty | apply keys_ok_empty]].
    apply keys_ok_insert; [apply keys_ok_insert; [apply keys_ok_empty|] |]; vm_compute; split; discriminate || reflexivity.
  - split_and!; reflexivity.
  - split_and!; reflexivity.
  - reflexivity.
  - split_and!; reflexivity.
  - reflexivity.
  - reflexivity.
  - reflexivity.
  - split; [apply keys_ok_empty|]. split; [reflexivity | discriminate].
  - vm_compute. discriminate.
  - reflexivity.
  - reflexivity.
  - apply int_ok_64.
  - apply int_ok_64.
  - cbn [peer i0 l0 newClassicImpl conn rd chunks concat]. by rewrite app_nil_r, take_drop, app_nil_r.
  - cbn [peer i0 l0 newClassicImpl conn rd chunks concat]. by rewrite app_nil_r, take_drop, app_nil_r.
  - exists l1, d1. split; [exact H1|]. split; [exact H2|]. split; [exact H3|].
    split; [by apply H4|]. split; [apply H5; by left | apply H6; reflexivity].
Defined.

(** C24: a refused hello.  [RejectHello] closes the underlay exactly once
    whatever happens to its message, and when the message arrives, the dialer
    fails with an error that is not retried, wraps the listener's text and
    carries the listener's class, and closes its own connection once. *)
Theorem rejection_reaches_dialer (W : Z) (rng : HeaderMap -> list (Z * bytes)) `{!RangeOrder rng}
    (Error : error -> gostring) (reason : option error) (l0 : classicImpl) :
  let m := reject_response Error reason in
  let text := match reason with Some e => Error e | None => [] end in
  let e := NonRetryableError (RejectedError (GetRejectClass reason) text) in
  marshalF l0 = MarshalV2 rng -> closed l0 = false ->
  is_i32 (GetRejectClass reason) -> fits m ->
  (exists errs l1, RejectHello Error reason l0 = (Ret errs, l1) /\ closed l1 = true /\
     closes (peer l1) = S (closes (peer l0)) /\
     (healthy (peer l0) -> written (peer l1) = written (peer l0) ++ frame_bytes rng m)) /\
  (forall d hs i0 request tail,
     healthy (peer i0) -> ready W rng i0 ->
     hello_request rng d (commonNames (peer i0)) hs = Ret request -> fits request ->
     int_ok W (concat (chunks (rd (peer i0)))) ->
     concat (chunks (rd (peer i0))) = frame_bytes rng m ++ tail ->
     exists d1, sendHello rng d hs i0 = (Err e, d1) /\ closed d1 = true /\ closes (peer d1) = 1%nat) /\
  GetRejectClass (Some e) = GetRejectClass reason /\ IsNonRetryable e = true.
Proof.
  intros m text e Hm Hc Hcl Hf. split_and!; [| |done|done].
  - unfold RejectHello. destruct (Tx_returns rng l0 m Hm) as (o & i1 & E & Ec & En).
    erewrite bind_Ret by exact E.
    destruct (Close_open i1) as (i2 & E2 & Hc2 & Hn2 & Hw2); [by rewrite Ec|].
    unfold ignore in E2. unfold mbind, ST_bind, mret, ST_ret in E2 |- *.
    destruct (attempt Close i1) as [[o2| | |] j] eqn:E3; simplify_eq.
    eexists _, _. split; [reflexivity|]. split; [done|]. split; [by rewrite Hn2, En|].
    intros Hh. rewrite Hw2.
    pose proof (attempt_Ret _ _ _ _ (Tx_frame rng l0 m Hc Hm (proj1 Hh) (proj1 (proj2 Hh)) Hf)) as E4.
    rewrite E in E4. by simplify_eq.
  - intros d hs i0 request tail Hh Hr Hreq Hfr Hint E.
    destruct (dialer_exchange W rng d hs i0 request m tail) as (i2 & ED & Hh2 & Hc2 & _ & _); try done.
    { apply wf_reject. }
    rewrite ED. destruct (finish_err (complete_hello request (commonNames (peer i0)) (wire_message m))
      i2 i2 e) as (d1 & E1 & ? & ? & _); try done; [|eauto].
    unfold complete_hello, m. rewrite check_reply_reject by done. by erewrite bind_Err.
Qed.

Lemma rejection_reaches_dialer_witness :
  let rng := fun h : HeaderMap => map_to_list h in
  let Error := fun _ : error => lit "full" in
  let reason := Some (RejectedError RejectClassBusy (lit "full")) in
  let m := reject_response Error reason in
  let d := mkDialer (lit "dialer") ∅ None in
  let conn data := mkConn (mkReader [data] io_EOF) [] None None None None [] false 0 in
  exists l1 errs d1,
    RejectHello Error reason (newClassicImpl 64 rng None (conn []) 2) = (Ret errs, l1) /\
    written (peer l1) = frame_bytes rng m /\ closed l1 = true /\
    sendHello rng d ∅ (newClassicImpl 64 rng None (conn (frame_bytes rng m)) 2) =
      (Err (NonRetryableError (RejectedError RejectClassBusy (lit "full"))), d1) /\ closed d1 = true.
Proof.
  intros rng Error reason m d conn.
  set (l0 := newClassicImpl 64 rng None (conn []) 2).
  destruct (rejection_reaches_dialer 64 rng Error reason l0) as
    ((errs & l1 & H1 & H2 & _ & H3) & H4 & _).
  - reflexivity.
  - reflexivity.
  - vm_compute. split; discriminate || reflexivity.
  - vm_compute. discriminate.
  - destruct (H4 d ∅ (newClassicImpl 64 rng None (conn (frame_bytes rng m)) 2)
      (SetSequence HelloSequence (with_Headers (copy_entries (rng ∅)) (NewHello rng (lit "dialer") ∅))) [])
      as (d1 & H5 & H6 & _).
    + split_and!; reflexivity.
    + split_and!; reflexivity.
    + reflexivity.
    + vm_compute. discriminate.
    + apply int_ok_64.
    + cbn [peer newClassicImpl conn rd chunks concat]. by rewrite !app_nil_r.
    + exists l1, errs, d1. split; [exact H1|]. split; [apply H3; split_and!; reflexivity|].
      split; [exact H2|]. split; [exact H5 | exact H6].
Defined.

(** C25: dialing leaks no connection.  Whatever the endpoint, the peer and the
    clock do, [CreateWithHeaders] returns after at most two connections; the
    underlay it returns is open and is the last one it created, and every
    other connection it opened has been closed.  A second connection is opened
    only after the first peer answered with versions that include version 2. *)
Theorem dial_leaks_nothing (W : Z) (rng : HeaderMap -> list (Z * bytes)) (d : classicDialer)
    (strategy : option MessageStrategy) (dtls : bool) (dial : nat -> outcome Conn)
    (clock : nat -> Z) (hs : HeaderMap) (timeout : Z) :
  let factory := underlayFactory W rng dtls in
  let result := CreateWithHeaders W rng d strategy dtls dial clock hs timeout in
  (forall p names h, helloHeaderProvider d = Some p -> returns (p names h)) ->
  (forall n, returns (dial n)) -> (forall n c, dial n = Ret c -> closes c = 0%nat) ->
  (forall c v, total_fns (factory strategy c v)) ->
  let was_closed u := closed u = true /\ (0 < closes (peer u))%nat in
  match result.1 with
  | Ret u => exists failed, result.2 = failed ++ [u] /\ (length failed <= 1)%nat /\
      Forall was_closed failed /\ closed u = false /\ closes (peer u) = 0%nat
  | Err _ => (length result.2 <= 2)%nat /\ Forall was_closed result.2
  | _ => False
  end /\
  (length result.2 = 2%nat ->
   exists c vs u, dial 0%nat = Ret c /\
     sendHello rng d hs (factory strategy c 2) = (Err (UnsupportedVersionError vs), u) /\ 2 ∈ vs).
Proof.
  intros factory result Hp Hd Hfresh Htot was_closed.
  pose proof (dial_round W rng d hs Hp strategy dtls dial Hfresh Htot) as Hsend.
  pose proof (Hd 0%nat) as Hd0. pose proof (Hd 1%nat) as Hd1.
  unfold result, CreateWithHeaders. set (deadline := clock 0%nat + _).
  cbn [dial_loop]. case_decide; [|by split; [split; [simpl; lia|]|]].
  destruct (dial 0%nat) as [c0|e0| |] eqn:E0; try done; [|by split; [split; [simpl; lia|]|]].
  fold factory. specialize (Hsend 0%nat c0 2 E0) as H0. fold factory was_closed in H0.
  destruct (sendHello rng d hs (factory strategy c0 2)) as [[[]|e| |] u0] eqn:ES; try done.
  { split; [|done]. exists []. simpl. split_and!; [done | lia | done | apply H0 | apply H0]. }
  rewrite bool_decide_eq_false_2 by lia. cbn [orb app].
  assert (Forall was_closed [u0]) as H0' by (apply Forall_cons_2; [exact H0 | apply Forall_nil_2]).
  assert (forall b : Prop, (length [u0] <= 2)%nat /\ Forall was_closed [u0] /\ (1%nat = 2%nat -> b)) as Hone
    by (intros b; split; [simpl; lia | done]).
  destruct (IsNonRetryable e); [by split; [split; apply (Hone True)|]|].
  destruct (GetRetryVersion e) as [v [|]] eqn:EV; cbn [negb];
    [|by split; [split; apply (Hone True)|]].
  apply GetRetryVersion_true in EV as (vs & -> & Hvs & ->).
  assert (forall b : Prop, b -> b /\ (2%nat = 2%nat -> exists c vs' u, Ret c0 = Ret c /\
    sendHello rng d hs (factory strategy c 2) = (Err (UnsupportedVersionError vs'), u) /\ 2 ∈ vs')) as Hb
    by (intros b Hb; split; [done|]; intros _; eauto 10).
  case_decide; [|by split; [split; apply (Hone True)|]].
  destruct (dial 1%nat) as [c1|e1| |] eqn:E1; try done;
    [|by split; [split; apply (Hone True)|]].
  specialize (Hsend 1%nat c1 2 E1) as Hs1. fold factory was_closed in Hs1.
  destruct (sendHello rng d hs (factory strategy c1 2)) as [[[]|e1| |] u1]; try done.
  - apply Hb. exists [u0]. split_and!; [done | simpl; lia | done | apply Hs1 | apply Hs1].
  - rewrite bool_decide_eq_true_2 by lia. cbn [orb]. apply Hb.
    split; [simpl; lia|]. apply Forall_cons_2; [exact H0|]. apply Forall_cons_2; [exact Hs1 | apply Forall_nil_2].
Qed.

Lemma dial_leaks_nothing_witness :
  let rng := fun h : HeaderMap => map_to_list h in
  let d := mkDialer (lit "dialer") ∅ None in
  let conn := mkConn (mkReader [version_response [1; 2]] io_EOF) [] None None None None [] false 0 in
  let result := CreateWithHeaders 64 rng d None false (fun _ => Ret conn) (fun n => Z.of_nat n) ∅ 1000 in
  length result.2 = 2%nat /\
  Forall (fun u => closed u = true /\ (0 < closes (peer u))%nat) result.2.
Proof.
  intros rng d conn result.
  destruct (dial_leaks_nothing 64 rng d None false (fun _ => Ret conn) (fun n => Z.of_nat n) ∅ 1000) as [H _].
  - discriminate.
  - intros n. exact I.
  - intros n c [= <-]. reflexivity.
  - intros c v. apply total_default. intros b. apply int_ok_64.
  - assert (result.1 = Err (UnsupportedVersionError [1; 2])) as E by (vm_compute; reflexivity).
    split; [vm_compute; reflexivity|]. unfold result in *. rewrite E in H. apply H.
Defined.

(** C29: the listener owns a connection until it hands it over.  For any stream
    and any answers of the connection, when the pool takes the job,
    [acceptConnection] with an acceptor function either ends with the connection
    closed, or runs that function on an open underlay, after its hello was
    received, admitted by every connection handler and acknowledged on the wire.
    When the pool does not take the job, the connection is left as it is: open,
    and with nobody.  Assumed are a machine whose [int] holds the lengths that
    are read (as 64 bits do), and connection handlers that return. *)
Theorem accept_owns_connection (W : Z) (rng : HeaderMap -> list (Z * bytes)) (l : classicListener)
    (nextId : outcome gostring) (uuid secret : bytes) (f : ST classicImpl unit) (l0 : classicImpl) :
  let run queueErr := acceptConnection W rng queueErr l nextId uuid secret (HelloAcceptorF f) l0 in
  (forall b, int_ok W b) -> total_fns l0 -> closed l0 = false -> closes (peer l0) = 0%nat ->
  (forall h hello names, h ∈ handlers l -> returns (h hello names)) ->
  (forall e, run (Some e) = (Ret tt, l0)) /\
  ((exists l', run None = (Ret tt, l') /\ (0 < closes (peer l'))%nat) \/
   exists request l1 data,
     run None = deferred clear_or_close f l1 /\ closed l1 = false /\ closes (peer l1) = 0%nat /\
     ContentType request = ContentTypeHelloType /\
     Forall (fun h => h (UnmarshalHello request) (commonNames (peer l1)) = Ret tt) (handlers l) /\
     id l1 = Body request /\ connectionId l1 = listener_connectionId request nextId uuid /\
     headers l1 = Headers (with_group_secret secret request) /\
     (marshalF l1 (ack_for rng l nextId uuid secret request)).1 = Ret data /\
     written (peer l1) = written (peer l0) ++ data).
Proof.
  intros run wide Htot Hc Hcl Hhand. split; [done|]. unfold run, acceptConnection, accept_job.
  destruct (SetDeadline_cases true l0) as [E|[e E]].
  2: { left. destruct (ignore_conn_Close (with_peer (peer l0) l0)) as (l' & El & Hn).
       exists l'. erewrite bind_Ret by exact E. done. }
  erewrite bind_Ret by exact E. cbn beta iota.
  set (i1 := with_peer (with_deadline true (peer l0)) l0).
  destruct (receiveHello_cases W rng wide l i1 Htot) as
    [(e & i2 & E2)|(request & i2 & E2 & Hct & Hc2 & Hn2 & Hw2 & Hm2)].
  { left. destruct (ignore_conn_Close i2) as (i3 & E3 & H3).
    eapply deferred_closed; [|exact H3]. by erewrite bind_Ret by exact E2. }
  set (names := commonNames (peer i2)).
  destruct (handlers_cases (handlers l) (UnmarshalHello request) names) as [[e Eh]|[Eh Hall]];
    [by auto| |].
  { left. destruct (ignore_conn_Close i2) as (i3 & E3 & H3).
    eapply deferred_closed; [|exact H3]. erewrite bind_Ret by exact E2. cbn beta iota.
    erewrite bind_Ret by reflexivity. cbn beta. fold names. rewrite Eh.
    by erewrite bind_Ret by reflexivity. }
  set (cid := listener_connectionId request nextId uuid).
  set (request' := with_group_secret secret request).
  set (i3 := mkImpl (peer i2) (Body request) cid (Headers request') (closed i2) (readF i2) (marshalF i2)).
  set (body := received ← _; _).
  assert (body i1 = HelloAcceptorF f (ackHello rng l request' true []) i3) as Ebody.
  { unfold body. erewrite bind_Ret by exact E2. cbn beta iota.
    erewrite bind_Ret by reflexivity. cbn beta. fold names. rewrite Eh.
    erewrite bind_Ret by reflexivity. cbn beta iota zeta. by erewrite bind_Ret by reflexivity. }
  rewrite (deferred_eq _ _ _ _ _ Ebody).
  destruct (Tx_cases i3 (ack_for rng l nextId uuid secret request)) as
    [(e & i4 & E4)|(data & m' & Em & E4)]; [by apply Hm2 | by cbn; rewrite Hc2| |].
  - left. pose proof (leaves_open_Tx (ack_for rng l nextId uuid secret request) i3) as [Ec4 _].
    rewrite E4 in Ec4. cbn in Ec4. destruct (Close_open i4) as (i5 & E5 & _ & Hn5 & _); [by rewrite Ec4, Hc2|].
    eapply deferred_closed; [|rewrite Hn5; lia]. unfold HelloAcceptorF.
    rewrite (bind_Ret _ _ _ i4 (inl e)); [exact E5|]. apply attempt_Err. unfold ackHello.
    erewrite bind_Ret by reflexivity. by erewrite bind_Err by exact E4.
  - right. eexists request, _, data. split.
    { apply deferred_eq. unfold HelloAcceptorF. erewrite (bind_Ret _ _ _ _ (inr tt)); [reflexivity|].
      apply attempt_Ret. unfold ackHello. erewrite bind_Ret by reflexivity. by erewrite bind_Ret by exact E4. }
    cbn. split_and!; try done; [by rewrite Hc2 | by rewrite Hn2 | by rewrite Hw2].
Qed.

Lemma accept_owns_connection_witness :
  let rng := fun h : HeaderMap => map_to_list h in
  let l := mkListener (Some (lit "listener")) ∅ None [fun _ _ => Err ClosedError] false in
  let request := SetSequence HelloSequence (NewHello rng (lit "dialer") ∅) in
  let conn := mkConn (mkReader [frame_bytes rng request] io_EOF) [] None None None None [] false 0 in
  exists l', acceptConnection 64 rng None l (Ret (lit "n1")) [] (lit "secret") (HelloAcceptorF (mret tt))
    (newClassicImpl 64 rng None conn 2) = (Ret tt, l') /\ (0 < closes (peer l'))%nat.
Proof.
  intros rng l request conn.
  destruct (accept_owns_connection 64 rng l (Ret (lit "n1")) [] (lit "secret") (mret tt)
              (newClassicImpl 64 rng None conn 2)) as [_ [H|(req & l1 & data & _ & _ & _ & _ & H & _)]].
  - intros b. apply int_ok_64.
  - apply (total_default 64 rng false conn 2). intros b. apply int_ok_64.
  - reflexivity.
  - reflexivity.
  - intros h hello names Hin. apply list_elem_of_singleton in Hin as ->. exact I.
  - exact H.
  - apply Forall_cons in H as [H _]. discriminate H.
Defined.

(** The dispatcher.  [Run] deals with the underlays created before the
    listener closes, one after the other, skips other errors, and then
    returns.  Each underlay goes to the acceptor of its type header, else to
    the default acceptor; it is closed when there is none or when the acceptor
    refuses it, and otherwise left as the acceptor left it. *)
Theorem dispatcher_Run_correct (acceptors : gmap gostring (ST classicImpl unit))
    (defaultAcceptor : option (ST classicImpl unit)) (created rest : list (outcome classicImpl)) :
  Forall (fun o => match o with Ret _ => True | Err e => says_closed e = false | _ => False end) created ->
  let underlays := omap (fun o => match o with Ret u => Some u | _ => None end) created in
  let results := dispatch acceptors defaultAcceptor <$> underlays in
  dispatcher_Run acceptors defaultAcceptor (created ++ Err ListenerClosedError :: rest) = (results, true) /\
  forall i u, underlays !! i = Some u -> exists r, results !! i = Some r /\
    match choose_acceptor acceptors defaultAcceptor u with
    | None => r.1 = Ret tt /\ closed r.2 = true
    | Some a =>
        match a u with
        | (Ret _, u') => r = (Ret tt, u')
        | (Err _, _) => r.1 = Ret tt /\ closed r.2 = true
        | (o, u') => r.1 = o
        end
    end.
Proof.
  intros Hc underlays results. split.
  - unfold results, underlays. induction Hc as [|o created Ho Hc IH]; [done|].
    cbn [app dispatcher_Run omap list_omap]. destruct o as [u|e| |]; try done.
    + by rewrite IH.
    + by rewrite Ho, IH.
  - intros i u Hi. exists (dispatch acceptors defaultAcceptor u). unfold results.
    rewrite list_lookup_fmap, Hi. split; [done|]. unfold dispatch.
    erewrite bind_Ret by reflexivity. cbn beta. destruct (choose_acceptor _ _ u) as [a|].
    + destruct (a u) as [[[]|e| |] u'] eqn:E.
      * by erewrite bind_Ret by (by apply attempt_Ret).
      * erewrite bind_Ret by (by apply attempt_Err). cbn beta iota.
        destruct (ignore_Close u') as (u'' & -> & ?). done.
      * unfold mbind, ST_bind, attempt. by rewrite E.
      * unfold mbind, ST_bind, attempt. by rewrite E.
    + destruct (ignore_Close u) as (u'' & -> & ?). done.
Qed.

Lemma dispatcher_Run_correct_witness :
  let u := newClassicImpl 64 (fun h => map_to_list h) None
             (mkConn (mkReader [] io_EOF) [] None None None None [] false 0) 2 in
  dispatcher_Run ∅ None [Err io_EOF; Ret u; Err ListenerClosedError] = ([dispatch ∅ None u], true) /\
  closed (dispatch ∅ None u).2 = true.
Proof.
  intros u. destruct (dispatcher_Run_correct ∅ None [Err io_EOF; Ret u] []) as [H1 H2].
  - apply Forall_cons_2; [reflexivity|]. apply Forall_cons_2; [exact I | apply Forall_nil_2].
  - split; [exact H1|]. destruct (H2 0%nat u eq_refl) as (r & Hr & _ & Hc).
    injection Hr as <-. exact Hc.
Defined.

(** The handshake over an existing connection.  When each side's stream
    carries what the other writes, both [Create]s return an underlay after one
    hello and one acknowledgement; the listener holds the dialer's token and
    headers, both hold the listener's connection id, and the dialer has cleared
    the deadline. *)
Theorem existing_handshake_agreement (W : Z) (rng : HeaderMap -> list (Z * bytes)) `{!RangeOrder rng}
    (token cid : gostring) (dattrs lattrs : HeaderMap) (timeout : Z) (dc lc : Conn) (t1 t2 : bytes) :
  let request := SetSequence HelloSequence (NewHello rng token dattrs) in
  let ack := existing_ack_response rng lattrs cid request true [] in
  hello_ok request -> keys_ok lattrs -> lattrs !! ResultSuccessHeader = None -> fits ack ->
  healthy dc -> healthy lc -> written dc = [] -> written lc = [] ->
  int_ok W (concat (chunks (rd dc))) -> int_ok W (concat (chunks (rd lc))) ->
  concat (chunks (rd lc)) = frame_bytes rng request ++ t1 ->
  concat (chunks (rd dc)) = frame_bytes rng ack ++ t2 ->
  exists l1 d1 dc1,
    existingConnListener_Create W rng lattrs timeout (Ret cid) (newExistingImpl W rng lc 2) = (Ret tt, l1) /\
    existingConnDialer_Create W rng token dattrs timeout dc = (Ret d1, dc1) /\ peer d1 = dc1 /\
    written (peer l1) = frame_bytes rng ack /\ written dc1 = frame_bytes rng request /\
    id l1 = token /\ headers l1 = Headers request /\ connectionId l1 = cid /\
    connectionId d1 = cid /\ hasDeadline dc1 = false /\ closes dc1 = 0%nat /\ closes (peer l1) = 0%nat.
Proof.
  intros request ack Hok Hk Hs Hf Hdc Hlc Hwd Hwl Hid Hil El Ed.
  destruct (existing_ack_shape rng lattrs cid request [] Hk Hs) as (Hct & Hrep & Hcid & Hsucc & Hwf);
    [done|].
  destruct (existing_listener_side W rng lattrs timeout cid lc request t1)
    as (l1 & EL & Ewl & Hcl & Eid & Eh & Ec); try done.
  destruct (existing_dialer_side W rng token dattrs timeout dc ack cid t2)
    as (d1 & dc1 & ED & Ep & Ewd & Ecd & _ & Hdl & Hcd); try done.
  { destruct Hok as (_ & _ & _ & Hrf & ? & ?). unfold fits. rewrite wire_message_None by done.
    unfold MaxInt32. fold request. lia. }
  exists l1, d1, dc1. rewrite Ewl, Ewd, Hwl, Hwd. by split_and!.
Qed.

Lemma existing_handshake_agreement_witness :
  let rng := fun h : HeaderMap => map_to_list h in
  let request := SetSequence HelloSequence (NewHello rng (lit "dialer") ∅) in
  let ack := existing_ack_response rng ∅ (lit "c1") request true [] in
  let conn data := mkConn (mkReader [data] io_EOF) [] None None None None [] false 0 in
  exists l1 d1 dc1,
    existingConnListener_Create 64 rng ∅ 5 (Ret (lit "c1"))
      (newExistingImpl 64 rng (conn (frame_bytes rng request)) 2) = (Ret tt, l1) /\
    existingConnDialer_Create 64 rng (lit "dialer") ∅ 5 (conn (frame_bytes rng ack)) = (Ret d1, dc1) /\
    connectionId l1 = lit "c1" /\ connectionId d1 = lit "c1".
Proof.
  intros rng request ack conn.
  destruct (existing_handshake_agreement 64 rng (lit "dialer") (lit "c1") ∅ ∅ 5
    (conn (frame_bytes rng ack)) (conn (frame_bytes rng request)) [] [])
    as (l1 & d1 & dc1 & H1 & H2 & _ & _ & _ & _ & _ & H3 & H4 & _).
  - split_and!; [|reflexivity..|vm_compute; discriminate | vm_compute; discriminate].
    split; [vm_compute; split; discriminate || reflexivity | vm_compute; split; discriminate || reflexivity | discriminate |].
    apply keys_ok_copy; [apply _ | apply keys_ok_empty | apply keys_ok_empty].
  - apply keys_ok_empty.
  - reflexivity.
  - vm_compute. discriminate.
  - split_and!; reflexivity.
  - split_and!; reflexivity.
  - reflexivity.
  - reflexivity.
  - apply int_ok_64.
  - apply int_ok_64.
  - cbn [conn rd chunks concat]. by rewrite !app_nil_r.
  - cbn [conn rd chunks concat]. by rewrite !app_nil_r.
  - exists l1, d1, dc1. split; [exact H1|]. split; [exact H2|]. split; [exact H3 | exact H4].
Defined.
