(* ===== verification/DialPolicy.v ===== *)
(** * The backoff dial policy (src/dial_policy.go)

    The failure accounting, the exponential backoff and the group connection
    ids of [BackoffDialPolicy].  Every method that takes the policy's lock is
    one atomic operation on its state; [Dial] is composed of them.  Times and
    durations are in nanoseconds ([time.Duration] is an [int64]); the zero
    [time.Time] is [None].

    Theorems: the backoff follows its formula within its bounds, and overflows
    for large base delays; the state is a summary of the history of dials and
    closes; every re-established group has a fresh connection id; what [Dial]
    does on each of its paths. *)

From Stdlib Require Import Floats.SpecFloat.
From stdpp Require Import pretty.
From S2P Require Import Prelude Float64 Headers.

(** ** Data *)

Record BackoffConfig : Type := mkBackoff {
  BaseDelay : Z;
  MaxDelay : Z;
  MinStableDuration : Z;
  MinDialInterval : Z;
  Jitter : float64
}.

Definition second : Z := 10 ^ 9.

Definition DefaultBackoffConfig : BackoffConfig :=
  mkBackoff (2 * second) (60 * second) (30 * second) 0 (S754_zero false).

Record BackoffDialPolicy : Type := mkPolicy {
  Backoff : BackoffConfig;
  consecutiveFailures : Z;          (* a uint32 *)
  lastDialSuccess : option Z;
  lastNegativeEvent : option Z;
  lastDialTime : option Z;
  iteration : Z                     (* a uint32 *)
}.

Definition NewBackoffDialPolicyWithConfig (config : BackoffConfig) : BackoffDialPolicy :=
  mkPolicy config 0 None None None 0.

Definition NewBackoffDialPolicy : BackoffDialPolicy :=
  NewBackoffDialPolicyWithConfig DefaultBackoffConfig.

(** ** The atomic operations *)

Definition count_failure (now : Z) (p : BackoffDialPolicy) : BackoffDialPolicy :=
  mkPolicy (Backoff p) (uint32 (consecutiveFailures p + 1)) (lastDialSuccess p) (Some now)
    (lastDialTime p) (iteration p).

Definition reset_failures (p : BackoffDialPolicy) : BackoffDialPolicy :=
  mkPolicy (Backoff p) 0 (lastDialSuccess p) (lastNegativeEvent p) (lastDialTime p) (iteration p).

Definition UnderlayClosed (lifetime now : Z) (p : BackoffDialPolicy) : BackoffDialPolicy :=
  if decide (lifetime < MinStableDuration (Backoff p)) then count_failure now p
  else reset_failures p.

(** [t.After(u)], where the zero time is before every other. *)
Definition After (t u : option Z) : bool :=
  match t, u with
  | Some t, Some u => bool_decide (u < t)
  | Some _, None => true
  | None, _ => false
  end.

Definition resetStaleFailures (now : Z) (p : BackoffDialPolicy) : BackoffDialPolicy :=
  match lastDialSuccess p with
  | None => p
  | Some success =>
      if decide (consecutiveFailures p = 0) then p
      else if After (Some success) (lastNegativeEvent p) &&
              bool_decide (MinStableDuration (Backoff p) <= now - success)
      then reset_failures p else p
  end.

Definition recordSuccess (now : Z) (p : BackoffDialPolicy) : BackoffDialPolicy :=
  mkPolicy (Backoff p) (consecutiveFailures p) (Some now) (lastNegativeEvent p) (lastDialTime p)
    (iteration p).

Definition recordFailure (now : Z) (p : BackoffDialPolicy) : BackoffDialPolicy :=
  count_failure now p.

(** [1 << min(failures - 1, 30)], with the subtraction in [uint32]. *)
Definition backoff_factor (failures : Z) : Z := 2 ^ (Z.min (uint32 (failures - 1)) 30).

(** [v > 0] *)
Definition positive_float (v : float64) : bool := SFltb (S754_zero false) v.

(** [time.Duration(rand.Float64() * jitter * float64(delay))], with the jitter
    capped at 1. *)
Definition jitter_part (rand jitter : float64) (delay : Z) : Z :=
  let jitter := if SFltb (float_of_Z 1) jitter then float_of_Z 1 else jitter in
  float_trunc (float_mul (float_mul rand jitter) (float_of_Z delay)).

(** [getBackoffDelay]; [rand] is the answer of [rand.Float64]. *)
Definition getBackoffDelay (rand : float64) (p : BackoffDialPolicy) : Z :=
  if decide (consecutiveFailures p = 0) then 0
  else
    let delay := int64 (BaseDelay (Backoff p) * backoff_factor (consecutiveFailures p)) in
    let delay := Z.min delay (MaxDelay (Backoff p)) in
    if positive_float (Jitter (Backoff p)) && bool_decide (0 < delay)
    then int64 (delay - jitter_part rand (Jitter (Backoff p)) delay) else delay.

(** [fmt.Sprintf("%d", n)] *)
Definition decimal (n : Z) : gostring := lit (pretty (Z.to_N n)).

Definition ConsecutiveFailures (p : BackoffDialPolicy) : Z := consecutiveFailures p.
Definition LastDialTime (p : BackoffDialPolicy) : option Z := lastDialTime p.

Definition groupConnectionId (connectionId : gostring) (isFirst : bool) (p : BackoffDialPolicy)
    : gostring * BackoffDialPolicy :=
  let it := if isFirst then uint32 (iteration p + 1) else iteration p in
  let p' := mkPolicy (Backoff p) (consecutiveFailures p) (lastDialSuccess p) (lastNegativeEvent p)
              (lastDialTime p) it in
  (if decide (it = 0) then connectionId else connectionId ++ lit "-" ++ decimal it, p').

(** How long [Dial] still has to wait for the minimum interval; the time since
    the zero time is longer than any interval. *)
Definition interval_wait (now : Z) (p : BackoffDialPolicy) : option Z :=
  if decide (0 < MinDialInterval (Backoff p))
  then
    match lastDialTime p with
    | None => None
    | Some t =>
        if decide (now - t < MinDialInterval (Backoff p))
        then Some (MinDialInterval (Backoff p) - (now - t)) else None
    end
  else None.

Definition set_lastDialTime (now : Z) (p : BackoffDialPolicy) : BackoffDialPolicy :=
  mkPolicy (Backoff p) (consecutiveFailures p) (lastDialSuccess p) (lastNegativeEvent p) (Some now)
    (iteration p).

(** ** Dialing *)

(** What [Dial] meets: the clock at its successive looks, and whether its
    cancel channel is chosen in each of its selects. *)
Record dial_env : Type := mkEnv {
  now_reset : Z;
  now_interval : Z;
  cancel_interval : bool;
  now_dial : Z;
  cancel_backoff : bool;
  cancel_dial : bool;
  now_done : Z
}.

Section Dial.
Context {Underlay : Type} (CreateWithHeaders : Z -> HeaderMap -> outcome Underlay)
  (rand : float64).

Definition dial_headers (underlayType groupId : gostring) (groupSecret : bytes) (isFirst : bool)
    : HeaderMap :=
  let headers :=
    <[TypeHeader := underlayType]> (<[ConnectionIdHeader := groupId]>
    (<[GroupSecretHeader := groupSecret]> (<[IsGroupedHeader := [Z2b 1]]> ∅))) in
  if isFirst then PutBoolHeader IsFirstGroupConnection true headers else headers.

(** [Dial] waits for the minimum interval and for the backoff, each wait ended
    by its timer or by the cancel channel. *)
Definition Dial (env : dial_env) (underlayType connectionId : gostring) (groupSecret : bytes)
    (isFirst : bool) (connectTimeout : Z) : ST BackoffDialPolicy Underlay := fun p0 =>
  let '(groupId, p1) := groupConnectionId connectionId isFirst p0 in
  let p2 := resetStaleFailures (now_reset env) p1 in
  if bool_decide (is_Some (interval_wait (now_interval env) p2)) && cancel_interval env
  then (Err ClosedError, p2)
  else
    let p3 := set_lastDialTime (now_dial env) p2 in
    if bool_decide (0 < getBackoffDelay rand p3) && cancel_backoff env
    then (Err ClosedError, p3)
    else if cancel_dial env then (Err ClosedError, p3)
    else
      match CreateWithHeaders connectTimeout (dial_headers underlayType groupId groupSecret isFirst) with
      | Ret underlay => (Ret underlay, recordSuccess (now_done env) p3)
      | Err e => (Err e, recordFailure (now_done env) p3)
      | Panic => (Panic, p3)
      | OutOfFuel => (OutOfFuel, p3)
      end.

End Dial.

(** ** The history the state summarises *)

(** What happens to a policy over time, with the clock. *)
Inductive event : Type :=
  | Dialed (t : Z)                        (* a dial succeeded *)
  | DialFailed (t : Z)
  | Closed (lifetime t : Z)               (* an underlay closed *)
  | Checked (t : Z).                      (* failures are checked for staleness *)

Definition event_time (e : event) : Z :=
  match e with Dialed t | DialFailed t | Closed _ t | Checked t => t end.

Definition apply_event (p : BackoffDialPolicy) (e : event) : BackoffDialPolicy :=
  match e with
  | Dialed t => recordSuccess t p
  | DialFailed t => recordFailure t p
  | Closed lifetime t => UnderlayClosed lifetime t p
  | Checked t => resetStaleFailures t p
  end.

(** A failed dial, or an underlay that closed young. *)
Definition negative (cfg : BackoffConfig) (e : event) : bool :=
  match e with
  | DialFailed _ => true
  | Closed lifetime _ => bool_decide (lifetime < MinStableDuration cfg)
  | _ => false
  end.

(** The last success of a history. *)
Definition last_success (h : list event) : option Z :=
  last (omap (fun e => match e with Dialed t => Some t | _ => None end) h).

Definition last_negative (cfg : BackoffConfig) (h : list event) : option Z :=
  last (omap (fun e => if negative cfg e then Some (event_time e) else None) h).

(** Whether an event clears the failures, after the history [h]: an underlay
    closed after a stable life, or a check finds that the last dial that
    succeeded has outlived the stable duration with nothing negative since. *)
Definition clears (cfg : BackoffConfig) (h : list event) (e : event) : bool :=
  match e with
  | Closed lifetime _ => negb (bool_decide (lifetime < MinStableDuration cfg))
  | Checked t =>
      match last_success h with
      | Some s => After (Some s) (last_negative cfg h) && bool_decide (MinStableDuration cfg <= t - s)
      | None => false
      end
  | _ => false
  end.

(** The number of negative events since the failures were last cleared. *)
Fixpoint failures_of (cfg : BackoffConfig) (before h : list event) (n : Z) : Z :=
  match h with
  | [] => n
  | e :: h' =>
      failures_of cfg (before ++ [e]) h'
        (if clears cfg before e then 0 else if negative cfg e then uint32 (n + 1) else n)
  end.

(** The connection ids a sequence of dials uses. *)
Fixpoint group_ids (connectionId : gostring) (flags : list bool) (p : BackoffDialPolicy) : list gostring :=
  match flags with
  | [] => []
  | isFirst :: flags' =>
      let '(gid, p') := groupConnectionId connectionId isFirst p in
      gid :: group_ids connectionId flags' p'
  end.

(** Timers wait at least their duration, and the clock does not go back. *)
Definition env_ok (env : dial_env) (p : BackoffDialPolicy) : Prop :=
  match interval_wait (now_interval env) p with
  | Some w => now_interval env + w <= now_dial env
  | None => now_interval env <= now_dial env
  end.

(** The clock does not go back over a history. *)
Definition ordered (h : list event) : Prop :=
  forall i j a b, (i <= j)%nat -> h !! i = Some a -> h !! j = Some b -> event_time a <= event_time b.

(** ** Lemmas *)

Lemma backoff_factor_small f : 0 < f -> is_u32 f -> backoff_factor f = 2 ^ Z.min (f - 1) 30.
Proof. intros Hf Hu. unfold backoff_factor. rewrite to_uint_id; [done|]. unfold is_uint in *. lia. Qed.

Lemma backoff_factor_range f : 1 <= backoff_factor f <= 2 ^ 30.
Proof.
  unfold backoff_factor. pose proof (to_uint_range 32 (f - 1) ltac:(lia)) as [H _].
  pose proof (Z.pow_pos_nonneg 2 (uint32 (f - 1) `min` 30) ltac:(lia) ltac:(lia)).
  split; [lia | apply Z.pow_le_mono_r; lia].
Qed.

Lemma lit_inj s1 s2 : lit s1 = lit s2 -> s1 = s2.
Proof.
  intros E. rewrite <- (String.string_of_list_byte_of_string s1), <- (String.string_of_list_byte_of_string s2).
  unfold lit in E. by rewrite E.
Qed.

(** The connection id of an iteration. *)
Definition group_id (connectionId : gostring) (it : Z) : gostring :=
  if decide (it = 0) then connectionId else connectionId ++ lit "-" ++ decimal it.

Lemma group_id_inj c i j : 0 <= i -> 0 <= j -> group_id c i = group_id c j -> i = j.
Proof.
  intros Hi Hj. unfold group_id. do 2 case_decide; try lia.
  - intros E. apply (f_equal length) in E. rewrite !length_app in E. simpl in E. lia.
  - intros E. apply (f_equal length) in E. rewrite !length_app in E. simpl in E. lia.
  - intros E. apply app_inv_head in E. apply app_inv_head in E. apply lit_inj in E.
    apply (inj pretty) in E. lia.
Qed.

(** The number of group establishments among the first dials. *)
Definition firsts (flags : list bool) : Z := len (filter (fun b => b = true) flags).

Lemma firsts_cons b flags : firsts (b :: flags) = (if b then 1 else 0) + firsts flags.
Proof. unfold firsts. rewrite filter_cons. destruct b; simpl; [by rewrite len_cons | done]. Qed.

Lemma firsts_nonneg flags : 0 <= firsts flags.
Proof. apply len_nonneg. Qed.

Lemma firsts_app l1 l2 : firsts (l1 ++ l2) = firsts l1 + firsts l2.
Proof. unfold firsts. by rewrite filter_app, len_app. Qed.

Lemma group_ids_lookup c flags : forall p i a,
  0 <= iteration p -> iteration p + firsts flags < 2 ^ 32 ->
  group_ids c flags p !! i = Some a -> a = group_id c (iteration p + firsts (take (S i) flags)).
Proof.
  induction flags as [|b flags IH]; intros p i a H0 Hb Hi; [done|].
  cbn [group_ids groupConnectionId] in Hi. rewrite firsts_cons in Hb.
  pose proof (firsts_nonneg flags).
  assert ((if b then uint32 (iteration p + 1) else iteration p) = iteration p + (if b then 1 else 0)) as Eit.
  { destruct b; [rewrite to_uint_id; [done | unfold is_uint; lia] | lia]. }
  rewrite Eit in Hi. destruct i as [|i]; cbn in Hi.
  - injection Hi as <-. cbn [take]. rewrite firsts_cons, take_0.
    by replace (firsts []) with 0 by done; rewrite Z.add_0_r.
  - apply IH in Hi; simpl; [|destruct b; lia | destruct b; lia].
    rewrite Hi. simpl. rewrite firsts_cons. f_equal. lia.
Qed.

Lemma last_omap_snoc {A B} (f : A -> option B) h e :
  last (omap f (h ++ [e])) = (match f e with Some b => Some b | None => last (omap f h) end).
Proof.
  rewrite omap_app. simpl. destruct (f e); [by rewrite last_snoc | by rewrite app_nil_r].
Qed.

(** The state and the summary after one more event. *)
Lemma failures_of_snoc cfg before h e n :
  failures_of cfg before (h ++ [e]) n =
  (let n' := failures_of cfg before h n in
   if clears cfg (before ++ h) e then 0 else if negative cfg e then uint32 (n' + 1) else n').
Proof.
  revert before n. induction h as [|x h IH]; intros before n; cbn [failures_of app].
  - by rewrite app_nil_r.
  - rewrite IH. by rewrite <- app_assoc.
Qed.

Lemma apply_event_Backoff p e : Backoff (apply_event p e) = Backoff p.
Proof.
  destruct e; simpl; try done.
  - unfold UnderlayClosed. by case_decide.
  - unfold resetStaleFailures. by repeat case_match.
Qed.

(** The negative events of an ordered history are no later than the last. *)
Lemma last_negative_latest cfg h e :
  ordered h -> e ∈ h -> negative cfg e = true ->
  exists t, last_negative cfg h = Some t /\ event_time e <= t.
Proof.
  unfold last_negative. intros Hs He Hn. induction h as [|x h IH] using rev_ind.
  { by apply not_elem_of_nil in He. }
  rewrite last_omap_snoc. apply elem_of_app in He as [He|He].
  - destruct IH as (t & Ht & Hle); [|done|].
    { intros i j c d Hij Hi Hj. by apply (Hs i j); [|apply lookup_app_l_Some..]. }
    destruct (negative cfg x) eqn:Ex; [|by exists t]. exists (event_time x). split; [done|].
    apply list_elem_of_lookup in He as [i Hi]. pose proof (lookup_lt_Some _ _ _ Hi).
    apply (Hs i (length h)); [lia | by apply lookup_app_l_Some|].
    by rewrite lookup_app_r, Nat.sub_diag by lia.
  - apply list_elem_of_singleton in He as ->. rewrite Hn. exists (event_time x). by split.
Qed.

(** Without overflow, the product is exact. *)
Lemma backoff_exact cfg q :
  Backoff q = cfg -> is_u32 (consecutiveFailures q) -> consecutiveFailures q ≠ 0 ->
  0 <= BaseDelay cfg -> BaseDelay cfg * 2 ^ 30 < 2 ^ 63 ->
  int64 (BaseDelay (Backoff q) * backoff_factor (consecutiveFailures q)) =
  BaseDelay cfg * 2 ^ Z.min (consecutiveFailures q - 1) 30.
Proof.
  intros Eq Huq Hq Hb Hov. unfold is_uint in Huq.
  pose proof (backoff_factor_range (consecutiveFailures q)).
  rewrite Eq, <- (backoff_factor_small (consecutiveFailures q)) by (unfold is_uint; lia).
  apply to_sint_id; [lia|]. unfold is_sint. nia.
Qed.

(** The delay before jitter. *)
Definition full_delay (cfg : BackoffConfig) (f : Z) : Z :=
  if decide (f = 0) then 0 else Z.min (BaseDelay cfg * 2 ^ Z.min (f - 1) 30) (MaxDelay cfg).

Lemma full_delay_range cfg f :
  0 <= BaseDelay cfg -> 0 <= MaxDelay cfg -> 0 <= full_delay cfg f <= MaxDelay cfg.
Proof.
  intros Hb Hm. unfold full_delay. case_decide; [lia|].
  pose proof (Z.pow_nonneg 2 (Z.min (f - 1) 30)). nia.
Qed.

Lemma full_delay_mono cfg f g :
  0 <= BaseDelay cfg -> 0 <= MaxDelay cfg -> 0 <= f <= g -> full_delay cfg f <= full_delay cfg g.
Proof.
  intros Hb Hm Hle. pose proof (full_delay_range cfg g Hb Hm). unfold full_delay in *.
  do 2 case_decide; try lia.
  pose proof (Z.pow_le_mono_r 2 (Z.min (f - 1) 30) (Z.min (g - 1) 30)). nia.
Qed.

Lemma jitter_part_zero rand jitter : unit_float rand -> valid_binary 53 1024 jitter = true ->
  jitter_part rand jitter 0 = 0.
Proof.
  intros _ _. unfold jitter_part. set (j := if SFltb _ _ then _ else _). change (float_of_Z 0) with (S754_zero false).
  unfold float_mul at 1. by destruct (float_mul rand j).
Qed.

(** ** Properties *)

(** C34: the backoff delay.  While the largest multiple of the base delay fits
    an [int64] and the maximal delay is below 2^53 ns (about 104 days), so that
    delays are exact as [float64]: the full delay is zero without failures and
    otherwise the base delay doubled per failure after the first (at most thirty
    times) and capped at the maximum, and does not decrease with more failures.
    The delay is the full delay if the jitter is not positive (or not a number);
    otherwise, whatever the jitter and the random number, it is the full delay
    less a part of it, computed in [float64] with the jitter capped at 1: never
    negative, and never more than the full delay. *)
Theorem backoff_delay_bounds (rand : float64) (cfg : BackoffConfig) (p : BackoffDialPolicy) :
  Backoff p = cfg -> is_u32 (consecutiveFailures p) ->
  0 <= BaseDelay cfg -> BaseDelay cfg * 2 ^ 30 < 2 ^ 63 -> 0 <= MaxDelay cfg < 2 ^ 53 ->
  valid_binary 53 1024 (Jitter cfg) = true -> unit_float rand ->
  let f := consecutiveFailures p in
  let full := full_delay cfg f in
  0 <= getBackoffDelay rand p <= full /\ full <= MaxDelay cfg /\
  (positive_float (Jitter cfg) = false -> getBackoffDelay rand p = full) /\
  (positive_float (Jitter cfg) = true -> getBackoffDelay rand p = full - jitter_part rand (Jitter cfg) full) /\
  (forall g, f <= g -> full <= full_delay cfg g).
Proof.
  intros Ecfg Hu Hb Hov Hm Hv Hrand f full.
  pose proof (full_delay_range cfg f Hb (proj1 Hm)) as Hrange. fold full in Hrange.
  assert (0 < full -> positive_float (Jitter cfg) = true -> 0 <= jitter_part rand (Jitter cfg) full <= full) as Hpart
    by (intros H0 Hp; apply random_part; [done | done | done | lia]).
  assert (jitter_part rand (Jitter cfg) 0 = 0) as Hzero by (apply jitter_part_zero; done).
  assert (getBackoffDelay rand p =
    if positive_float (Jitter cfg) then full - jitter_part rand (Jitter cfg) full else full) as E.
  { unfold getBackoffDelay, full, full_delay in *. fold f. destruct (decide (f = 0)); [rewrite Hzero; by case_match|].
    unfold f in *. rewrite (backoff_exact cfg), Ecfg by done. set (d := Z.min _ _) in *.
    destruct (positive_float (Jitter cfg)); [|done]. cbn [andb]. case_bool_decide as Hd.
    - specialize (Hpart Hd eq_refl). rewrite to_sint_id; unfold is_sint; lia.
    - replace d with 0 by lia. rewrite Hzero. done. }
  rewrite E. unfold is_uint in Hu. split.
  { destruct (positive_float (Jitter cfg)); [|lia]. destruct (decide (0 < full)) as [H0|H0]; [specialize (Hpart H0 eq_refl); lia|].
    replace full with 0 by lia. rewrite Hzero. lia. }
  split; [lia|]. split; [by intros ->|]. split; [by intros ->|].
  intros g Hg. apply full_delay_mono; [done | lia | unfold f in *; lia].
Qed.

Lemma backoff_delay_bounds_witness :
  let cfg := mkBackoff (2 * second) (60 * second) (30 * second) 0 (S754_finite false 4503599627370496 (-53)) in
  let p := foldr (fun n => recordFailure (Z.of_nat n)) (NewBackoffDialPolicyWithConfig cfg) (seq 0 4) in
  let half := S754_finite false 4503599627370496 (-53) in
  getBackoffDelay half p = 12 * second /\ getBackoffDelay half p <= 16 * second.
Proof.
  intros cfg p half. destruct (backoff_delay_bounds half cfg p) as (H1 & _ & _ & H & _).
  - reflexivity.
  - vm_compute. split; discriminate || reflexivity.
  - vm_compute. discriminate.
  - reflexivity.
  - vm_compute. split; discriminate || reflexivity.
  - reflexivity.
  - vm_compute. split; [split; discriminate | reflexivity].
  - split; [|apply H1]. rewrite H by reflexivity. vm_compute. reflexivity.
Defined.

(** The product of the base delay and the backoff factor is an [int64]
    that is not checked for overflow: with a base delay from 2^33 ns (about
    8.6 s) up to 2^34 ns, the delay is negative once there are 31 failures,
    whatever the maximum, so that no backoff is applied at all. *)
Theorem backoff_overflows (rand : float64) (p : BackoffDialPolicy) :
  2 ^ 33 <= BaseDelay (Backoff p) < 2 ^ 34 -> 0 <= MaxDelay (Backoff p) ->
  31 <= consecutiveFailures p < 2 ^ 32 ->
  getBackoffDelay rand p < 0.
Proof.
  intros Hb Hm Hf. unfold getBackoffDelay. rewrite decide_False by lia.
  rewrite backoff_factor_small by (unfold is_uint; lia). rewrite (Z.min_r _ 30) by lia.
  set (x := BaseDelay (Backoff p) * 2 ^ 30). assert (2 ^ 63 <= x < 2 ^ 64) as Hx by (unfold x; nia).
  assert (int64 x = x - 2 ^ 64) as ->.
  { unfold to_sint. replace (x + 2 ^ (64 - 1)) with (x - 2 ^ 63 + 1 * 2 ^ 64) by lia.
    rewrite Z.mod_add by lia. rewrite Z.mod_small; lia. }
  rewrite Z.min_l by lia. rewrite bool_decide_eq_false_2 by lia. rewrite andb_false_r. lia.
Qed.

Lemma backoff_overflows_witness :
  getBackoffDelay (S754_zero false)
    (mkPolicy (mkBackoff (10 * second) (60 * second) (30 * second) 0 (S754_zero false)) 31 None None None 0) < 0.
Proof. apply backoff_overflows; vm_compute; repeat split; discriminate || reflexivity. Defined.

(** The failure accounting.  After any history of dials, closes and
    staleness checks, the state is the summary of the history: the times of
    the last success and of the last negative event, and the number of
    negative events since the failures were last cleared.  In a history whose
    clock does not go back, a check clears them only if every negative event
    precedes the last successful dial and that dial is at least the stable
    duration ago. *)
Theorem failure_accounting (cfg : BackoffConfig) (h : list event) :
  let p := foldl apply_event (NewBackoffDialPolicyWithConfig cfg) h in
  consecutiveFailures p = failures_of cfg [] h 0 /\
  lastDialSuccess p = last_success h /\ lastNegativeEvent p = last_negative cfg h /\
  (forall t, ordered h -> consecutiveFailures p ≠ 0 ->
     consecutiveFailures (resetStaleFailures t p) = 0 ->
     exists s, last_success h = Some s /\ MinStableDuration cfg <= t - s /\
       forall e, e ∈ h -> negative cfg e = true -> event_time e < s).
Proof.
  intros p.
  assert (Backoff p = cfg /\ consecutiveFailures p = failures_of cfg [] h 0 /\
    lastDialSuccess p = last_success h /\ lastNegativeEvent p = last_negative cfg h)
    as (Hcfg & Hf & Hs & Hn).
  { unfold p. clear p. induction h as [|e h IH] using rev_ind; [done|].
    destruct IH as (Hcfg & Hf & Hs & Hn). rewrite foldl_snoc. set (q := foldl _ _ h) in *.
    rewrite apply_event_Backoff, failures_of_snoc. unfold last_success, last_negative.
    rewrite !last_omap_snoc. fold (last_success h) (last_negative cfg h).
    split; [done|]. rewrite <- Hf, <- Hs, <- Hn. cbn zeta. destruct e as [t|t|l t|t]; try done.
    - simpl. unfold UnderlayClosed. rewrite Hcfg. case_bool_decide; by case_decide.
    - cbn -[After]. rewrite <- Hs, <- Hn. unfold resetStaleFailures. rewrite Hcfg.
      destruct (lastDialSuccess q) as [z|] eqn:Eq; [|done].
      destruct (After (Some z) (lastNegativeEvent q) && _); by case_decide. }
  split_and!; try done. intros t Ho Hne H0. unfold resetStaleFailures in H0.
  rewrite Hs in H0. destruct (last_success h) as [s|]; [|done]. rewrite decide_False in H0 by done.
  destruct (After (Some s) (lastNegativeEvent p) && _) eqn:E; [|done].
  apply andb_true_iff in E as [E1 E2]. apply bool_decide_eq_true in E2. rewrite Hcfg in E2.
  exists s. split; [done|]. split; [done|]. intros e He Hneg.
  destruct (last_negative_latest cfg h e Ho He Hneg) as (tn & Etn & Hle).
  rewrite Hn, Etn in E1. simpl in E1. apply bool_decide_eq_true in E1. lia.
Qed.

(** Group connection ids.  Among the ids a sequence of dials uses (fewer
    than 2^32 of them establishing a group), two are equal exactly when no
    group is established between them: a dial that re-establishes the group
    gets an id no earlier dial used, and the dials that follow it share it. *)
Theorem group_ids_fresh (c : gostring) (flags : list bool) (p : BackoffDialPolicy) (i j : nat)
    (a b : gostring) :
  0 <= iteration p -> iteration p + firsts flags < 2 ^ 32 -> (i <= j)%nat ->
  group_ids c flags p !! i = Some a -> group_ids c flags p !! j = Some b ->
  (a = b <-> forall k, (i < k <= j)%nat -> flags !! k ≠ Some true).
Proof.
  intros H0 Hb Hij Ha Hb'. apply group_ids_lookup in Ha; [|done..]. apply group_ids_lookup in Hb'; [|done..].
  assert (take (S j) flags = take (S i) flags ++ take (j - i) (drop (S i) flags)) as Et.
  { rewrite take_take_drop. f_equal. lia. }
  rewrite Et, firsts_app in Hb'. pose proof (firsts_nonneg (take (S i) flags)) as Hn1.
  set (mid := take (j - i) (drop (S i) flags)) in *. pose proof (firsts_nonneg mid) as Hn2.
  assert (a = b <-> firsts mid = 0) as ->.
  { subst a b. split; [intros E; apply group_id_inj in E; lia | intros ->; f_equal; lia]. }
  assert (firsts mid = 0 <-> forall k, mid !! k ≠ Some true) as ->.
  { unfold firsts. clear. induction mid as [|x mid IH]; [done|]. rewrite filter_cons. destruct x; simpl.
    - rewrite len_cons. pose proof (len_nonneg (filter (fun b => b = true) mid)) as Hn3.
      split; [lia|]. intros H. by destruct (H 0%nat).
    - rewrite IH. split; [intros H [|k]; [done | apply H] | intros H k; apply (H (S k))]. }
  unfold mid. split.
  - intros H k Hk E. apply (H (k - S i)%nat). rewrite lookup_take_lt, lookup_drop by lia.
    by replace (S i + (k - S i))%nat with k by lia.
  - intros H k E. apply lookup_take_Some in E as [E Hk]. rewrite lookup_drop in E.
    apply (H (S i + k)%nat); [lia | done].
Qed.

Lemma group_ids_fresh_witness :
  let ids := group_ids (lit "g") [false; true; false] NewBackoffDialPolicy in
  ids = [lit "g"; lit "g-1"; lit "g-1"] /\
  (lit "g" = lit "g-1" <-> forall k, (0 < k <= 2)%nat -> [false; true; false] !! k ≠ Some true).
Proof.
  intros ids. split; [vm_compute; reflexivity|].
  apply (group_ids_fresh (lit "g") [false; true; false] NewBackoffDialPolicy 0 2);
    [vm_compute; discriminate | vm_compute; reflexivity | lia | vm_compute; reflexivity | vm_compute; reflexivity].
Defined.

(** What [Dial] does.  It fails with the closed error only when its cancel
    channel was chosen, and then counts no failure; otherwise its result is the
    dialer's, whose success sets the success time without clearing failures and
    whose failure adds one; the hello headers it passes carry the type, the
    group's connection id, the secret, the grouped flag, and the first flag
    exactly when the dial establishes the group; and when the timers keep to
    their durations, consecutive dials are at least the minimum interval apart. *)
Theorem Dial_paths {Underlay} (create : Z -> HeaderMap -> outcome Underlay) (rand : float64)
    (env : dial_env) (ut cid : gostring) (secret : bytes) (isFirst : bool) (timeout : Z)
    (p : BackoffDialPolicy) :
  let r := Dial create rand env ut cid secret isFirst timeout p in
  let gid := (groupConnectionId cid isFirst p).1 in
  let p2 := resetStaleFailures (now_reset env) (groupConnectionId cid isFirst p).2 in
  let h := dial_headers ut gid secret isFirst in
  env_ok env p2 ->
  match r.1 with
  | Ret u => create timeout h = Ret u /\ lastDialSuccess r.2 = Some (now_done env) /\
      consecutiveFailures r.2 = consecutiveFailures p2
  | Err e =>
      (e = ClosedError /\ (cancel_interval env || cancel_backoff env || cancel_dial env) = true /\
       consecutiveFailures r.2 = consecutiveFailures p2) \/
      (create timeout h = Err e /\ consecutiveFailures r.2 = uint32 (consecutiveFailures p2 + 1) /\
       lastNegativeEvent r.2 = Some (now_done env))
  | o => create timeout h = o
  end /\
  (forall t, lastDialTime p = Some t -> 0 < MinDialInterval (Backoff p) ->
     lastDialTime r.2 = Some t \/
     exists t', lastDialTime r.2 = Some t' /\ MinDialInterval (Backoff p) <= t' - t) /\
  h !! TypeHeader = Some ut /\ h !! ConnectionIdHeader = Some gid /\
  h !! GroupSecretHeader = Some secret /\ (GetBoolHeader h IsGroupedHeader).1 = true /\
  (GetBoolHeader h IsFirstGroupConnection).1 = isFirst.
Proof.
  intros r gid p2 h Henv.
  assert (lastDialTime p2 = lastDialTime p /\ Backoff p2 = Backoff p) as [Et Eb].
  { unfold p2, resetStaleFailures, groupConnectionId. simpl. by repeat case_match. }
  assert (r = if bool_decide (is_Some (interval_wait (now_interval env) p2)) && cancel_interval env
    then (Err ClosedError, p2)
    else let p3 := set_lastDialTime (now_dial env) p2 in
      if bool_decide (0 < getBackoffDelay rand p3) && cancel_backoff env
      then (Err ClosedError, p3)
      else if cancel_dial env then (Err ClosedError, p3)
      else match create timeout h with
      | Ret underlay => (Ret underlay, recordSuccess (now_done env) p3)
      | Err e => (Err e, recordFailure (now_done env) p3)
      | Panic => (Panic, p3)
      | OutOfFuel => (OutOfFuel, p3)
      end) as Er by done.
  split_and!.
  - rewrite Er. cbn zeta. destruct (bool_decide (is_Some _)), (cancel_interval env); simpl; try naive_solver;
    destruct (bool_decide _), (cancel_backoff env), (cancel_dial env); simpl; try naive_solver;
    destruct (create timeout h) eqn:Ec; simpl; naive_solver.
  - intros t Ht Hmin. rewrite Er. rewrite <- Et in Ht. unfold env_ok in Henv.
    destruct (bool_decide (is_Some (interval_wait (now_interval env) p2)) && cancel_interval env); [by left|].
    right. exists (now_dial env). cbn zeta. split.
    { by repeat case_match. }
    unfold interval_wait in Henv. rewrite Ht, Eb, decide_True in Henv by done. case_decide; lia.
  - unfold h, dial_headers. by destruct isFirst.
  - unfold h, dial_headers. by destruct isFirst.
  - unfold h, dial_headers. by destruct isFirst.
  - unfold h, dial_headers. by destruct isFirst.
  - unfold h, dial_headers. by destruct isFirst.
Qed.

Lemma Dial_paths_witness :
  let env := mkEnv 100 100 false 105 false false 106 in
  let p := mkPolicy (mkBackoff 2 60 30 10 (S754_zero false)) 0 None None (Some 95) 0 in
  let r := Dial (fun _ _ => Ret tt) (S754_zero false) env (lit "data") (lit "g") (lit "s") true 5 p in
  r.1 = Ret tt /\ lastDialTime r.2 = Some 105 /\ lastDialSuccess r.2 = Some 106.
Proof.
  intros env p r. destruct (Dial_paths (fun _ _ => Ret tt) (S754_zero false) env (lit "data") (lit "g") (lit "s") true 5 p)
    as (H & _).
  - vm_compute. discriminate.
  - split; [reflexivity|]. split; [reflexivity|]. apply H.
Defined.
