(* ===== verification/Underlays.v ===== *)
(** * The set of underlays of a channel (src/underlays.go)

    An underlay is known by its pointer; its type comes from its headers
    ([GetUnderlayType], src/impl.go).  Each operation of [Underlays] holds its
    lock for the whole change, so an operation is one step; the listeners are
    notified after the lock is released, from the list read under it, and the
    operations return whom to notify.  [GetAll] copies, so the in-place shift
    of [Remove] is not seen through earlier snapshots.

    Theorems: the collection is a duplicate-free sequence in order of arrival;
    an underlay is reported as removed exactly once however often it is
    removed; the counts by type are exact. *)

From S2P Require Import Prelude Headers.

(** ** Data *)

(** What a channel sees of an underlay; [ptr] is its identity. *)
Record Underlay : Type := mkUnderlay {
  ptr : nat;
  underlay_Id : gostring;
  underlay_ConnectionId : gostring;
  underlay_Headers : HeaderMap;
  CreatedAt : Z
}.

#[global] Instance Underlay_eq_dec : EqDecision Underlay.
Proof. solve_decision. Defined.

Definition DefaultUnderlayType : gostring := lit "default".

Definition GetUnderlayType (underlay : Underlay) : gostring :=
  let t := default [] (underlay_Headers underlay !! TypeHeader) in
  if decide (t ≠ []) then t else DefaultUnderlayType.

Section Underlays.
Context {Listener : Type}.

Record Underlays : Type := mkUnderlays {
  entries : list Underlay;
  listeners : list Listener
}.

Inductive notification : Type :=
  | UnderlayAdded (l : Listener) (underlay : Underlay)
  | UnderlayRemoved (l : Listener) (underlay : Underlay).

Definition NewUnderlays : Underlays := mkUnderlays [] [].

Definition Add (underlay : Underlay) (u : Underlays) : list notification * Underlays :=
  ((fun l => UnderlayAdded l underlay) <$> listeners u,
   mkUnderlays (entries u ++ [underlay]) (listeners u)).

(** The loop of [Remove]: whether the underlay was found, and the entries
    without its first occurrence. *)
Fixpoint remove_entry (underlay : Underlay) (es : list Underlay) : bool * list Underlay :=
  match es with
  | [] => (false, [])
  | entry :: es' =>
      if decide (ptr entry = ptr underlay) then (true, es')
      else let '(removed, rest) := remove_entry underlay es' in (removed, entry :: rest)
  end.

Definition Remove (underlay : Underlay) (u : Underlays) : bool * list notification * Underlays :=
  let '(removed, es) := remove_entry underlay (entries u) in
  (removed,
   if (removed : bool) then (fun l => UnderlayRemoved l underlay) <$> listeners u else [],
   mkUnderlays es (listeners u)).

Definition GetAll (u : Underlays) : list Underlay := entries u.

Definition First (u : Underlays) : option Underlay := head (entries u).

Definition CountsByType (u : Underlays) : gmap gostring Z :=
  foldl (fun result entry =>
    let t := GetUnderlayType entry in <[t := default 0 (result !! t) + 1]> result) ∅ (entries u).

Definition AddListener (l : Listener) (u : Underlays) : Underlays :=
  mkUnderlays (entries u) (listeners u ++ [l]).

(** ** Specification *)

Definition ptrs (u : Underlays) : list nat := ptr <$> entries u.

(** Every underlay is in the collection once. *)
Definition wf (u : Underlays) : Prop := NoDup (ptrs u).

(** A use of the collection: an underlay added (when not yet in), or removed. *)
Inductive use : Type := UAdd (underlay : Underlay) | URemove (underlay : Underlay).

(** The uses run in order, with the notifications of each. *)
Fixpoint run_uses (us : list use) (u : Underlays) : list notification * Underlays :=
  match us with
  | [] => ([], u)
  | UAdd x :: us' =>
      let '(ns, u1) := Add x u in let '(ns', u2) := run_uses us' u1 in (ns ++ ns', u2)
  | URemove x :: us' =>
      let '(_, ns, u1) := Remove x u in let '(ns', u2) := run_uses us' u1 in (ns ++ ns', u2)
  end.

Definition added (us : list use) : list nat :=
  omap (fun x => match x with UAdd y => Some (ptr y) | _ => None end) us.

(** ** Lemmas *)

Lemma remove_entry_spec x es :
  NoDup (ptr <$> es) ->
  (remove_entry x es).1 = bool_decide (ptr x ∈ ptr <$> es) /\
  (remove_entry x es).2 = filter (fun e => ptr e ≠ ptr x) es.
Proof using Type.
  induction es as [|e es IH]; intros Hnd; [done|]. cbn [fmap list_fmap] in Hnd.
  inversion Hnd as [|? ? Hne Hnd']; subst. destruct (IH Hnd') as [E1 E2]. cbn [remove_entry].
  rewrite filter_cons. destruct (decide (ptr e = ptr x)) as [E|E].
  - rewrite (decide_False (P := ptr e ≠ ptr x)) by (intros H; by apply H). cbn [fst snd]. split.
    + rewrite bool_decide_eq_true_2; [done|]. rewrite <- E. left.
    + symmetry. apply filter_id. apply Forall_forall. intros y Hy Ey.
      apply Hne. rewrite E, <- Ey. by apply list_elem_of_fmap_2.
  - rewrite (decide_True (P := ptr e ≠ ptr x)) by done.
    destruct (remove_entry x es) as [r rest] eqn:Er. cbn [fst snd] in *. subst. split; [|done].
    apply bool_decide_ext. cbn. rewrite elem_of_cons.
    split; [by right | intros [H|H]; [by rewrite H in E | done]].
Qed.

Lemma remove_entry_ptrs x es :
  (remove_entry x es).1 = true -> ptr <$> es ≡ₚ ptr x :: (ptr <$> (remove_entry x es).2).
Proof using Type.
  induction es as [|e es IH]; [done|]. cbn [remove_entry]. case_decide as E; [intros _; cbn; by rewrite E|].
  destruct (remove_entry x es) as [r rest]. cbn in *. intros Hr. rewrite IH by done. constructor.
Qed.

Lemma remove_entry_absent x es : (remove_entry x es).1 = false -> (remove_entry x es).2 = es.
Proof using Type.
  induction es as [|e es IH]; [done|]. cbn [remove_entry]. case_decide; [done|].
  destruct (remove_entry x es) as [r rest]. cbn in *. intros Hr. by rewrite IH.
Qed.

Lemma listeners_Add x u : listeners (Add x u).2 = listeners u.
Proof using Type. done. Qed.

Lemma listeners_Remove x u : listeners (Remove x u).2 = listeners u.
Proof using Type. unfold Remove. by destruct (remove_entry x (entries u)). Qed.

(** The number of underlays of a type. *)
Definition count_type (t : gostring) (es : list Underlay) : Z :=
  len (filter (fun e => GetUnderlayType e = t) es).

Lemma CountsByType_lookup u t :
  CountsByType u !! t = (let n := count_type t (entries u) in if decide (n = 0) then None else Some n).
Proof using Type.
  unfold CountsByType. induction (entries u) as [|e es IH] using rev_ind; [done|].
  rewrite foldl_snoc. cbn zeta in *. unfold count_type in *. rewrite filter_app, len_app.
  rewrite filter_cons, filter_nil. set (n := len (filter _ es)) in *.
  pose proof (len_nonneg (filter (fun e => GetUnderlayType e = t) es)) as Hn. fold n in Hn.
  destruct (decide (GetUnderlayType e = t)) as [->|Ht].
  - rewrite lookup_insert_eq, IH. rewrite (decide_False (P := n + len [e] = 0)) by (unfold len; simpl; lia).
    case_decide as E; simpl; unfold len; simpl; [by rewrite E | done].
  - rewrite lookup_insert_ne by done. rewrite IH. by rewrite Z.add_0_r.
Qed.

End Underlays.

Arguments Underlays : clear implicits.
Arguments notification : clear implicits.

(** The underlays a listener was told about. *)
Definition removed_by {Listener} `{EqDecision Listener} (l : Listener)
    (ns : list (notification Listener)) : list nat :=
  omap (fun n => match n with
                 | UnderlayRemoved l' x => if decide (l' = l) then Some (ptr x) else None
                 | _ => None
                 end) ns.

Definition added_by {Listener} `{EqDecision Listener} (l : Listener)
    (ns : list (notification Listener)) : list nat :=
  omap (fun n => match n with
                 | UnderlayAdded l' x => if decide (l' = l) then Some (ptr x) else None
                 | _ => None
                 end) ns.

Section Notifications.
Context {Listener : Type} `{EqDecision Listener} (l : Listener).

(** A notification sent to every listener reaches each of them once. *)
Lemma omap_once {A} (f : Listener -> notification Listener) (g : notification Listener -> option A)
    (a : A) (ls : list Listener) :
  NoDup ls -> l ∈ ls -> (forall l', g (f l') = if decide (l' = l) then Some a else None) ->
  omap g (f <$> ls) = [a].
Proof using Type.
  intros Hnd Hl Hg. induction Hnd as [|x ls Hx Hnd IH]; [by apply not_elem_of_nil in Hl|].
  cbn. rewrite Hg. case_decide as E.
  - subst x. f_equal. clear -Hx Hg. induction ls as [|y ls IH]; [done|]. cbn. rewrite Hg.
    apply not_elem_of_cons in Hx as [Hy Hx]. rewrite decide_False by done. by apply IH.
  - apply elem_of_cons in Hl as [->|Hl]; [done|]. by apply IH.
Qed.

Lemma removed_by_app ns1 ns2 : removed_by l (ns1 ++ ns2) = removed_by l ns1 ++ removed_by l ns2.
Proof using Type. apply omap_app. Qed.

Lemma added_by_app ns1 ns2 : added_by l (ns1 ++ ns2) = added_by l ns1 ++ added_by l ns2.
Proof using Type. apply omap_app. Qed.

Lemma told_added x ls :
  NoDup ls -> l ∈ ls ->
  removed_by l ((fun l => UnderlayAdded l x) <$> ls) = [] /\
  added_by l ((fun l => UnderlayAdded l x) <$> ls) = [ptr x].
Proof using Type.
  intros Hnd Hl. split; [by clear; induction ls|]. by apply omap_once.
Qed.

Lemma told_removed x ls :
  NoDup ls -> l ∈ ls ->
  removed_by l ((fun l => UnderlayRemoved l x) <$> ls) = [ptr x] /\
  added_by l ((fun l => UnderlayRemoved l x) <$> ls) = [].
Proof using Type.
  intros Hnd Hl. split; [by apply omap_once|]. by clear; induction ls.
Qed.

(** What a listener is told, against what happens to the collection. *)
Lemma told_of_uses us : forall u,
  NoDup (listeners u) -> l ∈ listeners u ->
  let '(ns, u') := run_uses us u in
  removed_by l ns ++ ptrs u' ≡ₚ ptrs u ++ added us /\ added_by l ns = added us.
Proof using Type.
  induction us as [|[x|x] us IH]; intros u Hnd Hl; cbn [run_uses].
  - by rewrite app_nil_r.
  - unfold Add. specialize (IH (mkUnderlays (entries u ++ [x]) (listeners u)) Hnd Hl).
    destruct (run_uses us _) as [ns' u2]. destruct IH as [IH1 IH2].
    destruct (told_added x (listeners u) Hnd Hl) as [E1 E2].
    rewrite removed_by_app, added_by_app, E1, E2, IH2. split; [|done]. cbn [app]. rewrite IH1.
    unfold ptrs. cbn [entries]. rewrite fmap_app. by rewrite <- app_assoc.
  - unfold Remove. destruct (remove_entry x (entries u)) as [r es] eqn:ER.
    specialize (IH (mkUnderlays es (listeners u)) Hnd Hl).
    destruct (run_uses us _) as [ns' u2]. destruct IH as [IH1 IH2].
    destruct (told_removed x (listeners u) Hnd Hl) as [E1 E2].
    rewrite removed_by_app, added_by_app, IH2. unfold ptrs in *. cbn [entries] in IH1. destruct r.
    + rewrite E1, E2. split; [|done]. cbn [app]. rewrite IH1.
      pose proof (remove_entry_ptrs x (entries u)) as Hp. rewrite ER in Hp. cbn in Hp. by rewrite Hp.
    + split; [|done]. cbn [app removed_by omap list_omap]. rewrite IH1.
      pose proof (remove_entry_absent x (entries u)) as Ha. rewrite ER in Ha. cbn in Ha. by rewrite Ha.
Qed.

End Notifications.

Lemma CountsByType_total {Listener} (u : Underlays Listener) :
  map_fold (fun _ n total => n + total) 0 (CountsByType u) = len (GetAll u).
Proof.
  unfold CountsByType, GetAll. induction (entries u) as [|e es IH] using rev_ind; [done|].
  rewrite foldl_snoc, len_app. set (m := foldl _ _ es) in *. set (t := GetUnderlayType e).
  destruct (m !! t) as [n|] eqn:E; cbn [default from_option].
  - rewrite <- insert_delete_eq. rewrite map_fold_insert_L; [|intros; lia | by rewrite lookup_delete_eq].
    rewrite <- (insert_delete_id m t n E), map_fold_insert_L in IH;
      [|intros; lia | by rewrite lookup_delete_eq]. rewrite <- IH. unfold len. simpl. lia.
  - rewrite map_fold_insert_L; [|intros; lia | done]. rewrite IH. unfold len. simpl. lia.
Qed.

(** ** Properties *)

(** Removals are reported exactly once.  Over any sequence of additions and
    removals, what a listener was told to be removed, together with what is
    still in the collection, is exactly (each as often) what was there and
    added; so if no underlay is added twice, none is reported removed twice,
    the collection has no duplicates, and every addition is reported. *)
Theorem removal_reported_once {Listener} `{EqDecision Listener} (l : Listener) (us : list use)
    (u : Underlays Listener) :
  NoDup (listeners u) -> l ∈ listeners u ->
  let '(ns, u') := run_uses us u in
  removed_by l ns ++ ptrs u' ≡ₚ ptrs u ++ added us /\ added_by l ns = added us /\
  (NoDup (ptrs u ++ added us) -> NoDup (removed_by l ns) /\ wf u').
Proof.
  intros Hnd Hl.
  pose proof (told_of_uses l us u Hnd Hl) as H.
  destruct (run_uses us u) as [ns u']. destruct H as [H1 H2].
  split_and!; try done. intros Hn. rewrite <- H1 in Hn. by apply NoDup_app in Hn as (? & _ & ?).
Qed.

Lemma removal_reported_once_witness :
  let x := mkUnderlay 1 [] [] ∅ 0 in
  let u := AddListener 7%nat NewUnderlays in
  removed_by 7%nat (run_uses [UAdd x; URemove x; URemove x] u).1 = [1%nat] /\
  NoDup (removed_by 7%nat (run_uses [UAdd x; URemove x; URemove x] u).1).
Proof.
  intros x u. split; [reflexivity|].
  pose proof (removal_reported_once 7%nat [UAdd x; URemove x; URemove x] u) as H.
  destruct (run_uses _ u) as [ns u']. apply H.
  - apply NoDup_singleton.
  - apply list_elem_of_here.
  - apply NoDup_singleton.
Defined.

(** The counts by type.  [CountsByType] has an entry for exactly the types
    that occur, each with the number of underlays of that type, and their sum
    is the number of underlays. *)
Theorem CountsByType_exact {Listener} (u : Underlays Listener) :
  (forall t, CountsByType u !! t =
     (if decide (count_type t (entries u) = 0) then None else Some (count_type t (entries u)))) /\
  map_fold (fun _ n total => n + total) 0 (CountsByType u) = len (GetAll u).
Proof.
  split; [intros t; apply CountsByType_lookup | apply CountsByType_total].
Qed.
