(* ===== verification/Waiters.v ===== *)
(** * Reply waiters (src/impl.go, [waiterMap])

    The map from sequence numbers to the receivers of replies, and its
    separately kept size.  The operations are first given as the code runs
    them alone; the module [Steps] then splits each into the atomic accesses of
    its map ([sync.Map]) and of its counter, which may interleave.

    Theorems: a reply finds the receiver registered for its sequence, once, and
    expired waiters are the ones reaped; run alone, the size is exact as long
    as no sequence is registered twice; in any interleaving its error is
    exactly the number of overwritten registrations minus the number of
    waiters that were taken while being reaped. *)

From S2P Require Import Prelude Headers.

Section Waiters.
Context {Receiver : Type}.

(** ** Data *)

Record waiter : Type := mkWaiter { replyReceiver : Receiver; ttlMs : Z }.

Record waiterMap : Type := mkWaiterMap { m : gmap Z waiter; size : Z }.

(** What [AddWaiter] asks of a sendable. *)
Record waiting : Type := mkWaiting {
  ReplyReceiver : option Receiver;
  Deadline : option Z;     (* of its context, in milliseconds *)
  Sequence : Z
}.

(** ** Operations *)

Definition Size (self : waiterMap) : Z := size self.

(** [atomic.AddInt32] *)
Definition AddInt32 (self : waiterMap) (d : Z) : waiterMap :=
  mkWaiterMap (m self) (int32 (size self + d)).

Definition AddWaiter (sendable : waiting) (now : Z) (self : waiterMap) : waiterMap :=
  match ReplyReceiver sendable with
  | None => self
  | Some r =>
      let w := mkWaiter r (match Deadline sendable with Some d => d | None => now + 30000 end) in
      AddInt32 (mkWaiterMap (<[Sequence sendable := w]> (m self)) (size self)) 1
  end.

Definition RemoveWaiter (seq : Z) (self : waiterMap) : option Receiver * waiterMap :=
  match m self !! seq with
  | Some w => (Some (replyReceiver w), AddInt32 (mkWaiterMap (delete seq (m self)) (size self)) (-1))
  | None => (None, self)
  end.

(** The range over the map visits the entries [kvs]; every value stored is a
    waiter, so the branch for other values is not reached. *)
Definition reap_loop (now : Z) (kvs : list (Z * waiter)) (st : gmap Z waiter * Z) : gmap Z waiter * Z :=
  foldl (fun st kv =>
    if decide (ttlMs kv.2 < now) then (delete kv.1 st.1, st.2 + 1) else st) st kvs.

Definition reapExpired (rng : gmap Z waiter -> list (Z * waiter)) (now : Z) (self : waiterMap)
    : waiterMap :=
  let '(m', deleteCount) := reap_loop now (rng (m self)) (m self, 0) in
  AddInt32 (mkWaiterMap m' (size self)) (- int32 deleteCount).

Definition clear (self : waiterMap) : waiterMap := mkWaiterMap ∅ 0.

(** The size is the number of waiters. *)
Definition exact (self : waiterMap) : Prop := size self = Z.of_nat (base.size (m self)).

(** ** Lemmas *)

Definition expired (now : Z) (kv : Z * waiter) : Prop := ttlMs kv.2 < now.

#[global] Instance expired_dec now kv : Decision (expired now kv) :=
  decide (ttlMs kv.2 < now).

Lemma reap_loop_count now kvs st :
  (reap_loop now kvs st).2 = st.2 + len (filter (expired now) kvs).
Proof using Type.
  revert st. induction kvs as [|kv kvs IH]; intros [a n].
  - rewrite filter_nil. cbn. by rewrite Z.add_0_r.
  - rewrite filter_cons. unfold reap_loop in *. cbn [foldl]. rewrite IH.
    change (decide (expired now kv)) with (decide (ttlMs kv.2 < now)).
    destruct (decide (ttlMs kv.2 < now)); [|done]. cbn [snd]. rewrite len_cons. lia.
Qed.

(** Deleting the expired among [kvs], in any order. *)
Lemma reap_loop_lookup now kvs st k :
  (reap_loop now kvs st).1 !! k =
  if decide (Exists (fun kv => kv.1 = k /\ ttlMs kv.2 < now) kvs) then None else st.1 !! k.
Proof using Type.
  revert st. induction kvs as [|kv kvs IH]; intros [a n].
  - by rewrite decide_False by (by inversion 1).
  - unfold reap_loop in *. cbn [foldl]. rewrite IH. clear IH. cbn [fst].
    destruct (decide (Exists _ kvs)) as [He|He].
    { by rewrite decide_True by (by right). }
    destruct (decide (ttlMs kv.2 < now)) as [Ht|Ht]; cbn [fst].
    + destruct (decide (kv.1 = k)) as [<-|Hk].
      * rewrite lookup_delete_eq. by rewrite decide_True by (by left).
      * rewrite lookup_delete_ne by done. rewrite decide_False; [done|].
        intros [[? ?]|?]%Exists_cons; [done | by apply He].
    + rewrite decide_False; [done|]. intros [[? ?]|?]%Exists_cons; [done | by apply He].
Qed.

Lemma reapExpired_map (rng : gmap Z waiter -> list (Z * waiter)) `{!RangeOrder rng} now self :
  m (reapExpired rng now self) = filter (fun kv => ¬ expired now kv) (m self).
Proof using Type.
  unfold reapExpired. destruct (reap_loop _ _ _) as [m' n] eqn:E. cbn [m AddInt32].
  apply map_eq. intros k. pose proof (reap_loop_lookup now (rng (m self)) (m self, 0) k) as H.
  rewrite E in H. cbn [fst] in H. rewrite H. clear H E.
  assert (Exists (fun kv => kv.1 = k /\ ttlMs kv.2 < now) (rng (m self)) <->
    exists w, m self !! k = Some w /\ ttlMs w < now) as Hex.
  { rewrite (range_perm (rng := rng)), Exists_exists. split.
    - intros ([k' w] & Hin & Hk & Ht). apply elem_of_map_to_list in Hin. cbn in *. subst. eauto.
    - intros (w & Hw & Ht). exists (k, w). by rewrite elem_of_map_to_list. }
  case_decide as He.
  - apply Hex in He as (w & Hw & Ht). symmetry. apply map_lookup_filter_None. right.
    intros w' Hw' Hn. apply Hn. unfold expired. cbn. congruence.
  - symmetry. destruct (m self !! k) as [w|] eqn:Hw.
    + apply map_lookup_filter_Some. split; [done|]. intros Ht. apply He, Hex. eauto.
    + apply map_lookup_filter_None. by left.
Qed.

Lemma filter_size (P : Z * waiter -> Prop) `{!forall x, Decision (P x)}
    (rng : gmap Z waiter -> list (Z * waiter)) `{!RangeOrder rng} (mm : gmap Z waiter) :
  len (filter P (rng mm)) = Z.of_nat (base.size (filter P mm)).
Proof using Type.
  rewrite map_filter_alt, map_size_list_to_map.
  - unfold len. f_equal. apply Permutation_length. by rewrite (range_perm (rng := rng)).
  - eapply sublist_NoDup; [apply (NoDup_fst_map_to_list mm)|].
    apply fmap_sublist, sublist_filter.
Qed.

Lemma int32_exact z : 0 <= z <= MaxInt32 -> int32 z = z.
Proof using Type. intros H. apply to_sint_id; [lia|]. unfold is_sint, MaxInt32 in *. lia. Qed.

End Waiters.

Arguments waiter : clear implicits.
Arguments waiterMap : clear implicits.
Arguments waiting : clear implicits.

(** ** Interleavings

    The accesses of concurrent operations.  A counter change that follows a
    map access is pending until its thread performs it. *)
Module Steps.
Section Steps.
Context {Receiver : Type}.

Record state : Type := mkState {
  waiters : gmap Z (waiter Receiver);
  counter : Z;
  pending : list Z;
  overwritten : Z;   (* registrations that replaced one with the same sequence *)
  raced : Z          (* waiters reaped after they had been taken *)
}.

Inductive step : Type :=
  | Store (seq : Z) (w : waiter Receiver)    (* AddWaiter: self.m.Store *)
  | LoadAndDelete (seq : Z)                  (* RemoveWaiter: self.m.LoadAndDelete *)
  | Reap (seq : Z)                           (* reapExpired: self.m.Delete of a key it visited *)
  | Count (i : nat).                         (* atomic.AddInt32 of a pending change *)

Definition exec (st : state) (s : step) : state :=
  match s with
  | Store seq w =>
      mkState (<[seq := w]> (waiters st)) (counter st) (1 :: pending st)
        (overwritten st + (if decide (is_Some (waiters st !! seq)) then 1 else 0)) (raced st)
  | LoadAndDelete seq =>
      if decide (is_Some (waiters st !! seq))
      then mkState (delete seq (waiters st)) (counter st) (-1 :: pending st) (overwritten st) (raced st)
      else st
  | Reap seq =>
      mkState (delete seq (waiters st)) (counter st) (-1 :: pending st) (overwritten st)
        (raced st + (if decide (is_Some (waiters st !! seq)) then 0 else 1))
  | Count i =>
      match pending st !! i with
      | Some d => mkState (waiters st) (counter st + d) (delete i (pending st)) (overwritten st) (raced st)
      | None => st
      end
  end.

Definition sum (l : list Z) : Z := foldr Z.add 0 l.

Definition balanced (st : state) : Prop :=
  counter st + sum (pending st) = Z.of_nat (base.size (waiters st)) + overwritten st - raced st.

Lemma sum_delete l i d : l !! i = Some d -> sum l = d + sum (delete i l).
Proof using Type.
  revert i. induction l as [|x l IH]; intros [|i] Hi; try done; simpl in *; [by injection Hi as ->|].
  rewrite (IH _ Hi). lia.
Qed.

Lemma exec_balanced st s : balanced st -> balanced (exec st s).
Proof using Type.
  unfold balanced, sum. intros H. destruct s as [seq w|seq|seq|i]; cbn [exec].
  - cbn. rewrite map_size_insert. case_decide as E.
    + destruct E as [w' E]. rewrite E. unfold id in *. lia.
    + apply eq_None_not_Some in E. rewrite E. unfold id in *. lia.
  - case_decide as E; [|done]. cbn. rewrite map_size_delete. destruct E as [w' E]. rewrite E.
    pose proof (map_size_ne_0_lookup_2 (waiters st) seq) as Hs. rewrite E in Hs. 
    specialize (Hs ltac:(done)). lia.
  - cbn. rewrite map_size_delete. case_decide as E.
    + destruct E as [w' E]. rewrite E. pose proof (map_size_ne_0_lookup_2 (waiters st) seq) as Hs.
      rewrite E in Hs. specialize (Hs ltac:(done)). lia.
    + apply eq_None_not_Some in E. rewrite E. unfold id in *. lia.
  - destruct (pending st !! i) as [d|] eqn:E; [|done]. cbn. pose proof (sum_delete _ _ _ E) as Hd. unfold sum in Hd. lia.
Qed.

End Steps.
End Steps.

(** ** Properties *)

(** Replies find their waiters.  Run one after the other, the operations
    keep the size equal to the number of waiters as long as every waiter is
    registered under a new sequence; a registered receiver is returned for its
    sequence by the next removal and by that one only; no other waiter is
    touched; reaping removes exactly the waiters whose time has passed. *)
Theorem waiters_correct {Receiver} (rng : gmap Z (waiter Receiver) -> list (Z * waiter Receiver))
    `{!RangeOrder rng} (self : waiterMap Receiver) (r : Receiver) (deadline : option Z)
    (seq now : Z) :
  exact self -> Z.of_nat (base.size (m self)) < MaxInt32 -> m self !! seq = None ->
  let added := AddWaiter (mkWaiting (Some r) deadline seq) now self in
  let '(found, removed) := RemoveWaiter seq added in
  exact added /\ found = Some r /\ removed = self /\ (RemoveWaiter seq removed).1 = None /\
  (forall k, k ≠ seq -> m added !! k = m self !! k) /\
  (forall k, exact (RemoveWaiter k self).2) /\ exact (clear self) /\ exact (reapExpired rng now self) /\
  (forall k, m (reapExpired rng now self) !! k =
     match m self !! k with
     | Some w => if decide (ttlMs w < now) then None else Some w
     | None => None
     end).
Proof.
  intros Hex Hsz Hseq added. unfold exact in *.
  assert (base.size (m added) = S (base.size (m self))) as Hsa.
  { unfold added, AddWaiter. cbn. by rewrite map_size_insert, Hseq. }
  unfold RemoveWaiter. assert (m added !! seq = Some (mkWaiter r
    (match deadline with Some d => d | None => now + 30000 end))) as Ea
    by (unfold added, AddWaiter; cbn; by rewrite lookup_insert_eq).
  rewrite Ea. cbn [fst snd].
  assert (size added = size self + 1) as Hs1.
  { unfold added, AddWaiter. cbn [size AddInt32 ReplyReceiver]. apply int32_exact. lia. }
  split_and!.
  - rewrite Hs1, Hex, Hsa. lia.
  - done.
  - destruct self as [ms sz]. unfold AddInt32. cbn [m size] in *. f_equal.
    + unfold added, AddWaiter. cbn. rewrite delete_insert_eq. by rewrite delete_id.
    + rewrite Hs1. rewrite int32_exact; lia.
  - cbn [m AddInt32]. by rewrite lookup_delete_eq.
  - intros k Hk. unfold added, AddWaiter. cbn. by rewrite lookup_insert_ne.
  - intros k. destruct (m self !! k) as [w|] eqn:E; [|done]. cbn [snd m size AddInt32].
    pose proof (map_size_ne_0_lookup_2 (m self) k ltac:(by rewrite E)).
    rewrite map_size_delete, E. rewrite int32_exact; lia.
  - done.
  - pose proof (reapExpired_map rng now self) as Em. unfold reapExpired in *.
    pose proof (reap_loop_count now (rng (m self)) (m self, 0)) as Hc.
    destruct (reap_loop _ _ _) as [m' n]. cbn [m size AddInt32 snd] in *. subst n. rewrite Em, Z.add_0_l.
    rewrite (filter_size _ rng).
    assert (base.size (m self) = base.size (filter (expired now) (m self)) +
      base.size (filter (fun kv => ¬ expired now kv) (m self)))%nat as Hsplit.
    { rewrite <- map_size_disj_union by apply map_disjoint_filter_complement.
      by rewrite map_filter_union_complement. }
    rewrite (int32_exact (Z.of_nat _)) by lia. rewrite int32_exact; lia.
  - intros k. rewrite reapExpired_map by done. destruct (m self !! k) as [w|] eqn:E.
    + case_decide as Ht.
      * apply map_lookup_filter_None. right. intros w' Hw' Hn. apply Hn. unfold expired. cbn. congruence.
      * apply map_lookup_filter_Some. by split.
    + apply map_lookup_filter_None. by left.
Qed.

Lemma waiters_correct_witness :
  let w := AddWaiter (mkWaiting (Some 7) (Some 50) 3) 0 (clear (mkWaiterMap ∅ 0)) in
  exact w /\ RemoveWaiter 4 (AddWaiter (mkWaiting (Some 9) None 4) 100 w) = (Some 9, w) /\
  m (reapExpired (fun m => map_to_list m) 100 w) !! 3 = None.
Proof.
  intros w. destruct (waiters_correct (fun m => map_to_list m) w 9 None 4 100)
    as (_ & H1 & H2 & _ & _ & _ & _ & _ & H3).
  - reflexivity.
  - reflexivity.
  - reflexivity.
  - split; [reflexivity|]. split.
    + rewrite <- H2 at 2. reflexivity.
    + by rewrite H3.
Defined.

(** The waiter count under concurrency.  After any interleaving of the map
    accesses and the counter changes of registering, taking and reaping
    waiters, the counter plus the changes still pending is the number of
    waiters, plus the registrations that overwrote one with the same sequence,
    minus the waiters that were taken between being visited and being deleted
    by a reap: these two are the only ways the count goes wrong. *)
Theorem waiter_count_drift {Receiver} (steps : list (@Steps.step Receiver)) :
  let st := foldl Steps.exec (Steps.mkState ∅ 0 [] 0 0) steps in
  Steps.counter st + Steps.sum (Steps.pending st) =
    Z.of_nat (base.size (Steps.waiters st)) + Steps.overwritten st - Steps.raced st /\
  (Steps.pending st = [] -> Steps.overwritten st = Steps.raced st ->
   Steps.counter st = Z.of_nat (base.size (Steps.waiters st))).
Proof.
  intros st. assert (Steps.balanced st) as H.
  { unfold st. induction steps as [|s steps IH] using rev_ind; [done|].
    rewrite foldl_snoc. by apply Steps.exec_balanced. }
  split; [exact H|]. unfold Steps.balanced in H. intros Hp Ho. rewrite Hp, Ho in H. cbn in H. lia.
Qed.
