(* ===== verification/Senders.v ===== *)
(** * Senders, queues and message sources (src/senders.go, src/message_source.go)

    A sender puts sendables with fresh sequence numbers into a buffered queue,
    and a message source takes them out for an underlay.  A [select] may take
    any of its ready cases: the choice is an argument of the operation, and
    which choices are ready is a predicate.  A queue is a buffered Go channel
    (capacity at least one).

    A call of [Send] or [TrySend] looks at the context, draws a number and then
    waits in its select: these are three steps, between which other calls run.

    Theorems: what the calls report as queued is delivered once and in the order
    of the selects, with a sequence number of its own, and queues never exceed
    their capacity; what each path of [Send] and [TrySend] returns; a failed write is requeued in
    the first queue with room; expired contexts are reported as timeouts. *)

From S2P Require Import Prelude.

(** ** Data *)

(** A sendable, with the sequence number of its message. *)
Record Sendable : Type := mkSendable { name : nat; sequence : Z }.

Definition SetSequence (seq : Z) (s : Sendable) : Sendable := mkSendable (name s) seq.

Record MessageQueue : Type := mkQueue { C : list Sendable; cap : nat }.

Definition has_room (q : MessageQueue) : Prop := (length (C q) < cap q)%nat.

#[global] Instance has_room_dec q : Decision (has_room q).
Proof. unfold has_room. apply _. Defined.

Definition push (s : Sendable) (q : MessageQueue) : MessageQueue := mkQueue (C q ++ [s]) (cap q).

(** A single-queue sender with its context: how many sequence numbers it has
    given out and whether its close channel is closed. *)
Record singleChSender : Type := mkSender {
  msgC : MessageQueue;
  given : nat;
  closeNotified : bool
}.

(** The ready case a select takes; [Done] carries what the context's [Err]
    gives then. *)
Inductive choice : Type := Done (err : option error) | Closed | Queued.

Definition ready (ctxDone : bool) (c : choice) (st : singleChSender) : Prop :=
  match c with
  | Done _ => ctxDone = true
  | Closed => closeNotified st = true
  | Queued => has_room (msgC st)
  end.

#[global] Instance ready_dec ctxDone c st : Decision (ready ctxDone c st).
Proof. destruct c; simpl; apply _. Defined.

(** [default] is taken when no case is ready. *)
Definition none_ready (ctxDone : bool) (st : singleChSender) : Prop :=
  ctxDone = false /\ closeNotified st = false /\ ¬ has_room (msgC st).

#[global] Instance none_ready_dec ctxDone st : Decision (none_ready ctxDone st).
Proof. unfold none_ready. apply _. Defined.

(** ** Operations *)

Definition queue_text : gostring := lit "timeout waiting to put message in send queue".

Definition queueContextErr (err : error) : error :=
  if errors_Is err context_DeadlineExceeded || errors_Is err context_Canceled
  then TimeoutError (errors_Wrap err queue_text) else err.

(** [IsTimeout] (src/channel.go) *)
Definition IsTimeout (err : error) : bool :=
  bool_decide (is_Some (errors_As (fun e =>
    match e with TimeoutError _ => Some tt | _ => None end) err)).

Section Senders.
(** The values of the sequence [NextSequence] draws from. *)
Context (next : nat -> Z).

Definition NextSequence (st : singleChSender) : Z * singleChSender :=
  (int32 (next (given st)), mkSender (msgC st) (S (given st)) (closeNotified st)).

(** What a taken case of the select returns; [true] once queued. *)
Definition selected (c : choice) (s : Sendable) : ST singleChSender bool := fun st =>
  match c with
  | Done (Some err) => (Err (TimeoutError (errors_Wrap err queue_text)), st)
  | Done None => (Err (TimeoutError (errors_New queue_text)), st)
  | Closed => (Err ClosedError, st)
  | Queued => (Ret true, mkSender (push s (msgC st)) (given st) (closeNotified st))
  end.

(** The three steps of a send: the context is looked at ([ctxErr] is its error
    then), a sequence number is drawn and put on the sendable, and the select
    waits for a case to become ready. *)
Definition check_context (ctxErr : option error) : ST singleChSender unit := fun st =>
  match ctxErr with
  | Some err => (Err (queueContextErr err), st)
  | None => (Ret tt, st)
  end.

Definition draw_number (s : Sendable) : ST singleChSender Sendable := fun st =>
  let '(seq, st) := NextSequence st in (Ret (SetSequence seq s), st).

(** [None] as a choice is the default case of [TrySend]'s select. *)
Definition try_select (c : option choice) (s : Sendable) : ST singleChSender bool :=
  match c with
  | Some c => selected c s
  | None => mret false
  end.

Definition send_select (c : choice) (s : Sendable) : ST singleChSender unit :=
  _ ← selected c s; mret tt.

(** The calls, when nothing comes between their steps. *)
Definition TrySend (ctxErr : option error) (c : option choice) (s : Sendable) : ST singleChSender bool :=
  _ ← check_context ctxErr; s ← draw_number s; try_select c s.

Definition Send (ctxErr : option error) (c : choice) (s : Sendable) : ST singleChSender unit :=
  _ ← check_context ctxErr; s ← draw_number s; send_select c s.

End Senders.

(** [RetryToQueues(queues...)]: the queues after a sendable was offered. *)
Fixpoint RetryToQueues (queues : list MessageQueue) (sendable : Sendable)
    : bool * list MessageQueue :=
  match queues with
  | [] => (false, [])
  | q :: rest =>
      if decide (has_room q) then (true, push sendable q :: rest)
      else let '(ok, rest') := RetryToQueues rest sendable in (ok, q :: rest')
  end.

(** The ready case a message source takes. *)
Inductive source_choice : Type := FromQueue (i : nat) | ChannelClosed | UnderlayClosed.

Definition source_ready (closed notified : bool) (qs : list MessageQueue) (c : source_choice) : Prop :=
  match c with
  | FromQueue i => exists q s rest, qs !! i = Some q /\ C q = s :: rest
  | ChannelClosed => closed = true
  | UnderlayClosed => notified = true
  end.

(** The select of a message source over the given queues. *)
Definition message_source (c : source_choice) : ST (list MessageQueue) Sendable := fun qs =>
  match c with
  | FromQueue i =>
      match qs !! i with
      | Some (mkQueue (s :: rest) n) => (Ret s, <[i := mkQueue rest n]> qs)
      | _ => (OutOfFuel, qs)   (* nothing to receive: the case is not ready *)
      end
  | ChannelClosed | UnderlayClosed => (Err io_EOF, qs)
  end.

Definition MakeSingleQueueMessageSource (c : source_choice) (q1 : MessageQueue) :=
  message_source c [q1].
Definition MakeTwoQueueMessageSource (c : source_choice) (q1 q2 : MessageQueue) :=
  message_source c [q1; q2].
Definition MakeThreeQueueMessageSource (c : source_choice) (q1 q2 q3 : MessageQueue) :=
  message_source c [q1; q2; q3].

(** [SimpleMessageSourceProvider], over any type of sources. *)
Record SimpleMessageSourceProvider (Source : Type) : Type := mkProvider {
  defaultSource : Source;
  sources : gmap gostring Source
}.
Arguments mkProvider {Source}.
Arguments defaultSource {Source}.
Arguments sources {Source}.

Definition NewSimpleMessageSourceProvider {Source} (d : Source) : SimpleMessageSourceProvider Source :=
  mkProvider d ∅.

Definition AddSource {Source} (underlayType : gostring) (source : Source)
    (p : SimpleMessageSourceProvider Source) : SimpleMessageSourceProvider Source :=
  mkProvider (defaultSource p) (<[underlayType := source]> (sources p)).

Definition GetMessageSource {Source} (p : SimpleMessageSourceProvider Source) (underlayType : gostring)
    : Source :=
  match sources p !! underlayType with
  | Some source => source
  | None => defaultSource p
  end.

(** ** The queue over time

    Calls of [Send] and [TrySend] from any number of goroutines, step by step. *)

(** Which of the two a call is. *)
Inductive kind : Type := KSend | KTrySend.

(** A call in progress: its context was found to be fine, or its sendable has
    its number and the select waits. *)
Inductive call : Type := Checked (k : kind) (s : Sendable) | Numbered (k : kind) (s : Sendable).

Inductive event : Type :=
  | EBegin (k : kind) (ctxErr : option error) (s : Sendable)
  | EDraw (i : nat)
  | ESelect (i : nat) (ctxDone : bool) (c : option choice)
  | EReceive
  | EClose.

(** The sender, its calls in progress, what the calls that have returned
    reported of their sendables (a nil error of [Send] is [Ret true]), and what
    has been received from the queue. *)
Record system : Type := mkSystem {
  sender : singleChSender;
  calls : list call;
  reports : list (Sendable * outcome bool);
  received : list Sendable
}.

(** The case taken is ready, or none is, for the default; only [TrySend] has
    one. *)
Definition enabled (k : kind) (ctxDone : bool) (c : option choice) (st : singleChSender) : Prop :=
  match k, c with
  | _, Some c => ready ctxDone c st
  | KTrySend, None => none_ready ctxDone st
  | KSend, None => False
  end.

#[global] Instance enabled_dec k ctxDone c st : Decision (enabled k ctxDone c st).
Proof. destruct k, c; simpl; apply _. Defined.

(** The select of a call, with what the call reports. *)
Definition call_select (k : kind) (c : option choice) (s : Sendable) : ST singleChSender bool :=
  match k, c with
  | KTrySend, _ => try_select c s
  | KSend, Some c => _ ← send_select c s; mret true
  | KSend, None => fun st => (OutOfFuel, st)      (* it waits *)
  end.

(** One event; [None] if it cannot happen. *)
Definition exec (next : nat -> Z) (sys : system) (e : event) : option system :=
  let st := sender sys in
  match e with
  | EBegin k ctxErr s =>
      match check_context ctxErr st with
      | (Ret _, st') => Some (mkSystem st' (calls sys ++ [Checked k s]) (reports sys) (received sys))
      | (Err err, st') => Some (mkSystem st' (calls sys) (reports sys ++ [(s, Err err)]) (received sys))
      | _ => None
      end
  | EDraw i =>
      match calls sys !! i with
      | Some (Checked k s) =>
          match draw_number next s st with
          | (Ret s', st') => Some (mkSystem st' (<[i := Numbered k s']> (calls sys)) (reports sys) (received sys))
          | _ => None
          end
      | _ => None
      end
  | ESelect i ctxDone c =>
      match calls sys !! i with
      | Some (Numbered k s) =>
          if decide (enabled k ctxDone c st)
          then
            let '(r, st') := call_select k c s st in
            Some (mkSystem st' (delete i (calls sys)) (reports sys ++ [(s, r)]) (received sys))
          else None
      | _ => None
      end
  | EReceive =>
      match MakeSingleQueueMessageSource (FromQueue 0) (msgC st) with
      | (Ret s, [q]) =>
          Some (mkSystem (mkSender q (given st) (closeNotified st)) (calls sys) (reports sys) (received sys ++ [s]))
      | _ => None
      end
  | EClose => Some (mkSystem (mkSender (msgC st) (given st) true) (calls sys) (reports sys) (received sys))
  end.

Fixpoint run_events (next : nat -> Z) (es : list event) (sys : system) : option system :=
  match es with
  | [] => Some sys
  | e :: es' => sys' ← exec next sys e; run_events next es' sys'
  end.

Definition initial (n : nat) : system := mkSystem (mkSender (mkQueue [] n) 0 false) [] [] [].

(** The sendables whose calls reported that they were queued. *)
Definition accepted (sys : system) : list Sendable :=
  omap (fun '(s, r) => match r with Ret true => Some s | _ => None end) (reports sys).

(** The sendables that have a number and are not queued yet. *)
Definition waiting (sys : system) : list Sendable :=
  omap (fun k => match k with Numbered _ s => Some s | Checked _ _ => None end) (calls sys).

(** ** Lemmas *)

(** What a select of a call reports and does. *)
Inductive select_effect (ctxDone : bool) (s : Sendable) (st : singleChSender) : outcome bool -> singleChSender -> Prop :=
  | select_done e : ctxDone = true -> IsTimeout e = true -> select_effect ctxDone s st (Err e) st
  | select_closed : closeNotified st = true -> select_effect ctxDone s st (Err ClosedError) st
  | select_full : none_ready ctxDone st -> select_effect ctxDone s st (Ret false) st
  | select_queued : has_room (msgC st) ->
      select_effect ctxDone s st (Ret true) (mkSender (push s (msgC st)) (given st) (closeNotified st)).

Lemma call_select_effect k ctxDone c s st : enabled k ctxDone c st ->
  select_effect ctxDone s st (call_select k c s st).1 (call_select k c s st).2.
Proof. destruct k, c as [[[e|]| |]|]; simpl; intros H; try done; by constructor. Qed.

Lemma call_select_full k ctxDone c s st : enabled k ctxDone c st ->
  (call_select k c s st).1 = Ret false -> k = KTrySend.
Proof. by destruct k, c as [[[e|]| |]|]. Qed.

(** The numbers drawn so far. *)
Definition drawn (next : nat -> Z) (st : singleChSender) : list Z :=
  (fun k => int32 (next k)) <$> seq 0 (given st).

(** The queue's history: what reported success was received or is queued, and
    the numbers of these and of the calls in progress come from different draws. *)
Record sys_inv (next : nat -> Z) (sys : system) : Prop := {
  inv_fifo : received sys ++ C (msgC (sender sys)) = accepted sys;
  inv_cap : (length (C (msgC (sender sys))) <= cap (msgC (sender sys)))%nat;
  inv_seqs : sequence <$> (waiting sys ++ accepted sys) ⊆+ drawn next (sender sys)
}.

Lemma omap_insert_none {A B} (f : A -> option B) (l : list A) i x y b :
  l !! i = Some x -> f x = None -> f y = Some b -> omap f (<[i := y]> l) ≡ₚ b :: omap f l.
Proof.
  intros Hi Hx Hy. rewrite <- (take_drop_middle l i x Hi) at 2.
  rewrite (insert_take_drop l i y) by (by eapply lookup_lt_Some). rewrite !omap_app. cbn. rewrite Hx, Hy. cbn.
  by rewrite Permutation_middle.
Qed.

Lemma omap_delete_some {A B} (f : A -> option B) (l : list A) i x b :
  l !! i = Some x -> f x = Some b -> omap f l ≡ₚ b :: omap f (delete i l).
Proof.
  intros Hi Hx. rewrite (delete_Permutation l i x Hi) at 1. cbn. by rewrite Hx.
Qed.

Lemma drawn_S next st seq : seq = int32 (next (given st)) ->
  drawn next (NextSequence next st).2 = drawn next st ++ [seq].
Proof. intros ->. unfold drawn. cbn [NextSequence snd given]. by rewrite seq_S, fmap_app. Qed.

(** The steps of a call keep the history. *)
Lemma send_begin_inv next sys k ctxErr s sys' :
  sys_inv next sys -> exec next sys (EBegin k ctxErr s) = Some sys' -> sys_inv next sys'.
Proof.
  intros [Hf Hc Hs]. destruct ctxErr; cbn; intros [= <-]; (split; [|done|]); unfold accepted, waiting in *; cbn;
    rewrite ?omap_app; cbn; by rewrite ?app_nil_r.
Qed.

Lemma draw_inv next sys i sys' : sys_inv next sys -> exec next sys (EDraw i) = Some sys' -> sys_inv next sys'.
Proof.
  intros [Hf Hc Hs]. cbn [exec]. destruct (calls sys !! i) as [[k s|k s]|] eqn:Ei; try done. cbn. intros [= <-].
  split; [done | done|]. unfold waiting in *. cbn [calls sender].
  set (seq := int32 (next (given (sender sys)))) in *.
  rewrite (omap_insert_none _ _ i (Checked k s) _ (SetSequence seq s)) by done.
  change (mkSender _ _ _) with (NextSequence next (sender sys)).2.
  rewrite (drawn_S next (sender sys) seq eq_refl). cbn.
  rewrite (Permutation_app_comm (drawn _ _)). by apply submseteq_skip.
Qed.

Lemma select_inv next sys i ctxDone c sys' :
  sys_inv next sys -> exec next sys (ESelect i ctxDone c) = Some sys' -> sys_inv next sys'.
Proof.
  intros [Hf Hc Hs]. cbn [exec]. destruct (calls sys !! i) as [[k s|k s]|] eqn:Ei; try done.
  case_decide as He; [|done]. pose proof (call_select_effect k ctxDone c s (sender sys) He) as Heff.
  destruct (call_select k c s (sender sys)) as [r st']. cbn [fst snd] in Heff. intros [= <-].
  set (f := fun k => match k with Numbered _ s => Some s | Checked _ _ => None end).
  assert (waiting sys ≡ₚ s :: omap f (delete i (calls sys))) as Ew by (by eapply (omap_delete_some f)).
  rewrite Ew in Hs. cbn in Hs.
  assert (sequence <$> omap f (delete i (calls sys)) ++ accepted sys ⊆+ drawn next (sender sys)) as Hs'.
  { etrans; [|exact Hs]. by apply submseteq_cons. }
  assert (accepted (mkSystem st' (delete i (calls sys)) (reports sys ++ [(s, r)]) (received sys)) =
    accepted sys ++ (match r with Ret true => [s] | _ => [] end)) as Ea.
  { unfold accepted. cbn [reports]. rewrite omap_app. f_equal. by destruct r as [[]| | |]. }
  split; rewrite ?Ea; destruct Heff as [| | |Hroom]; cbn [sender received msgC]; rewrite ?app_nil_r; try done.
  - unfold push. cbn. by rewrite app_assoc, Hf.
  - unfold push, has_room in *. cbn. rewrite length_app. simpl. lia.
  - unfold waiting. cbn [calls]. fold f. rewrite app_assoc, fmap_app. cbn.
    by rewrite Permutation_app_comm.
Qed.

Lemma exec_event_inv next sys e sys' : sys_inv next sys -> exec next sys e = Some sys' -> sys_inv next sys'.
Proof.
  destruct e as [k ctxErr s|i|i ctxDone c| |]; [apply send_begin_inv | apply draw_inv | apply select_inv |..];
    intros [Hf Hc Hs]; cbn [exec].
  - unfold MakeSingleQueueMessageSource, message_source. cbn.
    destruct (msgC (sender sys)) as [[|s rest] n] eqn:Eq; [done|]. intros [= <-]. cbn in *.
    split; cbn; [by rewrite <- app_assoc | lia | done].
  - intros [= <-]. by split.
Qed.

Lemma run_events_inv next es sys sys' :
  sys_inv next sys -> run_events next es sys = Some sys' -> sys_inv next sys'.
Proof.
  revert sys. induction es as [|e es IH]; intros sys H; cbn; [by intros [= <-]|].
  destruct (exec next sys e) as [sys1|] eqn:E; [|done]. cbn. apply IH. by eapply exec_event_inv.
Qed.

Lemma initial_inv next n : sys_inv next (initial n).
Proof. split; cbn; [done | lia | done]. Qed.

(** Numbers are distinct while the sequence has not repeated. *)
Definition no_repeat (next : nat -> Z) (n : nat) : Prop :=
  forall i j, (i < j)%nat -> (j < n)%nat -> int32 (next i) ≠ int32 (next j).

Lemma inv_distinct next sys : sys_inv next sys -> no_repeat next (given (sender sys)) ->
  NoDup (sequence <$> (waiting sys ++ accepted sys)).
Proof.
  intros Hi Hn. destruct (submseteq_Permutation _ _ (inv_seqs _ _ Hi)) as [l Hl].
  assert (NoDup (drawn next (sender sys))) as Hnd.
  { apply NoDup_fmap_2_strong; [|apply NoDup_seq].
    intros x y Hx Hy E. apply elem_of_seq in Hx, Hy.
    destruct (Nat.lt_trichotomy x y) as [H|[H|H]]; [|done|]; exfalso; [eapply (Hn x y) | eapply (Hn y x)]; eauto; lia. }
  rewrite Hl in Hnd. by apply NoDup_app in Hnd as [? _].
Qed.

(** A call that nothing comes between takes its steps to the result of [TrySend]
    or [Send]. *)
Definition call_alone (next : nat -> Z) (k : kind) (c : option choice) (s : Sendable) : ST singleChSender bool :=
  match k, c with
  | KTrySend, _ => TrySend next None c s
  | KSend, Some c => _ ← Send next None c s; mret true
  | KSend, None => fun st => (OutOfFuel, st)
  end.

Lemma steps_alone next k ctxDone c s st l rs rv : enabled k ctxDone c st ->
  run_events next [EBegin k None s; EDraw (length l); ESelect (length l) ctxDone c] (mkSystem st l rs rv) =
  Some (mkSystem (call_alone next k c s st).2 l
          (rs ++ [(SetSequence (int32 (next (given st))) s, (call_alone next k c s st).1)]) rv).
Proof.
  intros He. cbn. rewrite lookup_app_r, Nat.sub_diag by done. cbn.
  rewrite insert_app_r_alt, Nat.sub_diag by done. cbn. rewrite lookup_app_r, Nat.sub_diag by done. cbn.
  rewrite decide_True by (destruct k, c as [[]|]; exact He). rewrite delete_middle, app_nil_r.
  by destruct k, c as [[[]| |]|].
Qed.

(** ** Properties *)

(** C33: the send queue.  Any number of goroutines call [Send] and [TrySend],
    and the steps of their calls (looking at the context, drawing a number, the
    select) interleave in any way with each other, with receives and with a
    close, whatever ready cases the selects take.  Then what was received
    followed by what is still queued is exactly what calls reported as queued
    (a nil error of [Send], [true] of [TrySend]), each once and in the order of
    the selects; a call that reported anything else left nothing behind; the
    queue never exceeds its capacity; and while the sequence has not repeated,
    no two sendables that are waiting or queued have the same number.  The
    numbers need not be in order: a call may draw first and queue second. *)
Theorem queue_fifo (next : nat -> Z) (n : nat) (es : list event) (sys : system) :
  run_events next es (initial n) = Some sys ->
  no_repeat next (given (sender sys)) ->
  received sys ++ C (msgC (sender sys)) = accepted sys /\
  (length (C (msgC (sender sys))) <= cap (msgC (sender sys)))%nat /\
  NoDup (sequence <$> (waiting sys ++ accepted sys)).
Proof.
  intros Hrun Hinj. pose proof (run_events_inv _ _ _ _ (initial_inv next n) Hrun) as Hi.
  split; [apply Hi|]. split; [apply Hi|]. by apply (inv_distinct next).
Qed.

(** Two calls whose messages are queued in the other order than they drew their
    numbers, a third that finds the queue full. *)
Lemma queue_fifo_witness :
  let s := mkSendable 1 0 in let s' := mkSendable 2 0 in
  let es := [EBegin KSend None s; EBegin KTrySend None s'; EDraw 0; EDraw 1; ESelect 1 false (Some Queued);
             ESelect 0 false (Some Queued); EBegin KTrySend None s; EDraw 0; ESelect 0 false None; EReceive] in
  exists sys, run_events Z.of_nat es (initial 2) = Some sys /\
  received sys = [mkSendable 2 1] /\ C (msgC (sender sys)) = [mkSendable 1 0] /\
  reports sys = [(mkSendable 2 1, Ret true); (mkSendable 1 0, Ret true); (mkSendable 1 2, Ret false)] /\
  NoDup (sequence <$> (waiting sys ++ accepted sys)).
Proof.
  intros s s' es. eexists. split; [vm_compute; reflexivity|]. split; [reflexivity|]. split; [reflexivity|].
  split; [reflexivity|].
  refine (proj2 (proj2 (queue_fifo Z.of_nat 2 es _ _ _))); [vm_compute; reflexivity|].
  intros i j Hij Hj. cbn in Hj. unfold to_sint. intros E.
  rewrite !Z.mod_small in E by lia. lia.
Defined.

(** Requeueing after a failed write.  [RetryToQueues] accepts the sendable
    exactly when some queue has room, puts it at the end of the first such
    queue and leaves every other queue alone. *)
Theorem RetryToQueues_first (queues : list MessageQueue) (s : Sendable) :
  let '(ok, queues') := RetryToQueues queues s in
  (ok = true <-> Exists has_room queues) /\
  (ok = false -> queues' = queues) /\
  (ok = true -> exists i q, queues !! i = Some q /\ has_room q /\
     (forall j q', (j < i)%nat -> queues !! j = Some q' -> ¬ has_room q') /\
     queues' = <[i := push s q]> queues).
Proof.
  induction queues as [|q rest IH]; cbn [RetryToQueues].
  - split; [split; [done | by inversion 1] | done].
  - case_decide as Hr.
    + split; [split; [by left | done]|]. split; [done|]. intros _. exists 0%nat, q.
      split_and!; [done | done | lia | done].
    + destruct (RetryToQueues rest s) as [ok rest']. destruct IH as (IH1 & IH2 & IH3). split_and!.
      * rewrite IH1. split; [by right | intros [?|?]%Exists_cons; done].
      * intros Hok. by rewrite IH2.
      * intros Hok. destruct (IH3 Hok) as (i & q' & Hi & Hq' & Hbefore & ->). exists (S i), q'.
        split_and!; [done | done | | done]. intros [|j] q'' Hj Eq; simpl in Eq; [by injection Eq as <-|].
        apply (Hbefore j); [lia | done].
Qed.

(** How a send fails.  A context that has ended before the call yields a
    timeout for a deadline or a cancellation (wrapped so that the cause is
    still found) and any other context error unchanged, without drawing a
    sequence number or touching the queue; a context that ends while waiting
    yields a timeout, a closed channel the closed error, and a full queue makes
    [TrySend] decline, none of them touching the queue. *)
Theorem send_failures (next : nat -> Z) (st : singleChSender) (s : Sendable) (err : error) :
  (forall c, TrySend next (Some err) c s st = (Err (queueContextErr err), st)) /\
  (forall c, Send next (Some err) c s st = (Err (queueContextErr err), st)) /\
  IsTimeout (queueContextErr context_DeadlineExceeded) = true /\
  IsTimeout (queueContextErr context_Canceled) = true /\
  errors_Is (queueContextErr context_DeadlineExceeded) context_DeadlineExceeded = true /\
  (errors_Is err context_DeadlineExceeded = false -> errors_Is err context_Canceled = false ->
   queueContextErr err = err) /\
  (forall ce, exists e, (Send next None (Done ce) s st).1 = Err e /\ IsTimeout e = true /\
     (TrySend next None (Some (Done ce)) s st).1 = Err e /\
     (forall c, ce = Some c -> errors_Is c c = true -> errors_Is e c = true)) /\
  (Send next None Closed s st).1 = Err ClosedError /\
  (TrySend next None (Some Closed) s st).1 = Err ClosedError /\
  (TrySend next None None s st).1 = Ret false /\
  (forall c, c ≠ Some Queued -> msgC (TrySend next None c s st).2 = msgC st) /\
  (forall c, c ≠ Queued -> msgC (Send next None c s st).2 = msgC st).
Proof.
  split_and!; try done.
  - intros H1 H2. unfold queueContextErr. by rewrite H1, H2.
  - intros [ce|]; (eexists; split; [reflexivity|]; split; [done|]; split; [done|]); [|done].
    intros c [= ->] Hc. unfold errors_Is in *. apply bool_decide_eq_true in Hc.
    apply bool_decide_eq_true. cbn. destruct (decide (TimeoutError _ = c)); [done|].
    destruct (decide (errors_Wrap _ _ = c)); done.
  - intros [[[e|]| |]|]; simpl; try done. 
  - intros [[e|]| |]; simpl; done.
Qed.
