(* ===== verification/ChannelImpl.v ===== *)
(** * The channel (src/impl.go, src/bind.go)

    The state of [channelImpl] and its operations: construction, binding of
    handlers, accepting and closing underlays, closing the channel, receiving,
    sending, the receive and send loops of an underlay, and the constraint loop
    that dials missing underlays.  Callbacks into the application, notifications
    and goroutine starts are recorded in an event log, in order.  What the outside decides (a write that fails, a
    dial's result, the clock) is an argument.

    Theorems: whom a channel accepts and that everything it does not keep is
    closed; closing is done once and is complete; a received message is
    delivered to exactly one place; what every path of a send does to waiters
    and notifications; the loops deliver and write in order and end by closing
    their underlay; the constraint check closes exactly when a minimum is
    missed, and the constraint loop, when its dials succeed, ends with all
    desires met. *)

From S2P Require Import Prelude Headers Underlays Waiters.

(** ** Data *)

(** [UnderlayConstraint] (src/channel.go) *)
Record UnderlayConstraint : Type := mkConstraint { Desired : Z; Min : Z }.

Definition OneUnderlay : UnderlayConstraint := mkConstraint 1 1.
Definition OptionalUnderlays (desired : Z) : UnderlayConstraint := mkConstraint desired 0.

(** Underlay event listeners: the channel itself, and those of the application. *)
Inductive listener : Type := Self | App (n : nat).

#[global] Instance listener_eq_dec : EqDecision listener.
Proof. solve_decision. Defined.

(** Reply receivers and application handlers are known by a number. *)
Abbreviation receiver := nat.

(** How a receive handler was registered (src/bind.go): called with the
    channel, with the message only, or with the typed senders. *)
Inductive handler : Type := Plain (n : nat) | MsgOnly (n : nat) | Typed (n : nat).

(** What a channel does to its surroundings. *)
Inductive event : Type :=
  | EvNotified (n : notification listener)
  | EvStarted (u : Underlay)                         (* rxer and txer *)
  | EvApply                                          (* go self.applyConstraints() *)
  | EvPeekClose (n : nat)
  | EvHandleClose (n : nat)
  | EvPeekRx (n : nat) (m : Message)
  | EvPeekTx (n : nat) (m : Message)
  | EvAcceptReply (r : receiver) (m : Message)
  | EvReceive (h : handler) (m : Message)
  | EvDropped (m : Message)
  | EvHandleError (n : nat) (e : error)
  | EvNotifyErr (e : error)
  | EvNotifyBeforeWrite
  | EvNotifyAfterWrite
  | EvWrite (m : Message)                            (* handed to the underlay *)
  | EvPolicyClosed (t : gostring) (lifetime : Z).    (* dialPolicy.UnderlayClosed *)

(** What is fixed when a channel is created. *)
Record Config : Type := mkConfig {
  channelId : gostring;
  ownerId : gostring;
  groupSecret : bytes;
  hasDialPolicy : bool;
  constraints : gmap gostring UnderlayConstraint;
  minTotalUnderlays : Z;
  validUnderlayTypes : list gostring
}.

(** The handlers a bind handler installs. *)
Record Handlers : Type := mkHandlers {
  receiveHandlers : gmap Z handler;
  peekHandlers : list nat;
  transformRx : list (Message -> Message);
  transformTx : list (Message -> Message);
  errorHandlers : list nat;
  closeHandlers : list nat
}.

Definition no_handlers : Handlers := mkHandlers ∅ [] [] [] [] [].

Record channelImpl : Type := mkChannel {
  cfg : Config;
  handlers : Handlers;
  isClosed : bool;
  notifyCloses : nat;                 (* how often [closeNotify] was closed *)
  fallbackUnderlay : Underlay;
  underlays : Underlays listener;
  waiters : waiterMap receiver;
  replyCounter : Z;
  lastRead : Z;
  applyInProgress : bool;
  closedUnderlays : gset nat;         (* underlays on which [Close] was called *)
  log : list event
}.

(** *** Updates of one field *)

Definition set_closed (n : nat) (c : channelImpl) : channelImpl :=
  mkChannel (cfg c) (handlers c) true n (fallbackUnderlay c) (underlays c) (waiters c)
    (replyCounter c) (lastRead c) (applyInProgress c) (closedUnderlays c) (log c).
Definition set_fallback (u : Underlay) (c : channelImpl) : channelImpl :=
  mkChannel (cfg c) (handlers c) (isClosed c) (notifyCloses c) u (underlays c) (waiters c)
    (replyCounter c) (lastRead c) (applyInProgress c) (closedUnderlays c) (log c).
Definition set_underlays (us : Underlays listener) (c : channelImpl) : channelImpl :=
  mkChannel (cfg c) (handlers c) (isClosed c) (notifyCloses c) (fallbackUnderlay c) us (waiters c)
    (replyCounter c) (lastRead c) (applyInProgress c) (closedUnderlays c) (log c).
Definition set_waiters (w : waiterMap receiver) (c : channelImpl) : channelImpl :=
  mkChannel (cfg c) (handlers c) (isClosed c) (notifyCloses c) (fallbackUnderlay c) (underlays c) w
    (replyCounter c) (lastRead c) (applyInProgress c) (closedUnderlays c) (log c).
Definition set_replyCounter (n : Z) (c : channelImpl) : channelImpl :=
  mkChannel (cfg c) (handlers c) (isClosed c) (notifyCloses c) (fallbackUnderlay c) (underlays c)
    (waiters c) n (lastRead c) (applyInProgress c) (closedUnderlays c) (log c).
Definition set_lastRead (t : Z) (c : channelImpl) : channelImpl :=
  mkChannel (cfg c) (handlers c) (isClosed c) (notifyCloses c) (fallbackUnderlay c) (underlays c)
    (waiters c) (replyCounter c) t (applyInProgress c) (closedUnderlays c) (log c).
Definition set_applyInProgress (b : bool) (c : channelImpl) : channelImpl :=
  mkChannel (cfg c) (handlers c) (isClosed c) (notifyCloses c) (fallbackUnderlay c) (underlays c)
    (waiters c) (replyCounter c) (lastRead c) b (closedUnderlays c) (log c).
Definition set_closedUnderlays (s : gset nat) (c : channelImpl) : channelImpl :=
  mkChannel (cfg c) (handlers c) (isClosed c) (notifyCloses c) (fallbackUnderlay c) (underlays c)
    (waiters c) (replyCounter c) (lastRead c) (applyInProgress c) s (log c).
Definition emit (es : list event) (c : channelImpl) : channelImpl :=
  mkChannel (cfg c) (handlers c) (isClosed c) (notifyCloses c) (fallbackUnderlay c) (underlays c)
    (waiters c) (replyCounter c) (lastRead c) (applyInProgress c) (closedUnderlays c) (log c ++ es).

Definition set_handlers (f : Handlers -> Handlers) (c : channelImpl) : channelImpl :=
  mkChannel (cfg c) (f (handlers c)) (isClosed c) (notifyCloses c) (fallbackUnderlay c) (underlays c)
    (waiters c) (replyCounter c) (lastRead c) (applyInProgress c) (closedUnderlays c) (log c).

(** ** Binding (bind.go) *)

Definition set_receive (contentType : Z) (h : handler) : ST channelImpl unit :=
  modify (set_handlers (fun hs => mkHandlers (<[contentType := h]> (receiveHandlers hs)) (peekHandlers hs)
    (transformRx hs) (transformTx hs) (errorHandlers hs) (closeHandlers hs))).

Definition AddReceiveHandler (contentType : Z) (h : nat) := set_receive contentType (Plain h).
Definition AddReceiveHandlerF (contentType : Z) (h : nat) := set_receive contentType (Plain h).
Definition AddMsgReceiveHandler (contentType : Z) (h : nat) := set_receive contentType (MsgOnly h).
Definition AddMsgReceiveHandlerF (contentType : Z) (h : nat) := set_receive contentType (MsgOnly h).
Definition AddTypedReceiveHandler (contentType : Z) (h : nat) := set_receive contentType (Typed h).
Definition AddTypedReceiveHandlerF (contentType : Z) (h : nat) := set_receive contentType (Typed h).

Definition AddPeekHandler (h : nat) : ST channelImpl unit :=
  modify (set_handlers (fun hs => mkHandlers (receiveHandlers hs) (peekHandlers hs ++ [h])
    (transformRx hs) (transformTx hs) (errorHandlers hs) (closeHandlers hs))).
Definition AddTransformHandler (rx tx : Message -> Message) : ST channelImpl unit :=
  modify (set_handlers (fun hs => mkHandlers (receiveHandlers hs) (peekHandlers hs)
    (transformRx hs ++ [rx]) (transformTx hs ++ [tx]) (errorHandlers hs) (closeHandlers hs))).
Definition AddErrorHandler (h : nat) : ST channelImpl unit :=
  modify (set_handlers (fun hs => mkHandlers (receiveHandlers hs) (peekHandlers hs)
    (transformRx hs) (transformTx hs) (errorHandlers hs ++ [h]) (closeHandlers hs))).
Definition AddCloseHandler (h : nat) : ST channelImpl unit :=
  modify (set_handlers (fun hs => mkHandlers (receiveHandlers hs) (peekHandlers hs)
    (transformRx hs) (transformTx hs) (errorHandlers hs) (closeHandlers hs ++ [h]))).

(** A [BindHandler], [None] for nil. *)
Definition BindHandler : Type := option (ST channelImpl unit).

(** The loop of [BindHandlers]: nil handlers are skipped, and the first error
    ends it. *)
Fixpoint bind_all (hs : list BindHandler) : ST channelImpl unit :=
  match hs with
  | [] => mret tt
  | None :: hs' => bind_all hs'
  | Some h :: hs' => _ ← h; bind_all hs'
  end.

Definition BindHandlers (hs : list BindHandler) : BindHandler :=
  match hs with
  | [h] => h
  | _ => Some (bind_all hs)
  end.

(** [MakeBinder(handler)], applied to a channel. *)
Definition bind (handler : BindHandler) : ST channelImpl unit :=
  match handler with None => mret tt | Some h => h end.

(** ** Underlays *)

Definition isMultiUnderlayCapable (c : channelImpl) : bool :=
  hasDialPolicy (cfg c) || bool_decide (0 < Z.of_nat (base.size (constraints (cfg c)))) ||
  bool_decide (0 < minTotalUnderlays (cfg c)).

(** [underlay.Close()], which is idempotent; its error is at most logged where
    this is used. *)
Definition close_underlay (u : Underlay) (c : channelImpl) : channelImpl :=
  set_closedUnderlays ({[ptr u]} ∪ closedUnderlays c) c.

Definition getValidatedUnderlayType (c : channelImpl) (underlay : Underlay) : gostring :=
  let t := GetUnderlayType underlay in
  if decide (validUnderlayTypes (cfg c) = []) then t
  else if decide (t ∈ validUnderlayTypes (cfg c)) then t
  else DefaultUnderlayType.

Definition startMultiplex (u : Underlay) : ST channelImpl unit := modify (emit [EvStarted u]).

(** [self.underlays.Add(self, underlay)], with its notifications. *)
Definition add_underlay (u : Underlay) : ST channelImpl unit := fun c =>
  let '(ns, us) := Add u (underlays c) in
  (Ret tt, emit (EvNotified <$> ns) (set_underlays us c)).

Definition not_accepted (c : channelImpl) (why : gostring) : error :=
  errors_New (lit "new underlay for '" ++ channelId (cfg c) ++ lit "' not accepted: " ++ why).

Definition AcceptUnderlay (u : Underlay) : ST channelImpl unit := fun c =>
  let secret := default [] (underlay_Headers u !! GroupSecretHeader) in
  if negb (isMultiUnderlayCapable c)
  then (Err (not_accepted c (lit "channel does not accept additional underlays")), close_underlay u c)
  else if decide (secret ≠ groupSecret (cfg c))
  then (Err (not_accepted c (lit "incorrect group secret")), close_underlay u c)
  else if isClosed c
  then (Err (not_accepted c (lit "channel is closed")), close_underlay u c)
  else
    (_ ← modify (set_fallback u);
     _ ← add_underlay u;
     startMultiplex u) c.

(** ** Closing *)

(** [CloseNotifier]: [closed_c] counts the closes of its Go channel. *)
Record CloseNotifier : Type := mkNotifier { notified : bool; closed_c : nat }.

Definition NewCloseNotifier : CloseNotifier := mkNotifier false 0.

Definition NotifyClosed (n : CloseNotifier) : CloseNotifier :=
  if notified n then n else mkNotifier true (S (closed_c n)).

Section Channel.
(** What the first [Close] of an underlay answers. *)
Context (closeErr : nat -> option error).

(** [u.Close()], with its error. *)
Definition close_errors (us : list Underlay) (closed : gset nat) : list error :=
  omap (fun u => if decide (ptr u ∈ closed) then None else closeErr (ptr u)) us.

(** The errors joined into the result; none is nil. *)
Definition Close : ST channelImpl (list error) := fun c =>
  if isClosed c then (Ret [], c)
  else
    let c := set_closed (S (notifyCloses c)) c in
    let c := emit (EvPeekClose <$> peekHandlers (handlers c)) c in
    let c := emit (EvHandleClose <$> closeHandlers (handlers c)) c in
    let c := set_waiters (clear (waiters c)) c in
    let us := GetAll (underlays c) in
    (Ret (close_errors us (closedUnderlays c)), foldl (fun c u => close_underlay u c) c us).

(** [channelImpl.UnderlayRemoved], with the lifetime of the underlay. *)
Definition channel_UnderlayRemoved (u : Underlay) (now : Z) : ST channelImpl unit := fun c =>
  let lifetime := now - CreatedAt u in
  let c := if hasDialPolicy (cfg c)
           then emit [EvPolicyClosed (getValidatedUnderlayType c u) lifetime] c else c in
  if negb (isMultiUnderlayCapable c)
  then if decide (GetAll (underlays c) = []) then (_ ← Close; mret tt) c else (Ret tt, c)
  else (Ret tt, emit [EvApply] c).

(** The notifications of a change, in order; the channel listens to itself. *)
Fixpoint notify (ns : list (notification listener)) (now : Z) : ST channelImpl unit :=
  match ns with
  | [] => mret tt
  | n :: ns' =>
      _ ← modify (emit [EvNotified n]);
      _ ← (match n with
           | UnderlayRemoved Self u => channel_UnderlayRemoved u now
           | _ => mret tt
           end);
      notify ns' now
  end.

(** [self.underlays.Remove(self, underlay)] *)
Definition remove_underlay (u : Underlay) (now : Z) : ST channelImpl unit := fun c =>
  let '(_, ns, us) := Remove u (underlays c) in notify ns now (set_underlays us c).

(** The fallback moves on to the last underlay left, if there is one. *)
Definition repair_fallback (u : Underlay) : ST channelImpl unit := fun c =>
  if decide (ptr (fallbackUnderlay c) = ptr u)
  then
    match last (GetAll (underlays c)) with
    | Some lastUnderlay => (Ret tt, set_fallback lastUnderlay c)
    | None => (Ret tt, c)
    end
  else (Ret tt, c).

Definition closeUnderlay (u : Underlay) (notifier : CloseNotifier) (now : Z)
    : ST channelImpl CloseNotifier :=
  _ ← modify (close_underlay u);
  let notifier := NotifyClosed notifier in
  _ ← remove_underlay u now;
  _ ← repair_fallback u;
  mret notifier.

(** ** Receiving *)

(** [rxer]'s preparation of a message it has read. *)
Definition inject_type (inject : bool) (underlayType : gostring) (m : Message) : Message :=
  if inject then MessageHeader.PutStringHeader UnderlayTypeHeader underlayType m else m.

Section Rx.
Context (rng : gmap Z (waiter receiver) -> list (Z * waiter receiver)).

Definition count_reply (now : Z) (c : channelImpl) : channelImpl :=
  let n := uint32 (replyCounter c + 1) in
  let c := set_replyCounter n c in
  if bool_decide (n mod 100 = 0) && bool_decide (1000 < Size (waiters c))
  then set_waiters (reapExpired rng now (waiters c)) c else c.

(** The receive handlers, for a message no waiter took. *)
Definition receive (m : Message) (c : channelImpl) : channelImpl :=
  match receiveHandlers (handlers c) !! ContentType m with
  | Some h => emit [EvReceive h m] c
  | None =>
      match receiveHandlers (handlers c) !! AnyContentType with
      | Some h => emit [EvReceive h m] c
      | None => emit [EvDropped m] c
      end
  end.

Definition rx (m : Message) (now : Z) : ST channelImpl unit := fun c =>
  let c := set_lastRead now c in
  let m := foldl (fun m f => f m) m (transformRx (handlers c)) in
  let c := emit ((fun p => EvPeekRx p m) <$> peekHandlers (handlers c)) c in
  let '(isReply, m) := IsReply m in
  match isReply with
  | Ret true =>
      let c := count_reply now c in
      match (ReplyFor m).1 with
      | Ret replyFor =>
          match RemoveWaiter replyFor (waiters c) with
          | (Some r, w) => (Ret tt, emit [EvAcceptReply r m] (set_waiters w c))
          | (None, w) => (Ret tt, receive m (set_waiters w c))
          end
      | Err e => (Err e, c)
      | Panic => (Panic, c)
      | OutOfFuel => (OutOfFuel, c)
      end
  | Ret false => (Ret tt, receive m c)
  | Err e => (Err e, c)
  | Panic => (Panic, c)
  | OutOfFuel => (OutOfFuel, c)
  end.

End Rx.

(** ** Sending *)

(** What the channel asks of a sendable it has to write. *)
Record sendable : Type := mkSendable {
  writeContextErr : option error;      (* [writeContext(sendable).Err()] *)
  msg : option Message;
  replyTo : option receiver;           (* [ReplyReceiver()] *)
  deadline : option Z                  (* of its context *)
}.

(** What the underlay and the senders answer. *)
Record tx_env : Type := mkTxEnv {
  setTimeoutErr : option error;        (* [SetWriteTimeout] *)
  txErr : option error;                (* [underlay.Tx] *)
  requeued : bool                      (* [senders.HandleTxFailed] *)
}.

Definition tx (env : tx_env) (s : sendable) (writeTimeout now : Z) : ST channelImpl unit := fun c =>
  match writeContextErr s with
  | Some e => (Ret tt, emit [EvNotifyErr (TimeoutError e)] c)
  | None =>
      let c := emit [EvNotifyBeforeWrite] c in
      match msg s with
      | None => (Ret tt, c)
      | Some m =>
          let m := foldl (fun m f => f m) m (transformTx (handlers c)) in
          let c := set_waiters (AddWaiter (mkWaiting (replyTo s) (deadline s) (sequence m)) now
                                  (waiters c)) c in
          match (if decide (0 < writeTimeout) then setTimeoutErr env else None) with
          | Some e => (Err e, emit [EvNotifyErr e] c)
          | None =>
              let c := emit [EvWrite m] c in
              match txErr env with
              | Some e =>
                  let c := set_waiters (RemoveWaiter (sequence m) (waiters c)).2 c in
                  let c := emit ((fun h => EvHandleError h e) <$> errorHandlers (handlers c)) c in
                  let c := if requeued env then c else emit [EvNotifyErr e; EvNotifyAfterWrite] c in
                  (Err e, c)
              | None =>
                  let c := emit ((fun p => EvPeekTx p m) <$> peekHandlers (handlers c)) c in
                  (Ret tt, emit [EvNotifyAfterWrite] c)
              end
          end
      end
  end.

(** ** The loops of an underlay *)

(** The body of [rxer]: [reads] are the answers of [underlay.Rx] with the times
    at which they come. *)
Fixpoint rx_loop (rng : gmap Z (waiter receiver) -> list (Z * waiter receiver)) (injectType : bool)
    (underlayType : gostring) (reads : list (outcome Message * Z)) : ST channelImpl unit :=
  match reads with
  | [] => lift OutOfFuel
  | (Ret m, now) :: reads' =>
      _ ← rx rng (inject_type injectType underlayType m) now;
      rx_loop rng injectType underlayType reads'
  | (Err _, _) :: _ => mret tt
  | (Panic, _) :: _ => lift Panic
  | (OutOfFuel, _) :: _ => lift OutOfFuel
  end.

Definition rxer (rng : gmap Z (waiter receiver) -> list (Z * waiter receiver)) (injectType : bool)
    (u : Underlay) (notifier : CloseNotifier) (reads : list (outcome Message * Z)) (closeTime : Z)
    : ST channelImpl CloseNotifier :=
  underlayType ← gets (fun c => getValidatedUnderlayType c u);
  _ ← rx_loop rng injectType underlayType reads;
  closeUnderlay u notifier closeTime.

(** The body of [txer]: what the message source gives, with what a send of it
    meets. *)
Fixpoint tx_loop (writeTimeout : Z) (items : list (outcome sendable * tx_env * Z)) : ST channelImpl unit :=
  match items with
  | [] => lift OutOfFuel
  | (Ret s, env, now) :: items' =>
      r ← attempt (tx env s writeTimeout now);
      match r with
      | inl _ => mret tt
      | inr _ => tx_loop writeTimeout items'
      end
  | (Err _, _, _) :: _ => mret tt
  | (Panic, _, _) :: _ => lift Panic
  | (OutOfFuel, _, _) :: _ => lift OutOfFuel
  end.

Definition txer (writeTimeout : Z) (u : Underlay) (notifier : CloseNotifier)
    (items : list (outcome sendable * tx_env * Z)) (closeTime : Z) : ST channelImpl CloseNotifier :=
  _ ← tx_loop writeTimeout items;
  closeUnderlay u notifier closeTime.

(** ** Constraints *)

Section Constraints.
Context (crng : gmap gostring UnderlayConstraint -> list (gostring * UnderlayConstraint)).

Definition counts_of (counts : gmap gostring Z) (t : gostring) : Z := default 0 (counts !! t).

Definition total_of (counts : gmap gostring Z) : Z := map_fold (fun _ n total => n + total) 0 counts.

Definition close_if (b : bool) : ST channelImpl unit := when b (_ ← Close; mret tt).

(** The loop over the constraints: whether every minimum is met. *)
Fixpoint minimums_met (counts : gmap gostring Z) (closeIfInvalid : bool)
    (cs : list (gostring * UnderlayConstraint)) : ST channelImpl bool :=
  match cs with
  | [] => mret true
  | (t, constraint) :: cs' =>
      if decide (counts_of counts t < Min constraint)
      then _ ← close_if closeIfInvalid; mret false
      else minimums_met counts closeIfInvalid cs'
  end.

Definition countsShowValidState (counts : gmap gostring Z) (closeIfInvalid : bool) : ST channelImpl bool :=
  cs ← gets (fun c => crng (constraints (cfg c)));
  ok ← minimums_met counts closeIfInvalid cs;
  if (ok : bool)
  then
    minTotal ← gets (fun c => minTotalUnderlays (cfg c));
    if decide (total_of counts < minTotal)
    then _ ← close_if closeIfInvalid; mret false
    else mret true
  else mret false.

Definition checkConstraintsValid (closeIfInvalid : bool) : ST channelImpl bool :=
  counts ← gets (fun c => CountsByType (underlays c));
  countsShowValidState counts closeIfInvalid.

Definition areConstraintDesiresSatisfied (c : channelImpl) : bool :=
  let counts := CountsByType (underlays c) in
  forallb (fun tc => bool_decide (Desired tc.2 <= counts_of counts tc.1)) (crng (constraints (cfg c))).

(** [dialUnderlay]; the [n]-th dial of the loop gives [dial n underlayType
    isFirst], with the connection id and the secret of the channel. *)
Context (dial : nat -> gostring -> bool -> gostring -> bytes -> outcome Underlay).

Definition dialUnderlay (n : nat) (underlayType : gostring) : ST channelImpl unit := fun c =>
  let isFirst := bool_decide (GetAll (underlays c) = []) in
  match dial n underlayType isFirst (channelId (cfg c)) (groupSecret (cfg c)) with
  | Ret underlay => ignore (AcceptUnderlay underlay) c
  | Err _ => (Ret tt, c)
  | Panic => (Panic, c)
  | OutOfFuel => (OutOfFuel, c)
  end.

(** One pass over the constraints: a dial for every type short of its desire
    in [counts]; whether there was none, and the number of dials so far. *)
Fixpoint dial_missing (counts : gmap gostring Z) (n : nat) (cs : list (gostring * UnderlayConstraint))
    : ST channelImpl (bool * nat) :=
  match cs with
  | [] => mret (true, n)
  | (t, constraint) :: cs' =>
      if decide (counts_of counts t < Desired constraint)
      then
        _ ← dialUnderlay n t;
        '(_, n') ← dial_missing counts (S n) cs';
        mret (false, n')
      else dial_missing counts n cs'
  end.

(** The dialing loop.  It is not bounded: while dials fail it goes on. *)
Fixpoint constraint_loop (fuel : nat) (n : nat) : ST channelImpl unit :=
  match fuel with
  | O => lift OutOfFuel
  | S fuel' =>
      closed ← gets isClosed;
      if (closed : bool) then mret tt
      else
        counts ← gets (fun c => CountsByType (underlays c));
        valid ← countsShowValidState counts true;
        if negb valid then mret tt
        else
          cs ← gets (fun c => crng (constraints (cfg c)));
          '(allSatisfied, n') ← dial_missing counts n cs;
          if (allSatisfied : bool) then mret tt else constraint_loop fuel' n'
  end.

Definition applyConstraints (fuel : nat) : ST channelImpl unit := fun c =>
  if bool_decide (base.size (constraints (cfg c)) = 0%nat) && bool_decide (minTotalUnderlays (cfg c) = 0)
  then (Ret tt, c)
  else if isClosed c then (Ret tt, c)
  else
    (valid ← checkConstraintsValid true;
     if negb valid then mret tt
     else
       inProgress ← gets applyInProgress;
       if (inProgress : bool) then mret tt
       else
         _ ← modify (set_applyInProgress true);
         deferred (fun _ =>
           _ ← modify (set_applyInProgress false);
           again ← gets (fun c => hasDialPolicy (cfg c) && negb (isClosed c) &&
                                  negb (areConstraintDesiresSatisfied c));
           when again (modify (emit [EvApply]))) (
           policy ← gets (fun c => hasDialPolicy (cfg c));
           if negb policy then mret tt else constraint_loop fuel 0)) c.

End Constraints.

(** ** Construction *)

(** What [NewChannel] is given; the senders, the message source and the
    underlay may be missing. *)
Record NewChannelArgs : Type := mkArgs {
  argSenders : bool;
  argMessageSource : bool;
  argUnderlay : option Underlay;
  argDialPolicy : bool;
  argConstraints : gmap gostring UnderlayConstraint;
  argMinTotal : Z;
  argValidTypes : list gostring;
  argListeners : list nat;
  argBinder : BindHandler
}.

(** The channel [NewChannel] starts from. *)
Definition fresh_channel (a : NewChannelArgs) (u : Underlay) : channelImpl :=
  mkChannel
    (mkConfig (underlay_ConnectionId u) (underlay_Id u)
       (default [] (underlay_Headers u !! GroupSecretHeader))
       (argDialPolicy a) (argConstraints a) (argMinTotal a) (argValidTypes a))
    no_handlers false 0 u
    (foldl (fun us n => AddListener (App n) us) (AddListener Self NewUnderlays) (argListeners a))
    (clear (mkWaiterMap ∅ 0)) 0 0 false ∅ [].

(** The result, and the channel in the state it was left in, if one was made. *)
Definition NewChannel (a : NewChannelArgs) : outcome unit * option channelImpl :=
  if negb (argSenders a) then (Err (fmt_Errorf (lit "no senders configured for channel %s") []), None)
  else if negb (argMessageSource a)
  then (Err (fmt_Errorf (lit "no message source provider configured for channel %s") []), None)
  else
    match argUnderlay a with
    | None => (Err (errors_New (lit "unable to initialize channel (initialization produced zero underlays)")), None)
    | Some u =>
        let c := fresh_channel a u in
        if bool_decide (len (groupSecret (cfg c)) = 0) && isMultiUnderlayCapable c
        then (Err (errors_New (lit "no group secret header found for multi-underlay channel")), None)
        else
          match bind (argBinder a) c with
          | (Ret _, c) =>
              let '(o, c) := (_ ← add_underlay u; _ ← startMultiplex u; modify (emit [EvApply])) c in
              (o, Some c)
          | (Err e, c) =>
              let '(_, c) := ignore Close c in (Err e, Some (close_underlay u c))
          | (Panic, c) => (Panic, Some c)
          | (OutOfFuel, c) => (OutOfFuel, Some c)
          end
    end.

End Channel.

(** ** Specifications *)

(** The steps by which goroutines change a channel.  Accepting an underlay and
    closing hold the channel's lock throughout; the parts of [closeUnderlay]
    (closing the underlay, removing it, moving the fallback) interleave with
    them. *)
Inductive step : Type :=
  | SAccept (u : Underlay)
  | SClose
  | SCloseUnderlay (u : Underlay)
  | SRemove (u : Underlay) (now : Z)
  | SRepair (u : Underlay)
  | SRx (m : Message) (now : Z)
  | STx (env : tx_env) (s : sendable) (writeTimeout now : Z).

Definition secret_of (u : Underlay) : bytes := default [] (underlay_Headers u !! GroupSecretHeader).

Section Spec.
Context (closeErr : nat -> option error)
  (rng : gmap Z (waiter receiver) -> list (Z * waiter receiver)).

Definition exec_step (c : channelImpl) (s : step) : channelImpl :=
  match s with
  | SAccept u => (AcceptUnderlay u c).2
  | SClose => (Close closeErr c).2
  | SCloseUnderlay u => close_underlay u c
  | SRemove u now => (remove_underlay closeErr u now c).2
  | SRepair u => (repair_fallback u c).2
  | SRx m now => (rx rng m now c).2
  | STx env s wt now => (tx env s wt now c).2
  end.

(** What holds of a channel at all times after its construction. *)
Record channel_inv (c : channelImpl) : Prop := {
  inv_secret : isMultiUnderlayCapable c = true -> groupSecret (cfg c) ≠ [];
  inv_members : Forall (fun u => secret_of u = groupSecret (cfg c)) (entries (underlays c));
  inv_single : isMultiUnderlayCapable c = false -> (length (entries (underlays c)) <= 1)%nat;
  inv_notify : notifyCloses c = (if isClosed c then 1 else 0)%nat;
  inv_closed : isClosed c = true ->
    Forall (fun u => ptr u ∈ closedUnderlays c) (entries (underlays c))
}.

(** A binder that installs handlers and leaves the channel's underlays alone. *)
Definition binder_ok (h : BindHandler) : Prop :=
  forall c, cfg (bind h c).2 = cfg c /\ underlays (bind h c).2 = underlays c /\
    isClosed (bind h c).2 = isClosed c /\ notifyCloses (bind h c).2 = notifyCloses c.

(** ** Lemmas *)

Lemma close_all us c :
  foldl (fun c u => close_underlay u c) c us =
  set_closedUnderlays (list_to_set (ptr <$> us) ∪ closedUnderlays c) c.
Proof using Type.
  revert c. induction us as [|u us IH]; intros c; cbn [foldl].
  - destruct c. unfold set_closedUnderlays. cbn. f_equal. by rewrite (left_id_L ∅ (∪)).
  - rewrite IH. destruct c. unfold set_closedUnderlays, close_underlay. cbn. f_equal.
    by rewrite (assoc_L (∪)), (comm_L (∪) (list_to_set _)).
Qed.

(** What closing an open channel leaves. *)
Lemma Close_spec c :
  isClosed c = false ->
  Close closeErr c =
  (Ret (close_errors closeErr (entries (underlays c)) (closedUnderlays c)),
   mkChannel (cfg c) (handlers c) true (S (notifyCloses c)) (fallbackUnderlay c) (underlays c)
     (clear (waiters c)) (replyCounter c) (lastRead c) (applyInProgress c)
     (list_to_set (ptr <$> entries (underlays c)) ∪ closedUnderlays c)
     (log c ++ (EvPeekClose <$> peekHandlers (handlers c)) ++ (EvHandleClose <$> closeHandlers (handlers c)))).
Proof using Type.
  intros Hc. unfold Close. rewrite Hc. rewrite close_all. unfold set_closedUnderlays, GetAll. cbn.
  by rewrite <- app_assoc.
Qed.

Lemma Close_closed c : isClosed c = true -> Close closeErr c = (Ret [], c).
Proof using Type. intros Hc. unfold Close. by rewrite Hc. Qed.

Lemma Close_inv c : channel_inv c -> channel_inv (Close closeErr c).2.
Proof using Type.
  intros Hi. destruct (isClosed c) eqn:Hc; [by rewrite Close_closed|].
  rewrite Close_spec by done. destruct Hi as [H1 H2 H3 H4 H5]. rewrite Hc in H4.
  split; cbn; [done | done | done | by rewrite H4 |]. intros _. apply Forall_forall. intros u Hu.
  apply elem_of_union_l, elem_of_list_to_set, list_elem_of_fmap. eauto.
Qed.

Lemma close_underlay_inv u c : channel_inv c -> channel_inv (close_underlay u c).
Proof using Type.
  intros [H1 H2 H3 H4 H5]. split; cbn; try done. intros Hc. eapply Forall_impl; [by apply H5|].
  cbn. intros x Hx. by apply elem_of_union_r.
Qed.

Lemma emit_inv es c : channel_inv c -> channel_inv (emit es c).
Proof using Type. by intros []. Qed.

Lemma AcceptUnderlay_inv u c : channel_inv c -> channel_inv (AcceptUnderlay u c).2.
Proof using Type.
  intros Hi. unfold AcceptUnderlay. destruct (isMultiUnderlayCapable c) eqn:Hm; cbn [negb];
    [|by apply close_underlay_inv].
  case_decide as Hs; [by apply close_underlay_inv|].
  destruct (isClosed c) eqn:Hc; [by apply close_underlay_inv|].
  destruct Hi as [H1 H2 H3 H4 H5]. split; cbn; try done.
  - apply Forall_app. split; [done|]. apply Forall_singleton. done.
  - intros Hm'. enough (true = false) by done. rewrite <- Hm. exact Hm'.
  - change (isClosed c = true -> Forall (fun x => ptr x ∈ closedUnderlays c) (entries (underlays c) ++ [u])). by rewrite Hc.
Qed.

Lemma Remove_entries (u : Underlay) (us : Underlays listener) ns us' r :
  Remove u us = (r, ns, us') ->
  (forall P, Forall P (entries us) -> Forall P (entries us')) /\
  (length (entries us') <= length (entries us))%nat.
Proof using Type.
  unfold Remove. destruct (remove_entry u (entries us)) as [b es] eqn:E. intros [= <- <- <-]. cbn.
  revert b es E. induction (entries us) as [|x l IH]; intros b es E; cbn in E.
  - injection E as <- <-. split; [done | lia].
  - case_decide.
    + injection E as <- <-. split; [by intros P [_ ?]%Forall_cons | cbn; lia].
    + destruct (remove_entry u l) as [b' rest]. injection E as <- <-.
      destruct (IH b' rest eq_refl) as [IH1 IH2]. split; [|cbn; lia].
      intros P [? ?]%Forall_cons. constructor; auto.
Qed.

Lemma channel_UnderlayRemoved_inv u now c :
  channel_inv c -> channel_inv (channel_UnderlayRemoved closeErr u now c).2.
Proof using Type.
  intros Hi. unfold channel_UnderlayRemoved.
  set (c' := if hasDialPolicy (cfg c) then _ else c).
  assert (channel_inv c') as Hi' by (unfold c'; destruct (hasDialPolicy (cfg c)); [by apply emit_inv | done]).
  destruct (negb (isMultiUnderlayCapable c')); [|by apply emit_inv].
  case_decide; [|done]. unfold mbind, ST_bind. pose proof (Close_inv c' Hi') as H'.
  by destruct (Close closeErr c') as [[| | |] c''].
Qed.

Lemma notify_inv ns now c : channel_inv c -> channel_inv (notify closeErr ns now c).2.
Proof using Type.
  revert c. induction ns as [|n ns IH]; intros c Hi; [done|]. cbn [notify].
  erewrite bind_Ret by reflexivity.
  set (c1 := emit [EvNotified n] c). assert (channel_inv c1) as Hi1 by (by apply emit_inv).
  unfold mbind, ST_bind at 1. destruct n as [l u|[|k] u]; try (by apply IH).
  pose proof (channel_UnderlayRemoved_inv u now c1 Hi1) as H'.
  destruct (channel_UnderlayRemoved closeErr u now c1) as [[| | |] c2]; try done. by apply IH.
Qed.

Lemma remove_underlay_inv u now c :
  channel_inv c -> channel_inv (remove_underlay closeErr u now c).2.
Proof using Type.
  intros Hi. unfold remove_underlay. destruct (Remove u (underlays c)) as [[r ns] us] eqn:E.
  apply notify_inv. apply Remove_entries in E as [HF Hlen]. destruct Hi as [H1 H2 H3 H4 H5].
  split; cbn; try done; [by apply HF | | by intros ?; apply HF, H5].
  intros Hm. specialize (H3 Hm). lia.
Qed.

(** Receiving and sending change only waiters, counters and the log. *)
Definition same_core (c c' : channelImpl) : Prop :=
  cfg c' = cfg c /\ underlays c' = underlays c /\ isClosed c' = isClosed c /\
  notifyCloses c' = notifyCloses c /\ closedUnderlays c' = closedUnderlays c.

Lemma same_core_inv c c' : same_core c c' -> channel_inv c -> channel_inv c'.
Proof using Type.
  intros (E1 & E2 & E3 & E4 & E5) [H1 H2 H3 H4 H5].
  assert (isMultiUnderlayCapable c' = isMultiUnderlayCapable c) as Em
    by (unfold isMultiUnderlayCapable; by rewrite E1).
  by split; rewrite ?Em, ?E1, ?E2, ?E3, ?E4, ?E5.
Qed.

Lemma rx_core m now c : same_core c (rx rng m now c).2.
Proof using Type.
  unfold rx, same_core, count_reply, receive. cbn zeta.
  destruct (IsReply _) as [[[]| | |] m']; cbn [snd]; try done; repeat case_match; simplify_eq; done.
Qed.

Lemma tx_core env s wt now c : same_core c (tx env s wt now c).2.
Proof using Type. unfold tx, same_core. by repeat case_match. Qed.

Lemma exec_step_inv c s : channel_inv c -> channel_inv (exec_step c s).
Proof using Type.
  intros Hi. destruct s; cbn [exec_step].
  - by apply AcceptUnderlay_inv.
  - by apply Close_inv.
  - by apply close_underlay_inv.
  - by apply remove_underlay_inv.
  - eapply same_core_inv; [|done]. unfold repair_fallback, same_core. by repeat case_match.
  - eapply same_core_inv; [apply rx_core | done].
  - eapply same_core_inv; [apply tx_core | done].
Qed.

End Spec.

(** ** Lemmas: close handlers *)

Definition is_close_event (e : event) : Prop :=
  match e with EvHandleClose _ => True | _ => False end.

#[global] Instance is_close_event_dec e : Decision (is_close_event e).
Proof. destruct e; cbn; apply _. Defined.

(** The close handlers' events of a log. *)
Definition close_events (es : list event) : list event := filter is_close_event es.

(** The close handlers have run exactly when the channel is closed. *)
Definition handlers_run (hs : Handlers) (c : channelImpl) : Prop :=
  handlers c = hs /\ notifyCloses c = (if isClosed c then 1 else 0)%nat /\
  close_events (log c) = (if isClosed c then EvHandleClose <$> closeHandlers hs else []).

(** A change that runs no close handler. *)
Definition quiet (c c' : channelImpl) : Prop :=
  handlers c' = handlers c /\ isClosed c' = isClosed c /\ notifyCloses c' = notifyCloses c /\
  exists es, log c' = log c ++ es /\ close_events es = [].

Lemma close_events_app es1 es2 : close_events (es1 ++ es2) = close_events es1 ++ close_events es2.
Proof. apply filter_app. Qed.

Lemma close_events_fmap {A} (f : A -> event) l :
  (forall x, ¬ is_close_event (f x)) -> close_events (f <$> l) = [].
Proof.
  intros Hf. unfold close_events. induction l as [|x l IH]; [done|]. cbn [fmap list_fmap].
  by rewrite filter_cons_False.
Qed.

Lemma quiet_run hs c c' : quiet c c' -> handlers_run hs c -> handlers_run hs c'.
Proof.
  intros (E1 & E2 & E3 & es & E4 & E5) (H1 & H2 & H3). unfold handlers_run.
  rewrite E1, E2, E3, E4, close_events_app, E5, app_nil_r. done.
Qed.

Lemma quiet_refl c : quiet c c.
Proof. split_and!; try done. exists []. by rewrite app_nil_r. Qed.

Lemma quiet_trans c1 c2 c3 : quiet c1 c2 -> quiet c2 c3 -> quiet c1 c3.
Proof.
  intros (A1 & A2 & A3 & es & A4 & A5) (B1 & B2 & B3 & es' & B4 & B5).
  split_and!; try congruence. exists (es ++ es'). rewrite B4, A4, app_assoc. split; [done|].
  by rewrite close_events_app, A5, B5.
Qed.

Lemma quiet_emit es c : close_events es = [] -> quiet c (emit es c).
Proof. intros H. split_and!; try done. by exists es. Qed.

(** A change of fields other than the log. *)
Lemma quiet_same c c' :
  handlers c' = handlers c -> isClosed c' = isClosed c -> notifyCloses c' = notifyCloses c ->
  log c' = log c -> quiet c c'.
Proof. intros. split_and!; try done. exists []. by rewrite app_nil_r. Qed.

(** Peels the last update off the state that was reached. *)
Ltac quiet_step :=
  match goal with
  | |- quiet ?c ?c => apply quiet_refl
  | |- quiet _ (emit _ ?x) =>
      apply (quiet_trans _ x); [|apply quiet_emit; first [done | apply close_events_fmap; intros ? []]]
  | |- quiet _ (set_fallback _ ?x) => apply (quiet_trans _ x); [|by apply quiet_same]
  | |- quiet _ (set_underlays _ ?x) => apply (quiet_trans _ x); [|by apply quiet_same]
  | |- quiet _ (set_waiters _ ?x) => apply (quiet_trans _ x); [|by apply quiet_same]
  | |- quiet _ (set_lastRead _ ?x) => apply (quiet_trans _ x); [|by apply quiet_same]
  end.

Lemma receive_quiet m c : quiet c (receive m c).
Proof. unfold receive. repeat case_match; by apply quiet_emit. Qed.

Lemma count_reply_quiet rng now c : quiet c (count_reply rng now c).
Proof. unfold count_reply. case_match; by apply quiet_same. Qed.

Lemma rx_quiet rng m now c : quiet c (rx rng m now c).2.
Proof.
  unfold rx. cbn zeta. set (m' := foldl _ m _). set (c1 := emit _ (set_lastRead now c)).
  assert (quiet c c1) as H1 by (unfold c1; repeat quiet_step).
  destruct (IsReply m') as [[[]| | |] m1]; try done.
  - pose proof (count_reply_quiet rng now c1) as H2. set (c2 := count_reply rng now c1) in *.
    assert (quiet c c2) as H3 by (by eapply quiet_trans).
    destruct (ReplyFor m1).1; try done.
    destruct (RemoveWaiter a (waiters c2)) as [[r|] w]; cbn [snd].
    + quiet_step. quiet_step. done.
    + eapply quiet_trans; [|apply receive_quiet]. quiet_step. done.
  - cbn [snd]. eapply quiet_trans; [exact H1 | apply receive_quiet].
Qed.

Lemma tx_quiet env s wt now c : quiet c (tx env s wt now c).2.
Proof. unfold tx. repeat case_match; cbn [snd]; repeat quiet_step. Qed.

Lemma AcceptUnderlay_quiet u c : quiet c (AcceptUnderlay u c).2.
Proof.
  unfold AcceptUnderlay. repeat case_match; try (by apply quiet_same).
  unfold mbind, ST_bind, modify, add_underlay, startMultiplex, Add, modify. cbn [snd].
  repeat quiet_step.
Qed.

Lemma Close_run closeErr hs c : handlers_run hs c -> handlers_run hs (Close closeErr c).2.
Proof.
  intros Hr. destruct (isClosed c) eqn:Hc; [by rewrite Close_closed|].
  rewrite Close_spec by done. destruct Hr as (<- & H2 & H3). rewrite Hc in *.
  unfold handlers_run. cbn [snd handlers notifyCloses isClosed log]. split_and!; [done | by rewrite H2|].
  rewrite !close_events_app, H3, close_events_fmap by (intros ? []). cbn [app].
  apply filter_id. apply Forall_forall. intros e He. apply list_elem_of_fmap in He as (x & -> & _). done.
Qed.

Lemma notify_run closeErr hs ns now c :
  handlers_run hs c -> handlers_run hs (notify closeErr ns now c).2.
Proof.
  revert c. induction ns as [|n ns IH]; intros c Hr; [done|]. cbn [notify].
  erewrite bind_Ret by reflexivity. set (c1 := emit [EvNotified n] c).
  assert (handlers_run hs c1) as Hr1 by (eapply quiet_run; [by apply quiet_emit | done]).
  destruct n as [l u|[|k] u]; try (by apply IH). unfold mbind, ST_bind at 1.
  assert (handlers_run hs (channel_UnderlayRemoved closeErr u now c1).2) as Hr2.
  { unfold channel_UnderlayRemoved.
    set (c2 := if hasDialPolicy (cfg c1) then _ else c1).
    assert (handlers_run hs c2) as Hr2
      by (unfold c2; destruct (hasDialPolicy (cfg c1)); [eapply quiet_run; [by apply quiet_emit | done] | done]).
    destruct (negb (isMultiUnderlayCapable c2)); [|eapply quiet_run; [by apply quiet_emit | done]].
    case_decide; [|done]. unfold mbind, ST_bind. pose proof (Close_run closeErr hs c2 Hr2) as H'.
    by destruct (Close closeErr c2) as [[| | |] c3]. }
  destruct (channel_UnderlayRemoved closeErr u now c1) as [[| | |] c3]; try done. by apply IH.
Qed.

Lemma exec_step_run closeErr rng hs c s :
  handlers_run hs c -> handlers_run hs (exec_step closeErr rng c s).
Proof.
  intros Hr. destruct s; cbn [exec_step].
  - eapply quiet_run; [apply AcceptUnderlay_quiet | done].
  - by apply Close_run.
  - eapply quiet_run; [by apply quiet_same | done].
  - unfold remove_underlay. destruct (Remove u (underlays c)) as [[r ns] us]. apply notify_run.
    eapply quiet_run; [by apply quiet_same | done].
  - eapply quiet_run; [|done]. unfold repair_fallback. repeat case_match; by apply quiet_same.
  - eapply quiet_run; [apply rx_quiet | done].
  - eapply quiet_run; [apply tx_quiet | done].
Qed.

(** A waiter survives the reaping of a reply, unless it has expired. *)
Lemma count_reply_waiters rng `{!RangeOrder rng} now c k :
  Waiters.m (waiters (count_reply rng now c)) !! k = Waiters.m (waiters c) !! k \/
  (Waiters.m (waiters (count_reply rng now c)) !! k = None /\
   forall w, Waiters.m (waiters c) !! k = Some w -> ttlMs w < now).
Proof.
  unfold count_reply. cbn zeta. case_match; [|by left]. cbn [waiters set_waiters set_replyCounter].
  rewrite reapExpired_map by done. destruct (Waiters.m (waiters c) !! k) as [w|] eqn:E.
  - destruct (decide (ttlMs w < now)) as [Ht|Ht].
    + right. split; [|by intros ? [= <-]]. apply map_lookup_filter_None. right.
      intros w' Hw' Hn. apply Hn. unfold expired. cbn. congruence.
    + left. apply map_lookup_filter_Some. by split.
  - left. apply map_lookup_filter_None. by left.
Qed.

(** ** Lemmas: construction *)

Lemma fresh_multi a u :
  isMultiUnderlayCapable (fresh_channel a u) =
  argDialPolicy a || bool_decide (0 < Z.of_nat (base.size (argConstraints a))) ||
  bool_decide (0 < argMinTotal a).
Proof. done. Qed.

Lemma fresh_entries a u : entries (underlays (fresh_channel a u)) = [].
Proof.
  cbn. assert (forall ns us, entries (foldl (fun us n => AddListener (App n) us) us ns) = entries us) as H.
  { induction ns as [|n ns IH]; intros us; [done|]. cbn [foldl]. by rewrite IH. }
  by rewrite H.
Qed.

(** A channel that was constructed satisfies the invariant. *)
Lemma NewChannel_inv closeErr a c :
  NewChannel closeErr a = (Ret tt, Some c) -> binder_ok (argBinder a) -> channel_inv c.
Proof.
  unfold NewChannel. intros E Hb. destruct (argSenders a), (argMessageSource a); cbn [negb] in E; try done.
  destruct (argUnderlay a) as [u|]; [|done].
  destruct (bool_decide (len (groupSecret (cfg (fresh_channel a u))) = 0) &&
            isMultiUnderlayCapable (fresh_channel a u)) eqn:Es; [done|].
  destruct (Hb (fresh_channel a u)) as (E1 & E2 & E3 & E4).
  destruct (bind (argBinder a) (fresh_channel a u)) as [[[]|e| |] c1];
    [|by destruct (ignore (Close closeErr) c1)|done|done].
  unfold mbind, ST_bind, add_underlay, startMultiplex, modify in E. cbn in E. injection E as <-.
  cbn [snd] in *. split; cbn.
  - intros Hm. rewrite E1. cbn. intros Hs. apply andb_false_iff in Es as [Es|Es].
    + apply bool_decide_eq_false in Es. apply Es. cbn. by rewrite Hs.
    + unfold isMultiUnderlayCapable in *. cbn in Hm. rewrite E1 in Hm. congruence.
  - rewrite E2, fresh_entries, E1. by apply Forall_singleton.
  - rewrite E2, fresh_entries. cbn. lia.
  - by rewrite E3, E4.
  - by rewrite E3.
Qed.

Lemma steps_inv closeErr rng c steps :
  channel_inv c -> channel_inv (foldl (exec_step closeErr rng) c steps).
Proof. revert c. induction steps; intros c Hi; [done|]. cbn. by apply IHsteps, exec_step_inv. Qed.

(** ** Properties *)

(** C10: whom a channel accepts.  In every state a constructed channel reaches,
    by any interleaving of its operations: a channel that can grow has a group
    secret; it accepts an underlay exactly when it can grow, the underlay
    carries that (non-empty) secret and the channel is not closed; an accepted
    underlay is among its underlays, is the fallback and has its loops started;
    a refused one is closed and nothing else changes.  All underlays it holds
    carry its secret, a channel that cannot grow has at most one, and once it
    is closed all of them are. *)
Theorem channel_admission (closeErr : nat -> option error)
    (rng : gmap Z (waiter receiver) -> list (Z * waiter receiver)) (a : NewChannelArgs)
    (c0 : channelImpl) (steps : list step) (u : Underlay) :
  NewChannel closeErr a = (Ret tt, Some c0) -> binder_ok (argBinder a) ->
  let c := foldl (exec_step closeErr rng) c0 steps in
  let r := AcceptUnderlay u c in
  channel_inv c /\
  (r.1 = Ret tt <-> isMultiUnderlayCapable c = true /\ secret_of u = groupSecret (cfg c) /\
                    isClosed c = false) /\
  (r.1 = Ret tt -> secret_of u ≠ [] /\ u ∈ entries (underlays r.2) /\ fallbackUnderlay r.2 = u /\
     EvStarted u ∈ log r.2) /\
  (r.1 ≠ Ret tt -> ptr u ∈ closedUnderlays r.2 /\ underlays r.2 = underlays c /\ log r.2 = log c).
Proof.
  intros HN Hb c r. assert (channel_inv c) as Hi by (by eapply steps_inv, NewChannel_inv).
  split; [done|]. unfold r, AcceptUnderlay. fold (secret_of u).
  destruct (isMultiUnderlayCapable c) eqn:Hm; cbn [negb].
  2: { split; [|split]; cbn; [by split; [|intros (? & ? & ?)] | done | set_solver]. }
  case_decide as Hs.
  { split; [|split]; cbn; [by split; [|intros (? & ? & ?)] | done | set_solver]. }
  destruct (isClosed c) eqn:Hc.
  { split; [|split]; cbn; [by split; [|intros (? & ? & ?)] | done | set_solver]. }
  split; [done|]. split; [|done]. intros _.
  split; [rewrite Hs; by apply (inv_secret c Hi)|].
  unfold mbind, ST_bind, add_underlay, startMultiplex, modify. cbn. split; [set_solver|].
  split; [done|]. apply elem_of_app. right. by left.
Qed.

(** A binder that installs one close handler. *)
Lemma binder_ok_close n : binder_ok (Some (AddCloseHandler n)).
Proof. intros c. done. Qed.

Lemma channel_admission_witness :
  let u n := mkUnderlay n (lit "id") (lit "c") (<[GroupSecretHeader := lit "s"]> ∅) 0 in
  let args := mkArgs true true (Some (u 1%nat)) false ∅ 1 [] [] (Some (AddCloseHandler 0)) in
  exists c0, NewChannel (fun _ => None) args = (Ret tt, Some c0) /\
    let c := foldl (exec_step (fun _ => None) (fun m => map_to_list m)) c0 [SAccept (u 2%nat); SCloseUnderlay (u 1%nat)] in
    (AcceptUnderlay (u 3%nat) c).1 = Ret tt /\ u 3%nat ∈ entries (underlays (AcceptUnderlay (u 3%nat) c).2).
Proof.
  intros u args. eexists. split; [vm_compute; reflexivity|].
  destruct (channel_admission (fun _ => None) (fun m => map_to_list m) args
    (default (fresh_channel args (u 1%nat)) (NewChannel (fun _ => None) args).2)
    [SAccept (u 2%nat); SCloseUnderlay (u 1%nat)] (u 3%nat)) as (_ & H1 & H2 & _).
  - vm_compute. reflexivity.
  - apply binder_ok_close.
  - split; [vm_compute; reflexivity|]. apply H2. vm_compute. reflexivity.
Defined.

(** C16: closing.  The first [Close] closes the close channel, runs every peek
    handler's and close handler's callback once and in order, empties the
    waiters and closes every underlay; any further [Close] does nothing.  Over
    any interleaving of operations the close channel is closed at most once
    (closing it twice would panic), and the close handlers have run exactly
    once each if the channel is closed and not at all otherwise. *)
Theorem close_complete (closeErr : nat -> option error)
    (rng : gmap Z (waiter receiver) -> list (Z * waiter receiver)) (c : channelImpl)
    (steps : list step) :
  isClosed c = false -> notifyCloses c = 0%nat -> close_events (log c) = [] ->
  let c1 := (Close closeErr c).2 in
  let c' := foldl (exec_step closeErr rng) c steps in
  isClosed c1 = true /\ waiters c1 = mkWaiterMap ∅ 0 /\
  log c1 = log c ++ (EvPeekClose <$> peekHandlers (handlers c)) ++
                    (EvHandleClose <$> closeHandlers (handlers c)) /\
  (forall u, u ∈ entries (underlays c) -> ptr u ∈ closedUnderlays c1) /\
  Close closeErr c1 = (Ret [], c1) /\
  notifyCloses c' = (if isClosed c' then 1 else 0)%nat /\
  close_events (log c') = (if isClosed c' then EvHandleClose <$> closeHandlers (handlers c) else []).
Proof.
  intros Hc Hn Hl c1 c'. assert (handlers_run (handlers c) c') as (_ & H2 & H3).
  { unfold c'. assert (handlers_run (handlers c) c) as Hr by (unfold handlers_run; by rewrite Hc).
    generalize (handlers c) Hr. clear. revert c. induction steps as [|s steps IH]; intros c hs Hr; [done|].
    cbn. by apply IH, exec_step_run. }
  unfold c1. rewrite (Close_spec closeErr c Hc). cbn [snd]. split_and!; try done.
  intros u Hu. cbn. apply elem_of_union_l, elem_of_list_to_set, list_elem_of_fmap. eauto.
Qed.

Lemma close_complete_witness :
  let u := mkUnderlay 1 (lit "id") (lit "c") ∅ 0 in
  let c := set_handlers (fun _ => mkHandlers ∅ [] [] [] [] [4%nat; 5%nat])
             (fresh_channel (mkArgs true true (Some u) false ∅ 0 [] [] None) u) in
  let c' := foldl (exec_step (fun _ => None) (fun m => map_to_list m)) c [SClose; SAccept u; SClose] in
  notifyCloses c' = 1%nat /\ close_events (log c') = [EvHandleClose 4; EvHandleClose 5].
Proof.
  intros u c c'.
  destruct (close_complete (fun _ => None) (fun m => map_to_list m) c [SClose; SAccept u; SClose])
    as (_ & _ & _ & _ & _ & H1 & H2); [reflexivity | reflexivity | reflexivity |].
  split; [exact H1 | exact H2].
Defined.

(** Where a message that no waiter takes goes, [m] as the handler sees it. *)
Definition deliver_to (hs : gmap Z handler) (contentType : Z) (m : Message) : event :=
  match hs !! contentType with
  | Some h => EvReceive h m
  | None => match hs !! AnyContentType with Some h => EvReceive h m | None => EvDropped m end
  end.

Lemma receive_log m c :
  receive m c = emit [deliver_to (receiveHandlers (handlers c)) (ContentType m) m] c.
Proof. unfold receive, deliver_to. by repeat case_match. Qed.

(** What [rx] does with a message, by the sequence it replies to. *)
Lemma rx_spec rng m now c :
  let m1 := foldl (fun m f => f m) m (transformRx (handlers c)) in
  let m2 := cacheReplyFor m1 in
  let rf := reply_for_spec m1 in
  let c1 := emit ((fun p => EvPeekRx p m1) <$> peekHandlers (handlers c)) (set_lastRead now c) in
  rx rng m now c =
  (Ret tt, if decide (rf = -1) then receive m2 c1
           else let c2 := count_reply rng now c1 in
             match RemoveWaiter rf (waiters c2) with
             | (Some r, w) => emit [EvAcceptReply r m2] (set_waiters w c2)
             | (None, w) => receive m2 (set_waiters w c2)
             end).
Proof.
  intros m1 m2 rf c1. unfold rx. cbn zeta.
  change (handlers (set_lastRead now c)) with (handlers c). fold m1. fold c1.
  assert (IsReply m1 = (Ret (bool_decide (rf ≠ -1)), m2)) as ->.
  { pose proof (ReplyFor_value m1) as E. unfold ReplyFor, IsReply in *. cbn [fst] in *. by rewrite E. }
  assert ((ReplyFor m2).1 = Ret rf) as ->.
  { unfold m2, rf. rewrite <- (ReplyFor_value m1). unfold ReplyFor. cbn. by rewrite cacheReplyFor_idemp. }
  case_bool_decide as H; case_decide; try done. by destruct (RemoveWaiter _ _) as [[|] ?].
Qed.

(** C17: delivery of a received message.  A message is transformed and shown to
    the peek handlers, and then delivered to exactly one place, without
    panicking: to the waiter for the sequence it replies to, which is then no
    longer waiting, or else to the handler of its content type, or else to the
    any-type handler, or else dropped.  A reply for which somebody waits misses
    its waiter only if that waiter had expired. *)
Theorem rx_delivery (rng : gmap Z (waiter receiver) -> list (Z * waiter receiver)) `{!RangeOrder rng}
    (m : Message) (now : Z) (c : channelImpl) :
  let m1 := foldl (fun m f => f m) m (transformRx (handlers c)) in
  let m2 := cacheReplyFor m1 in
  let rf := reply_for_spec m1 in
  exists c' e, rx rng m now c = (Ret tt, c') /\ lastRead c' = now /\
    log c' = log c ++ ((fun p => EvPeekRx p m1) <$> peekHandlers (handlers c)) ++ [e] /\
    ((rf ≠ -1 /\ exists w, Waiters.m (waiters c) !! rf = Some w /\
        e = EvAcceptReply (replyReceiver w) m2 /\ Waiters.m (waiters c') !! rf = None) \/
     ((rf = -1 \/ forall w, Waiters.m (waiters c) !! rf = Some w -> ttlMs w < now) /\
      e = deliver_to (receiveHandlers (handlers c)) (ContentType m1) m2)).
Proof.
  intros m1 m2 rf. rewrite rx_spec. cbn zeta. fold m1 m2 rf.
  set (c1 := emit _ (set_lastRead now c)).
  assert (ContentType m2 = ContentType m1) as Ect by apply cacheReplyFor_same.
  case_decide as Hrf.
  { rewrite receive_log, Ect. eexists _, _. split; [reflexivity|]. split; [done|].
    split; [cbn; by rewrite <- app_assoc|]. right. auto. }
  pose proof (count_reply_waiters rng now c1 rf) as Hcw.
  pose proof (count_reply_quiet rng now c1) as (Eh & _ & _ & _).
  assert (lastRead (count_reply rng now c1) = now /\ log (count_reply rng now c1) = log c1) as [Elr El]
    by (unfold count_reply; by case_match).
  set (c2 := count_reply rng now c1) in *. unfold RemoveWaiter.
  destruct (Waiters.m (waiters c2) !! rf) as [w|] eqn:Ew.
  - eexists _, _. split; [reflexivity|]. split; [done|]. split; [cbn; rewrite El; cbn; by rewrite <- app_assoc|].
    left. split; [done|]. exists w. split; [|split; [done | cbn; by rewrite lookup_delete_eq]].
    destruct Hcw as [Hcw|[Hcw _]]; [by symmetry | congruence].
  - rewrite receive_log, Ect. eexists _, _. split; [reflexivity|]. split; [done|].
    split; [cbn; rewrite El; cbn; by rewrite <- app_assoc|]. right. split; [|cbn; by rewrite Eh].
    right. intros w' Hw'. destruct Hcw as [Hcw|[_ Hcw]]; [|by apply Hcw].
    change (None = Waiters.m (waiters c) !! rf) in Hcw. congruence.
Qed.

Lemma rx_delivery_witness :
  let u := mkUnderlay 1 (lit "id") (lit "c") ∅ 0 in
  let c := set_handlers (fun _ => mkHandlers (<[7 := Plain 3]> ∅) [1%nat] [] [] [] [])
             (fresh_channel (mkArgs true true (Some u) false ∅ 0 [] [] None) u) in
  let m := NewMessage 7 (lit "x") in
  exists c' e, rx (fun m => map_to_list m) m 5 c = (Ret tt, c') /\ log c' = [EvPeekRx 1 m; e] /\
    e = EvReceive (Plain 3) (cacheReplyFor m).
Proof.
  intros u c m.
  destruct (rx_delivery (fun m => map_to_list m) m 5 c) as (c' & e & E & _ & Hl & [[Hr _]|[_ He]]).
  - exfalso. apply Hr. vm_compute. reflexivity.
  - exists c', e. split; [exact E|]. split; [exact Hl | exact He].
Defined.

(** The message a send hands to the underlay. *)
Definition transformed (c : channelImpl) (m : Message) : Message :=
  foldl (fun m f => f m) m (transformTx (handlers c)).

(** A sender hears of the fate of its message. *)
Definition told (e : event) : bool :=
  match e with EvNotifyErr _ | EvNotifyAfterWrite => true | _ => false end.

Definition wrote (e : event) : bool := match e with EvWrite _ => true | _ => false end.

Lemma quiet_fmap (p : event -> bool) {A} (f : A -> event) l :
  (forall x, p (f x) = false) -> existsb p (f <$> l) = false.
Proof. intros H. induction l; cbn; [done|]. by rewrite H. Qed.

(** The waiter a send registers, if it asks for a reply. *)
Definition registered (s : sendable) (m : Message) (now : Z) (w : waiterMap receiver)
    : option (waiter receiver) :=
  match replyTo s with
  | Some r => Some (mkWaiter r (default (now + 30000) (deadline s)))
  | None => Waiters.m w !! sequence m
  end.

Lemma AddWaiter_lookup s m now w :
  Waiters.m (AddWaiter (mkWaiting (replyTo s) (deadline s) (sequence m)) now w) !! sequence m =
  registered s m now w.
Proof.
  unfold AddWaiter, registered. cbn. destruct (replyTo s) as [r|]; [|done]. cbn.
  rewrite lookup_insert_eq. by destruct (deadline s).
Qed.

Lemma RemoveWaiter_lookup (seq : Z) (w : waiterMap receiver) : Waiters.m (RemoveWaiter seq w).2 !! seq = None.
Proof.
  unfold RemoveWaiter. destruct (Waiters.m w !! seq) eqn:E; cbn; [by rewrite lookup_delete_eq | done].
Qed.

(** C20: sending.  The events [es] of a send: a message reaches the underlay
    exactly when its write context is alive, there is a message and the write
    timeout could be set; then it is the transformed message, announced before
    and written once.  A send fails only when setting the timeout or the write
    failed.  The sender hears of the fate of its message unless there was no
    message or the failed write was queued again; it is told "written" without
    an error only if the write succeeded.  After a successful write the waiter
    for the reply is registered and after a failed one there is none; but if
    setting the timeout fails, the waiter stays although nothing was sent. *)
Theorem tx_paths (env : tx_env) (s : sendable) (writeTimeout now : Z) (c : channelImpl) :
  let r := tx env s writeTimeout now c in
  let timeoutErr := if decide (0 < writeTimeout) then setTimeoutErr env else None in
  exists es, log r.2 = log c ++ es /\
    (existsb wrote es = true <-> writeContextErr s = None /\ msg s ≠ None /\ timeoutErr = None) /\
    (existsb wrote es = true -> exists m0 es', msg s = Some m0 /\
       es = EvNotifyBeforeWrite :: EvWrite (transformed c m0) :: es' /\ existsb wrote es' = false /\
       r.1 = match txErr env with None => Ret tt | Some e => Err e end /\
       Waiters.m (waiters r.2) !! sequence (transformed c m0) =
         match txErr env with Some _ => None | None => registered s (transformed c m0) now (waiters c) end) /\
    (existsb wrote es = false -> r.1 = Ret tt \/ exists m0 e,
       msg s = Some m0 /\ r.1 = Err e /\ timeoutErr = Some e /\
       Waiters.m (waiters r.2) !! sequence (transformed c m0) =
         registered s (transformed c m0) now (waiters c)) /\
    (existsb told es = false <-> writeContextErr s = None /\
       (msg s = None \/ existsb wrote es = true /\ txErr env ≠ None /\ requeued env = true)) /\
    (EvNotifyAfterWrite ∈ es -> (forall e, EvNotifyErr e ∉ es) -> existsb wrote es = true /\ txErr env = None).
Proof.
  intros r timeoutErr. unfold r, tx. fold timeoutErr.
  destruct (writeContextErr s) as [ce|].
  { eexists. split; [reflexivity|]. cbn. split_and!; try naive_solver.
    - intros [[=]|[]%elem_of_nil]%elem_of_cons. }
  destruct (msg s) as [m0|].
  2: { eexists. split; [reflexivity|]. cbn. split_and!; try naive_solver.
    intros [[=]|[]%elem_of_nil]%elem_of_cons. }
  change (foldl _ m0 _) with (transformed c m0). set (m := transformed c m0).
  destruct timeoutErr as [te|].
  { eexists. split; [cbn; rewrite <- app_assoc; reflexivity|]. cbn. split_and!; try naive_solver.
    - intros _. right. exists m0, te. split_and!; try done. apply AddWaiter_lookup.
    - intros [[=]|[[=]|[]%elem_of_nil]%elem_of_cons]%elem_of_cons. }
  destruct (txErr env) as [we|].
  - destruct (requeued env); (eexists; split; [cbn; rewrite <- !app_assoc; reflexivity|]).
    all: cbn; rewrite ?existsb_app, !quiet_fmap by done; cbn; split_and!; try naive_solver.
    + intros _. eexists _, _. split_and!; try done; [by apply quiet_fmap | apply RemoveWaiter_lookup].
    + intros [[=]|[[=]|H]%elem_of_cons]%elem_of_cons. apply list_elem_of_fmap in H as (? & ? & _). done.
    + intros _. eexists _, _. split_and!; try done; [by rewrite existsb_app, quiet_fmap | apply RemoveWaiter_lookup].
    + intros _ H. exfalso. apply (H we). do 2 right. apply elem_of_app. right. by left.
  - eexists. split; [cbn; rewrite <- !app_assoc; reflexivity|].
    cbn. rewrite existsb_app, !quiet_fmap by done. cbn. split_and!; try naive_solver.
    intros _. eexists _, _. split_and!; try done; [by rewrite existsb_app, quiet_fmap | apply AddWaiter_lookup].
Qed.

(** ** Lemmas: constraints *)

Section ConstraintLemmas.
Context (closeErr : nat -> option error)
  (crng : gmap gostring UnderlayConstraint -> list (gostring * UnderlayConstraint)) `{!RangeOrder crng}.

(** The number of underlays of a type that a channel holds. *)
Definition holds (c : channelImpl) (t : gostring) : Z := count_type t (entries (underlays c)).

Lemma counts_holds c t : counts_of (CountsByType (underlays c)) t = holds c t.
Proof using Type.
  unfold counts_of, holds. rewrite CountsByType_lookup. cbn zeta. case_decide as E; [by rewrite E | done].
Qed.

Lemma crng_Forall (P : gostring -> UnderlayConstraint -> Prop) cs :
  Forall (fun tk => P tk.1 tk.2) (crng cs) <-> (forall t k, cs !! t = Some k -> P t k).
Proof using RangeOrder0.
  rewrite (range_perm (rng := crng)), Forall_forall. split.
  - intros H t k E. apply (H (t, k)), elem_of_map_to_list, E.
  - intros H [t k] E. apply H. by apply elem_of_map_to_list in E.
Qed.

(** Enough underlays: every minimum, and the minimum in total. *)
Definition enough (c : channelImpl) : Prop :=
  (forall t k, constraints (cfg c) !! t = Some k -> Min k <= holds c t) /\
  minTotalUnderlays (cfg c) <= len (entries (underlays c)).

Lemma close_if_spec b c : (close_if closeErr b c) = (Ret tt, if b then (Close closeErr c).2 else c).
Proof using Type.
  unfold close_if, when. destruct b; [|done]. destruct (isClosed c) eqn:Hc.
  - unfold mbind, ST_bind. by rewrite Close_closed.
  - unfold mbind, ST_bind. by rewrite Close_spec.
Qed.

Lemma minimums_met_spec counts b cs c :
  minimums_met closeErr counts b cs c =
  if decide (Forall (fun tk => Min tk.2 <= counts_of counts tk.1) cs) then (Ret true, c)
  else (Ret false, if b then (Close closeErr c).2 else c).
Proof using Type.
  induction cs as [|[t k] cs IH]; cbn [minimums_met].
  - by rewrite decide_True by constructor.
  - destruct (decide (counts_of counts t < Min k)) as [Hm|Hm].
    + rewrite decide_False by (intros [H _]%Forall_cons; cbn in H; lia).
      unfold mbind, ST_bind. by rewrite close_if_spec.
    + rewrite IH. destruct (decide (Forall _ cs)) as [HF|HF].
      * rewrite decide_True; [done|]. constructor; [cbn; lia | done].
      * rewrite decide_False; [done|]. by intros [_ H]%Forall_cons.
Qed.

(** The check of the counts of a channel. *)
Lemma valid_spec c b :
  (enough c /\ countsShowValidState closeErr crng (CountsByType (underlays c)) b c = (Ret true, c)) \/
  (¬ enough c /\ countsShowValidState closeErr crng (CountsByType (underlays c)) b c =
     (Ret false, if b then (Close closeErr c).2 else c)).
Proof using RangeOrder0.
  unfold countsShowValidState. unfold mbind, ST_bind, gets. rewrite minimums_met_spec.
  assert (Forall (fun tk => Min tk.2 <= counts_of (CountsByType (underlays c)) tk.1) (crng (constraints (cfg c))) <->
    (forall t k, constraints (cfg c) !! t = Some k -> Min k <= holds c t)) as Hiff.
  { rewrite (crng_Forall (fun t k => Min k <= counts_of (CountsByType (underlays c)) t)).
    by setoid_rewrite counts_holds. }
  case_decide as HF; cbn.
  - unfold total_of. rewrite CountsByType_total. unfold GetAll. case_decide as Ht.
    + right. split; [intros [_ H]; lia|]. by rewrite close_if_spec.
    + left. split; [|done]. split; [by apply Hiff | lia].
  - right. split; [|done]. intros [H _]. by apply HF, Hiff.
Qed.

End ConstraintLemmas.

(** The constraint check.  It succeeds exactly when the channel holds at
    least the minimum of every constrained type and the minimum in total, and
    then changes nothing; when it fails, the channel is closed if that was
    asked for and left alone otherwise. *)
Theorem constraints_checked (closeErr : nat -> option error)
    (crng : gmap gostring UnderlayConstraint -> list (gostring * UnderlayConstraint)) `{!RangeOrder crng}
    (closeIfInvalid : bool) (c : channelImpl) :
  let r := checkConstraintsValid closeErr crng closeIfInvalid c in
  (r = (Ret true, c) /\ enough c) \/
  (r = (Ret false, if closeIfInvalid then (Close closeErr c).2 else c) /\ ¬ enough c).
Proof.
  cbn zeta. unfold checkConstraintsValid, mbind, ST_bind, gets.
  destruct (valid_spec closeErr crng c closeIfInvalid) as [[H E]|[H E]]; rewrite E; auto.
Qed.

Lemma constraints_checked_witness :
  let u := mkUnderlay 1 (lit "id") (lit "c") (<[GroupSecretHeader := lit "s"]> ∅) 0 in
  let args := mkArgs true true (Some u) false ∅ 2 [] [] None in
  let c := default (fresh_channel args u) (NewChannel (fun _ => None) args).2 in
  let r := checkConstraintsValid (fun _ => None) (fun m => map_to_list m) true c in
  r.1 = Ret false /\ isClosed r.2 = true.
Proof.
  intros u args c r.
  destruct (constraints_checked (fun _ => None) (fun m => map_to_list m) true c) as [[_ [_ H]]|[H _]].
  - exfalso. vm_compute in H. apply H. reflexivity.
  - unfold r. rewrite H. split; [reflexivity | vm_compute; reflexivity].
Defined.

(** ** Lemmas: dialing *)

Section Dialing.
Context (closeErr : nat -> option error)
  (crng : gmap gostring UnderlayConstraint -> list (gostring * UnderlayConstraint)) `{!RangeOrder crng}
  (dial : nat -> gostring -> bool -> gostring -> bytes -> outcome Underlay).

(** Every dial for a constrained type gives an underlay of that type, of the
    group. *)
Definition dials_ok (k : Config) : Prop := forall n t first id secret,
  is_Some (constraints k !! t) -> exists u,
  dial n t first id secret = Ret u /\ GetUnderlayType u = t /\ secret_of u = secret.

Context (k : Config) (dial_ok : dials_ok k).

(** A channel that takes new underlays, with the configuration [k]. *)
Definition open_with (c : channelImpl) : Prop :=
  cfg c = k /\ isMultiUnderlayCapable c = true /\ isClosed c = false.

Lemma count_type_app t es es' : count_type t (es ++ es') = count_type t es + count_type t es'.
Proof using Type. unfold count_type. by rewrite filter_app, len_app. Qed.

Lemma AcceptUnderlay_ok u c :
  isMultiUnderlayCapable c = true -> secret_of u = groupSecret (cfg c) -> isClosed c = false ->
  exists c', AcceptUnderlay u c = (Ret tt, c') /\ cfg c' = cfg c /\ isClosed c' = false /\
    entries (underlays c') = entries (underlays c) ++ [u].
Proof using Type.
  intros Hm Hs Hc. unfold AcceptUnderlay. fold (secret_of u). rewrite Hm, Hc. cbn [negb].
  rewrite decide_False by (intros ?; congruence). by eexists.
Qed.

Lemma dialUnderlay_spec n t c :
  is_Some (constraints k !! t) ->
  open_with c ->
  exists c', dialUnderlay dial n t c = (Ret tt, c') /\ open_with c' /\
    (forall t', holds c' t' = holds c t' + if decide (t' = t) then 1 else 0) /\
    len (entries (underlays c')) = len (entries (underlays c)) + 1.
Proof using dial_ok.
  intros Ht (Hk & Hm & Hc). unfold dialUnderlay.
  destruct (dial_ok n t (bool_decide (GetAll (underlays c) = [])) (channelId (cfg c)) (groupSecret (cfg c)) Ht)
    as (u & -> & Hu & Hs).
  destruct (AcceptUnderlay_ok u c Hm Hs Hc) as (c' & E & Ek & Ec & Ee).
  exists c'. split; [by eapply ignore_Ret|]. split; [unfold open_with, isMultiUnderlayCapable in *; by rewrite Ek|].
  rewrite Ee, len_app. split; [|done]. intros t'. unfold holds. rewrite Ee, count_type_app. f_equal.
  unfold count_type. rewrite filter_cons, filter_nil. destruct (decide (t' = t)) as [->|Ht'].
  - by rewrite decide_True.
  - by rewrite decide_False by congruence.
Qed.

(** A pass gives one more underlay of each type that was short. *)
Lemma dial_missing_spec counts cs : forall n c,
  Forall (fun t => is_Some (constraints k !! t)) cs.*1 -> open_with c -> NoDup cs.*1 ->
  exists c' n', dial_missing dial counts n cs c =
      (Ret (forallb (fun tk => bool_decide (Desired tk.2 <= counts_of counts tk.1)) cs, n'), c') /\
    open_with c' /\ len (entries (underlays c)) <= len (entries (underlays c')) /\
    forall t, holds c' t = holds c t +
      if decide (Exists (fun tk => tk.1 = t /\ counts_of counts t < Desired tk.2) cs) then 1 else 0.
Proof using dial_ok.
  induction cs as [|[t kk] cs IH]; intros n c Hcs Ho Hnd; cbn [dial_missing].
  - exists c, n. split_and!; [done | done | lia |]. intros t.
    rewrite decide_False by (by inversion 1). lia.
  - cbn [fmap list_fmap] in Hnd, Hcs. apply Forall_cons in Hcs as [Ht Hcs]. apply NoDup_cons in Hnd as [Hnin Hnd]. cbn [forallb fst snd].
    assert (forall t', Exists (fun tk => tk.1 = t' /\ counts_of counts t' < Desired tk.2) cs -> t' ≠ t) as Hne.
    { intros t' ([t1 k1] & Hin & E & _)%Exists_exists ->. cbn in E. subst t1.
      apply Hnin, list_elem_of_fmap. by exists (t, k1). }
    case_decide as Hd.
    + destruct (dialUnderlay_spec n t c Ht Ho) as (c1 & E1 & Ho1 & Hh1 & Hl1).
      destruct (IH (S n) c1 Hcs Ho1 Hnd) as (c2 & n2 & E2 & Ho2 & Hl2 & Hh2).
      exists c2, n2. rewrite bool_decide_eq_false_2 by lia. cbn [andb].
      split; [unfold mbind, ST_bind; by rewrite E1, E2|]. split; [done|]. split; [lia|]. intros t'.
      rewrite Hh2, Hh1. destruct (decide (Exists _ cs)) as [He|He].
      * rewrite decide_False by (by apply Hne). rewrite decide_True by (by right). lia.
      * destruct (decide (t' = t)) as [->|Ht']; [rewrite decide_True by (by left) | rewrite decide_False]; [lia | lia |].
        intros [[? _]|?]%Exists_cons; [by apply Ht' | done].
    + destruct (IH n c Hcs Ho Hnd) as (c2 & n2 & E2 & Ho2 & Hl2 & Hh2). exists c2, n2.
      rewrite bool_decide_eq_true_2 by lia. cbn [andb]. do 3 (split; [done|]).
      intros t'. rewrite Hh2. f_equal. apply decide_ext. rewrite Exists_cons. cbn. split; [auto|].
      intros [[-> ?]|?]; [lia | done].
Qed.

(** What a type has after the pass, and after the loop. *)
Definition next_count (c : channelImpl) (t : gostring) : Z :=
  match constraints k !! t with
  | Some kk => if decide (holds c t < Desired kk) then holds c t + 1 else holds c t
  | None => holds c t
  end.

Definition final_count (c : channelImpl) (t : gostring) : Z :=
  match constraints k !! t with
  | Some kk => Z.max (holds c t) (Desired kk)
  | None => holds c t
  end.

Definition satisfied (c : channelImpl) : Prop :=
  forall t kk, constraints k !! t = Some kk -> Desired kk <= holds c t.

Lemma satisfied_iff c :
  forallb (fun tk => bool_decide (Desired tk.2 <= counts_of (CountsByType (underlays c)) tk.1))
    (crng (constraints k)) = true <-> satisfied c.
Proof using RangeOrder0.
  unfold satisfied. rewrite <- (crng_Forall crng (fun t kk => Desired kk <= holds c t)).
  rewrite <- Is_true_true, forallb_True. apply Forall_iff. intros [t kk]. cbn. rewrite counts_holds.
  by rewrite bool_decide_spec.
Qed.

Lemma pass_spec n c :
  open_with c ->
  exists c' n' b, dial_missing dial (CountsByType (underlays c)) n (crng (constraints k)) c = (Ret (b, n'), c') /\
    (b = true <-> satisfied c) /\ open_with c' /\
    len (entries (underlays c)) <= len (entries (underlays c')) /\
    forall t, holds c' t = next_count c t.
Proof using dial_ok RangeOrder0.
  intros Ho.
  destruct (dial_missing_spec (CountsByType (underlays c)) (crng (constraints k)) n c)
    as (c' & n' & E & Ho' & Hl & Hh); [|done|apply (range_NoDup crng)|].
  { apply Forall_fmap, (crng_Forall crng (fun t _ => is_Some (constraints k !! t))). eauto. }
  eexists c', n', _. split; [exact E|]. split; [apply satisfied_iff|]. split; [done|]. split; [done|].
  intros t. rewrite Hh, counts_holds. unfold next_count.
  assert (Exists (fun tk => tk.1 = t /\ holds c t < Desired tk.2) (crng (constraints k)) <->
    exists kk, constraints k !! t = Some kk /\ holds c t < Desired kk) as Hex.
  { rewrite (range_perm (rng := crng)), Exists_exists. split.
    - intros ([t' kk] & Hin & Ht & Hd). apply elem_of_map_to_list in Hin. cbn in *. subst. eauto.
    - intros (kk & Hk & Hd). exists (t, kk). by rewrite elem_of_map_to_list. }
  case_decide as He.
  - apply Hex in He as (kk & -> & Hd). by rewrite decide_True.
  - destruct (constraints k !! t) as [kk|] eqn:Ek; [|lia]. rewrite decide_False; [lia|].
    intros Hd. apply He, Hex. eauto.
Qed.

Lemma enough_grows c c' :
  cfg c = k -> cfg c' = k -> len (entries (underlays c)) <= len (entries (underlays c')) ->
  (forall t, holds c' t = next_count c t) -> enough c -> enough c'.
Proof using Type.
  intros Hk Hk' Hl Hh [H1 H2]. unfold enough. rewrite Hk' in *. rewrite Hk in *. split; [|lia].
  intros t kk E. specialize (H1 t kk E). rewrite Hh. unfold next_count. rewrite E. case_decide; lia.
Qed.

Lemma constraint_loop_spec fuel : forall n c,
  open_with c -> enough c -> (0 < fuel)%nat ->
  (forall t kk, constraints k !! t = Some kk -> Desired kk - holds c t < Z.of_nat fuel) ->
  exists c', constraint_loop closeErr crng dial fuel n c = (Ret tt, c') /\ open_with c' /\ enough c' /\
    forall t, holds c' t = final_count c t.
Proof using dial_ok RangeOrder0.
  induction fuel as [|fuel IH]; intros n c Ho He Hf Hd; [lia|]. pose proof Ho as (Hk & Hm & Hc).
  cbn [constraint_loop]. unfold mbind, ST_bind, gets. rewrite Hc.
  destruct (valid_spec closeErr crng c true) as [[_ Ev]|[Hn _]]; [|done]. rewrite Ev. cbn [negb].
  rewrite Hk. destruct (pass_spec n c Ho) as (c1 & n1 & b & E & Hb & Ho1 & Hl & Hh). rewrite E.
  destruct b.
  - exists c1. split; [done|]. split; [done|]. split; [by eapply enough_grows; [..|exact He]; first [done | apply Ho1]|].
    intros t. rewrite Hh. unfold next_count, final_count. destruct (constraints k !! t) as [kk|] eqn:Et; [|done].
    assert (satisfied c) as Hs by (by apply Hb). specialize (Hs t kk Et). case_decide; lia.
  - assert ((0 < fuel)%nat) as Hf'.
    { destruct fuel; [|lia]. exfalso. enough (satisfied c) by (by apply Hb in H).
      intros t kk Et. specialize (Hd t kk Et). lia. }
    destruct (IH n1 c1 Ho1) as (c2 & E2 & Ho2 & He2 & Hh2); [|done| |].
    + by eapply enough_grows; [..|exact He]; first [done | apply Ho1].
    + intros t kk Et. specialize (Hd t kk Et). rewrite Hh. unfold next_count. rewrite Et. case_decide; lia.
    + exists c2. split; [exact E2|]. split; [done|]. split; [done|]. intros t. rewrite Hh2.
      unfold final_count. rewrite Hh. unfold next_count. destruct (constraints k !! t); [case_decide; lia | done].
Qed.

End Dialing.

(** C22: the constraint loop.  Where every dial gives an underlay of the type
    asked for that carries the group's secret, an open channel with a dial
    policy that meets its minimums fills up: the call returns after as many
    passes as the largest shortage plus one, the channel is still open and
    valid, every constrained type has exactly its desired number (or what it
    had, if that was more), the others are as before, and the in-progress flag
    is released without asking for another run. *)
Theorem constraints_fill (closeErr : nat -> option error)
    (crng : gmap gostring UnderlayConstraint -> list (gostring * UnderlayConstraint)) `{!RangeOrder crng}
    (dial : nat -> gostring -> bool -> gostring -> bytes -> outcome Underlay) (fuel : nat) (c : channelImpl) :
  dials_ok dial (cfg c) ->
  hasDialPolicy (cfg c) = true -> isClosed c = false -> applyInProgress c = false -> enough c ->
  constraints (cfg c) ≠ ∅ -> (0 < fuel)%nat ->
  (forall t kk, constraints (cfg c) !! t = Some kk -> Desired kk - holds c t < Z.of_nat fuel) ->
  exists c', applyConstraints closeErr crng dial fuel c = (Ret tt, c') /\ isClosed c' = false /\
    enough c' /\ applyInProgress c' = false /\ (forall t, holds c' t = final_count (cfg c) c t) /\
    areConstraintDesiresSatisfied crng c' = true.
Proof.
  intros Hdial Hp Hc Ha He Hne Hf Hd. unfold applyConstraints.
  assert (base.size (constraints (cfg c)) ≠ 0%nat) as Hs by (by rewrite map_size_empty_iff).
  rewrite bool_decide_eq_false_2 by done. cbn [andb]. rewrite Hc.
  unfold checkConstraintsValid, mbind, ST_bind, gets. 
  destruct (valid_spec closeErr crng c true) as [[_ Ev]|[Hn _]]; [|done]. rewrite Ev. cbn [negb]. rewrite Ha.
  set (c0 := set_applyInProgress true c).
  assert (open_with (cfg c) c0) as Ho.
  { split; [done|]. split; [|done]. unfold isMultiUnderlayCapable. cbn. by rewrite Hp. }
  destruct (constraint_loop_spec closeErr crng dial (cfg c) Hdial fuel 0 c0 Ho He Hf Hd)
    as (c1 & E & (Hk1 & Hm1 & Hc1) & He1 & Hh1).
  change (modify (set_applyInProgress true) c) with (Ret tt, c0).
  assert (areConstraintDesiresSatisfied crng (set_applyInProgress false c1) = true) as Hsat.
  { unfold areConstraintDesiresSatisfied. cbn. rewrite Hk1. apply (satisfied_iff crng).
    intros t kk Et. rewrite Hh1. unfold final_count. rewrite Et. lia. }
  exists (set_applyInProgress false c1). split_and!; [|done..].
  eapply deferred_Ret.
  - cbn [negb]. change (hasDialPolicy (cfg c0)) with (hasDialPolicy (cfg c)). rewrite Hp. exact E.
  - unfold modify. rewrite Hsat. cbn [negb]. by rewrite andb_false_r.
Qed.

Lemma constraints_fill_witness :
  let group t secret := <[TypeHeader := t]> (<[GroupSecretHeader := secret]> ∅) in
  let dial n t (first : bool) id secret := Ret (mkUnderlay (n + 2) id id (group t secret) 0) in
  let u := mkUnderlay 1 (lit "id") (lit "c") (group (lit "a") (lit "s")) 0 in
  let cs : gmap gostring UnderlayConstraint :=
    <[lit "a" := mkConstraint 3 1]> (<[lit "b" := mkConstraint 1 0]> ∅) in
  let args := mkArgs true true (Some u) true cs 1 [] [] None in
  let c := default (fresh_channel args u) (NewChannel (fun _ => None) args).2 in
  exists c', applyConstraints (fun _ => None) (fun m => map_to_list m) dial 3 c = (Ret tt, c') /\
    holds c' (lit "a") = 3 /\ holds c' (lit "b") = 1.
Proof.
  intros group dial u cs args c. assert (constraints (cfg c) = cs) as Ecs by reflexivity.
  destruct (constraints_fill (fun _ => None) (fun m => map_to_list m) dial 3 c)
    as (c' & E & _ & _ & _ & Hh & _).
  - intros n t first id secret [k Ht]. eexists. split; [reflexivity|].
    rewrite Ecs in Ht; apply lookup_insert_Some in Ht as [[<- _]|[_ [[<- _]|[_ [=]]]%lookup_insert_Some]]; split; reflexivity.
  - reflexivity.
  - reflexivity.
  - reflexivity.
  - split; [|vm_compute; discriminate]. intros t k Ht.
    rewrite Ecs in Ht; apply lookup_insert_Some in Ht as [[<- <-]|[_ [[<- <-]|[_ [=]]]%lookup_insert_Some]]; vm_compute; discriminate.
  - intros H. apply (f_equal (fun m : gmap gostring UnderlayConstraint => m !! lit "a")) in H. discriminate H.
  - lia.
  - intros t k Ht.
    rewrite Ecs in Ht; apply lookup_insert_Some in Ht as [[<- <-]|[_ [[<- <-]|[_ [=]]]%lookup_insert_Some]]; vm_compute; reflexivity.
  - exists c'. split; [exact E|]. split; [exact (Hh (lit "a")) | exact (Hh (lit "b"))].
Defined.

(** ** Lemmas: the loops *)

(** The messages given to a waiter or a handler, or dropped, in order. *)
Definition deliveries (es : list event) : list Message :=
  omap (fun e => match e with EvAcceptReply _ m | EvReceive _ m | EvDropped m => Some m | _ => None end) es.

(** The messages handed to an underlay, in order. *)
Definition writes (es : list event) : list Message :=
  omap (fun e => match e with EvWrite m => Some m | _ => None end) es.

Lemma deliveries_app es1 es2 : deliveries (es1 ++ es2) = deliveries es1 ++ deliveries es2.
Proof. apply omap_app. Qed.

Lemma writes_app es1 es2 : writes (es1 ++ es2) = writes es1 ++ writes es2.
Proof. apply omap_app. Qed.

(** A change that delivers and writes nothing and removes no underlay. *)
Definition tidy (c c' : channelImpl) : Prop :=
  handlers c' = handlers c /\ underlays c' = underlays c /\ cfg c' = cfg c /\
  closedUnderlays c ⊆ closedUnderlays c' /\
  deliveries (log c') = deliveries (log c) /\ writes (log c') = writes (log c).

#[global] Instance tidy_preorder : PreOrder tidy.
Proof.
  split; [by intros c|]. intros c1 c2 c3 (A1 & A2 & A3 & A4 & A5 & A6) (B1 & B2 & B3 & B4 & B5 & B6).
  split_and!; try congruence. by etrans.
Qed.

Lemma omap_fmap_none {A B C} (f : A -> B) (g : B -> option C) l :
  (forall x, g (f x) = None) -> omap g (f <$> l) = [].
Proof. intros H. induction l as [|x l IH]; [done|]. cbn. by rewrite H. Qed.

Lemma tidy_emit es c : deliveries es = [] -> writes es = [] -> tidy c (emit es c).
Proof.
  intros H1 H2. split_and!; try done; cbn; by rewrite ?deliveries_app, ?writes_app, ?H1, ?H2, app_nil_r.
Qed.

Lemma Close_tidy closeErr c : tidy c (Close closeErr c).2.
Proof.
  destruct (isClosed c) eqn:Hc; [by rewrite Close_closed|]. rewrite Close_spec by done.
  split_and!; try done; cbn; [set_solver | ..]; unfold deliveries, writes;
    by rewrite !omap_app, !omap_fmap_none, !app_nil_r.
Qed.

Lemma channel_UnderlayRemoved_tidy closeErr u now c :
  exists c', channel_UnderlayRemoved closeErr u now c = (Ret tt, c') /\ tidy c c'.
Proof.
  unfold channel_UnderlayRemoved. set (c1 := if hasDialPolicy (cfg c) then _ else c).
  assert (tidy c c1) as H1 by (unfold c1; destruct (hasDialPolicy (cfg c)); [by apply tidy_emit | done]).
  destruct (negb (isMultiUnderlayCapable c1)).
  2: { eexists. split; [done|]. etrans; [exact H1 | by apply tidy_emit]. }
  case_decide; [|by exists c1]. exists (Close closeErr c1).2.
  split; [|etrans; [exact H1 | apply Close_tidy]].
  unfold mbind, ST_bind. unfold Close. by destruct (isClosed c1).
Qed.

Lemma notify_tidy closeErr ns now c :
  exists c', notify closeErr ns now c = (Ret tt, c') /\ tidy c c'.
Proof.
  revert c. induction ns as [|n ns IH]; intros c; [by exists c|]. cbn [notify].
  erewrite bind_Ret by reflexivity. set (c1 := emit [EvNotified n] c).
  assert (tidy c c1) as H1 by (by apply tidy_emit).
  assert (exists c2, (match n with UnderlayRemoved Self u => channel_UnderlayRemoved closeErr u now
    | _ => mret tt end) c1 = (Ret tt, c2) /\ tidy c1 c2) as (c2 & E2 & H2).
  { destruct n as [l u|[|k] u]; [by exists c1 | apply channel_UnderlayRemoved_tidy | by exists c1]. }
  erewrite bind_Ret by exact E2. destruct (IH c2) as (c3 & E3 & H3). exists c3. split; [done|].
  by repeat (etrans; [eassumption|]).
Qed.

(** What closing an underlay does: it is closed, its entry is gone, its
    notifier has told. *)
Lemma closeUnderlay_spec closeErr u notifier now c :
  exists c' n', closeUnderlay closeErr u notifier now c = (Ret n', c') /\ notified n' = true /\
    ptr u ∈ closedUnderlays c' /\ entries (underlays c') = (remove_entry u (entries (underlays c))).2 /\
    handlers c' = handlers c /\ deliveries (log c') = deliveries (log c) /\ writes (log c') = writes (log c).
Proof.
  unfold closeUnderlay. erewrite bind_Ret by reflexivity. set (c1 := close_underlay u c).
  assert (exists c2, remove_underlay closeErr u now c1 = (Ret tt, c2) /\ ptr u ∈ closedUnderlays c2 /\
    entries (underlays c2) = (remove_entry u (entries (underlays c))).2 /\ handlers c2 = handlers c /\
    deliveries (log c2) = deliveries (log c) /\ writes (log c2) = writes (log c)) as (c2 & E2 & H2).
  { unfold remove_underlay, Remove. cbn. destruct (remove_entry u _) as [b es].
    match goal with |- context [notify _ ?ns now ?x] => destruct (notify_tidy closeErr ns now x) as (c2 & E2 & T2) end.
    exists c2. split; [exact E2|]. destruct T2 as (T1 & T2 & _ & T4 & T5 & T6). cbn in *.
    rewrite T2. split_and!; try done. set_solver. }
  erewrite bind_Ret by exact E2.
  assert (exists c3, repair_fallback u c2 = (Ret tt, c3) /\ closedUnderlays c3 = closedUnderlays c2 /\
    underlays c3 = underlays c2 /\ handlers c3 = handlers c2 /\ log c3 = log c2) as (c3 & E3 & F1 & F2 & F3 & F4).
  { unfold repair_fallback. repeat case_match; eauto 10. }
  erewrite bind_Ret by exact E3. eexists c3, _. split; [reflexivity|].
  split; [unfold NotifyClosed; by destruct (notified notifier) eqn:?|]. by rewrite F1, F2, F3, F4.
Qed.

Lemma rx_deliveries rng m now c :
  exists c', rx rng m now c = (Ret tt, c') /\ handlers c' = handlers c /\ underlays c' = underlays c /\
    deliveries (log c') = deliveries (log c) ++ [cacheReplyFor (foldl (fun m f => f m) m (transformRx (handlers c)))].
Proof.
  pose proof (rx_core rng m now c) as (_ & Eu & _). pose proof (rx_quiet rng m now c) as (Eh & _).
  rewrite rx_spec in *. cbn zeta in *. set (m1 := foldl _ m _) in *. set (c1 := emit _ (set_lastRead now c)) in *.
  eexists. split; [reflexivity|]. split; [exact Eh|]. split; [exact Eu|]. clear Eu Eh.
  assert (deliveries (log c1) = deliveries (log c)) as E1.
  { cbn. unfold deliveries. by rewrite omap_app, omap_fmap_none, app_nil_r. }
  assert (log (count_reply rng now c1) = log c1) as E2 by (unfold count_reply; by case_match).
  assert (forall m c, deliveries (log (receive m c)) = deliveries (log c) ++ [m]) as Hr.
  { intros m0 c0. rewrite receive_log. cbn [log emit]. rewrite deliveries_app. f_equal.
    unfold deliver_to. by repeat case_match. }
  case_decide; [by rewrite Hr, E1|].
  destruct (RemoveWaiter _ _) as [[r|] w]; [|rewrite Hr; cbn [log set_waiters]; by rewrite E2, E1].
  cbn [log emit set_waiters]. by rewrite deliveries_app, E2, E1.
Qed.

Lemma rx_loop_deliveries rng injectType t ms e reads : forall c,
  exists c', rx_loop rng injectType t (((fun mn => (Ret mn.1, mn.2)) <$> ms) ++ (Err e, 0) :: reads) c = (Ret tt, c') /\
    handlers c' = handlers c /\ underlays c' = underlays c /\
    deliveries (log c') = deliveries (log c) ++
      ((fun mn => cacheReplyFor (foldl (fun m f => f m) (inject_type injectType t mn.1) (transformRx (handlers c)))) <$> ms).
Proof.
  induction ms as [|[m now] ms IH]; intros c.
  - exists c. split_and!; try done. by rewrite app_nil_r.
  - cbn [fmap list_fmap app rx_loop]. destruct (rx_deliveries rng (inject_type injectType t m) now c)
      as (c1 & E1 & Eh & Eu & Ed). erewrite bind_Ret by exact E1.
    destruct (IH c1) as (c2 & E2 & Eh2 & Eu2 & Ed2). exists c2. split; [exact E2|].
    split_and!; try congruence. rewrite Ed2, Ed, Eh, <- app_assoc. done.
Qed.

(** The receive loop.  The loop of an underlay delivers the messages it has
    read one by one and in order, each transformed (and marked with the
    underlay's type where that is configured), to exactly one place, and when
    reading fails it ends: the underlay is closed and removed from the
    channel, its notifier tells the sending loop, and nothing else is
    delivered. *)
Theorem rxer_delivers_in_order (closeErr : nat -> option error)
    (rng : gmap Z (waiter receiver) -> list (Z * waiter receiver)) (injectType : bool) (u : Underlay)
    (notifier : CloseNotifier) (ms : list (Message * Z)) (e : error) (reads : list (outcome Message * Z))
    (closeTime : Z) (c : channelImpl) :
  exists c' n', rxer closeErr rng injectType u notifier
      (((fun mn => (Ret mn.1, mn.2)) <$> ms) ++ (Err e, 0) :: reads) closeTime c = (Ret n', c') /\
    deliveries (log c') = deliveries (log c) ++
      ((fun mn => cacheReplyFor (foldl (fun m f => f m)
          (inject_type injectType (getValidatedUnderlayType c u) mn.1) (transformRx (handlers c)))) <$> ms) /\
    notified n' = true /\ ptr u ∈ closedUnderlays c' /\
    entries (underlays c') = (remove_entry u (entries (underlays c))).2.
Proof.
  unfold rxer. erewrite bind_Ret by reflexivity.
  destruct (rx_loop_deliveries rng injectType (getValidatedUnderlayType c u) ms e reads c)
    as (c1 & E1 & Eh & Eu & Ed). erewrite bind_Ret by exact E1.
  destruct (closeUnderlay_spec closeErr u notifier closeTime c1) as (c2 & n2 & E2 & Hn & Hc & He & _ & Hd & _).
  exists c2, n2. split; [exact E2|]. rewrite Hd, Ed, He, Eu. done.
Qed.

(** The messages a send loop writes: up to the first send that fails. *)
Fixpoint written_by (c : channelImpl) (writeTimeout : Z) (items : list (outcome sendable * tx_env * Z))
    : list Message :=
  match items with
  | (Ret s, env, _) :: items' =>
      let timeoutErr := if decide (0 < writeTimeout) then setTimeoutErr env else None in
      match writeContextErr s, msg s with
      | None, Some m =>
          match timeoutErr, txErr env with
          | Some _, _ => []
          | None, Some _ => [transformed c m]
          | None, None => transformed c m :: written_by c writeTimeout items'
          end
      | _, _ => written_by c writeTimeout items'
      end
  | _ => []
  end.

(** The source ends in an error, which is how it reports that the channel or
    the underlay was closed. *)
Fixpoint source_ends (items : list (outcome sendable * tx_env * Z)) : Prop :=
  match items with
  | (Ret _, _, _) :: items' => source_ends items'
  | (Err _, _, _) :: _ => True
  | _ => False
  end.

Lemma tx_writes env s wt now c :
  let timeoutErr := if decide (0 < wt) then setTimeoutErr env else None in
  exists r c', tx env s wt now c = (r, c') /\ handlers c' = handlers c /\ underlays c' = underlays c /\
    match writeContextErr s, msg s with
    | None, Some m =>
        match timeoutErr, txErr env with
        | Some e, _ => r = Err e /\ writes (log c') = writes (log c)
        | None, Some e => r = Err e /\ writes (log c') = writes (log c) ++ [transformed c m]
        | None, None => r = Ret tt /\ writes (log c') = writes (log c) ++ [transformed c m]
        end
    | _, _ => r = Ret tt /\ writes (log c') = writes (log c)
    end.
Proof.
  cbn zeta. pose proof (tx_core env s wt now c) as (_ & Eu & _). pose proof (tx_quiet env s wt now c) as (Eh & _).
  destruct (tx env s wt now c) as [r c'] eqn:E. exists r, c'. split; [done|]. split; [exact Eh|]. split; [exact Eu|].
  clear Eu Eh. unfold tx in E. destruct (writeContextErr s); [|destruct (msg s) as [m|]].
  all: try (injection E as <- <-; cbn [log emit]; by rewrite writes_app, app_nil_r).
  change (foldl _ m _) with (transformed c m) in E.
  destruct (if decide (0 < wt) then setTimeoutErr env else None); [|destruct (txErr env)].
  - injection E as <- <-. cbn [log emit set_waiters]. by rewrite !writes_app, !app_nil_r.
  - injection E as <- <-. split; [done|]. destruct (requeued env); cbn [log emit set_waiters handlers];
      rewrite !writes_app; unfold writes at 4; by rewrite omap_fmap_none, ?app_nil_r.
  - injection E as <- <-. cbn [log emit set_waiters handlers]. split; [done|].
    rewrite !writes_app. unfold writes at 4. by rewrite omap_fmap_none, ?app_nil_r.
Qed.

Lemma tx_loop_writes wt items : forall c, source_ends items ->
  exists c', tx_loop wt items c = (Ret tt, c') /\ handlers c' = handlers c /\ underlays c' = underlays c /\
    writes (log c') = writes (log c) ++ written_by c wt items.
Proof.
  induction items as [|[[r env] now] items IH]; intros c He; [done|]. cbn [tx_loop source_ends written_by] in *.
  destruct r as [s|e| |]; [|exists c; split_and!; by rewrite ?app_nil_r | done | done].
  destruct (tx_writes env s wt now c) as (r & c1 & E & Eh & Eu & Hw).
  assert (forall c2, handlers c2 = handlers c -> written_by c2 wt items = written_by c wt items) as Hc.
  { intros c2 E2. clear -E2. induction items as [|[[[s| | |] env] now] items IH]; [done| |done..].
    cbn [written_by]. unfold transformed. rewrite E2, IH. done. }
  assert (forall l, writes (log c1) = writes (log c) ++ l -> r = Ret tt ->
    exists c', (r ← attempt (tx env s wt now); match r with inl _ => mret tt | inr _ => tx_loop wt items end) c =
      (Ret tt, c') /\ handlers c' = handlers c /\ underlays c' = underlays c /\
      writes (log c') = writes (log c) ++ l ++ written_by c wt items) as Hgo.
  { intros l Hl ->. erewrite bind_Ret by (by eapply attempt_Ret).
    destruct (IH c1 He) as (c2 & E2 & Eh2 & Eu2 & Hw2). exists c2. split; [exact E2|].
    split_and!; try congruence. by rewrite Hw2, Hl, (Hc c1 Eh), <- app_assoc. }
  assert (forall l e, writes (log c1) = writes (log c) ++ l -> r = Err e ->
    exists c', (r ← attempt (tx env s wt now); match r with inl _ => mret tt | inr _ => tx_loop wt items end) c =
      (Ret tt, c') /\ handlers c' = handlers c /\ underlays c' = underlays c /\
      writes (log c') = writes (log c) ++ l) as Hstop.
  { intros l e Hl ->. erewrite bind_Ret by (by eapply attempt_Err). by exists c1. }
  destruct (writeContextErr s); [|destruct (msg s) as [m|]].
  - destruct Hw as [-> Hw]. apply (Hgo []); [by rewrite app_nil_r | done].
  - destruct (if decide (0 < wt) then setTimeoutErr env else None); [|destruct (txErr env)];
      destruct Hw as [-> Hw].
    + by eapply (Hstop []); [rewrite app_nil_r|].
    + by eapply Hstop.
    + by apply (Hgo [transformed c m]).
  - destruct Hw as [-> Hw]. apply (Hgo []); [by rewrite app_nil_r | done].
Qed.

(** The send loop.  The loop of an underlay hands the messages that the
    message source gives it to the underlay in that order, transformed,
    skipping those whose context has ended, up to the first send that fails.
    When a send fails or the source ends, the underlay is closed and removed
    from the channel and its notifier tells the receiving loop. *)
Theorem txer_writes_in_order (closeErr : nat -> option error) (writeTimeout : Z) (u : Underlay)
    (notifier : CloseNotifier) (items : list (outcome sendable * tx_env * Z)) (closeTime : Z)
    (c : channelImpl) :
  source_ends items ->
  exists c' n', txer closeErr writeTimeout u notifier items closeTime c = (Ret n', c') /\
    writes (log c') = writes (log c) ++ written_by c writeTimeout items /\
    notified n' = true /\ ptr u ∈ closedUnderlays c' /\
    entries (underlays c') = (remove_entry u (entries (underlays c))).2.
Proof.
  intros He. unfold txer.
  destruct (tx_loop_writes writeTimeout items c He) as (c1 & E1 & Eh & Eu & Ew). erewrite bind_Ret by exact E1.
  destruct (closeUnderlay_spec closeErr u notifier closeTime c1) as (c2 & n2 & E2 & Hn & Hc & Hes & _ & _ & Hw).
  exists c2, n2. split; [exact E2|]. rewrite Hw, Ew, Hes, Eu. done.
Qed.

Lemma txer_writes_in_order_witness :
  let u := mkUnderlay 1 (lit "id") (lit "c") ∅ 0 in
  let c := default (fresh_channel (mkArgs true true (Some u) false ∅ 0 [] [] None) u)
             (NewChannel (fun _ => None) (mkArgs true true (Some u) false ∅ 0 [] [] None)).2 in
  let m k := NewMessage k [] in
  let s k := Ret (mkSendable None (Some (m k)) None None) in
  let ok := mkTxEnv None None false in
  exists c' n', txer (fun _ => None) 0 u NewCloseNotifier
      [(s 1, ok, 5); (s 2, mkTxEnv None (Some io_EOF) false, 6); (s 3, ok, 7); (Err io_EOF, ok, 8)] 9 c =
      (Ret n', c') /\ writes (log c') = [m 1; m 2] /\ entries (underlays c') = [].
Proof.
  intros u c m s ok.
  destruct (txer_writes_in_order (fun _ => None) 0 u NewCloseNotifier
    [(s 1, ok, 5); (s 2, mkTxEnv None (Some io_EOF) false, 6); (s 3, ok, 7); (Err io_EOF, ok, 8)] 9 c)
    as (c' & n' & E & Hw & _ & _ & He); [exact I|].
  exists c', n'. split; [exact E|]. split; [exact Hw | exact He].
Defined.
