(* ===== verification/MultiListener.v ===== *)
(** * Routing incoming underlays (src/multi_listener.go)

    [MultiListener.AcceptUnderlay] runs concurrently, once per underlay, beside
    the close callbacks of the channels that were created.  Its model is a step
    relation: a thread runs from one access of shared state (a section under
    the listener's lock, an atomic flag, a call out to the application) to the
    next, and the steps of all threads interleave freely.  What the outside
    answers (an acknowledgement that fails, a refusal, a channel the factory
    creates, a timeout) comes with the step.  Registrations and notifiers live
    in stores and are known by their index, as the code knows them by pointer.
    The two flags a lookup reads only ever go from open to closed, so reading
    them in one step gives no other result than reading them one after the
    other.

    Theorems, over every interleaving: no panic (no notifier is closed twice,
    no nil channel is used), one creator per group, nobody waits for a
    reservation that nobody holds; a group whose first connection was
    acknowledged is found by the group's other connections until its channel
    closes or could not be created; a live registration is never removed; and
    what can happen to an underlay, in order, from admission to its end. *)

From S2P Require Import Prelude Headers Underlays.

(** ** Data *)

(** [registration]; [reg_id] is the id its close callback has captured. *)
Record registration : Type := mkReg {
  reg_ch : option nat;
  reg_closed : bool;
  reg_id : gostring
}.

Record MultiListener : Type := mkListener {
  channels : gmap gostring nat;          (* to registrations *)
  createNotifiers : gmap gostring nat;   (* to notifiers *)
  hasAdmitter : bool
}.

(** [NewMultiListenerWithConfig], which panics without a factory or a
    fallback. *)
Definition NewMultiListenerWithConfig (hasFactory hasFallback admitter : bool) : outcome MultiListener :=
  if negb hasFactory then Panic
  else if negb hasFallback then Panic
  else Ret (mkListener ∅ ∅ admitter).

Definition NewMultiListener (hasFactory hasFallback : bool) : outcome MultiListener :=
  NewMultiListenerWithConfig hasFactory hasFallback false.

(** What all threads share.  [notifiers] has the number of closes of each
    notifier, [closedChs] the channels whose [IsClosed] is true. *)
Record shared : Type := mkShared {
  ml : MultiListener;
  regs : list registration;
  notifiers : list nat;
  closedChs : gset nat
}.

(** What [AcceptUnderlay] did with its underlay. *)
Inductive event : Type :=
  | EvAck (ok : bool)
  | EvFallback (ok : bool)
  | EvAdmit (ok : bool)
  | EvCreated (ch r : nat)           (* by the factory, with registration [r] *)
  | EvFactoryFailed
  | EvAttach (ch : nat)              (* [ch.AcceptUnderlay], which closes it on error *)
  | EvClose
  | EvReject.                        (* [RejectHello], which also closes *)

#[global] Instance event_eq_dec : EqDecision event.
Proof. solve_decision. Defined.

(** A thread acknowledges as the creator, with its notifier, or for a channel. *)
Inductive role : Type := Creating (n : nat) | Attaching (ch : nat).

(** What follows the release of a reservation. *)
Inductive after : Type := AReject | AClose | AReturn.

(** Where a thread is: the next thing it does. *)
Inductive pc : Type :=
  | PStart
  | PAckUngrouped
  | PFallback
  | PLookup
  | PWait (n : nat)
  | PAdmit (n : nat)
  | PAck (who : role)
  | PAttach (ch : nat)
  | PFactory (n : nat)
  | PCreating (n r : nat)
  | PPublish (n r ch : nat)
  | PRelease (n : nat) (next : after)
  | PReject
  | PClose
  | PDone.

Record thread : Type := mkThread { underlay : Underlay; at_pc : pc; did : list event }.

Definition chId (th : thread) : gostring := underlay_ConnectionId (underlay th).
Definition isGrouped (u : Underlay) : bool := (GetBoolHeader (underlay_Headers u) IsGroupedHeader).1.
Definition isFirst (u : Underlay) : bool := (GetBoolHeader (underlay_Headers u) IsFirstGroupConnection).1.

(** ** The sections under the lock *)

Definition set_channels (cs : gmap gostring nat) (l : MultiListener) : MultiListener :=
  mkListener cs (createNotifiers l) (hasAdmitter l).
Definition set_notifiers (ns : gmap gostring nat) (l : MultiListener) : MultiListener :=
  mkListener (channels l) ns (hasAdmitter l).
Definition set_ml (f : MultiListener -> MultiListener) (s : shared) : shared :=
  mkShared (f (ml s)) (regs s) (notifiers s) (closedChs s).

(** [!reg.closed.Load() && !reg.ch.IsClosed()] *)
Inductive liveness : Type := Live (ch : nat) | Stale | NilCh.

Definition live (s : shared) (reg : registration) : liveness :=
  if reg_closed reg then Stale
  else match reg_ch reg with
       | None => NilCh
       | Some ch => if decide (ch ∈ closedChs s) then Stale else Live ch
       end.

Inductive found : Type := Channel (ch : nat) | InProgress (n : nat) | Reserved (n : nat) | Nothing.

(** No channel is registered: an existing reservation, a new one for a first
    connection, or nothing. *)
Definition reserve (first : bool) (id : gostring) (s : shared) : found * shared :=
  match createNotifiers (ml s) !! id with
  | Some n => (InProgress n, s)
  | None =>
      if negb first then (Nothing, s)
      else
        let n := length (notifiers s) in
        (Reserved n, mkShared (set_notifiers (<[id := n]> (createNotifiers (ml s))) (ml s))
                       (regs s) (notifiers s ++ [0%nat]) (closedChs s))
  end.

(** One turn of the lookup loop; [None] is a nil dereference. *)
Definition lookup_group (first : bool) (id : gostring) (s : shared) : option (found * shared) :=
  match channels (ml s) !! id with
  | None => Some (reserve first id s)
  | Some r =>
      match regs s !! r with
      | None => None
      | Some reg =>
          match live s reg with
          | Live ch => Some (Channel ch, s)
          | Stale => Some (reserve first id (set_ml (fun l => set_channels (delete id (channels l)) l) s))
          | NilCh => None
          end
      end
  end.

(** Closing a notifier a second time panics ([None]). *)
Definition releaseReservation (id : gostring) (n : nat) (s : shared) : option shared :=
  match notifiers s !! n with
  | Some 0%nat =>
      Some (mkShared (set_notifiers (delete id (createNotifiers (ml s))) (ml s))
              (regs s) (<[n := 1%nat]> (notifiers s)) (closedChs s))
  | _ => None
  end.

(** The channel is registered unless it closed during its creation. *)
Definition publish (id : gostring) (r ch : nat) (s : shared) : option shared :=
  reg ← regs s !! r;
  if reg_closed reg || bool_decide (ch ∈ closedChs s) then Some s
  else Some (set_ml (fun l => set_channels (<[id := r]> (channels l)) l) s).

(** The two halves of [closeRegistration]: the flag, and the section. *)
Definition mark_closed (r : nat) (s : shared) : shared :=
  mkShared (ml s) (alter (fun reg => mkReg (reg_ch reg) true (reg_id reg)) r (regs s))
    (notifiers s) (closedChs s).

Definition closeRegistration (id : gostring) (r : nat) (s : shared) : shared :=
  if decide (channels (ml s) !! id = Some r)
  then set_ml (fun l => set_channels (delete id (channels l)) l) s else s.

(** ** A thread *)

(** What the outside answers: whether the call succeeds (for a wait: whether
    the notifier rather than the timer ends it), and the factory's channel. *)
Record answer : Type := mkAnswer { ok : bool; newCh : nat }.

(** The result of a step: not possible now, a panic, or the new state. *)
Inductive stepped : Type := Blocked | Panicked | Next (s : shared) (th : thread).

Definition goto (th : thread) (p : pc) (es : list event) : thread :=
  mkThread (underlay th) p (did th ++ es).

(** [MultiListener.AcceptUnderlay], one step. *)
Definition run_thread (a : answer) (s : shared) (th : thread) : stepped :=
  let u := underlay th in
  match at_pc th with
  | PStart => Next s (goto th (if isGrouped u then PLookup else PAckUngrouped) [])
  | PAckUngrouped =>
      if ok a then Next s (goto th PFallback [EvAck true])
      else Next s (goto th PDone [EvAck false; EvClose])
  | PFallback =>
      if ok a then Next s (goto th PDone [EvFallback true])
      else Next s (goto th PDone [EvFallback false; EvClose])
  | PLookup =>
      match lookup_group (isFirst u) (chId th) s with
      | None => Panicked
      | Some (Channel ch, s') => Next s' (goto th (PAck (Attaching ch)) [])
      | Some (InProgress n, s') => Next s' (goto th (PWait n) [])
      | Some (Reserved n, s') => Next s' (goto th (PAdmit n) [])
      | Some (Nothing, s') => Next s' (goto th PDone [EvClose])
      end
  | PWait n =>
      if ok a
      then if decide (notifiers s !! n = Some 0%nat) then Blocked else Next s (goto th PLookup [])
      else Next s (goto th PDone [EvClose])
  | PAdmit n =>
      if hasAdmitter (ml s)
      then if ok a then Next s (goto th (PAck (Creating n)) [EvAdmit true])
           else Next s (goto th (PRelease n AReject) [EvAdmit false])
      else Next s (goto th (PAck (Creating n)) [])
  | PAck (Creating n) =>
      if ok a then Next s (goto th (PFactory n) [EvAck true])
      else Next s (goto th (PRelease n AClose) [EvAck false])
  | PAck (Attaching ch) =>
      if ok a then Next s (goto th (PAttach ch) [EvAck true])
      else Next s (goto th PDone [EvAck false; EvClose])
  | PAttach ch => Next s (goto th PDone [EvAttach ch])
  | PFactory n =>
      let r := length (regs s) in
      Next (mkShared (ml s) (regs s ++ [mkReg None false (chId th)]) (notifiers s) (closedChs s))
        (goto th (PCreating n r) [])
  | PCreating n r =>
      if ok a
      then Next (mkShared (ml s) (alter (fun reg => mkReg (Some (newCh a)) (reg_closed reg) (reg_id reg)) r (regs s))
                   (notifiers s) (closedChs s))
             (goto th (PPublish n r (newCh a)) [EvCreated (newCh a) r])
      else Next s (goto th (PRelease n AReturn) [EvFactoryFailed; EvClose])
  | PPublish n r ch =>
      match publish (chId th) r ch s with
      | Some s' => Next s' (goto th (PRelease n AReturn) [])
      | None => Panicked
      end
  | PRelease n next =>
      match releaseReservation (chId th) n s with
      | Some s' => Next s' (goto th (match next with AReject => PReject | AClose => PClose | AReturn => PDone end) [])
      | None => Panicked
      end
  | PReject => Next s (goto th PDone [EvReject])
  | PClose => Next s (goto th PDone [EvClose])
  | PDone => Blocked
  end.

(** ** The system *)

Record world : Type := mkWorld {
  sh : shared;
  threads : list thread;
  callbacks : list (gostring * nat)    (* close callbacks before their section *)
}.

(** An underlay arrives; a thread runs; a channel closes; the close callback
    of a registration starts, and finishes. *)
Inductive action : Type :=
  | Arrive (u : Underlay)
  | Run (i : nat) (a : answer)
  | CloseChannel (ch : nat)
  | StartCallback (r : nat)
  | EndCallback (j : nat).

(** One action; [None] where it is not possible. *)
Definition exec (w : world) (act : action) : option (outcome world) :=
  match act with
  | Arrive u => Some (Ret (mkWorld (sh w) (threads w ++ [mkThread u PStart []]) (callbacks w)))
  | Run i a =>
      th ← threads w !! i;
      match run_thread a (sh w) th with
      | Blocked => None
      | Panicked => Some Panic
      | Next s th' => Some (Ret (mkWorld s (<[i := th']> (threads w)) (callbacks w)))
      end
  | CloseChannel ch =>
      Some (Ret (mkWorld (mkShared (ml (sh w)) (regs (sh w)) (notifiers (sh w)) ({[ch]} ∪ closedChs (sh w)))
                   (threads w) (callbacks w)))
  | StartCallback r =>
      reg ← regs (sh w) !! r;
      Some (Ret (mkWorld (mark_closed r (sh w)) (threads w) (callbacks w ++ [(reg_id reg, r)])))
  | EndCallback j =>
      '(id, r) ← callbacks w !! j;
      Some (Ret (mkWorld (closeRegistration id r (sh w)) (threads w) (delete j (callbacks w))))
  end.

Definition start (l : MultiListener) : world := mkWorld (mkShared l [] [] ∅) [] [].

(** The worlds a new listener gets to. *)
Inductive reachable (adm : bool) : world -> Prop :=
  | reach_start l : NewMultiListenerWithConfig true true adm = Ret l -> reachable adm (start l)
  | reach_step w act w' : reachable adm w -> exec w act = Some (Ret w') -> reachable adm w'.

(** ** Specifications *)

(** The reservation a thread holds, and whether it has yet to publish. *)
Definition holds_pc (p : pc) : option nat :=
  match p with
  | PAdmit n | PAck (Creating n) | PFactory n | PCreating n _ | PPublish n _ _ | PRelease n _ => Some n
  | _ => None
  end.

Definition before_publish (p : pc) : bool :=
  match p with
  | PAdmit _ | PAck (Creating _) | PFactory _ | PCreating _ _ | PPublish _ _ _ => true
  | _ => false
  end.

Definition admitted (adm : bool) : list event := if adm then [EvAdmit true] else [].

(** What a finished call did, in order. *)
Inductive ending (adm : bool) (u : Underlay) : list event -> Prop :=
  | end_ungrouped_ack : isGrouped u = false -> ending adm u [EvAck false; EvClose]
  | end_ungrouped : isGrouped u = false -> ending adm u [EvAck true; EvFallback true]
  | end_ungrouped_failed : isGrouped u = false -> ending adm u [EvAck true; EvFallback false; EvClose]
  | end_not_found : isGrouped u = true -> ending adm u [EvClose]
  | end_attach_ack : isGrouped u = true -> ending adm u [EvAck false; EvClose]
  | end_attached ch : isGrouped u = true -> ending adm u [EvAck true; EvAttach ch]
  | end_refused : isGrouped u = true -> isFirst u = true -> adm = true ->
      ending adm u [EvAdmit false; EvReject]
  | end_create_ack : isGrouped u = true -> isFirst u = true ->
      ending adm u (admitted adm ++ [EvAck false; EvClose])
  | end_create_failed : isGrouped u = true -> isFirst u = true ->
      ending adm u (admitted adm ++ [EvAck true; EvFactoryFailed; EvClose])
  | end_created ch r : isGrouped u = true -> isFirst u = true ->
      ending adm u (admitted adm ++ [EvAck true; EvCreated ch r]).

(** What a thread has done when it is at [p]. *)
Definition did_at (adm : bool) (u : Underlay) (p : pc) (es : list event) : Prop :=
  match p with
  | PStart => es = []
  | PAckUngrouped => isGrouped u = false /\ es = []
  | PFallback => isGrouped u = false /\ es = [EvAck true]
  | PLookup | PWait _ | PAck (Attaching _) => isGrouped u = true /\ es = []
  | PAttach _ => isGrouped u = true /\ es = [EvAck true]
  | PAdmit _ => isGrouped u = true /\ isFirst u = true /\ es = []
  | PAck (Creating _) => isGrouped u = true /\ isFirst u = true /\ es = admitted adm
  | PFactory _ | PCreating _ _ => isGrouped u = true /\ isFirst u = true /\ es = admitted adm ++ [EvAck true]
  | PPublish _ r ch => isGrouped u = true /\ isFirst u = true /\ es = admitted adm ++ [EvAck true; EvCreated ch r]
  | PRelease _ AReject | PReject =>
      isGrouped u = true /\ isFirst u = true /\ adm = true /\ es = [EvAdmit false]
  | PRelease _ AClose | PClose => isGrouped u = true /\ isFirst u = true /\ es = admitted adm ++ [EvAck false]
  | PRelease _ AReturn => isGrouped u = true /\ isFirst u = true /\
      (es = admitted adm ++ [EvAck true; EvFactoryFailed; EvClose] \/
       exists ch r, es = admitted adm ++ [EvAck true; EvCreated ch r])
  | PDone => ending adm u es
  end.

(** The registration [r] was made for channel [ch] of the group [id]. *)
Definition made_for (s : shared) (id : gostring) (ch r : nat) : Prop :=
  exists reg, regs s !! r = Some reg /\ reg_id reg = id /\ reg_ch reg = Some ch.

Definition gone (s : shared) (ch r : nat) : Prop :=
  ch ∈ closedChs s \/ exists reg, regs s !! r = Some reg /\ reg_closed reg = true.

(** What a thread relies on. *)
Record thread_ok (adm : bool) (s : shared) (th : thread) : Prop := {
  ok_did : did_at adm (underlay th) (at_pc th) (did th);
  ok_wait n : at_pc th = PWait n ->
    notifiers s !! n = Some 1%nat \/ createNotifiers (ml s) !! chId th = Some n;
  ok_free : before_publish (at_pc th) = true -> channels (ml s) !! chId th = None;
  ok_creating n r : at_pc th = PCreating n r ->
    exists reg, regs s !! r = Some reg /\ reg_id reg = chId th /\ reg_ch reg = None;
  ok_created ch r : EvCreated ch r ∈ did th -> made_for s (chId th) ch r;
  ok_published ch r : EvCreated ch r ∈ did th -> before_publish (at_pc th) = false ->
    gone s ch r \/ channels (ml s) !! chId th = Some r;
  ok_attach ch : at_pc th = PAck (Attaching ch) \/ at_pc th = PAttach ch \/ EvAttach ch ∈ did th ->
    exists r, made_for s (chId th) ch r
}.

Definition holder (ths : list thread) (i : nat) (id : gostring) (n : nat) : Prop :=
  exists th, ths !! i = Some th /\ chId th = id /\ holds_pc (at_pc th) = Some n.

(** Reservations and notifiers. *)
Record reservations (s : shared) (ths : list thread) : Prop := {
  res_held id n : createNotifiers (ml s) !! id = Some n -> exists i, holder ths i id n;
  res_holder i id n : holder ths i id n ->
    createNotifiers (ml s) !! id = Some n /\ notifiers s !! n = Some 0%nat;
  res_unique i j id id' n : holder ths i id n -> holder ths j id' n -> i = j;
  res_closes n k : notifiers s !! n = Some k -> k = 1%nat \/ k = 0%nat /\ exists i id, holder ths i id n
}.

Record invariant (adm : bool) (w : world) : Prop := {
  inv_adm : hasAdmitter (ml (sh w)) = adm;
  inv_res : reservations (sh w) (threads w);
  inv_chan id r : channels (ml (sh w)) !! id = Some r -> exists ch, made_for (sh w) id ch r;
  inv_callbacks id r : (id, r) ∈ callbacks w ->
    exists reg, regs (sh w) !! r = Some reg /\ reg_closed reg = true;
  inv_threads i th : threads w !! i = Some th -> thread_ok adm (sh w) th
}.

(** ** Lemmas: reservations *)

Lemma holder_insert ths i th th' j id n :
  ths !! i = Some th -> chId th' = chId th ->
  holder (<[i := th']> ths) j id n <->
  (j = i /\ chId th = id /\ holds_pc (at_pc th') = Some n) \/ (j ≠ i /\ holder ths j id n).
Proof.
  intros Hi Hid. unfold holder. split.
  - intros (x & Hx & Hc & Hh). apply list_lookup_insert_Some in Hx as [(-> & <- & _)|[Hne Hx]].
    + left. split_and!; congruence.
    + right. eauto.
  - intros [(-> & Hc & Hh)|(Hne & x & Hx & Hc & Hh)].
    + exists th'. split; [|split; congruence]. apply list_lookup_insert_eq. by eapply lookup_lt_Some.
    + exists x. by rewrite list_lookup_insert_ne.
Qed.

Lemma holder_same ths i th th' j id n :
  ths !! i = Some th -> chId th' = chId th -> holds_pc (at_pc th') = holds_pc (at_pc th) ->
  holder (<[i := th']> ths) j id n <-> holder ths j id n.
Proof.
  intros Hi Hid Hh. rewrite holder_insert by done. split.
  - intros [(-> & <- & E)|[_ ?]]; [|done]. exists th. by rewrite <- Hh.
  - intros H. destruct (decide (j = i)) as [->|]; [|by right]. left.
    destruct H as (x & Hx & <- & E). simplify_eq. by rewrite Hh.
Qed.

(** A step that neither takes nor gives up a reservation. *)
Lemma reservations_same s s' ths i th th' :
  reservations s ths -> ths !! i = Some th -> chId th' = chId th ->
  holds_pc (at_pc th') = holds_pc (at_pc th) ->
  createNotifiers (ml s') = createNotifiers (ml s) -> notifiers s' = notifiers s ->
  reservations s' (<[i := th']> ths).
Proof.
  intros [H1 H2 H3 H4] Hi Hid Hh Ec En. split; rewrite ?Ec, ?En; intros *.
  - intros (j & Hj)%H1. exists j. by rewrite holder_same.
  - rewrite holder_same by done. apply H2.
  - rewrite !holder_same by done. apply H3.
  - intros [?|(? & j & id & Hj)]%H4; [by left|]. right. split; [done|]. exists j, id. by rewrite holder_same.
Qed.

Lemma reservations_reserve s s' ths i th th' :
  let n := length (notifiers s) in
  reservations s ths -> ths !! i = Some th -> chId th' = chId th ->
  holds_pc (at_pc th) = None -> holds_pc (at_pc th') = Some n ->
  createNotifiers (ml s) !! chId th = None ->
  createNotifiers (ml s') = <[chId th := n]> (createNotifiers (ml s)) ->
  notifiers s' = notifiers s ++ [0%nat] ->
  reservations s' (<[i := th']> ths).
Proof.
  intros n [H1 H2 H3 H4] Hi Hid Hno Hh Hfree Ec En.
  assert (forall j id m, holder ths j id m -> j ≠ i /\ id ≠ chId th /\ (m < n)%nat) as Hold.
  { intros j id m Hj. destruct (H2 j id m Hj) as [E1 E2]. split; [|split].
    - intros ->. destruct Hj as (x & Hx & _ & E). congruence.
    - intros ->. congruence.
    - by eapply lookup_lt_Some. }
  split; intros *; rewrite ?Ec, ?En.
  - intros [[<- <-]|[Hne E]]%lookup_insert_Some.
    + exists i. apply (holder_insert _ _ th); eauto.
    + destruct (H1 _ _ E) as [j Hj]. exists j. apply (holder_insert _ _ th); [done..|]. right.
      split; [by apply (Hold _ _ _ Hj) | done].
  - intros Hj. apply (holder_insert _ _ th) in Hj; [|done..]. destruct Hj as [(-> & <- & E)|[_ Hj]].
    + rewrite Hh in E. injection E as <-. rewrite lookup_insert_eq. split; [done|].
      rewrite lookup_app_r by done. by rewrite Nat.sub_diag.
    + destruct (Hold _ _ _ Hj) as (_ & Hid' & Hn). destruct (H2 _ _ _ Hj) as [E1 E2].
      rewrite lookup_insert_ne by done. split; [done|]. by rewrite lookup_app_l.
  - intros Hj Hk. apply (holder_insert _ _ th) in Hj, Hk; [|done..].
    destruct Hj as [(-> & <- & E)|[_ Hj]], Hk as [(-> & <- & E')|[_ Hk]]; [done | | | by eapply H3].
    + apply Hold in Hk as (_ & _ & Hk). rewrite Hh in E. simplify_eq. lia.
    + apply Hold in Hj as (_ & _ & Hj). rewrite Hh in E'. simplify_eq. lia.
  - intros [E|[Hlen E]]%lookup_app_Some.
    + apply H4 in E as [?|(? & j & id & Hj)]; [by left|]. right. split; [done|]. exists j, id.
      apply (holder_insert _ _ th); [done..|]. right. split; [by apply (Hold _ _ _ Hj) | done].
    + apply list_lookup_singleton_Some in E as [E <-]. right. split; [done|]. exists i, (chId th).
      apply (holder_insert _ _ th); [done..|]. left. rewrite Hh. split_and!; [done | done | f_equal; lia].
Qed.

Lemma reservations_release s s' ths i th th' n :
  reservations s ths -> ths !! i = Some th -> chId th' = chId th ->
  holds_pc (at_pc th) = Some n -> holds_pc (at_pc th') = None ->
  createNotifiers (ml s') = delete (chId th) (createNotifiers (ml s)) ->
  notifiers s' = <[n := 1%nat]> (notifiers s) ->
  reservations s' (<[i := th']> ths).
Proof.
  intros [H1 H2 H3 H4] Hi Hid Hh Hno Ec En.
  assert (holder ths i (chId th) n) as Hme by (by exists th).
  assert (forall j id m, holder ths j id m -> j ≠ i -> id ≠ chId th /\ m ≠ n) as Hold.
  { intros j id m Hj Hne. split; [|intros ->; by apply Hne, (H3 _ _ _ _ _ Hj Hme)]. intros ->.
    apply Hne. destruct (H2 _ _ _ Hj) as [E _], (H2 _ _ _ Hme) as [E' _].
    assert (m = n) as -> by congruence. by eapply H3. }
  split; intros *; rewrite ?Ec, ?En.
  - intros [Hne E]%lookup_delete_Some. destruct (H1 _ _ E) as [j Hj]. exists j.
    apply (holder_insert _ _ th); [done..|]. right. split; [|done]. intros ->.
    destruct Hj as (x & Hx & <- & _). by simplify_eq.
  - intros Hj. apply (holder_insert _ _ th) in Hj; [|done..]. destruct Hj as [(-> & <- & E)|[Hne Hj]]; [congruence|].
    destruct (Hold _ _ _ Hj Hne), (H2 _ _ _ Hj). by rewrite lookup_delete_ne, list_lookup_insert_ne.
  - intros Hj Hk. apply (holder_insert _ _ th) in Hj, Hk; [|done..].
    destruct Hj as [(-> & <- & E)|[_ Hj]], Hk as [(-> & <- & E')|[_ Hk]]; [congruence.. | by eapply H3].
  - intros [(-> & <- & _)|[Hne E]]%list_lookup_insert_Some; [by left|].
    apply H4 in E as [?|(? & j & id & Hj)]; [by left|]. right. split; [done|]. exists j, id.
    apply (holder_insert _ _ th); [done..|]. right. split; [|done]. intros ->.
    destruct Hj as (x & Hx & _ & E). simplify_eq.
Qed.

(** ** Lemmas: what the other threads rely on *)

(** How shared state evolves: flags only go up, a registration keeps its id and
    its channel, and only what is gone loses its place in the map. *)
Record evolves (s s' : shared) : Prop := {
  ev_adm : hasAdmitter (ml s') = hasAdmitter (ml s);
  ev_notifiers n : notifiers s !! n = Some 1%nat -> notifiers s' !! n = Some 1%nat;
  ev_reserved id n : createNotifiers (ml s) !! id = Some n ->
    notifiers s' !! n = Some 1%nat \/ createNotifiers (ml s') !! id = Some n;
  ev_closed : closedChs s ⊆ closedChs s';
  ev_regs r reg : regs s !! r = Some reg -> exists reg', regs s' !! r = Some reg' /\
    reg_id reg' = reg_id reg /\ (reg_closed reg = true -> reg_closed reg' = true) /\
    (forall ch, reg_ch reg = Some ch -> reg_ch reg' = Some ch);
  ev_chan id r : channels (ml s) !! id = Some r ->
    channels (ml s') !! id = Some r \/ forall ch, made_for s id ch r -> gone s' ch r
}.

Lemma evolves_refl s : evolves s s.
Proof. split; eauto. Qed.

Lemma made_for_evolves s s' id ch r : evolves s s' -> made_for s id ch r -> made_for s' id ch r.
Proof.
  intros He (reg & Hr & Hid & Hch). destruct (ev_regs _ _ He _ _ Hr) as (reg' & Hr' & Hid' & _ & Hch').
  exists reg'. split_and!; [done | congruence | auto].
Qed.

Lemma gone_evolves s s' ch r : evolves s s' -> gone s ch r -> gone s' ch r.
Proof.
  intros He [H|(reg & Hr & Hc)]; [left; by apply (ev_closed _ _ He)|]. right.
  destruct (ev_regs _ _ He _ _ Hr) as (reg' & Hr' & _ & Hc' & _). eauto.
Qed.

Lemma evolves_trans s1 s2 s3 : evolves s1 s2 -> evolves s2 s3 -> evolves s1 s3.
Proof.
  intros H12 H23. split.
  - by rewrite (ev_adm _ _ H23), (ev_adm _ _ H12).
  - intros n E. by apply H23, H12.
  - intros id n [E|E]%(ev_reserved _ _ H12); [left; by apply H23 | by apply H23].
  - etrans; [apply H12 | apply H23].
  - intros r reg E. destruct (ev_regs _ _ H12 _ _ E) as (reg2 & E2 & Hid & Hc & Hch).
    destruct (ev_regs _ _ H23 _ _ E2) as (reg3 & E3 & Hid' & Hc' & Hch'). exists reg3.
    split_and!; [done | congruence | auto | auto].
  - intros id r E. destruct (ev_chan _ _ H12 _ _ E) as [E2|Hg].
    + destruct (ev_chan _ _ H23 _ _ E2) as [?|Hg]; [by left|]. right. intros ch Hm.
      by eapply Hg, made_for_evolves.
    + right. intros ch Hm. by eapply gone_evolves, Hg.
Qed.

Lemma thread_ok_evolves adm s s' th :
  evolves s s' -> thread_ok adm s th ->
  (before_publish (at_pc th) = true -> channels (ml s') !! chId th = None) ->
  (forall n r reg', at_pc th = PCreating n r -> regs s' !! r = Some reg' -> reg_ch reg' = None) ->
  thread_ok adm s' th.
Proof.
  intros He [H1 H2 H3 H4 H5 H6 H7] Hfree Hcr. split; try done.
  - intros n [E|E]%H2; [left; by apply He | by apply He].
  - intros n r E. destruct (H4 n r E) as (reg & Hr & Hid & _).
    destruct (ev_regs _ _ He _ _ Hr) as (reg' & Hr' & Hid' & _ & _). exists reg'.
    split_and!; [done | congruence | eauto].
  - intros ch r E. by eapply made_for_evolves, H5.
  - intros ch r E Hb. destruct (H6 ch r E Hb) as [Hg|Hg]; [left; by eapply gone_evolves|].
    destruct (ev_chan _ _ He _ _ Hg) as [?|Hg']; [by right|]. left. by apply Hg', H5.
  - intros ch E. destruct (H7 ch E) as [r Hr]. exists r. by eapply made_for_evolves.
Qed.

(** The holder of a group's reservation is one thread. *)
Lemma one_creator s ths i j th th' :
  reservations s ths -> ths !! i = Some th -> ths !! j = Some th' ->
  before_publish (at_pc th) = true -> before_publish (at_pc th') = true -> chId th = chId th' -> i = j.
Proof.
  intros [_ H2 H3 _] Hi Hj Hb Hb' Hid.
  assert (forall p, before_publish p = true -> exists n, holds_pc p = Some n) as Hn
    by (intros [| | | | | |[]| | | | | | | |]; cbn; eauto; done).
  destruct (Hn _ Hb) as [n En], (Hn _ Hb') as [n' En'].
  assert (holder ths i (chId th) n) as Hh by (by exists th).
  assert (holder ths j (chId th) n') as Hh' by (by exists th').
  destruct (H2 _ _ _ Hh) as [E _], (H2 _ _ _ Hh') as [E' _].
  assert (n = n') as -> by congruence. by eapply H3.
Qed.

(** A step of a thread keeps the invariant if it does its part. *)
Lemma invariant_step adm w s' i th th' :
  invariant adm w -> threads w !! i = Some th -> evolves (sh w) s' ->
  reservations s' (<[i := th']> (threads w)) -> thread_ok adm s' th' ->
  (forall id r, channels (ml s') !! id = Some r -> channels (ml (sh w)) !! id = Some r \/
     (id = chId th /\ before_publish (at_pc th) = true /\ exists ch, made_for s' id ch r)) ->
  (forall r reg reg', regs (sh w) !! r = Some reg -> regs s' !! r = Some reg' -> reg_ch reg = None ->
     reg_ch reg' = None \/ exists n, at_pc th = PCreating n r) ->
  evolves (sh w) s' /\ invariant adm (mkWorld s' (<[i := th']> (threads w)) (callbacks w)).
Proof.
  intros [H1 H2 H3 H4 H5] Hi He Hres Hok Hchan Hreg. split; [done|]. split; cbn.
  - by rewrite (ev_adm _ _ He).
  - done.
  - intros id r [E|(_ & _ & E)]%Hchan; [|done]. destruct (H3 _ _ E) as [ch Hm]. exists ch.
    by eapply made_for_evolves.
  - intros id r E. destruct (H4 _ _ E) as (reg & Hr & Hc).
    destruct (ev_regs _ _ He _ _ Hr) as (reg' & Hr' & _ & Hc' & _). eauto.
  - intros j x [(-> & <- & _)|[Hne Hx]]%list_lookup_insert_Some; [done|].
    assert (thread_ok adm (sh w) x) as Hx' by (by eapply H5).
    apply (thread_ok_evolves adm (sh w)); [done | done | |].
    + intros Hb. destruct (channels (ml s') !! chId x) as [r|] eqn:E; [|done]. exfalso.
      apply Hchan in E as [E|(Hid & Hb' & _)]; [pose proof (ok_free _ _ _ Hx' Hb); congruence|].
      apply Hne. by eapply (one_creator _ (threads w) i j th x).
    + intros n r reg' Hp Hr'. destruct (ok_creating _ _ _ Hx' n r Hp) as (reg & Hr & Hid & Hch).
      destruct (Hreg _ _ _ Hr Hr' Hch) as [?|[n' Hn']]; [done|]. exfalso. apply Hne.
      eapply (one_creator _ (threads w) i j th x); [done..| by rewrite Hn' | by rewrite Hp |].
      destruct (ok_creating _ _ _ (H5 _ _ Hi) n' r Hn') as (reg2 & Hr2 & Hid2 & _). congruence.
Qed.

(** The common case: nothing shared changes. *)
Lemma invariant_local adm w i th th' :
  invariant adm w -> threads w !! i = Some th -> chId th' = chId th ->
  holds_pc (at_pc th') = holds_pc (at_pc th) -> thread_ok adm (sh w) th' ->
  evolves (sh w) (sh w) /\ invariant adm (mkWorld (sh w) (<[i := th']> (threads w)) (callbacks w)).
Proof.
  intros Hinv Hi Hid Hh Hok. eapply invariant_step; [done | done | apply evolves_refl | | done | auto |].
  - eapply reservations_same; [apply Hinv | done..].
  - intros r reg reg' E1 E2 E3. left. congruence.
Qed.

(** Steps of the outside. *)
Lemma invariant_outside adm w s' cbs :
  invariant adm w -> evolves (sh w) s' ->
  createNotifiers (ml s') = createNotifiers (ml (sh w)) -> notifiers s' = notifiers (sh w) ->
  (forall id r, channels (ml s') !! id = Some r -> channels (ml (sh w)) !! id = Some r) ->
  (forall r reg reg', regs (sh w) !! r = Some reg -> regs s' !! r = Some reg' -> reg_ch reg' = reg_ch reg) ->
  (forall id r, (id, r) ∈ cbs -> exists reg, regs s' !! r = Some reg /\ reg_closed reg = true) ->
  evolves (sh w) s' /\ invariant adm (mkWorld s' (threads w) cbs).
Proof.
  intros [H1 [R1 R2 R3 R4] H3 H4 H5] He Ec En Hchan Hreg Hcb. split; [done|]. split; cbn.
  - by rewrite (ev_adm _ _ He).
  - split; rewrite ?Ec, ?En; eauto.
  - intros id r E%Hchan. destruct (H3 _ _ E) as [ch Hm]. exists ch. by eapply made_for_evolves.
  - done.
  - intros j x Hx. assert (thread_ok adm (sh w) x) as Hx' by (by eapply H5).
    apply (thread_ok_evolves adm (sh w)); [done | done | |].
    + intros Hb. destruct (channels (ml s') !! chId x) as [r|] eqn:E; [|done].
      apply Hchan in E. pose proof (ok_free _ _ _ Hx' Hb). congruence.
    + intros n r reg' Hp Hr'. destruct (ok_creating _ _ _ Hx' n r Hp) as (reg & Hr & _ & Hch).
      by rewrite (Hreg _ _ _ Hr Hr').
Qed.

(** ** Lemmas: the steps of a thread *)

(** No channel was created before [PPublish]. *)
Lemma not_created adm u p es ch r :
  did_at adm u p es -> EvCreated ch r ∈ es ->
  match p with PPublish _ r' ch' => r' = r /\ ch' = ch | PRelease _ AReturn | PDone => True | _ => False end.
Proof.
  unfold did_at, admitted. intros H E. destruct p as [| | | | | |[]| | | | |? []| | |]; try done;
    repeat match goal with H : _ /\ _ |- _ => destruct H end; subst; try destruct adm; set_solver.
Qed.

Lemma goto_ok adm s th p es :
  thread_ok adm s th -> did_at adm (underlay th) p (did th ++ es) ->
  (forall n, p = PWait n ->
     notifiers s !! n = Some 1%nat \/ createNotifiers (ml s) !! chId th = Some n) ->
  (before_publish p = true -> channels (ml s) !! chId th = None) ->
  (forall n r, p = PCreating n r ->
     exists reg, regs s !! r = Some reg /\ reg_id reg = chId th /\ reg_ch reg = None) ->
  (forall ch r, EvCreated ch r ∈ es -> made_for s (chId th) ch r /\ before_publish p = true) ->
  (forall ch r, EvCreated ch r ∈ did th -> before_publish (at_pc th) = true -> before_publish p = false ->
     gone s ch r \/ channels (ml s) !! chId th = Some r) ->
  (forall ch, p = PAck (Attaching ch) \/ p = PAttach ch \/ EvAttach ch ∈ es ->
     exists r, made_for s (chId th) ch r) ->
  thread_ok adm s (goto th p es).
Proof.
  intros [H1 H2 H3 H4 H5 H6 H7] Hd Hw Hb Hc He Hp Ha. split; cbn; try done.
  - intros ch r [E|E]%elem_of_app; [by apply H5 | by apply He].
  - intros ch r [E|E]%elem_of_app Hbp.
    + destruct (before_publish (at_pc th)) eqn:Eb; [by apply Hp | by apply H6].
    + apply He in E as [_ E]. congruence.
  - intros ch [E|[E|[E|E]%elem_of_app]]; eauto.
Qed.

(** A step within the calls of [AcceptUnderlay] that changes nothing shared. *)
Lemma goto_local adm s th p es :
  thread_ok adm s th -> did_at adm (underlay th) p (did th ++ es) ->
  (forall n, p = PWait n ->
     notifiers s !! n = Some 1%nat \/ createNotifiers (ml s) !! chId th = Some n) ->
  (before_publish p = true -> before_publish (at_pc th) = true) ->
  (forall n r, p ≠ PCreating n r) -> (forall n r ch, at_pc th ≠ PPublish n r ch) ->
  (forall ch r, EvCreated ch r ∉ es) ->
  (forall ch, p = PAck (Attaching ch) \/ p = PAttach ch \/ EvAttach ch ∈ es ->
     at_pc th = PAck (Attaching ch) \/ at_pc th = PAttach ch) ->
  thread_ok adm s (goto th p es).
Proof.
  intros Hok Hd Hw Hb Hc Hp He Ha. apply goto_ok; try done.
  - intros E. by apply (ok_free _ _ _ Hok), Hb.
  - intros n r E. by apply Hc in E.
  - intros ch r E. by apply He in E.
  - intros ch r E Eb _. pose proof (not_created _ _ _ _ _ _ (ok_did _ _ _ Hok) E) as Hn.
    destruct (at_pc th) as [| | | | | |[]| | | | |? []| | |] eqn:Ep; try done. exfalso; by eapply Hp.
  - intros ch E. apply (ok_attach _ _ _ Hok). destruct (Ha ch E); auto.
Qed.

(** Where a thread goes without touching what is shared. *)
Definition local_pc (p : pc) : bool :=
  match p with
  | PLookup | PFactory _ | PCreating _ _ | PPublish _ _ _ | PRelease _ _ => false
  | _ => true
  end.

Ltac not_event :=
  intros;
  repeat match goal with
  | |- ¬ _ => intro
  | H : _ \/ _ |- _ => destruct H
  | H : _ ∈ _ :: _ |- _ => apply elem_of_cons in H
  | H : _ ∈ [] |- _ => by apply elem_of_nil in H
  end; simplify_eq; auto.

Ltac did_known :=
  repeat match goal with H : _ /\ _ |- _ => destruct H end;
  match goal with H : did _ = _ |- _ => rewrite H end; rewrite <- ?app_assoc.

Lemma run_local_inv adm w i th a s' th' :
  invariant adm w -> threads w !! i = Some th -> local_pc (at_pc th) = true ->
  run_thread a (sh w) th = Next s' th' ->
  evolves (sh w) s' /\ invariant adm (mkWorld s' (<[i := th']> (threads w)) (callbacks w)).
Proof.
  intros Hinv Hi Hl Hrun. pose proof (inv_threads _ _ Hinv i th Hi) as Hok.
  pose proof (ok_did _ _ _ Hok) as Hd. pose proof (inv_adm _ _ Hinv) as Ha.
  unfold run_thread in Hrun. destruct (at_pc th) as [| | | |n|n|[n|ch]|ch| | | | | | |] eqn:Ep; try done.
  all: repeat match type of Hrun with context [if ?b then _ else _] => destruct b eqn:? end; try done.
  all: injection Hrun as <- <-; cbn in Hd.
  all: eapply invariant_local; [done | exact Hi | done | by rewrite Ep | ].
  all: apply goto_local; [done | | done | by rewrite Ep | done | by rewrite Ep | not_event | ].
  all: try (intros ch'; rewrite ?Ep; not_event).
  all: did_known; cbn; try done.
  all: try (split; done).
  all: try (by constructor).
  all: by subst adm.
Qed.

(** A stale registration loses its place. *)
Lemma evolves_evict s id r reg :
  channels (ml s) !! id = Some r -> regs s !! r = Some reg -> live s reg = Stale ->
  evolves s (set_ml (fun l => set_channels (delete id (channels l)) l) s).
Proof.
  intros Hc Hr Hl. split; cbn; eauto. intros id' r' E.
  destruct (decide (id' = id)) as [->|Hne]; [|left; by rewrite lookup_delete_ne].
  right. intros ch (reg' & Hr' & _ & Hch). simplify_eq. unfold live in Hl. rewrite Hch in Hl.
  destruct (reg_closed reg) eqn:Ec; [right; eauto|]. left. cbn. by case_decide.
Qed.

Lemma evolves_reserve s id :
  createNotifiers (ml s) !! id = None ->
  evolves s (mkShared (set_notifiers (<[id := length (notifiers s)]> (createNotifiers (ml s))) (ml s))
    (regs s) (notifiers s ++ [0%nat]) (closedChs s)).
Proof.
  intros Hn. split; cbn; eauto; [intros n E; by apply lookup_app_l_Some|].
  intros id' n E. right. rewrite lookup_insert_ne; [done|]. intros <-. congruence.
Qed.

(** What a lookup does: it may drop a stale registration, and then finds the
    group or reserves it. *)
Lemma lookup_group_spec adm w i th :
  invariant adm w -> threads w !! i = Some th ->
  exists f s0 s', lookup_group (isFirst (underlay th)) (chId th) (sh w) = Some (f, s') /\
    evolves (sh w) s0 /\ regs s0 = regs (sh w) /\ notifiers s0 = notifiers (sh w) /\
    createNotifiers (ml s0) = createNotifiers (ml (sh w)) /\
    (forall id r, channels (ml s0) !! id = Some r -> channels (ml (sh w)) !! id = Some r) /\
    match f with
    | Channel ch => s' = sh w /\ s0 = sh w /\ exists r reg, channels (ml s') !! chId th = Some r /\
        regs s' !! r = Some reg /\ live s' reg = Live ch /\ made_for s' (chId th) ch r
    | _ => channels (ml s0) !! chId th = None /\ reserve (isFirst (underlay th)) (chId th) s0 = (f, s')
    end.
Proof.
  intros Hinv Hi. unfold lookup_group. set (s := sh w).
  destruct (channels (ml s) !! chId th) as [r|] eqn:Ec.
  - destruct (inv_chan _ _ Hinv _ _ Ec) as (ch & reg & Hr & Hid & Hch). fold s in Hr. rewrite Hr.
    destruct (live s reg) as [ch'| |] eqn:El.
    + exists (Channel ch'), s, s. split_and!; try done; [apply evolves_refl|].
      exists r, reg. split_and!; try done. exists reg. split_and!; try done.
      unfold live in El. rewrite Hch in *. destruct (reg_closed reg); [done|]. case_decide; congruence.
    + set (s0 := set_ml _ s). destruct (reserve _ _ s0) as [f s'] eqn:Er.
      exists f, s0, s'. split_and!; try done.
      * by eapply evolves_evict.
      * intros id r'. cbn. by intros [_ ?]%lookup_delete_Some.
      * destruct f; [|by rewrite <- Er; cbn; rewrite lookup_delete_eq..].
        unfold reserve in Er. repeat case_match; congruence.
    + unfold live in El. rewrite Hch in El. destruct (reg_closed reg); [done|]. by case_decide.
  - destruct (reserve (isFirst (underlay th)) (chId th) s) as [f s'] eqn:Er.
    exists f, s, s'. split_and!; try done; [apply evolves_refl|].
    destruct f; [|by rewrite Ec..]. unfold reserve in Er. repeat case_match; congruence.
Qed.

Lemma run_lookup_inv adm w i th a s' th' :
  invariant adm w -> threads w !! i = Some th -> at_pc th = PLookup ->
  run_thread a (sh w) th = Next s' th' ->
  evolves (sh w) s' /\ invariant adm (mkWorld s' (<[i := th']> (threads w)) (callbacks w)).
Proof.
  intros Hinv Hi Hp Hrun. pose proof (inv_threads _ _ Hinv i th Hi) as Hok.
  pose proof (ok_did _ _ _ Hok) as Hd. rewrite Hp in Hd. cbn in Hd. destruct Hd as [Hg Hd].
  destruct (lookup_group_spec adm w i th Hinv Hi) as (f & s0 & s1 & El & He & Er & En & Ec & Hch & Hf).
  unfold run_thread in Hrun. rewrite Hp, El in Hrun.
  assert (thread_ok adm s0 th) as Hok0.
  { apply (thread_ok_evolves adm (sh w)); [done | done | by rewrite Hp |]. by rewrite Hp. }
  assert (forall r reg reg', regs (sh w) !! r = Some reg -> regs s0 !! r = Some reg' -> reg_ch reg = None ->
    reg_ch reg' = None \/ exists n, at_pc th = PCreating n r) as Hregs.
  { intros r reg reg' E1 E2 E3. left. rewrite Er in E2. congruence. }
  destruct f as [ch|n|n|].
  - destruct Hf as (-> & -> & r & reg & Hr & _ & _ & Hm). injection Hrun as <- <-.
    eapply invariant_local; [done | done | done | by rewrite Hp |]. apply goto_ok; try done.
    + by rewrite Hd.
    + not_event.
    + by rewrite Hp.
    + not_event. eauto.
  - destruct Hf as [Hnone Hres]. unfold reserve in Hres.
    destruct (createNotifiers (ml s0) !! chId th) as [n'|] eqn:Ecn; [|by case_match]. injection Hres as <- <-.
    injection Hrun as <- <-. eapply invariant_step; [done | exact Hi | done | | | auto | done].
    + eapply reservations_same; [apply Hinv | done | done | by rewrite Hp | done | done].
    + apply goto_local; try done; [by rewrite Hd | | by rewrite Hp | not_event | rewrite Hp; not_event].
      intros m [= <-]. by right.
  - destruct Hf as [Hnone Hres]. unfold reserve in Hres.
    destruct (createNotifiers (ml s0) !! chId th) as [n'|] eqn:Ecn; [done|].
    destruct (isFirst (underlay th)) eqn:Hfirst; [|done]. cbn [negb] in Hres. injection Hres as <- <-.
    injection Hrun as <- <-.
    eapply invariant_step; [done | exact Hi | by eapply evolves_trans; [|apply evolves_reserve] | | | auto | done].
    + eapply reservations_reserve; [apply Hinv | done | done | by rewrite Hp | | by rewrite <- Ec | | ]; cbn; by rewrite ?En, ?Ec.
    + apply goto_ok; try done; [| by rewrite Hd | not_event | not_event].
      apply (thread_ok_evolves adm s0); [by apply evolves_reserve | done | by rewrite Hp..].
  - destruct Hf as [Hnone Hres]. unfold reserve in Hres.
    destruct (createNotifiers (ml s0) !! chId th) as [n'|] eqn:Ecn; [done|].
    destruct (isFirst (underlay th)) eqn:Hfirst; [done|]. cbn [negb] in Hres. injection Hres as <-.
    injection Hrun as <- <-. eapply invariant_step; [done | exact Hi | done | | | auto | done].
    + eapply reservations_same; [apply Hinv | done | done | by rewrite Hp | done | done].
    + apply goto_local; try done; [by rewrite Hd; constructor | by rewrite Hp | not_event | rewrite Hp; not_event].
Qed.

(** The creation of a channel: the registration, then its channel. *)
Lemma run_factory_inv adm w i th a n s' th' :
  invariant adm w -> threads w !! i = Some th -> at_pc th = PFactory n ->
  run_thread a (sh w) th = Next s' th' ->
  evolves (sh w) s' /\ invariant adm (mkWorld s' (<[i := th']> (threads w)) (callbacks w)).
Proof.
  intros Hinv Hi Hp Hrun. pose proof (inv_threads _ _ Hinv i th Hi) as Hok.
  pose proof (ok_did _ _ _ Hok) as Hd. unfold run_thread in Hrun.
  rewrite Hp in Hrun, Hd; cbn in Hd; destruct Hd as (Hg & Hf & Hd).
  injection Hrun as <- <-. set (s' := mkShared _ _ _ _).
  assert (evolves (sh w) s') as He.
  { split; cbn; eauto. intros r reg E. exists reg. split_and!; eauto. by apply lookup_app_l_Some. }
  eapply invariant_step; [done | exact Hi | done | | | auto |].
  - eapply reservations_same; [apply Hinv | done | done | by rewrite Hp | done | done].
  - assert (thread_ok adm s' th) as Hok'.
    { apply (thread_ok_evolves adm (sh w)); [done | done | |by rewrite Hp]. apply (ok_free _ _ _ Hok). }
    apply goto_ok; try done; [by rewrite Hd, app_nil_r | | | not_event | not_event].
    + intros _. apply (ok_free _ _ _ Hok). by rewrite Hp.
    + intros n' r' [= <- <-]. exists (mkReg None false (chId th)). cbn. split_and!; try done.
      rewrite lookup_app_r by done. by rewrite Nat.sub_diag.
  - intros r reg reg' E1 E2 E3. left. cbn in E2. rewrite (lookup_app_l_Some _ _ _ _ E1) in E2. congruence.
Qed.

Lemma run_creating_inv adm w i th a n r s' th' :
  invariant adm w -> threads w !! i = Some th -> at_pc th = PCreating n r ->
  run_thread a (sh w) th = Next s' th' ->
  evolves (sh w) s' /\ invariant adm (mkWorld s' (<[i := th']> (threads w)) (callbacks w)).
Proof.
  intros Hinv Hi Hp Hrun. pose proof (inv_threads _ _ Hinv i th Hi) as Hok.
  pose proof (ok_did _ _ _ Hok) as Hd. unfold run_thread in Hrun.
  rewrite Hp in Hrun, Hd; cbn in Hd; destruct Hd as (Hg & Hf & Hd). destruct (ok a).
  - injection Hrun as <- <-. set (s' := mkShared _ _ _ _).
    destruct (ok_creating _ _ _ Hok n r Hp) as (reg & Hr & Hid & Hch).
    assert (forall r' reg', regs (sh w) !! r' = Some reg' -> regs s' !! r' =
      Some (if decide (r' = r) then mkReg (Some (newCh a)) (reg_closed reg') (reg_id reg') else reg')) as Hreg.
    { intros r' reg' E. cbn. case_decide as Hrr; [subst; by rewrite list_lookup_alter_eq, E |].
      by rewrite list_lookup_alter_ne. }
    assert (evolves (sh w) s') as He.
    { split; cbn; eauto. intros r' reg' E. eexists. split; [exact (Hreg _ _ E)|].
      case_decide; cbn; split_and!; try done. intros ch E'. congruence. }
    assert (made_for s' (chId th) (newCh a) r) as Hm.
    { eexists. rewrite (Hreg _ _ Hr), decide_True by done. done. }
    eapply invariant_step; [done | exact Hi | done | | | auto |].
    + eapply reservations_same; [apply Hinv | done | done | by rewrite Hp | done | done].
    + pose proof (ok_free _ _ _ Hok) as Hfree. rewrite Hp in Hfree. specialize (Hfree eq_refl).
      split; cbn; rewrite ?Hd, <- ?app_assoc; try done.
      * intros ch r'. unfold admitted. destruct adm; cbn; not_event.
      * intros ch [E|[E|E]]; [done | done |]. exfalso. revert E. unfold admitted. destruct adm; cbn; not_event.
    + intros r' reg' reg'' E1 E2 E3. rewrite (Hreg _ _ E1) in E2. case_decide; [subst; eauto|]. left. congruence.
  - injection Hrun as <- <-. eapply invariant_local; [done | done | done | by rewrite Hp |].
    apply goto_local; try done; [| by rewrite Hp | not_event | rewrite Hp; not_event].
    cbn. rewrite Hd, <- app_assoc. auto.
Qed.

Lemma run_publish_inv adm w i th a n r ch s' th' :
  invariant adm w -> threads w !! i = Some th -> at_pc th = PPublish n r ch ->
  run_thread a (sh w) th = Next s' th' ->
  evolves (sh w) s' /\ invariant adm (mkWorld s' (<[i := th']> (threads w)) (callbacks w)).
Proof.
  intros Hinv Hi Hp Hrun. pose proof (inv_threads _ _ Hinv i th Hi) as Hok.
  pose proof (ok_did _ _ _ Hok) as Hd. rewrite Hp in Hd. cbn in Hd. destruct Hd as (Hg & Hf & Hd).
  assert (made_for (sh w) (chId th) ch r) as Hm by (apply (ok_created _ _ _ Hok); rewrite Hd; set_solver).
  pose proof Hm as (reg & Hr & Hid & Hch).
  pose proof (ok_free _ _ _ Hok) as Hfree. rewrite Hp in Hfree. specialize (Hfree eq_refl).
  assert (forall ch' r', EvCreated ch' r' ∈ did th -> ch' = ch /\ r' = r) as Hone.
  { intros ch' r' E. pose proof (not_created _ _ _ _ _ _ (ok_did _ _ _ Hok) E) as Hn. rewrite Hp in Hn. naive_solver. }
  unfold run_thread in Hrun. rewrite Hp in Hrun. unfold publish in Hrun. rewrite Hr in Hrun. cbn in Hrun.
  assert (forall s1, evolves (sh w) s1 -> gone s1 ch r \/ channels (ml s1) !! chId th = Some r ->
    thread_ok adm s1 (goto th (PRelease n AReturn) [])) as Hok'.
  { intros s1 He Hpub. split; cbn; rewrite ?app_nil_r; try done.
    - split_and!; try done. right. eauto.
    - intros ch' r' [-> ->]%Hone. by eapply made_for_evolves.
    - by intros ch' r' [-> ->]%Hone _.
    - intros ch' [E|[E|E]]; [done | done |]. rewrite Hd in E. exfalso. revert E.
      unfold admitted. destruct adm; cbn; not_event. }
  destruct (reg_closed reg || bool_decide (ch ∈ closedChs (sh w))) eqn:Eg.
  - injection Hrun as <- <-. eapply invariant_local; [done | exact Hi | done | by rewrite Hp |].
    apply Hok'; [apply evolves_refl|]. left. apply orb_true_iff in Eg as [Eg|Eg%bool_decide_eq_true]; [right; eauto | by left].
  - injection Hrun as <- <-. set (s' := set_ml _ _).
    assert (evolves (sh w) s') as He.
    { split; cbn; eauto. intros id r' E. left. rewrite lookup_insert_ne; [done|]. intros <-. congruence. }
    eapply invariant_step; [done | exact Hi | done | | | |].
    + eapply reservations_same; [apply Hinv | done | done | by rewrite Hp | done | done].
    + apply Hok'; [done|]. right. cbn. by rewrite lookup_insert_eq.
    + intros id r'. cbn. intros [[<- <-]|[_ E]]%lookup_insert_Some; [right | by left].
      rewrite Hp. split_and!; [done | done |]. exists ch. by eapply made_for_evolves.
    + intros r' reg1 reg2 E1 E2 E3. left. cbn in E2. congruence.
Qed.

Lemma run_release_inv adm w i th a n next s' th' :
  invariant adm w -> threads w !! i = Some th -> at_pc th = PRelease n next ->
  run_thread a (sh w) th = Next s' th' ->
  evolves (sh w) s' /\ invariant adm (mkWorld s' (<[i := th']> (threads w)) (callbacks w)).
Proof.
  intros Hinv Hi Hp Hrun. pose proof (inv_threads _ _ Hinv i th Hi) as Hok.
  pose proof (ok_did _ _ _ Hok) as Hd. rewrite Hp in Hd.
  unfold run_thread in Hrun. rewrite Hp in Hrun. unfold releaseReservation in Hrun.
  destruct (notifiers (sh w) !! n) as [[|]|] eqn:En; [|done..]. injection Hrun as <- <-.
  set (s' := mkShared _ _ _ _).
  assert (evolves (sh w) s') as He.
  { split; cbn; eauto; [intros m E; rewrite list_lookup_insert_ne by congruence; done|].
    intros id m E. destruct (decide (id = chId th)) as [->|]; [left | right; by rewrite lookup_delete_ne].
    assert (holder (threads w) i (chId th) n) as Hh by (exists th; by rewrite Hp).
    apply (res_holder _ _ (inv_res _ _ Hinv)) in Hh as [E' _]. assert (m = n) as -> by congruence.
    apply list_lookup_insert_eq. by eapply lookup_lt_Some. }
  eapply invariant_step; [done | exact Hi | done | | | auto |].
  - eapply reservations_release; [apply Hinv | done | done | by rewrite Hp | by destruct next | done | done].
  - assert (thread_ok adm s' th) as Hok' by (apply (thread_ok_evolves adm (sh w)); [done | done | by rewrite Hp..]).
    apply goto_local; [done | | by destruct next | by destruct next | by destruct next | by rewrite Hp | not_event | ].
    + rewrite app_nil_r. destruct next; cbn in *; [done | done |].
      destruct Hd as (Hg & Hf & [->|(ch & r & ->)]); by constructor.
    + destruct next; not_event.
  - intros r reg reg' E1 E2 E3. left. cbn in E2. congruence.
Qed.

(** ** Lemmas: the whole system *)

Lemma run_inv adm w i th a s' th' :
  invariant adm w -> threads w !! i = Some th -> run_thread a (sh w) th = Next s' th' ->
  evolves (sh w) s' /\ invariant adm (mkWorld s' (<[i := th']> (threads w)) (callbacks w)).
Proof.
  intros Hinv Hi Hrun. destruct (local_pc (at_pc th)) eqn:Hl; [by eapply run_local_inv|].
  destruct (at_pc th) eqn:Hp; try done.
  - by eapply run_lookup_inv.
  - by eapply run_factory_inv.
  - by eapply run_creating_inv.
  - by eapply run_publish_inv.
  - by eapply run_release_inv.
Qed.

(** A thread that is not finished goes on, and never panics; only a wait can
    block, and not forever. *)
Lemma run_progress adm w i th a :
  invariant adm w -> threads w !! i = Some th ->
  match run_thread a (sh w) th with
  | Next _ _ => True
  | Panicked => False
  | Blocked => at_pc th = PDone \/ exists n, at_pc th = PWait n /\ ok a = true /\ notifiers (sh w) !! n = Some 0%nat
  end.
Proof.
  intros Hinv Hi. pose proof (inv_threads _ _ Hinv i th Hi) as Hok. unfold run_thread.
  destruct (at_pc th) as [| | | |n|n|[n|ch]|ch|n|n r|n r ch|n next| | |] eqn:Hp;
    try (by repeat case_match); try (by left).
  - destruct (lookup_group_spec adm w i th Hinv Hi) as (f & s0 & s' & E & _). rewrite E. by destruct f.
  - destruct (ok a) eqn:Ea; [|done]. case_decide; [|done]. right. eauto.
  - pose proof (ok_did _ _ _ Hok) as Hd. rewrite Hp in Hd. cbn in Hd. destruct Hd as (_ & _ & Hd).
    destruct (ok_created _ _ _ Hok ch r) as (reg & Hr & _ & _); [rewrite Hd; set_solver|].
    unfold publish. rewrite Hr. cbn. by destruct (reg_closed reg || bool_decide (ch ∈ closedChs (sh w))).
  - assert (holder (threads w) i (chId th) n) as Hh by (exists th; by rewrite Hp).
    apply (res_holder _ _ (inv_res _ _ Hinv)) in Hh as [_ Hh]. unfold releaseReservation. by rewrite Hh.
Qed.

Lemma arrive_inv adm w u :
  invariant adm w -> invariant adm (mkWorld (sh w) (threads w ++ [mkThread u PStart []]) (callbacks w)).
Proof.
  intros [H1 [R1 R2 R3 R4] H3 H4 H5].
  assert (forall i id n, holder (threads w ++ [mkThread u PStart []]) i id n <-> holder (threads w) i id n) as Hh.
  { intros i id n. unfold holder. split.
    - intros (th & [E|[_ E]]%lookup_app_Some & Hid & Hn); [eauto|].
      apply list_lookup_singleton_Some in E as [_ <-]. done.
    - intros (th & E & Hid & Hn). exists th. split; [|done]. by apply lookup_app_l_Some. }
  split; cbn; try done.
  - split; intros *; rewrite ?Hh; [|apply R2 | apply R3 |].
    + intros [i Hi]%R1. exists i. by rewrite Hh.
    + intros [?|(? & i & id & Hi)]%R4; [by left|]. right. split; [done|]. exists i, id. by rewrite Hh.
  - intros i th [E|[_ E]]%lookup_app_Some; [eauto|]. apply list_lookup_singleton_Some in E as [_ <-].
    split; cbn; try done; not_event.
Qed.

Lemma mark_closed_regs r s r' :
  regs (mark_closed r s) !! r' =
  (fun reg => if decide (r' = r) then mkReg (reg_ch reg) true (reg_id reg) else reg) <$> regs s !! r'.
Proof.
  cbn. case_decide as E; [subst; by rewrite list_lookup_alter_eq|].
  rewrite list_lookup_alter_ne by done. by destruct (regs s !! r').
Qed.

Lemma exec_inv adm w act w' :
  invariant adm w -> exec w act = Some (Ret w') -> evolves (sh w) (sh w') /\ invariant adm w'.
Proof.
  intros Hinv E. destruct act as [u|i a|ch|r|j]; cbn in E.
  - injection E as <-. split; [apply evolves_refl | by apply arrive_inv].
  - destruct (threads w !! i) as [th|] eqn:Hi; [|done]. cbn in E.
    destruct (run_thread a (sh w) th) eqn:Hrun; try done. injection E as <-. by eapply run_inv.
  - injection E as <-. apply invariant_outside; try done; [| intros ? ? ? ? ?; cbn in *; congruence | apply Hinv].
    split; cbn; eauto. set_solver.
  - destruct (regs (sh w) !! r) as [reg|] eqn:Hr; [|done]. injection E as <-.
    apply invariant_outside; try done.
    + split; cbn; eauto. intros r' reg' E. pose proof (mark_closed_regs r (sh w) r') as Em.
      rewrite E in Em. eexists. split; [exact Em|]. by case_decide.
    + intros r' reg1 reg2 E1 E2. rewrite mark_closed_regs, E1 in E2. injection E2 as <-. by case_decide.
    + intros id r' [E|E]%elem_of_app.
      * destruct (inv_callbacks _ _ Hinv _ _ E) as (reg' & Hr' & Hc). rewrite mark_closed_regs, Hr'.
        eexists. split; [done|]. by case_decide.
      * apply list_elem_of_singleton in E as [= -> ->]. rewrite mark_closed_regs, Hr.
        eexists. split; [done|]. by rewrite decide_True.
  - destruct (callbacks w !! j) as [[id r]|] eqn:Hj; [|done]. injection E as <-.
    assert (exists reg, regs (sh w) !! r = Some reg /\ reg_closed reg = true) as Hc
      by (eapply (inv_callbacks _ _ Hinv), list_elem_of_lookup_2, Hj).
    unfold closeRegistration. case_decide as Hcur.
    + apply invariant_outside; try done.
      * split; cbn; eauto. intros id' r' E. destruct (decide (id' = id)) as [->|]; [|left; by rewrite lookup_delete_ne].
        right. intros ch _. right. assert (r' = r) as -> by congruence. done.
      * intros id' r'. cbn. by intros [_ ?]%lookup_delete_Some.
      * intros ? ? ? ? ?; cbn in *; congruence.
      * intros id' r' Hin. eapply (inv_callbacks _ _ Hinv). eapply list_elem_of_delete_inv, Hin.
    + apply invariant_outside; try done; [apply evolves_refl | intros ? ? ? ? ?; cbn in *; congruence |].
      intros id' r' Hin. eapply (inv_callbacks _ _ Hinv). eapply list_elem_of_delete_inv, Hin.
Qed.

Lemma reachable_inv adm w : reachable adm w -> invariant adm w.
Proof.
  induction 1 as [l [= <-]|w act w' _ IH E]; [|by eapply exec_inv].
  split; cbn; try done; [|by intros ? ? ?%elem_of_nil].
  split; cbn; try done; by intros * (th & [=] & _).
Qed.

(** A group with a reservation or a live channel is found. *)
Lemma known_group_found adm w i th a :
  invariant adm w -> threads w !! i = Some th -> at_pc th = PLookup ->
  (exists n, createNotifiers (ml (sh w)) !! chId th = Some n) \/
  (exists ch r, made_for (sh w) (chId th) ch r /\ ¬ gone (sh w) ch r /\ channels (ml (sh w)) !! chId th = Some r) ->
  exists s' th', run_thread a (sh w) th = Next s' th' /\
    ((exists n, at_pc th' = PWait n /\ createNotifiers (ml (sh w)) !! chId th = Some n) \/
     exists ch r, at_pc th' = PAck (Attaching ch) /\ channels (ml (sh w)) !! chId th = Some r /\
       made_for (sh w) (chId th) ch r).
Proof.
  intros Hinv Hi Hp Hknown. unfold run_thread. rewrite Hp.
  destruct Hknown as [[n Hn]|(ch & r & (reg & Hr & Hid & Hch) & Hg & Hc)].
  - destruct (lookup_group_spec adm w i th Hinv Hi) as (f & s0 & s' & E & _ & _ & _ & Ec & _ & Hf). rewrite E.
    destruct f as [ch|m|m|].
    + destruct Hf as (-> & -> & r & reg & Hr & _ & _ & Hm). eexists _, _. split; [done|]. right. eauto.
    + destruct Hf as [_ Hf]. unfold reserve in Hf. rewrite Ec, Hn in Hf. injection Hf as <- <-.
      eexists _, _. split; [done|]. left. eauto.
    + destruct Hf as [_ Hf]. unfold reserve in Hf. by rewrite Ec, Hn in Hf.
    + destruct Hf as [_ Hf]. unfold reserve in Hf. by rewrite Ec, Hn in Hf.
  - unfold lookup_group. rewrite Hc, Hr. unfold live. rewrite Hch.
    destruct (reg_closed reg) eqn:Ec; [exfalso; apply Hg; right; eauto|].
    rewrite decide_False by (intros ?; apply Hg; by left).
    eexists _, _. split; [done|]. right. exists ch, r. split_and!; [done | done |]. by exists reg.
Qed.

(** Whoever has acknowledged and neither attached nor failed is creating the
    channel, or has. *)
Lemma acked_creator adm u p es :
  did_at adm u p es -> isGrouped u = true -> EvAck true ∈ es ->
  (forall ch, p ≠ PAttach ch /\ EvAttach ch ∉ es) -> EvFactoryFailed ∉ es ->
  (exists n, holds_pc p = Some n) \/ exists ch r, EvCreated ch r ∈ es.
Proof.
  intros Hd Hg Hack Hna Hff. destruct p as [| | | |n|n|[n|ch]|ch|n|n r|n r ch|n next| | |]; cbn in Hd.
  all: try (left; eexists; reflexivity).
  10: destruct Hd.
  all: repeat match goal with H : _ /\ _ |- _ => destruct H end; subst; try congruence.
  all: try (exfalso; revert Hack; unfold admitted; try destruct adm; cbn; not_event; done).
  all: try (exfalso; eapply Hna; done).
  all: set_solver.
Qed.

(** Running a list of actions. *)
Definition exec_all (w : world) (acts : list action) : option world :=
  foldl (fun w act => w ← w; match exec w act with Some (Ret w') => Some w' | _ => None end) (Some w) acts.

Lemma exec_all_None acts :
  foldl (fun w act => w ← w; match exec w act with Some (Ret w') => Some w' | _ => None end) None acts = None.
Proof. by induction acts. Qed.

Lemma exec_all_reachable adm w acts w' : reachable adm w -> exec_all w acts = Some w' -> reachable adm w'.
Proof.
  revert w. induction acts as [|act acts IH]; intros w Hr E; cbn in E; [by injection E as <-|].
  destruct (exec w act) as [[w1| | |]|] eqn:Ex; try (by rewrite exec_all_None in E).
  eapply IH; [|exact E]. by eapply reach_step.
Qed.

(** Two connections of a group: the first creates the channel 7 while the
    second waits, and then the second attaches. *)
Definition ex_underlay (p : nat) (first : bool) : Underlay :=
  mkUnderlay p (lit "peer") (lit "group")
    (PutBoolHeader IsFirstGroupConnection first (PutBoolHeader IsGroupedHeader true ∅)) 0.

Definition ex_run (i : nat) (b : bool) : action := Run i (mkAnswer b 7).

Definition ex_creating : list action :=
  [Arrive (ex_underlay 1 true); Arrive (ex_underlay 2 false); ex_run 0 true; ex_run 1 true;
   ex_run 0 true; ex_run 1 true; ex_run 0 true; ex_run 0 true].
Definition ex_created : list action :=
  ex_creating ++ [ex_run 0 true; ex_run 0 true; ex_run 0 true; ex_run 0 true; ex_run 1 true].
Definition ex_attached : list action := ex_created ++ [ex_run 1 true; ex_run 1 true; ex_run 1 true].

Definition ex_world (acts : list action) : world :=
  default (start (mkListener ∅ ∅ true)) (exec_all (start (mkListener ∅ ∅ true)) acts).

(** The events that end the listener's care for an underlay. *)
Definition disposes (e : event) : bool :=
  match e with
  | EvFallback true | EvCreated _ _ | EvAttach _ | EvClose | EvReject => true
  | _ => false
  end.

(** ** Properties *)

(** C7: safety of the listener under concurrency.  In every state that any
    interleaving of accepts, channel closes and close callbacks reaches: no
    step panics (no notifier is closed twice, no nil channel is used); at most
    one thread holds the reservation of a group; every unfinished thread can
    run, except that the wait for a reservation may have to; and whoever waits
    waits for its own group, whose reservation is held by another thread that
    can run, or has been released. *)
Theorem listener_safe (adm : bool) (w : world) :
  reachable adm w ->
  (forall act, exec w act ≠ Some Panic) /\
  (forall i j id n n', holder (threads w) i id n -> holder (threads w) j id n' -> i = j) /\
  (forall i th a, threads w !! i = Some th -> at_pc th ≠ PDone -> (forall n, at_pc th ≠ PWait n) ->
     exists s' th', run_thread a (sh w) th = Next s' th') /\
  (forall i th n, threads w !! i = Some th -> at_pc th = PWait n ->
     (exists s' th', forall ch, run_thread (mkAnswer false ch) (sh w) th = Next s' th') /\
     (notifiers (sh w) !! n = Some 1%nat \/ exists j, j ≠ i /\ holder (threads w) j (chId th) n)).
Proof.
  intros Hinv%reachable_inv. pose proof (inv_res _ _ Hinv) as [R1 R2 R3 R4]. split_and!.
  - intros act E. destruct act as [u|i a|ch|r|j]; cbn in E; try done.
    + destruct (threads w !! i) as [th|] eqn:Hi; [|done]. cbn in E.
      pose proof (run_progress adm w i th a Hinv Hi) as H. by destruct (run_thread a (sh w) th).
    + by destruct (regs (sh w) !! r).
    + by destruct (callbacks w !! j) as [[]|].
  - intros i j id n n' Hh Hh'. destruct (R2 _ _ _ Hh) as [E _], (R2 _ _ _ Hh') as [E' _].
    assert (n = n') as -> by congruence. by eapply R3.
  - intros i th a Hi Hd Hw. pose proof (run_progress adm w i th a Hinv Hi) as H.
    destruct (run_thread a (sh w) th) as [| |s' th']; [|done | eauto].
    destruct H as [H|(n & H & _)]; [done | by apply Hw in H].
  - intros i th n Hi Hw. split; [unfold run_thread; rewrite Hw; cbn; eauto|].
    destruct (ok_wait _ _ _ (inv_threads _ _ Hinv i th Hi) n Hw) as [H|H]; [by left|]. right.
    destruct (R1 _ _ H) as [j Hj]. exists j. split; [|done]. intros ->.
    destruct Hj as (th' & Hth' & _ & Hh). simplify_eq. by rewrite Hw in Hh.
Qed.

Lemma listener_safe_witness :
  let w := ex_world ex_creating in
  reachable true w /\ (at_pc <$> threads w !! 1%nat) = Some (PWait 0) /\
  exists j, j ≠ 1%nat /\ holder (threads w) j (lit "group") 0.
Proof.
  intros w. assert (reachable true w) as Hr.
  { apply (exec_all_reachable true (start (mkListener ∅ ∅ true)) ex_creating).
    - apply reach_start. reflexivity.
    - vm_compute. reflexivity. }
  split; [exact Hr|]. split; [vm_compute; reflexivity|].
  destruct (listener_safe true w Hr) as (_ & _ & _ & Hw).
  assert (exists th, threads w !! 1%nat = Some th /\ at_pc th = PWait 0 /\ chId th = lit "group")
    as (th & E & Hp & Hid) by (eexists; split; [vm_compute; reflexivity | split; reflexivity]).
  destruct (Hw 1%nat th 0%nat E Hp) as [_ [H|H]]; [vm_compute in H; discriminate H|]. rewrite Hid in H. exact H.
Defined.

(** C8: an acknowledged group is known.  Once the first connection of a group
    has been acknowledged, which is what releases the dialer to make the
    group's other connections, every underlay of that group that looks it up
    attaches to its channel or waits for its creation; it is neither closed
    nor does it create a second channel.  This lasts until the factory fails
    or the channel is closed. *)
Theorem acked_group_known (adm : bool) (w : world) (i j : nat) (th other : thread) (a : answer) :
  reachable adm w -> threads w !! i = Some th -> threads w !! j = Some other ->
  isGrouped (underlay th) = true -> EvAck true ∈ did th ->
  (forall ch, at_pc th ≠ PAttach ch /\ EvAttach ch ∉ did th) ->
  EvFactoryFailed ∉ did th -> (forall ch r, EvCreated ch r ∈ did th -> ¬ gone (sh w) ch r) ->
  at_pc other = PLookup -> chId other = chId th ->
  exists s' other', run_thread a (sh w) other = Next s' other' /\
    ((exists n, at_pc other' = PWait n /\ createNotifiers (ml (sh w)) !! chId th = Some n) \/
     exists ch r, at_pc other' = PAck (Attaching ch) /\ channels (ml (sh w)) !! chId th = Some r /\
       made_for (sh w) (chId th) ch r).
Proof.
  intros Hinv%reachable_inv Hi Hj Hgr Hack Hna Hff Hg Hp Hid. pose proof (inv_threads _ _ Hinv i th Hi) as Hok.
  pose proof (acked_creator _ _ _ _ (ok_did _ _ _ Hok) Hgr Hack Hna Hff) as Hcr.
  rewrite <- Hid. eapply known_group_found; [done | done | done |]. rewrite Hid.
  destruct (holds_pc (at_pc th)) as [n|] eqn:Hh.
  - left. exists n. by apply (res_holder _ _ (inv_res _ _ Hinv) i), (ex_intro _ th).
  - destruct Hcr as [[n [=]]|(ch & r & Hcr)]. right. exists ch, r.
    split; [by apply (ok_created _ _ _ Hok)|]. split; [by apply Hg|].
    destruct (ok_published _ _ _ Hok ch r Hcr) as [H|H]; [| by apply Hg in H | done].
    destruct (at_pc th) as [| | | | | |[]| | | | | | | |]; done.
Qed.

Lemma acked_group_known_witness :
  let w := ex_world ex_created in
  exists th other, threads w !! 0%nat = Some th /\ threads w !! 1%nat = Some other /\
    did th = [EvAdmit true; EvAck true; EvCreated 7 0] /\
    exists s' other', run_thread (mkAnswer true 0) (sh w) other = Next s' other' /\
      ((exists n, at_pc other' = PWait n /\ createNotifiers (ml (sh w)) !! chId th = Some n) \/
       exists ch r, at_pc other' = PAck (Attaching ch) /\ channels (ml (sh w)) !! chId th = Some r /\
         made_for (sh w) (chId th) ch r).
Proof.
  intros w.
  assert (exists th, threads w !! 0%nat = Some th /\ did th = [EvAdmit true; EvAck true; EvCreated 7 0] /\
    at_pc th = PDone /\ isGrouped (underlay th) = true /\ chId th = lit "group") as (th & E0 & Hd & Hp & Hg & Hid)
    by (eexists; split; [vm_compute; reflexivity | split_and!; reflexivity]).
  assert (exists th, threads w !! 1%nat = Some th /\ at_pc th = PLookup /\ chId th = lit "group")
    as (other & E1 & Hp1 & Hid1) by (eexists; split; [vm_compute; reflexivity | split_and!; reflexivity]).
  exists th, other. split; [exact E0|]. split; [exact E1|]. split; [exact Hd|]. apply (acked_group_known true w 0 1 th other (mkAnswer true 0)).
  - apply (exec_all_reachable true (start (mkListener ∅ ∅ true)) ex_created).
    + apply reach_start. reflexivity.
    + vm_compute. reflexivity.
  - exact E0.
  - exact E1.
  - exact Hg.
  - rewrite Hd. apply list_elem_of_In. cbn. auto.
  - intros ch. rewrite Hd, Hp. split; [discriminate|]. rewrite list_elem_of_In. cbn. intuition discriminate.
  - rewrite Hd, list_elem_of_In. cbn. intuition discriminate.
  - intros ch r. rewrite Hd, list_elem_of_In. cbn. intros [[=]|[[=]|[[= <- <-]|[]]]].
    intros [H|(reg & H & H')].
    + apply (bool_decide_eq_true_2 _) in H. vm_compute in H. discriminate H.
    + vm_compute in H. injection H as <-. discriminate H'.
  - exact Hp1.
  - rewrite Hid, Hid1. reflexivity.
Defined.

(** A live channel stays registered.  Whatever step is taken, by a thread,
    a close callback (of this registration or of an earlier one of the same
    group) or a closing channel, a registered channel keeps its place unless it
    is closed or its own callback has started. *)
Theorem live_registration_kept (adm : bool) (w w' : world) (act : action) (id : gostring) (ch r : nat) :
  reachable adm w -> exec w act = Some (Ret w') ->
  channels (ml (sh w)) !! id = Some r -> made_for (sh w) id ch r -> ¬ gone (sh w') ch r ->
  channels (ml (sh w')) !! id = Some r /\ made_for (sh w') id ch r.
Proof.
  intros Hinv%reachable_inv E Hc Hm Hg. destruct (exec_inv _ _ _ _ Hinv E) as [He _].
  split; [|by eapply made_for_evolves]. destruct (ev_chan _ _ He _ _ Hc) as [?|H]; [done|].
  by apply H in Hm.
Qed.

Lemma live_registration_kept_witness :
  let w := ex_world ex_created in
  exists w', exec w (ex_run 1 true) = Some (Ret w') /\ channels (ml (sh w')) !! lit "group" = Some 0%nat.
Proof.
  intros w.
  assert (exec w (ex_run 1 true) = Some (Ret (ex_world (ex_created ++ [ex_run 1 true])))) as E
    by (vm_compute; reflexivity).
  set (w' := ex_world _) in E. exists w'. split; [exact E|].
  apply (live_registration_kept true w w' (ex_run 1 true) (lit "group") 7 0).
  - apply (exec_all_reachable true (start (mkListener ∅ ∅ true)) ex_created).
    + apply reach_start. reflexivity.
    + vm_compute. reflexivity.
  - exact E.
  - vm_compute. reflexivity.
  - eexists. split; [vm_compute; reflexivity|]. split; vm_compute; reflexivity.
  - intros [H|(reg & H & H')].
    + apply (bool_decide_eq_true_2 _) in H. vm_compute in H. discriminate H.
    + vm_compute in H. injection H as <-. discriminate H'.
Defined.

(** C23: what becomes of an underlay.  A finished accept went one of the ways
    of [ending]: an ungrouped underlay is acknowledged and given to the
    fallback; a grouped one is attached to a channel of its own group after an
    acknowledgement, or creates one: admitted (where there is an admitter)
    before it is acknowledged, acknowledged before the factory runs; only a
    first connection creates or asks for admission; a refused one is rejected
    without an acknowledgement.  On every way the underlay is disposed of
    exactly once: handed over, rejected or closed. *)
Theorem accept_endings (adm : bool) (w : world) (i : nat) (th : thread) :
  reachable adm w -> threads w !! i = Some th -> at_pc th = PDone ->
  ending adm (underlay th) (did th) /\ length (List.filter disposes (did th)) = 1%nat /\
  (forall ch, EvAttach ch ∈ did th -> exists r, made_for (sh w) (chId th) ch r) /\
  (forall ch r, EvCreated ch r ∈ did th -> made_for (sh w) (chId th) ch r /\
     (gone (sh w) ch r \/ channels (ml (sh w)) !! chId th = Some r)).
Proof.
  intros Hinv%reachable_inv Hi Hp. pose proof (inv_threads _ _ Hinv i th Hi) as Hok.
  pose proof (ok_did _ _ _ Hok) as Hd. rewrite Hp in Hd. split_and!.
  - done.
  - by destruct Hd; unfold admitted; destruct adm.
  - intros ch Hch. apply (ok_attach _ _ _ Hok). auto.
  - intros ch r Hcr. split; [by apply (ok_created _ _ _ Hok)|]. apply (ok_published _ _ _ Hok); [done|].
    by rewrite Hp.
Qed.

Lemma accept_endings_witness :
  let w := ex_world ex_attached in
  exists th, threads w !! 1%nat = Some th /\ did th = [EvAck true; EvAttach 7] /\
    length (List.filter disposes (did th)) = 1%nat /\ exists r, made_for (sh w) (chId th) 7 r.
Proof.
  intros w.
  assert (exists th, threads w !! 1%nat = Some th /\ did th = [EvAck true; EvAttach 7] /\ at_pc th = PDone)
    as (th & E & Hd & Hp) by (eexists; split; [vm_compute; reflexivity | split_and!; reflexivity]).
  exists th. split; [exact E|]. split; [exact Hd|]. destruct (accept_endings true w 1 th) as (_ & H1 & H2 & _).
  - apply (exec_all_reachable true (start (mkListener ∅ ∅ true)) ex_attached).
    + apply reach_start. reflexivity.
    + vm_compute. reflexivity.
  - exact E.
  - exact Hp.
  - split; [exact H1|]. apply H2. rewrite Hd. apply list_elem_of_In. cbn. auto.
Defined.
