(* ===== verification/Envelope.v ===== *)
(** * Envelopes and contexts (src/envelope.go, src/message.go, src/channel.go)

    A sendable bundles a message with the context that bounds its send and the
    callbacks the channel makes.  This file has the contexts ([context.Context]
    of the Go library, as far as envelopes use it, and the error context of
    src/envelope.go), the kinds of sendables with their methods, the buffered
    Go channels on which a waiting call hears of its message, and the
    constructors [WithTimeout] and [WithContext].  [Calls] composes them with a
    sender and a channel.

    Contexts form a tree.  The state [world] records, for every context that
    can be ended on its own, the error it ended with; a context whose parent
    has ended has ended with its parent's error.

    Theorem: wrapping a message in a context only ever tightens its bounds, and
    ending one context ends exactly the contexts below it. *)

From S2P Require Import Prelude Headers ChannelImpl.

(** ** Contexts *)

Module context.

(** [Given] is a context of the application; [ErrorContext] is [errorContext];
    the other two are what [context.WithCancel] and [context.WithDeadline]
    make of a parent. *)
Inductive Context : Type :=
  | Background
  | Given (id : nat) (deadline : option Z)
  | ErrorContext (err : option error)
  | CancelCtx (parent : Context) (id : nat)
  | DeadlineCtx (parent : Context) (id : nat) (d : Z).

#[global] Instance Context_eq_dec : EqDecision Context.
Proof. solve_decision. Defined.

(** Which contexts have been ended and with what error, the next unused name of
    a context, and the time in nanoseconds. *)
Record world : Type := mkWorld { ended : gmap nat error; unused : nat; clock : Z }.

(** [c.Err()], nil for [None]. *)
Fixpoint Err (c : Context) (w : world) : option error :=
  match c with
  | Background => None
  | Given id _ => ended w !! id
  | ErrorContext err => err
  | CancelCtx parent id | DeadlineCtx parent id _ =>
      match ended w !! id with Some e => Some e | None => Err parent w end
  end.

(** Whether [c.Done()] is closed.  An error context is done from the start,
    whatever its error. *)
Fixpoint Done (c : Context) (w : world) : bool :=
  match c with
  | Background => false
  | Given id _ => bool_decide (is_Some (ended w !! id))
  | ErrorContext _ => true
  | CancelCtx parent id | DeadlineCtx parent id _ =>
      bool_decide (is_Some (ended w !! id)) || Done parent w
  end.

(** [c.Deadline()] *)
Fixpoint Deadline (c : Context) : option Z :=
  match c with
  | Background | ErrorContext _ => None
  | Given _ deadline => deadline
  | CancelCtx parent _ => Deadline parent
  | DeadlineCtx _ _ d => Some d
  end.

(** The name under which a context can be ended. *)
Definition own_id (c : Context) : option nat :=
  match c with
  | Given id _ | CancelCtx _ id | DeadlineCtx _ id _ => Some id
  | Background | ErrorContext _ => None
  end.

(** A context ends, by its cancel function or its timer, with the given error;
    one that has ended stays as it is. *)
Definition end_context (c : Context) (e : error) (w : world) : world :=
  match own_id c with
  | Some id => if Done c w then w else mkWorld (<[id := e]> (ended w)) (unused w) (clock w)
  | None => w
  end.

(** [NewErrorContext] *)
Definition NewErrorContext (err : option error) : Context := ErrorContext err.

(** The part of [WithCancel] and [WithDeadline] that looks at the parent: a
    parent that is done without an error makes them panic. *)
Definition propagateCancel (parent : Context) : ST world unit := fun w =>
  if Done parent w
  then match Err parent w with Some _ => (Ret tt, w) | None => (Panic, w) end
  else (Ret tt, w).

Definition fresh_id : ST world nat := fun w =>
  (Ret (unused w), mkWorld (ended w) (S (unused w)) (clock w)).

(** [context.WithCancel(parent)]; a nil parent panics.  The cancel function is
    given by the context it cancels. *)
Definition WithCancel (parent : option Context) : ST world Context :=
  match parent with
  | None => lift Panic
  | Some p =>
      id ← fresh_id;
      _ ← propagateCancel p;
      mret (CancelCtx p id)
  end.

(** [context.WithDeadline(parent, d)]: an earlier deadline of the parent
    stands. *)
Definition WithDeadline (parent : Context) (d : Z) : ST world Context :=
  if match Deadline parent with Some cur => bool_decide (cur < d) | None => false end
  then WithCancel (Some parent)
  else
    id ← fresh_id;
    _ ← propagateCancel parent;
    t ← gets clock;
    _ ← when (bool_decide (d <= t))
          (modify (end_context (DeadlineCtx parent id d) context_DeadlineExceeded));
    mret (DeadlineCtx parent id d).

Definition WithTimeout (parent : Context) (timeout : Z) : ST world Context :=
  t ← gets clock; WithDeadline parent (t + timeout).

End context.

(** ** Go channels *)

Record gochan (A : Type) : Type := mkChan { chan_buf : list A; chan_cap : nat; chan_closed : bool }.
Arguments mkChan {A}.
Arguments chan_buf {A}.
Arguments chan_cap {A}.
Arguments chan_closed {A}.

(** A channel variable holds nil until it is made; an operation that blocks is
    [OutOfFuel]. *)
Definition make_chan {A} (n : nat) : option (gochan A) := Some (mkChan [] n false).

Definition chan_send {A} (a : A) : ST (option (gochan A)) unit := fun c =>
  match c with
  | None => (OutOfFuel, c)
  | Some ch =>
      if chan_closed ch then (Panic, c)
      else if decide (length (chan_buf ch) < chan_cap ch)%nat
      then (Ret tt, Some (mkChan (chan_buf ch ++ [a]) (chan_cap ch) false))
      else (OutOfFuel, c)
  end.

Definition chan_close {A} : ST (option (gochan A)) unit := fun c =>
  match c with
  | None => (Panic, c)
  | Some ch => if chan_closed ch then (Panic, c) else (Ret tt, Some (mkChan (chan_buf ch) (chan_cap ch) true))
  end.

(** A receive: [None] is the zero value a closed channel gives. *)
Definition chan_receive {A} : ST (option (gochan A)) (option A) := fun c =>
  match c with
  | Some (mkChan (a :: rest) n cl) => (Ret (Some a), Some (mkChan rest n cl))
  | Some (mkChan [] n true) => (Ret None, c)
  | _ => (OutOfFuel, c)
  end.

(** Whether a receive would not block. *)
Definition can_receive {A} (c : option (gochan A)) : bool :=
  match c with
  | Some ch => chan_closed ch || negb (bool_decide (chan_buf ch = []))
  | None => false
  end.

(** ** Sendables *)

(** [cancelF] is the context the function cancels. *)
Record envelopeImpl : Type := mkEnvelope {
  env_msg : Message;
  context : option context.Context;
  cancelF : option context.Context
}.

(** A message or an envelope as it is sent: plainly, through one of the three
    waiting calls, or as an error envelope. *)
Inductive Sendable : Type :=
  | SMessage (m : Message)
  | SEnvelope (e : envelopeImpl)
  | SQueueWait (e : envelopeImpl)
  | SSendWait (e : envelopeImpl)
  | SReply (e : envelopeImpl)
  | SError (ctx : context.Context).

Definition envelope_of (s : Sendable) : option envelopeImpl :=
  match s with
  | SEnvelope e | SQueueWait e | SSendWait e | SReply e => Some e
  | SMessage _ | SError _ => None
  end.

(** [s.Context()]; nil for [None]. *)
Definition sendable_Context (s : Sendable) : option context.Context :=
  match s with
  | SMessage _ => Some context.Background
  | SError ctx => Some ctx
  | SEnvelope e | SQueueWait e | SSendWait e | SReply e => context e
  end.

Definition Msg (s : Sendable) : option Message :=
  match s with
  | SMessage m => Some m
  | SError _ => None
  | SEnvelope e | SQueueWait e | SSendWait e | SReply e => Some (env_msg e)
  end.

Definition map_msg (f : Message -> Message) (s : Sendable) : Sendable :=
  let on e := mkEnvelope (f (env_msg e)) (context e) (cancelF e) in
  match s with
  | SMessage m => SMessage (f m)
  | SError ctx => SError ctx
  | SEnvelope e => SEnvelope (on e)
  | SQueueWait e => SQueueWait (on e)
  | SSendWait e => SSendWait (on e)
  | SReply e => SReply (on e)
  end.

(** [SetSequence], which an error envelope ignores. *)
Definition sendable_SetSequence (seq : Z) : Sendable -> Sendable := map_msg (SetSequence seq).

Definition sendable_Sequence (s : Sendable) : Z :=
  match Msg s with Some m => sequence m | None => 0 end.

Definition sendable_ReplyTo (o : Message) : Sendable -> Sendable := map_msg (fun m => ReplyTo m o).

(** [queueWaitEnvelope.WriteContext] *)
Definition WriteContext : context.Context := context.Background.

(** [writeContext(sendable)]: only [queueWaitEnvelope] provides its own. *)
Definition writeContext (s : Sendable) : option context.Context :=
  match s with
  | SQueueWait _ => Some WriteContext
  | _ => sendable_Context s
  end.

(** Only a reply envelope receives replies; the receiver is the envelope. *)
Definition sendable_ReplyReceiver (self : receiver) (s : Sendable) : option receiver :=
  match s with SReply _ => Some self | _ => None end.

(** ** Callbacks *)

(** What the callbacks of one envelope change. *)
Record mailbox : Type := mkMailbox {
  contexts : context.world;
  errC : option (gochan error);
  replyC : option (gochan Message)
}.

Definition on_contexts (f : context.world -> context.world) (b : mailbox) : mailbox :=
  mkMailbox (f (contexts b)) (errC b) (replyC b).

Definition on_errC {A} (op : ST (option (gochan error)) A) : ST mailbox A := fun b =>
  let '(r, c) := op (errC b) in (r, mkMailbox (contexts b) c (replyC b)).

Definition on_replyC {A} (op : ST (option (gochan Message)) A) : ST mailbox A := fun b =>
  let '(r, c) := op (replyC b) in (r, mkMailbox (contexts b) (errC b) c).

Definition CancelF (e : envelopeImpl) : ST mailbox unit :=
  match cancelF e with
  | Some c => modify (on_contexts (context.end_context c context_Canceled))
  | None => mret tt
  end.

(** [SendListener().NotifyAfterWrite()]: a plain envelope cancels its context
    (so does a queue wait, which inherits the method), a wire wait closes its
    channel, the others do nothing. *)
Definition NotifyAfterWrite (s : Sendable) : ST mailbox unit :=
  match s with
  | SEnvelope e | SQueueWait e => CancelF e
  | SSendWait _ => on_errC chan_close
  | SReply _ | SMessage _ | SError _ => mret tt
  end.

Definition NotifyErr (s : Sendable) (err : error) : ST mailbox unit :=
  match s with
  | SSendWait _ | SReply _ => on_errC (chan_send err)
  | SEnvelope _ | SQueueWait _ | SMessage _ | SError _ => mret tt
  end.

(** [AcceptReply] drops (and logs) a reply for which there is no room. *)
Definition AcceptReply (m : Message) : ST mailbox unit := fun b =>
  match on_replyC (chan_send m) b with
  | (OutOfFuel, _) => (Ret tt, b)
  | r => r
  end.

(** ** Constructors *)

(** [Message.WithTimeout] *)
Definition Message_WithTimeout (m : Message) (duration : Z) : ST context.world envelopeImpl :=
  c ← context.WithTimeout context.Background duration;
  mret (mkEnvelope m (Some c) (Some c)).

(** [Message.WithContext]: the context as it is, and nothing to cancel it. *)
Definition Message_WithContext (m : Message) (c : option context.Context) : envelopeImpl :=
  mkEnvelope m c None.

(** [envelopeImpl.WithTimeout] *)
Definition WithTimeout (self : envelopeImpl) (duration : Z) : ST context.world envelopeImpl :=
  let parent := default context.Background (context self) in
  c ← context.WithTimeout parent duration;
  mret (mkEnvelope (env_msg self) (Some c) (Some c)).

(** [envelopeImpl.WithContext] *)
Definition WithContext (self : envelopeImpl) (c : option context.Context) : ST context.world envelopeImpl :=
  c' ← context.WithCancel c;
  mret (mkEnvelope (env_msg self) (Some c') (Some c')).

(** [NewErrorEnvelope(err)], whose sends all return the context's error. *)
Definition NewErrorEnvelope (err : option error) : Sendable := SError (context.NewErrorContext err).

(** [Send], [SendAndWaitForWire], [SendForReply] and [SendAndWaitForQueue] of
    an error envelope. *)
Definition errorEnvelope_Send (s : Sendable) (w : context.world) : option error :=
  match s with SError ctx => context.Err ctx w | _ => None end.

(** The channel's view of a sendable named [self]: [UnixMilli] floors. *)
Definition to_channel (self : receiver) (s : Sendable) (w : context.world) : sendable :=
  mkSendable
    (match writeContext s with Some c => context.Err c w | None => None end)
    (Msg s)
    (sendable_ReplyReceiver self s)
    (match sendable_Context s with
     | Some c => (fun d => d / 1000000) <$> context.Deadline c
     | None => None
     end).

(** ** Lemmas: contexts *)

(** The names of the contexts on the way from a context to its root. *)
Fixpoint ids (c : context.Context) : list nat :=
  match c with
  | context.Background | context.ErrorContext _ => []
  | context.Given id _ => [id]
  | context.CancelCtx parent id | context.DeadlineCtx parent id _ => id :: ids parent
  end.

(** Every context of the tree has got its name already. *)
Definition known (w : context.world) (c : context.Context) : Prop :=
  Forall (fun id => (id < context.unused w)%nat) (ids c).

(** A context that is done has an error, as [context.Context] demands. *)
Definition lawful (c : context.Context) (w : context.world) : Prop :=
  context.Done c w = true -> is_Some (context.Err c w).

Lemma Err_Done c w e : context.Err c w = Some e -> context.Done c w = true.
Proof.
  induction c as [|id d|err|p IH id|p IH id d]; cbn; try done.
  - intros ->. done.
  - destruct (context.ended w !! id); [by rewrite bool_decide_true by eauto|]. intros H. by rewrite IH, orb_true_r.
  - destruct (context.ended w !! id); [by rewrite bool_decide_true by eauto|]. intros H. by rewrite IH, orb_true_r.
Qed.

(** Two worlds in which the same contexts of a tree have ended. *)
Lemma Err_Done_agree c w w' :
  (forall id, id ∈ ids c -> context.ended w' !! id = context.ended w !! id) ->
  context.Err c w' = context.Err c w /\ context.Done c w' = context.Done c w.
Proof.
  induction c as [|id d|err|p IH id|p IH id d]; cbn [ids context.Err context.Done]; intros H; try done.
  - by rewrite (H id) by set_solver.
  - rewrite (H id) by set_solver. destruct IH as [-> ->]; [set_solver | done].
  - rewrite (H id) by set_solver. destruct IH as [-> ->]; [set_solver | done].
Qed.

Lemma end_context_other c e w x :
  (forall id, context.own_id c = Some id -> id ∉ ids x) ->
  context.Err x (context.end_context c e w) = context.Err x w /\
  context.Done x (context.end_context c e w) = context.Done x w.
Proof.
  intros H. apply Err_Done_agree. intros id Hid. unfold context.end_context.
  destruct (context.own_id c) as [id'|]; [|done]. case_match; [done|]. cbn.
  rewrite lookup_insert_ne; [done|]. intros ->. by apply (H id).
Qed.

(** A context that has ended stays as it is. *)
Lemma end_context_keeps c e w x :
  context.Done x w = true ->
  context.Done x (context.end_context c e w) = true.
Proof.
  unfold context.end_context. destruct (context.own_id c) as [id|]; [|done]. case_match; [done|].
  clear. induction x as [|id' d|err|p IH id'|p IH id' d]; cbn; try done.
  - rewrite !bool_decide_eq_true. destruct (decide (id' = id)) as [->|];
      [rewrite lookup_insert_eq; eauto | by rewrite lookup_insert_ne].
  - rewrite !orb_true_iff, !bool_decide_eq_true. intros [H|H]; [|auto]. left.
    destruct (decide (id' = id)) as [->|]; [rewrite lookup_insert_eq; eauto | by rewrite lookup_insert_ne].
  - rewrite !orb_true_iff, !bool_decide_eq_true. intros [H|H]; [|auto]. left.
    destruct (decide (id' = id)) as [->|]; [rewrite lookup_insert_eq; eauto | by rewrite lookup_insert_ne].
Qed.

Lemma end_context_Done c e w : is_Some (context.own_id c) ->
  context.Done c (context.end_context c e w) = true.
Proof.
  intros [id Hid]. unfold context.end_context. rewrite Hid. destruct (context.Done c w) eqn:E; [done|].
  destruct c; cbn in Hid; try done; injection Hid as ->; cbn; rewrite lookup_insert_eq; by rewrite bool_decide_true by eauto.
Qed.

(** What [WithCancel] and [WithDeadline] return. *)
Definition derived (parent : context.Context) (dl : option Z) (c : context.Context) (w w' : context.world) : Prop :=
  context.Deadline c = dl /\ context.own_id c = Some (context.unused w) /\
  ids c = context.unused w :: ids parent /\ known w' c /\
  (forall v, context.Done parent v = true -> context.Done c v = true) /\
  (forall x, known w x -> context.Err x w' = context.Err x w /\ context.Done x w' = context.Done x w).

Lemma known_fresh w x id v : known w x -> id = context.unused w ->
  known (context.mkWorld v (S id) (context.clock w)) x /\ id ∉ ids x.
Proof.
  intros H ->. split.
  - eapply Forall_impl; [exact H|]. cbn. lia.
  - intros Hin. eapply Forall_forall in H; [|exact Hin]. lia.
Qed.

Lemma propagate_lawful p w : lawful p w -> context.propagateCancel p w = (Ret tt, w).
Proof.
  unfold context.propagateCancel, lawful. intros H. case_match; [|done].
  by destruct (H eq_refl) as [e ->].
Qed.

Lemma WithCancel_spec p w : known w p -> lawful p w ->
  exists c w', context.WithCancel (Some p) w = (Ret c, w') /\ derived p (context.Deadline p) c w w' /\
    c = context.CancelCtx p (context.unused w).
Proof.
  intros Hk Hl. unfold context.WithCancel, mbind, ST_bind, context.fresh_id.
  rewrite propagate_lawful.
  2: { unfold lawful in *. destruct (Err_Done_agree p w
         (context.mkWorld (context.ended w) (S (context.unused w)) (context.clock w))) as [-> ->]; done. }
  eexists _, _. split; [reflexivity|]. split; [|done].
  destruct (known_fresh w p _ (context.ended w) Hk eq_refl) as [Hk' Hn]. unfold derived.
  split_and!; try done.
  - constructor; [cbn; lia | exact Hk'].
  - intros v Hv. cbn. by rewrite Hv, orb_true_r.
  - intros x _. by apply Err_Done_agree.
Qed.

Lemma WithDeadline_spec p d w : known w p -> lawful p w ->
  exists c w', context.WithDeadline p d w = (Ret c, w') /\
    derived p (Some (match context.Deadline p with Some cur => Z.min cur d | None => d end)) c w w' /\
    (d <= context.clock w -> (forall cur, context.Deadline p = Some cur -> d <= cur) -> context.Done c w' = true).
Proof.
  intros Hk Hl. unfold context.WithDeadline.
  destruct (match context.Deadline p with Some cur => bool_decide (cur < d) | None => false end) eqn:Ed.
  { destruct (context.Deadline p) as [cur|] eqn:Ep; [|done]. apply bool_decide_eq_true in Ed.
    destruct (WithCancel_spec p w Hk Hl) as (c & w' & E & Hd & _). exists c, w'. split; [done|].
    rewrite Ep, <- (Z.min_l cur d) in Hd by lia. split; [done|]. intros _ H. specialize (H _ eq_refl). lia. }
  set (w1 := context.mkWorld (context.ended w) (S (context.unused w)) (context.clock w)).
  assert (context.propagateCancel p w1 = (Ret tt, w1)) as Ep.
  { apply propagate_lawful. unfold lawful in *. destruct (Err_Done_agree p w w1) as [-> ->]; done. }
  set (c := context.DeadlineCtx p (context.unused w) d).
  set (w' := if bool_decide (d <= context.clock w) then context.end_context c context_DeadlineExceeded w1 else w1).
  exists c, w'. split.
  { unfold mbind, ST_bind, context.fresh_id, gets. fold w1. rewrite Ep. cbn [context.clock w1].
    unfold w', when. by case_bool_decide. }
  destruct (known_fresh w p _ (context.ended w) Hk eq_refl) as [Hk' Hn].
  assert (context.unused w' = S (context.unused w)) as Eu.
  { unfold w', context.end_context. cbn [context.own_id c]. by repeat case_match. }
  split; [|intros Hle _; unfold w'; rewrite bool_decide_true by done; by apply end_context_Done].
  unfold derived. split_and!; try done.
  - cbn. destruct (context.Deadline p) as [cur|]; [|done]. apply bool_decide_eq_false in Ed. f_equal. lia.
  - unfold known. rewrite Eu. constructor; [lia | exact Hk'].
  - intros v Hv. cbn. by rewrite Hv, orb_true_r.
  - intros x Hx. destruct (known_fresh w x _ (context.ended w) Hx eq_refl) as [_ Hnx].
    destruct (Err_Done_agree x w w1) as [<- <-]; [done|].
    unfold w'. case_bool_decide; [|done]. apply (end_context_other c _ w1 x). intros id [= <-]. done.
Qed.

(** ** Properties *)

(** Timeouts tighten.  [WithTimeout] on an envelope gives an envelope of
    the same message whose context has the earlier of the new and the old
    deadline, is over whenever the old context is over, and is over at once for
    a timeout that is not positive; its cancel function ends that context.
    Neither making nor cancelling it affects any context that existed before,
    the old one of the envelope included. *)
Theorem timeouts_tighten (self : envelopeImpl) (duration : Z) (w : context.world) :
  let parent := default context.Background (context self) in
  known w parent -> lawful parent w ->
  exists self' w' c, WithTimeout self duration w = (Ret self', w') /\
    env_msg self' = env_msg self /\ context self' = Some c /\ cancelF self' = Some c /\
    context.Deadline c = Some (match context.Deadline parent with
                               | Some cur => Z.min cur (context.clock w + duration)
                               | None => context.clock w + duration
                               end) /\
    (forall v, context.Done parent v = true -> context.Done c v = true) /\
    (duration <= 0 -> (forall cur, context.Deadline parent = Some cur -> context.clock w <= cur) ->
     context.Done c w' = true) /\
    forall b, let b' := (CancelF self' (mkMailbox w' (errC b) (replyC b))).2 in
      context.Done c (contexts b') = true /\
      forall x, known w x -> context.Err x w' = context.Err x w /\
        context.Err x (contexts b') = context.Err x w /\ context.Done x (contexts b') = context.Done x w.
Proof.
  intros parent Hk Hl. unfold WithTimeout, context.WithTimeout.
  destruct (WithDeadline_spec parent (context.clock w + duration) w Hk Hl)
    as (c & w' & E & (Hd & Ho & Hi & Hk' & Hp & Hx) & Hnow).
  exists (mkEnvelope (env_msg self) (Some c) (Some c)), w', c.
  split; [unfold mbind, ST_bind, gets; fold parent; by rewrite E|].
  split_and!; try done.
  - intros Hdur Hcur. apply Hnow; [lia|]. intros cur Hc. specialize (Hcur cur Hc). lia.
  - intros b. cbn. split; [apply end_context_Done; by eexists|].
    intros x Hkx. destruct (Hx x Hkx) as [E1 E2].
    destruct (end_context_other c context_Canceled w' x) as [-> ->]; [|done].
    intros id Hid Hin. rewrite Ho in Hid. injection Hid as <-.
    eapply Forall_forall in Hkx; [|exact Hin]. lia.
Qed.

Lemma timeouts_tighten_witness :
  let w := context.mkWorld ∅ 3 100 in
  let e := Message_WithContext (NewMessage 7 []) (Some (context.Given 2 (Some 150))) in
  exists e' c, (WithTimeout e 80 w).1 = Ret e' /\ context e' = Some c /\ context.Deadline c = Some 150.
Proof.
  intros w e. destruct (timeouts_tighten e 80 w) as (e' & w' & c & E & _ & Ec & _ & Hd & _).
  - repeat constructor.
  - intros H. vm_compute in H. discriminate H.
  - exists e', c. rewrite E. split; [done|]. split; [done | exact Hd].
Defined.
