(* ===== verification/Calls.v ===== *)
(** * Calls that send an envelope (src/envelope.go with src/senders.go, src/impl.go)

    One call of [Send], [SendAndWaitForQueue], [SendAndWaitForWire] or
    [SendForReply] on an envelope, from its start until it returns, together
    with everything it interacts with: the three steps of [Senders.Send]
    (looking at the context, drawing a number, the select), the transmission by a
    send loop of the channel (taking the sendable, looking at its context, and
    then the rest of [ChannelImpl.tx]) with the callbacks it makes on the
    envelope one by one, messages received ([ChannelImpl.rx]) and the replies
    they bring, the closing of the channel, other users of the queue and of the
    channel, and contexts that end.  Each of these is an action; any interleaving
    of them is a run.  What is still one action: the transforms, the registration
    of the waiter, the write and, if it fails, the requeueing.

    Theorems: no callback of an envelope blocks or crashes a loop of the
    channel; every result of a call is justified by what happened; a call that
    can return stays able to until it does, and none is forgotten; what may be
    written after a call has returned; a request is answered end to end. *)

From S2P Require Import Prelude Headers Wire Underlays Senders Waiters ChannelImpl Envelope.

(** ** The system *)

(** Where the call is; a result [Ret None] is a nil error, [Ret (Some m)] a
    reply. *)
Inductive pc : Type :=
  | Calling
  | Numbering                      (* its context was found to be fine *)
  | Queueing                       (* its message has its number *)
  | Waiting
  | Returned (r : outcome (option Message)).

(** What a send loop is doing with the sendable of the call: nothing; it has
    taken it from the queue; it has looked at its context and found [err]. *)
Inductive holding : Type :=
  | Idle
  | Taken (x : Senders.Sendable)
  | Checked (x : Senders.Sendable) (err : option error).

(** The sendable of the call has the name 0, in the queue and as a receiver of
    replies.  [toNotify] and [toAccept] are the callbacks a send loop and the
    receive loops have still to make on it.  [own] and [drawn] record the
    events of its transmissions and the sequence number it got. *)
Record system : Type := mkSystem {
  item : Envelope.Sendable;
  at_pc : pc;
  box : mailbox;
  queue : singleChSender;
  ch : channelImpl;
  toNotify : list ChannelImpl.event;
  toAccept : list Message;
  crashed : bool;
  own : list ChannelImpl.event;
  drawn : option Z;
  held : holding
}.

Definition set_item (i : Envelope.Sendable) (s : system) : system :=
  mkSystem i (at_pc s) (box s) (queue s) (ch s) (toNotify s) (toAccept s) (crashed s) (own s) (drawn s) (held s).
Definition set_pc (p : pc) (s : system) : system :=
  mkSystem (item s) p (box s) (queue s) (ch s) (toNotify s) (toAccept s) (crashed s) (own s) (drawn s) (held s).
Definition set_box (b : mailbox) (s : system) : system :=
  mkSystem (item s) (at_pc s) b (queue s) (ch s) (toNotify s) (toAccept s) (crashed s) (own s) (drawn s) (held s).
Definition set_queue (q : singleChSender) (s : system) : system :=
  mkSystem (item s) (at_pc s) (box s) q (ch s) (toNotify s) (toAccept s) (crashed s) (own s) (drawn s) (held s).
Definition set_ch (c : channelImpl) (s : system) : system :=
  mkSystem (item s) (at_pc s) (box s) (queue s) c (toNotify s) (toAccept s) (crashed s) (own s) (drawn s) (held s).

Definition world_of (s : system) : context.world := contexts (box s).

(** ** The call *)

(** The deferred [CancelF] of the calls that wait. *)
Definition on_return (i : Envelope.Sendable) : ST mailbox unit :=
  match i with
  | SQueueWait e | SSendWait e | SReply e => CancelF e
  | SMessage _ | SEnvelope _ | SError _ => mret tt
  end.

Definition finish (r : outcome (option Message)) (s : system) : system :=
  set_pc (Returned r) (set_box (on_return (item s) (box s)).2 s).

(** The channels [WaitForWire] and [WaitForReply] make. *)
Definition make_channels (i : Envelope.Sendable) (b : mailbox) : mailbox :=
  match i with
  | SSendWait _ => mkMailbox (contexts b) (make_chan 1) (replyC b)
  | SReply _ => mkMailbox (contexts b) (make_chan 1) (make_chan 1)
  | _ => b
  end.

(** The first step of [Senders.Send]: the context is looked at; a nil context is
    dereferenced. *)
Definition start_send (s : system) : system :=
  match sendable_Context (item s) with
  | None => finish Panic s
  | Some c =>
      match check_context (context.Err c (world_of s)) (queue s) with
      | (Err err, _) => finish (Err err) s
      | _ => set_pc Numbering s
      end
  end.

(** The start of the call. *)
Definition begin_call (s : system) : system :=
  match item s with
  | SError _ =>
      finish (match errorEnvelope_Send (item s) (world_of s) with Some e => Err e | None => Ret None end) s
  | _ => start_send (set_box (make_channels (item s) (box s)) s)
  end.

(** What the select of [Senders.Send] takes. *)
Inductive queue_choice : Type := QDone | QClosed | QQueued.

Definition to_choice (c : context.Context) (w : context.world) (q : queue_choice) : Senders.choice :=
  match q with
  | QDone => Senders.Done (context.Err c w)
  | QClosed => Senders.Closed
  | QQueued => Senders.Queued
  end.

(** Whether the call goes on to wait once its message is queued. *)
Definition waits (i : Envelope.Sendable) : bool :=
  match i with SSendWait _ | SReply _ => true | _ => false end.

Section Calls.
Context (next : nat -> Z) (rng : gmap Z (waiter receiver) -> list (Z * waiter receiver))
  (closeErr : nat -> option error).

(** The second step of [Senders.Send]. *)
Definition number (s : system) : option system :=
  match draw_number next (Senders.mkSendable 0 0) (queue s) with
  | (Ret x, q) => Some (set_pc Queueing (set_queue q (set_item (sendable_SetSequence (sequence x) (item s)) s)))
  | _ => None
  end.

(** The sendable of the call as it is queued: its number is that of its
    message. *)
Definition queue_item (i : Envelope.Sendable) : Senders.Sendable :=
  Senders.mkSendable 0 (match Msg i with Some m => Headers.sequence m | None => 0 end).

(** The select of [Senders.Send]. *)
Definition enqueue (k : queue_choice) (s : system) : option system :=
  match sendable_Context (item s) with
  | None => None
  | Some c =>
      let choice := to_choice c (world_of s) k in
      if decide (Senders.ready (context.Done c (world_of s)) choice (queue s))
      then
        let x := queue_item (item s) in
        let '(r, q) := send_select choice x (queue s) in
        let s := set_queue q s in
        match r with
        | Ret _ =>
            let s := mkSystem (item s) (at_pc s) (box s) (queue s) (ch s) (toNotify s) (toAccept s)
                       (crashed s) (own s) (Some (sequence x)) (held s) in
            Some (if waits (item s) then set_pc Waiting s else finish (Ret None) s)
        | Err e => Some (finish (Err e) s)
        | Panic | OutOfFuel => None
        end
      else None
  end.

(** The select of [WaitForWire] and [WaitForReply]. *)
Inductive wait_choice : Type := WClosed | WErr | WDone | WReply.

Definition wire_text : gostring := lit "timeout waiting for message to be written to wire".
Definition reply_text : gostring := lit "timeout waiting for message reply".

Definition wait_ready (c : context.Context) (k : wait_choice) (s : system) : bool :=
  match k with
  | WClosed => isClosed (ch s)
  | WErr => can_receive (errC (box s))
  | WDone => context.Done c (world_of s)
  | WReply => match item s with SReply _ => can_receive (replyC (box s)) | _ => false end
  end.

Definition timed_out (text : gostring) (err : option error) : error :=
  match err with
  | Some e => TimeoutError (errors_Wrap e text)
  | None => errors_New text
  end.

(** The case taken; receiving nil from [errC] returns a nil error. *)
Definition wait_select (c : context.Context) (k : wait_choice) (s : system) : system :=
  match k with
  | WClosed => finish (Err ClosedError) s
  | WErr =>
      match on_errC chan_receive (box s) with
      | (Ret (Some e), b) => finish (Err e) (set_box b s)
      | (Ret None, b) => finish (Ret None) (set_box b s)
      | (_, b) => set_box b s
      end
  | WDone =>
      finish (Err (timed_out (match item s with SReply _ => reply_text | _ => wire_text end)
                     (context.Err c (world_of s)))) s
  | WReply =>
      match on_replyC chan_receive (box s) with
      | (Ret m, b) => finish (Ret m) (set_box b s)
      | (_, b) => set_box b s
      end
  end.

Definition wait (k : wait_choice) (s : system) : option system :=
  match sendable_Context (item s) with
  | Some c => if wait_ready c k s then Some (wait_select c k s) else None
  | None => None
  end.

(** ** Its surroundings *)

(** The events a channel operation adds. *)
Definition added (c c' : channelImpl) : list ChannelImpl.event := drop (length (log c)) (log c').

(** A failed write comes back to the queue if the senders retry and there is
    room: [HandleTxFailed] as [RetryToQueues]. *)
Definition retried (retry : bool) (x : Senders.Sendable) (q : MessageQueue) : bool * MessageQueue :=
  if retry
  then match RetryToQueues [q] x with (true, [q']) => (true, q') | _ => (false, q) end
  else (false, q).

(** A send loop takes the sendable of the call from the queue. *)
Definition take_item (s : system) : option system :=
  match held s, MakeSingleQueueMessageSource (FromQueue 0) (msgC (queue s)) with
  | Idle, (Ret x, [q]) =>
      if decide (name x = 0%nat)
      then Some (mkSystem (item s) (at_pc s) (box s) (mkSender q (given (queue s)) (closeNotified (queue s)))
                   (ch s) (toNotify s) (toAccept s) (crashed s) (own s) (drawn s) (Taken x))
      else None
  | _, _ => None
  end.

(** It looks at the context of what it has taken: the first lines of [tx]. *)
Definition check_item (s : system) : option system :=
  match held s with
  | Taken x =>
      Some (mkSystem (item s) (at_pc s) (box s) (queue s) (ch s) (toNotify s) (toAccept s) (crashed s)
              (own s) (drawn s) (Checked x (writeContextErr (to_channel 0 (item s) (world_of s)))))
  | _ => None
  end.

(** The sendable as [tx] goes on with it: the context's error is the one it saw. *)
Definition seen (err : option error) (i : Envelope.Sendable) (w : context.world) : sendable :=
  let o := to_channel 0 i w in mkSendable err (msg o) (replyTo o) (deadline o).

(** The transforms change the message itself: what a retry sends again is the
    transformed message. *)
Definition after_transforms (c : channelImpl) (err : option error) (i : Envelope.Sendable)
    : Envelope.Sendable :=
  match err with
  | Some _ => i
  | None => map_msg (transformed c) i
  end.

(** The rest of [tx]. *)
Definition transmit (retry : bool) (setErr writeErr : option error) (writeTimeout now : Z) (s : system)
    : option system :=
  match held s with
  | Checked x err =>
      let q := msgC (queue s) in
      let '(back, q') := retried retry x q in
      let '(r, c') := tx (mkTxEnv setErr writeErr back) (seen err (item s) (world_of s))
                        writeTimeout now (ch s) in
      let es := added (ch s) c' in
      let q := if existsb wrote es && bool_decide (is_Some writeErr) then q' else q in
      Some (mkSystem (after_transforms (ch s) err (item s)) (at_pc s) (box s)
              (mkSender q (given (queue s)) (closeNotified (queue s))) c'
              (toNotify s ++ List.filter told es) (toAccept s) (crashed s) (own s ++ es) (drawn s) Idle)
  | _ => None
  end.

(** It transmits a sendable of somebody else. *)
Definition transmit_other (back : bool) (o : sendable) (env : tx_env) (writeTimeout now : Z) (s : system)
    : option system :=
  match MakeSingleQueueMessageSource (FromQueue 0) (msgC (queue s)) with
  | (Ret x, [q]) =>
      if decide (name x ≠ 0%nat /\ replyTo o ≠ Some 0%nat)
      then
        let q := (retried back x q).2 in
        Some (set_ch (tx env o writeTimeout now (ch s)).2
                (set_queue (mkSender q (given (queue s)) (closeNotified (queue s))) s))
      else None
  | _ => None
  end.

(** The next callback of the send loop; [None] when it blocks. *)
Definition notify_item (s : system) : option system :=
  match toNotify s with
  | [] => None
  | e :: rest =>
      let '(r, b) := (match e with
                      | EvNotifyErr err => NotifyErr (item s) err
                      | EvNotifyAfterWrite => NotifyAfterWrite (item s)
                      | _ => mret tt
                      end) (box s) in
      match r with
      | OutOfFuel => None
      | Panic => Some (mkSystem (item s) (at_pc s) b (queue s) (ch s) rest (toAccept s) true (own s) (drawn s) (held s))
      | _ => Some (mkSystem (item s) (at_pc s) b (queue s) (ch s) rest (toAccept s) (crashed s) (own s) (drawn s) (held s))
      end
  end.

Definition reply_to_item (e : ChannelImpl.event) : option Message :=
  match e with EvAcceptReply O m => Some m | _ => None end.

(** A receive loop reads a message. *)
Definition receive_message (m : Message) (now : Z) (s : system) : system :=
  let c' := (rx rng m now (ch s)).2 in
  mkSystem (item s) (at_pc s) (box s) (queue s) c' (toNotify s)
    (toAccept s ++ omap reply_to_item (added (ch s) c')) (crashed s) (own s) (drawn s) (held s).

(** A receive loop gives a reply to the call; [None] when that blocks. *)
Definition accept_reply (i : nat) (s : system) : option system :=
  match toAccept s !! i with
  | Some m =>
      let '(r, b) := AcceptReply m (box s) in
      let after crash := mkSystem (item s) (at_pc s) b (queue s) (ch s) (toNotify s)
                           (delete i (toAccept s)) crash (own s) (drawn s) (held s) in
      match r with
      | OutOfFuel => None
      | Panic => Some (after true)
      | Ret _ | Err _ => Some (after (crashed s))
      end
  | None => None
  end.

Definition close_channel (s : system) : system :=
  set_ch (Close closeErr (ch s)).2 (set_queue (mkSender (msgC (queue s)) (given (queue s)) true) s).

(** Which contexts end by themselves: those of the application, and those whose
    deadline has passed. *)
Definition may_end (c : context.Context) (e : error) (w : context.world) : Prop :=
  match c with
  | context.Given _ _ => True
  | context.DeadlineCtx _ _ d => d <= context.clock w /\ e = context_DeadlineExceeded
  | _ => False
  end.

#[global] Instance may_end_dec c e w : Decision (may_end c e w).
Proof. destruct c; simpl; apply _. Defined.

Inductive action : Type :=
  | ABegin
  | ANumber
  | AEnqueue (k : queue_choice)
  | AWait (k : wait_choice)
  | ATake
  | ACheck
  | ATx (retry : bool) (setErr writeErr : option error) (writeTimeout now : Z)
  | ATxOther (back : bool) (o : sendable) (env : tx_env) (writeTimeout now : Z)
  | ANotify
  | ARx (m : Message) (now : Z)
  | AAccept (i : nat)
  | AClose
  | ADrawOther                                          (* another call draws a number *)
  | ASelectOther (k : Senders.kind) (ctxDone : bool) (c : option Senders.choice) (x : Senders.Sendable)
  | AEnd (c : context.Context) (e : error)
  | ATick (t : Z).

(** One action; [None] when it cannot be taken. *)
Definition act (a : action) (s : system) : option system :=
  match a with
  | ABegin => match at_pc s with Calling => Some (begin_call s) | _ => None end
  | ANumber => match at_pc s with Numbering => number s | _ => None end
  | AEnqueue k => match at_pc s with Queueing => enqueue k s | _ => None end
  | AWait k => match at_pc s with Waiting => wait k s | _ => None end
  | ATake => take_item s
  | ACheck => check_item s
  | ATx retry setErr writeErr wt now => transmit retry setErr writeErr wt now s
  | ATxOther back o env wt now => transmit_other back o env wt now s
  | ANotify => notify_item s
  | ARx m now => Some (receive_message m now s)
  | AAccept i => accept_reply i s
  | AClose => Some (close_channel s)
  | ADrawOther => Some (set_queue (NextSequence next (queue s)).2 s)
  | ASelectOther k ctxDone c x =>
      if decide (name x ≠ 0%nat /\ enabled k ctxDone c (queue s))
      then Some (set_queue (call_select k c x (queue s)).2 s)
      else None
  | AEnd c e =>
      if decide (may_end c e (world_of s))
      then Some (set_box (on_contexts (context.end_context c e) (box s)) s)
      else None
  | ATick t =>
      if decide (context.clock (world_of s) <= t)
      then Some (set_box (on_contexts (fun w => context.mkWorld (context.ended w) (context.unused w) t) (box s)) s)
      else None
  end.

Fixpoint run_acts (l : list action) (s : system) : option system :=
  match l with
  | [] => Some s
  | a :: l' => s' ← act a s; run_acts l' s'
  end.

(** A system in which the call has not begun: nothing of it is in the queue or
    waited for, and the transforms of the channel keep sequence numbers. *)
Record starting (s : system) : Prop := {
  start_pc : at_pc s = Calling;
  start_box : errC (box s) = None /\ replyC (box s) = None;
  start_queue : forall x, x ∈ C (msgC (queue s)) -> name x ≠ 0%nat;
  start_closed : closeNotified (queue s) = isClosed (ch s);
  start_waiters : forall k w, Waiters.m (waiters (ch s)) !! k = Some w -> replyReceiver w ≠ 0%nat;
  start_transforms : Forall (fun f => forall m, Headers.sequence (f m) = Headers.sequence m) (transformTx (handlers (ch s)));
  start_ghosts : toNotify s = [] /\ toAccept s = [] /\ crashed s = false /\ own s = [] /\ drawn s = None;
  start_held : held s = Idle
}.

Inductive reachable : system -> Prop :=
  | reach_start s : starting s -> reachable s
  | reach_act a s s' : reachable s -> act a s = Some s' -> reachable s'.

End Calls.

(** ** Lemmas: what the channel does to the call *)

(** The events of a transmission. *)
Definition tx_events (env : tx_env) (o : sendable) (writeTimeout : Z) (c : channelImpl)
    : list ChannelImpl.event :=
  match writeContextErr o with
  | Some e => [EvNotifyErr (TimeoutError e)]
  | None => EvNotifyBeforeWrite ::
      match msg o with
      | None => []
      | Some m =>
          match (if decide (0 < writeTimeout) then setTimeoutErr env else None) with
          | Some e => [EvNotifyErr e]
          | None => EvWrite (transformed c m) ::
              match txErr env with
              | Some e => ((fun h => EvHandleError h e) <$> errorHandlers (handlers c)) ++
                  (if requeued env then [] else [EvNotifyErr e; EvNotifyAfterWrite])
              | None => ((fun p => EvPeekTx p (transformed c m)) <$> peekHandlers (handlers c)) ++
                  [EvNotifyAfterWrite]
              end
          end
      end
  end.

Lemma tx_log env o wt now c : log (tx env o wt now c).2 = log c ++ tx_events env o wt c.
Proof.
  unfold tx, tx_events. change (foldl _ ?m0 _) with (transformed c m0).
  destruct (writeContextErr o); [done|]. destruct (msg o) as [m0|]; [|done].
  destruct (if decide (0 < wt) then setTimeoutErr env else None); [cbn; by rewrite <- app_assoc|].
  destruct (txErr env); [destruct (requeued env)|]; cbn; by rewrite <- ?app_assoc, ?app_nil_r.
Qed.

Lemma tx_added env o wt now c : added c (tx env o wt now c).2 = tx_events env o wt c.
Proof. unfold added. by rewrite tx_log, drop_app_length. Qed.

Lemma tx_frame env o wt now c :
  let c' := (tx env o wt now c).2 in handlers c' = handlers c /\ isClosed c' = isClosed c.
Proof.
  unfold tx. cbn zeta. destruct (writeContextErr o); [done|]. destruct (msg o) as [m0|]; [|done].
  destruct (if decide (0 < wt) then setTimeoutErr env else None); [done|].
  destruct (txErr env); [|done]. by destruct (requeued env).
Qed.

(** A transmission adds at most the waiter of its own sendable. *)
Lemma tx_waiters env o wt now c k w :
  Waiters.m (waiters (tx env o wt now c).2) !! k = Some w ->
  Waiters.m (waiters c) !! k = Some w \/
  (replyTo o = Some (replyReceiver w) /\ writeContextErr o = None /\
   exists m0, msg o = Some m0 /\ k = Headers.sequence (transformed c m0)).
Proof.
  assert (forall m0, Waiters.m (AddWaiter (mkWaiting (replyTo o) (deadline o) (Headers.sequence m0)) now
      (waiters c)) !! k = Some w ->
    Waiters.m (waiters c) !! k = Some w \/ (replyTo o = Some (replyReceiver w) /\ k = Headers.sequence m0)) as Hadd.
  { intros m0. unfold AddWaiter. cbn. destruct (replyTo o) as [r|]; [|by left]. cbn.
    destruct (decide (Headers.sequence m0 = k)) as [<-|Hk].
    - rewrite lookup_insert_eq. intros [= <-]. by right.
    - rewrite lookup_insert_ne by done. by left. }
  assert (forall seq (ws : waiterMap receiver), Waiters.m (RemoveWaiter seq ws).2 !! k = Some w ->
    Waiters.m ws !! k = Some w) as Hrem.
  { intros seq ws. unfold RemoveWaiter. destruct (Waiters.m ws !! seq); [cbn | done].
    by intros [_ H]%lookup_delete_Some. }
  unfold tx. change (foldl _ ?m0 _) with (transformed c m0).
  destruct (writeContextErr o); [by left|]. destruct (msg o) as [m0|]; [|by left]. specialize (Hadd (transformed c m0)).
  assert (forall ws, ws = AddWaiter (mkWaiting (replyTo o) (deadline o) (Headers.sequence (transformed c m0))) now (waiters c) ->
    Waiters.m ws !! k = Some w ->
    Waiters.m (waiters c) !! k = Some w \/ (replyTo o = Some (replyReceiver w) /\ None = @None error /\
      exists m1, Some m0 = Some m1 /\ k = Headers.sequence (transformed c m1))) as Hws.
  { intros ws -> H. destruct (Hadd H) as [H'|[H' Hk]]; [by left | right; eauto]. }
  destruct (if decide (0 < wt) then setTimeoutErr env else None); [by apply Hws|].
  destruct (txErr env); [|by apply Hws].
  destruct (requeued env); cbn; intros H%Hrem; by eapply Hws.
Qed.

(** What the sender of a message is told of a transmission. *)
Inductive fate : list ChannelImpl.event -> Prop :=
  | fate_open : fate []
  | fate_err e : fate [EvNotifyErr e]
  | fate_failed e : fate [EvNotifyErr e; EvNotifyAfterWrite]
  | fate_written : fate [EvNotifyAfterWrite].

Lemma told_fmap {A} (f : A -> ChannelImpl.event) l :
  (forall x, told (f x) = false) -> List.filter told (f <$> l) = [].
Proof. intros H. induction l; cbn; [done|]. by rewrite H. Qed.

Lemma tx_fate env o wt c :
  let es := tx_events env o wt c in
  is_Some (msg o) -> fate (List.filter told es) /\
  (List.filter told es = [] -> existsb wrote es = true /\ is_Some (txErr env) /\ requeued env = true) /\
  (List.filter told es = [EvNotifyAfterWrite] -> existsb wrote es = true) /\
  (existsb wrote es = true -> is_Some (txErr env) -> requeued env = true -> List.filter told es = []).
Proof.
  intros es [m0 Hm]. unfold es, tx_events. rewrite Hm. clear.
  destruct (writeContextErr o); [cbn; split_and!; try done; constructor|].
  destruct (if decide (0 < wt) then setTimeoutErr env else None); [cbn; split_and!; try done; constructor|].
  destruct (txErr env); [destruct (requeued env)|]; cbn; rewrite ?List.filter_app, ?told_fmap by done;
    cbn; split_and!; try done; try constructor; naive_solver.
Qed.

(** A transmission that registers the waiter is visible in its events. *)
Definition tried (es : list ChannelImpl.event) : bool :=
  existsb (fun e => match e with EvNotifyBeforeWrite => true | _ => false end) es.

Lemma tx_tried env o wt c : writeContextErr o = None -> tried (tx_events env o wt c) = true.
Proof. unfold tx_events. by intros ->. Qed.

Lemma tried_app es es' : tried (es ++ es') = tried es || tried es'.
Proof. apply existsb_app. Qed.

(** What a received message brings to the call. *)
Lemma rx_effect rng `{!RangeOrder rng} m now c :
  let c' := (rx rng m now c).2 in
  handlers c' = handlers c /\ isClosed c' = isClosed c /\
  (forall k w, Waiters.m (waiters c') !! k = Some w -> Waiters.m (waiters c) !! k = Some w) /\
  (forall r m', EvAcceptReply r m' ∈ added c c' ->
     exists w, Waiters.m (waiters c) !! reply_for_spec m' = Some w /\ replyReceiver w = r).
Proof.
  cbn zeta. destruct (rx_quiet rng m now c) as (Eh & Ecl & _).
  rewrite rx_spec in *. cbn zeta in *. cbn [snd] in *.
  set (m1 := foldl _ m _) in *. set (rf := reply_for_spec m1) in *.
  set (c1 := emit _ (set_lastRead now c)) in *.
  assert (reply_for_spec (cacheReplyFor m1) = rf) as Erf.
  { pose proof (ReplyFor_value m1) as E1. pose proof (ReplyFor_value (cacheReplyFor m1)) as E2.
    unfold ReplyFor in *. cbn in *. rewrite cacheReplyFor_idemp in E2. rewrite E1 in E2. by injection E2. }
  assert (log c1 = log c ++ ((fun p => EvPeekRx p m1) <$> peekHandlers (handlers c))) as El1 by done.
  assert (log (count_reply rng now c1) = log c1) as El2 by (clear Eh Ecl; unfold count_reply; by case_match).
  assert (forall k w, Waiters.m (waiters (count_reply rng now c1)) !! k = Some w -> Waiters.m (waiters c) !! k = Some w) as Hw.
  { intros k w Hk. destruct (count_reply_waiters rng now c1 k) as [H|[H _]]; rewrite H in Hk; done. }
  assert (forall e r m', EvAcceptReply r m' ∈ drop (length (log c)) (log c1 ++ [e]) -> e = EvAcceptReply r m') as Hin.
  { intros e r m'. rewrite El1, <- app_assoc, drop_app_length. intros [H|H]%elem_of_app.
    - apply list_elem_of_fmap in H as (? & ? & _). done.
    - by apply list_elem_of_singleton in H. }
  assert (forall hs ct mm r m', deliver_to hs ct mm ≠ EvAcceptReply r m') as Hnd
    by (intros; unfold deliver_to; by repeat case_match).
  split; [exact Eh|]. split; [exact Ecl|]. unfold added. clear Eh Ecl.
  case_decide as Hd.
  { rewrite receive_log. split; [done|]. intros r m' H. cbn [log emit] in H. apply Hin in H. by apply Hnd in H. }
  unfold RemoveWaiter. destruct (Waiters.m (waiters (count_reply rng now c1)) !! rf) as [w|] eqn:Ew.
  - split.
    + cbn. intros k w' [_ Hk]%lookup_delete_Some. by apply Hw.
    + intros r m' H. cbn [log emit set_waiters] in H. rewrite El2 in H. apply Hin in H. injection H as <- <-.
      rewrite Erf. eauto.
  - rewrite receive_log. split; [cbn; exact Hw|]. intros r m' H. cbn [log emit set_waiters] in H.
    rewrite El2 in H. apply Hin in H. by apply Hnd in H.
Qed.

Lemma Close_frame closeErr c :
  let c' := (Close closeErr c).2 in
  handlers c' = handlers c /\ isClosed c' = true /\
  (forall k w, Waiters.m (waiters c') !! k = Some w -> Waiters.m (waiters c) !! k = Some w).
Proof.
  cbn zeta. destruct (isClosed c) eqn:E; [by rewrite Close_closed|]. rewrite Close_spec by done.
  cbn. split_and!; try done.
Qed.

(** ** Lemmas: the parts of an action *)

Definition is_after (e : ChannelImpl.event) : bool :=
  match e with EvNotifyAfterWrite => true | _ => false end.

(** The errors among what a sender is told. *)
Definition errs (es : list ChannelImpl.event) : list error :=
  omap (fun e => match e with EvNotifyErr err => Some err | _ => None end) es.

Definition closes (i : Envelope.Sendable) : bool := match i with SSendWait _ => true | _ => false end.
Definition is_reply (i : Envelope.Sendable) : bool := match i with SReply _ => true | _ => false end.

(** The sendable of the call in the queue. *)
Definition mine (q : MessageQueue) : list Senders.Sendable := filter (fun x => name x = 0%nat) (C q).
Arguments mine : simpl never.

(** The sendable of the call, in the queue or with a send loop. *)
Definition held_items (h : holding) : list Senders.Sendable :=
  match h with Idle => [] | Taken x | Checked x _ => [x] end.

Definition placed (s : system) : list Senders.Sendable := held_items (held s) ++ mine (msgC (queue s)).
Arguments placed : simpl never.

(** The call has not queued its message yet; it is between its start and its
    return. *)
Definition early (p : pc) : bool := match p with Calling | Numbering | Queueing => true | _ => false end.
Definition busy (p : pc) : bool := match p with Numbering | Queueing | Waiting => true | _ => false end.

(** What its transmissions told the sender. *)
Definition verdict (s : system) : list ChannelImpl.event := List.filter told (own s).

(** A new message leaves the kind of a sendable and its contexts alone. *)
Lemma map_msg_frame f i :
  sendable_Context (map_msg f i) = sendable_Context i /\ waits (map_msg f i) = waits i /\
  closes (map_msg f i) = closes i /\ is_reply (map_msg f i) = is_reply i /\
  Msg (map_msg f i) = f <$> Msg i /\ cancelF <$> envelope_of (map_msg f i) = cancelF <$> envelope_of i.
Proof. by destruct i. Qed.

Lemma after_transforms_map c err i : exists f, after_transforms c err i = map_msg f i /\
  ((forall m, Headers.sequence (transformed c m) = Headers.sequence m) ->
   forall m, Headers.sequence (f m) = Headers.sequence m).
Proof.
  unfold after_transforms. case_match; [|eauto]. exists (fun m => m). split; [|done].
  by destruct i as [|[]|[]|[]|[]|].
Qed.

Lemma transformed_sequence c m :
  Forall (fun f => forall m, Headers.sequence (f m) = Headers.sequence m) (transformTx (handlers c)) ->
  Headers.sequence (transformed c m) = Headers.sequence m.
Proof.
  unfold transformed. intros H. revert m. induction H as [|f l Hf _ IH]; intros m; cbn; [done|].
  by rewrite IH, Hf.
Qed.

(** Cancelling ends one context and touches no Go channel. *)
Lemma CancelF_frame e b :
  errC (CancelF e b).2 = errC b /\ replyC (CancelF e b).2 = replyC b /\
  (CancelF e b).1 = Ret tt /\
  (forall c, context.Done c (contexts b) = true -> context.Done c (contexts (CancelF e b).2) = true).
Proof.
  unfold CancelF. destruct (cancelF e) as [c'|]; [|done]. cbn. split_and!; try done.
  intros c. apply end_context_keeps.
Qed.

Lemma on_return_frame i b :
  errC (on_return i b).2 = errC b /\ replyC (on_return i b).2 = replyC b /\
  (forall c, context.Done c (contexts b) = true -> context.Done c (contexts (on_return i b).2) = true).
Proof. destruct i as [m|e|e|e|e|c]; try done; cbn; destruct (CancelF_frame e b) as (? & ? & _ & ?); done. Qed.

Lemma source_spec q x q' :
  MakeSingleQueueMessageSource (FromQueue 0) q = (Ret x, [q']) -> C q = x :: C q'.
Proof. destruct q as [[|y l] n]; cbn; [done|]. by intros [= -> <-]. Qed.

Lemma retried_spec retry x q :
  retried retry x q = (true, push x q) \/ retried retry x q = (false, q).
Proof. unfold retried. destruct retry; [|by right]. cbn. case_decide; [by left | by right]. Qed.

Lemma mine_push x q : mine (push x q) = mine q ++ (if decide (name x = 0%nat) then [x] else []).
Proof. unfold mine, push. cbn. rewrite filter_app, filter_cons, filter_nil. done. Qed.

Lemma mine_take x q q' : C q = x :: C q' ->
  mine q = (if decide (name x = 0%nat) then [x] else []) ++ mine q'.
Proof. unfold mine. intros ->. rewrite filter_cons. by case_decide. Qed.

(** The call returns at once, or goes on to draw a number. *)
Lemma begin_cases s :
  let s1 := set_box (make_channels (item s) (box s)) s in
  (exists r, begin_call s = finish r s1) \/
  (begin_call s = set_pc Numbering s1 /\ is_Some (Msg (item s)) /\ is_Some (sendable_Context (item s)) /\
   forall c, item s ≠ SError c).
Proof.
  intros s1. assert ((exists c, item s = SError c) \/
    (begin_call s = start_send s1 /\ is_Some (Msg (item s)) /\ forall c, item s ≠ SError c)) as [[c Hc]|(-> & Hm & Hne)].
  { unfold begin_call. destruct (item s) as [m|e|e|e|e|c] eqn:Ei; [right..|left; eauto]; eauto. }
  - left. unfold begin_call, s1. rewrite Hc. cbn. eexists. by destruct s.
  - unfold start_send. change (item s1) with (item s). destruct (sendable_Context (item s)); [|eauto].
    destruct (context.Err _ _); cbn; [eauto|]. right. eauto.
Qed.

(** What taking a case of the queueing select does. *)
Lemma enqueue_spec k s s' : enqueue k s = Some s' ->
  exists c, sendable_Context (item s) = Some c /\
  let x := queue_item (item s) in
  match k with
  | QDone => context.Done c (world_of s) = true /\
      s' = finish (Err (TimeoutError (match context.Err c (world_of s) with
                                 | Some e => errors_Wrap e queue_text
                                 | None => errors_New queue_text
                                 end))) s
  | QClosed => closeNotified (queue s) = true /\ s' = finish (Err ClosedError) s
  | QQueued => has_room (msgC (queue s)) /\
      let s1 := mkSystem (item s) (at_pc s) (box s)
                  (mkSender (push x (msgC (queue s))) (given (queue s)) (closeNotified (queue s)))
                  (ch s) (toNotify s) (toAccept s) (crashed s) (own s) (Some (sequence x)) (held s) in
      s' = if waits (item s) then set_pc Waiting s1 else finish (Ret None) s1
  end.
Proof.
  assert (set_queue (queue s) s = s) as Es by (by destruct s).
  unfold enqueue. destruct (sendable_Context (item s)) as [c|]; [|done]. intros H. exists c. split; [done|].
  case_decide as Hr; [|done].
  destruct k; cbn [to_choice Senders.ready] in Hr; (split; [done|]); unfold send_select, mbind, ST_bind in H; cbn in H.
  - destruct (context.Err c (world_of s)); cbn in H; rewrite Es in H; by injection H as <-.
  - rewrite Es in H. by injection H as <-.
  - injection H as <-. done.
Qed.

(** The queue item of a message that has its number. *)
Lemma queue_item_msg i m : Msg i = Some m -> queue_item i = Senders.mkSendable 0 (Headers.sequence m).
Proof. unfold queue_item. by intros ->. Qed.

(** The select of somebody else's send. *)
Lemma select_other k ctxDone c x q :
  name x ≠ 0%nat -> enabled k ctxDone c q ->
  let q' := (call_select k c x q).2 in
  mine (msgC q') = mine (msgC q) /\ closeNotified q' = closeNotified q.
Proof.
  intros Hn He. cbn zeta. destruct (call_select_effect k ctxDone c x q He); try done.
  split; [|done]. cbn [msgC]. by rewrite mine_push, decide_False, app_nil_r by done.
Qed.

(** ** The invariant of a call *)

Section Invariant.
Context (next : nat -> Z) (rng : gmap Z (waiter receiver) -> list (Z * waiter receiver))
  `{!RangeOrder rng} (closeErr : nat -> option error).

(** The error channel holds what has been told so far; a call that returned may
    have taken it out. *)
Definition errC_ok (s : system) (delivered : list ChannelImpl.event) : Prop :=
  waits (item s) = true -> at_pc s ≠ Calling -> exists b,
  errC (box s) = Some (mkChan b 1 (closes (item s) && existsb is_after delivered)) /\
  (b = errs delivered \/ b = [] /\ exists r, at_pc s = Returned r).

(** The sendable is in one place, and what is told to it follows its fate. *)
Record call_inv (s : system) : Prop := {
  ci_closed : closeNotified (queue s) = isClosed (ch s);
  ci_transforms : Forall (fun f => forall m, Headers.sequence (f m) = Headers.sequence m)
                    (transformTx (handlers (ch s)));
  ci_crashed : crashed s = false;
  ci_queue : placed s = [] \/
    exists seq, placed s = [Senders.mkSendable 0 seq] /\ drawn s = Some seq /\ verdict s = [];
  ci_none : drawn s = None -> placed s = [] /\ own s = [] /\ toNotify s = [];
  ci_gone : is_Some (drawn s) -> placed s = [] -> verdict s ≠ [];
  ci_early : early (at_pc s) = true -> drawn s = None;
  ci_fate : fate (verdict s);
  ci_written : verdict s = [EvNotifyAfterWrite] -> existsb wrote (own s) = true;
  ci_told : exists delivered, verdict s = delivered ++ toNotify s /\ errC_ok s delivered;
  ci_item : busy (at_pc s) = true ->
    is_Some (Msg (item s)) /\ is_Some (sendable_Context (item s));
  ci_waiting : at_pc s = Waiting -> is_Some (drawn s) /\ waits (item s) = true;
  ci_msg : forall seq, drawn s = Some seq -> exists m, Msg (item s) = Some m /\ Headers.sequence m = seq
}.

Lemma starting_inv s : starting s -> call_inv s.
Proof using Type.
  intros [Hpc [Hb1 Hb2] Hq Hcl Hw Ht (H1 & H2 & H3 & H4 & H5) Hh].
  assert (placed s = []) as Hm.
  { unfold placed. rewrite Hh. apply elem_of_nil_inv. intros x [Hn Hx]%list_elem_of_filter. by apply (Hq x). }
  split; try done; unfold verdict; rewrite ?H4, ?H5, ?Hpc; try done; auto.
  - constructor.
  - exists []. split; [by rewrite H1|]. intros _ H. done.
Qed.

(** An action that leaves the call and its place alone. *)
Lemma frame_inv s s' :
  call_inv s -> item s' = item s -> at_pc s' = at_pc s -> errC (box s') = errC (box s) ->
  placed s' = placed s ->
  closeNotified (queue s') = isClosed (ch s') -> handlers (ch s') = handlers (ch s) ->
  toNotify s' = toNotify s -> crashed s' = crashed s -> own s' = own s -> drawn s' = drawn s ->
  call_inv s'.
Proof using Type.
  intros [I1 I2 I3 I4 I5 I6 I7 I8 I9 (dl & I10 & I10') I11 I12 I13] Ei Ep Eb Em Ec Eh Et Ex Eo Ed.
  split; unfold verdict in *; rewrite ?Ei, ?Ep, ?Em, ?Ec, ?Eh, ?Et, ?Ex, ?Eo, ?Ed; try done.
  exists dl. split; [done|]. unfold errC_ok. by rewrite Ei, Ep, Eb.
Qed.

(** The call returns. *)
Lemma finish_inv r s : call_inv s -> at_pc s ≠ Calling -> call_inv (finish r s).
Proof using Type.
  intros [I1 I2 I3 I4 I5 I6 I7 I8 I9 (dl & I10 & I10') I11 I12 I13] Hpc.
  destruct (on_return_frame (item s) (box s)) as (Eb & _ & _).
  split; try done.
  exists dl. split; [done|]. unfold errC_ok in *. cbn. rewrite Eb. intros Hw _.
  destruct (I10' Hw Hpc) as (b & -> & Hb). exists b. split; [done|].
  destruct Hb as [|[-> _]]; [by left|]. right. eauto.
Qed.

(** A call that has not queued its message: nothing has happened to it. *)
Lemma early_inv s : call_inv s -> early (at_pc s) = true ->
  drawn s = None /\ placed s = [] /\ own s = [] /\ toNotify s = [] /\ errC_ok s [].
Proof using Type.
  intros Hi He. pose proof (ci_early s Hi He) as Hd. destruct (ci_none s Hi Hd) as (Em & Eo & En).
  destruct (ci_told s Hi) as (dl & Ed & Hok). unfold verdict in Ed. rewrite Eo, En, app_nil_r in Ed. by subst dl.
Qed.

(** It goes on, with another message or other channels. *)
Lemma early_moves s i p b q :
  call_inv s -> early (at_pc s) = true ->
  mine (msgC q) = mine (msgC (queue s)) -> closeNotified q = closeNotified (queue s) ->
  (busy p = true -> is_Some (Msg i) /\ is_Some (sendable_Context i)) -> p ≠ Waiting ->
  (waits i = true -> p ≠ Calling -> errC b = make_chan 1) ->
  call_inv (set_item i (set_pc p (set_box b (set_queue q s)))).
Proof using Type.
  intros Hi He Em Ec Hp Hw Hb. destruct (early_inv s Hi He) as (Hd & Hpl & Eo & En & _).
  destruct Hi as [I1 I2 I3 I4 I5 I6 I7 I8 I9 I10 I11 I12 I13].
  assert (placed (set_item i (set_pc p (set_box b (set_queue q s)))) = []) as Hpl'.
  { unfold placed in *. cbn. by rewrite Em. }
  split; unfold verdict in *; try done; rewrite ?Hpl'; cbn; rewrite ?Eo, ?Hd; try done; auto.
  - congruence.
  - exists []. rewrite En. split; [done|]. intros Hw' Hc. exists []. cbn in *. rewrite (Hb Hw' Hc), andb_false_r.
    split; [done | by left].
Qed.

Lemma begin_inv s : call_inv s -> at_pc s = Calling -> call_inv (begin_call s).
Proof using Type.
  intros Hi Hpc. assert (early (at_pc s) = true) as He by (by rewrite Hpc).
  destruct (begin_cases s) as [(r & ->)|(-> & Hmsg & Hctx & _)].
  - unfold finish. pose proof (early_moves s (item s) (Returned r)
      (on_return (item s) (make_channels (item s) (box s))).2 (queue s) Hi He) as H. destruct s. apply H; try done.
    intros Hw _. edestruct on_return_frame as (-> & _ & _). revert Hw. cbn. by destruct item0.
  - pose proof (early_moves s (item s) Numbering (make_channels (item s) (box s)) (queue s) Hi He) as H.
    destruct s. apply H; try done. cbn. by destruct item0.
Qed.

Lemma number_inv s s' : call_inv s -> at_pc s = Numbering -> number next s = Some s' -> call_inv s'.
Proof using Type.
  intros Hi Hpc H. assert (early (at_pc s) = true) as He by (by rewrite Hpc). cbn in H. injection H as <-.
  destruct (early_inv s Hi He) as (_ & _ & _ & _ & Hok).
  destruct (ci_item s Hi) as [Hm Hc]; [by rewrite Hpc|].
  set (f := Headers.SetSequence (int32 (next (given (queue s))))).
  destruct (map_msg_frame f (item s)) as (F1 & F2 & F3 & F4 & F5 & F6).
  pose proof (early_moves s (map_msg f (item s)) Queueing (box s)
    (mkSender (msgC (queue s)) (S (given (queue s))) (closeNotified (queue s))) Hi He) as H.
  destruct s. apply H; try done; rewrite ?F1, ?F2, ?F5.
  - intros _. by rewrite fmap_is_Some.
  - intros Hw _. destruct (Hok Hw) as (bf & -> & Hb); [by rewrite Hpc|]. rewrite andb_false_r.
    destruct Hb as [->|[_ [r Hr]]]; [done | congruence].
Qed.

Lemma enqueue_inv k s s' : call_inv s -> at_pc s = Queueing -> enqueue k s = Some s' -> call_inv s'.
Proof using Type.
  intros Hi Hpc H. destruct (ci_item s Hi) as [[m0 Hm0] _]; [by rewrite Hpc|].
  destruct (early_inv s Hi) as (Hd & Hpl & Eo & En & Hok); [by rewrite Hpc|].
  destruct (enqueue_spec k s s' H) as (c & Hc & Hk). cbn zeta in Hk.
  destruct k; [destruct Hk as [_ ->]; apply finish_inv; [done | by rewrite Hpc]..|].
  destruct Hk as [_ ->]. rewrite (queue_item_msg _ _ Hm0). cbn [sequence]. set (seq := Headers.sequence m0).
  assert (forall p, p = Waiting /\ waits (item s) = true \/ p = Returned (Ret None) ->
    call_inv (mkSystem (item s) p (box s) (mkSender (push (Senders.mkSendable 0 seq) (msgC (queue s)))
      (given (queue s)) (closeNotified (queue s))) (ch s) (toNotify s) (toAccept s) (crashed s) (own s) (Some seq) (held s))) as H1.
  { intros p Hp. assert (placed (mkSystem (item s) p (box s) (mkSender (push (Senders.mkSendable 0 seq) (msgC (queue s)))
      (given (queue s)) (closeNotified (queue s))) (ch s) (toNotify s) (toAccept s) (crashed s) (own s) (Some seq) (held s))
      = [Senders.mkSendable 0 seq]) as Hpl'.
    { unfold placed in *. cbn. apply app_eq_nil in Hpl as [-> Hq]. by rewrite mine_push, Hq. }
    destruct Hi as [I1 I2 I3 I4 I5 I6 I7 I8 I9 I10 I11 I12 I13].
    split; unfold verdict in *; rewrite ?Hpl'; cbn [drawn item at_pc box queue ch toNotify own msgC closeNotified crashed];
      rewrite ?Eo, ?Hm0, ?Hc; try done; eauto.
    - by destruct Hp as [[-> _]| ->].
    - constructor.
    - exists []. rewrite En. split; [done|]. intros Hw _. destruct (Hok Hw) as (bf & Hb & [->|[_ [r Hr]]]);
        [by rewrite Hpc | | congruence]. exists []. auto.
    - intros ->. destruct Hp as [[_ ?]|?]; [eauto | done].
    - intros ? [= <-]. eauto. }
  destruct (waits (item s)) eqn:Ew; [apply H1; auto|].
  unfold finish. cbn [item box]. specialize (H1 _ (or_intror eq_refl)).
  eapply frame_inv; [exact H1|..]; try done; [apply on_return_frame | apply Hi].
Qed.

Lemma wait_inv k s s' : call_inv s -> at_pc s = Waiting -> wait k s = Some s' -> call_inv s'.
Proof using Type.
  intros Hi Hpc. unfold wait. destruct (sendable_Context (item s)) as [c|]; [|done].
  destruct (wait_ready c k s) eqn:Er; [|done]. intros [= <-].
  assert (at_pc s ≠ Calling) as Hnc by (by rewrite Hpc).
  destruct k; cbn [wait_select].
  - by apply finish_inv.
  - destruct (ci_told s Hi) as (dl & Ev & Hok). destruct (ci_waiting s Hi Hpc) as [_ Hw].
    destruct (Hok Hw Hnc) as (b & Eb & Hb). destruct Hb as [->|[_ [? ?]]]; [|congruence].
    assert (forall r b', errC b' = Some (mkChan (drop 1 (errs dl)) 1 (closes (item s) && existsb is_after dl)) ->
      call_inv (finish r (set_box b' s))) as Hfin.
    { intros r b' Eb'. unfold finish. cbn [item set_box box].
      destruct (on_return_frame (item s) b') as (Er' & _ & _). rewrite Eb' in Er'.
      destruct Hi as [I1 I2 I3 I4 I5 I6 I7 I8 I9 I10 I11 I12 I13]. split; try done.
      exists dl. split; [done|]. unfold errC_ok. cbn. rewrite Er'. intros _ _. eexists. split; [reflexivity|].
      right. split; [|eauto]. unfold verdict in *. rewrite Ev in I8. clear -I8.
      destruct dl as [|[] [|[] [|? ?]]]; cbn; try done; by inversion I8. }
    unfold on_errC. cbn in Er. rewrite Eb in *. cbn in Er.
    destruct (errs dl) as [|e l] eqn:Ee.
    + rewrite orb_false_r in Er. rewrite Er. cbn. apply Hfin. cbn. by rewrite Er.
    + cbn. by apply Hfin.
  - by apply finish_inv.
  - destruct (on_replyC chan_receive (box s)) as [r b] eqn:Erc.
    assert (errC b = errC (box s)) as Eb.
    { unfold on_replyC in Erc. destruct (chan_receive _) in Erc. by injection Erc as _ <-. }
    assert (call_inv (set_box b s)) as Hib by (apply (frame_inv s); try done; apply Hi).
    destruct r; try done; by apply finish_inv.
Qed.

(** What taking and looking at the context leave alone. *)
Lemma take_frame s s' : take_item s = Some s' \/ check_item s = Some s' ->
  item s' = item s /\ at_pc s' = at_pc s /\ box s' = box s /\ ch s' = ch s /\ toNotify s' = toNotify s /\
  toAccept s' = toAccept s /\ crashed s' = crashed s /\ own s' = own s /\ drawn s' = drawn s /\
  placed s' = placed s /\ closeNotified (queue s') = closeNotified (queue s).
Proof using Type.
  unfold take_item, check_item. intros [H|H]; destruct (held s) eqn:Eh; try done.
  - destruct (MakeSingleQueueMessageSource _ _) as [[y| | |] [|q [|]]] eqn:Eq; try done.
    case_decide as Hx; [|done]. injection H as <-. apply source_spec in Eq. split_and!; try done.
    unfold placed. cbn. by rewrite Eh, (mine_take _ _ _ Eq), decide_True by done.
  - injection H as <-. split_and!; try done. unfold placed. cbn. by rewrite Eh.
Qed.

Lemma take_inv s s' : call_inv s -> take_item s = Some s' \/ check_item s = Some s' -> call_inv s'.
Proof using Type.
  intros Hi H. destruct (take_frame s s' H) as (E1 & E2 & E3 & E4 & E5 & E6 & E7 & E8 & E9 & E10 & E11).
  apply (frame_inv s); try done; [by rewrite E3 | | by rewrite E4]. rewrite E4, E11. apply Hi.
Qed.

Lemma transmit_inv retry e1 e2 wt now s s' :
  call_inv s -> transmit retry e1 e2 wt now s = Some s' -> call_inv s'.
Proof using Type.
  intros Hi. unfold transmit. destruct (held s) as [|x|x err] eqn:Eheld; try done.
  destruct (retried retry x (msgC (queue s))) as [back q'] eqn:Er. set (q := msgC (queue s)) in *.
  destruct (tx _ _ wt now (ch s)) as [r c'] eqn:Et. intros [= <-].
  assert (placed s = x :: mine q) as Em by (unfold placed; by rewrite Eheld).
  destruct (ci_queue s Hi) as [Hq|(seq & Hq & Hd & Hv)]; [congruence|].
  rewrite Hq in Em. injection Em as <- Em.
  set (env := mkTxEnv e1 e2 back) in *. set (o := seen err (item s) (world_of s)) in *.
  pose proof (tx_added env o wt now (ch s)) as Ea. pose proof (tx_frame env o wt now (ch s)) as [Eh Ec].
  rewrite Et in *. cbn [snd] in *. rewrite Ea. set (es := tx_events env o wt (ch s)) in *.
  destruct (ci_msg s Hi seq Hd) as (m0 & Hm0 & Hseq).
  destruct (tx_fate env o wt (ch s)) as (Hf & Hopen & Hwr & Hback); [by eexists|]. fold es in Hf, Hopen, Hwr, Hback.
  destruct (after_transforms_map (ch s) err (item s)) as (f & Ef & Hfs). rewrite Ef.
  destruct (map_msg_frame f (item s)) as (F1 & F2 & F3 & F4 & F5 & F6).
  destruct Hi as [I1 I2 I3 I4 I5 I6 I7 I8 I9 (dl & I10 & I10') I11 I12 I13].
  unfold verdict in *. rewrite Hv in I10. symmetry in I10. apply app_eq_nil in I10 as [-> En].
  set (qf := if existsb wrote es && bool_decide (is_Some e2) then q' else q).
  assert (mine qf = [] /\ List.filter told es ≠ [] \/
    mine qf = [Senders.mkSendable 0 seq] /\ List.filter told es = []) as Hqf.
  { unfold qf. destruct (retried_spec retry (Senders.mkSendable 0 seq) q) as [E|E]; rewrite E in Er; injection Er as <- <-.
    - destruct (existsb wrote es) eqn:Ew; cbn.
      + case_bool_decide as He2.
        * right. rewrite mine_push, <- Em. split; [done|]. by apply Hback.
        * left. split; [done|]. intros H. by destruct (Hopen H) as (_ & ? & _).
      + left. split; [done|]. intros H. by destruct (Hopen H).
    - left. split; [by destruct (_ && _)|]. intros H. by destruct (Hopen H) as (_ & _ & ?). }
  split; unfold placed; cbn [item at_pc box queue ch toNotify toAccept crashed own drawn msgC closeNotified held held_items app];
    unfold verdict; cbn [own]; rewrite ?List.filter_app, ?Hv, ?Eh, ?Ec, ?F1, ?F2, ?F5, ?Hd; try done.
  - destruct Hqf as [[? _]|[? ?]]; [by left | right; eauto].
  - intros _ Hq0. destruct Hqf as [[_ ?]|[Hq1 _]]; [done | congruence].
  - intros H. by rewrite I7 in Hd.
  - cbn. intros H. rewrite existsb_app, Hwr by done. apply orb_true_r.
  - exists []. rewrite En. split; [done|]. unfold errC_ok in *. cbn. by rewrite F2, F3.
  - intros H. rewrite Hm0. split; [by eexists|]. by apply I11.
  - intros H. split; [by eexists | by apply I12].
  - intros ? [= <-]. rewrite Hm0. exists (f m0). split; [done|]. rewrite Hfs; [done|].
    intros m. by apply transformed_sequence.
Qed.

Lemma transmit_other_inv back o env wt now s s' :
  call_inv s -> transmit_other back o env wt now s = Some s' -> call_inv s'.
Proof using Type.
  intros Hi. unfold transmit_other.
  destruct (MakeSingleQueueMessageSource _ _) as [[x| | |] [|q [|]]] eqn:Eq; try done.
  case_decide as Hx; [|done]. destruct Hx as [Hx _]. intros [= <-]. apply source_spec in Eq.
  pose proof (mine_take _ _ _ Eq) as Em. rewrite decide_False in Em by done. cbn in Em.
  pose proof (tx_frame env o wt now (ch s)) as [Eh Ec].
  eapply frame_inv; [exact Hi|..]; try done; unfold placed; cbn.
  - rewrite Em. destruct (retried_spec back x q) as [-> | ->]; [|done]. cbn.
    by rewrite mine_push, decide_False, app_nil_r by done.
  - rewrite Ec. apply Hi.
Qed.

(** No callback of the call blocks or panics. *)
Lemma notify_enabled s : call_inv s -> toNotify s ≠ [] ->
  exists s', notify_item s = Some s' /\ call_inv s' /\ crashed s' = false.
Proof using Type.
  intros Hi Hn. unfold notify_item. destruct (toNotify s) as [|e rest] eqn:En; [done|].
  pose proof Hi as [I1 I2 I3 I4 I5 I6 I7 I8 I9 (dl & I10 & I10') I11 I12 I13].
  assert (at_pc s ≠ Calling) as Hpc.
  { intros Hp. destruct (I5 (I7 ltac:(by rewrite Hp))) as (_ & _ & ?); congruence. }
  rewrite En in I10.
  assert (forall b, errC_ok (set_box b s) (dl ++ [e]) ->
    call_inv (mkSystem (item s) (at_pc s) b (queue s) (ch s) rest (toAccept s) (crashed s) (own s) (drawn s) (held s))) as Hok.
  { intros b Hb. split; try done; cbn.
    - intros Hd. destruct (I5 Hd) as (_ & _ & H). by rewrite En in H.
    - exists (dl ++ [e]). rewrite <- app_assoc. split; [done|]. exact Hb. }
  assert (waits (item s) = false -> forall b, call_inv (mkSystem (item s) (at_pc s) b (queue s) (ch s) rest
    (toAccept s) (crashed s) (own s) (drawn s) (held s))) as Hfree.
  { intros Hw b. apply Hok. intros Hw'. cbn in Hw'. congruence. }
  unfold errC_ok in I10'.
  assert (fate (dl ++ e :: rest)) as Hfate by (by rewrite <- I10).
  assert ((dl = [] /\ exists err, e = EvNotifyErr err) \/ (e = EvNotifyAfterWrite /\ existsb is_after dl = false)) as Hcase.
  { clear -Hfate. destruct dl as [|d1 [|d2 [|d3 dl]]]; inversion Hfate; subst; eauto. all: try (destruct dl; done). }
  destruct Hcase as [[-> [err ->]]|[-> Hna]].
  - destruct (item s) as [m|v|v|v|v|c] eqn:Ei; try (eexists; split; [reflexivity|]; split; [by apply Hfree | done]).
    + destruct (I10' eq_refl Hpc) as (b & Eb & [->|[-> Hr]]); cbn; unfold on_errC; rewrite Eb; cbn;
        (eexists; split; [reflexivity|]; split; [apply Hok; intros _ _; eexists; cbn; rewrite Ei; cbn; split; [reflexivity | by left] | done]).
    + destruct (I10' eq_refl Hpc) as (b & Eb & [->|[-> Hr]]); cbn; unfold on_errC; rewrite Eb; cbn;
        (eexists; split; [reflexivity|]; split; [apply Hok; intros _ _; eexists; cbn; rewrite Ei; cbn; split; [reflexivity | by left] | done]).
  - assert (errs (dl ++ [EvNotifyAfterWrite]) = errs dl) as Ee by (unfold errs; by rewrite omap_app, app_nil_r).
    destruct (item s) as [m|v|v|v|v|c] eqn:Ei; try (eexists; split; [reflexivity|]; split; [by apply Hfree | done]).
    + cbn. destruct (CancelF_frame v (box s)) as (_ & _ & Er & _). destruct (CancelF v (box s)) as [r b'].
      cbn in Er. subst r. eexists; split; [reflexivity|]; split; [by apply Hfree | done].
    + cbn. destruct (CancelF_frame v (box s)) as (_ & _ & Er & _). destruct (CancelF v (box s)) as [r b'].
      cbn in Er. subst r. eexists; split; [reflexivity|]; split; [by apply Hfree | done].
    + destruct (I10' eq_refl Hpc) as (b & Eb & Hb). cbn. unfold on_errC. rewrite Eb, Hna. cbn.
      eexists; split; [reflexivity|]; split; [|done]. apply Hok. intros _ _. cbn. rewrite Ei, existsb_app. cbn.
      rewrite orb_true_r, Ee. eauto.
    + eexists; split; [reflexivity|]; split; [|done]. apply Hok. intros _ _. cbn. rewrite Ei, Ee. cbn.
      by apply I10'.
Qed.

Lemma accept_frame m b :
  errC (AcceptReply m b).2 = errC b /\ contexts (AcceptReply m b).2 = contexts b /\
  (replyC (AcceptReply m b).2 = replyC b \/
   exists c, replyC b = Some c /\ replyC (AcceptReply m b).2 = Some (mkChan (chan_buf c ++ [m]) (chan_cap c) false)).
Proof using Type.
  unfold AcceptReply, on_replyC, chan_send. destruct (replyC b) as [c|] eqn:E; cbn; [|auto].
  destruct (chan_closed c); cbn; [auto|]. case_decide; cbn; [|auto]. split; [done|]. split; [done|]. right. eauto.
Qed.

(** A delivery to a reply channel that is not closed neither blocks nor panics,
    whether there is room or not. *)
Lemma accept_done m b : (forall c, replyC b = Some c -> chan_closed c = false) -> (AcceptReply m b).1 = Ret tt.
Proof using Type.
  intros H. unfold AcceptReply, on_replyC, chan_send. destruct (replyC b) as [c|]; cbn; [|done].
  rewrite (H c eq_refl). cbn. by case_decide.
Qed.

Lemma accept_reply_spec i s : (forall c, replyC (box s) = Some c -> chan_closed c = false) ->
  accept_reply i s =
  (fun m => mkSystem (item s) (at_pc s) (AcceptReply m (box s)).2 (queue s) (ch s) (toNotify s)
              (delete i (toAccept s)) (crashed s) (own s) (drawn s) (held s)) <$> toAccept s !! i.
Proof using Type.
  intros H. unfold accept_reply. destruct (toAccept s !! i) as [m|]; [|done].
  cbn [fmap option_fmap option_map]. pose proof (accept_done m (box s) H) as E.
  destruct (AcceptReply m (box s)) as [r b]. cbn in E. by subst r.
Qed.

Lemma act_inv a s s' : call_inv s -> (forall c, replyC (box s) = Some c -> chan_closed c = false) ->
  act next rng closeErr a s = Some s' -> call_inv s'.
Proof using RangeOrder0.
  intros Hi Hrc. pose proof (ci_closed s Hi) as Hcl.
  destruct a; cbn [act]; intros H.
  - destruct (at_pc s) eqn:E; try done. injection H as <-. by apply begin_inv.
  - destruct (at_pc s) eqn:E; try done. by eapply number_inv.
  - destruct (at_pc s) eqn:E; try done. by eapply enqueue_inv.
  - destruct (at_pc s) eqn:E; try done. by eapply wait_inv.
  - eapply take_inv; eauto.
  - eapply take_inv; eauto.
  - by eapply transmit_inv.
  - by eapply transmit_other_inv.
  - destruct (toNotify s) eqn:E; [unfold notify_item in H; by rewrite E in H|].
    destruct (notify_enabled s Hi) as (s2 & E2 & ? & _); [by rewrite E|]. congruence.
  - injection H as <-. destruct (rx_effect rng m now (ch s)) as (Eh & Ec & _).
    apply (frame_inv s); try done. etrans; [exact Hcl | symmetry; exact Ec].
  - rewrite accept_reply_spec in H by done. destruct (toAccept s !! i) as [m|]; [|done]. injection H as <-.
    apply (frame_inv s); try done. apply accept_frame.
  - injection H as <-. destruct (Close_frame closeErr (ch s)) as (Eh & Ec & _).
    apply (frame_inv s); try done.
  - injection H as <-. by apply (frame_inv s).
  - case_decide as Hd; [|done]. injection H as <-. destruct Hd as [Hn He].
    destruct (select_other k ctxDone c x (queue s) Hn He) as [E1 E2].
    apply (frame_inv s); try done; cbn; [unfold placed; cbn; by rewrite E1 | by rewrite E2].
  - case_decide; [|done]. injection H as <-. by apply (frame_inv s).
  - case_decide; [|done]. injection H as <-. by apply (frame_inv s).
Qed.

(** *** Replies and cancelled contexts *)

(** The call has a waiter only for its own sequence, after an attempt to write
    it, and what it is given as a reply answers that sequence. *)
Record reply_inv (s : system) : Prop := {
  ri_waiters : forall k w, Waiters.m (waiters (ch s)) !! k = Some w -> replyReceiver w = 0%nat ->
    drawn s = Some k /\ tried (own s) = true;
  ri_replies : forall m, m ∈ toAccept s \/ (exists c, replyC (box s) = Some c /\ m ∈ chan_buf c) ->
    drawn s = Some (reply_for_spec m) /\ tried (own s) = true;
  ri_chan : forall c, replyC (box s) = Some c -> chan_closed c = false /\ chan_cap c = 1%nat;
  ri_made : is_reply (item s) = true -> at_pc s ≠ Calling -> is_Some (replyC (box s));
  ri_over : forall r e c, at_pc s = Returned r -> envelope_of (item s) = Some e ->
    (forall e', item s ≠ SEnvelope e') -> cancelF e = Some c -> is_Some (context.own_id c) ->
    context.Done c (world_of s) = true
}.

Lemma starting_reply_inv s : starting s -> reply_inv s.
Proof using Type.
  intros [Hpc [Hb1 Hb2] Hq Hcl Hw Ht (H1 & H2 & H3 & H4 & H5) _]. split; rewrite ?Hb2, ?Hpc, ?H2; try done.
  - intros k w Hk H0. by apply Hw in Hk.
  - by intros m [?%elem_of_nil|(? & ? & _)].
Qed.

(** An action that makes no new waiter or reply and does not end the call. *)
Lemma frame_reply_inv s s' :
  reply_inv s -> (exists f, item s' = map_msg f (item s)) -> (at_pc s' = at_pc s \/
    (forall r, at_pc s' ≠ Returned r) /\ at_pc s ≠ Calling) ->
  replyC (box s') = replyC (box s) ->
  (forall c, context.Done c (world_of s) = true -> context.Done c (world_of s') = true) ->
  (forall k w, Waiters.m (waiters (ch s')) !! k = Some w -> replyReceiver w = 0%nat ->
    Waiters.m (waiters (ch s)) !! k = Some w) ->
  (forall m, m ∈ toAccept s' -> m ∈ toAccept s) ->
  (tried (own s) = true -> tried (own s') = true) -> (drawn s' = drawn s \/ drawn s = None) ->
  reply_inv s'.
Proof using Type.
  intros [R1 R2 R3 R4 R5] (f & Ei) Ep Er Hd Hw Ha Ht Edr.
  destruct (map_msg_frame f (item s)) as (F1 & F2 & F3 & F4 & F5 & F6).
  assert (forall x, drawn s = Some x -> drawn s' = Some x) as Hdr by (intros x; destruct Edr; congruence).
  split.
  - intros k w Hk H0. destruct (R1 k w) as [? ?]; auto.
  - intros m Hm. rewrite Er in Hm. destruct (R2 m) as [? ?]; [destruct Hm; auto | auto].
  - rewrite Er. done.
  - rewrite Ei, Er, F4. intros Hr Hc. apply R4; [done|]. destruct Ep as [Ep|[_ ?]]; [congruence | done].
  - intros r e c Hp. destruct Ep as [Ep|[H _]]; [|by apply H in Hp]. rewrite Ei. intros He Hne Hc Ho.
    apply Hd. rewrite He in F6. destruct (envelope_of (item s)) as [e0|] eqn:Ee; [|done].
    injection F6 as F6. eapply R5; [by rewrite <- Ep | done | | by rewrite <- F6 | done].
    intros e' Heq. rewrite Heq in Hne. by eapply Hne.
Qed.

(** The call returns, and its context is cancelled. *)
Lemma finish_reply_inv r s : reply_inv s -> at_pc s ≠ Calling -> reply_inv (finish r s).
Proof using Type.
  intros [R1 R2 R3 R4 R5] Hpc. destruct (on_return_frame (item s) (box s)) as (_ & Er & _).
  split; cbn; rewrite ?Er; try done; [auto|].
  intros r' e c _ He Hne Hc Ho. unfold world_of. cbn.
  destruct (item s) as [m|e0|e0|e0|e0|?] eqn:Ei; try done; injection He as ->;
    try (exfalso; by eapply Hne); cbn; unfold CancelF; rewrite Hc; by apply end_context_Done.
Qed.

Lemma map_msg_id i : exists f, i = map_msg f i.
Proof using Type. exists (fun m => m). by destruct i as [|[]|[]|[]|[]|]. Qed.

Lemma begin_reply_inv s : call_inv s -> reply_inv s -> at_pc s = Calling -> reply_inv (begin_call s).
Proof using Type.
  intros Hi [R1 R2 R3 R4 R5] Hpc. assert (drawn s = None) as Hd by (apply (ci_early s Hi); by rewrite Hpc).
  set (s1 := set_box (make_channels (item s) (box s)) s).
  assert (reply_inv (set_pc Numbering s1)) as H1.
  { assert (replyC (make_channels (item s) (box s)) = make_chan 1 \/
      is_reply (item s) = false /\ replyC (make_channels (item s) (box s)) = replyC (box s)) as Hr
      by (destruct (item s); auto).
    split; try done; cbn.
    - intros m Hm. exfalso. assert (m ∈ toAccept s \/ exists c, replyC (box s) = Some c /\ m ∈ chan_buf c) as Hm'.
      { destruct Hm as [|(c & Hc & Hin)]; [by left|]. right. destruct Hr as [Hr|[_ Hr]]; rewrite Hr in Hc; [|eauto].
        injection Hc as <-. by apply elem_of_nil in Hin. }
      destruct (R2 m Hm') as [? _]. congruence.
    - intros c Hc. destruct Hr as [Hr|[_ Hr]]; rewrite Hr in Hc; [by injection Hc as <- | auto].
    - intros Hrep _. destruct Hr as [->|[? _]]; [by eexists | congruence]. }
  destruct (begin_cases s) as [(r & ->)|(-> & _)]; [|exact H1].
  fold s1. change (finish r s1) with (finish r (set_pc Numbering s1)). by apply finish_reply_inv.
Qed.

Lemma number_reply_inv s s' : reply_inv s -> at_pc s = Numbering -> number next s = Some s' -> reply_inv s'.
Proof using Type.
  intros Hr Hpc H. cbn in H. injection H as <-. eapply frame_reply_inv; [exact Hr|..]; cbn; eauto.
  right. by rewrite Hpc.
Qed.

Lemma enqueue_reply_inv k s s' :
  call_inv s -> reply_inv s -> at_pc s = Queueing -> enqueue k s = Some s' -> reply_inv s'.
Proof using Type.
  intros Hi Hr Hpc H. assert (drawn s = None) as Hd by (apply (ci_early s Hi); by rewrite Hpc).
  destruct (enqueue_spec k s s' H) as (c & Hc & Hk). cbn zeta in Hk.
  destruct k; [destruct Hk as [_ ->]; apply finish_reply_inv; [done | by rewrite Hpc]..|].
  destruct Hk as [_ ->]. set (s1 := mkSystem _ _ _ _ _ _ _ _ _ _ _).
  assert (forall p, p = Queueing \/ p = Waiting -> reply_inv (set_pc p s1)) as H1.
  { intros p Hp. eapply frame_reply_inv; [exact Hr|..]; cbn; eauto using map_msg_id.
    right. split; [by destruct Hp as [-> | ->] | by rewrite Hpc]. }
  destruct (waits (item s)); [by apply H1; right|].
  change (finish (Ret None) s1) with (finish (Ret None) (set_pc Queueing s1)). by apply finish_reply_inv; [apply H1; left|].
Qed.

Lemma wait_reply_inv k s s' : reply_inv s -> at_pc s = Waiting -> wait k s = Some s' -> reply_inv s'.
Proof using Type.
  intros Hr Hpc. unfold wait. destruct (sendable_Context (item s)) as [c|]; [|done].
  destruct (wait_ready c k s) eqn:Er; [|done]. intros [= <-].
  assert (at_pc s ≠ Calling) as Hnc by (by rewrite Hpc).
  destruct k; cbn [wait_select]; try (by apply finish_reply_inv).
  - assert (forall b, replyC b = replyC (box s) -> contexts b = contexts (box s) -> reply_inv (set_box b s)) as Hb.
    { intros b E1 E2. eapply frame_reply_inv; [exact Hr|..]; cbn; eauto using map_msg_id. unfold world_of. cbn.
      by rewrite E2. }
    unfold on_errC. destruct (chan_receive (errC (box s))) as [[[e|]| | |] c']; try (by apply Hb);
      apply finish_reply_inv; try done; by apply Hb.
  - assert (forall c0 l, replyC (box s) = Some c0 -> (forall m, m ∈ l -> m ∈ chan_buf c0) ->
      reply_inv (set_box (mkMailbox (contexts (box s)) (errC (box s)) (Some (mkChan l (chan_cap c0) (chan_closed c0)))) s)) as Hb.
    { intros c0 l Hc0 Hl. destruct Hr as [R1 R2 R3 R4 R5]. split; try done; cbn.
      - intros m [Hm|(c1 & [= <-] & Hm)]; apply R2; [by left | right; eauto].
      - intros c1 [= <-]. cbn. eauto. }
    unfold on_replyC. destruct (replyC (box s)) as [[[|m l] n cl]|] eqn:Ec.
    + specialize (Hb _ [] eq_refl ltac:(done)). cbn in *.
      destruct cl; cbn; [apply finish_reply_inv; done | exact Hb].
    + specialize (Hb _ l eq_refl ltac:(intros x Hx; cbn; apply elem_of_cons; by right)). cbn in *. by apply finish_reply_inv.
    + cbn. eapply frame_reply_inv; [exact Hr|..]; cbn; eauto using map_msg_id.
Qed.

Lemma take_reply_inv s s' : reply_inv s -> take_item s = Some s' \/ check_item s = Some s' -> reply_inv s'.
Proof using Type.
  intros Hr H. destruct (take_frame s s' H) as (E1 & E2 & E3 & E4 & E5 & E6 & E7 & E8 & E9 & _).
  eapply frame_reply_inv; [exact Hr|..]; unfold world_of; rewrite ?E1, ?E3, ?E4, ?E6, ?E8, ?E9; auto using map_msg_id.
Qed.

Lemma transmit_reply_inv retry e1 e2 wt now s s' :
  call_inv s -> reply_inv s -> transmit retry e1 e2 wt now s = Some s' -> reply_inv s'.
Proof using Type.
  intros Hi Hr. unfold transmit. destruct (held s) as [|x|x err] eqn:Eheld; try done.
  destruct (retried retry x (msgC (queue s))) as [back q'] eqn:Er.
  destruct (tx _ _ wt now (ch s)) as [r c'] eqn:Et. intros [= <-].
  assert (placed s = x :: mine (msgC (queue s))) as Em by (unfold placed; by rewrite Eheld).
  destruct (ci_queue s Hi) as [Hq|(seq & Hq & Hd & Hv)]; [congruence|].
  set (env := mkTxEnv e1 e2 back) in *. set (o := seen err (item s) (world_of s)) in *.
  pose proof (tx_added env o wt now (ch s)) as Ea. pose proof (tx_waiters env o wt now (ch s)) as Hw.
  rewrite Et in *. cbn [snd] in *. rewrite Ea. set (es := tx_events env o wt (ch s)) in *.
  destruct (ci_msg s Hi seq Hd) as (m0 & Hm0 & Hseq).
  destruct (after_transforms_map (ch s) err (item s)) as (f & Ef & _). rewrite Ef.
  destruct (map_msg_frame f (item s)) as (F1 & F2 & F3 & F4 & F5 & F6).
  destruct Hr as [R1 R2 R3 R4 R5].
  split; cbn; rewrite ?tried_app, ?F4; try done.
  - intros k w Hk H0. destruct (Hw k w Hk) as [Hk'|(Hrt & Hwc & m1 & Hm1 & ->)].
    + destruct (R1 k w Hk' H0) as [? ->]. done.
    + cbn in Hm1. rewrite Hm0 in Hm1. injection Hm1 as <-.
      rewrite transformed_sequence by apply Hi. rewrite Hseq, Hd. split; [done|].
      unfold es. rewrite tx_tried by done. apply orb_true_r.
  - intros m Hm. destruct (R2 m Hm) as [? ->]. done.
  - intros r' e c Hp He Hne Hc Ho. rewrite He in F6.
    destruct (envelope_of (item s)) as [e0|] eqn:Ee; [|done]. injection F6 as F6.
    eapply R5; [exact Hp | done | | by rewrite <- F6 | done]. intros e' Heq. rewrite Heq in Hne. by eapply Hne.
Qed.

Lemma notify_reply_inv s s' : reply_inv s -> notify_item s = Some s' -> reply_inv s'.
Proof using Type.
  intros Hr. unfold notify_item. destruct (toNotify s) as [|e rest]; [done|].
  set (call := match e with EvNotifyErr err => NotifyErr (item s) err | EvNotifyAfterWrite => NotifyAfterWrite (item s) | _ => mret tt end).
  assert (replyC (call (box s)).2 = replyC (box s) /\
    forall c, context.Done c (contexts (box s)) = true -> context.Done c (contexts (call (box s)).2) = true) as [Er Hd].
  { unfold call, NotifyErr, NotifyAfterWrite, on_errC. destruct e; try done; destruct (item s) as [|v|v|v|v|]; try done;
      try (destruct (CancelF_frame v (box s)) as (_ & ? & _ & ?); done);
      (destruct (chan_send _ (errC (box s))) || destruct (chan_close (errC (box s)))); done. }
  destruct (call (box s)) as [o b]. cbn in Er, Hd.
  assert (forall cr, reply_inv (mkSystem (item s) (at_pc s) b (queue s) (ch s) rest (toAccept s) cr (own s) (drawn s) (held s))) as H.
  { intros cr. eapply frame_reply_inv; [exact Hr|..]; cbn; eauto using map_msg_id. }
  destruct o; intros [= <-]; apply H.
Qed.

Lemma act_reply_inv a s s' :
  call_inv s -> reply_inv s -> act next rng closeErr a s = Some s' -> reply_inv s'.
Proof using RangeOrder0.
  intros Hi Hr. destruct a; cbn [act]; intros H.
  - destruct (at_pc s) eqn:E; try done. injection H as <-. by apply begin_reply_inv.
  - destruct (at_pc s) eqn:E; try done. by eapply number_reply_inv.
  - destruct (at_pc s) eqn:E; try done. by eapply enqueue_reply_inv.
  - destruct (at_pc s) eqn:E; try done. by eapply wait_reply_inv.
  - eapply take_reply_inv; eauto.
  - eapply take_reply_inv; eauto.
  - by eapply transmit_reply_inv.
  - unfold transmit_other in H.
    destruct (MakeSingleQueueMessageSource _ _) as [[x| | |] [|q [|]]] eqn:Eq; try done.
    case_decide as Hx; [|done]. destruct Hx as [Hx Hne]. injection H as <-.
    eapply frame_reply_inv; [exact Hr|..]; eauto using map_msg_id. cbn [ch set_ch].
    intros k w Hk H0. destruct (tx_waiters _ _ _ _ _ _ _ Hk) as [?|(Hrt & _)]; [done|]. congruence.
  - by eapply notify_reply_inv.
  - injection H as <-. destruct (rx_effect rng m now (ch s)) as (Eh & Ec & Hw & Hacc).
    destruct Hr as [R1 R2 R3 R4 R5]. split; try done; cbn [toAccept receive_message ch drawn own].
    + intros k w Hk H0. eapply R1; eauto.
    + intros m' Hm. rewrite elem_of_app in Hm. destruct Hm as [[Hm|Hm]|Hm]; [by apply R2; left| |by apply R2; right].
      apply list_elem_of_omap in Hm as (ev & Hin & Hev). destruct ev; try done. cbn in Hev. destruct r; [|done].
      injection Hev as ->. destruct (Hacc _ _ Hin) as (w & Hw1 & Hw2). by eapply R1.
  - rewrite accept_reply_spec in H by apply Hr. destruct (toAccept s !! i) as [m|] eqn:Em; [|done]. injection H as <-.
    destruct (accept_frame m (box s)) as (_ & Ew & Hc). destruct Hr as [R1 R2 R3 R4 R5].
    split; try done; cbn [toAccept box drawn own].
    + intros m' [Hm|(c & Hc' & Hm)].
      * apply R2. left. by eapply list_elem_of_delete_inv.
      * destruct Hc as [Hc|(c0 & Hc0 & Hc)]; rewrite Hc in Hc'; [apply R2; eauto|].
        injection Hc' as <-. cbn in Hm. apply elem_of_app in Hm as [Hm|Hm%list_elem_of_singleton]; [apply R2; eauto|].
        subst m'. apply R2. left. by eapply list_elem_of_lookup_2.
    + intros c Hc'. destruct Hc as [Hc|(c0 & Hc0 & Hc)]; rewrite Hc in Hc'; [by apply R3|].
      injection Hc' as <-. cbn. split; [done|]. by apply R3.
    + intros Hrep Hpc. destruct Hc as [->|(c0 & Hc0 & ->)]; [by apply R4 | by eexists].
    + intros r e c Hp. unfold world_of. cbn. rewrite Ew. by eapply R5.
  - injection H as <-. destruct (Close_frame closeErr (ch s)) as (Eh & Ec & Hw).
    eapply frame_reply_inv; [exact Hr|..]; eauto using map_msg_id.
  - injection H as <-. eapply frame_reply_inv; [exact Hr|..]; eauto using map_msg_id.
  - case_decide as Hd; [|done]. injection H as <-. eapply frame_reply_inv; [exact Hr|..]; eauto using map_msg_id.
  - case_decide; [|done]. injection H as <-. eapply frame_reply_inv; [exact Hr|..]; eauto using map_msg_id.
    intros c0 Hc0. by apply end_context_keeps.
  - case_decide; [|done]. injection H as <-. eapply frame_reply_inv; [exact Hr|..]; eauto using map_msg_id.
    intros c0 Hc0. unfold world_of in *. cbn.
    destruct (Err_Done_agree c0 (contexts (box s)) (context.mkWorld (context.ended (contexts (box s)))
      (context.unused (contexts (box s))) t)) as [_ ->]; done.
Qed.

Lemma reachable_reply_inv s : reachable next rng closeErr s -> call_inv s /\ reply_inv s.
Proof using RangeOrder0.
  induction 1 as [s Hs|a s s' _ [IH1 IH2] Ha]; [split; [by apply starting_inv | by apply starting_reply_inv]|].
  split; [|by eapply act_reply_inv]. eapply act_inv; [done | | done]. intros c Hc. by apply (ri_chan s IH2).
Qed.

Lemma reachable_call_inv s : reachable next rng closeErr s -> call_inv s.
Proof using RangeOrder0. intros H. by apply reachable_reply_inv. Qed.

(** *** Results *)

Lemma errs_verdict es : errs (List.filter told es) = errs es.
Proof using Type. unfold errs. induction es as [|[] es IH]; cbn; try done. f_equal. exact IH. Qed.

Lemma errs_In e es : e ∈ errs es -> EvNotifyErr e ∈ es.
Proof using Type. intros (ev & Hin & He)%list_elem_of_omap. destruct ev; try done. by injection He as ->. Qed.

(** Only the call itself moves on. *)
Definition by_caller (a : action) : bool :=
  match a with ABegin | ANumber | AEnqueue _ | AWait _ => true | _ => false end.

Lemma act_frame a s s' : by_caller a = false -> act next rng closeErr a s = Some s' ->
  at_pc s' = at_pc s /\ drawn s' = drawn s /\ exists f, item s' = map_msg f (item s).
Proof using Type.
  destruct a; cbn [by_caller act]; intros Hb H; try done.
  - destruct (take_frame s s' (or_introl H)) as (-> & -> & _ & _ & _ & _ & _ & _ & -> & _). eauto using map_msg_id.
  - destruct (take_frame s s' (or_intror H)) as (-> & -> & _ & _ & _ & _ & _ & _ & -> & _). eauto using map_msg_id.
  - unfold transmit in H. destruct (held s) as [|x|x err]; try done.
    destruct (retried _ _ _). destruct (tx _ _ _ _ _). injection H as <-. cbn.
    destruct (after_transforms_map (ch s) err (item s)) as (f & -> & _). eauto.
  - unfold transmit_other in H. destruct (MakeSingleQueueMessageSource _ _) as [[x| | |] [|q [|]]]; try done.
    case_decide; [|done]. injection H as <-. eauto using map_msg_id.
  - unfold notify_item in H. destruct (toNotify s); [done|]. destruct (_ (box s)) as [[| | |] ?]; try done;
      injection H as <-; eauto using map_msg_id.
  - injection H as <-. eauto using map_msg_id.
  - unfold accept_reply in H. destruct (toAccept s !! i); [|done].
    destruct (AcceptReply _ _) as [[| | |] ?]; try done; injection H as <-; eauto using map_msg_id.
  - injection H as <-. eauto using map_msg_id.
  - injection H as <-. eauto using map_msg_id.
  - case_decide; [|done]. injection H as <-. eauto using map_msg_id.
  - case_decide; [|done]. injection H as <-. eauto using map_msg_id.
  - case_decide; [|done]. injection H as <-. eauto using map_msg_id.
Qed.

(** What is in the error channel of a waiting call. *)
Lemma waiting_errC s : call_inv s -> at_pc s = Waiting ->
  exists dl, verdict s = dl ++ toNotify s /\
    errC (box s) = Some (mkChan (errs dl) 1 (closes (item s) && existsb is_after dl)).
Proof using Type.
  intros Hi Hpc. destruct (ci_told s Hi) as (dl & Ev & Hok). destruct (ci_waiting s Hi Hpc) as [_ Hw].
  destruct (Hok Hw ltac:(by rewrite Hpc)) as (b & Eb & [->|[_ [r Hr]]]); [|congruence]. eauto.
Qed.

(** Why a call may return [r] when its system is [s]; [queued] tells whether its
    message is in the queue by then. *)
Definition justified (s : system) (queued : bool) (r : outcome (option Message)) : Prop :=
  match r with
  | Ret None =>
      match item s with
      | SSendWait _ => existsb wrote (own s) = true /\ errs (own s) = []
      | SReply _ => False
      | SError ctx => context.Err ctx (world_of s) = None
      | SMessage _ | SEnvelope _ | SQueueWait _ => queued = true
      end
  | Ret (Some m) =>
      is_reply (item s) = true /\ drawn s = Some (reply_for_spec m) /\ tried (own s) = true
  | Err e =>
      e = ClosedError /\ isClosed (ch s) = true \/ EvNotifyErr e ∈ own s \/
      exists c, sendable_Context (item s) = Some c /\ context.Done c (world_of s) = true /\
        (lawful c (world_of s) -> IsTimeout e = true \/ context.Err c (world_of s) = Some e)
  | Panic => sendable_Context (item s) = None
  | OutOfFuel => False
  end.

Lemma queueContextErr_kind e : IsTimeout (queueContextErr e) = true \/ queueContextErr e = e.
Proof using Type. unfold queueContextErr. case_match; [left | by right]. reflexivity. Qed.

Lemma begin_justified s r : at_pc (begin_call s) = Returned r -> justified s false r.
Proof using Type.
  unfold begin_call. destruct (item s) as [m|e|e|e|e|c] eqn:Ei; cbn.
  6: { intros [= <-]. destruct (context.Err c (world_of s)) as [e|] eqn:Ee; cbn; rewrite Ei; [|done].
    right; right. exists c. split; [done|]. split; [by eapply Err_Done | auto]. }
  1: { unfold start_send. cbn [item set_box]. by rewrite Ei. }
  all: unfold start_send; cbn [item set_box]; rewrite Ei; cbn;
    destruct (context e) as [c|] eqn:Ec; cbn; [|intros [= <-]; cbn; by rewrite Ei];
    unfold world_of; cbn; destruct (context.Err c (contexts (box s))) as [err|] eqn:Ee; cbn; [|done];
    intros [= <-]; cbn; right; right; exists c; rewrite Ei; split; [done|]; (split; [by eapply Err_Done|]);
    intros _; destruct (queueContextErr_kind err) as [? | ->]; auto.
Qed.

Lemma enqueue_justified k s s' r : call_inv s ->
  enqueue k s = Some s' -> at_pc s = Queueing -> at_pc s' = Returned r ->
  justified s (bool_decide (is_Some (drawn s'))) r.
Proof using Type.
  intros Hi H Hpc Hr. destruct (enqueue_spec k s s' H) as (c & Hc & Hk). cbn zeta in Hk. destruct k.
  - destruct Hk as [Hd ->]. cbn in Hr. injection Hr as <-. right; right. exists c. split_and!; try done.
    intros Hl. left. by destruct (context.Err c (world_of s)).
  - destruct Hk as [Hd ->]. cbn in Hr. injection Hr as <-. left. split; [done|]. by rewrite <- (ci_closed s Hi).
  - destruct Hk as [_ ->]. destruct (ci_item s Hi) as [[m Hm] _]; [by rewrite Hpc|].
    destruct (waits (item s)) eqn:Ew; cbn in Hr; [done|]. injection Hr as <-. cbn.
    by destruct (item s).
Qed.

Lemma wait_justified k s s' r : call_inv s -> reply_inv s ->
  wait k s = Some s' -> at_pc s = Waiting -> at_pc s' = Returned r -> justified s true r.
Proof using Type.
  intros Hi Hri H Hpc Hr. unfold wait in H. destruct (sendable_Context (item s)) as [c|] eqn:Hc; [|done].
  destruct (wait_ready c k s) eqn:Er; [|done]. injection H as <-. destruct k; cbn [wait_select wait_ready] in *.
  - injection Hr as <-. by left.
  - destruct (waiting_errC s Hi Hpc) as (dl & Ev & Eb). destruct (ci_waiting s Hi Hpc) as [_ Hw].
    unfold on_errC in Hr. rewrite Eb in *. destruct (errs dl) as [|e l] eqn:Ee; cbn in Er, Hr.
    + rewrite orb_false_r in Er. rewrite Er in Hr. injection Hr as <-. cbn.
      apply andb_true_iff in Er as [Hcl Ha]. destruct (item s); try done.
      pose proof (ci_fate s Hi) as Hf. rewrite Ev in Hf.
      assert (dl = [EvNotifyAfterWrite] /\ toNotify s = []) as [-> En].
      { clear -Hf Ha Ee. destruct dl as [|d1 [|d2 [|d3 dl]]]; inversion Hf; subst; done. }
      rewrite En in Ev. split; [by apply Hi|]. rewrite <- errs_verdict. fold (verdict s). by rewrite Ev.
    + injection Hr as <-. right; left. assert (e ∈ errs (verdict s)) as Hin.
      { rewrite Ev. unfold errs in *. rewrite omap_app, Ee. by left. }
      unfold verdict in Hin. rewrite errs_verdict in Hin. by apply errs_In.
  - injection Hr as <-. right; right. exists c. split_and!; try done. intros Hl.
    destruct (Hl Er) as [e Ee]. rewrite Ee. by left.
  - destruct (item s) eqn:Ei; try done. destruct (replyC (box s)) as [ch0|] eqn:Ec; [|done].
    destruct (ri_chan s Hri ch0 Ec) as [Hcl _]. unfold on_replyC in Hr. rewrite Ec in Hr.
    destruct ch0 as [[|m l] n cl]; cbn in *; [by subst cl|]. injection Hr as <-. cbn.
    split; [by rewrite Ei|]. apply (ri_replies s Hri). right. eexists. split; [done|]. cbn. by left.
Qed.

Lemma reachable_run l s s' : reachable next rng closeErr s -> run_acts next rng closeErr l s = Some s' ->
  reachable next rng closeErr s'.
Proof using Type.
  revert s. induction l as [|a l IH]; intros s Hs; cbn; [by intros [= <-]|].
  destruct (act next rng closeErr a s) as [s1|] eqn:Ea; [|done]. cbn. apply IH. by eapply reach_act.
Qed.

End Invariant.

(** A call on a fresh channel with an empty queue of two places, its envelope
    made by [WithTimeout] with a timeout of one second. *)
Definition ex_envelope : envelopeImpl :=
  let c := context.DeadlineCtx context.Background 0 1000000000 in
  mkEnvelope (NewMessage 7 (lit "x")) (Some c) (Some c).

Definition ex_start (i : Envelope.Sendable) : system :=
  let u := mkUnderlay 1 (lit "id") (lit "c") ∅ 0 in
  mkSystem i Calling (mkMailbox (context.mkWorld ∅ 1 0) None None)
    (mkSender (mkQueue [] 2) 0 false) (fresh_channel (mkArgs true true (Some u) false ∅ 0 [] [] None) u)
    [] [] false [] None Idle.

Lemma ex_starting i : starting (ex_start i).
Proof. split; try done. - intros x Hx. by apply elem_of_nil in Hx. Qed.

(** ** Properties *)

(** C12: callbacks never block or crash a loop.  In every reachable state of a
    call with its surroundings, no callback has panicked (the error channel is
    closed at most once and never sent to when closed), the next callback the
    send loop has to make on the envelope can be made without waiting, and so
    can every delivery of a reply. *)
Theorem callbacks_never_block (next : nat -> Z)
    (rng : gmap Z (waiter receiver) -> list (Z * waiter receiver)) `{!RangeOrder rng}
    (closeErr : nat -> option error) (s : system) :
  reachable next rng closeErr s ->
  crashed s = false /\
  (toNotify s ≠ [] -> exists s', act next rng closeErr ANotify s = Some s' /\ crashed s' = false) /\
  (forall i, (i < length (toAccept s))%nat ->
     exists s', act next rng closeErr (AAccept i) s = Some s' /\ crashed s' = false).
Proof.
  intros H. destruct (reachable_reply_inv _ _ _ _ H) as [Hi Hri]. split_and!.
  - apply Hi.
  - intros Hn. destruct (notify_enabled s Hi Hn) as (s' & E & _ & Hc). eauto.
  - intros i Hl. cbn [act]. rewrite accept_reply_spec by apply Hri.
    destruct (lookup_lt_is_Some_2 _ _ Hl) as [m ->]. eexists. split; [reflexivity|]. apply Hi.
Qed.

(** A failed write to tell of. *)
Lemma callbacks_never_block_witness :
  (exists s, run_acts Z.of_nat (fun m => map_to_list m) (fun _ => None)
      [ABegin; ANumber; AEnqueue QQueued; ATake; ACheck; ATx false None (Some io_EOF) 0 0]
      (ex_start (SSendWait ex_envelope)) = Some s /\
    toNotify s = [EvNotifyErr io_EOF; EvNotifyAfterWrite] /\
    exists s', act Z.of_nat (fun m => map_to_list m) (fun _ => None) ANotify s = Some s' /\ crashed s' = false).
Proof.
  eexists. split; [vm_compute; reflexivity|]. split; [reflexivity|].
  eapply callbacks_never_block; [apply _ | | discriminate].
  eapply reachable_run; [apply reach_start, (ex_starting (SSendWait ex_envelope)) |].
  instantiate (1 := [ABegin; ANumber; AEnqueue QQueued; ATake; ACheck; ATx false None (Some io_EOF) 0 0]).
  vm_compute. reflexivity.
Defined.

(** C13: results are justified.  When a call returns, its result is a fact: a
    nil error of a wire wait means the message was handed to the underlay and
    nothing failed; a nil error of a plain send or a queue wait means it was
    queued; a reply answers the sequence number of the call's message, after an
    attempt to write it; [ClosedError] means the channel is closed; any other
    error was reported by a transmission, or the context is over and the error
    is a [TimeoutError] or the context's own. *)
Theorem results_justified (next : nat -> Z)
    (rng : gmap Z (waiter receiver) -> list (Z * waiter receiver)) `{!RangeOrder rng}
    (closeErr : nat -> option error) (s s' : system) (a : action) (r : outcome (option Message)) :
  reachable next rng closeErr s -> (forall r0, at_pc s ≠ Returned r0) ->
  act next rng closeErr a s = Some s' -> at_pc s' = Returned r ->
  justified s (bool_decide (is_Some (drawn s'))) r.
Proof.
  intros H Hn Ha Hr. destruct (reachable_reply_inv _ _ _ _ H) as [Hi Hri].
  destruct (by_caller a) eqn:Eb.
  - destruct a; try done; cbn in Ha; destruct (at_pc s) eqn:Hpc; try done.
    + injection Ha as <-. assert (drawn s = None) as Hd by (apply (ci_early s Hi); by rewrite Hpc).
      assert (drawn (begin_call s) = drawn s) as ->.
      { destruct (begin_cases s) as [[r0 ->]|[-> _]]; done. }
      rewrite Hd. by apply begin_justified.
    + cbn in Ha. injection Ha as <-. done.
    + by eapply enqueue_justified.
    + assert (drawn s' = drawn s) as ->.
      { unfold wait in Ha. destruct (sendable_Context (item s)); [|done]. destruct (wait_ready c k s); [|done].
        injection Ha as <-. unfold wait_select. destruct k; try done; by repeat case_match. }
      destruct (ci_waiting s Hi Hpc) as [Hd _]. rewrite bool_decide_true by done. by eapply wait_justified.
  - destruct (act_frame _ _ _ _ _ _ Eb Ha) as (E & _). rewrite E in Hr. by apply Hn in Hr.
Qed.

Lemma results_justified_witness :
  exists s s', run_acts Z.of_nat (fun m => map_to_list m) (fun _ => None)
      [ABegin; ANumber; AEnqueue QQueued; ATake; ACheck; ATx false None None 0 0; ANotify] (ex_start (SSendWait ex_envelope)) = Some s /\
    act Z.of_nat (fun m => map_to_list m) (fun _ => None) (AWait WErr) s = Some s' /\ at_pc s' = Returned (Ret None) /\
    justified s (bool_decide (is_Some (drawn s'))) (Ret None).
Proof.
  eexists _, _. split; [vm_compute; reflexivity|]. split; [vm_compute; reflexivity|].
  split; [reflexivity|].
  eapply (results_justified Z.of_nat (fun m => map_to_list m) (fun _ => None) _ _ (AWait WErr) (Ret None)).
  - eapply reachable_run; [apply reach_start, (ex_starting (SSendWait ex_envelope)) |].
    instantiate (1 := [ABegin; ANumber; AEnqueue QQueued; ATake; ACheck; ATx false None None 0 0; ANotify]). vm_compute. reflexivity.
  - discriminate.
  - vm_compute. reflexivity.
  - reflexivity.
Defined.

(** ** Lemmas: progress *)

Section Progress.
Context (next : nat -> Z) (rng : gmap Z (waiter receiver) -> list (Z * waiter receiver))
  `{!RangeOrder rng} (closeErr : nat -> option error).

(** The call could return now. *)
Definition can_return (s : system) : Prop := exists k s', act next rng closeErr (AWait k) s = Some s'.

(** A reason to return: the channel is closed, the context is over, the
    transmissions of a wire wait are over and told, one of a request was
    reported as failed, or a reply is there. *)
Definition due (s : system) : Prop :=
  isClosed (ch s) = true \/
  (exists c, sendable_Context (item s) = Some c /\ context.Done c (world_of s) = true) \/
  (placed s = [] /\ toNotify s = [] /\ (closes (item s) = true \/ errs (own s) ≠ [])) \/
  (is_reply (item s) = true /\ exists c, replyC (box s) = Some c /\ chan_buf c ≠ []).

Lemma can_return_iff s c : at_pc s = Waiting -> sendable_Context (item s) = Some c ->
  can_return s <-> exists k, wait_ready c k s = true.
Proof using Type.
  intros Hpc Hc. unfold can_return, act, wait. rewrite Hpc, Hc. split.
  - intros (k & s' & H). exists k. by destruct (wait_ready c k s).
  - intros (k & H). exists k. rewrite H. eauto.
Qed.

Lemma due_can_return s : call_inv s -> at_pc s = Waiting -> due s -> can_return s.
Proof using Type.
  intros Hi Hpc Hd. destruct (ci_item s Hi) as [_ [c Hc]]; [by rewrite Hpc|].
  apply (can_return_iff s c Hpc Hc). destruct Hd as [Hd|[(c' & Hc' & Hd)|[(Hq & Hn & Hd)|(Hr & c' & Hc' & Hd)]]].
  - by exists WClosed.
  - exists WDone. cbn. congruence.
  - exists WErr. cbn. destruct (waiting_errC s Hi Hpc) as (dl & Ev & ->). rewrite Hn, app_nil_r in Ev. subst dl.
    cbn. pose proof (ci_gone s Hi) as Hg. destruct (ci_waiting s Hi Hpc) as [Hdr _]. specialize (Hg Hdr Hq).
    pose proof (ci_fate s Hi) as Hf. unfold verdict in *. rewrite <- errs_verdict in Hd.
    destruct Hf; try done; cbn in *; rewrite ?orb_true_r; try done. destruct Hd as [-> |?]; done.
  - exists WReply. cbn. destruct (item s); try done. rewrite Hc'. cbn.
    rewrite (bool_decide_false _ Hd). apply orb_true_r.
Qed.

(** Receiving from a channel stays possible when more is sent or it is closed. *)
Lemma can_receive_call e i b :
  let call := match e with
              | EvNotifyErr err => NotifyErr i err
              | EvNotifyAfterWrite => NotifyAfterWrite i
              | _ => mret tt
              end : ST mailbox unit in
  (can_receive (errC b) = true -> can_receive (errC (call b).2) = true) /\ replyC (call b).2 = replyC b /\
  (forall c, context.Done c (contexts b) = true -> context.Done c (contexts (call b).2) = true).
Proof using Type.
  assert (forall v, (can_receive (errC b) = true -> can_receive (errC (CancelF v b).2) = true) /\
    replyC (CancelF v b).2 = replyC b /\
    (forall c, context.Done c (contexts b) = true -> context.Done c (contexts (CancelF v b).2) = true)) as Hc.
  { intros v. destruct (CancelF_frame v b) as (-> & ? & _ & ?). done. }
  assert (forall (x : error) (c : option (gochan error)), can_receive c = true -> can_receive (chan_send x c).2 = true) as Hs.
  { intros x [[l n cl]|]; cbn; [|done]. destruct cl; [done|]. case_decide; [|done]. cbn. intros _.
    rewrite bool_decide_false; [done|]. by destruct l. }
  assert (forall c : option (gochan error), can_receive c = true -> can_receive (chan_close c).2 = true) as Hcl.
  { intros [[l n cl]|]; cbn; [|done]. by destruct cl. }
  destruct e; try (by repeat split); destruct i; try (by repeat split); try apply Hc; cbn; unfold on_errC.
  - specialize (Hs e (errC b)). by destruct (chan_send e (errC b)).
  - specialize (Hs e (errC b)). by destruct (chan_send e (errC b)).
  - specialize (Hcl (errC b)). by destruct (chan_close (errC b)).
Qed.

Lemma ready_stays a s s' c k :
  by_caller a = false -> act next rng closeErr a s = Some s' ->
  wait_ready c k s = true -> wait_ready c k s' = true.
Proof using RangeOrder0.
  intros Hb Ha Hr.
  destruct (act_frame _ _ _ _ _ _ Hb Ha) as (_ & _ & f & Ei).
  assert (forall P : Prop, (isClosed (ch s) = true -> isClosed (ch s') = true) ->
    (can_receive (errC (box s)) = true -> can_receive (errC (box s')) = true) ->
    (context.Done c (world_of s) = true -> context.Done c (world_of s') = true) ->
    (can_receive (replyC (box s)) = true -> can_receive (replyC (box s')) = true) ->
    wait_ready c k s' = true) as Hgen.
  { intros _ H1 H2 H3 H4. destruct k; cbn in *; auto. rewrite Ei. destruct (item s); cbn; auto. }
  destruct a; try done; cbn in Ha.
  - destruct (take_frame s s' (or_introl Ha)) as (_ & _ & E3 & E4 & _).
    apply (Hgen True); unfold world_of; by rewrite ?E3, ?E4.
  - destruct (take_frame s s' (or_intror Ha)) as (_ & _ & E3 & E4 & _).
    apply (Hgen True); unfold world_of; by rewrite ?E3, ?E4.
  - unfold transmit in Ha. destruct (held s) as [|x|x err]; try done. destruct (retried _ _ _) as [bk q'].
    pose proof (tx_frame (mkTxEnv setErr writeErr bk) (seen err (item s) (world_of s)) writeTimeout now (ch s)) as [_ Ec].
    destruct (tx _ _ _ _ _) as [r c']. injection Ha as <-. apply (Hgen True); try done. cbn in *. by rewrite Ec.
  - unfold transmit_other in Ha. destruct (MakeSingleQueueMessageSource _ _) as [[x| | |] [|q [|]]]; try done.
    case_decide; [|done]. injection Ha as <-. apply (Hgen True); try done.
    destruct (tx_frame env o writeTimeout now (ch s)) as [_ Ec]. intros H1. etrans; [exact Ec | exact H1].
  - unfold notify_item in Ha. destruct (toNotify s) as [|e rest]; [done|].
    destruct (can_receive_call e (item s) (box s)) as (H2 & H4 & H3).
    set (r := match e with EvNotifyErr err => NotifyErr (item s) err | EvNotifyAfterWrite => NotifyAfterWrite (item s)
              | _ => mret tt end (box s)) in *. destruct r as [o b]. cbn [snd] in H2, H3, H4.
    destruct o; try done; injection Ha as <-; apply (Hgen True); cbn [box ch]; first [done | by rewrite H4 | apply H3].
  - injection Ha as <-. apply (Hgen True); try done. destruct (rx_effect rng m now (ch s)) as (_ & Ec & _).
    intros H1. etrans; [exact Ec | exact H1].
  - unfold accept_reply in Ha. destruct (toAccept s !! i) as [m|]; [|done].
    destruct (accept_frame m (box s)) as (E1 & E2 & E3). destruct (AcceptReply m (box s)) as [r b]. cbn [snd] in *.
    assert (box s' = b /\ ch s' = ch s) as [Eb Ec] by (destruct r; try done; by injection Ha as <-).
    apply (Hgen True); unfold world_of; rewrite ?Eb, ?Ec; try rewrite E1; try rewrite E2; try done.
    destruct E3 as [->|(c0 & -> & ->)]; [done|]. intros _. cbn. rewrite bool_decide_false; [done|]. by destruct (chan_buf c0).
  - injection Ha as <-. apply (Hgen True); try done. intros _. apply Close_frame.
  - injection Ha as <-. by apply (Hgen True).
  - case_decide; [|done]. injection Ha as <-. by apply (Hgen True).
  - case_decide; [|done]. injection Ha as <-. apply (Hgen True); try done. apply end_context_keeps.
  - case_decide; [|done]. injection Ha as <-. apply (Hgen True); try done. unfold world_of. cbn.
    destruct (Err_Done_agree c (contexts (box s)) (context.mkWorld (context.ended (contexts (box s)))
      (context.unused (contexts (box s))) t)) as [_ ->]; done.
Qed.

Lemma wait_returns k s s' : call_inv s -> at_pc s = Waiting -> wait k s = Some s' -> exists r, at_pc s' = Returned r.
Proof using Type.
  intros Hi Hpc. unfold wait. destruct (sendable_Context (item s)) as [c|] eqn:Hc; [|done].
  destruct (wait_ready c k s) eqn:Er; [|done]. intros [= <-].
  destruct k; cbn [wait_select wait_ready] in *; eauto.
  - unfold on_errC. destruct (errC (box s)) as [[[|e l] n []]|]; cbn in *; eauto; done.
  - destruct (item s); try done. unfold on_replyC. destruct (replyC (box s)) as [[[|e0 l] n []]|]; cbn in *; eauto; done.
Qed.

End Progress.

(** C18: a waiting call returns.  A waiting call can return as soon as there
    is a reason to: the channel was closed, its context is over, its message
    has left the queue and everything about it was told (for a wire wait this
    is always a reason, so no wake-up is lost; for a request when a failure was
    told), or a reply was accepted.  Once it can return it can until it does,
    whatever else happens in between, and its next step returns. *)
Theorem waiting_call_returns (next : nat -> Z)
    (rng : gmap Z (waiter receiver) -> list (Z * waiter receiver)) `{!RangeOrder rng}
    (closeErr : nat -> option error) (s : system) :
  reachable next rng closeErr s -> at_pc s = Waiting -> due s ->
  can_return next rng closeErr s /\
  (forall l s', run_acts next rng closeErr l s = Some s' ->
     (forall k, AWait k ∉ l) -> at_pc s' = Waiting /\ can_return next rng closeErr s') /\
  (forall l s' k s'', run_acts next rng closeErr l s = Some s' -> (forall k, AWait k ∉ l) ->
     act next rng closeErr (AWait k) s' = Some s'' -> exists r, at_pc s'' = Returned r).
Proof.
  intros Hs Hpc Hd. pose proof (reachable_call_inv _ _ _ _ Hs) as Hi.
  assert (can_return next rng closeErr s) as Hcan by (by apply due_can_return).
  assert (forall l s', run_acts next rng closeErr l s = Some s' -> (forall k, AWait k ∉ l) ->
    reachable next rng closeErr s' /\ at_pc s' = Waiting /\ can_return next rng closeErr s') as Hrun.
  { intros l. clear Hd. revert s Hs Hpc Hi Hcan. induction l as [|a l IH]; intros s Hs Hpc Hi Hcan s' Hl Hn.
    - injection Hl as <-. done.
    - cbn in Hl. destruct (act next rng closeErr a s) as [s1|] eqn:Ea; [|done]. cbn in Hl.
      assert (by_caller a = false) as Hb.
      { destruct a; try done; exfalso; try (cbn in Ea; by rewrite Hpc in Ea).
        apply (Hn k). by left. }
      assert (reachable next rng closeErr s1) as Hs1 by (by eapply reach_act).
      destruct (act_frame _ _ _ _ _ _ Hb Ea) as (Ep & _ & f & Ei).
      apply (IH s1); try done; [congruence | by apply (reachable_call_inv _ _ _ _ Hs1) | |].
      + destruct (ci_item s Hi) as [_ [c Hc]]; [by rewrite Hpc|].
        apply (can_return_iff _ _ _ s c Hpc Hc) in Hcan as [k Hk].
        apply (can_return_iff _ _ _ s1 c); [congruence | |].
        * rewrite Ei. by destruct (map_msg_frame f (item s)) as (-> & _).
        * exists k. by eapply ready_stays.
      + intros k Hk. apply (Hn k). by right. }
  split; [done|]. split.
  - intros l s' Hl Hn. by destruct (Hrun l s' Hl Hn).
  - intros l s' k s'' Hl Hn Ha. destruct (Hrun l s' Hl Hn) as (Hs' & Hpc' & _). cbn in Ha. rewrite Hpc' in Ha.
    eapply wait_returns; [by apply (reachable_call_inv _ _ _ _ Hs') | done | done].
Qed.

Lemma waiting_call_returns_witness :
  exists s, run_acts Z.of_nat (fun m => map_to_list m) (fun _ => None)
      [ABegin; ANumber; AEnqueue QQueued; ATake; ACheck; ATx false None None 0 0; ANotify] (ex_start (SSendWait ex_envelope)) = Some s /\
    can_return Z.of_nat (fun m => map_to_list m) (fun _ => None) s.
Proof.
  eexists. split; [vm_compute; reflexivity|].
  refine (proj1 (waiting_call_returns Z.of_nat (fun m => map_to_list m) (fun _ => None) _ _ _ _)).
  - eapply reachable_run; [apply reach_start, (ex_starting (SSendWait ex_envelope)) |].
    instantiate (1 := [ABegin; ANumber; AEnqueue QQueued; ATake; ACheck; ATx false None None 0 0; ANotify]). vm_compute. reflexivity.
  - reflexivity.
  - right; right; left. split; [reflexivity|]. split; [reflexivity|]. left. reflexivity.
Defined.

(** ** Lemmas: a transmission under way *)

(** Until the loop goes on, it holds the sendable with what it saw. *)
Lemma held_stays next rng closeErr a s s' x err :
  (forall r e1 e2 wt now, a ≠ ATx r e1 e2 wt now) -> held s = Checked x err ->
  act next rng closeErr a s = Some s' -> held s' = Checked x err.
Proof.
  intros Hn Hh H. destruct a; cbn [act] in H.
  - destruct (at_pc s); try done. injection H as <-. destruct (begin_cases s) as [[r ->]|[-> _]]; done.
  - destruct (at_pc s); try done. cbn in H. by injection H as <-.
  - destruct (at_pc s); try done. destruct (enqueue_spec k s s' H) as (c & _ & Hk). cbn zeta in Hk.
    destruct k; destruct Hk as [_ ->]; try done. by destruct (waits (item s)).
  - destruct (at_pc s); try done. unfold wait in H. destruct (sendable_Context (item s)); [|done].
    destruct (wait_ready c k s); [|done]. injection H as <-. destruct k; cbn; try done; by repeat case_match.
  - unfold take_item in H. by rewrite Hh in H.
  - unfold check_item in H. by rewrite Hh in H.
  - exfalso. by eapply Hn.
  - unfold transmit_other in H. destruct (MakeSingleQueueMessageSource _ _) as [[y| | |] [|q [|]]]; try done.
    case_decide; [|done]. by injection H as <-.
  - unfold notify_item in H. destruct (toNotify s); [done|]. destruct (_ (box s)) as [[| | |] ?]; try done; by injection H as <-.
  - by injection H as <-.
  - unfold accept_reply in H. destruct (toAccept s !! i); [|done]. destruct (AcceptReply _ _) as [[| | |] ?]; try done;
      by injection H as <-.
  - by injection H as <-.
  - by injection H as <-.
  - case_decide; [|done]. by injection H as <-.
  - case_decide; [|done]. by injection H as <-.
  - case_decide; [|done]. by injection H as <-.
Qed.

Definition is_tx (a : action) : bool := match a with ATx _ _ _ _ _ => true | _ => false end.

Lemma held_run next rng closeErr l s s' x err :
  forallb (fun a => negb (is_tx a)) l = true -> held s = Checked x err ->
  run_acts next rng closeErr l s = Some s' -> held s' = Checked x err.
Proof.
  revert s. induction l as [|a l IH]; intros s Hl Hh; cbn; [by intros [= <-]|].
  cbn in Hl. apply andb_true_iff in Hl as [Ha Hl].
  destruct (act next rng closeErr a s) as [s1|] eqn:E; [|done]. cbn. apply IH; [done|].
  eapply held_stays; [|done|done]. intros ? ? ? ? ? ->. done.
Qed.

(** The kind of the sendable, and whether it has a message, stay. *)
Lemma begin_item s : item (begin_call s) = item s.
Proof. destruct (begin_cases s) as [[r ->]|[-> _]]; done. Qed.

Lemma act_item next rng closeErr a s s' :
  act next rng closeErr a s = Some s' -> exists f, item s' = map_msg f (item s).
Proof.
  intros H. destruct (by_caller a) eqn:Eb; [|by destruct (act_frame _ _ _ _ _ _ Eb H) as (_ & _ & ?)].
  destruct a; try done; cbn in H; destruct (at_pc s); try done.
  - injection H as <-. rewrite begin_item. apply map_msg_id.
  - injection H as <-. by eexists.
  - destruct (enqueue_spec k s s' H) as (c & _ & Hk). cbn zeta in Hk.
    destruct k; destruct Hk as [_ ->]; try apply map_msg_id. destruct (waits (item s)); apply map_msg_id.
  - unfold wait in H. destruct (sendable_Context (item s)); [|done]. destruct (wait_ready c k s); [|done].
    injection H as <-. destruct k; cbn; try apply map_msg_id; repeat case_match; apply map_msg_id.
Qed.

Lemma queue_wait_run next rng closeErr l s s' e :
  item s = SQueueWait e -> run_acts next rng closeErr l s = Some s' -> exists e', item s' = SQueueWait e'.
Proof.
  revert s e. induction l as [|a l IH]; intros s e Hi; cbn; [intros [= <-]; eauto|].
  destruct (act next rng closeErr a s) as [s1|] eqn:E; [|done]. cbn.
  destruct (act_item _ _ _ _ _ _ E) as [f Hf]. rewrite Hi in Hf. by eapply IH.
Qed.

(** What the rest of a transmission writes. *)
Lemma transmit_writes retry e1 e2 wt now s s' x err :
  held s = Checked x err -> transmit retry e1 e2 wt now s = Some s' ->
  (is_Some err -> existsb wrote (added (ch s) (ch s')) = false) /\
  (err = None -> is_Some (Msg (item s)) -> e1 = None \/ wt <= 0 -> existsb wrote (added (ch s) (ch s')) = true).
Proof.
  intros Hh H. unfold transmit in H. rewrite Hh in H. destruct (retried _ _ _) as [bk q'].
  set (env := mkTxEnv e1 e2 bk) in *. set (o := seen err (item s) (world_of s)) in *.
  pose proof (tx_added env o wt now (ch s)) as Ea. destruct (tx env o wt now (ch s)) as [r c'].
  injection H as <-. cbn [ch snd] in *. rewrite Ea. unfold tx_events. cbn [writeContextErr o seen]. split.
  - intros [e ->]. done.
  - intros -> [m Hm] Hset. unfold o, seen, to_channel. cbn [msg]. rewrite Hm.
    assert ((if decide (0 < wt) then setTimeoutErr env else None) = None) as ->; [|done].
    destruct Hset as [-> |Hle]; [by destruct (decide _)|]. by rewrite decide_False by lia.
Qed.

(** C19: what is written after a call has returned.  A send loop looks at the
    context of a sendable before it goes on to write it, and anything may
    happen between the two.  A wire wait or a request whose context is its own
    (as [WithTimeout] and [WithContext] make it) is never written if the loop
    looks at its context once the call has returned, whatever the reason it
    returned for.  A queue wait, once queued, is written when its turn comes
    however late that is: only an underlay that refuses the write timeout
    prevents it. *)
Theorem writes_after_return (next : nat -> Z)
    (rng : gmap Z (waiter receiver) -> list (Z * waiter receiver)) `{!RangeOrder rng}
    (closeErr : nat -> option error) (s s1 s2 s3 : system) (l : list action) (retry : bool)
    (setErr writeErr : option error) (writeTimeout now : Z) :
  reachable next rng closeErr s ->
  act next rng closeErr ACheck s = Some s1 ->
  run_acts next rng closeErr l s1 = Some s2 -> forallb (fun a => negb (is_tx a)) l = true ->
  act next rng closeErr (ATx retry setErr writeErr writeTimeout now) s2 = Some s3 ->
  (forall r e c, at_pc s = Returned r -> item s = SSendWait e \/ item s = SReply e ->
     context e = Some c -> cancelF e = Some c -> is_Some (context.own_id c) -> lawful c (world_of s) ->
     existsb wrote (added (ch s2) (ch s3)) = false) /\
  (forall e, item s = SQueueWait e -> setErr = None \/ writeTimeout <= 0 ->
     existsb wrote (added (ch s2) (ch s3)) = true).
Proof.
  intros Hs Hck Hl Htx Ha. destruct (reachable_reply_inv _ _ _ _ Hs) as [Hi Hri].
  set (err := writeContextErr (to_channel 0 (item s) (world_of s))) in *.
  assert (exists x, held s1 = Checked x err /\ item s1 = item s) as (x & Eh & Ei).
  { cbn [act] in Hck. unfold check_item in Hck. destruct (held s) as [|x|]; try done. injection Hck as <-. by exists x. }
  assert (held s2 = Checked x err) as Eh2 by (by eapply held_run; [exact Htx | exact Eh | exact Hl]).
  destruct (transmit_writes _ _ _ _ _ s2 s3 x err Eh2 Ha) as [Hno Hyes].
  split.
  - intros r e c Hp Hitem Hctx Hcan Hown Hlaw. apply Hno.
    assert (context.Done c (world_of s) = true) as Hd.
    { eapply (ri_over s Hri r e c Hp); try done; by destruct Hitem as [-> | ->]. }
    destruct (Hlaw Hd) as [e0 He0]. exists e0. unfold err, to_channel. cbn.
    by destruct Hitem as [-> | ->]; cbn; rewrite Hctx.
  - intros e Hitem Hset. rewrite <- Ei in Hitem.
    destruct (queue_wait_run _ _ _ _ _ _ e Hitem Hl) as [e' He']. rewrite Ei in Hitem. apply Hyes; [|by rewrite He'; eexists|done].
    unfold err. by rewrite Hitem.
Qed.

Lemma writes_after_return_witness :
  exists s s1 s2, run_acts Z.of_nat (fun m => map_to_list m) (fun _ => None)
      [ABegin; ANumber; AEnqueue QQueued; AClose; AWait WClosed; ATake] (ex_start (SSendWait ex_envelope)) = Some s /\
    act Z.of_nat (fun m => map_to_list m) (fun _ => None) ACheck s = Some s1 /\
    act Z.of_nat (fun m => map_to_list m) (fun _ => None) (ATx false None None 0 0) s1 = Some s2 /\
    existsb wrote (added (ch s1) (ch s2)) = false.
Proof.
  eexists _, _, _. split; [vm_compute; reflexivity|]. split; [vm_compute; reflexivity|]. split; [vm_compute; reflexivity|].
  set (l := [ABegin; ANumber; AEnqueue QQueued; AClose; AWait WClosed; ATake]).
  set (s0 := ex_start (SSendWait ex_envelope)).
  assert (reachable Z.of_nat (fun m => map_to_list m) (fun _ => None)
    (default s0 (run_acts Z.of_nat (fun m => map_to_list m) (fun _ => None) l s0))) as Hs.
  { eapply (reachable_run _ _ _ l); [apply reach_start, (ex_starting (SSendWait ex_envelope)) |]. vm_compute. reflexivity. }
  eapply (proj1 (writes_after_return Z.of_nat (fun m => map_to_list m) (fun _ => None) _ _ _ _ [] false None None 0 0 Hs
    ltac:(vm_compute; reflexivity) ltac:(reflexivity) ltac:(reflexivity) ltac:(vm_compute; reflexivity)));
    [vm_compute; reflexivity | left; vm_compute; reflexivity | reflexivity | reflexivity | by eexists |].
  intros _. by eexists.
Defined.

(** The loop may have looked before: here the deadline of a wire wait passes, and
    the call returns a timeout, between the look and the write. *)
Example written_after_timeout :
  exists s s', run_acts Z.of_nat (fun m => map_to_list m) (fun _ => None)
      [ABegin; ANumber; AEnqueue QQueued; ATake; ACheck; ATick 1000000000;
       AEnd (context.DeadlineCtx context.Background 0 1000000000) context_DeadlineExceeded; AWait WDone]
      (ex_start (SSendWait ex_envelope)) = Some s /\
    at_pc s = Returned (Err (timed_out wire_text (Some context_DeadlineExceeded))) /\
    act Z.of_nat (fun m => map_to_list m) (fun _ => None) (ATx false None None 0 0) s = Some s' /\
    existsb wrote (added (ch s) (ch s')) = true.
Proof.
  eexists _, _. split; [vm_compute; reflexivity|]. split; [reflexivity|].
  split; [vm_compute; reflexivity|]. reflexivity.
Qed.

(** ** Lemmas: a request and its answer *)

(** A transmission that meets no error registers the waiter. *)
Lemma tx_registers back o m0 wt now c :
  writeContextErr o = None -> msg o = Some m0 ->
  let c' := (tx (mkTxEnv None None back) o wt now c).2 in
  Waiters.m (waiters c') !! Headers.sequence (transformed c m0) = registered o (transformed c m0) now (waiters c).
Proof.
  intros Hc Hm. cbn zeta. unfold tx. rewrite Hc, Hm. change (foldl _ m0 _) with (transformed c m0).
  assert ((if decide (0 < wt) then setTimeoutErr (mkTxEnv None None back) else None) = None) as -> by (by destruct (decide _)).
  apply AddWaiter_lookup.
Qed.

(** A reply whose waiter has not expired reaches it. *)
Lemma rx_reply rng `{!RangeOrder rng} m now c w :
  transformRx (handlers c) = [] -> reply_for_spec m ≠ -1 ->
  Waiters.m (waiters c) !! reply_for_spec m = Some w -> replyReceiver w = 0%nat -> now <= ttlMs w ->
  omap reply_to_item (added c (rx rng m now c).2) = [cacheReplyFor m].
Proof.
  intros Ht Hrf Hw H0 Httl. rewrite rx_spec. cbn zeta. rewrite Ht. cbn [foldl]. rewrite decide_False by done.
  set (c1 := emit _ (set_lastRead now c)).
  assert (Waiters.m (waiters (count_reply rng now c1)) !! reply_for_spec m = Some w) as Hw'.
  { destruct (count_reply_waiters rng now c1 (reply_for_spec m)) as [-> |[_ H]]; [exact Hw|].
    specialize (H w Hw). lia. }
  assert (log (count_reply rng now c1) = log c1) as El by (unfold count_reply; by case_match).
  unfold RemoveWaiter. rewrite Hw'. cbn [snd]. unfold added. cbn [log emit set_waiters]. rewrite El.
  unfold c1. cbn [log emit set_lastRead]. rewrite <- app_assoc, drop_app_length, omap_app.
  rewrite H0. cbn. rewrite omap_fmap_none by done. done.
Qed.

Lemma wf_wire_message m : wf_message m -> wf_message (wire_message m).
Proof.
  intros Hwf. split; cbn; [apply Hwf | apply Hwf | done |]. by apply wire_message_keys.
Qed.

(** No reply before the first transmission. *)
Lemma untried_empty next rng `{!RangeOrder rng} closeErr s :
  reachable next rng closeErr s -> own s = [] -> at_pc s = Waiting -> is_reply (item s) = true ->
  toAccept s = [] /\ replyC (box s) = Some (mkChan [] 1 false).
Proof.
  intros Hs Ho Hpc Hr. destruct (reachable_reply_inv _ _ _ _ Hs) as [Hi [R1 R2 R3 R4 R5]].
  rewrite Ho in R2. split.
  - destruct (toAccept s) as [|m l] eqn:E; [done|]. destruct (R2 m) as [_ ?]; [left; by left | done].
  - destruct (R4 Hr) as [[l n cl] Ec]; [by rewrite Hpc|]. destruct (R3 _ Ec) as [Hcl Hn]. cbn in *. subst.
    destruct l as [|m l]; [done|]. destruct (R2 m) as [_ ?]; [|done]. right. eexists. split; [done|]. by left.
Qed.

(** A reply that arrives at a waiting request is what the call returns. *)
Lemma reply_returned next rng closeErr s e c m m' now :
  at_pc s = Waiting -> item s = SReply e -> context e = Some c -> toAccept s = [] ->
  replyC (box s) = Some (mkChan [] 1 false) ->
  omap reply_to_item (added (ch s) (rx rng m now (ch s)).2) = [m'] ->
  exists s2, run_acts next rng closeErr [ARx m now; AAccept 0; AWait WReply] s = Some s2 /\
    at_pc s2 = Returned (Ret (Some m')).
Proof.
  intros Hpc Hi Hc Hta Hrc Hrx. unfold run_acts, act. cbn [mbind option_bind]. unfold receive_message.
  rewrite Hrx, Hta, Hpc, Hi. unfold accept_reply. cbn [toAccept app lookup list_lookup mbind option_bind at_pc box].
  unfold AcceptReply, on_replyC. rewrite Hrc. cbn [chan_send chan_closed chan_buf chan_cap length app].
  rewrite decide_True by lia. unfold wait. cbn. rewrite Hc.
  cbn. eexists. split; reflexivity.
Qed.

(** A send loop takes the first of the queue and looks at its context. *)
Lemma taken_checked next rng closeErr l s x rest n err :
  held s = Idle -> msgC (queue s) = mkQueue (x :: rest) n -> name x = 0%nat ->
  writeContextErr (to_channel 0 (item s) (world_of s)) = err ->
  run_acts next rng closeErr (ATake :: ACheck :: l) s =
  run_acts next rng closeErr l (mkSystem (item s) (at_pc s) (box s)
    (mkSender (mkQueue rest n) (given (queue s)) (closeNotified (queue s))) (ch s) (toNotify s) (toAccept s) (crashed s)
    (own s) (drawn s) (Checked x err)).
Proof.
  intros Hh Hq Hx <-. cbn [run_acts act]. unfold take_item. rewrite Hh, Hq. cbn. by rewrite decide_True by done.
Qed.

(** C11: a request is answered.  A request at the head of the queue is written
    (transformed as the channel's handlers do) and its waiter registered.  If
    the peer, having received it, marks any message as a reply to it and sends
    that, then whatever chunks the answer's bytes arrive in, the message read
    from them is given to the call, which can return it: its content type, body
    and reply-for are those of the answer.  This needs the reply to come before
    the waiter expires, and a sequence number other than -1. *)
Theorem request_is_answered (next : nat -> Z)
    (rng : gmap Z (waiter receiver) -> list (Z * waiter receiver)) `{!RangeOrder rng}
    (hrng : HeaderMap -> list (Z * bytes)) `{!RangeOrder hrng} (closeErr : nat -> option error)
    (s : system) (e : envelopeImpl) (c : context.Context) (x : Senders.Sendable) (rest : list Senders.Sendable)
    (ans : Message) (writeTimeout now now' : Z) :
  let req := transformed (ch s) (env_msg e) in
  let answer := ReplyTo ans (wire_message req) in
  reachable next rng closeErr s -> at_pc s = Waiting -> own s = [] ->
  item s = SReply e -> context e = Some c -> context.Err c (world_of s) = None ->
  C (msgC (queue s)) = x :: rest -> name x = 0%nat -> transformRx (handlers (ch s)) = [] ->
  Headers.sequence (env_msg e) ≠ -1 -> wf_message req -> wf_message ans -> fits answer ->
  now' <= match context.Deadline c with Some d => d / 1000000 | None => now + 30000 end ->
  exists s1 data, run_acts next rng closeErr [ATake; ACheck; ATx false None None writeTimeout now] s = Some s1 /\
    EvWrite req ∈ added (ch s) (ch s1) /\ (MarshalV2 hrng answer).1 = Ret data /\
    forall r, concat (chunks r) = data -> exists m r' s2, ReadV2 64 r = Ret (m, r') /\
      ContentType m = ContentType ans /\ Body m = Body ans /\ reply_for_spec m = Headers.sequence req /\
      run_acts next rng closeErr [ARx m now'; AAccept 0; AWait WReply] s1 = Some s2 /\
      at_pc s2 = Returned (Ret (Some (cacheReplyFor m))).
Proof.
  intros req answer Hs Hpc Ho Hi Hc Hctx Hq Hx Hrx Hsq Hwr Hwa Hfit Hnow.
  pose proof (reachable_call_inv _ _ _ _ Hs) as Hinv.
  destruct (untried_empty _ _ _ _ Hs Ho Hpc) as [Hta Hrc]; [by rewrite Hi|].
  assert (Headers.sequence req = Headers.sequence (env_msg e)) as Eseq
    by (apply transformed_sequence, Hinv).
  assert (reply_for_spec answer = Headers.sequence req) as Erf.
  { unfold answer, reply_for_spec, ReplyTo. by destruct (Headers (wire_message req) !! ReflectedHeader). }
  assert (ContentType answer = ContentType ans /\ Body answer = Body ans) as [Ect Ebd]
    by (unfold answer, ReplyTo; by destruct (Headers (wire_message req) !! ReflectedHeader)).
  assert (wf_message answer) as Hwf by (apply wf_ReplyTo; [done | by apply wf_wire_message]).
  assert (held s = Idle) as Hheld.
  { assert (forall x', x' ∈ held_items (held s) -> x' ∈ placed s) as Hin by (intros; unfold placed; by apply elem_of_app; left).
    assert (placed s = held_items (held s) ++ x :: filter (fun y => name y = 0%nat) rest) as Epl
      by (unfold placed, mine; by rewrite Hq, filter_cons_True).
    destruct (ci_queue s Hinv) as [E|(sq & E & _)]; rewrite E in Epl; destruct (held s); done. }
  destruct (msgC (queue s)) as [cq n] eqn:Emq. cbn in Hq. subst cq.
  assert (writeContextErr (to_channel 0 (item s) (world_of s)) = None) as Ewc0 by (rewrite Hi; cbn; by rewrite Hc).
  set (o := seen None (item s) (world_of s)). set (env := mkTxEnv None None false).
  assert (writeContextErr o = None) as Ewc by done.
  assert (msg o = Some (env_msg e)) as Emsg by (unfold o; by rewrite Hi).
  pose proof (tx_added env o writeTimeout now (ch s)) as Ea.
  pose proof (tx_frame env o writeTimeout now (ch s)) as [Eh _].
  pose proof (tx_registers false o (env_msg e) writeTimeout now (ch s) Ewc Emsg) as Hreg. cbn zeta in Hreg.
  fold env in Hreg. fold req in Hreg.
  destruct (tx env o writeTimeout now (ch s)) as [r0 c'] eqn:Et. cbn [snd] in *.
  eexists _, _. split.
  { rewrite (taken_checked _ _ _ _ s x rest n None) by done. cbn [run_acts act mbind option_bind]. unfold transmit.
    cbn [held retried queue msgC item ch]. unfold world_of. cbn [box]. fold (world_of s). fold o env. rewrite Et. reflexivity. }
  cbn [ch]. split.
  { rewrite Ea. unfold tx_events. rewrite Ewc, Emsg.
    assert ((if decide (0 < writeTimeout) then setTimeoutErr env else None) = None) as -> by (by destruct (decide _)).
    right. left. }
  split; [by apply MarshalV2_bytes|].
  intros r Hr. pose proof (ReadV2_refines 64 r (int_ok_64 _)) as R. rewrite Hr in R.
  rewrite <- (app_nil_r (frame_bytes hrng answer)) in R.
  rewrite (frame_parse hrng 64 answer []) in R; [|lia|exact Hwf|exact Hfit].
  destruct R as (r' & R & _). exists (wire_message answer), r'.
  assert (reply_for_spec (wire_message answer) = Headers.sequence req) as Erf'
    by (rewrite wire_message_replyFor by done; exact Erf).
  pose proof (rx_reply rng (wire_message answer) now' c' (mkWaiter 0%nat
    (match context.Deadline c with Some d => d / 1000000 | None => now + 30000 end))) as Hrep.
  assert (exists f, after_transforms (ch s) None (item s) = SReply f /\ context f = Some c) as (f & Ef & Hf).
  { unfold after_transforms. rewrite Hi. cbn. eauto. }
  set (s1 := mkSystem _ _ _ _ _ _ _ _ _ _ _).
  destruct (reply_returned next rng closeErr s1 f c (wire_message answer) (cacheReplyFor (wire_message answer)) now')
    as (s2 & E2 & Ep2); [exact Hpc | exact Ef | exact Hf | exact Hta | exact Hrc | |by exists s2].
  cbn [ch s1]. apply Hrep; [congruence | congruence | | done | done].
  rewrite Erf', Hreg. unfold registered, o. rewrite Hi. cbn. rewrite Hc. by destruct (context.Deadline c).
Qed.

Lemma request_is_answered_witness :
  exists s s1, run_acts Z.of_nat (fun m => map_to_list m) (fun _ => None)
      [ABegin; ANumber; AEnqueue QQueued] (ex_start (SReply ex_envelope)) = Some s /\
    run_acts Z.of_nat (fun m => map_to_list m) (fun _ => None) [ATake; ACheck; ATx false None None 0 0] s = Some s1.
Proof.
  eexists. assert (reachable Z.of_nat (fun m => map_to_list m) (fun _ => None)
    (default (ex_start (SReply ex_envelope)) (run_acts Z.of_nat (fun m => map_to_list m) (fun _ => None)
      [ABegin; ANumber; AEnqueue QQueued] (ex_start (SReply ex_envelope))))) as Hs.
  { eapply reachable_run; [apply reach_start, (ex_starting (SReply ex_envelope)) |].
    instantiate (1 := [ABegin; ANumber; AEnqueue QQueued]). vm_compute. reflexivity. }
  assert (forall ct b, is_i32 ct -> wf_message (Headers.SetSequence 0 (NewMessage ct b))) as Hwf.
  { intros ct b Hct. split; cbn; [done | done | done |]. intros k v Hk. by rewrite lookup_empty in Hk. }
  destruct (request_is_answered Z.of_nat (fun m => map_to_list m) (fun m => map_to_list m) (fun _ => None) _
    (mkEnvelope (Headers.SetSequence 0 (NewMessage 7 (lit "x"))) (context ex_envelope) (cancelF ex_envelope))
    (context.DeadlineCtx context.Background 0 1000000000) (Senders.mkSendable 0 0) []
    (Headers.SetSequence 0 (NewMessage 8 (lit "y"))) 0 0 5 Hs) as (s1 & data & E & _).
  1-8: vm_compute; reflexivity.
  - discriminate.
  - apply (Hwf 7 (lit "x")). vm_compute. split; [discriminate | reflexivity].
  - apply Hwf. vm_compute. split; [discriminate | reflexivity].
  - vm_compute. discriminate.
  - vm_compute. discriminate.
  - exists s1. split; [|exact E]. vm_compute. reflexivity.
Defined.
