(* ===== verification/Options.v ===== *)
(** * Options (src/options.go, src/constants.go)

    Loading of options from a decoded configuration, and the validation of
    connect options.  A configuration value is an [int], a [float64], a string
    or something else; floating-point numbers are the [spec_float] of the
    Standard Library, and [int] has 64 bits.  Durations are parsed by
    [time.ParseDuration], which is modelled here as the Go library has it.
    Setting a field that the configuration does not mention is not modelled:
    [MessageStrategy] and [Logger] are never loaded.

    Theorems: what every field is after a successful load, exactly which
    configurations are refused and what a refused load has already changed; a
    loaded queue size is never negative; validation accepts exactly the
    documented ranges; a timeout in milliseconds that overflows can slip
    through. *)

From Stdlib Require Import Floats.SpecFloat.
From S2P Require Import Prelude Float64.

(** ** Floating-point numbers *)

(** The number of a finite [float64], if it is whole. *)
Definition whole (v : float64) : option Z :=
  match v with
  | S754_zero _ => Some 0
  | S754_finite s m e =>
      let n := if (0 <=? e)%Z then Z.pos m * 2 ^ e else Z.pos m / 2 ^ (- e) in
      if (0 <=? e)%Z || bool_decide (Z.pos m mod 2 ^ (- e) = 0)
      then Some (if s then - n else n) else None
  | S754_infinity _ | S754_nan => None
  end.

(** [v != math.Trunc(v)]: true for a fraction and for NaN, false for the
    infinities. *)
Definition not_trunc (v : float64) : bool :=
  match v with
  | S754_nan => true
  | S754_infinity _ => false
  | _ => bool_decide (whole v = None)
  end.

Definition MinInt : Z := - 2 ^ 63.
Definition MaxInt : Z := 2 ^ 63 - 1.

(** The constants of [v < math.MinInt || v > math.MaxInt], as [float64]: the
    first is exact, the second rounds to [2 ^ 63]. *)
Definition MinInt_float : Z := - 2 ^ 63.
Definition MaxInt_float : Z := 2 ^ 63.

Definition out_of_range (v : float64) : bool :=
  match v with
  | S754_infinity _ => true
  | _ => match whole v with
         | Some n => bool_decide (n < MinInt_float) || bool_decide (MaxInt_float < n)
         | None => false
         end
  end.

(** ** Durations ([time.ParseDuration]) *)

Definition is_digit (b : byte) : bool := (48 <=? b2Z b) && (b2Z b <=? 57).
Definition dot : byte := Byte.x2e.

(** [leadingInt], which refuses values above [2 ^ 63]. *)
Fixpoint leadingInt (x : Z) (s : bytes) : option (Z * bytes) :=
  match s with
  | c :: s' =>
      if is_digit c
      then if decide (2 ^ 63 / 10 < x) then None
           else let x' := x * 10 + (b2Z c - 48) in
             if decide (2 ^ 63 < x') then None else leadingInt x' s'
      else Some (x, s)
  | [] => Some (x, s)
  end.

(** [leadingFraction]: digits that no longer fit are skipped. *)
Fixpoint leadingFraction (x : Z) (scale : float64) (overflow : bool) (s : bytes) : Z * float64 * bytes :=
  match s with
  | c :: s' =>
      if is_digit c
      then if overflow then leadingFraction x scale true s'
           else if decide ((2 ^ 63 - 1) / 10 < x) then leadingFraction x scale true s'
           else let y := x * 10 + (b2Z c - 48) in
             if decide (2 ^ 63 < y) then leadingFraction x scale true s'
             else leadingFraction y (float_mul scale (float_of_Z 10)) false s'
      else (x, scale, s)
  | [] => (x, scale, s)
  end.

Fixpoint take_unit (s : bytes) : bytes * bytes :=
  match s with
  | c :: s' =>
      if is_digit c || bool_decide (c = dot) then ([], s)
      else let '(u, r) := take_unit s' in (c :: u, r)
  | [] => ([], [])
  end.

Definition unitMap (u : bytes) : option Z :=
  if decide (u = lit "ns") then Some 1
  else if decide (u = lit "us" \/ u = [Byte.xc2; Byte.xb5; Byte.x73] \/ u = [Byte.xce; Byte.xbc; Byte.x73])
  then Some 1000
  else if decide (u = lit "ms") then Some 1000000
  else if decide (u = lit "s") then Some 1000000000
  else if decide (u = lit "m") then Some 60000000000
  else if decide (u = lit "h") then Some 3600000000000
  else None.

Definition bad_duration (why : string) : error := errors_New (lit why).

(** One round of the loop: a number and its unit. *)
Definition parse_term (s : bytes) : outcome (Z * bytes) :=
  let invalid := Err (bad_duration "time: invalid duration") in
  match s with
  | [] => invalid
  | c :: _ =>
      if negb (is_digit c || bool_decide (c = dot)) then invalid
      else
        match leadingInt 0 s with
        | None => invalid
        | Some (v, s1) =>
            let pre := negb (bool_decide (length s1 = length s)) in
            let '(f, scale, s2, post) :=
              match s1 with
              | d :: s1' =>
                  if decide (d = dot)
                  then let '(f, scale, s2) := leadingFraction 0 (float_of_Z 1) false s1' in
                    (f, scale, s2, negb (bool_decide (length s2 = length s1')))
                  else (0, float_of_Z 1, s1, false)
              | [] => (0, float_of_Z 1, s1, false)
              end in
            if negb pre && negb post then invalid
            else
              let '(u, s3) := take_unit s2 in
              if decide (u = []) then Err (bad_duration "time: missing unit in duration")
              else
                match unitMap u with
                | None => Err (bad_duration "time: unknown unit in duration")
                | Some unit =>
                    if decide (2 ^ 63 / unit < v) then invalid
                    else
                      let v := v * unit in
                      let v := if decide (0 < f)
                        then v + float_trunc (float_mul (float_of_Z f) (float_div (float_of_Z unit) scale))
                        else v in
                      if decide (2 ^ 63 < v) then invalid else Ret (v, s3)
                end
        end
  end.

Fixpoint parse_terms (fuel : nat) (d : Z) (s : bytes) : outcome Z :=
  match fuel with
  | O => OutOfFuel
  | S fuel' =>
      match s with
      | [] => Ret d
      | _ =>
          '(v, s') ← parse_term s;
          let d := uint64 (d + v) in
          if decide (2 ^ 63 < d) then Err (bad_duration "time: invalid duration") else parse_terms fuel' d s'
      end
  end.

(** An optional sign. *)
Definition take_sign (s : bytes) : bool * bytes :=
  match s with
  | Byte.x2d :: s' => (true, s')
  | Byte.x2b :: s' => (false, s')
  | _ => (false, s)
  end.

Definition ParseDuration (orig : bytes) : outcome Z :=
  let '(neg, s) := take_sign orig in
  if decide (s = lit "0") then Ret 0
  else if decide (s = []) then Err (bad_duration "time: invalid duration")
  else
    d ← parse_terms (S (length s)) 0 s;
    if (neg : bool) then Ret (- d)
    else if decide (2 ^ 63 - 1 < d) then Err (bad_duration "time: invalid duration")
    else Ret d.

(** ** Data *)

(** A decoded configuration value. *)
Inductive value : Type :=
  | VInt (n : Z)
  | VFloat (v : float64)
  | VString (s : bytes)
  | VOther.

(** The entries with string keys; the others are never looked at. *)
Abbreviation config := (gmap gostring value).

Record ConnectOptions : Type := mkConnectOptions {
  MaxQueuedConnects : Z;
  MaxOutstandingConnects : Z;
  ConnectTimeout : Z
}.

Record Options : Type := mkOptions {
  OutQueueSize : Z;
  connectOptions : ConnectOptions;
  WriteTimeout : Z
}.

Definition Second : Z := 1000000000.
Definition Millisecond : Z := 1000000.

Definition DefaultOutstandingConnects : Z := 16.
Definition DefaultQueuedConnects : Z := 1.
Definition DefaultConnectTimeout : Z := 5 * Second.
Definition MinQueuedConnects : Z := 1.
Definition MinOutstandingConnects : Z := 1.
Definition MinConnectTimeout : Z := 30 * Millisecond.
Definition max_MaxQueuedConnects : Z := 5000.
Definition max_MaxOutstandingConnects : Z := 1000.
Definition MaxConnectTimeout : Z := 60000 * Millisecond.
Definition DefaultOutQueueSize : Z := 4.

Definition DefaultConnectOptions : ConnectOptions :=
  mkConnectOptions DefaultQueuedConnects DefaultOutstandingConnects DefaultConnectTimeout.

Definition DefaultOptions : Options := mkOptions DefaultOutQueueSize DefaultConnectOptions 0.

Definition set_OutQueueSize (n : Z) (o : Options) : Options :=
  mkOptions n (connectOptions o) (WriteTimeout o).
Definition set_MaxQueuedConnects (n : Z) (o : Options) : Options :=
  let co := connectOptions o in
  mkOptions (OutQueueSize o) (mkConnectOptions n (MaxOutstandingConnects co) (ConnectTimeout co)) (WriteTimeout o).
Definition set_MaxOutstandingConnects (n : Z) (o : Options) : Options :=
  let co := connectOptions o in
  mkOptions (OutQueueSize o) (mkConnectOptions (MaxQueuedConnects co) n (ConnectTimeout co)) (WriteTimeout o).
Definition set_ConnectTimeout (n : Z) (o : Options) : Options :=
  let co := connectOptions o in
  mkOptions (OutQueueSize o) (mkConnectOptions (MaxQueuedConnects co) (MaxOutstandingConnects co) n) (WriteTimeout o).
Definition set_WriteTimeout (n : Z) (o : Options) : Options :=
  mkOptions (OutQueueSize o) (connectOptions o) n.

(** ** Loading *)

Section Load.
(** What [int(v)] gives for a [float64] that no [int] can hold: Go leaves it to
    the machine. *)
Context (wild : float64 -> Z).

Definition int_of_float (v : float64) : Z :=
  match whole v with
  | Some n => if decide (is_i64 n) then n else wild v
  | None => wild v
  end.

Definition load_outQueueSize (v : value) : outcome Z :=
  size ← match v with
         | VInt n => Ret n
         | VFloat f =>
             if not_trunc f then Err (errors_New (lit "invalid outQueueSize: must be a whole number"))
             else if out_of_range f then Err (errors_New (lit "invalid outQueueSize: out of range"))
             else Ret (int_of_float f)
         | VString _ | VOther => Err (errors_New (lit "invalid outQueueSize: expected a number"))
         end;
  if decide (size < 0) then Err (errors_New (lit "invalid outQueueSize: must not be negative"))
  else Ret size.

(** A duration string under the given name. *)
Definition load_duration (name : string) (v : value) : outcome Z :=
  match v with
  | VString s =>
      match ParseDuration s with
      | Err e => Err (errors_Wrap e (lit "invalid value for " ++ lit name))
      | r => r
      end
  | _ => Err (errors_New (lit "invalid (non-string) value for " ++ lit name))
  end.

(** The parts of [Load], in order. *)
Definition load_queue_size (data : config) : ST Options unit :=
  match data !! lit "outQueueSize" with
  | Some v => size ← lift (load_outQueueSize v); modify (set_OutQueueSize size)
  | None => mret tt
  end.

Definition load_counts (data : config) : ST Options unit :=
  _ ← (match data !! lit "maxQueuedConnects" with
       | Some (VInt n) => modify (set_MaxQueuedConnects n)
       | _ => mret tt
       end);
  match data !! lit "maxOutstandingConnects" with
  | Some (VInt n) => modify (set_MaxOutstandingConnects n)
  | _ => mret tt
  end.

Definition load_connect_timeout (data : config) : ST Options unit :=
  match data !! lit "connectTimeout" with
  | Some v => d ← lift (load_duration "connectTimeout" v); modify (set_ConnectTimeout d)
  | None =>
      match data !! lit "connectTimeoutMs" with
      | Some (VInt n) => modify (set_ConnectTimeout (int64 (n * Millisecond)))
      | _ => mret tt
      end
  end.

Definition load_write_timeout (data : config) : ST Options unit :=
  match data !! lit "writeTimeout" with
  | Some v => d ← lift (load_duration "writeTimeout" v); modify (set_WriteTimeout d)
  | None => mret tt
  end.

Definition Load (data : config) : ST Options unit :=
  _ ← load_queue_size data;
  _ ← load_counts data;
  _ ← load_connect_timeout data;
  load_write_timeout data.

Definition LoadOptions (data : config) : outcome Options :=
  match Load data DefaultOptions with
  | (Ret _, o) => Ret o
  | (Err e, _) => Err e
  | (Panic, _) => Panic
  | (OutOfFuel, _) => OutOfFuel
  end.

End Load.

(** ** Validation *)

Definition validateQueueConnects (co : ConnectOptions) : outcome unit :=
  if decide (MaxQueuedConnects co < MinQueuedConnects)
  then Err (fmt_Errorf (lit "maxQueuedConnects must be at least") [MinQueuedConnects])
  else if decide (max_MaxQueuedConnects < MaxQueuedConnects co)
  then Err (fmt_Errorf (lit "maxQueuedConnects must be at most") [max_MaxQueuedConnects])
  else Ret tt.

Definition validateOutstandingConnects (co : ConnectOptions) : outcome unit :=
  if decide (MaxOutstandingConnects co < MinOutstandingConnects)
  then Err (fmt_Errorf (lit "maxOutstandingConnects must be at least") [MinOutstandingConnects])
  else if decide (max_MaxOutstandingConnects < MaxOutstandingConnects co)
  then Err (fmt_Errorf (lit "maxOutstandingConnects must be at most") [max_MaxOutstandingConnects])
  else Ret tt.

Definition validateConnectTimeout (co : ConnectOptions) : outcome unit :=
  if decide (ConnectTimeout co < MinConnectTimeout)
  then Err (fmt_Errorf (lit "connectTimeoutMs must be at least ms") [MinConnectTimeout / Millisecond])
  else if decide (MaxConnectTimeout < ConnectTimeout co)
  then Err (fmt_Errorf (lit "connectTimeoutMs must be at most ms") [MaxConnectTimeout / Millisecond])
  else Ret tt.

Definition Validate (co : ConnectOptions) : outcome unit :=
  _ ← validateConnectTimeout co;
  _ ← validateOutstandingConnects co;
  validateQueueConnects co.

Example parse_250ms : ParseDuration (lit "250ms") = Ret 250000000.
Proof. vm_compute. reflexivity. Qed.
Example parse_mixed : ParseDuration (lit "-1h15m30.918s") = Ret (-4530918000000).
Proof. vm_compute. reflexivity. Qed.
Example parse_fraction : ParseDuration (lit ".5s") = Ret 500000000.
Proof. vm_compute. reflexivity. Qed.

(** ** Lemmas *)

Lemma leadingInt_length s : forall x v s', leadingInt x s = Some (v, s') -> (length s' <= length s)%nat.
Proof.
  induction s as [|c s IH]; intros x v s'; cbn; [by intros [= _ <-]|].
  destruct (is_digit c); [|by intros [= _ <-]].
  case_decide; [done|]. case_decide; [done|]. intros Hl%IH. lia.
Qed.

Lemma leadingFraction_length s : forall x sc ov, (length (leadingFraction x sc ov s).2 <= length s)%nat.
Proof.
  induction s as [|c s IH]; intros x sc ov; cbn; [lia|]. destruct (is_digit c); [|cbn; lia].
  repeat case_match; etrans; try apply IH; lia.
Qed.

Lemma take_unit_length s u r : take_unit s = (u, r) -> u ≠ [] -> (length r < length s)%nat.
Proof.
  revert u. induction s as [|c s IH]; intros u; cbn; [by intros [= <- <-]|].
  destruct (_ || _); [by intros [= <- <-]|]. destruct (take_unit s) as [u' r'] eqn:E. intros [= <- <-] _.
  destruct u' as [|c' u']; [|specialize (IH (c' :: u') eq_refl ltac:(done)); lia].
  destruct s as [|d s]; cbn in E; [injection E as <-; cbn; lia|].
  destruct (_ || _); [injection E as <-; cbn; lia|]. destruct (take_unit s); discriminate.
Qed.

(** Every term is consumed. *)
Lemma parse_term_length s v s' : parse_term s = Ret (v, s') -> (length s' < length s)%nat.
Proof.
  unfold parse_term. destruct s as [|c s0]; [done|]. destruct (negb _); [done|]. set (s := c :: s0).
  destruct (leadingInt 0 s) as [[x s1]|] eqn:E1; [|done]. apply leadingInt_length in E1.
  assert (exists f sc s2 post, (match s1 with
    | d :: s1' => if decide (d = dot)
        then let '(f, scale, s2) := leadingFraction 0 (float_of_Z 1) false s1' in
          (f, scale, s2, negb (bool_decide (length s2 = length s1')))
        else (0, float_of_Z 1, s1, false)
    | [] => (0, float_of_Z 1, s1, false) end) = (f, sc, s2, post) /\ (length s2 <= length s1)%nat)
    as (f & sc & s2 & post & -> & Hl2).
  { destruct s1 as [|d s1']; [by eexists _, _, _, _|]. case_decide; [|by eexists _, _, _, _].
    pose proof (leadingFraction_length s1' 0 (float_of_Z 1) false) as Hl.
    destruct (leadingFraction _ _ _ s1') as [[f sc] s2]. cbn in Hl. eexists _, _, _, _. split; [done|]. cbn. lia. }
  destruct (negb _ && negb _); [done|]. destruct (take_unit s2) as [u s3] eqn:Eu. case_decide as Hu; [done|].
  apply take_unit_length in Eu; [|done]. destruct (unitMap u); [|done]. case_decide; [done|].
  cbn zeta. case_decide; case_decide; try done; intros [= _ <-]; lia.
Qed.

Lemma parse_term_returns s : returns (parse_term s).
Proof. unfold parse_term. by repeat case_match. Qed.

Lemma parse_terms_returns fuel : forall d s, (length s < fuel)%nat -> returns (parse_terms fuel d s).
Proof.
  induction fuel as [|fuel IH]; intros d s Hf; [lia|]. cbn [parse_terms].
  destruct s as [|c s0] eqn:Es; [done|]. rewrite <- Es in *.
  pose proof (parse_term_returns s) as Hr. unfold mbind, outcome_bind.
  destruct (parse_term s) as [[v s']| | |] eqn:Et; try done. apply parse_term_length in Et.
  cbn zeta. case_decide; [done|]. apply IH. lia.
Qed.

(** [ParseDuration] ends, with a duration or an error. *)
Lemma ParseDuration_returns s : returns (ParseDuration s).
Proof.
  unfold ParseDuration. destruct (take_sign s) as [neg s1].
  case_decide; [done|]. case_decide; [done|].
  pose proof (parse_terms_returns (S (length s1)) 0 s1 ltac:(lia)) as Hr.
  unfold mbind, outcome_bind. destruct (parse_terms _ _ _); try done. destruct neg; [done|]. by case_decide.
Qed.

Lemma load_duration_returns name v : returns (load_duration name v).
Proof.
  unfold load_duration. destruct v; try done. pose proof (ParseDuration_returns s).
  by destruct (ParseDuration s).
Qed.

Lemma load_outQueueSize_returns wild v : returns (load_outQueueSize wild v).
Proof. unfold load_outQueueSize, mbind, outcome_bind. by repeat case_match. Qed.

Section LoadLemmas.
Context (wild : float64 -> Z).

(** What a field becomes: the loaded value if the configuration has the key. *)
Definition loaded {A} (f : A -> outcome Z) (v : option A) (old : Z) : Z :=
  match v with
  | Some a => match f a with Ret n => n | _ => old end
  | None => old
  end.

Definition accepted {A} (f : A -> outcome Z) (v : option A) : Prop :=
  forall a, v = Some a -> exists n, f a = Ret n.

(** An optional [int]; values of other types count as absent. *)
Definition only_int (v : option value) (old : Z) : Z :=
  match v with Some (VInt n) => n | _ => old end.

(** The fields after the four settings that come before [writeTimeout]. *)
Definition connect_timeout (data : config) (old : Z) : Z :=
  match data !! lit "connectTimeout" with
  | Some v => loaded (load_duration "connectTimeout") (Some v) old
  | None => match data !! lit "connectTimeoutMs" with
            | Some (VInt n) => int64 (n * Millisecond)
            | _ => old
            end
  end.

(** The configuration is accepted. *)
Definition config_ok (data : config) : Prop :=
  accepted (load_outQueueSize wild) (data !! lit "outQueueSize") /\
  accepted (load_duration "connectTimeout") (data !! lit "connectTimeout") /\
  accepted (load_duration "writeTimeout") (data !! lit "writeTimeout").

(** The options a configuration describes. *)
Definition described (data : config) (o : Options) : Options :=
  let co := connectOptions o in
  mkOptions
    (loaded (load_outQueueSize wild) (data !! lit "outQueueSize") (OutQueueSize o))
    (mkConnectOptions
       (only_int (data !! lit "maxQueuedConnects") (MaxQueuedConnects co))
       (only_int (data !! lit "maxOutstandingConnects") (MaxOutstandingConnects co))
       (connect_timeout data (ConnectTimeout co)))
    (loaded (load_duration "writeTimeout") (data !! lit "writeTimeout") (WriteTimeout o)).

(** A setting whose value may be refused. *)
Lemma setting_spec {A} (f : A -> outcome Z) v (set : Z -> Options -> Options) (get : Options -> Z) o :
  (forall a, returns (f a)) -> set (get o) o = o ->
  let r := (match v with Some a => n ← lift (f a); modify (set n) | None => mret tt end : ST Options unit) o in
  accepted f v /\ r = (Ret tt, set (loaded f v (get o)) o) \/ ~ accepted f v /\ exists e, r = (Err e, o).
Proof using Type.
  intros Hr Hset. destruct v as [a|]; [|left; cbn; rewrite Hset; split; [intros ? [=] | done]].
  specialize (Hr a). unfold mbind, ST_bind, lift. destruct (f a) as [n|e| |] eqn:E; try done.
  - left. cbn. rewrite E. split; [|done]. intros a' [= <-]. eauto.
  - right. split; [|eauto]. intros Hacc. destruct (Hacc a eq_refl). congruence.
Qed.

Lemma queue_size_spec data o :
  accepted (load_outQueueSize wild) (data !! lit "outQueueSize") /\
    load_queue_size wild data o =
      (Ret tt, set_OutQueueSize (loaded (load_outQueueSize wild) (data !! lit "outQueueSize") (OutQueueSize o)) o) \/
  ~ accepted (load_outQueueSize wild) (data !! lit "outQueueSize") /\ exists e, load_queue_size wild data o = (Err e, o).
Proof using Type.
  apply (setting_spec _ _ set_OutQueueSize OutQueueSize); [apply load_outQueueSize_returns | by destruct o].
Qed.

Lemma counts_spec data o : load_counts data o =
  (Ret tt, set_MaxOutstandingConnects (only_int (data !! lit "maxOutstandingConnects") (MaxOutstandingConnects (connectOptions o)))
    (set_MaxQueuedConnects (only_int (data !! lit "maxQueuedConnects") (MaxQueuedConnects (connectOptions o))) o)).
Proof using Type.
  destruct o as [q [a b c] w]. unfold load_counts, only_int, mbind, ST_bind.
  destruct (data !! lit "maxQueuedConnects") as [[]|], (data !! lit "maxOutstandingConnects") as [[]|]; reflexivity.
Qed.

Lemma connect_timeout_spec data o :
  accepted (load_duration "connectTimeout") (data !! lit "connectTimeout") /\
    load_connect_timeout data o =
      (Ret tt, set_ConnectTimeout (connect_timeout data (ConnectTimeout (connectOptions o))) o) \/
  ~ accepted (load_duration "connectTimeout") (data !! lit "connectTimeout") /\
    exists e, load_connect_timeout data o = (Err e, o).
Proof using Type.
  unfold load_connect_timeout, connect_timeout. destruct (data !! lit "connectTimeout") as [v|].
  - apply (setting_spec (load_duration "connectTimeout") (Some v) set_ConnectTimeout (fun o => ConnectTimeout (connectOptions o)));
      [apply load_duration_returns | by destruct o as [q [a b c] w]].
  - left. split; [intros ? [=]|]. destruct o as [q [a b c] w].
    by destruct (data !! lit "connectTimeoutMs") as [[]|].
Qed.

Lemma write_timeout_spec data o :
  accepted (load_duration "writeTimeout") (data !! lit "writeTimeout") /\
    load_write_timeout data o =
      (Ret tt, set_WriteTimeout (loaded (load_duration "writeTimeout") (data !! lit "writeTimeout") (WriteTimeout o)) o) \/
  ~ accepted (load_duration "writeTimeout") (data !! lit "writeTimeout") /\ exists e, load_write_timeout data o = (Err e, o).
Proof using Type.
  apply (setting_spec _ _ set_WriteTimeout WriteTimeout); [apply load_duration_returns | by destruct o].
Qed.

Lemma Load_spec data o :
  let r := Load wild data o in
  (r = (Ret tt, described data o) /\ config_ok data \/
   (exists e, r.1 = Err e) /\ ~ config_ok data /\ WriteTimeout r.2 = WriteTimeout o) /\
  (~ accepted (load_outQueueSize wild) (data !! lit "outQueueSize") -> r.2 = o).
Proof using Type.
  unfold Load, config_ok, described. unfold mbind, ST_bind.
  destruct (queue_size_spec data o) as [[Hq ->]|[Hq [e ->]]]; [|naive_solver].
  rewrite counts_spec.
  match goal with |- context [load_connect_timeout data ?o1] => destruct (connect_timeout_spec data o1) as [[Hc ->]|[Hc [e ->]]] end;
    [|naive_solver].
  match goal with |- context [load_write_timeout data ?o1] => destruct (write_timeout_spec data o1) as [[Hw ->]|[Hw [e ->]]] end;
    naive_solver.
Qed.

Lemma queue_size_value v n : load_outQueueSize wild v = Ret n -> 0 <= n /\
  match v with
  | VInt m => n = m
  | VFloat f => whole f = Some n \/ whole f = Some (2 ^ 63) /\ n = wild f
  | _ => False
  end.
Proof using Type.
  unfold load_outQueueSize, mbind, outcome_bind. destruct v as [m|f|s|]; try done.
  - case_decide; [done|]. intros [= <-]. split; [lia | done].
  - destruct (not_trunc f) eqn:Ht; [done|]. destruct (out_of_range f) eqn:Ho; [done|].
    case_decide; [done|]. intros [= <-]. split; [lia|]. unfold int_of_float in *.
    destruct (whole f) as [z|] eqn:Ew.
    + case_decide as Hz; [by left|]. right. split; [|done]. f_equal.
      assert (bool_decide (z < MinInt_float) || bool_decide (MaxInt_float < z) = false) as Hr
        by (unfold out_of_range in Ho; destruct f; [rewrite Ew in Ho; exact Ho | done | rewrite Ew in Ho; exact Ho ..]).
      apply orb_false_iff in Hr as [H1%bool_decide_eq_false H2%bool_decide_eq_false].
      unfold is_sint, MinInt_float, MaxInt_float in *. lia.
    + unfold not_trunc in Ht. destruct f; try done; rewrite Ew in Ht; done.
Qed.

End LoadLemmas.

(** ** Properties *)

(** Loading options.  [Load] always returns.  It succeeds exactly when the
    queue size and the two duration strings, where present, are acceptable, and
    then every field has the value the configuration describes and the others
    keep theirs; a count or a [connectTimeoutMs] that is not an [int] (as JSON
    decodes numbers) is ignored without an error.  A refused queue size leaves
    the options as they were; a refused load never changes the write timeout.
    An accepted queue size is not negative and is the number configured, with
    one exception: the float [2^63] passes the range check, and what it becomes
    is up to the machine. *)
Theorem options_loaded (wild : float64 -> Z) (data : config) (o : Options) :
  let r := Load wild data o in
  (r = (Ret tt, described wild data o) /\ config_ok wild data \/
   (exists e, r.1 = Err e) /\ ~ config_ok wild data /\ WriteTimeout r.2 = WriteTimeout o) /\
  (~ accepted (load_outQueueSize wild) (data !! lit "outQueueSize") -> r.2 = o) /\
  (forall v n, load_outQueueSize wild v = Ret n -> 0 <= n /\
     match v with
     | VInt m => n = m
     | VFloat f => whole f = Some n \/ whole f = Some (2 ^ 63) /\ n = wild f
     | _ => False
     end).
Proof.
  intros r. destruct (Load_spec wild data o) as [H1 H2]. split; [exact H1|]. split; [exact H2|].
  apply queue_size_value.
Qed.

(** The ranges that validation accepts. *)
Lemma validated (co : ConnectOptions) :
  Validate co = Ret tt <->
    30 * Millisecond <= ConnectTimeout co <= 60 * Second /\
    1 <= MaxOutstandingConnects co <= 1000 /\ 1 <= MaxQueuedConnects co <= 5000.
Proof.
  unfold Validate, mbind, outcome_bind, validateConnectTimeout, validateOutstandingConnects, validateQueueConnects,
    MinConnectTimeout, MaxConnectTimeout, MinOutstandingConnects, max_MaxOutstandingConnects, MinQueuedConnects,
    max_MaxQueuedConnects, Millisecond, Second.
  repeat case_decide; (split; [try done; intros _; lia | intros ?; try lia; done]).
Qed.

(** Validation of connect options.  It accepts exactly the documented
    ranges, and the defaults are within them.  But it sees a timeout after the
    conversion from milliseconds: one of over nine million years overflows
    to five seconds and passes. *)
Theorem connect_options_validated (co : ConnectOptions) :
  (Validate co = Ret tt <->
     30 * Millisecond <= ConnectTimeout co <= 60 * Second /\
     1 <= MaxOutstandingConnects co <= 1000 /\ 1 <= MaxQueuedConnects co <= 5000) /\
  returns (Validate co) /\ Validate DefaultConnectOptions = Ret tt /\
  exists ms, 2 ^ 58 < ms /\ is_i64 ms /\ forall wild, exists o,
    LoadOptions wild {[lit "connectTimeoutMs" := VInt ms]} = Ret o /\
    ConnectTimeout (connectOptions o) = 5 * Second /\ Validate (connectOptions o) = Ret tt.
Proof.
  split; [exact (validated co)|]. split; [|split; [reflexivity|]].
  { unfold Validate, mbind, outcome_bind, validateConnectTimeout, validateOutstandingConnects, validateQueueConnects.
    by repeat case_decide. }
  exists (5000 + 2 ^ 58). split; [lia|]. split; [unfold is_sint; lia|]. intros wild.
  exists DefaultOptions. split; [vm_compute; reflexivity|]. done.
Qed.
