(* ===== verification/Heartbeat.v ===== *)
(** * Heartbeats (src/heartbeater.go)

    A heartbeater is a transform handler of a channel: it adds a heartbeat
    header to an outgoing message when one is due, and a response header when a
    received heartbeat is still unanswered.  What it sees is queued as events
    for the pulse loop, which makes the callbacks and sends standalone messages
    when there is no traffic.  Times are nanoseconds in an [int64].

    The operations are first given as run alone; the module [Steps] splits
    [Tx] and the event handler at their accesses to the unanswered heartbeat, and
    [Beats] splits them at all accesses.

    Theorems: a heartbeat makes the round trip to the peer and back; the event queue is bounded,
    nothing blocks and no tick is lost; what concurrent transmissions can do to
    an unanswered heartbeat; loading of heartbeat options, and that a check
    interval that is not positive crashes the loop. *)

From S2P Require Import Prelude Headers Wire Options.

(** ** Options *)

Definition DefaultHeartbeatSendInterval : Z := 10 * Second.
Definition DefaultHeartbeatCheckInterval : Z := Second.
Definition DefaultHeartbeatTimeout : Z := 30 * Second.

Record HeartbeatOptions : Type := mkHeartbeatOptions {
  SendInterval : Z;
  CheckInterval : Z;
  CloseUnresponsiveTimeout : Z;
  src : config
}.

(** A nil pointer is [None]. *)
Definition GetDuration (self : HeartbeatOptions) (name : string) : outcome (option Z) :=
  match src self !! lit name with
  | Some (VString strVal) =>
      match ParseDuration strVal with
      | Ret d => Ret (Some d)
      | Err e => Err (errors_Wrap e (lit "invalid value for " ++ lit name))
      | Panic => Panic
      | OutOfFuel => OutOfFuel
      end
  | Some _ => Err (errors_New (lit "invalid (non-string) value for " ++ lit name))
  | None => Ret None
  end.

Definition DefaultHeartbeatOptions : HeartbeatOptions :=
  mkHeartbeatOptions DefaultHeartbeatSendInterval DefaultHeartbeatCheckInterval DefaultHeartbeatTimeout ∅.

Definition LoadHeartbeatOptions (data : config) : outcome HeartbeatOptions :=
  let options := mkHeartbeatOptions DefaultHeartbeatSendInterval DefaultHeartbeatCheckInterval
                   DefaultHeartbeatTimeout data in
  value ← GetDuration options "sendInterval";
  let options := mkHeartbeatOptions (default (SendInterval options) value) (CheckInterval options)
                   (CloseUnresponsiveTimeout options) data in
  value ← GetDuration options "checkInterval";
  let options := mkHeartbeatOptions (SendInterval options) (default (CheckInterval options) value)
                   (CloseUnresponsiveTimeout options) data in
  value ← GetDuration options "closeUnresponsiveTimeout";
  Ret (mkHeartbeatOptions (SendInterval options) (CheckInterval options)
         (default (CloseUnresponsiveTimeout options) value) data).

(** ** Data *)

Inductive heartbeatEvent : Type :=
  | heartbeatTxEvent (ts : Z)
  | heartbeatRxEvent (ts : Z)
  | heartbeatRespTxEvent (ts : Z)
  | heartbeatRespRxEvent (ts : Z)
  | handleUnresponded.

#[global] Instance heartbeatEvent_eq_dec : EqDecision heartbeatEvent.
Proof. solve_decision. Defined.

(** What the heartbeater does to its surroundings: the callbacks, the messages
    it sends, and the timers it starts. *)
Inductive output : Type :=
  | HeartbeatTx (ts : Z)
  | HeartbeatRx (ts : Z)
  | HeartbeatRespTx (ts : Z)
  | HeartbeatRespRx (ts : Z)
  | CheckHeartBeat
  | Standalone (m : Message) (timeout : Z) (waits : bool)
  | AfterFunc (delay : Z).

(** [ticker] is the interval of the running ticker; [reconfigC] has room for
    one value and [events] for four. *)
Record heartbeater : Type := mkHeartbeater {
  lastHeartbeatTx : Z;
  heartBeatIntervalNs : Z;
  unrespondedHeartbeat : Z;
  events : list heartbeatEvent;
  reconfigC : list Z;
  ticker : Z;
  outputs : list output
}.

Definition set_last (t : Z) (h : heartbeater) : heartbeater :=
  mkHeartbeater t (heartBeatIntervalNs h) (unrespondedHeartbeat h) (events h) (reconfigC h) (ticker h) (outputs h).
Definition set_interval (i : Z) (h : heartbeater) : heartbeater :=
  mkHeartbeater (lastHeartbeatTx h) i (unrespondedHeartbeat h) (events h) (reconfigC h) (ticker h) (outputs h).
Definition set_unresponded (t : Z) (h : heartbeater) : heartbeater :=
  mkHeartbeater (lastHeartbeatTx h) (heartBeatIntervalNs h) t (events h) (reconfigC h) (ticker h) (outputs h).
Definition set_events (es : list heartbeatEvent) (h : heartbeater) : heartbeater :=
  mkHeartbeater (lastHeartbeatTx h) (heartBeatIntervalNs h) (unrespondedHeartbeat h) es (reconfigC h) (ticker h) (outputs h).
Definition set_reconfig (c : list Z) (h : heartbeater) : heartbeater :=
  mkHeartbeater (lastHeartbeatTx h) (heartBeatIntervalNs h) (unrespondedHeartbeat h) (events h) c (ticker h) (outputs h).
Definition set_ticker (i : Z) (h : heartbeater) : heartbeater :=
  mkHeartbeater (lastHeartbeatTx h) (heartBeatIntervalNs h) (unrespondedHeartbeat h) (events h) (reconfigC h) i (outputs h).
Definition put (o : output) (h : heartbeater) : heartbeater :=
  mkHeartbeater (lastHeartbeatTx h) (heartBeatIntervalNs h) (unrespondedHeartbeat h) (events h) (reconfigC h) (ticker h)
    (outputs h ++ [o]).

(** ** Operations *)

(** What [ConfigureHeartbeat] makes, before its pulse loop starts. *)
Definition ConfigureHeartbeat (heartbeatInterval : Z) : heartbeater :=
  mkHeartbeater 0 heartbeatInterval 0 [] [] 0 [].

Definition queueEvent (event : heartbeatEvent) (h : heartbeater) : heartbeater :=
  if decide (length (events h) < 4)%nat then set_events (events h ++ [event]) h else h.

(** [UpdateIntervals]: drain what the loop has not consumed, then send. *)
Definition UpdateIntervals (sendInterval checkInterval : Z) (h : heartbeater) : heartbeater :=
  let h := set_interval sendInterval h in
  let h := set_reconfig (drop 1 (reconfigC h)) h in
  if decide (length (reconfigC h) < 1)%nat then set_reconfig (reconfigC h ++ [checkInterval]) h else h.

Definition Rx (m : Message) (h : heartbeater) : heartbeater :=
  let h := match MessageHeader.GetUint64Header m HeartbeatHeader with
           | (val, true) => queueEvent (heartbeatRxEvent (int64 val)) h
           | (_, false) => h
           end in
  match MessageHeader.GetUint64Header m HeartbeatResponseHeader with
  | (val, true) => queueEvent (heartbeatRespRxEvent (int64 val)) h
  | (_, false) => h
  end.

(** The two halves of [Tx]. *)
Definition tx_heartbeat (now : Z) (m : Message) (h : heartbeater) : Message * heartbeater :=
  if decide (heartBeatIntervalNs h < int64 (now - lastHeartbeatTx h))
  then (MessageHeader.PutUint64Header HeartbeatHeader (uint64 now) m,
        queueEvent (heartbeatTxEvent now) (set_last now h))
  else (m, h).

Definition tx_response (now : Z) (m : Message) (h : heartbeater) : Message * heartbeater :=
  if decide (unrespondedHeartbeat h ≠ 0)
  then (MessageHeader.PutUint64Header HeartbeatResponseHeader (uint64 (unrespondedHeartbeat h)) m,
        queueEvent (heartbeatRespTxEvent now) (set_unresponded 0 h))
  else (m, h).

(** A transmission that no other overlaps; [Beats.tx_step] has its accesses one
    by one. *)
Definition Tx (now : Z) (m : Message) (h : heartbeater) : Message * heartbeater :=
  if decide (ContentType m = ContentTypeRaw) then (m, h)
  else let '(m, h) := tx_heartbeat now m h in tx_response now m h.

Definition sendHeartbeat (h : heartbeater) : heartbeater :=
  put (Standalone (NewMessage ContentTypeHeartbeat []) Second true) h.

Definition sendHeartbeatIfQueueFree (h : heartbeater) : heartbeater :=
  put (Standalone (NewMessage ContentTypeHeartbeat []) (10 * Millisecond) false) h.

(** [event.handle(self)] *)
Definition handle (event : heartbeatEvent) (h : heartbeater) : heartbeater :=
  match event with
  | heartbeatTxEvent ts => put (HeartbeatTx ts) h
  | heartbeatRxEvent ts => put (AfterFunc (2 * Millisecond)) (put (HeartbeatRx ts) (set_unresponded ts h))
  | heartbeatRespTxEvent ts => put (HeartbeatRespTx ts) h
  | heartbeatRespRxEvent ts => put (HeartbeatRespRx ts) h
  | handleUnresponded => if decide (unrespondedHeartbeat h ≠ 0) then sendHeartbeatIfQueueFree h else h
  end.

(** The function the timer of a received heartbeat runs. *)
Definition timer (h : heartbeater) : heartbeater := queueEvent handleUnresponded h.

(** *** The pulse loop *)

(** The ready case the loop takes. *)
Inductive pulse_choice : Type := PTick (tick : Z) | PEvent | PReconfig.

(** One round when nothing comes between its accesses ([Beats.pulse_step] takes
    the two of a received heartbeat apart); [OutOfFuel] for a case that is not
    ready. *)
Definition pulse_round (c : pulse_choice) : ST heartbeater unit := fun h =>
  match c with
  | PTick now =>
      let h := if decide (heartBeatIntervalNs h < int64 (now - lastHeartbeatTx h)) then sendHeartbeat h else h in
      (Ret tt, put CheckHeartBeat h)
  | PEvent =>
      match events h with
      | e :: rest => (Ret tt, handle e (set_events rest h))
      | [] => (OutOfFuel, h)
      end
  | PReconfig =>
      match reconfigC h with
      | i :: rest =>
          let h := set_reconfig rest h in
          (Ret tt, if decide (0 < i) then set_ticker i h else h)
      | [] => (OutOfFuel, h)
      end
  end.

(** [time.NewTicker], which panics unless the interval is positive. *)
Definition start_ticker (checkInterval : Z) : ST heartbeater unit := fun h =>
  if decide (0 < checkInterval) then (Ret tt, set_ticker checkInterval h) else (Panic, h).

(** The loop: the rounds before the channel is closed. *)
Fixpoint pulse_rounds (cs : list pulse_choice) : ST heartbeater unit :=
  match cs with
  | [] => mret tt
  | c :: cs' => _ ← pulse_round c; pulse_rounds cs'
  end.

Definition pulse (checkInterval : Z) (cs : list pulse_choice) : ST heartbeater unit :=
  _ ← start_ticker checkInterval; pulse_rounds cs.

(** ** Interleavings of the unanswered heartbeat

    Several send loops may run [Tx] at once, and the pulse loop handles events
    meanwhile.  A transmission first loads the unanswered heartbeat and, if
    there is one, later puts the response on its message and stores zero. *)
Module Steps.

(** [received] and [responded] are histories; [lost] are the heartbeats that a
    store of zero overwrote although they had not been loaded by it. *)
Record state : Type := mkState {
  unresponded : Z;
  loaded : list Z;
  received : list Z;
  responded : list Z;
  lost : list Z
}.

Inductive step : Type :=
  | Receive (ts : Z)          (* heartbeatRxEvent.handle: Store(ts) *)
  | Load                      (* Tx: Load() *)
  | Respond (i : nat).        (* Tx: PutUint64Header and Store(0), by the i-th transmission under way *)

Definition exec_hb (st : state) (s : step) : state :=
  match s with
  | Receive ts => mkState ts (loaded st) (received st ++ [ts]) (responded st) (lost st)
  | Load =>
      if decide (unresponded st ≠ 0)
      then mkState (unresponded st) (loaded st ++ [unresponded st]) (received st) (responded st) (lost st)
      else st
  | Respond i =>
      match loaded st !! i with
      | Some v =>
          mkState 0 (delete i (loaded st)) (received st) (responded st ++ [v])
            (if decide (unresponded st ≠ 0 /\ unresponded st ≠ v) then lost st ++ [unresponded st] else lost st)
      | None => st
      end
  end.

Definition idle : state := mkState 0 [] [] [] [].

(** Nothing is answered that was not received, and the latest heartbeat is
    accounted for. *)
Record hb_inv (st : state) : Prop := {
  hi_loaded : forall v, v ∈ loaded st -> v ∈ received st;
  hi_responded : forall v, v ∈ responded st -> v ∈ received st;
  hi_current : unresponded st ≠ 0 -> last (received st) = Some (unresponded st);
  hi_last : forall t, last (received st) = Some t -> t ≠ 0 ->
    unresponded st = t \/ t ∈ responded st \/ t ∈ lost st
}.

Lemma exec_hb_inv st s : hb_inv st -> hb_inv (exec_hb st s).
Proof.
  intros [H1 H2 H3 H4]. destruct s as [ts| |i]; cbn.
  - split; cbn; [intros v Hv; apply elem_of_app; left; auto..| |].
    + intros _. apply last_snoc.
    + intros t. rewrite last_snoc. intros [= <-]. auto.
  - case_decide as Hu; [|done]. split; cbn; try done. intros v [Hv|Hv%list_elem_of_singleton]%elem_of_app; [auto|].
    subst v. eapply last_Some_elem_of. by apply H3.
  - destruct (loaded st !! i) as [v|] eqn:E; [|done]. split; cbn; try done.
    + intros v' Hv. apply H1. by eapply list_elem_of_delete_inv.
    + intros v' [Hv|Hv%list_elem_of_singleton]%elem_of_app; [auto|]. subst v'. apply H1.
      by eapply list_elem_of_lookup_2.
    + intros t Ht Hz. right. destruct (H4 t Ht Hz) as [Hu|[Hr|Hl]].
      * destruct (decide (t = v)) as [->|Hv]; [left; apply elem_of_app; right; by apply list_elem_of_singleton|].
        right. rewrite decide_True by (split; congruence). apply elem_of_app. right. rewrite Hu. by apply list_elem_of_singleton.
      * left. apply elem_of_app. by left.
      * right. case_decide; [|done]. apply elem_of_app. by left.
Qed.

Lemma run_hb_inv l st : hb_inv st -> hb_inv (foldl exec_hb st l).
Proof. revert st. induction l as [|s l IH]; intros st H; cbn; [done|]. apply IH. by apply exec_hb_inv. Qed.

End Steps.

(** ** Lemmas *)

Lemma queueEvent_frame e h :
  lastHeartbeatTx (queueEvent e h) = lastHeartbeatTx h /\
  heartBeatIntervalNs (queueEvent e h) = heartBeatIntervalNs h /\
  unrespondedHeartbeat (queueEvent e h) = unrespondedHeartbeat h /\
  reconfigC (queueEvent e h) = reconfigC h /\ ticker (queueEvent e h) = ticker h /\
  outputs (queueEvent e h) = outputs h.
Proof. unfold queueEvent. by case_decide. Qed.

Lemma queueEvent_events e h :
  events (queueEvent e h) = if decide (length (events h) < 4)%nat then events h ++ [e] else events h.
Proof. unfold queueEvent. by case_decide. Qed.

Lemma tx_response_frame now m h :
  lastHeartbeatTx (tx_response now m h).2 = lastHeartbeatTx h /\
  heartBeatIntervalNs (tx_response now m h).2 = heartBeatIntervalNs h /\
  (forall k, k ≠ HeartbeatResponseHeader -> Headers (tx_response now m h).1 !! k = Headers m !! k) /\
  ContentType (tx_response now m h).1 = ContentType m.
Proof.
  unfold tx_response. case_decide; [|done]. cbn [fst snd]. rewrite !(proj1 (queueEvent_frame _ _)).
  destruct (queueEvent_frame (heartbeatRespTxEvent now) (set_unresponded 0 h)) as (_ & -> & _).
  split_and!; try done. intros k Hk. cbn. unfold PutUint64Header. by rewrite lookup_insert_ne.
Qed.

(** The time of the heartbeat a message carries. *)
Definition beat (m : Message) : option Z :=
  match MessageHeader.GetUint64Header m HeartbeatHeader with (v, true) => Some v | _ => None end.

Definition is_time (t : Z) : Prop := 0 <= t < 2 ^ 63.

Lemma int64_diff a b : is_time a -> is_time b -> int64 (a - b) = a - b.
Proof. unfold is_time. intros Ha Hb. apply to_sint_id; [lia|]. unfold is_sint. lia. Qed.

Lemma uint64_time t : is_time t -> uint64 t = t.
Proof. unfold is_time. intros H. unfold to_uint. apply Z.mod_small. lia. Qed.

Lemma beat_lookup m m' : Headers m !! HeartbeatHeader = Headers m' !! HeartbeatHeader -> beat m = beat m'.
Proof. unfold beat, MessageHeader.GetUint64Header, GetUint64Header. by intros ->. Qed.

Lemma beat_put m t : is_time t -> beat (MessageHeader.PutUint64Header HeartbeatHeader (uint64 t) m) = Some t.
Proof.
  intros Ht. unfold beat, MessageHeader.GetUint64Header, MessageHeader.PutUint64Header. cbn [Headers with_Headers].
  fold (PutUint64Header HeartbeatHeader (uint64 t) (Headers m)). rewrite uint64_time by done.
  rewrite GetUint64Header_put; [done|]. unfold is_time, is_uint in *. lia.
Qed.

(** What [Tx] does with the heartbeat header. *)
Lemma Tx_beat now m h :
  is_time now -> is_time (lastHeartbeatTx h) -> Headers m !! HeartbeatHeader = None ->
  let r := Tx now m h in
  heartBeatIntervalNs r.2 = heartBeatIntervalNs h /\
  (if decide (ContentType m ≠ ContentTypeRaw /\ heartBeatIntervalNs h < now - lastHeartbeatTx h)
   then beat r.1 = Some now /\ lastHeartbeatTx r.2 = now
   else beat r.1 = None /\ lastHeartbeatTx r.2 = lastHeartbeatTx h).
Proof.
  intros Hn Hl Hm. cbn zeta. assert (beat m = None) as Hb.
  { unfold beat, MessageHeader.GetUint64Header, GetUint64Header. by rewrite Hm. }
  unfold Tx. destruct (decide (ContentType m = ContentTypeRaw)) as [Hr|Hr].
  { rewrite decide_False by (by intros [? _]). done. }
  unfold tx_heartbeat. rewrite int64_diff by done.
  destruct (decide (heartBeatIntervalNs h < now - lastHeartbeatTx h)) as [Hd|Hd].
  - rewrite decide_True by done.
    match goal with |- context [tx_response now ?m1 ?h1] => destruct (tx_response_frame now m1 h1) as (-> & -> & Hk & _) end.
    destruct (queueEvent_frame (heartbeatTxEvent now) (set_last now h)) as (-> & -> & _).
    split; [done|]. split; [|done]. etrans; [apply beat_lookup, Hk; done | by apply beat_put].
  - rewrite decide_False by (by intros [_ ?]).
    destruct (tx_response_frame now m h) as (-> & -> & Hk & _).
    split; [done|]. split; [|done]. etrans; [apply beat_lookup, Hk; done | done].
Qed.

(** The messages of a sequence of transmissions, each with its time. *)
Fixpoint tx_all (l : list (Z * Message)) (h : heartbeater) : list Message * heartbeater :=
  match l with
  | [] => ([], h)
  | (now, m) :: l' =>
      let '(m', h) := Tx now m h in
      let '(ms, h) := tx_all l' h in (m' :: ms, h)
  end.

(** Transmissions at times that do not go back, from [t] on, of messages that
    carry no heartbeat yet. *)
Fixpoint in_time (t : Z) (l : list (Z * Message)) : Prop :=
  match l with
  | [] => True
  | (now, m) :: l' => t <= now /\ is_time now /\ Headers m !! HeartbeatHeader = None /\ in_time now l'
  end.

(** Consecutive heartbeats are more than [i] apart. *)
Fixpoint spaced (i prev : Z) (beats : list Z) : Prop :=
  match beats with
  | [] => True
  | b :: beats' => i < b - prev /\ spaced i b beats'
  end.

(** At every transmission that is not raw, the latest heartbeat is at most [i]
    old; [prev] is the latest one before the list. *)
Fixpoint covered (i prev : Z) (l : list (Z * Message)) (ms : list Message) : Prop :=
  match l, ms with
  | (now, m) :: l', m' :: ms' =>
      let prev' := default prev (beat m') in
      (ContentType m ≠ ContentTypeRaw -> now - prev' <= i) /\ covered i prev' l' ms'
  | _, _ => True
  end.

Lemma spacing l : forall t h, is_time (lastHeartbeatTx h) -> 0 <= heartBeatIntervalNs h ->
  lastHeartbeatTx h <= t -> in_time t l ->
  let ms := (tx_all l h).1 in
  spaced (heartBeatIntervalNs h) (lastHeartbeatTx h) (omap beat ms) /\
  covered (heartBeatIntervalNs h) (lastHeartbeatTx h) l ms.
Proof.
  induction l as [|[now m] l IH]; intros t h Hl Hi Ht Hin; [done|].
  destruct Hin as (Hle & Hn & Hm & Hin). cbn [tx_all].
  destruct (Tx_beat now m h Hn Hl Hm) as [Ei Hb]. destruct (Tx now m h) as [m' h'] eqn:Etx. cbn [fst snd] in *.
  assert (is_time (lastHeartbeatTx h') /\ lastHeartbeatTx h' <= now) as [Hl' Ht'].
  { case_decide; destruct Hb as [_ ->]; [split; [done | lia] | split; [done | lia]]. }
  specialize (IH now h' Hl'). rewrite Ei in IH. specialize (IH Hi Ht' Hin).
  destruct (tx_all l h') as [ms h'']. cbn [fst] in *. cbn [omap list_omap covered].
  case_decide as Hd; destruct Hb as [Hb Hlast]; rewrite Hb; rewrite Hlast in IH; cbn.
  - destruct IH as [IH1 IH2]. split; [split; [lia | exact IH1]|]. split; [intros _; lia | exact IH2].
  - destruct IH as [IH1 IH2]. split; [exact IH1|]. split; [|exact IH2].
    intros Hr. destruct (decide (heartBeatIntervalNs h < now - lastHeartbeatTx h)); [|lia]. exfalso. by apply Hd.
Qed.

(** A tick when a heartbeat is overdue. *)
Lemma tick_overdue tick now h :
  is_time (lastHeartbeatTx h) -> is_time tick -> is_time now -> tick <= now ->
  exists h', pulse_round (PTick tick) h = (Ret tt, h') /\ lastHeartbeatTx h' = lastHeartbeatTx h /\
    (tick - lastHeartbeatTx h <= heartBeatIntervalNs h \/
     exists m, outputs h' = outputs h ++ [Standalone m Second true; CheckHeartBeat] /\
       beat (Tx now m h').1 = Some now).
Proof.
  intros Hl Htick Hnow Hle. cbn [pulse_round]. rewrite int64_diff by done.
  eexists. split; [reflexivity|]. case_decide as Hd; [|split; [done | left; lia]].
  split; [done|]. right. eexists. split; [cbn; by rewrite <- app_assoc|].
  set (h1 := put _ _). set (m := NewMessage _ _).
  destruct (Tx_beat now m h1 Hnow Hl) as [_ Hb]; [done|]. rewrite decide_True in Hb; [by apply Hb|].
  split; [done|]. cbn in *. lia.
Qed.

Lemma int64_time t : is_time t -> int64 t = t.
Proof. unfold is_time. intros H. apply to_sint_id; [lia|]. unfold is_sint. lia. Qed.

Lemma GetUint64_wire m k : k ≠ ReplyForHeader ->
  MessageHeader.GetUint64Header (wire_message m) k = MessageHeader.GetUint64Header m k.
Proof.
  intros Hk. unfold MessageHeader.GetUint64Header, GetUint64Header. by rewrite wire_header.
Qed.

Lemma put_get m k t : is_time t ->
  MessageHeader.GetUint64Header (MessageHeader.PutUint64Header k (uint64 t) m) k = (t, true).
Proof.
  intros Ht. rewrite uint64_time by done.
  apply (GetUint64Header_put k t (Headers m)). unfold is_time, is_uint in *. lia.
Qed.

(** The event of a received heartbeat comes first. *)
Lemma Rx_heartbeat m h t : MessageHeader.GetUint64Header m HeartbeatHeader = (t, true) -> is_time t ->
  events h = [] -> exists rest, events (Rx m h) = heartbeatRxEvent t :: rest.
Proof.
  intros Hm Ht He. unfold Rx. rewrite Hm, int64_time by done.
  assert (events (queueEvent (heartbeatRxEvent t) h) = [heartbeatRxEvent t]) as E1.
  { rewrite queueEvent_events, He. done. }
  destruct (MessageHeader.GetUint64Header m HeartbeatResponseHeader) as [v []]; [|eauto].
  rewrite queueEvent_events, E1. cbn. eauto.
Qed.

(** The event of a received response comes first or second. *)
Lemma Rx_response m h t : MessageHeader.GetUint64Header m HeartbeatResponseHeader = (t, true) -> is_time t ->
  events h = [] -> events (Rx m h) = [heartbeatRespRxEvent t] \/
    exists e, events (Rx m h) = [e; heartbeatRespRxEvent t].
Proof.
  intros Hm Ht He. unfold Rx. rewrite Hm, int64_time by done.
  destruct (MessageHeader.GetUint64Header m HeartbeatHeader) as [v []].
  - right. rewrite !queueEvent_events, He. cbn. eauto.
  - left. by rewrite queueEvent_events, He.
Qed.

Lemma handle_outputs e h : exists os, outputs (handle e h) = outputs h ++ os.
Proof.
  destruct e; cbn; try (case_decide); cbn; try (by eexists); [eexists; by rewrite <- app_assoc|].
  exists []. by rewrite app_nil_r.
Qed.

(** A heartbeat makes the round trip.  A heartbeat put on a message at
    time [t] arrives in the peer's headers; once the peer's pulse loop has
    handled the event, the peer's callback has heard of it and its next message
    that is not raw carries the response, with the same [t], and only that one
    does; back at the first side, two rounds of the pulse loop report the
    response with [t] to the callback. *)
Theorem heartbeat_roundtrip (m m2 m3 : Message) (t t2 t3 : Z) (a a' b : heartbeater) :
  is_time t -> t ≠ 0 -> is_time (lastHeartbeatTx a) ->
  ContentType m ≠ ContentTypeRaw -> ContentType m2 ≠ ContentTypeRaw ->
  Headers m !! HeartbeatHeader = None -> Headers m3 !! HeartbeatResponseHeader = None ->
  heartBeatIntervalNs a < t - lastHeartbeatTx a -> events b = [] -> events a' = [] ->
  let sent := (Tx t m a).1 in
  exists b1, pulse_round PEvent (Rx (wire_message sent) b) = (Ret tt, b1) /\
    outputs b1 = outputs b ++ [HeartbeatRx t; AfterFunc (2 * Millisecond)] /\
    let answer := Tx t2 m2 b1 in
    MessageHeader.GetUint64Header answer.1 HeartbeatResponseHeader = (t, true) /\
    Headers (Tx t3 m3 answer.2).1 !! HeartbeatResponseHeader = None /\
    exists cs a1, (cs = [PEvent] \/ cs = [PEvent; PEvent]) /\
      pulse_rounds cs (Rx (wire_message answer.1) a') = (Ret tt, a1) /\
      last (outputs a1) = Some (HeartbeatRespRx t).
Proof.
  intros Ht Ht0 Hl Hr1 Hr2 Hm Hm3 Hdue Hb Ha sent.
  destruct (Tx_beat t m a Ht Hl Hm) as [_ Hbeat]. rewrite decide_True in Hbeat by done. fold sent in Hbeat.
  destruct Hbeat as [Hbeat _].
  assert (MessageHeader.GetUint64Header sent HeartbeatHeader = (t, true)) as Hg.
  { unfold beat in Hbeat. destruct (MessageHeader.GetUint64Header sent HeartbeatHeader) as [v []]; [|done].
    by injection Hbeat as ->. }
  rewrite <- GetUint64_wire in Hg by done.
  destruct (Rx_heartbeat _ b t Hg Ht Hb) as [rest He].
  assert (outputs (Rx (wire_message sent) b) = outputs b) as Ho.
  { unfold Rx. repeat case_match; rewrite ?(proj2 (proj2 (proj2 (proj2 (proj2 (queueEvent_frame _ _)))))); done. }
  set (br := Rx (wire_message sent) b) in *.
  exists (handle (heartbeatRxEvent t) (set_events rest br)). split; [cbn; by rewrite He|].
  split; [cbn; rewrite Ho; by rewrite <- app_assoc|].
  set (b1 := handle _ _). assert (unrespondedHeartbeat b1 = t) as Hu by done.
  set (answer := Tx t2 m2 b1).
  assert (exists mh hh, answer = (MessageHeader.PutUint64Header HeartbeatResponseHeader (uint64 t) mh,
    queueEvent (heartbeatRespTxEvent t2) (set_unresponded 0 hh))) as (mh & hh & Ea).
  { unfold answer, Tx. rewrite decide_False by done. unfold tx_heartbeat.
    case_decide; unfold tx_response; [|rewrite Hu, decide_True by done; eauto].
    destruct (queueEvent_frame (heartbeatTxEvent t2) (set_last t2 b1)) as (_ & _ & Eu & _). rewrite Eu.
    change (unrespondedHeartbeat (set_last t2 b1)) with t. rewrite decide_True by done. eauto. }
  cbn zeta. rewrite Ea. cbn [fst snd]. split; [by apply put_get|]. split.
  { set (h2 := queueEvent _ _). assert (unrespondedHeartbeat h2 = 0) as Hz.
    { unfold h2. by destruct (queueEvent_frame (heartbeatRespTxEvent t2) (set_unresponded 0 hh)) as (_ & _ & -> & _). }
    clearbody h2. unfold Tx. case_decide; [done|]. unfold tx_heartbeat, tx_response.
    case_decide.
    - destruct (queueEvent_frame (heartbeatTxEvent t3) (set_last t3 h2)) as (_ & _ & -> & _).
      cbn [unrespondedHeartbeat set_last]. rewrite Hz. rewrite decide_False by (intros Hne; by apply Hne).
      cbn. by rewrite lookup_insert_ne.
    - rewrite Hz. by rewrite decide_False by (intros Hne; by apply Hne). }
  destruct (Rx_response (wire_message (MessageHeader.PutUint64Header HeartbeatResponseHeader (uint64 t) mh)) a' t)
    as [E|[e E]]; [by rewrite GetUint64_wire, put_get | done | done | |].
  - exists [PEvent]. eexists. split; [auto|]. cbn. unfold mbind, ST_bind. cbn. rewrite E.
    split; [reflexivity|]. cbn. apply last_snoc.
  - exists [PEvent; PEvent]. eexists. split; [auto|]. cbn. unfold mbind, ST_bind. cbn. rewrite E.
    set (h1 := handle e _). assert (events h1 = [heartbeatRespRxEvent t]) as E1
      by (unfold h1; destruct e; cbn; try done; by case_decide).
    rewrite E1. split; [reflexivity|]. cbn. apply last_snoc.
Qed.

Lemma heartbeat_roundtrip_witness :
  let m := NewMessage 7 [] in
  let h := ConfigureHeartbeat 10 in
  exists b1, pulse_round PEvent (Rx (wire_message (Tx 50 m h).1) h) = (Ret tt, b1) /\
    MessageHeader.GetUint64Header (Tx 60 m b1).1 HeartbeatResponseHeader = (50, true).
Proof.
  intros m h. destruct (heartbeat_roundtrip m m m 50 60 70 h h h) as (b1 & E & _ & H & _);
    try (unfold is_time; cbn; lia); try done.
  exists b1. split; [exact E | exact H].
Defined.

(** ** The heartbeater over time *)

(** One operation on a running heartbeater: a transmission, a receipt, a
    timer, a retuning or a round of the pulse loop. *)
Inductive hstep : heartbeater -> heartbeater -> Prop :=
  | hstep_tx now m h : hstep h (Tx now m h).2
  | hstep_rx m h : hstep h (Rx m h)
  | hstep_timer h : hstep h (timer h)
  | hstep_update s c h : hstep h (UpdateIntervals s c h)
  | hstep_pulse k h h' : pulse_round k h = (Ret tt, h') -> hstep h h'.

(** The channels stay within their capacity and the ticker runs. *)
Record hb_ok (h : heartbeater) : Prop := {
  ok_events : (length (events h) <= 4)%nat;
  ok_reconfig : (length (reconfigC h) <= 1)%nat;
  ok_ticker : 0 < ticker h
}.

Lemma queueEvent_ok e h : hb_ok h -> hb_ok (queueEvent e h).
Proof.
  intros [H1 H2 H3]. unfold queueEvent. case_decide; [|by split].
  split; cbn; [rewrite length_app; cbn; lia | done | done].
Qed.

Create HintDb heartbeat.
#[export] Hint Resolve queueEvent_ok : heartbeat.

Lemma put_ok o h : hb_ok h -> hb_ok (put o h).
Proof. intros []. by split. Qed.

#[export] Hint Resolve put_ok : heartbeat.

Lemma handle_ok e h : hb_ok h -> hb_ok (handle e h).
Proof.
  intros H. destruct e; cbn; auto with heartbeat.
  - apply put_ok, put_ok. destruct H. by split.
  - case_decide; [by apply put_ok | done].
Qed.

Lemma hstep_ok h h' : hstep h h' -> hb_ok h -> hb_ok h'.
Proof.
  intros Hs Hok. destruct Hs as [now m h|m h|h|s c h|k h h' E].
  - unfold Tx. case_decide; [done|]. unfold tx_heartbeat.
    assert (hb_ok (set_last now h)) as Hl by (destruct Hok; by split).
    assert (forall m h, hb_ok h -> hb_ok (tx_response now m h).2) as Hr.
    { intros m' h' Hh. unfold tx_response. case_decide; cbn; [apply queueEvent_ok; destruct Hh; by split | done]. }
    case_decide; apply Hr; auto with heartbeat.
  - unfold Rx. repeat case_match; auto with heartbeat.
  - by apply queueEvent_ok.
  - destruct Hok as [H1 H2 H3]. unfold UpdateIntervals. cbn zeta.
    assert (drop 1 (reconfigC (set_interval s h)) = []) as E.
    { cbn. apply drop_ge. lia. }
    rewrite E. rewrite decide_True by (cbn; lia). split; cbn; [done | lia | done].
  - destruct k as [tick| |]; cbn in E.
    + injection E as <-. case_decide; auto with heartbeat. apply put_ok, put_ok, Hok.
    + destruct (events h) as [|e rest] eqn:Ee; [done|]. injection E as <-. apply handle_ok.
      destruct Hok as [H1 H2 H3]. rewrite Ee in H1. split; cbn in *; [lia | done | done].
    + destruct (reconfigC h) as [|i rest] eqn:Er; [done|]. injection E as <-.
      destruct Hok as [H1 H2 H3]. rewrite Er in H2.
      assert (rest = []) as -> by (destruct rest; [done | cbn in H2; lia]).
      case_decide; split; cbn; first [done | lia].
Qed.

(** C36: a running heartbeater stays within its bounds.  In every state it can
    get into, the event queue holds at most four events and the reconfiguration
    channel at most one interval, and the ticker's interval is positive, so
    resetting it never panics; after [UpdateIntervals] the latest check
    interval is the one the loop will see, and it is adopted exactly if it is
    positive.  Starting the loop, however, panics if the check interval is not
    positive, and the options loader accepts such intervals. *)
Theorem heartbeater_bounded (i checkInterval : Z) (h h' : heartbeater) :
  start_ticker checkInterval (ConfigureHeartbeat i) = (Ret tt, h) -> rtc hstep h h' ->
  hb_ok h' /\
  (forall s c, exists h2, reconfigC (UpdateIntervals s c h') = [c] /\
     pulse_round PReconfig (UpdateIntervals s c h') = (Ret tt, h2) /\
     ticker h2 = (if decide (0 < c) then c else ticker h') /\ heartBeatIntervalNs h2 = s) /\
  (forall j cs, j <= 0 -> (pulse j cs (ConfigureHeartbeat i)).1 = Panic) /\
  exists o, LoadHeartbeatOptions {[lit "checkInterval" := VString (lit "0s")]} = Ret o /\
    forall cs, (pulse (CheckInterval o) cs (ConfigureHeartbeat (SendInterval o))).1 = Panic.
Proof.
  intros E Hr. unfold start_ticker in E. case_decide as Hc; [|done]. injection E as <-.
  assert (hb_ok h') as Hok.
  { assert (hb_ok (set_ticker checkInterval (ConfigureHeartbeat i))) as H0 by (split; cbn; lia).
    induction Hr; [done|]. apply IHHr. by eapply hstep_ok. }
  split; [done|]. split; [|split].
  - intros s c. pose proof (ok_reconfig h' Hok) as Hl.
    assert (reconfigC (UpdateIntervals s c h') = [c]) as E.
    { unfold UpdateIntervals. cbn zeta. assert (drop 1 (reconfigC (set_interval s h')) = []) as ->; [|done].
      cbn. apply drop_ge. lia. }
    eexists. split; [exact E|]. cbn [pulse_round]. rewrite E. split; [reflexivity|].
    assert (ticker (UpdateIntervals s c h') = ticker h' /\ heartBeatIntervalNs (UpdateIntervals s c h') = s) as [Et Ei]
      by (unfold UpdateIntervals; by case_decide).
    case_decide; done.
  - intros j cs Hle. unfold pulse, mbind, ST_bind, start_ticker. by rewrite decide_False by lia.
  - eexists. split; [vm_compute; reflexivity|]. intros cs. reflexivity.
Qed.

Lemma heartbeater_bounded_witness :
  exists h, start_ticker 5 (ConfigureHeartbeat 10) = (Ret tt, h) /\
    hb_ok (Rx (wire_message (Tx 50 (NewMessage 7 []) h).1) h).
Proof.
  eexists. split; [reflexivity|].
  refine (proj1 (heartbeater_bounded 10 5 _ _ eq_refl _)). apply rtc_once. constructor.
Defined.

(** Answers under concurrency.  However the transmissions of several send
    loops and the receipt of heartbeats interleave, only received heartbeats
    are answered, and the latest one is still marked unanswered, or was
    answered, or is one that a transmission's store of zero wiped out after it
    had answered an older one.  That does happen: a run exists in which the
    latest heartbeat is neither answered nor marked any more; and one heartbeat
    can be answered twice. *)
Theorem concurrent_answers (l : list Steps.step) :
  let st := foldl Steps.exec_hb Steps.idle l in
  (forall v, v ∈ Steps.responded st -> v ∈ Steps.received st) /\
  (forall t, last (Steps.received st) = Some t -> t ≠ 0 ->
     Steps.unresponded st = t \/ t ∈ Steps.responded st \/ t ∈ Steps.lost st) /\
  foldl Steps.exec_hb Steps.idle [Steps.Receive 1; Steps.Load; Steps.Receive 2; Steps.Respond 0] =
    Steps.mkState 0 [] [1; 2] [1] [2] /\
  foldl Steps.exec_hb Steps.idle [Steps.Receive 1; Steps.Load; Steps.Load; Steps.Respond 0; Steps.Respond 0] =
    Steps.mkState 0 [] [1] [1; 1] [].
Proof.
  intros st. assert (Steps.hb_inv st) as [H1 H2 H3 H4].
  { apply Steps.run_hb_inv. split; cbn; try done; intros v Hv; by apply elem_of_nil in Hv. }
  split; [exact H2|]. split; [exact H4|]. split; reflexivity.
Qed.

(** ** Lemmas: heartbeat options *)

Lemma GetDuration_spec o name :
  GetDuration o name =
    match src o !! lit name with
    | Some v => Some <$> load_duration name v
    | None => Ret None
    end.
Proof.
  unfold GetDuration, load_duration. destruct (src o !! lit name) as [[]|]; try done.
  by destruct (ParseDuration s).
Qed.

(** Heartbeat options are loaded field by field: each is the parsed duration
    under its name or the default, and the first that cannot be parsed, in the
    order of the fields, is the error. *)
Theorem heartbeat_options_loaded (data : config) :
  let get name := match data !! lit name with
                  | Some v => Some <$> load_duration name v
                  | None => Ret None
                  end in
  returns (LoadHeartbeatOptions data) /\
  LoadHeartbeatOptions data =
    (s ← get "sendInterval"; c ← get "checkInterval"; u ← get "closeUnresponsiveTimeout";
     Ret (mkHeartbeatOptions (default (10 * Second) s) (default Second c) (default (30 * Second) u) data)).
Proof.
  intros get. assert (forall name, returns (get name)) as Hr.
  { intros name. unfold get. destruct (data !! lit name) as [v|]; [|done].
    pose proof (load_duration_returns name v). by destruct (load_duration name v). }
  assert (LoadHeartbeatOptions data =
    (s ← get "sendInterval"; c ← get "checkInterval"; u ← get "closeUnresponsiveTimeout";
     Ret (mkHeartbeatOptions (default (10 * Second) s) (default Second c) (default (30 * Second) u) data))) as E.
  { unfold LoadHeartbeatOptions. rewrite GetDuration_spec. cbn [src]. fold (get "sendInterval").
    destruct (get "sendInterval"); cbn [mbind outcome_bind]; try done. rewrite GetDuration_spec. cbn [src].
    fold (get "checkInterval"). destruct (get "checkInterval"); cbn [mbind outcome_bind]; try done.
    rewrite GetDuration_spec. cbn [src]. fold (get "closeUnresponsiveTimeout").
    by destruct (get "closeUnresponsiveTimeout"). }
  rewrite E. split; [|done].
  pose proof (Hr "sendInterval"). destruct (get "sendInterval"); try done. cbn.
  pose proof (Hr "checkInterval"). destruct (get "checkInterval"); try done. cbn.
  pose proof (Hr "closeUnresponsiveTimeout"). by destruct (get "closeUnresponsiveTimeout").
Qed.
