(* ===== verification/Latency.v ===== *)
(** * Latency probes (src/latency/latency.go)

    Two ways to measure latency over a channel.  [ProbeLatencyConfigurable]
    sends requests and takes the time of their replies, which [LatencyHandler]
    sends, at most one at a time.  A [latencyProbe] sends at an interval either
    a tracker, which measures the time until it is written, or a round-trip
    message, which the peer's [Responder] answers.  Send times travel in the
    reflected header.  Times are nanoseconds.

    Theorems: at most one response is being sent, and how one can be skipped;
    a probe reports the time between its write and its receipt; the probe loop
    ends with its exit handler, once; how often a round trip is measured. *)

From S2P Require Import Prelude Senders Headers Wire Handshake Heartbeat.

Definition probeTime : Z := ReflectedHeader.

(** ** The handler that answers with a result *)

(** Every received message runs [AddInt32(1)]; those that see a count of two or
    more undo it in a second step.  [running] are the response goroutines. *)
Module LatencyHandler.

Record state : Type := mkState {
  responses : Z;
  undo : nat;             (* calls that still have to undo their increment *)
  running : list Message; (* messages being answered *)
  skipped : list Message
}.

Inductive step : Type :=
  | HandleReceive (msg : Message)   (* the increment and what its result decides *)
  | Undo                            (* the decrement of a call that gave up *)
  | Finish (i : nat).               (* the deferred decrement of a goroutine *)

Definition exec_handler (st : state) (s : step) : state :=
  match s with
  | HandleReceive msg =>
      let count := int32 (responses st + 1) in
      if decide (count < 2)
      then mkState count (undo st) (running st ++ [msg]) (skipped st)
      else mkState count (S (undo st)) (running st) (skipped st ++ [msg])
  | Undo =>
      match undo st with
      | O => st
      | S n => mkState (int32 (responses st - 1)) n (running st) (skipped st)
      end
  | Finish i =>
      match running st !! i with
      | Some _ => mkState (int32 (responses st - 1)) (undo st) (delete i (running st)) (skipped st)
      | None => st
      end
  end.

Definition idle : state := mkState 0 0 [] [].

(** The response to a probe. *)
Definition response (msg : Message) : Message := ReplyTo (NewResult true []) msg.

End LatencyHandler.

(** ** The probe that sends requests *)

(** One round of the loop: whether the channel is closed after the sleep, the
    time the request is made, what [SendForReply] returns, whether the channel
    is closed then, and the time after the reply. *)
Record probe_round : Type := mkRound {
  closed_before : bool;
  sent_at : Z;
  reply : outcome Message;
  closed_after : bool;
  received_at : Z
}.

Inductive probe_output : Type :=
  | ResultHandler (resultNanos : Z)
  | TimeoutHandler
  | ExitHandler.

Record ProbeConfig : Type := mkProbeConfig {
  has_ResultHandler : bool;
  has_TimeoutHandler : bool;
  has_ExitHandler : bool
}.

Definition request (now : Z) : Message :=
  MessageHeader.PutUint64Header probeTime (uint64 now) (NewMessage ContentTypeLatencyType []).

(** What a round reports. *)
Definition probe_report (config : ProbeConfig) (r : probe_round) : list probe_output :=
  match reply r with
  | Ret response =>
      match MessageHeader.GetUint64Header response probeTime with
      | (sentTime, true) =>
          if has_ResultHandler config then [ResultHandler (int64 (received_at r - int64 sentTime))] else []
      | (_, false) => []
      end
  | Err err => if IsTimeout err && has_TimeoutHandler config then [TimeoutHandler] else []
  | Panic | OutOfFuel => []
  end.

(** The loop over the rounds, with whether it has returned. *)
Fixpoint probe_loop (config : ProbeConfig) (rounds : list probe_round) : list probe_output * bool :=
  match rounds with
  | [] => ([], false)
  | r :: rounds' =>
      if closed_before r then ([], true)
      else
        match reply r with
        | Err _ =>
            if closed_after r then ([], true)
            else let '(os, b) := probe_loop config rounds' in (probe_report config r ++ os, b)
        | _ => let '(os, b) := probe_loop config rounds' in (probe_report config r ++ os, b)
        end
  end.

Definition ProbeLatencyConfigurable (config : ProbeConfig) (rounds : list probe_round)
    : list probe_output * bool :=
  let '(os, returned) := probe_loop config rounds in
  (os ++ (if returned && has_ExitHandler config then [ExitHandler] else []), returned).

(** ** The probe on an interval *)

Inductive latency_type : Type := RoundTripType | BeforeSendType.

Inductive probe_sendable : Type :=
  | RoundTripLatency (msg : Message)
  | SendTimeTracker (StartTime : Z).

(** [roundTripFreq] and [count] have eight bits. *)
Record latencyProbe : Type := mkProbe { roundTripFreq : Z; count : Z }.

(** [HandleReceive]: what the handler is called with. *)
Definition latencyProbe_HandleReceive (m : Message) (now : Z) : option (latency_type * Z) :=
  match MessageHeader.GetUint64Header m probeTime with
  | (sentTime, true) => Some (RoundTripType, int64 (now - int64 sentTime))
  | (_, false) => None
  end.

(** [run]: what it sends, and whether it runs again after the interval. *)
Definition run (closed : bool) (now : Z) (sendErr : option error) (closedAfter : bool) (self : latencyProbe)
    : option probe_sendable * bool * latencyProbe :=
  if closed then (None, false, self)
  else
    let '(sendable, self) :=
      if decide (count self = roundTripFreq self)
      then (RoundTripLatency (NewMessage ContentTypeLatencyType []), mkProbe (roundTripFreq self) 0)
      else (SendTimeTracker now, self) in
    if bool_decide (is_Some sendErr) && closedAfter then (Some sendable, false, self)
    else (Some sendable, true, mkProbe (roundTripFreq self) (to_uint 8 (count self + 1))).

(** [NotifyBeforeWrite]: the message to write, or the time until the write. *)
Definition NotifyBeforeWrite (s : probe_sendable) (now : Z) : probe_sendable * option (latency_type * Z) :=
  match s with
  | RoundTripLatency msg =>
      (RoundTripLatency (MessageHeader.PutUint64Header probeTime (uint64 now) msg), None)
  | SendTimeTracker start => (s, Some (BeforeSendType, now - start))
  end.

(** ** The responder *)

(** [responseChannel] has room for one response. *)
Definition Responder_HandleReceive (msg : Message) (responseChannel : list Message) : list Message :=
  match Headers msg !! probeTime with
  | Some sentTime =>
      let resp := with_Headers (<[probeTime := sentTime]>) (NewMessage ContentTypeLatencyResponseType []) in
      if decide (length responseChannel < 1)%nat then responseChannel ++ [resp] else responseChannel
  | None => responseChannel
  end.

(** The loop that sends responses: what comes out of the channel, or a tick. *)
Inductive responder_case : Type :=
  | RSend (sendErr : option error) (closed : bool)
  | RTick (closed : bool).

(** One case: the response sent, whether the loop goes on, and the channel
    after it; [None] when the case is not ready. *)
Definition responseSender_case (c : responder_case) (responseChannel : list Message)
    : option (list Message * bool * list Message) :=
  match c with
  | RSend err closed =>
      match responseChannel with
      | response :: rest => Some ([response], negb (bool_decide (is_Some err) && closed), rest)
      | [] => None
      end
  | RTick closed => Some ([], negb closed, responseChannel)
  end.

(** ** Lemmas *)

(** The counter is what is running or still to be undone. *)
Lemma handler_inv l :
  Z.of_nat (length l) < 2 ^ 31 - 1 ->
  let st := foldl LatencyHandler.exec_handler LatencyHandler.idle l in
  LatencyHandler.responses st = Z.of_nat (length (LatencyHandler.running st)) + Z.of_nat (LatencyHandler.undo st) /\
  (length (LatencyHandler.running st) <= 1)%nat /\
  Z.of_nat (length (LatencyHandler.running st)) + Z.of_nat (LatencyHandler.undo st) <= Z.of_nat (length l).
Proof.
  induction l as [|s l IH] using rev_ind; [intros _; cbn; repeat split; lia|]. rewrite length_app. cbn [length]. intros Hl.
  destruct IH as (H1 & H2 & H3); [lia|]. cbn zeta in *. rewrite foldl_snoc.
  set (st := foldl _ _ l) in *. clearbody st. destruct st as [n u r k]. cbn [LatencyHandler.responses LatencyHandler.running LatencyHandler.undo] in *.
  assert (forall z, - 2 ^ 31 <= z < 2 ^ 31 -> int32 z = z) as Hi by (intros z Hz; apply to_sint_id; [lia | exact Hz]).
  destruct s as [msg| |i]; cbn.
  - rewrite Hi by lia. case_decide; cbn; rewrite ?length_app; cbn; repeat split; lia.
  - destruct u as [|u]; cbn; [lia|]. rewrite Hi by lia. repeat split; lia.
  - destruct (r !! i) as [m|] eqn:E; cbn; [|lia]. rewrite Hi by lia.
    pose proof (length_delete r i ltac:(eauto)) as Hd. pose proof (lookup_lt_Some _ _ _ E). repeat split; lia.
Qed.

Lemma ReplyTo_reflected m o : Headers (ReplyTo m o) !! ReflectedHeader =
  match Headers o !! ReflectedHeader with Some v => Some v | None => Headers m !! ReflectedHeader end.
Proof.
  unfold ReplyTo. destruct (Headers o !! ReflectedHeader); cbn; [by rewrite lookup_insert_eq | done].
Qed.

(** The probe's counter before its [n]-th run, when the channel stays open. *)
Definition count_at (freq : Z) (n : nat) : Z :=
  if decide (freq = 0) then Z.of_nat n mod 256
  else if decide (n = 0%nat) then 0 else (Z.of_nat n - 1) mod freq + 1.

Fixpoint runs (n : nat) (p : latencyProbe) : latencyProbe :=
  match n with O => p | S n' => (run false 0 None false (runs n' p)).2 end.

Lemma runs_count freq n : 0 <= freq < 256 -> runs n (mkProbe freq 0) = mkProbe freq (count_at freq n).
Proof.
  intros Hf. induction n as [|n IH].
  - cbn. f_equal. unfold count_at. case_decide; [by rewrite Zmod_0_l | done].
  - cbn [runs]. rewrite IH. unfold run. cbn [count roundTripFreq]. unfold count_at, to_uint.
    replace (2 ^ 8) with 256 by reflexivity.
    destruct (decide (freq = 0)) as [->|Hz].
    + case_decide as Hc; cbn; f_equal.
      * rewrite <- Hc, Zplus_mod_idemp_l. f_equal. lia.
      * rewrite Zplus_mod_idemp_l. f_equal. lia.
    + rewrite (decide_False (P := S n = 0%nat)) by lia.
      replace (Z.of_nat (S n) - 1) with (Z.of_nat n) by lia.
      destruct (decide (n = 0%nat)) as [->|Hn].
      * rewrite decide_False by lia. cbn. f_equal.
      * pose proof (Z.mod_pos_bound (Z.of_nat n - 1) freq ltac:(lia)) as Hb.
        assert (Z.of_nat n mod freq = (((Z.of_nat n - 1) mod freq) + 1) mod freq) as Em
          by (rewrite Zplus_mod_idemp_l; f_equal; lia).
        rewrite Em. case_decide as Hc; cbn; f_equal.
        -- rewrite Hc, Z_mod_same_full. done.
        -- rewrite (Z.mod_small _ 256) by lia. rewrite (Z.mod_small (_ + 1) freq) by lia. done.
Qed.

(** ** Properties *)

(** At most one latency response at a time.  Whatever messages are received
    and responses finish (fewer than [2^31 - 1] steps), the counter is the
    number of responses being sent plus the increments still to be undone, and
    at most one response is being sent.  With neither, the next probe is
    answered; but one that arrives while a skipped one has not undone its
    increment is skipped too, although no response is being sent. *)
Theorem one_response_at_a_time (l : list LatencyHandler.step) (msg : Message) :
  Z.of_nat (length l) < 2 ^ 31 - 1 ->
  let st := foldl LatencyHandler.exec_handler LatencyHandler.idle l in
  LatencyHandler.responses st = Z.of_nat (length (LatencyHandler.running st)) + Z.of_nat (LatencyHandler.undo st) /\
  (length (LatencyHandler.running st) <= 1)%nat /\
  (LatencyHandler.running st = [] -> LatencyHandler.undo st = 0%nat ->
   LatencyHandler.running (LatencyHandler.exec_handler st (LatencyHandler.HandleReceive msg)) = [msg]) /\
  (let st := foldl LatencyHandler.exec_handler LatencyHandler.idle
     [LatencyHandler.HandleReceive msg; LatencyHandler.HandleReceive msg; LatencyHandler.Finish 0;
      LatencyHandler.HandleReceive msg] in
   LatencyHandler.running st = [] /\ LatencyHandler.skipped st = [msg; msg]).
Proof.
  intros Hl. cbn zeta. destruct (handler_inv l Hl) as (H1 & H2 & _). split; [done|]. split; [done|].
  split; [|split; reflexivity]. intros Hr Hu. cbn zeta in H1. rewrite Hr, Hu in H1. cbn in H1.
  cbn [LatencyHandler.exec_handler]. rewrite H1, Hr. reflexivity.
Qed.

Lemma one_response_at_a_time_witness :
  (length (LatencyHandler.running (foldl LatencyHandler.exec_handler LatencyHandler.idle
     [LatencyHandler.HandleReceive (request 5); LatencyHandler.HandleReceive (request 6)])) <= 1)%nat.
Proof.
  refine (proj1 (proj2 (one_response_at_a_time
    [LatencyHandler.HandleReceive (request 5); LatencyHandler.HandleReceive (request 6)] (request 5) _))).
  cbn. lia.
Defined.

(** What a latency probe reports.  A round-trip message written at time
    [t], answered by the peer's responder and received back at time [now],
    makes the probe report a round trip of [now - t]; a request made at [t] and
    answered by the peer's handler with a result is a reply to the request, and
    the probe loop reports the time from [t] to its receipt.  Both travel
    through the wire format.  The loop calls its exit handler once, when it
    returns, and last, and reports at most one thing per round. *)
Theorem latency_measured (m : Message) (t now : Z) (config : ProbeConfig) (rounds : list probe_round) :
  is_time t -> is_time now ->
  let written := (NotifyBeforeWrite (RoundTripLatency m) t).1 in
  (forall w, written = RoundTripLatency w -> exists resp,
     Responder_HandleReceive (wire_message w) [] = [resp] /\
     latencyProbe_HandleReceive (wire_message resp) now = Some (RoundTripType, now - t)) /\
  (let answer := wire_message (LatencyHandler.response (wire_message (request t))) in
   probe_report (mkProbeConfig true true true) (mkRound false t (Ret answer) false now) = [ResultHandler (now - t)]) /\
  (let '(os, returned) := ProbeLatencyConfigurable config rounds in
   (length os <= length rounds + 1)%nat /\
   (returned = true -> has_ExitHandler config = true ->
    exists os', os = os' ++ [ExitHandler] /\ ExitHandler ∉ os') /\
   (returned = false -> ExitHandler ∉ os)).
Proof.
  intros Ht Hn. cbn zeta. split; [|split].
  - intros w [= <-]. unfold Responder_HandleReceive. rewrite wire_header by done.
    cbn [Headers MessageHeader.PutUint64Header with_Headers]. rewrite lookup_insert_eq. cbn.
    eexists. split; [reflexivity|]. unfold latencyProbe_HandleReceive. rewrite GetUint64_wire by done.
    assert (MessageHeader.GetUint64Header (with_Headers (<[probeTime := le_put 8 (uint64 t)]>)
      (NewMessage ContentTypeLatencyResponseType [])) probeTime = (t, true)) as ->
      by (apply (put_get (NewMessage ContentTypeLatencyResponseType []) probeTime t Ht)).
    by rewrite (int64_time t), int64_diff by done.
  - unfold probe_report. cbn [reply received_at]. rewrite GetUint64_wire by done.
    assert (MessageHeader.GetUint64Header (LatencyHandler.response (wire_message (request t))) probeTime =
      MessageHeader.GetUint64Header (request t) probeTime) as ->.
    { unfold MessageHeader.GetUint64Header, GetUint64Header.
      unfold LatencyHandler.response, probeTime. rewrite ReplyTo_reflected, wire_header by done.
      unfold request. cbn [Headers MessageHeader.PutUint64Header with_Headers]. unfold probeTime. by rewrite !lookup_insert_eq. }
    unfold request. rewrite put_get by done. cbn. by rewrite (int64_time t), int64_diff by done.
  - unfold ProbeLatencyConfigurable.
    assert ((length (probe_loop config rounds).1 <= length rounds)%nat /\ ExitHandler ∉ (probe_loop config rounds).1) as [Hlen Hno].
    { assert (forall r, (length (probe_report config r) <= 1)%nat /\ ExitHandler ∉ probe_report config r) as Hrep.
      { intros r. unfold probe_report. repeat case_match; cbn; (split; [lia|]); set_solver. }
      induction rounds as [|r rounds [IH1 IH2]]; cbn; [split; [lia | set_solver]|].
      destruct (Hrep r) as [Hl1 Hl2]. destruct (probe_loop config rounds) as [os b]. cbn in IH1, IH2.
      destruct (closed_before r); [split; cbn; [lia | set_solver]|].
      assert ((length (probe_report config r ++ os) <= S (length rounds))%nat /\ ExitHandler ∉ probe_report config r ++ os) as Happ.
      { rewrite length_app. split; [lia|]. rewrite elem_of_app. naive_solver. }
      destruct (reply r); try (destruct (closed_after r)); cbn; first [exact Happ | split; [lia | set_solver]]. }
    destruct (probe_loop config rounds) as [os b]. cbn in Hlen, Hno. split_and!.
    + rewrite length_app. destruct (_ && _); cbn; lia.
    + intros -> ->. exists os. done.
    + intros ->. cbn. by rewrite app_nil_r.
Qed.

Lemma latency_measured_witness :
  let answer := wire_message (LatencyHandler.response (wire_message (request 100))) in
  probe_report (mkProbeConfig true true true) (mkRound false 100 (Ret answer) false 130) = [ResultHandler 30].
Proof.
  refine (proj1 (proj2 (latency_measured (NewMessage ContentTypeLatencyType []) 100 130
    (mkProbeConfig true true true) [] _ _))); unfold is_time; lia.
Defined.

(** How often a round trip is measured.  On a channel that stays open, the
    [n]-th run of a probe with round-trip frequency [freq] (counting from zero)
    sends a round-trip message exactly when [n] is a positive multiple of
    [freq]; for the frequency zero the eight-bit counter makes it every 256th
    run, beginning with the first. *)
Theorem round_trip_frequency (freq now : Z) (n : nat) :
  0 <= freq < 256 ->
  let p := runs n (mkProbe freq 0) in
  (exists m again p', run false now None false p = (Some (RoundTripLatency m), again, p')) <->
  (if decide (freq = 0) then Z.of_nat n mod 256 = 0 else (0 < n)%nat /\ Z.of_nat n mod freq = 0).
Proof.
  intros Hf. cbn zeta. rewrite runs_count by done. unfold run. cbn [count roundTripFreq].
  assert ((exists m again p', (let '(sendable, self) :=
      if decide (count_at freq n = freq) then (RoundTripLatency (NewMessage ContentTypeLatencyType []), mkProbe freq 0)
      else (SendTimeTracker now, mkProbe freq (count_at freq n)) in
      if bool_decide (is_Some (@None error)) && false then (Some sendable, false, self)
      else (Some sendable, true, mkProbe (roundTripFreq self) (to_uint 8 (count self + 1)))) =
      (Some (RoundTripLatency m), again, p')) <-> count_at freq n = freq) as ->.
  { case_decide as Hc; cbn; split; try done; [intros _; by eexists _, _, _|]. intros (m & a & p' & [=]). }
  unfold count_at. destruct (decide (freq = 0)) as [->|Hz]; [done|].
  destruct (decide (n = 0%nat)) as [->|Hn]; [split; [lia | intros [? _]; lia]|].
  pose proof (Z.mod_pos_bound (Z.of_nat n - 1) freq ltac:(lia)) as Hb.
  assert (Z.of_nat n mod freq = (((Z.of_nat n - 1) mod freq) + 1) mod freq) as ->
    by (rewrite Zplus_mod_idemp_l; f_equal; lia).
  split.
  - intros ->. split; [lia | apply Z_mod_same_full].
  - intros [_ H]. destruct (decide ((Z.of_nat n - 1) mod freq + 1 = freq)); [done|].
    rewrite Z.mod_small in H by lia. lia.
Qed.
