(* ===== verification/Trace.v ===== *)
(** * Traces (src/trace.go, src/trace/read.go, src/trace/write.go, src/decoder.go)

    A trace handler is a peek handler that appends a record to a file when a
    channel connects or closes and for every message received or sent; a
    decoder adds a description of the messages of the channel's own types.
    [Read] gives the records of such a file to a handler.

    Protocol buffers ([proto.Marshal], [proto.Unmarshal]) and JSON
    ([json.Marshal]) are arguments of the definitions; the generated types
    (src/trace/pb/) appear with their fields.

    Theorems: what a trace handler writes is read back, record by record and in
    order; reading any file ends, and panics exactly at a record whose length
    field is negative; which messages are decoded, and that the text of a result
    is never part of it. *)

From S2P Require Import Prelude Headers Handshake.

(** ** The records (generated types) *)

Record ChannelState : Type := mkChannelState {
  cs_Timestamp : Z;
  cs_Identity : gostring;
  cs_Channel : gostring;
  cs_Connected : bool;
  cs_RemoteAddress : gostring
}.

Record ChannelMessage : Type := mkChannelMessage {
  cm_Timestamp : Z;
  cm_Identity : gostring;
  cm_Channel : gostring;
  cm_IsRx : bool;
  cm_ContentType : Z;
  cm_Sequence : Z;
  cm_ReplyFor : Z;
  cm_Length : Z;
  cm_Decode : bytes
}.

#[global] Instance ChannelState_eq_dec : EqDecision ChannelState.
Proof. solve_decision. Defined.
#[global] Instance ChannelMessage_eq_dec : EqDecision ChannelMessage.
Proof. solve_decision. Defined.

(** A record of a trace file. *)
Inductive trace_record : Type :=
  | TState (s : ChannelState)
  | TMessage (t : ChannelMessage).

Definition MessageType_ChannelStateType : Z := 0.
Definition MessageType_ChannelMessageType : Z := 1.

(** ** Decoders *)

(** The values of a description. *)
Inductive meta_value : Type :=
  | MString (s : gostring)
  | MBool (b : bool)
  | MUint64 (n : Z)
  | MHeaders (h : HeaderMap).

Abbreviation TraceMessageDecode := (gmap gostring meta_value).

Definition DecoderFieldName : gostring := lit "__decoder__".
Definition MessageFieldName : gostring := lit "__message__".
Definition DECODER : gostring := lit "channel".

Definition NewTraceMessageDecode (decoder message : gostring) : TraceMessageDecode :=
  <[MessageFieldName := MString message]> (<[DecoderFieldName := MString decoder]> ∅).

Section Decode.
Context (json_Marshal : TraceMessageDecode -> outcome bytes).

Definition MarshalTraceMessageDecode (d : TraceMessageDecode) : outcome bytes :=
  data ← json_Marshal d; Ret data.

Definition MarshalResult (d : TraceMessageDecode) : bytes * bool :=
  match json_Marshal d with Ret data => (data, true) | _ => ([], true) end.

(** The metadata of a message of one of the channel's types. *)
Definition metadata (msg : Message) : option TraceMessageDecode :=
  if decide (ContentType msg = ContentTypeHelloType) then
    let hello := UnmarshalHello msg in
    Some (<[lit "headers" := MHeaders (HelloHeaders hello)]>
         (<[lit "id" := MString (IdToken hello)]> (NewTraceMessageDecode DECODER (lit "Hello"))))
  else if decide (ContentType msg = ContentTypePingType) then
    Some (NewTraceMessageDecode DECODER (lit "Ping"))
  else if decide (ContentType msg = ContentTypeResultType) then
    let result := UnmarshalResult msg in
    let meta := <[lit "success" := MBool (Success result)]> (NewTraceMessageDecode DECODER (lit "Result")) in
    Some (match meta !! lit "message" with
          | Some value =>
              match value with
              | MString [] => meta
              | _ => <[lit "message" := MString (ResultMessage result)]> meta
              end
          | None => meta
          end)
  else if decide (ContentType msg = ContentTypeLatencyType) then
    Some (<[lit "probeTime" := MUint64 (MessageHeader.GetUint64Header msg 128).1]>
           (NewTraceMessageDecode DECODER (lit "Latency")))
  else if decide (ContentType msg = ContentTypeLatencyResponseType) then
    Some (<[lit "probeTime" := MUint64 (MessageHeader.GetUint64Header msg 128).1]>
           (NewTraceMessageDecode DECODER (lit "LatencyResponse")))
  else if decide (ContentType msg = ContentTypeHeartbeat) then
    Some (NewTraceMessageDecode DECODER (lit "Heartbeat"))
  else None.

(** [Decoder.Decode]: nothing is left of metadata that cannot be marshalled. *)
Definition Decode (msg : Message) : bytes * bool :=
  match metadata msg with
  | Some meta => (match MarshalTraceMessageDecode meta with Ret data => data | _ => [] end, true)
  | None => ([], false)
  end.

End Decode.

(** ** Writing *)

(** What a write to the file does: how many bytes it takes, and its error. *)
Record write_env : Type := mkWriteEnv { takes : nat; writeErr : option error }.

Section Trace.
Context (marshal_state : ChannelState -> outcome bytes) (marshal_message : ChannelMessage -> outcome bytes)
  (unmarshal_state : bytes -> outcome ChannelState) (unmarshal_message : bytes -> outcome ChannelMessage).

(** The frame of a record: its type, its length, its data. *)
Definition record_frame (messageType : Z) (data : bytes) : bytes :=
  le_put 4 messageType ++ le_put 4 (int32 (len data)) ++ data.

(** The end of both write functions; the state is the content of the file. *)
Definition write_frame (env : write_env) (messageType : Z) (data : bytes) : ST bytes unit := fun f =>
  let out := record_frame messageType data in
  let f := f ++ take (takes env) out in
  match writeErr env with
  | Some e => (Err e, f)
  | None => if decide (takes env ≠ length out) then (Err (errors_New (lit "short write")), f) else (Ret tt, f)
  end.

Definition WriteChannelState (env : write_env) (s : ChannelState) : ST bytes unit :=
  data ← lift (marshal_state s);
  write_frame env MessageType_ChannelStateType data.

Definition WriteChannelMessage (env : write_env) (t : ChannelMessage) : ST bytes unit :=
  data ← lift (marshal_message t);
  write_frame env MessageType_ChannelMessageType data.

(** ** The trace handler *)

Record TraceHandler : Type := mkTraceHandler {
  id : gostring;
  decoders : list (Message -> bytes * bool)
}.

(** [NewTraceHandler]; the state is what the file holds.  [opened] is the answer
    of [os.OpenFile], which empties a file that exists. *)
Definition NewTraceHandler (opened : option error) (name : gostring) : ST bytes TraceHandler := fun content =>
  match opened with
  | Some e => (Err e, content)
  | None => (Ret (mkTraceHandler name []), [])
  end.

Definition AddDecoder (decoder : Message -> bytes * bool) (h : TraceHandler) : TraceHandler :=
  mkTraceHandler (id h) (decoders h ++ [decoder]).

(** The description by the first decoder that knows the message. *)
Fixpoint first_decode (ds : list (Message -> bytes * bool)) (msg : Message) : bytes :=
  match ds with
  | [] => []
  | d :: ds' => match d msg with (str, true) => str | (_, false) => first_decode ds' msg end
  end.

(** The record of a message; [ReplyFor] never fails. *)
Definition message_record (h : TraceHandler) (label : gostring) (now : Z) (rx : bool) (msg : Message)
    : ChannelMessage :=
  mkChannelMessage now (id h) label rx (ContentType msg) (sequence msg)
    (match (ReplyFor msg).1 with Ret r => r | _ => 0 end)
    (int32 (len (Body msg))) (first_decode (decoders h) msg).

(** The callbacks of a peek handler; their write errors are only logged. *)
Inductive trace_op : Type :=
  | Connect (remoteAddress : gostring)
  | Rx (msg : Message)
  | Tx (msg : Message)
  | Close.

Definition op_record (h : TraceHandler) (label : gostring) (now : Z) (op : trace_op) : trace_record :=
  match op with
  | Connect remoteAddress => TState (mkChannelState now (id h) label true remoteAddress)
  | Rx msg => TMessage (message_record h label now true msg)
  | Tx msg => TMessage (message_record h label now false msg)
  | Close => TState (mkChannelState now (id h) label false [])
  end.

Definition write_record (env : write_env) (r : trace_record) : ST bytes unit :=
  match r with
  | TState s => WriteChannelState env s
  | TMessage t => WriteChannelMessage env t
  end.

Definition traced (h : TraceHandler) (label : gostring) (now : Z) (op : trace_op) (env : write_env)
    : ST bytes unit :=
  ignore (write_record env (op_record h label now op)).

(** ** Reading *)

(** How many bytes a read of the file at an offset gives; [None] is an error. *)
Context (gives : nat -> nat -> option nat).

(** [f.Read(buf)] with a buffer of [n] bytes: the bytes read; the state is the
    offset and what is left of the file. *)
Definition file_Read (n : nat) : ST (nat * bytes) bytes := fun '(off, rest) =>
  if decide (n = 0%nat) then (Ret [], (off, rest))
  else if decide (rest = []) then (Err io_EOF, (off, rest))
  else
    match gives off n with
    | None => (Err (net_Error 0), (off, rest))
    | Some k =>
        let got := take (Nat.max 1 (Nat.min n k)) rest in
        (Ret got, ((off + length got)%nat, drop (length got) rest))
    end.

Definition short_read : error := errors_New (lit "short read").

(** Four bytes as an [int32]. *)
Definition read_int32 : ST (nat * bytes) Z :=
  data ← file_Read 4;
  if decide (len data ≠ 4) then throw short_read else mret (int32 (le_get data)).

(** [make([]byte, len)] and the read into it. *)
Definition read_data (l : Z) : ST (nat * bytes) bytes :=
  if decide (l < 0) then lift Panic
  else
    data ← file_Read (Z.to_nat l);
    if decide (int32 (len data) ≠ l) then throw short_read else mret data.

Definition decode_record (messageType : Z) (data : bytes) : outcome trace_record :=
  if decide (messageType = MessageType_ChannelStateType)
  then cs ← unmarshal_state data; Ret (TState cs)
  else if decide (messageType = MessageType_ChannelMessageType)
  then cm ← unmarshal_message data; Ret (TMessage cm)
  else Err (errors_New (lit "unexpected message")).

(** What [Handle] answers. *)
Context (handle : trace_record -> option error).

(** The loop, with the records handled. *)
Fixpoint read_records (fuel : nat) (st : nat * bytes) : outcome unit * list trace_record :=
  match fuel with
  | O => (OutOfFuel, [])
  | S fuel' =>
      match read_int32 st with
      | (Err e, _) => (if decide (e = io_EOF) then Ret tt else Err e, [])
      | (Panic, _) => (Panic, [])
      | (OutOfFuel, _) => (OutOfFuel, [])
      | (Ret messageType, st) =>
          match (l ← read_int32; read_data l) st with
          | (Err e, _) => (Err e, [])
          | (Panic, _) => (Panic, [])
          | (OutOfFuel, _) => (OutOfFuel, [])
          | (Ret data, st) =>
              match decode_record messageType data with
              | Ret r =>
                  match handle r with
                  | Some e => (Err e, [r])
                  | None => let '(o, rs) := read_records fuel' st in (o, r :: rs)
                  end
              | Err e => (Err e, [])
              | Panic => (Panic, [])
              | OutOfFuel => (OutOfFuel, [])
              end
          end
      end
  end.

(** [Read] of a file that could be opened. *)
Definition Read (content : bytes) : outcome unit * list trace_record :=
  read_records (S (length content)) (0%nat, content).

End Trace.

(** ** Lemmas *)

Section Roundtrip.
Context (marshal_state : ChannelState -> outcome bytes) (marshal_message : ChannelMessage -> outcome bytes)
  (unmarshal_state : bytes -> outcome ChannelState) (unmarshal_message : bytes -> outcome ChannelMessage).

(** Protocol buffers read back what they wrote. *)
Definition proto_ok : Prop :=
  (forall s d, marshal_state s = Ret d -> unmarshal_state d = Ret s) /\
  (forall t d, marshal_message t = Ret d -> unmarshal_message d = Ret t).

Definition marshal_record (r : trace_record) : outcome bytes :=
  match r with TState s => marshal_state s | TMessage t => marshal_message t end.

Definition type_of (r : trace_record) : Z :=
  match r with TState _ => MessageType_ChannelStateType | TMessage _ => MessageType_ChannelMessageType end.

(** The record is written whole. *)
Definition whole_write (env : write_env) (r : trace_record) : Prop :=
  exists d, marshal_record r = Ret d /\ len d < 2 ^ 31 /\
    writeErr env = None /\ takes env = length (record_frame (type_of r) d).

Lemma write_record_whole env r f : whole_write env r ->
  exists d, marshal_record r = Ret d /\ len d < 2 ^ 31 /\
    write_record marshal_state marshal_message env r f = (Ret tt, f ++ record_frame (type_of r) d).
Proof using Type.
  intros (d & Hd & Hl & He & Ht). exists d. split; [done|]. split; [done|].
  assert (forall ty, type_of r = ty -> write_frame env ty d f = (Ret tt, f ++ record_frame ty d)) as Hw.
  { intros ty <-. unfold write_frame. rewrite He, Ht. rewrite decide_False by (by intros H).
    by rewrite firstn_all. }
  destruct r; cbn in Hd |- *; unfold WriteChannelState, WriteChannelMessage, mbind, ST_bind, lift; rewrite Hd; by apply Hw.
Qed.

Context (gives : nat -> nat -> option nat).

(** A read delivers all it can. *)
Definition full_reads : Prop := forall off n, gives off n = Some n.

Lemma file_Read_prefix off a b : full_reads ->
  file_Read gives (length a) (off, a ++ b) = (Ret a, ((off + length a)%nat, b)).
Proof using Type.
  intros Hf. unfold file_Read. destruct a as [|x a]; [by rewrite Nat.add_0_r|].
  rewrite decide_False by done. rewrite decide_False by done. rewrite Hf, Nat.min_id.
  rewrite (Nat.max_r 1) by (cbn; lia). by rewrite take_app_length, drop_app_length.
Qed.

Lemma read_int32_frame off z b : full_reads -> is_i32 z ->
  read_int32 gives (off, le_put 4 z ++ b) = (Ret z, ((off + 4)%nat, b)).
Proof using Type.
  intros Hf Hz. unfold read_int32, mbind, ST_bind.
  pose proof (file_Read_prefix off (le_put 4 z) b Hf) as E. rewrite length_le_put in E. rewrite E.
  rewrite decide_False by (rewrite len_le_put; lia). by rewrite le_put_i32.
Qed.

Context (handle : trace_record -> option error).

(** One record at the head of the file. *)
Lemma read_record fuel off r d b : proto_ok -> full_reads -> handle r = None ->
  marshal_record r = Ret d -> len d < 2 ^ 31 ->
  read_records unmarshal_state unmarshal_message gives handle (S fuel) (off, record_frame (type_of r) d ++ b) =
  let '(o, rs) := read_records unmarshal_state unmarshal_message gives handle fuel
                    ((off + 8 + length d)%nat, b) in (o, r :: rs).
Proof using Type.
  intros Hp Hf Hh Hd Hl. cbn [read_records]. unfold record_frame. rewrite <- !app_assoc.
  pose proof (len_nonneg d). assert (is_i32 (len d)) as Hi by (unfold is_sint; lia).
  rewrite (to_sint_id 32) by (lia || done).
  rewrite read_int32_frame by (try done; by destruct r).
  unfold mbind at 1, ST_bind at 1. rewrite read_int32_frame by done. unfold read_data.
  rewrite decide_False by lia. unfold mbind, ST_bind.
  replace (Z.to_nat (len d)) with (length d) by (unfold len; lia). rewrite file_Read_prefix by done.
  rewrite (to_sint_id 32) by (lia || done). rewrite decide_False by (by intros H').
  unfold mret, ST_ret.
  assert (decode_record unmarshal_state unmarshal_message (type_of r) d = Ret r) as ->.
  { destruct Hp as [H1 H2]. destruct r; cbn in *; unfold decode_record; cbn; unfold mbind, outcome_bind;
      [by rewrite (H1 _ _ Hd) | by rewrite (H2 _ _ Hd)]. }
  rewrite Hh. replace (off + 4 + 4 + length d)%nat with (off + 8 + length d)%nat by lia. done.
Qed.

(** The file of a sequence of records. *)
Inductive holds_records : list trace_record -> bytes -> Prop :=
  | holds_nil : holds_records [] []
  | holds_snoc rs f r d : holds_records rs f -> marshal_record r = Ret d -> len d < 2 ^ 31 ->
      holds_records (rs ++ [r]) (f ++ record_frame (type_of r) d).

Lemma holds_length rs f : holds_records rs f -> (length rs <= length f)%nat.
Proof using Type.
  induction 1 as [|rs f r d _ IH _ _]; [done|]. rewrite !length_app. unfold record_frame.
  rewrite !length_app, !length_le_put. cbn. lia.
Qed.

Lemma holds_cons rs f : holds_records rs f -> rs = [] /\ f = [] \/ exists r d rs' f', rs = r :: rs' /\
  f = record_frame (type_of r) d ++ f' /\ marshal_record r = Ret d /\ len d < 2 ^ 31 /\ holds_records rs' f'.
Proof using Type.
  induction 1 as [|rs f r d Hh IH Hd Hl]; [by left|]. right.
  destruct IH as [[-> ->]|(r0 & d0 & rs' & f' & -> & -> & Hd0 & Hl0 & Hh')].
  - exists r, d, [], []. cbn [app]. rewrite app_nil_r. split_and!; try done.
  - exists r0, d0, (rs' ++ [r]), (f' ++ record_frame (type_of r) d). rewrite <- app_assoc.
    split_and!; try done. by constructor.
Qed.

Lemma read_all fuel : forall off rs f, proto_ok -> full_reads -> (forall r, handle r = None) ->
  holds_records rs f -> (length rs < fuel)%nat ->
  read_records unmarshal_state unmarshal_message gives handle fuel (off, f) = (Ret tt, rs).
Proof using Type.
  induction fuel as [|fuel IH]; intros off rs f Hp Hf Hh Hr Hl; [lia|].
  destruct (holds_cons rs f Hr) as [[-> ->]|(r & d & rs' & f' & -> & -> & Hd & Hld & Hr')]; [reflexivity|].
  rewrite read_record by done. rewrite IH with (rs := rs'); [done..|]. cbn in Hl. lia.
Qed.

(** Good records before one whose length field is negative. *)
Lemma read_negative fuel : forall off rs f messageType l tail, proto_ok -> full_reads -> (forall r, handle r = None) ->
  holds_records rs f -> is_i32 messageType -> is_i32 l -> l < 0 -> (length rs < fuel)%nat ->
  read_records unmarshal_state unmarshal_message gives handle fuel
    (off, f ++ le_put 4 messageType ++ le_put 4 l ++ tail) = (Panic, rs).
Proof using Type.
  induction fuel as [|fuel IH]; intros off rs f ty l tail Hp Hf Hh Hr Hty Hi Hneg Hl; [lia|].
  destruct (holds_cons rs f Hr) as [[-> ->]|(r & d & rs' & f' & -> & -> & Hd & Hld & Hr')].
  - cbn [read_records app]. rewrite read_int32_frame by done. unfold mbind at 1, ST_bind at 1.
    rewrite read_int32_frame by done. unfold read_data. by rewrite decide_True.
  - rewrite <- app_assoc, read_record by done. rewrite IH with (rs := rs'); [done..|]. cbn in Hl. lia.
Qed.

End Roundtrip.

(** *** Any file *)

Section AnyFile.
Context (unmarshal_state : bytes -> outcome ChannelState) (unmarshal_message : bytes -> outcome ChannelMessage)
  (gives : nat -> nat -> option nat) (handle : trace_record -> option error).

Lemma file_Read_cases n off rest :
  (exists e, file_Read gives n (off, rest) = (Err e, (off, rest))) \/
  (exists got rest' off', file_Read gives n (off, rest) = (Ret got, (off', rest')) /\ rest = got ++ rest' /\
     (length got <= n)%nat).
Proof using Type.
  unfold file_Read. case_decide; [right; exists [], rest, off; split_and!; [done | done | cbn; lia]|].
  case_decide; [left; eauto|].
  destruct (gives off n) as [k|]; [|left; eauto]. right. eexists _, _, _. split; [reflexivity|].
  assert (Nat.max 1 (Nat.min n k) <= n)%nat as Hn by lia. revert Hn.
  generalize (Nat.max 1 (Nat.min n k)). intros j Hn. split; [|rewrite length_take; lia]. rewrite length_take, <- (take_drop j rest) at 1. f_equal.
  destruct (decide (j <= length rest)%nat).
  - by rewrite (Nat.min_l j) by lia.
  - rewrite !drop_ge by lia. done.
Qed.

Lemma read_int32_cases off rest :
  (exists e st, read_int32 gives (off, rest) = (Err e, st)) \/
  (exists b rest' off', read_int32 gives (off, rest) = (Ret (int32 (le_get b)), (off', rest')) /\
     rest = b ++ rest' /\ len b = 4).
Proof using Type.
  unfold read_int32, mbind, ST_bind.
  destruct (file_Read_cases 4 off rest) as [(e & ->)|(got & rest' & off' & -> & Hr & _)]; [left; eauto|].
  case_decide as Hl; [left; by eexists _, _|]. right. exists got, rest', off'. split; [done|]. split; [done|]. lia.
Qed.

(** Whole records, then one whose length field is negative. *)
Inductive negative_length : bytes -> Prop :=
  | negative_here messageType l tail : len messageType = 4 -> len l = 4 -> int32 (le_get l) < 0 ->
      negative_length (messageType ++ l ++ tail)
  | negative_later messageType l data rest : len messageType = 4 -> len l = 4 -> int32 (le_get l) = len data ->
      negative_length rest -> negative_length (messageType ++ l ++ data ++ rest).

Lemma read_records_total fuel : forall off rest,
  (forall d, returns (unmarshal_state d)) -> (forall d, returns (unmarshal_message d)) ->
  (length rest < fuel)%nat ->
  exists o rs, read_records unmarshal_state unmarshal_message gives handle fuel (off, rest) = (o, rs) /\
    (returns o \/ o = Panic /\ negative_length rest).
Proof using Type.
  induction fuel as [|fuel IH]; intros off rest Hs Hm Hl; [lia|]. cbn [read_records].
  destruct (read_int32_cases off rest) as [(e & st & ->)|(b1 & r1 & off1 & -> & Er1 & Hb1)].
  { case_decide; eexists _, _; (split; [reflexivity|]); by left. }
  unfold mbind at 1, ST_bind at 1.
  destruct (read_int32_cases off1 r1) as [(e & st & ->)|(b2 & r2 & off2 & -> & Er2 & Hb2)].
  { eexists _, _. split; [reflexivity|]. by left. }
  unfold read_data. case_decide as Hneg.
  { eexists _, _. split; [reflexivity|]. right. split; [done|]. rewrite Er1, Er2. by constructor. }
  unfold mbind at 1, ST_bind at 1.
  destruct (file_Read_cases (Z.to_nat (int32 (le_get b2))) off2 r2) as [(e & ->)|(d & r3 & off3 & -> & Er3 & Hld)].
  { eexists _, _. split; [reflexivity|]. by left. }
  case_decide as Hlen; [eexists _, _; split; [reflexivity|]; by left|]. unfold mret, ST_ret.
  assert (int32 (le_get b2) = len d) as Hd2.
  { rewrite <- Hlen at 1. apply to_sint_id; [lia|].
    pose proof (to_sint_range 32 (le_get b2) ltac:(lia)). unfold is_sint, len in *. lia. }
  assert (returns (decode_record unmarshal_state unmarshal_message (int32 (le_get b1)) d)) as Hd.
  { unfold decode_record. case_decide; [|case_decide; [|done]]; unfold mbind, outcome_bind;
      [specialize (Hs d); by destruct (unmarshal_state d) | specialize (Hm d); by destruct (unmarshal_message d)]. }
  destruct (decode_record _ _ _ _) as [r|e| |]; try done; [|eexists _, _; split; [reflexivity|]; by left].
  destruct (handle r); [eexists _, _; split; [reflexivity|]; by left|].
  assert (length r3 < fuel)%nat as Hl3.
  { subst rest r1 r2. rewrite !length_app in Hl. unfold len in Hb1. lia. }
  destruct (IH off3 r3 Hs Hm Hl3) as (o & rs & -> & Ho). eexists _, _. split; [reflexivity|].
  destruct Ho as [Ho|[-> Hn]]; [by left|]. right. split; [done|]. subst rest r1 r2. by apply negative_later.
Qed.

End AnyFile.

(** ** Properties *)

(** C39: traces are read back.  With protocol buffers that read what they
    wrote, and a file that takes and gives whole records, the file a new trace
    handler, with any decoders, has written (a record for every connect, receipt, transmission and
    close) is read without an error, and the records reach the reader's handler
    one by one, unchanged and in order, whatever the file held before. *)
Theorem trace_roundtrip (marshal_state : ChannelState -> outcome bytes)
    (marshal_message : ChannelMessage -> outcome bytes)
    (unmarshal_state : bytes -> outcome ChannelState) (unmarshal_message : bytes -> outcome ChannelMessage)
    (gives : nat -> nat -> option nat) (handle : trace_record -> option error)
    (name label : gostring) (old : bytes) (ds : list (Message -> bytes * bool)) (ops : list (Z * trace_op * write_env)) :
  proto_ok marshal_state marshal_message unmarshal_state unmarshal_message ->
  full_reads gives -> (forall r, handle r = None) ->
  exists h0 f0, NewTraceHandler None name old = (Ret h0, f0) /\
  let h := foldl (fun h d => AddDecoder d h) h0 ds in
  (Forall (fun x => whole_write marshal_state marshal_message x.2 (op_record h label x.1.1 x.1.2)) ops ->
   let f := foldl (fun f x => (traced marshal_state marshal_message h label x.1.1 x.1.2 x.2 f).2) f0 ops in
   Read unmarshal_state unmarshal_message gives handle f =
     (Ret tt, (fun x => op_record h label x.1.1 x.1.2) <$> ops)).
Proof.
  intros Hp Hf Hh. eexists _, _. split; [reflexivity|]. intros h Hw f.
  assert (holds_records marshal_state marshal_message ((fun x => op_record h label x.1.1 x.1.2) <$> ops) f) as Hr.
  { unfold f. induction ops as [|x ops IH] using rev_ind; [constructor|].
    apply Forall_app in Hw as [Hw Hx]. apply Forall_cons in Hx as [Hx _]. specialize (IH Hw).
    rewrite fmap_app, foldl_snoc. cbn [fmap list_fmap].
    set (f0 := foldl _ _ ops) in *.
    destruct (write_record_whole _ _ _ _ f0 Hx) as (d & Hd & Hl & E).
    assert ((traced marshal_state marshal_message h label x.1.1 x.1.2 x.2 f0).2 = f0 ++ record_frame (type_of (op_record h label x.1.1 x.1.2)) d) as ->.
    { unfold traced, ignore, attempt, mbind, ST_bind. by rewrite E. }
    by constructor. }
  pose proof (holds_length _ _ _ _ Hr) as Hl.
  apply (read_all marshal_state marshal_message); try done. lia.
Qed.

Lemma trace_roundtrip_witness :
  let ms s := Ret (if cs_Connected s then [Byte.x01] else [Byte.x02]) in
  let h := mkTraceHandler (lit "me") [] in
  let us d := Ret (mkChannelState 5 (lit "me") (lit "ch") (bool_decide (d = [Byte.x01])) []) in
  exists f, Read us (fun _ => Err io_EOF) (fun _ n => Some n) (fun _ => None) f =
    (Ret tt, [TState (mkChannelState 5 (lit "me") (lit "ch") true []); TState (mkChannelState 5 (lit "me") (lit "ch") false [])]).
Proof.
  intros ms h us. eexists.
  destruct (trace_roundtrip
    (fun s => if decide (s = mkChannelState 5 (lit "me") (lit "ch") (cs_Connected s) []) then ms s else Err io_EOF)
    (fun _ => Err io_EOF) us (fun _ => Err io_EOF) (fun _ n => Some n) (fun _ => None) (lit "me") (lit "ch")
    (lit "older") [] [(5, Connect [], mkWriteEnv 9 None); (5, Close, mkWriteEnv 9 None)]) as (h0 & f0 & E & H).
  - split; [|done]. intros s d. case_decide as Hs; [|done]. unfold ms, us. intros [= <-]. rewrite Hs.
    cbn. by destruct (cs_Connected s).
  - done.
  - done.
  - injection E as <- <-. apply H. repeat constructor; eexists; (split; [vm_compute; reflexivity|]); (split; [vm_compute; reflexivity|]);
      split; vm_compute; reflexivity.
Defined.

(** C40: reading any file.  Whatever bytes a trace file holds and however its
    reads are cut short or fail, with protocol buffers that return, [Read] ends:
    it returns, or it panics, and that only if the file is a sequence of whole
    records followed by one whose length field is negative.  And so it does: if
    the records before it are good, they are handled and the next makes it panic
    (with whole reads and a handler that does not fail). *)
Theorem read_any_file (marshal_state : ChannelState -> outcome bytes)
    (marshal_message : ChannelMessage -> outcome bytes)
    (unmarshal_state : bytes -> outcome ChannelState)
    (unmarshal_message : bytes -> outcome ChannelMessage) (gives : nat -> nat -> option nat)
    (handle : trace_record -> option error) (content : bytes) :
  (forall d, returns (unmarshal_state d)) -> (forall d, returns (unmarshal_message d)) ->
  (let r := Read unmarshal_state unmarshal_message gives handle content in
   returns r.1 \/ r.1 = Panic /\ negative_length content) /\
  (proto_ok marshal_state marshal_message unmarshal_state unmarshal_message ->
   full_reads gives -> (forall r, handle r = None) ->
   forall rs f messageType l tail, holds_records marshal_state marshal_message rs f ->
     is_i32 messageType -> is_i32 l -> l < 0 ->
     Read unmarshal_state unmarshal_message gives handle (f ++ le_put 4 messageType ++ le_put 4 l ++ tail) = (Panic, rs)).
Proof.
  intros Hs Hm. split.
  - destruct (read_records_total unmarshal_state unmarshal_message gives handle (S (length content)) 0 content Hs Hm)
      as (o & rs & E & H); [lia|]. unfold Read. by rewrite E.
  - intros Hp Hf Hh rs f ty l tail Hr Hty Hi Hneg. unfold Read.
    apply (read_negative marshal_state marshal_message); try done.
    pose proof (holds_length _ _ _ _ Hr). rewrite length_app. lia.
Qed.

Lemma read_any_file_witness :
  Read (fun _ => Err io_EOF) (fun _ => Err io_EOF) (fun _ n => Some n) (fun _ => None)
     (le_put 4 0 ++ le_put 4 (-1)) = (Panic, []).
Proof.
  rewrite <- (app_nil_r (le_put 4 (-1))).
  refine (proj2 (read_any_file (fun _ => Err io_EOF) (fun _ => Err io_EOF) (fun _ => Err io_EOF) (fun _ => Err io_EOF)
    (fun _ n => Some n) (fun _ => None) [] _ _) _ _ _ [] [] 0 (-1) [] _ _ _ _);
    [done | done | split; discriminate | done | done | constructor | unfold is_sint; lia | unfold is_sint; lia | lia].
Defined.
