(* ===== verification/Adapters.v ===== *)
(** * Adapters (src/websockets/, src/ws_impl.go, src/ws_listener.go, src/protobufs/, src/impl.go)

    Underlays over websocket connections, the underlay over a transport
    connection that the websocket listener uses, protocol buffer messages as
    envelopes and replies, and the constructors of a channel with a single
    underlay.  The websocket connection, the transport connection and protocol
    buffers are arguments: what they answer.

    Theorems: a message sent over a websocket is received as it was sent; a
    typed protocol buffer message survives the way through an envelope and a
    reply; a single channel owns its underlay: it is closed when it cannot be
    used, and losing it closes the channel. *)

From S2P Require Import Prelude Headers Wire Handshake Underlays ChannelImpl Envelope.

(** ** Websocket underlays (ws_underlay.go) *)

Definition BinaryMessage : Z := 2.

Module WS.

Record Underlay : Type := mkUnderlay { closed : bool; peerCloses : nat }.

(** [Rx]: [answer] is what [ReadMessage] gives; the rest of the data after the
    message is not looked at. *)
Definition Rx (answer : outcome (Z * bytes)) : outcome Message :=
  '(t, data) ← answer;
  if decide (t ≠ BinaryMessage) then Err (fmt_Errorf (lit "expected binary message type, got") [t])
  else '(m, _) ← ReadV2 64 (mkReader (if decide (data = []) then [] else [data]) io_EOF); Ret m.

(** [Tx]: the websocket message to write, and the message after marshalling. *)
Definition Tx (rng : HeaderMap -> list (Z * bytes)) (m : Message) : outcome (Z * bytes) * Message :=
  let '(r, m') := MarshalV2 rng m in
  ((fun data => (BinaryMessage, data)) <$> r, m').

(** [Close], with what the first close of the connection answers. *)
Definition Close (peerErr : option error) (u : Underlay) : option error * Underlay :=
  if closed u then (None, u) else (peerErr, mkUnderlay true (S (peerCloses u))).

End WS.

(** ** The transport underlay of the websocket listener (ws_impl.go, ws_listener.go) *)

Module wsImpl.

(** [id] is the identity, never set by [newWSImpl]; [v3] tells which marshal
    function was chosen. *)
Record wsImpl : Type := mkImpl { id : option gostring; closed : bool; v3 : bool; peerCloses : nat }.

Definition newWSImpl (version : Z) : wsImpl := mkImpl None false (bool_decide (version = 3)) 0.

Definition underlay_closed : error := errors_New (lit "underlay closed").

Definition Rx (peer : reader) (self : wsImpl) : outcome (Message * reader) :=
  if closed self then Err underlay_closed else ReadV2 64 peer.

(** [Tx]: the bytes written, with what the connection answers. *)
Definition Tx (rng : HeaderMap -> list (Z * bytes)) (writeErr : option error) (m : Message) (self : wsImpl)
    : outcome bytes :=
  if closed self then Err underlay_closed
  else
    data ← (if v3 self then marshalV3 rng m else MarshalV2 rng m).1;
    match writeErr with Some e => Err e | None => Ret data end.

(** [Id] dereferences the identity. *)
Definition Id (self : wsImpl) : outcome gostring :=
  match id self with Some token => Ret token | None => Panic end.

Definition Close (peerErr : option error) (self : wsImpl) : option error * wsImpl :=
  if closed self then (None, self) else (peerErr, mkImpl (id self) true (v3 self) (S (peerCloses self))).

(** [wsListener.Respond]: the response to a request. *)
Definition Respond (request : Message) (success : bool) (body : bytes) : Message :=
  let response := MessageHeader.PutBoolHeader ResultSuccessHeader success
                    (NewMessage ContentTypeResultType body) in
  ReplyTo (SetSequence (sequence request) response) request.

End wsImpl.

(** ** Protocol buffers (protobufs.go) *)

Section Protobufs.
Context {Proto : Type} (proto_Marshal : Proto -> outcome bytes) (proto_Unmarshal : bytes -> outcome Proto).

Definition failed_to_marshal : gostring := lit "failed to marshal".

Definition MarshalProto (contentType : Z) (msg : Proto) : Envelope.Sendable :=
  match proto_Marshal msg with
  | Ret b => SMessage (NewMessage contentType b)
  | Err err => NewErrorEnvelope (Some (errors_Wrap err failed_to_marshal))
  | Panic | OutOfFuel => NewErrorEnvelope None
  end.

(** A message with its own content type. *)
Definition MarshalTyped (GetContentType : Proto -> Z) (msg : Proto) : Envelope.Sendable :=
  MarshalProto (GetContentType msg) msg.

(** [TypedResponse(message).Unmarshall(response, err)], for a message of the
    given content type. *)
Definition Unmarshall (contentType : Z) (response : outcome Message) : outcome Proto :=
  responseMsg ← response;
  if decide (ContentType responseMsg ≠ contentType)
  then Err (fmt_Errorf (lit "unexpected response type. expected") [ContentType responseMsg; contentType])
  else proto_Unmarshal (Body responseMsg).

End Protobufs.

(** ** Channels with a single underlay (impl.go) *)

Definition single_args (u : Underlay) (bindHandler : BindHandler) : NewChannelArgs :=
  mkArgs true true (Some u) false ∅ 0 [] [] bindHandler.

(** [make(chan Sendable, n)] panics for a negative size. *)
Definition make_queue (n : Z) : outcome nat := if decide (n < 0) then Panic else Ret (Z.to_nat n).

(** [outQueueSize] is [None] without options. *)
Definition NewSingleChannelWithUnderlay (closeErr : nat -> option error) (u : Underlay)
    (bindHandler : BindHandler) (outQueueSize : option Z) : outcome unit * option channelImpl :=
  match make_queue (default 4 outQueueSize) with
  | Ret _ => NewChannel closeErr (single_args u bindHandler)
  | Err e => (Err e, None)
  | Panic => (Panic, None)
  | OutOfFuel => (OutOfFuel, None)
  end.

(** [create] is what the factory gives. *)
Definition NewSingleChannel (closeErr : nat -> option error) (create : outcome Underlay)
    (bindHandler : BindHandler) (outQueueSize : option Z) : outcome unit * option channelImpl :=
  match create with
  | Ret u => NewSingleChannelWithUnderlay closeErr u bindHandler outQueueSize
  | Err e => (Err e, None)
  | Panic => (Panic, None)
  | OutOfFuel => (OutOfFuel, None)
  end.

(** ** Lemmas *)

(** The channel a single underlay gives, up to its log and its handlers. *)
Lemma NewSingle_spec closeErr u bh c0 : binder_ok bh ->
  bind bh (fresh_channel (single_args u bh) u) = (Ret tt, c0) ->
  exists c, NewChannel closeErr (single_args u bh) = (Ret tt, Some c) /\
    isMultiUnderlayCapable c = false /\ isClosed c = false /\ underlays c = mkUnderlays [u] [Self].
Proof.
  intros Hb E0. unfold NewChannel. cbn [single_args argSenders argMessageSource argUnderlay negb].
  fold (single_args u bh). destruct (Hb (fresh_channel (single_args u bh) u)) as (E1 & E2 & E3 & _).
  replace (isMultiUnderlayCapable (fresh_channel (single_args u bh) u)) with false by reflexivity.
  rewrite andb_false_r. cbn [argBinder single_args]. fold (single_args u bh). rewrite E0 in *. cbn [snd] in *.
  eexists. split; [reflexivity|]. cbn. unfold isMultiUnderlayCapable. cbn. rewrite E1, E2, E3. done.
Qed.

(** Losing the only underlay closes the channel. *)
Lemma lose_only closeErr u n now c :
  isMultiUnderlayCapable c = false -> isClosed c = false -> underlays c = mkUnderlays [u] [Self] ->
  exists n' c', closeUnderlay closeErr u n now c = (Ret n', c') /\
    isClosed c' = true /\ entries (underlays c') = [].
Proof.
  intros Hm Hc Hu. unfold closeUnderlay. erewrite bind_Ret by reflexivity.
  set (c1 := close_underlay u c).
  assert (exists c2, remove_underlay closeErr u now c1 = (Ret tt, c2) /\ isClosed c2 = true /\ entries (underlays c2) = [])
    as (c2 & E2 & Hc2 & He2).
  { unfold remove_underlay. assert (underlays c1 = mkUnderlays [u] [Self]) as -> by exact Hu.
    unfold Remove. cbn [entries remove_entry]. rewrite decide_True by done. cbn [listeners fmap list_fmap notify].
    erewrite bind_Ret by reflexivity.
    set (c3 := emit _ _). assert (isMultiUnderlayCapable c3 = false) as Hm3 by exact Hm.
    assert (exists c4, channel_UnderlayRemoved closeErr u now c3 = (Ret tt, c4) /\ isClosed c4 = true /\
      entries (underlays c4) = []) as (c4 & E4 & Hc4 & He4).
    { unfold channel_UnderlayRemoved. set (c5 := if hasDialPolicy (cfg c3) then _ else c3).
      assert (isMultiUnderlayCapable c5 = false /\ entries (underlays c5) = [] /\ isClosed c5 = false) as (Hm5 & He5 & Hc5)
        by (unfold c5; destruct (hasDialPolicy (cfg c3)); split_and!; try done; exact Hc).
      rewrite Hm5. cbn [negb]. rewrite decide_True by exact He5.
      unfold mbind, ST_bind. rewrite Close_spec by exact Hc5.
      eexists. split; [reflexivity|]. split; [done | exact He5]. }
    eexists. split; [erewrite bind_Ret by exact E4; reflexivity|]. done. }
  erewrite bind_Ret by exact E2. unfold repair_fallback, mbind, ST_bind, GetAll. rewrite He2. cbn.
  eexists _, _. split; [by case_decide|]. done.
Qed.

(** ** Properties *)

(** Messages over a websocket.  A well-formed message that fits is written
    as one binary websocket message, and the peer that receives it gets the
    message back with its content type, sequence, headers, body and reply-for;
    bytes after the message in the same websocket message are dropped without
    notice.  A text message is refused.  Closing is done once. *)
Theorem websocket_roundtrip (rng : HeaderMap -> list (Z * bytes)) `{!RangeOrder rng} (m : Message)
    (junk data : bytes) (t : Z) (u : WS.Underlay) (e e' : option error) :
  wf_message m -> fits m ->
  exists frame, (WS.Tx rng m).1 = Ret (BinaryMessage, frame) /\
    WS.Rx (Ret (BinaryMessage, frame)) = Ret (wire_message m) /\
    WS.Rx (Ret (BinaryMessage, frame ++ junk)) = Ret (wire_message m) /\
    reply_for_spec (wire_message m) = reply_for_spec m /\
    (t ≠ BinaryMessage -> exists err, WS.Rx (Ret (t, data)) = Err err) /\
    (let '(_, u1) := WS.Close e u in WS.closed u1 = true /\ WS.Close e' u1 = (None, u1)).
Proof.
  intros Hwf Hf. pose proof (MarshalV2_bytes rng m Hf) as Em.
  assert (forall j, WS.Rx (Ret (BinaryMessage, frame_bytes rng m ++ j)) = Ret (wire_message m)) as Hrx.
  { intros j. unfold WS.Rx. cbn [mbind outcome_bind]. rewrite decide_False by (by intros H).
    rewrite decide_False by done. set (r := mkReader _ _).
    pose proof (ReadV2_refines 64 r (int_ok_64 _)) as R.
    assert (concat (chunks r) = frame_bytes rng m ++ j) as E by (cbn; by rewrite app_nil_r).
    rewrite E, (frame_parse rng 64 m j) in R; [|lia | done | done]. destruct R as (r' & -> & _). done. }
  exists (frame_bytes rng m). split_and!.
  - unfold WS.Tx. destruct (MarshalV2 rng m) as [r m']. cbn in *. by rewrite Em.
  - specialize (Hrx []). by rewrite app_nil_r in Hrx.
  - apply Hrx.
  - by apply wire_message_replyFor.
  - intros Ht. unfold WS.Rx. cbn. rewrite decide_True by done. eauto.
  - unfold WS.Close. destruct (WS.closed u) eqn:E; [by rewrite E | done].
Qed.

Lemma websocket_roundtrip_witness :
  let m := NewMessage 7 (lit "body") in
  exists frame, (WS.Tx (fun h => map_to_list h) m).1 = Ret (BinaryMessage, frame) /\
    WS.Rx (Ret (BinaryMessage, frame)) = Ret (wire_message m).
Proof.
  intros m. destruct (websocket_roundtrip (fun h => map_to_list h) m [] [] 1 (WS.mkUnderlay false 0) None None)
    as (frame & H1 & H2 & _).
  - split; [vm_compute; split; discriminate || reflexivity | vm_compute; split; discriminate || reflexivity | done |].
    intros k v Hk. change (Headers m) with (∅ : HeaderMap) in Hk. by rewrite lookup_empty in Hk.
  - vm_compute. discriminate.
  - exists frame. split; [exact H1 | exact H2].
Defined.

(** Typed messages.  A protocol buffer message that was marshalled into an
    envelope, sent, and arrived is unmarshalled from the response into the same
    message; a response of another content type and an error of the call are
    reported, and a message that cannot be marshalled gives an envelope whose
    every send returns that error. *)
Theorem typed_roundtrip {Proto} (proto_Marshal : Proto -> outcome bytes) (proto_Unmarshal : bytes -> outcome Proto)
    (GetContentType : Proto -> Z) (p : Proto) (b : bytes) (w : context.world) :
  (forall q d, proto_Marshal q = Ret d -> proto_Unmarshal d = Ret q) -> proto_Marshal p = Ret b ->
  exists m, MarshalTyped proto_Marshal GetContentType p = SMessage m /\
    Unmarshall proto_Unmarshal (GetContentType p) (Ret (wire_message m)) = Ret p /\
    (forall ct, ct ≠ GetContentType p -> exists e, Unmarshall proto_Unmarshal ct (Ret (wire_message m)) = Err e) /\
    (forall ct e, Unmarshall proto_Unmarshal ct (Err e) = Err e) /\
    (forall q e, proto_Marshal q = Err e ->
       errorEnvelope_Send (MarshalTyped proto_Marshal GetContentType q) w = Some (errors_Wrap e failed_to_marshal)).
Proof.
  intros Hp Hb. exists (NewMessage (GetContentType p) b). unfold MarshalTyped, MarshalProto. rewrite Hb.
  split; [done|]. unfold Unmarshall. cbn. split; [|split; [|split]].
  - rewrite decide_False by (by intros H). by apply Hp.
  - intros ct Hct. rewrite decide_True by congruence. eauto.
  - done.
  - intros q e Hq. by rewrite Hq.
Qed.

(** A channel with a single underlay owns it.  A negative queue size
    makes creating the channel panic; if the factory fails nothing was made,
    and if binding fails the underlay is closed.  Otherwise there is a channel
    that holds exactly that underlay, takes no others, and when its underlay is
    lost the channel is closed and holds nothing. *)
Theorem single_channel_owns (closeErr : nat -> option error) (u : Underlay) (bindHandler : BindHandler)
    (outQueueSize : option Z) (now : Z) :
  binder_ok bindHandler -> 0 <= default 4 outQueueSize ->
  let create := NewSingleChannel closeErr (Ret u) bindHandler in
  let bound := bind bindHandler (fresh_channel (single_args u bindHandler) u) in
  (forall q, default 4 q < 0 -> create q = (Panic, None)) /\
  (forall e, NewSingleChannel closeErr (Err e) bindHandler outQueueSize = (Err e, None)) /\
  (forall e c0, bound = (Err e, c0) -> exists c, create outQueueSize = (Err e, Some c) /\ ptr u ∈ closedUnderlays c) /\
  (forall c0, bound = (Ret tt, c0) -> exists c, create outQueueSize = (Ret tt, Some c) /\
     entries (underlays c) = [u] /\ isClosed c = false /\
     (forall v, exists e, (AcceptUnderlay v c).1 = Err e /\ ptr v ∈ closedUnderlays (AcceptUnderlay v c).2) /\
     exists n c', closeUnderlay closeErr u NewCloseNotifier now c = (Ret n, c') /\
       isClosed c' = true /\ entries (underlays c') = []).
Proof.
  intros Hb Hq create bound.
  assert (create outQueueSize = NewChannel closeErr (single_args u bindHandler)) as ->.
  { unfold create, NewSingleChannel, NewSingleChannelWithUnderlay, make_queue. by rewrite decide_False by lia. }
  split; [|split; [done|split]].
  - intros q Hneg. unfold create, NewSingleChannel, NewSingleChannelWithUnderlay, make_queue.
    by rewrite decide_True by lia.
  - intros e c Hbind. unfold NewChannel.
    cbn [single_args argSenders argMessageSource argUnderlay negb]. fold (single_args u bindHandler).
    replace (isMultiUnderlayCapable (fresh_channel (single_args u bindHandler) u)) with false by reflexivity.
    rewrite andb_false_r. cbn [argBinder single_args]. fold (single_args u bindHandler).
    fold bound. rewrite Hbind.
    destruct (ignore (Close closeErr) c) as [o c2]. eexists. split; [done|]. cbn. set_solver.
  - intros c0 Hc0. destruct (NewSingle_spec closeErr u bindHandler c0 Hb Hc0) as (c & Hc & Hm & Hcl & Hu).
    exists c. split; [done|]. rewrite Hu. split; [done|]. split; [done|]. split.
    + intros v. unfold AcceptUnderlay. rewrite Hm. cbn. eexists. split; [done|]. set_solver.
    + destruct (lose_only closeErr u NewCloseNotifier now c Hm Hcl Hu) as (n & c' & H). eauto.
Qed.

Lemma single_channel_owns_witness :
  let u := mkUnderlay 1 (lit "id") (lit "c") ∅ 0 in
  exists c, NewSingleChannel (fun _ => None) (Ret u) None (Some 4) = (Ret tt, Some c) /\
    entries (underlays c) = [u].
Proof.
  intros u. destruct (single_channel_owns (fun _ => None) u None (Some 4) 9) as (_ & _ & _ & H).
  - intros c0. done.
  - cbn. lia.
  - destruct (H _ eq_refl) as (c & Hc & He & _). exists c. split; [exact Hc | exact He].
Defined.
