(* ===== verification/Listener.v ===== *)
(** * The classic listener as a source of underlays (src/classic_listener.go)

    What happens between the acceptance of a connection, which [Handshake]
    models, and the caller of [Create]: the acceptor of [NewClassicListener]
    hands each underlay over on an unbuffered Go channel, on which calls of
    [Create] wait, until [Close] closes the listener; [Listen] opens the
    socket.  Any number of acceptors and callers run at the same time; a step
    is an access to shared state or a rendezvous.

    Theorems: over any interleaving every underlay is handed to one caller, is
    still offered, or was dropped after the listener closed; closing happens
    once and wakes everyone; a socket that [Listen] opens while the listener is
    being closed stays open. *)

From S2P Require Import Prelude.

(** ** State *)

(** Where a running [Close] is, after it has won the flag. *)
Inductive close_pc : Type := ClosingChan | ClosingSocket | ClosingReset.

Definition not_set_up : error :=
  errors_New (lit "this listener was not set up for Create to be called, programming error").

(** Underlays, sockets and calls are known by number.  [withCreate] says that
    [created] is not nil; [offering] are acceptors that wait to hand over their
    underlay, [creating] calls of [Create] that wait, [opened] sockets [Listen]
    has not stored yet.  The last fields record what has happened. *)
Record classicListening : Type := mkListening {
  withCreate : bool;
  closedFlag : bool;
  closeC : bool;
  socket : option nat;
  handlerCount : nat;
  offering : list nat;
  creating : list nat;
  opened : list nat;
  closing : list close_pc;
  accepted : list nat;
  returned : list (nat * outcome nat);
  dropped : list nat;
  closedSockets : list nat;
  panicked : bool
}.

(** [NewClassicListener] ([withCreate]) and the listener that
    [NewClassicListenerWithAcceptor] makes before it listens. *)
Definition newListening (withCreate : bool) (handlers : nat) : classicListening :=
  mkListening withCreate false false None handlers [] [] [] [] [] [] [] [] false.

Definition set_flags (flag chan panic : bool) (cl : list close_pc) (s : classicListening) : classicListening :=
  mkListening (withCreate s) flag chan (socket s) (handlerCount s) (offering s) (creating s) (opened s) cl
    (accepted s) (returned s) (dropped s) (closedSockets s) panic.

Definition set_sockets (sock : option nat) (op : list nat) (cl : list close_pc) (closed : list nat)
    (s : classicListening) : classicListening :=
  mkListening (withCreate s) (closedFlag s) (closeC s) sock (handlerCount s) (offering s) (creating s) op cl
    (accepted s) (returned s) (dropped s) closed (panicked s).

Definition set_traffic (off cr acc : list nat) (ret : list (nat * outcome nat)) (dr : list nat)
    (s : classicListening) : classicListening :=
  mkListening (withCreate s) (closedFlag s) (closeC s) (socket s) (handlerCount s) off cr (opened s) (closing s)
    acc ret dr (closedSockets s) (panicked s).

(** ** Steps *)

Inductive listener_step : Type :=
  | AcceptorOffers (u : nat)
  | AcceptorDrops (i : nat)
  | CreateCall (c : nat)
  | Handover (i j : nat)
  | CreateClosed (j : nat)
  | ListenCall (handlers : nat) (result : outcome nat)
  | ListenStore (i : nat)
  | CloseCall
  | CloseStep (i : nat) (closeErr : option error).

(** The acceptor [NewClassicListener] installs: offer the underlay, or give up
    once the listener is closed. *)
Definition acceptor_offers (u : nat) (s : classicListening) : option classicListening :=
  if withCreate s
  then Some (set_traffic (offering s ++ [u]) (creating s) (accepted s ++ [u]) (returned s) (dropped s) s)
  else None.

Definition acceptor_drops (i : nat) (s : classicListening) : option classicListening :=
  match offering s !! i with
  | Some u =>
      if closeC s
      then Some (set_traffic (delete i (offering s)) (creating s) (accepted s) (returned s) (dropped s ++ [u]) s)
      else None
  | None => None
  end.

(** [Create], up to its select. *)
Definition create_call (c : nat) (s : classicListening) : classicListening :=
  if withCreate s
  then set_traffic (offering s) (creating s ++ [c]) (accepted s) (returned s) (dropped s) s
  else set_traffic (offering s) (creating s) (accepted s) (returned s ++ [(c, Err not_set_up)]) (dropped s) s.

(** The two cases of the select. *)
Definition handover (i j : nat) (s : classicListening) : option classicListening :=
  match offering s !! i, creating s !! j with
  | Some u, Some c =>
      Some (set_traffic (delete i (offering s)) (delete j (creating s)) (accepted s)
              (returned s ++ [(c, Ret u)]) (dropped s) s)
  | _, _ => None
  end.

Definition create_closed (j : nat) (s : classicListening) : option classicListening :=
  match creating s !! j with
  | Some c =>
      if closeC s
      then Some (set_traffic (offering s) (delete j (creating s)) (accepted s)
                   (returned s ++ [(c, Err ListenerClosedError)]) (dropped s) s)
      else None
  | None => None
  end.

(** [Listen]: the endpoint opens a socket or fails; it is stored later. *)
Definition Listen (handlers : nat) (result : outcome nat) (s : classicListening) : classicListening :=
  let s := mkListening (withCreate s) (closedFlag s) (closeC s) (socket s) (handlerCount s + handlers) (offering s)
             (creating s) (opened s) (closing s) (accepted s) (returned s) (dropped s) (closedSockets s)
             (panicked s) in
  match result with
  | Ret sock => set_sockets (socket s) (opened s ++ [sock]) (closing s) (closedSockets s) s
  | _ => s
  end.

Definition listen_store (i : nat) (s : classicListening) : option classicListening :=
  match opened s !! i with
  | Some sock => Some (set_sockets (Some sock) (delete i (opened s)) (closing s) (closedSockets s) s)
  | None => None
  end.

(** [Close]: the flag is won by one caller; the others return. *)
Definition close_call (s : classicListening) : classicListening :=
  if closedFlag s then s else set_flags true (closeC s) (panicked s) (closing s ++ [ClosingChan]) s.

(** Its further steps: close the channel, close the socket (an error returns
    at once), forget the socket. *)
Definition close_step (i : nat) (closeErr : option error) (s : classicListening) : option classicListening :=
  match closing s !! i with
  | Some ClosingChan =>
      Some (if closeC s
            then set_flags (closedFlag s) true true (delete i (closing s)) s
            else set_flags (closedFlag s) true (panicked s) (<[i := ClosingSocket]> (closing s)) s)
  | Some ClosingSocket =>
      Some (match socket s with
            | Some sock =>
                let rest := match closeErr with
                            | Some _ => delete i (closing s)
                            | None => <[i := ClosingReset]> (closing s)
                            end in
                set_sockets (socket s) (opened s) rest (closedSockets s ++ [sock]) s
            | None => set_sockets (socket s) (opened s) (<[i := ClosingReset]> (closing s)) (closedSockets s) s
            end)
  | Some ClosingReset => Some (set_sockets None (opened s) (delete i (closing s)) (closedSockets s) s)
  | None => None
  end.

Definition listener_act (a : listener_step) (s : classicListening) : option classicListening :=
  match a with
  | AcceptorOffers u => acceptor_offers u s
  | AcceptorDrops i => acceptor_drops i s
  | CreateCall c => Some (create_call c s)
  | Handover i j => handover i j s
  | CreateClosed j => create_closed j s
  | ListenCall handlers result => Some (Listen handlers result s)
  | ListenStore i => listen_store i s
  | CloseCall => Some (close_call s)
  | CloseStep i closeErr => close_step i closeErr s
  end.

Fixpoint listener_acts (l : list listener_step) (s : classicListening) : option classicListening :=
  match l with
  | [] => Some s
  | a :: l' => s' ← listener_act a s; listener_acts l' s'
  end.

Inductive listening : classicListening -> Prop :=
  | listening_new withCreate handlers : listening (newListening withCreate handlers)
  | listening_act a s s' : listening s -> listener_act a s = Some s' -> listening s'.

(** ** Lemmas *)

(** What calls of [Create] were given. *)
Definition given_to_callers (s : classicListening) : list nat :=
  omap (fun r : nat * outcome nat => match r.2 with Ret u => Some u | _ => None end) (returned s).

Record listener_inv (s : classicListening) : Prop := {
  inv_traffic : accepted s ≡ₚ offering s ++ given_to_callers s ++ dropped s;
  inv_dropped : dropped s ≠ [] -> closeC s = true;
  inv_refused : forall c e, (c, Err e) ∈ returned s -> if withCreate s then closeC s = true /\ e = ListenerClosedError else e = not_set_up;
  inv_answers : forall c r, (c, r) ∈ returned s -> returns r;
  inv_mode : withCreate s = false -> offering s = [] /\ creating s = [];
  inv_panic : panicked s = false;
  inv_close : match closing s with
              | [] => closeC s = closedFlag s
              | [ClosingChan] => closeC s = false /\ closedFlag s = true
              | [_] => closeC s = true /\ closedFlag s = true
              | _ => False
              end;
  inv_sockets : (length (closedSockets s) <= 1)%nat /\
    ((closedFlag s = false \/ ClosingChan ∈ closing s \/ ClosingSocket ∈ closing s) -> closedSockets s = [])
}.

Lemma given_snoc s c r : omap (fun r : nat * outcome nat => match r.2 with Ret u => Some u | _ => None end) (returned s ++ [(c, r)]) =
  given_to_callers s ++ match r with Ret u => [u] | _ => [] end.
Proof. unfold given_to_callers. rewrite omap_app. by destruct r. Qed.

(** Moving the [i]-th element out of the first part of a list. *)
Lemma moved_out {A} (l g d : list A) i x : l !! i = Some x ->
  l ++ g ++ d ≡ₚ delete i l ++ (g ++ [x]) ++ d /\ l ++ g ++ d ≡ₚ delete i l ++ g ++ d ++ [x].
Proof.
  intros H. generalize (delete i l) (delete_Permutation _ _ _ H). intros l' ->. cbn.
  rewrite <- app_assoc. cbn. rewrite <- (Permutation_middle g), <- (Permutation_middle l'). split; [done|].
  by rewrite (Permutation_cons_append _ x), <- !app_assoc.
Qed.

(** A new result keeps what is known of the results. *)
Lemma refused_snoc s c r x : (forall e, r = Err e -> if withCreate s then x = true /\ e = ListenerClosedError else e = not_set_up) ->
  (forall c e, (c, Err e) ∈ returned s -> if withCreate s then x = true /\ e = ListenerClosedError else e = not_set_up) ->
  forall c' e, (c', Err e) ∈ returned s ++ [(c, r)] -> if withCreate s then x = true /\ e = ListenerClosedError else e = not_set_up.
Proof.
  intros H1 H2 c' e. rewrite elem_of_app, list_elem_of_singleton. intros [H|[= -> <-]]; [by eapply H2 | by apply H1].
Qed.

Lemma answers_snoc s c r : returns r -> (forall c r, (c, r) ∈ returned s -> returns r) ->
  forall c' r', (c', r') ∈ returned s ++ [(c, r)] -> returns r'.
Proof.
  intros H1 H2 c' r'. rewrite elem_of_app, list_elem_of_singleton. intros [H|[= -> ->]]; [by eapply H2 | done].
Qed.

(** Steps that only move underlays and calls. *)
Lemma traffic_inv off cr acc ret dr s : listener_inv s ->
  acc ≡ₚ off ++ omap (fun r : nat * outcome nat => match r.2 with Ret u => Some u | _ => None end) ret ++ dr ->
  (dr ≠ [] -> closeC s = true) ->
  (forall c e, (c, Err e) ∈ ret -> if withCreate s then closeC s = true /\ e = ListenerClosedError else e = not_set_up) ->
  (forall c r, (c, r) ∈ ret -> returns r) ->
  (withCreate s = false -> off = [] /\ cr = []) ->
  listener_inv (set_traffic off cr acc ret dr s).
Proof. intros [] H1 H2 H3 H4 H5. by split. Qed.

Lemma traffic_step_inv a s s' : listener_inv s ->
  match a with ListenCall _ _ | ListenStore _ | CloseCall | CloseStep _ _ => False | _ => True end ->
  listener_act a s = Some s' -> listener_inv s'.
Proof.
  intros Hi Ha. pose proof Hi as [Ht Hd Hr Hans Hm _ _ _].
  destruct a as [u|i|c|i j|j| | | |]; try done; cbn.
  - unfold acceptor_offers. destruct (withCreate s) eqn:Ew; [|done]. intros [= <-].
    apply traffic_inv; rewrite ?Ew; try done.
    fold (given_to_callers s). rewrite Ht, <- !app_assoc. apply Permutation_app_head.
    rewrite app_assoc. apply Permutation_app_comm.
  - unfold acceptor_drops. destruct (offering s !! i) as [u|] eqn:Ei; [|done]. destruct (closeC s) eqn:Ec; [|done].
    intros [= <-]. apply traffic_inv; rewrite ?Ec; try done.
    + fold (given_to_callers s). rewrite Ht. by apply moved_out.
    + intros Hw. destruct (Hm Hw) as [E1 E2]. rewrite E1 in Ei. done.
  - unfold create_call. destruct (withCreate s) eqn:Ew; intros [= <-].
    + by apply traffic_inv; rewrite ?Ew.
    + apply traffic_inv; try done.
      * rewrite given_snoc. by rewrite app_nil_r.
      * apply refused_snoc; rewrite Ew; [by intros e [= <-] | done].
      * by apply answers_snoc.
      * intros _. by apply Hm.
  - unfold handover. destruct (offering s !! i) as [u|] eqn:Ei; [|done].
    destruct (creating s !! j) as [c|] eqn:Ej; [|done]. intros [= <-]. apply traffic_inv; try done.
    + rewrite given_snoc, Ht. by apply moved_out.
    + by apply refused_snoc.
    + by apply answers_snoc.
    + intros Hw. destruct (Hm Hw) as [E1 E2]. by rewrite E1 in Ei.
  - unfold create_closed. destruct (creating s !! j) as [c|] eqn:Ej; [|done]. destruct (closeC s) eqn:Ec; [|done].
    intros [= <-]. assert (withCreate s = true) as Ew.
    { destruct (withCreate s) eqn:Ew; [done|]. destruct (Hm eq_refl) as [_ E]. by rewrite E in Ej. }
    apply traffic_inv; try done.
    + rewrite given_snoc. by rewrite app_nil_r.
    + apply refused_snoc; rewrite Ew, Ec in *; [by intros e [= <-] | done].
    + by apply answers_snoc.
    + by rewrite Ew.
Qed.

(** Closing: at most one caller is past the flag. *)
Lemma close_step_inv a s s' : listener_inv s ->
  match a with ListenCall _ _ | ListenStore _ | CloseCall | CloseStep _ _ => True | _ => False end ->
  listener_act a s = Some s' -> listener_inv s'.
Proof.
  intros Hi Ha. pose proof Hi as [Ht Hd Hr Hans Hm Hp Hc [Hs1 Hs2]].
  destruct a as [| | | | |handlers result|i| |i closeErr]; try done; cbn.
  - unfold Listen. intros [= <-]. destruct result; by split.
  - unfold listen_store. destruct (opened s !! i); [|done]. intros [= <-]. by split.
  - unfold close_call. intros [= <-]. destruct (closedFlag s) eqn:Ef; [exact Hi|].
    assert (closing s = [] /\ closeC s = false) as [E1 E2].
    { destruct (closing s) as [|[] [|]]; try done; by destruct Hc. }
    split; cbn; try done.
    + by rewrite E1, E2.
    + split; [done|]. intros _. apply Hs2. by left.
  - unfold close_step. destruct (closing s !! i) as [pc|] eqn:Ei; [|done].
    destruct (closing s) as [|pc0 [|]] eqn:Ecl; [done | |by destruct pc0].
    destruct i as [|i]; [|done]. cbn in Ei. injection Ei as ->.
    destruct pc; cbn [delete list_delete insert list_insert].
    + destruct Hc as [Hc1 Hc2]. rewrite Hc1. intros [= <-]. split; cbn; try done.
      * intros c e He. specialize (Hr c e He). destruct (withCreate s); [by destruct Hr | done].
      * split; [done|]. intros _. apply Hs2. set_solver.
    + destruct Hc as [Hc1 Hc2]. assert (closedSockets s = []) as Es by (apply Hs2; set_solver).
      rewrite Hc1 in Hr.
      destruct (socket s) as [sock|]; [destruct closeErr|]; intros [= <-];
        (split; cbn; rewrite ?Es, ?Hc1, ?Hc2; try done);
        (split; [cbn; lia|]); intros [?|[?|?]]; try done; set_solver.
    + intros [= <-]. destruct Hc as [Hc1 Hc2]. split; cbn; try done; rewrite ?Hc1, ?Hc2; [done|].
      split; [done|]. intros [?|[?|?]]; [done | set_solver | set_solver].
Qed.

Lemma listening_inv s : listening s -> listener_inv s.
Proof.
  induction 1 as [w n|a s s' Hs IH Ha].
  - split; cbn; try done; [set_solver | set_solver |]. split; [lia | done].
  - destruct a; first [by refine (traffic_step_inv _ _ _ IH _ Ha) | by refine (close_step_inv _ _ _ IH _ Ha)].
Qed.

Lemma listening_acts l : forall s s', listening s -> listener_acts l s = Some s' -> listening s'.
Proof.
  induction l as [|a l IH]; intros s s' Hs; [by intros [= <-]|]. cbn. destruct (listener_act a s) as [s1|] eqn:E; [|done].
  apply IH. by eapply listening_act.
Qed.

(** A run of a listener with its outcome. *)
Definition sample_run : list listener_step :=
  [CreateCall 1; AcceptorOffers 5; AcceptorOffers 6; Handover 0 0; CloseCall; CloseStep 0 None; AcceptorDrops 0].

(** ** Properties *)

(** C37: every underlay is handed over once.  However acceptors, callers of
    [Create], [Listen] and [Close] interleave: every accepted underlay is still
    offered, or was given to exactly one caller, or was dropped, and that only
    after the listener was closed; a caller gets an underlay, or the error that
    the listener is closed when it is, or (always and only for a listener made
    with an acceptor) the error that it was not set up for this.  Nothing
    panics and at most one socket is closed, once.  An acceptor and a caller
    that both wait can proceed; once the listener is closed everyone who waits
    can, and a [Close] that has begun gets there by its next step.  But a socket
    that [Listen] stores after [Close] has looked stays open. *)
Theorem underlays_handed_over (s : classicListening) :
  listening s ->
  accepted s ≡ₚ offering s ++ given_to_callers s ++ dropped s /\
  (dropped s ≠ [] -> closeC s = true) /\
  (forall c r, (c, r) ∈ returned s ->
     (exists u, r = Ret u) \/ r = Err (if withCreate s then ListenerClosedError else not_set_up)) /\
  (forall c, (c, Err ListenerClosedError) ∈ returned s -> closeC s = true) /\
  panicked s = false /\ (length (closedSockets s) <= 1)%nat /\
  (offering s ≠ [] -> creating s ≠ [] -> is_Some (listener_act (Handover 0 0) s)) /\
  (closeC s = true ->
     (forall i, (i < length (offering s))%nat -> is_Some (listener_act (AcceptorDrops i) s)) /\
     (forall j, (j < length (creating s))%nat -> is_Some (listener_act (CreateClosed j) s))) /\
  (closedFlag s = true -> closeC s = true \/
     exists s', listener_act (CloseStep 0 None) s = Some s' /\ closeC s' = true) /\
  (exists l s', listener_acts l (newListening true 0) = Some s' /\ closedFlag s' = true /\ closing s' = [] /\
     socket s' = Some 7%nat /\ closedSockets s' = []).
Proof.
  intros Hs. apply listening_inv in Hs as [Ht Hd Hr Hans Hm Hp Hc [Hs1 _]]. split_and!; try done.
  - intros c r Hin. destruct r as [u|e| |]; [by left; exists u | | |]; [|by specialize (Hans _ _ Hin)..].
    right. specialize (Hr _ _ Hin). destruct (withCreate s); [by destruct Hr as [_ ->] | by rewrite Hr].
  - intros c Hin. specialize (Hr _ _ Hin). destruct (withCreate s); [by destruct Hr | done].
  - intros Ho Hcr. cbn. unfold handover. destruct (offering s); [done|]. by destruct (creating s).
  - intros Hcl. cbn. unfold acceptor_drops, create_closed. rewrite Hcl.
    split; intros i Hi; by destruct (lookup_lt_is_Some_2 _ _ Hi) as [x ->].
  - intros Hf. destruct (closing s) as [|[] [|]] eqn:E; try done; [left; congruence | right | by left; destruct Hc..].
    cbn. unfold close_step. rewrite E. cbn. destruct (closeC s); by eexists.
  - exists [ListenCall 0 (Ret 7%nat); CloseCall; CloseStep 0 None; CloseStep 0 None; CloseStep 0 None; ListenStore 0].
    eexists. split; [reflexivity|]. done.
Qed.

Lemma underlays_handed_over_witness :
  exists s, listener_acts sample_run (newListening true 0) = Some s /\
    accepted s ≡ₚ offering s ++ given_to_callers s ++ dropped s /\ given_to_callers s = [5%nat] /\ dropped s = [6%nat].
Proof.
  eexists. split; [vm_compute; reflexivity|]. split; [|by split].
  refine (proj1 (underlays_handed_over _ (listening_acts sample_run _ _ (listening_new true 0) _))).
  vm_compute. reflexivity.
Defined.
