(* ===== verification/Logging.v ===== *)
(** * Logging (src/logging.go)

    Which logger a channel uses, and the handler behind its default loggers.
    That handler records the attributes and groups a caller adds and replays
    them onto the process's default handler each time a record is logged, so
    that a default installed later is respected.

    A handler of the application is known by a number and the calls made on it
    that had an effect ([slog.Handler] documents that a group without a name
    returns the handler itself, and no attributes add nothing).  A wrapper
    stands for a handler that forwards everything to another one.

    Theorems: what is logged through a default logger arrives where, and with
    what, it would if the same calls were made on the process's default, unless
    that wraps a default logger's own handler; handlers derived from the same
    handler do not disturb each other, in a store with shared backing arrays;
    concurrent callers get the same logger for a name; the order of precedence
    of loggers. *)

From S2P Require Import Prelude.

(** ** Handlers *)

Record Attr : Type := mkAttr { Key : gostring; Value : gostring }.

#[global] Instance Attr_eq_dec : EqDecision Attr.
Proof. solve_decision. Defined.

Record handlerOp : Type := mkOp { attrs : list Attr; group : gostring }.

#[global] Instance handlerOp_eq_dec : EqDecision handlerOp.
Proof. solve_decision. Defined.

(** A call on a handler. *)
Inductive with_call : Type :=
  | CAttrs (a : list Attr)
  | CGroup (name : gostring).

Inductive Handler : Type :=
  | Base (n : nat) (calls : list with_call)
  | Wrapper (inner : Handler)
  | Delegating (ops : list handlerOp).        (* [*defaultHandler] *)

(** [defaultHandler.WithAttrs] and [defaultHandler.WithGroup], on the list of
    recorded operations. *)
Definition defaultHandler_WithAttrs (a : list Attr) (ops : list handlerOp) : list handlerOp :=
  if decide (a = []) then ops else ops ++ [mkOp a []].

Definition defaultHandler_WithGroup (name : gostring) (ops : list handlerOp) : list handlerOp :=
  if decide (name = []) then ops else ops ++ [mkOp [] name].

(** [h.WithAttrs(a)] and [h.WithGroup(name)] of any handler. *)
Fixpoint WithAttrs (a : list Attr) (h : Handler) : Handler :=
  match h with
  | Base n calls => Base n (if decide (a = []) then calls else calls ++ [CAttrs a])
  | Wrapper inner => Wrapper (WithAttrs a inner)
  | Delegating ops => Delegating (defaultHandler_WithAttrs a ops)
  end.

Fixpoint WithGroup (name : gostring) (h : Handler) : Handler :=
  match h with
  | Base n calls => Base n (if decide (name = []) then calls else calls ++ [CGroup name])
  | Wrapper inner => Wrapper (WithGroup name inner)
  | Delegating ops => Delegating (defaultHandler_WithGroup name ops)
  end.

Definition make_call (h : Handler) (c : with_call) : Handler :=
  match c with CAttrs a => WithAttrs a h | CGroup name => WithGroup name h end.

(** The text handler on the standard error. *)
Definition fallbackHandler : Handler := Base 0 [].

Definition nonDelegating (target : Handler) : Handler :=
  match target with Delegating _ => fallbackHandler | _ => target end.

Definition replay_op (h : Handler) (op : handlerOp) : Handler :=
  if decide (group op = []) then WithAttrs (attrs op) h else WithGroup (group op) h.

Definition replay (ops : list handlerOp) (base : Handler) : Handler := foldl replay_op base ops.

(** [resolve], given the handler of [slog.Default()]. *)
Definition resolve (default : Handler) (ops : list handlerOp) : Handler :=
  replay ops (nonDelegating default).

(** Where a record given to [h] ends up: the handler of the application and the
    calls made on it.  The fuel bounds the forwarding. *)
Fixpoint Handle (fuel : nat) (default h : Handler) : outcome (nat * list with_call) :=
  match fuel with
  | O => OutOfFuel
  | S fuel' =>
      match h with
      | Base n calls => Ret (n, calls)
      | Wrapper inner => Handle fuel' default inner
      | Delegating ops => Handle fuel' default (resolve default ops)
      end
  end.

(** [Enabled] forwards in the same way; [level_ok] is what the application's
    handler answers. *)
Definition Enabled (level_ok : nat -> list with_call -> bool) (fuel : nat) (default h : Handler) : outcome bool :=
  '(n, calls) ← Handle fuel default h; Ret (level_ok n calls).

(** ** Loggers *)

(** A logger is known by the identity of its pointer. *)
Record Logger : Type := mkLogger { logger_id : nat; logger_handler : Handler }.

#[global] Instance Handler_eq_dec : EqDecision Handler.
Proof. unfold EqDecision. assert (EqDecision with_call) by solve_decision. solve_decision. Defined.

#[global] Instance Logger_eq_dec : EqDecision Logger.
Proof. solve_decision. Defined.

(** A resolver may answer nil. *)
Abbreviation resolver := (gostring -> option Logger).

(** The package's variables; [allocated] gives fresh identities. *)
Record package : Type := mkPackage {
  loggerFor : option (option resolver);
  defaultLoggerByName : gmap gostring Logger;
  allocated : nat
}.

(** [SetLoggerFor(f)], where [f] may be nil. *)
Definition SetLoggerFor (f : option resolver) : ST package unit :=
  modify (fun p => mkPackage (Some f) (defaultLoggerByName p) (allocated p)).

Definition getLoggerFor : ST package (option resolver) :=
  gets (fun p => match loggerFor p with Some f => f | None => None end).

(** [slog.New(&defaultHandler{}).With(slog.String("channel", name))] *)
Definition new_area_logger (name : gostring) : ST package Logger := fun p =>
  (Ret (mkLogger (allocated p) (WithAttrs [mkAttr (lit "channel") name] (Delegating []))),
   mkPackage (loggerFor p) (defaultLoggerByName p) (S (allocated p))).

(** [sync.Map.LoadOrStore] *)
Definition LoadOrStore (name : gostring) (l : Logger) : ST package Logger := fun p =>
  match defaultLoggerByName p !! name with
  | Some l' => (Ret l', p)
  | None => (Ret l, mkPackage (loggerFor p) (<[name := l]> (defaultLoggerByName p)) (allocated p))
  end.

Definition defaultAreaLogger (name : gostring) : ST package Logger :=
  found ← gets (fun p => defaultLoggerByName p !! name);
  match found with
  | Some l => mret l
  | None => l ← new_area_logger name; LoadOrStore name l
  end.

Definition resolveArea (name : gostring) (f : option resolver) : ST package Logger :=
  match f with
  | Some f =>
      match f name with
      | Some l => mret l
      | None => defaultAreaLogger name
      end
  | None => defaultAreaLogger name
  end.

Definition For (name : gostring) : ST package Logger :=
  f ← getLoggerFor; resolveArea name f.

(** [opts] is nil or has a logger that may be nil. *)
Definition resolveEventLogger (opts : option (option Logger)) (name : gostring) (f : option resolver)
    : ST package Logger :=
  match opts with
  | Some (Some l) => mret l
  | _ => resolveArea name f
  end.

(** ** Concurrent callers *)

(** The steps of concurrent calls of [defaultAreaLogger]: a call looks the name
    up, and if it is missing comes back with a logger of its own. *)
Module Area.

Record state : Type := mkState {
  pkg : package;
  pending : list (gostring * Logger);
  returned : list (gostring * Logger)
}.

Inductive step : Type :=
  | Load (name : gostring)
  | Store (i : nat).

Definition exec_area (st : state) (s : step) : state :=
  match s with
  | Load name =>
      match defaultLoggerByName (pkg st) !! name with
      | Some l => mkState (pkg st) (pending st) (returned st ++ [(name, l)])
      | None =>
          match new_area_logger name (pkg st) with
          | (Ret l, p) => mkState p (pending st ++ [(name, l)]) (returned st)
          | (_, p) => mkState p (pending st) (returned st)
          end
      end
  | Store i =>
      match pending st !! i with
      | Some (name, l) =>
          match LoadOrStore name l (pkg st) with
          | (Ret l', p) => mkState p (delete i (pending st)) (returned st ++ [(name, l')])
          | (_, p) => mkState p (pending st) (returned st)
          end
      | None => st
      end
  end.

End Area.

(** ** Slices of operations

    The list of operations is a Go slice: [append] writes into the backing
    array when there is room, so slices can share what lies behind their ends;
    [slices.Clone] copies first. *)
Module Ops.

Record slice : Type := mkSlice { array : nat; length_of : nat; cap : nat }.

(** The arrays, by address; as many addresses are used as there are arrays. *)
Abbreviation store := (list (list handlerOp)).

Definition contents (s : slice) (st : store) : list handlerOp :=
  take (length_of s) (default [] (st !! array s)).

(** A slice of this store, within its array. *)
Definition valid (s : slice) (st : store) : Prop :=
  exists a, st !! array s = Some a /\ (length_of s <= cap s)%nat /\ cap s = length a.

(** A new array with [extra] unused places. *)
Definition allocate (ops : list handlerOp) (extra : nat) (st : store) : slice * store :=
  (mkSlice (length st) (length ops) (length ops + extra),
   st ++ [ops ++ replicate extra (mkOp [] [])]).

(** [append(s, op)] *)
Definition append (extra : nat) (s : slice) (op : handlerOp) (st : store) : slice * store :=
  if decide (length_of s < cap s)%nat
  then (mkSlice (array s) (S (length_of s)) (cap s),
        alter (fun a => <[length_of s := op]> a) (array s) st)
  else allocate (contents s st ++ [op]) extra st.

(** [slices.Clone(s)] *)
Definition Clone (extra : nat) (s : slice) (st : store) : slice * store :=
  allocate (contents s st) extra st.

(** [append(slices.Clone(h.ops), op)] *)
Definition append_clone (extra extra' : nat) (s : slice) (op : handlerOp) (st : store) : slice * store :=
  let '(s, st) := Clone extra s st in append extra' s op st.

Definition Store_WithAttrs (extra extra' : nat) (a : list Attr) (s : slice) (st : store) : slice * store :=
  if decide (a = []) then (s, st) else append_clone extra extra' s (mkOp a []) st.

Definition Store_WithGroup (extra extra' : nat) (name : gostring) (s : slice) (st : store) : slice * store :=
  if decide (name = []) then (s, st) else append_clone extra extra' s (mkOp [] name) st.

End Ops.

(** ** Lemmas: handlers *)

Lemma WithAttrs_nil h : WithAttrs [] h = h.
Proof. induction h; cbn; unfold defaultHandler_WithAttrs; rewrite ?decide_True by done; congruence. Qed.

Lemma WithGroup_nil h : WithGroup [] h = h.
Proof. induction h; cbn; unfold defaultHandler_WithGroup; rewrite ?decide_True by done; congruence. Qed.

(** The operation a call records. *)
Definition recorded (c : with_call) : list handlerOp :=
  match c with
  | CAttrs a => defaultHandler_WithAttrs a []
  | CGroup name => defaultHandler_WithGroup name []
  end.

Lemma make_call_Delegating ops c : make_call (Delegating ops) c = Delegating (ops ++ recorded c).
Proof.
  destruct c; cbn; unfold defaultHandler_WithAttrs, defaultHandler_WithGroup;
    case_decide; by rewrite ?app_nil_r.
Qed.

Lemma calls_Delegating cs : forall ops,
  foldl make_call (Delegating ops) cs = Delegating (ops ++ concat (recorded <$> cs)).
Proof.
  induction cs as [|c cs IH]; intros ops; cbn; [by rewrite app_nil_r|].
  by rewrite make_call_Delegating, IH, <- app_assoc.
Qed.

Lemma replay_recorded c h : replay (recorded c) h = make_call h c.
Proof.
  destruct c as [a|name]; cbn; unfold defaultHandler_WithAttrs, defaultHandler_WithGroup;
    case_decide; subst; cbn; unfold replay_op; cbn.
  - by rewrite WithAttrs_nil.
  - done.
  - by rewrite WithGroup_nil.
  - by rewrite decide_False.
Qed.

(** Replaying the recorded calls is making them. *)
Lemma replay_calls cs : forall h, replay (concat (recorded <$> cs)) h = foldl make_call h cs.
Proof.
  induction cs as [|c cs IH]; intros h; [done|]. cbn [fmap list_fmap concat foldl].
  unfold replay in *. rewrite foldl_app, IH. f_equal. apply replay_recorded.
Qed.

(** What lies below the wrappers. *)
Fixpoint root (h : Handler) : Handler :=
  match h with Wrapper inner => root inner | _ => h end.

Fixpoint wrappers (h : Handler) : nat :=
  match h with Wrapper inner => S (wrappers inner) | _ => O end.

Definition delegates (h : Handler) : Prop := match root h with Delegating _ => True | _ => False end.

#[global] Instance delegates_dec h : Decision (delegates h).
Proof. unfold delegates. destruct (root h); apply _. Defined.

Lemma make_call_shape c h : (delegates (make_call h c) <-> delegates h) /\ wrappers (make_call h c) = wrappers h.
Proof.
  unfold delegates. induction h as [n calls|inner IH|ops]; destruct c; cbn; try done;
    by (split; [apply IH | f_equal; apply IH]).
Qed.

Lemma calls_shape cs : forall h, (delegates (foldl make_call h cs) <-> delegates h) /\
  wrappers (foldl make_call h cs) = wrappers h.
Proof.
  induction cs as [|c cs IH]; intros h; [done|]. cbn. destruct (IH (make_call h c)) as [H1 H2].
  destruct (make_call_shape c h) as [H3 H4]. split; [by rewrite H1 | congruence].
Qed.

(** Forwarding ends at a handler of the application. *)
Lemma Handle_ends h dflt : ~ delegates h ->
  exists r, forall fuel, (wrappers h < fuel)%nat -> Handle fuel dflt h = Ret r.
Proof.
  unfold delegates. induction h as [n calls|inner IH|ops]; intros Hd; cbn in Hd.
  - exists (n, calls). intros [|fuel] Hf; [lia | done].
  - destruct (IH Hd) as (r & Hr). exists r. intros [|fuel] Hf; [lia|]. cbn in *. apply Hr. lia.
  - done.
Qed.

(** A default that wraps a delegating handler forwards to itself for ever. *)
Lemma Handle_loops dflt inner : dflt = Wrapper inner -> delegates dflt ->
  forall fuel h, delegates h -> Handle fuel dflt h = OutOfFuel.
Proof.
  intros Hd Hw. induction fuel as [|fuel IH]; intros h Hh; [done|]. cbn.
  destruct h as [n calls|inner'|ops]; [done | by apply IH |]. apply IH. unfold resolve. rewrite Hd. cbn [nonDelegating].
  rewrite <- Hd. clear -Hw. revert Hw. generalize dflt. unfold replay.
  induction ops as [|op ops IH]; intros h Hh; [done|]. cbn. apply IH. unfold replay_op.
  case_decide; [apply (make_call_shape (CAttrs _) h) | apply (make_call_shape (CGroup _) h)]; done.
Qed.

(** ** Lemmas: loggers *)

Definition area_handler (name : gostring) : Handler := WithAttrs [mkAttr (lit "channel") name] (Delegating []).

(** The cached loggers are those [defaultAreaLogger] makes. *)
Definition cache_ok (p : package) : Prop :=
  forall name l, defaultLoggerByName p !! name = Some l -> logger_handler l = area_handler name.

Lemma defaultAreaLogger_spec name p : cache_ok p ->
  exists l p', defaultAreaLogger name p = (Ret l, p') /\ logger_handler l = area_handler name /\
    loggerFor p' = loggerFor p /\ cache_ok p' /\ defaultLoggerByName p' !! name = Some l /\
    defaultLoggerByName p ⊆ defaultLoggerByName p'.
Proof.
  intros Hc. unfold defaultAreaLogger, mbind, ST_bind, gets. cbn.
  destruct (defaultLoggerByName p !! name) as [l|] eqn:E.
  - exists l, p. split_and!; try done. by apply Hc.
  - cbn. unfold LoadOrStore. cbn. rewrite E. eexists _, _. split; [reflexivity|]. cbn. split_and!; try done.
    + intros n l. cbn. rewrite lookup_insert_Some. intros [[<- <-]|[_ H]]; [done | by apply Hc].
    + apply lookup_insert_eq.
    + by apply insert_subseteq.
Qed.

(** ** Lemmas: slices of operations *)

Section OpsLemmas.
Import Ops.

Lemma allocate_spec ops extra st s st' : allocate ops extra st = (s, st') ->
  contents s st' = ops /\ valid s st' /\ array s = length st /\ length st' = S (length st) /\
  (forall t, valid t st -> valid t st' /\ contents t st' = contents t st).
Proof.
  intros [= <- <-]. unfold contents, valid. cbn.
  rewrite list_lookup_middle by done. cbn. split_and!.
  - by rewrite take_app_length.
  - eexists. split; [done|]. rewrite length_app, length_replicate. split; [lia | done].
  - done.
  - rewrite length_app. cbn. lia.
  - intros t (a & Ha & Hl). pose proof (lookup_lt_Some _ _ _ Ha). rewrite !lookup_app_l by lia.
    split; [by exists a | done].
Qed.

(** Appending to the only slice of its array. *)
Lemma append_spec extra s op st s' st' : valid s st -> append extra s op st = (s', st') ->
  contents s' st' = contents s st ++ [op] /\ valid s' st' /\
  (forall t, valid t st -> array t ≠ array s -> valid t st' /\ contents t st' = contents t st).
Proof.
  intros (a & Ha & Hl & Hc). unfold append. case_decide as Hroom.
  - intros [= <- <-]. unfold contents, valid. cbn. rewrite list_lookup_alter_eq, Ha. cbn. split_and!.
    + rewrite <- (take_drop_middle a (length_of s) (default op (a !! length_of s))) at 1.
      * rewrite insert_app_r_alt by (rewrite length_take; lia).
        rewrite length_take_le, Nat.sub_diag by lia. cbn.
        rewrite take_app, take_take, length_take_le, Nat.min_r by lia.
        replace (S (length_of s) - length_of s)%nat with 1%nat by lia. done.
      * destruct (lookup_lt_is_Some_2 a (length_of s)) as [x ->]; [lia | done].
    + eexists. split; [done|]. rewrite length_insert. split; [lia | done].
    + intros t (a' & Ha' & Hl') Hne. rewrite list_lookup_alter_ne by done. split; [by exists a' | done].
  - intros E. destruct (allocate_spec _ _ _ _ _ E) as (H1 & H2 & _ & _ & H3). split_and!; [done | done |].
    intros t Ht _. by apply H3.
Qed.

Lemma append_clone_spec extra extra' s op st s' st' : valid s st ->
  append_clone extra extra' s op st = (s', st') ->
  contents s' st' = contents s st ++ [op] /\ valid s' st' /\
  (forall t, valid t st -> valid t st' /\ contents t st' = contents t st).
Proof.
  intros Hs. unfold append_clone, Clone. destruct (allocate _ _ _) as [s1 st1] eqn:E1. intros E2.
  destruct (allocate_spec _ _ _ _ _ E1) as (H1 & H2 & Ha & _ & H3).
  destruct (append_spec _ _ _ _ _ _ H2 E2) as (H4 & H5 & H6).
  rewrite H4, H1. split_and!; [done | done |].
  intros t Ht. destruct (H3 t Ht) as [Hv Hc]. destruct (H6 t Hv) as [Hv' Hc'].
  { rewrite Ha. destruct Ht as (a & E & _). apply lookup_lt_Some in E. lia. }
  split; [done | congruence].
Qed.

(** One call on a handler of the store. *)
Definition store_call (extra extra' : nat) (c : with_call) (s : slice) (st : store) : slice * store :=
  match c with
  | CAttrs a => Store_WithAttrs extra extra' a s st
  | CGroup name => Store_WithGroup extra extra' name s st
  end.

Lemma store_call_spec extra extra' c s st s' st' : valid s st -> store_call extra extra' c s st = (s', st') ->
  contents s' st' = contents s st ++ recorded c /\ valid s' st' /\
  (forall t, valid t st -> valid t st' /\ contents t st' = contents t st).
Proof.
  intros Hs. destruct c as [a|name]; cbn;
    unfold Store_WithAttrs, Store_WithGroup, defaultHandler_WithAttrs, defaultHandler_WithGroup; case_decide.
  1, 3: intros [= <- <-]; by rewrite app_nil_r.
  all: by apply append_clone_spec.
Qed.

(** A family of handlers: a step derives a new one from an earlier one. *)
Definition derive (fam : list slice * store) (x : nat * with_call * nat * nat) : list slice * store :=
  let '(i, c, extra, extra') := x in
  match fam.1 !! i with
  | Some s => let '(s', st') := store_call extra extra' c s fam.2 in (fam.1 ++ [s'], st')
  | None => fam
  end.

(** The same with lists that cannot be shared. *)
Definition derive_pure (fam : list (list handlerOp)) (x : nat * with_call * nat * nat) : list (list handlerOp) :=
  let '(i, c, _, _) := x in
  match fam !! i with Some ops => fam ++ [ops ++ recorded c] | None => fam end.

(** [&defaultHandler{}], whose list is nil. *)
Definition first : list slice * store := ([mkSlice 0 0 0], [[]]).

Lemma derive_spec l : forall fam, Forall (fun s => valid s fam.2) fam.1 ->
  let fam' := foldl derive fam l in
  (fun s => contents s fam'.2) <$> fam'.1 = foldl derive_pure ((fun s => contents s fam.2) <$> fam.1) l.
Proof.
  induction l as [|[[[i c] extra] extra'] l IH]; intros [ss st] Hv; [done|]. cbn [foldl derive derive_pure fst snd] in *.
  rewrite list_lookup_fmap. destruct (ss !! i) as [s|] eqn:Ei; [|by apply IH]. cbn [fmap option_fmap option_map].
  destruct (store_call extra extra' c s st) as [s' st'] eqn:E.
  pose proof (Forall_lookup_1 _ _ _ _ Hv Ei) as Hs.
  destruct (store_call_spec _ _ _ _ _ _ _ Hs E) as (H1 & H2 & H3).
  rewrite IH; cbn [fst snd].
  - f_equal. rewrite fmap_app. cbn. rewrite H1. f_equal. apply list_fmap_ext. intros j t Hj.
    apply H3. by eapply (Forall_lookup_1 _ _ _ _ Hv).
  - apply Forall_app. split; [|by constructor]. eapply Forall_impl; [exact Hv|]. intros t Ht. by apply H3.
Qed.

End OpsLemmas.

(** ** Properties *)

(** C38: what is logged through a default logger.  Without a resolver, [For]
    gives every caller of a name the same logger, and a record logged through
    it, with any attributes and groups added, arrives where it would arrive if
    the same calls had been made on the process's default handler of the
    moment (or on the fallback, if that default is itself one of the
    delegating handlers), with the channel's name added first, and the
    forwarding ends.  Only a default that wraps a delegating handler makes it
    forward for ever. *)
Theorem logging_faithful (name : gostring) (p : package) (dflt : Handler) (cs : list with_call) :
  cache_ok p -> loggerFor p = None \/ loggerFor p = Some None ->
  exists l p', For name p = (Ret l, p') /\ For name p' = (Ret l, p') /\ cache_ok p' /\
    let logged := foldl make_call (logger_handler l) cs in
    let direct := foldl make_call (nonDelegating dflt) (CAttrs [mkAttr (lit "channel") name] :: cs) in
    (~ delegates (nonDelegating dflt) -> exists r, forall fuel, (wrappers dflt < fuel)%nat ->
       Handle fuel dflt direct = Ret r /\ Handle (S fuel) dflt logged = Ret r) /\
    (delegates (nonDelegating dflt) -> forall fuel, Handle fuel dflt logged = OutOfFuel).
Proof.
  intros Hc Hf. destruct (defaultAreaLogger_spec name p Hc) as (l & p' & E & Hh & Hl & Hc' & Hin & _).
  assert (forall q, loggerFor q = None \/ loggerFor q = Some None -> For name q = defaultAreaLogger name q) as HFor.
  { intros q Hq. unfold For, mbind, ST_bind, getLoggerFor, gets. cbn. by destruct Hq as [-> | ->]. }
  exists l, p'. rewrite HFor by done. split; [done|].
  split; [rewrite HFor by (by rewrite Hl); unfold defaultAreaLogger, mbind, ST_bind, gets; cbn; by rewrite Hin|].
  split; [done|]. intros logged direct.
  assert (logged = Delegating (concat (recorded <$> (CAttrs [mkAttr (lit "channel") name] :: cs)))) as El.
  { unfold logged. rewrite Hh. unfold area_handler. cbn [WithAttrs]. by rewrite calls_Delegating. }
  assert (forall fuel, Handle (S fuel) dflt logged = Handle fuel dflt direct) as Hstep.
  { intros fuel. rewrite El. cbn [Handle]. unfold resolve. by rewrite replay_calls. }
  split.
  - intros Hd. destruct (calls_shape (CAttrs [mkAttr (lit "channel") name] :: cs) (nonDelegating dflt)) as [H1 H2].
    destruct (Handle_ends direct dflt) as (r & Hr); [by unfold direct; rewrite H1|].
    exists r. intros fuel Hfu. rewrite Hstep. split; apply Hr; unfold direct; rewrite H2;
      destruct dflt; cbn in *; lia.
  - intros Hd. assert (exists inner, dflt = Wrapper inner) as (inner & Ew).
    { destruct dflt as [n calls|inner|ops]; [done | by exists inner | done]. }
    assert (delegates dflt) as Hd' by (by rewrite Ew in *).
    intros fuel. apply (Handle_loops dflt inner Ew Hd'). by rewrite El.
Qed.

Lemma logging_faithful_witness :
  exists l p', For (lit "channel.dialer") (mkPackage None ∅ 1) = (Ret l, p') /\
    exists r, forall fuel, (1 < fuel)%nat ->
      Handle (S fuel) (Wrapper (Base 7 [])) (WithGroup (lit "g") (logger_handler l)) = Ret r.
Proof.
  destruct (logging_faithful (lit "channel.dialer") (mkPackage None ∅ 1) (Wrapper (Base 7 [])) [CGroup (lit "g")])
    as (l & p' & H1 & _ & _ & H2 & _).
  - intros n l. cbn. by rewrite lookup_empty.
  - by left.
  - exists l, p'. split; [exact H1|]. destruct H2 as (r & Hr); [exact (fun H => H)|].
    exists r. intros fuel Hf. apply (Hr fuel Hf).
Defined.

(** Handlers derived from a common handler do not disturb each other.  However
    a family of handlers is derived, each holds exactly the operations of its
    own derivation, although the lists are slices whose arrays may have unused
    room.  Appending without cloning would not do: two handlers derived from
    one would overwrite each other. *)
Theorem handlers_independent (l : list (nat * with_call * nat * nat)) (a b : handlerOp) :
  let fam := foldl derive first l in
  (fun s => Ops.contents s fam.2) <$> fam.1 = foldl derive_pure [[]] l /\
  (a ≠ b -> exists s st s1 st1 s2 st2, Ops.valid s st /\ Ops.append 0 s a st = (s1, st1) /\
     Ops.append 0 s b st1 = (s2, st2) /\ Ops.contents s1 st2 ≠ Ops.contents s1 st1).
Proof.
  split.
  - rewrite derive_spec; [done|]. constructor; [|done]. exists []. done.
  - intros Hab. exists (Ops.mkSlice 0 0 1), [[mkOp [] []]]. do 4 eexists.
    split; [eexists; split; [reflexivity|]; split; [cbn; lia | reflexivity]|].
    split; [reflexivity|]. split; [reflexivity|]. cbn. intros [= E]. by apply Hab.
Qed.

(** Concurrent callers agree.  However calls of [defaultAreaLogger] interleave,
    all that have returned for a name have the same logger, the cached one, and
    it is a default logger of that name. *)
Theorem callers_agree (l : list Area.step) (f : option (option resolver)) :
  let st := foldl Area.exec_area (Area.mkState (mkPackage f ∅ 0) [] []) l in
  forall name x, (name, x) ∈ Area.returned st ->
    defaultLoggerByName (Area.pkg st) !! name = Some x /\ logger_handler x = area_handler name.
Proof.
  cbn zeta. set (ok st := cache_ok (Area.pkg st) /\
    (forall name x, (name, x) ∈ Area.pending st -> logger_handler x = area_handler name) /\
    (forall name x, (name, x) ∈ Area.returned st -> defaultLoggerByName (Area.pkg st) !! name = Some x)).
  assert (forall l st, ok st -> ok (foldl Area.exec_area st l)) as Hall.
  { clear l. induction l as [|s l IH]; intros st Hok; [done|]. cbn. apply IH. destruct Hok as (H1 & H2 & H3).
    destruct s as [name|i]; cbn.
    - destruct (defaultLoggerByName (Area.pkg st) !! name) as [x|] eqn:E; unfold ok; cbn.
      + split_and!; [done | done |]. intros n y. rewrite elem_of_app, list_elem_of_singleton.
        intros [H|[= -> ->]]; auto.
      + split_and!; [done | | done]. intros n y. rewrite elem_of_app, list_elem_of_singleton.
        intros [H|[= -> ->]]; [eauto | done].
    - destruct (Area.pending st !! i) as [[name x]|] eqn:Ei; [|done]. apply list_elem_of_lookup_2 in Ei as Hx.
      unfold LoadOrStore. destruct (defaultLoggerByName (Area.pkg st) !! name) as [y|] eqn:E; unfold ok; cbn.
      + split_and!; [done | intros n z Hz; by eapply H2, list_elem_of_delete_inv |].
        intros n z. rewrite elem_of_app, list_elem_of_singleton. intros [H|[= -> ->]]; auto.
      + split_and!.
        * intros n z. cbn. rewrite lookup_insert_Some. intros [[<- <-]|[_ H]]; [eauto | by apply H1].
        * intros n z Hz. by eapply H2, list_elem_of_delete_inv.
        * intros n z. rewrite elem_of_app, list_elem_of_singleton. intros [H|[= -> ->]].
          -- rewrite lookup_insert_ne; [by apply H3|]. intros ->. apply H3 in H. congruence.
          -- apply lookup_insert_eq. }
  destruct (Hall l (Area.mkState (mkPackage f ∅ 0) [] [])) as (H1 & _ & H3).
  { split_and!; cbn; [by intros n x; cbn; rewrite lookup_empty | set_solver | set_solver]. }
  intros name x Hx. split; [by apply H3|]. by apply H1, H3.
Qed.

(** Precedence of loggers: the channel's own, the resolver's if it has one for
    the name, else the default of the name; always a logger. *)
Theorem logger_precedence (opts : option (option Logger)) (name : gostring) (f : option resolver) (p : package) :
  cache_ok p ->
  exists l p', resolveEventLogger opts name f p = (Ret l, p') /\
    match opts, f with
    | Some (Some own), _ => l = own /\ p' = p
    | _, Some g => match g name with Some l' => l = l' /\ p' = p | None => logger_handler l = area_handler name end
    | _, None => logger_handler l = area_handler name
    end.
Proof.
  intros Hc. destruct (defaultAreaLogger_spec name p Hc) as (l & p' & E & Hh & _).
  unfold resolveEventLogger, resolveArea. destruct opts as [[own|]|], f as [g|]; try (by eexists _, _);
    try destruct (g name); by eauto.
Qed.
