(* ===== verification/Link.v ===== *)
(** * Two connected channels (src/impl.go over src/message.go and the underlays)

    Two channels joined by any number of connections: on each connection a send
    loop of the first channel ([ChannelImpl.tx]) writes messages through an
    underlay, the network carries (delays, divides, loses) them, and a receive
    loop of the second channel ([ChannelImpl.rx]) reads and delivers them.
    Connections come and go while the channels do other things.

    What a kind of underlay promises about its connection is the interface
    [Transport] with its laws [TransportLaws]; the theorems here are proved
    against it, and [Transports] shows that streams and websockets keep it, and
    states the theorems for them; packets do not keep it.  The abstract
    specification is a queue of messages per connection.  What a send is asked
    to write ([offered]) is said apart from [tx]; that [tx] hands exactly that
    to the underlay is proved ([tx_offered]).

    Theorems: the two channels refine the queues; what the second channel
    delivers from a connection is, in order and without repetition, what the
    first has written to it, up to where the connection broke; what has arrived
    can be read. *)

From S2P Require Import Prelude Headers Wire Underlays Waiters ChannelImpl.

(** ** The interface of a transport *)

(** A message the wire format can carry. *)
Definition carriable (m : Message) : Prop := wf_message m /\ fits m.

(** [C] is the state of a connection as seen by its two ends: [Tx_frame] is
    what a successful [Tx] leaves on it, [Tx_part] what a failed one leaves
    that got [n] bytes out, [Rx_next] the next [Rx]; the network moves what is
    on it along, and may lose some of it. *)
Class Transport (C : Type) : Type := {
  Tx_frame : Message -> C -> option C;
  Tx_part : nat -> Message -> C -> C;
  Rx_next : C -> outcome (Message * C);
  moves : C -> C -> Prop;
  loses : C -> C -> Prop;
  on_wire : bool -> C -> list Message -> Prop
}.

(** [on_wire clean c q]: the messages [q] are on the connection, complete and
    in order; [clean] if nothing follows them. *)
Class TransportLaws (C : Type) `{Transport C} : Prop := {
  law_tx c q m : on_wire true c q -> carriable m ->
    exists c', Tx_frame m c = Some c' /\ on_wire true c' (q ++ [m]);
  law_part c q m n : on_wire true c q -> carriable m ->
    exists arrived, (arrived = [] \/ arrived = [m]) /\ on_wire false (Tx_part n m c) (q ++ arrived);
  law_rx clean c m q : on_wire clean c (m :: q) ->
    exists c', Rx_next c = Ret (wire_message m, c') /\ on_wire clean c' q;
  law_end clean c : on_wire clean c [] -> exists e, Rx_next c = Err e;
  law_moves clean c c' q : on_wire clean c q -> moves c c' -> on_wire clean c' q;
  law_loses clean c c' q : on_wire clean c q -> loses c c' ->
    exists kept, kept `prefix_of` q /\ on_wire false c' kept
}.

(** ** The two channels *)

(** What can be observed: a message handed to an underlay, with success or
    failure of the write, and a message read, with the connection. *)
Inductive label : Type :=
  | LWrite (i : nat) (m : Message)
  | LFail (i : nat) (m : Message)
  | LRead (i : nat) (m : Message)
  | LTau.

Section Pair.
Context {C : Type} `{Transport C}.
Context (rng : gmap Z (waiter receiver) -> list (Z * waiter receiver)) (closeErr : nat -> option error)
  (injectType : bool).

(** One connection with its ends; [stopped] when the send loop has ended,
    [cut] when the network has lost something, [reading] while the receive
    loop runs. *)
Record link : Type := mkLink {
  data : C;
  stopped : bool;
  cut : bool;
  reading : bool;
  endA : Underlay;
  endB : Underlay
}.

Record pair : Type := mkPair { sideA : channelImpl; sideB : channelImpl; links : list link }.

Definition with_data (c : C) (k : link) : link := mkLink c (stopped k) (cut k) (reading k) (endA k) (endB k).
Definition stop (k : link) : link := mkLink (data k) true (cut k) (reading k) (endA k) (endB k).
Definition lose_link (k : link) : link := mkLink (data k) (stopped k) true (reading k) (endA k) (endB k).
Definition stop_reading (k : link) : link := mkLink (data k) (stopped k) (cut k) false (endA k) (endB k).

(** What a send is asked to write, with the answer of the underlay: the message
    of the sendable as the transform handlers leave it, if the sendable's time
    has not run out and the write deadline can be set. *)
Definition offered (a : channelImpl) (env : tx_env) (s : sendable) (writeTimeout : Z) : option (Message * bool) :=
  match writeContextErr s, msg s, (if decide (0 < writeTimeout) then setTimeoutErr env else None) with
  | None, Some m, None => Some (transformed a m, match txErr env with None => true | Some _ => false end)
  | _, _, _ => None
  end.

Definition tx_label (i : nat) (a : channelImpl) (env : tx_env) (s : sendable) (writeTimeout : Z) : label :=
  match offered a env s writeTimeout with
  | Some (m, true) => LWrite i m
  | Some (m, false) => LFail i m
  | None => LTau
  end.

(** The messages that were handed to underlays between two states. *)
Definition new_writes (a a' : channelImpl) : list Message := drop (length (writes (log a))) (writes (log a')).

(** What these leave on the connection, if the writes succeed, and if they fail
    after [n] bytes. *)
Fixpoint carried (ok : bool) (n : nat) (ms : list Message) (c : C) : option C :=
  match ms with
  | [] => Some c
  | m :: ms => if ok then c' ← Tx_frame m c; carried ok n ms c' else carried ok n ms (Tx_part n m c)
  end.

(** What is sent into a connection that was cut goes nowhere. *)
Definition after_tx (k : link) (env : tx_env) (n : nat) (ms : list Message) (c' : C) : Prop :=
  if cut k then c' = data k else carried (match txErr env with None => true | Some _ => false end) n ms (data k) = Some c'.

(** What the receive loop makes of a message it has read. *)
Definition prepared (b : channelImpl) (k : link) (m : Message) : Message :=
  inject_type injectType (getValidatedUnderlayType b (endB k)) m.

Definition is_tx (s : step) : bool := match s with STx _ _ _ _ => true | _ => false end.
Definition is_rx (s : step) : bool := match s with SRx _ _ => true | _ => false end.

Inductive pair_step : label -> pair -> pair -> Prop :=
  | step_tx p i k env s wt now r a' n c' :
      links p !! i = Some k -> stopped k = false ->
      tx env s wt now (sideA p) = (r, a') -> after_tx k env n (new_writes (sideA p) a') c' ->
      (forall m ok, offered (sideA p) env s wt = Some (m, ok) -> carriable m) ->
      pair_step (tx_label i (sideA p) env s wt) p
        (mkPair a' (sideB p)
           (<[i := match r with Ret _ => with_data c' k | _ => stop (with_data c' k) end]> (links p)))
  | step_txer_ends p i k notifier now :
      links p !! i = Some k ->
      pair_step LTau p
        (mkPair (closeUnderlay closeErr (endA k) notifier now (sideA p)).2 (sideB p) (<[i := stop k]> (links p)))
  | step_read p i k m c' now :
      links p !! i = Some k -> reading k = true -> Rx_next (data k) = Ret (m, c') ->
      pair_step (LRead i m) p
        (mkPair (sideA p) (rx rng (prepared (sideB p) k m) now (sideB p)).2
           (<[i := with_data c' k]> (links p)))
  | step_rxer_ends p i k e notifier now :
      links p !! i = Some k -> stopped k || cut k = true -> Rx_next (data k) = Err e ->
      pair_step LTau p
        (mkPair (sideA p) (closeUnderlay closeErr (endB k) notifier now (sideB p)).2
           (<[i := stop_reading k]> (links p)))
  | step_move p i k c' :
      links p !! i = Some k -> moves (data k) c' ->
      pair_step LTau p (mkPair (sideA p) (sideB p) (<[i := with_data c' k]> (links p)))
  | step_lose p i k c' :
      links p !! i = Some k -> loses (data k) c' ->
      pair_step LTau p (mkPair (sideA p) (sideB p) (<[i := lose_link (with_data c' k)]> (links p)))
  | step_connect p c u v :
      on_wire true c [] ->
      pair_step LTau p (mkPair (sideA p) (sideB p) (links p ++ [mkLink c false false true u v]))
  | step_A p s :
      is_tx s = false ->
      pair_step LTau p (mkPair (exec_step closeErr rng (sideA p) s) (sideB p) (links p))
  | step_B p s :
      is_rx s = false ->
      pair_step LTau p (mkPair (sideA p) (exec_step closeErr rng (sideB p) s) (links p)).

End Pair.
Arguments link : clear implicits.
Arguments pair : clear implicits.

(** Runs of a labelled step relation, with what is observed. *)
Inductive runs {S} (R : label -> S -> S -> Prop) : list label -> S -> S -> Prop :=
  | runs_refl s : runs R [] s s
  | runs_tau tr s s' s'' : R LTau s s' -> runs R tr s' s'' -> runs R tr s s''
  | runs_label l tr s s' s'' : l ≠ LTau -> R l s s' -> runs R tr s' s'' -> runs R (l :: tr) s s''.

(** ** The specification: a queue per connection *)

Record fifo : Type := mkFifo { pending : list Message; f_stopped : bool; f_cut : bool }.

Definition enqueue (m : Message) (q : fifo) : fifo :=
  if f_cut q then q else mkFifo (pending q ++ [m]) (f_stopped q) false.

Inductive fifo_step : label -> list fifo -> list fifo -> Prop :=
  | F_write qs i q m : qs !! i = Some q -> f_stopped q = false ->
      fifo_step (LWrite i m) qs (<[i := enqueue m q]> qs)
  | F_fail qs i q m arrived : qs !! i = Some q -> f_stopped q = false -> arrived = [] \/ arrived = [m] ->
      fifo_step (LFail i m) qs
        (<[i := mkFifo (pending q ++ (if f_cut q then [] else arrived)) true (f_cut q)]> qs)
  | F_read qs i m rest st cu : qs !! i = Some (mkFifo (m :: rest) st cu) ->
      fifo_step (LRead i (wire_message m)) qs (<[i := mkFifo rest st cu]> qs)
  | F_stop qs i q : qs !! i = Some q ->
      fifo_step LTau qs (<[i := mkFifo (pending q) true (f_cut q)]> qs)
  | F_lose qs i q kept : qs !! i = Some q -> kept `prefix_of` pending q ->
      fifo_step LTau qs (<[i := mkFifo kept (f_stopped q) true]> qs)
  | F_connect qs : fifo_step LTau qs (qs ++ [mkFifo [] false false])
  | F_idle qs : fifo_step LTau qs qs.

(** The messages a run wrote to, and read from, a connection. *)
Definition sent (i : nat) (tr : list label) : list Message :=
  omap (fun l => match l with LWrite j m | LFail j m => if decide (j = i) then Some m else None | _ => None end) tr.

Definition read (i : nat) (tr : list label) : list Message :=
  omap (fun l => match l with LRead j m => if decide (j = i) then Some m else None | _ => None end) tr.

(** ** Lemmas: the simulation *)

(** A send hands to the underlay exactly the message it was asked to write, once,
    and tells the loop to end exactly when something failed. *)
Lemma tx_offered env s wt now a r a' : tx env s wt now a = (r, a') ->
  match offered a env s wt with
  | Some (m, true) => r = Ret tt /\ new_writes a a' = [m] /\ txErr env = None
  | Some (m, false) => (exists e, r = Err e) /\ new_writes a a' = [m] /\ exists e, txErr env = Some e
  | None => (r = Ret tt \/ exists e, r = Err e) /\ new_writes a a' = []
  end.
Proof.
  intros E. destruct (tx_writes env s wt now a) as (r1 & a1 & E1 & _ & _ & Hw). rewrite E in E1.
  injection E1 as <- <-. unfold offered, new_writes.
  destruct (writeContextErr s); [|destruct (msg s); [|]].
  1, 3: destruct Hw as [-> ->]; split; [by left | apply drop_ge; lia].
  destruct (if decide (0 < wt) then setTimeoutErr env else None) as [e|]; [|destruct (txErr env) as [e|]];
    destruct Hw as [-> Hw]; rewrite Hw; rewrite ?drop_app_length.
  - split; [right; by exists e | apply drop_ge; lia].
  - split; [by exists e|]. split; [done | by exists e].
  - done.
Qed.

(** What was written is the log before and what is new. *)
Lemma writes_new env s wt now a r a' : tx env s wt now a = (r, a') ->
  writes (log a') = writes (log a) ++ new_writes a a'.
Proof.
  intros E. destruct (tx_writes env s wt now a) as (r1 & a1 & E1 & _ & _ & Hw). rewrite E in E1.
  injection E1 as <- <-. unfold new_writes. cut (exists l, writes (log a') = writes (log a) ++ l).
  { intros (l & ->). by rewrite drop_app_length. }
  repeat case_match; destruct Hw as [_ ->]; solve [eexists; reflexivity | exists []; by rewrite app_nil_r].
Qed.

Section Simulation.
Context {C : Type} `{TransportLaws C}.
Context (rng : gmap Z (waiter receiver) -> list (Z * waiter receiver)) (closeErr : nat -> option error)
  (injectType : bool).

Abbreviation pair_step := (pair_step (C := C) rng closeErr injectType).

(** A connection that neither stopped nor was cut is clean. *)
Definition matches (k : link C) (q : fifo) : Prop :=
  stopped k = f_stopped q /\ cut k = f_cut q /\
  exists clean, on_wire clean (data k) (pending q) /\ (stopped k = false -> cut k = false -> clean = true).

Definition related (p : pair C) (qs : list fifo) : Prop := Forall2 matches (links p) qs.

Lemma matches_lookup ks qs i k : Forall2 matches ks qs -> ks !! i = Some k ->
  exists q, qs !! i = Some q /\ matches k q.
Proof. intros Hm Hi. by eapply Forall2_lookup_l. Qed.

Lemma matches_write k q m c' : matches k q -> stopped k = false -> carriable m ->
  (if cut k then c' = data k else Tx_frame m (data k) = Some c') ->
  matches (with_data c' k) (enqueue m q).
Proof.
  intros (Hs & Hc & clean & Hw & Hcl) Hst Hm Ha. unfold enqueue in *. rewrite <- Hc.
  destruct (cut k) eqn:Ek.
  - subst c'. split; [done|]. split; [by cbn; rewrite <- Hc|]. exists clean. split; [done|]. cbn. congruence.
  - rewrite (Hcl Hst eq_refl) in Hw. destruct (law_tx _ _ _ Hw Hm) as (c1 & E1 & Hw1).
    rewrite E1 in Ha. injection Ha as <-. split; [done|]. split; [done|]. by exists true.
Qed.

Lemma matches_fail k q m n c' : matches k q -> stopped k = false -> carriable m ->
  (if cut k then c' = data k else c' = Tx_part n m (data k)) ->
  exists arrived, (arrived = [] \/ arrived = [m]) /\
    matches (stop (with_data c' k)) (mkFifo (pending q ++ (if f_cut q then [] else arrived)) true (f_cut q)).
Proof.
  intros (Hs & Hc & clean & Hw & Hcl) Hst Hm Ha. rewrite <- Hc. destruct (cut k) eqn:Ek; subst c'.
  - exists []. split; [by left|]. rewrite app_nil_r. split; [done|]. split; [done|]. by exists clean.
  - rewrite (Hcl Hst eq_refl) in Hw. destruct (law_part _ _ _ n Hw Hm) as (arrived & Ha & Hw1).
    exists arrived. split; [done|]. split; [done|]. split; [done|]. by exists false.
Qed.

(** A send loop that ends leaves what is on the connection. *)
Lemma matches_stop k q : matches k q -> matches (stop k) (mkFifo (pending q) true (f_cut q)).
Proof. intros (_ & Hc & clean & Hw & _). split; [done|]. split; [done|]. by exists clean. Qed.

(** Every step of the two channels is a step of the queues. *)
Lemma pair_step_simulated l p p' qs : pair_step l p p' -> related p qs ->
  exists qs', fifo_step l qs qs' /\ related p' qs'.
Proof.
  intros Hstep Hr. unfold related in *.
  destruct Hstep as [p i k env s wt now r a' n c' Hi Hst Htx Ha Hm | p i k notifier now Hi | p i k m c' now Hi Hrd Hrx
    | p i k e notifier now Hi Hend Hrx | p i k c' Hi Hmv | p i k c' Hi Hls | p c u v Hc | p s Hs | p s Hs];
    cbn [links]; try (destruct (matches_lookup _ _ _ _ Hr Hi) as (q & Hq & Hk)).
  - pose proof (tx_offered _ _ _ _ _ _ _ Htx) as Ho. unfold tx_label, after_tx in *.
    assert (f_stopped q = false) as Hfs by (by destruct Hk as (<- & _)).
    destruct (offered (sideA p) env s wt) as [[m [|]]|].
    + destruct Ho as (-> & Hn & Ho). rewrite Hn, Ho in Ha. exists (<[i := enqueue m q]> qs). split; [by constructor|].
      apply Forall2_insert; [done|]. apply matches_write; [done | done | by eapply Hm |].
      destruct (cut k); [done|]. cbn in Ha. by destruct (Tx_frame m (data k)).
    + destruct Ho as ((e & ->) & Hn & (e' & Ho)). rewrite Hn, Ho in Ha.
      destruct (matches_fail k q m n c' Hk Hst (Hm _ _ eq_refl)) as (arrived & Har & Hk');
        [destruct (cut k); [done | by injection Ha as <-]|].
      eexists. split; [by eapply (F_fail _ _ _ _ arrived)|]. by apply Forall2_insert.
    + destruct Ho as (Hr' & Hn). rewrite Hn in Ha. assert (with_data c' k = k) as ->.
      { destruct k; cbn in *. by destruct cut0; [subst | injection Ha as <-]. }
      destruct Hr' as [-> | (e & ->)]; [exists qs; split; [apply F_idle|]; by rewrite list_insert_id|].
      eexists. split; [by eapply F_stop|]. apply Forall2_insert; [done|]. by apply matches_stop.
  - eexists. split; [by eapply F_stop|]. apply Forall2_insert; [done|]. by apply matches_stop.
  - destruct Hk as (Hs1 & Hc1 & clean & Hw1 & Hcl). destruct q as [[|m0 rest] st cu]; cbn in *.
    { destruct (law_end _ _ Hw1) as (e & E). congruence. }
    destruct (law_rx _ _ _ _ Hw1) as (c1 & E1 & Hw2). rewrite E1 in Hrx. injection Hrx as <- <-.
    eexists. split; [by eapply F_read|]. apply Forall2_insert; [done|]. split; [done|]. split; [done|]. by exists clean.
  - exists qs. split; [apply F_idle|]. rewrite <- (list_insert_id qs i q) by done.
    by apply Forall2_insert.
  - exists qs. split; [apply F_idle|]. rewrite <- (list_insert_id qs i q) by done. apply Forall2_insert; [done|].
    destruct Hk as (Hs1 & Hc1 & clean & Hw1 & Hcl). split; [done|]. split; [done|].
    exists clean. split; [by eapply law_moves | done].
  - destruct Hk as (Hs1 & Hc1 & clean & Hw1 & Hcl). destruct (law_loses _ _ _ _ Hw1 Hls) as (kept & Hp & Hw2).
    eexists. split; [by eapply F_lose|]. apply Forall2_insert; [done|]. split; [done|]. split; [done|]. by exists false.
  - eexists. split; [apply F_connect|]. apply Forall2_app; [done|]. constructor; [|done]. split; [done|]. split; [done|].
    by exists true.
  - exists qs. split; [apply F_idle | done].
  - exists qs. split; [apply F_idle | done].
Qed.

Lemma run_simulated tr p p' : runs pair_step tr p p' -> forall qs, related p qs ->
  exists qs', runs fifo_step tr qs qs' /\ related p' qs'.
Proof.
  induction 1 as [p|tr p p1 p' Hs Hr IH|l tr p p1 p' Hl Hs Hr IH]; intros qs Hq.
  - exists qs. split; [constructor | done].
  - destruct (pair_step_simulated _ _ _ _ Hs Hq) as (q1 & F1 & R1). destruct (IH _ R1) as (q' & F & R').
    exists q'. split; [by eapply runs_tau | done].
  - destruct (pair_step_simulated _ _ _ _ Hs Hq) as (q1 & F1 & R1). destruct (IH _ R1) as (q' & F & R').
    exists q'. split; [by eapply runs_label | done].
Qed.

End Simulation.

(** ** Lemmas: the queues *)

Lemma sent_cons i l tr : sent i (l :: tr) =
  match l with LWrite j m | LFail j m => if decide (j = i) then [m] else [] | _ => [] end ++ sent i tr.
Proof. unfold sent. cbn. by destruct l; try case_decide. Qed.

Lemma read_cons i l tr : read i (l :: tr) =
  match l with LRead j m => if decide (j = i) then [m] else [] | _ => [] end ++ read i tr.
Proof. unfold read. cbn. by destruct l; try case_decide. Qed.

(** The messages waiting on connection [i], none if it is not there yet. *)
Definition waiting (i : nat) (qs : list fifo) : list Message := from_option pending [] (qs !! i).
Definition cut_at (i : nat) (qs : list fifo) : bool := from_option f_cut false (qs !! i).
Definition stopped_at (i : nat) (qs : list fifo) : bool := from_option f_stopped false (qs !! i).

(** A step that loses nothing. *)
Ltac nothing_lost' :=
  split; [done|]; exists []; cbn; (split; [|done]); repeat case_match; rewrite ?fmap_app, ?app_nil_r; done.
Ltac nothing_lost := split; [done|]; nothing_lost'.

(** What a step does on connection [i]. *)
Lemma fifo_step_at l qs qs' i : fifo_step l qs qs' ->
  (stopped_at i qs = true -> stopped_at i qs' = true /\ sent i [l] = []) /\
  (cut_at i qs = true -> cut_at i qs' = true) /\
  exists lost, (wire_message <$> (waiting i qs ++ (if cut_at i qs then [] else sent i [l])) =
      read i [l] ++ (wire_message <$> waiting i qs') ++ lost) /\
    (lost ≠ [] -> stopped_at i qs' = true \/ cut_at i qs' = true).
Proof.
  intros Hstep. unfold waiting, cut_at, stopped_at.
  assert (forall j q q', qs !! j = Some q -> (<[j := q']> qs) !! i = if decide (j = i) then Some q' else qs !! i) as Hins.
  { intros j q q' Hj. case_decide as E; [subst; apply list_lookup_insert_eq; by eapply lookup_lt_Some |
      by apply list_lookup_insert_ne]. }
  destruct Hstep as [qs j q m Hj Hst | qs j q m arrived Hj Hst Har | qs j m rest st cu Hj | qs j q Hj
    | qs j q kept Hj Hp | qs | qs]; rewrite ?sent_cons, ?read_cons;
    try (rewrite (Hins _ _ _ Hj); case_decide as E; [subst j; rewrite Hj; cbn|]).
  all: try nothing_lost.
  - unfold enqueue. split; [by rewrite Hst|]. destruct (f_cut q) eqn:Ec; cbn; nothing_lost'.
  - split; [by rewrite Hst|]. destruct (f_cut q); cbn; [nothing_lost'|]. destruct Har as [-> | ->]; [|nothing_lost'].
    split; [done|]. exists [wire_message m]. rewrite fmap_app, app_nil_r. split; [done | by left].
  - split; [done|]. split; [done|]. destruct Hp as [lost Hp]. exists (wire_message <$> lost).
    rewrite Hp. split; [destruct (f_cut q); by rewrite app_nil_r, fmap_app | by right].
  - assert ((qs ++ [mkFifo [] false false]) !! i = qs !! i \/
      qs !! i = None /\ (qs ++ [mkFifo [] false false]) !! i = Some (mkFifo [] false false)) as [-> | [-> ->]];
      [|nothing_lost|nothing_lost].
    destruct (decide (i < length qs)%nat); [left; by apply lookup_app_l|].
    destruct (decide (i = length qs)) as [-> |].
    + right. split; [apply lookup_ge_None_2; lia|]. by rewrite list_lookup_middle.
    + left. rewrite !lookup_ge_None_2; [done | lia | rewrite length_app; cbn; lia].
Qed.

Lemma runs_stopped tr qs qs' i : runs fifo_step tr qs qs' -> stopped_at i qs = true -> sent i tr = [].
Proof.
  induction 1 as [q|tr q q1 q' Hs Hr IH|l tr q q1 q' Hl Hs Hr IH]; intros Hst; [done| |].
  - destruct (fifo_step_at _ _ _ i Hs) as (H1 & _). destruct (H1 Hst) as [H2 _]. by apply IH.
  - destruct (fifo_step_at _ _ _ i Hs) as (H1 & _). destruct (H1 Hst) as [H2 H3].
    rewrite sent_cons in *. rewrite app_nil_r in H3. rewrite H3. by apply IH.
Qed.

Lemma runs_open tr qs qs' i : runs fifo_step tr qs qs' ->
  (stopped_at i qs' = false -> stopped_at i qs = false) /\ (cut_at i qs' = false -> cut_at i qs = false).
Proof.
  induction 1 as [q|tr q q1 q' Hs Hr [IH1 IH2]|l tr q q1 q' Hl Hs Hr [IH1 IH2]]; [done|..].
  all: destruct (fifo_step_at _ _ _ i Hs) as (H1 & H2 & _); split; intros H; apply not_true_iff_false; intros E.
  1, 3: rewrite IH1 in H1 by done; by destruct (H1 E).
  all: by rewrite IH2 in H2 by done; specialize (H2 E).
Qed.

(** What is read is what was waiting and sent, in order. *)
Lemma runs_order tr qs qs' i : runs fifo_step tr qs qs' ->
  read i tr `prefix_of` (wire_message <$> (waiting i qs ++ (if cut_at i qs then [] else sent i tr))) /\
  (stopped_at i qs' = false -> cut_at i qs' = false ->
   wire_message <$> (waiting i qs ++ sent i tr) = read i tr ++ (wire_message <$> waiting i qs')).
Proof.
  assert (forall l tr q q1 q', fifo_step l q q1 -> runs fifo_step tr q1 q' ->
    (read i tr `prefix_of` (wire_message <$> (waiting i q1 ++ (if cut_at i q1 then [] else sent i tr))) /\
     (stopped_at i q' = false -> cut_at i q' = false ->
      wire_message <$> (waiting i q1 ++ sent i tr) = read i tr ++ (wire_message <$> waiting i q'))) ->
    read i [l] ++ read i tr `prefix_of`
      (wire_message <$> (waiting i q ++ (if cut_at i q then [] else sent i [l] ++ sent i tr))) /\
    (stopped_at i q' = false -> cut_at i q' = false ->
     wire_message <$> (waiting i q ++ sent i [l] ++ sent i tr) = (read i [l] ++ read i tr) ++ (wire_message <$> waiting i q'))) as Hstep.
  { clear. intros l tr q q1 q' Hs Hr [IH1 IH2]. destruct (fifo_step_at _ _ _ i Hs) as (Hst & Hcu & lost & Hl & Hlost).
    split.
    - assert (read i tr `prefix_of` (wire_message <$> waiting i q1) ++ lost ++
        (if cut_at i q then [] else wire_message <$> sent i tr)) as Hp.
      { rewrite fmap_app in IH1. destruct (decide (lost = [])) as [-> |Hne]; cbn.
        - destruct (cut_at i q); [rewrite Hcu in IH1 by done; done|].
          etrans; [exact IH1|]. apply prefix_app. destruct (cut_at i q1); [apply prefix_nil | done].
        - etrans; [exact IH1|]. apply prefix_app. destruct (cut_at i q1) eqn:E1; [apply prefix_nil|].
          destruct (Hlost Hne) as [E | E]; [|congruence]. rewrite (runs_stopped _ _ _ _ Hr E). apply prefix_nil. }
      destruct (cut_at i q).
      + rewrite app_nil_r in Hl |- *. rewrite Hl. apply prefix_app. by rewrite app_nil_r in Hp.
      + rewrite app_assoc, fmap_app, Hl, <- !app_assoc. by apply prefix_app.
    - intros H1 H2. destruct (runs_open _ _ _ i Hr) as [O1 O2]. specialize (O1 H1). specialize (O2 H2).
      assert (cut_at i q = false) as Ecut by (apply not_true_iff_false; intros E; by rewrite (Hcu E) in O2).
      assert (lost = []) as ->.
      { destruct (decide (lost = [])) as [-> |Hne]; [done|]. destruct (Hlost Hne); congruence. }
      rewrite Ecut, app_nil_r in Hl. rewrite app_assoc, fmap_app, Hl, <- !app_assoc. f_equal.
      rewrite <- IH2 by done. by rewrite fmap_app. }
  induction 1 as [q|tr q q1 q' Hs Hr IH|l tr q q1 q' Hl Hs Hr IH].
  - split; [apply prefix_nil|]. intros _ _. by rewrite app_nil_r.
  - apply (Hstep LTau _ _ _ _ Hs Hr IH).
  - rewrite (sent_cons i l tr), (read_cons i l tr). specialize (Hstep l _ _ _ _ Hs Hr IH).
    rewrite (sent_cons i l []), (read_cons i l []), !app_nil_r in Hstep. done.
Qed.

(** ** Lemmas: the logs of the channels *)

(** A change that keeps the configuration and the handlers. *)
Definition steady (c c' : channelImpl) : Prop := cfg c' = cfg c /\ handlers c' = handlers c.

#[global] Instance steady_preorder : PreOrder steady.
Proof. split; [done|]. intros c1 c2 c3 [A1 A2] [B1 B2]. split; congruence. Qed.

Lemma tidy_steady c c' : tidy c c' -> steady c c'.
Proof. intros (H1 & _ & H2 & _). done. Qed.

Lemma remove_underlay_tidy closeErr u now c :
  let c' := (remove_underlay closeErr u now c).2 in
  steady c c' /\ deliveries (log c') = deliveries (log c) /\ writes (log c') = writes (log c).
Proof.
  unfold remove_underlay. destruct (Remove u (underlays c)) as [[b ns] us].
  destruct (notify_tidy closeErr ns now (set_underlays us c)) as (c' & -> & T). cbn.
  pose proof (tidy_steady _ _ T) as [S1 S2]. destruct T as (_ & _ & _ & _ & T5 & T6). done.
Qed.

Lemma repair_fallback_log u c :
  let c' := (repair_fallback u c).2 in steady c c' /\ log c' = log c.
Proof. unfold repair_fallback. by repeat case_match. Qed.

Lemma closeUnderlay_log closeErr u notifier now c :
  let c' := (closeUnderlay closeErr u notifier now c).2 in
  steady c c' /\ deliveries (log c') = deliveries (log c) /\ writes (log c') = writes (log c).
Proof.
  destruct (closeUnderlay_spec closeErr u notifier now c) as (c' & n' & E & _ & _ & _ & Hh & Hd & Hw).
  rewrite E. cbn. split; [|done]. split; [|done]. revert E. unfold closeUnderlay.
  erewrite bind_Ret by reflexivity. unfold mbind, ST_bind.
  pose proof (remove_underlay_tidy closeErr u now (close_underlay u c)) as ((S1 & _) & _).
  destruct (remove_underlay closeErr u now (close_underlay u c)) as [[r| | |] c1]; try done.
  pose proof (repair_fallback_log u c1) as ((S2 & _) & _).
  destruct (repair_fallback u c1) as [[r2| | |] c2]; try done.
  intros [= _ <-]. cbn in *. congruence.
Qed.

Lemma rx_writes rng m now c : writes (log (rx rng m now c).2) = writes (log c).
Proof.
  rewrite rx_spec. cbn zeta. set (m1 := foldl _ m _). set (c1 := emit _ (set_lastRead now c)).
  assert (writes (log c1) = writes (log c)) as E1.
  { cbn. unfold writes. by rewrite omap_app, omap_fmap_none, app_nil_r. }
  assert (log (count_reply rng now c1) = log c1) as E2 by (unfold count_reply; by case_match).
  assert (forall m c, writes (log (receive m c)) = writes (log c)) as Hr.
  { intros m0 c0. rewrite receive_log. cbn [log emit]. rewrite writes_app. unfold deliver_to.
    repeat case_match; apply app_nil_r. }
  cbn [snd]. case_decide; [by rewrite Hr|].
  destruct (RemoveWaiter _ _) as [[r|] w]; [|rewrite Hr; cbn [log set_waiters]; by rewrite E2].
  cbn [log emit set_waiters]. by rewrite writes_app, E2, E1, app_nil_r.
Qed.

Lemma tx_deliveries env s wt now c : deliveries (log (tx env s wt now c).2) = deliveries (log c).
Proof.
  unfold tx. repeat case_match; cbn [snd log emit set_waiters handlers]; unfold deliveries;
    rewrite ?omap_app, ?omap_fmap_none by done; cbn; by rewrite ?app_nil_r.
Qed.

Lemma rx_steady rng m now c : steady c (rx rng m now c).2.
Proof. split; [apply (rx_core rng m now c) | apply (rx_quiet rng m now c)]. Qed.

Lemma tx_steady env s wt now c : steady c (tx env s wt now c).2.
Proof. split; [apply (tx_core env s wt now c) | apply (tx_quiet env s wt now c)]. Qed.

Lemma AcceptUnderlay_log u c :
  let c' := (AcceptUnderlay u c).2 in
  steady c c' /\ deliveries (log c') = deliveries (log c) /\ writes (log c') = writes (log c).
Proof.
  unfold AcceptUnderlay. repeat case_match; try done. cbn [snd].
  unfold mbind, ST_bind, modify, add_underlay, startMultiplex, Add. cbn [fst snd underlays set_fallback].
  cbn. split; [done|]. unfold deliveries, writes. rewrite !omap_app, !omap_fmap_none by done. cbn.
  by rewrite !app_nil_r.
Qed.

(** The other steps of a channel. *)
Lemma exec_step_log rng closeErr c s :
  let c' := exec_step closeErr rng c s in
  steady c c' /\ (is_tx s = false -> writes (log c') = writes (log c)) /\
  (is_rx s = false -> deliveries (log c') = deliveries (log c)).
Proof.
  destruct s as [u| |u|u now|u|m now|env s wt now]; cbn [exec_step is_tx is_rx].
  - pose proof (AcceptUnderlay_log u c) as (H1 & H2 & H3). done.
  - pose proof (Close_tidy closeErr c) as T. split; [by apply tidy_steady|]. destruct T as (_ & _ & _ & _ & T5 & T6). done.
  - done.
  - pose proof (remove_underlay_tidy closeErr u now c) as (H1 & H2 & H3). done.
  - pose proof (repair_fallback_log u c) as (H1 & H2). split; [done|]. by rewrite H2.
  - split; [apply rx_steady|]. split; [intros _; apply rx_writes | done].
  - split; [apply tx_steady|]. split; [done | intros _; apply tx_deliveries].
Qed.

(** ** Lemmas: what a run leaves in the logs *)

(** All messages a run handed to underlays. *)
Definition all_sent (tr : list label) : list Message :=
  omap (fun l => match l with LWrite _ m | LFail _ m => Some m | _ => None end) tr.

Section Logs.
Context {C : Type} `{Transport C}.
Context (rng : gmap Z (waiter receiver) -> list (Z * waiter receiver)) (closeErr : nat -> option error)
  (injectType : bool).

Abbreviation pair_step := (pair_step (C := C) rng closeErr injectType).

(** What the second channel delivers for a message read from connection [i]. *)
Definition delivery (b : channelImpl) (ks : list (link C)) (l : label) : option Message :=
  match l with
  | LRead i m =>
      Some (cacheReplyFor (foldl (fun m f => f m)
        (from_option (fun k => prepared injectType b k m) m (ks !! i)) (transformRx (handlers b))))
  | _ => None
  end.

(** Connections stay, with their ends. *)
Definition extends (ks ks' : list (link C)) : Prop :=
  forall i k, ks !! i = Some k -> exists k', ks' !! i = Some k' /\ endB k' = endB k.

Lemma extends_insert ks i k k' : ks !! i = Some k -> endB k' = endB k -> extends ks (<[i := k']> ks).
Proof.
  intros Hi He j x Hj. destruct (decide (i = j)) as [<- |Hne].
  - exists k'. rewrite list_lookup_insert_eq by (by eapply lookup_lt_Some). split; [done|]. congruence.
  - exists x. by rewrite list_lookup_insert_ne.
Qed.

#[local] Instance extends_preorder : PreOrder extends.
Proof.
  split; [intros ks i k Hi; by exists k|]. intros ks1 ks2 ks3 H12 H23 i k Hi.
  destruct (H12 i k Hi) as (k2 & H2 & E2). destruct (H23 i k2 H2) as (k3 & H3 & E3). exists k3. split; [done | congruence].
Qed.

Lemma delivery_steady b b' ks ks' l : steady b b' -> extends ks ks' ->
  match l with LRead i _ => is_Some (ks !! i) | _ => True end -> delivery b' ks' l = delivery b ks l.
Proof.
  intros [Ec Eh] He. destruct l as [i m|i m|i m|]; cbn; try done. intros [k Hk].
  destruct (He i k Hk) as (k' & Hk' & Eu). rewrite Hk, Hk'. cbn. unfold prepared, getValidatedUnderlayType.
  by rewrite Ec, Eh, Eu.
Qed.

Lemma pair_step_logs l p p' : pair_step l p p' ->
  steady (sideB p) (sideB p') /\ extends (links p) (links p') /\
  writes (log (sideA p')) = writes (log (sideA p)) ++ all_sent [l] /\
  deliveries (log (sideB p')) = deliveries (log (sideB p)) ++ omap (delivery (sideB p) (links p)) [l] /\
  match l with LRead i _ => is_Some (links p !! i) | _ => True end.
Proof.
  intros Hstep.
  destruct Hstep as [p i k env s wt now r a' n c' Hi Hst Htx Ha Hm | p i k notifier now Hi | p i k m c' now Hi Hrd Hrx
    | p i k e notifier now Hi Hend Hrx | p i k c' Hi Hmv | p i k c' Hi Hls | p c u v Hc | p s Hs | p s Hs];
    cbn [links sideA sideB].
  all: try (assert (forall k', endB k' = endB k -> extends (links p) (<[i := k']> (links p))) as Hext
    by (intros k' Ek; by eapply extends_insert)).
  - rewrite (writes_new _ _ _ _ _ _ _ Htx). pose proof (tx_offered _ _ _ _ _ _ _ Htx) as Ho. unfold tx_label.
    split; [done|]. split; [by destruct r; apply Hext|].
    destruct (offered (sideA p) env s wt) as [[m [|]]|]; destruct Ho as (_ & Ho); [destruct Ho as (-> & _)..|rewrite Ho];
      cbn; by rewrite ?app_nil_r.
  - pose proof (closeUnderlay_log closeErr (endA k) notifier now (sideA p)) as (_ & _ & Hw).
    split_and!; try done; cbn; rewrite ?app_nil_r; [by apply Hext | done..].
  - destruct (rx_deliveries rng (prepared injectType (sideB p) k m) now (sideB p)) as (b' & E & Hh & _ & Hd).
    pose proof (rx_steady rng (prepared injectType (sideB p) k m) now (sideB p)) as Hs.
    rewrite E in *. cbn [snd] in *. split_and!; try done; cbn; rewrite ?app_nil_r; [by apply Hext | done | by rewrite Hi].
  - pose proof (closeUnderlay_log closeErr (endB k) notifier now (sideB p)) as (H1 & H2 & _).
    split_and!; try done; cbn; rewrite ?app_nil_r; [by apply Hext | done..].
  - split_and!; try done; cbn; rewrite ?app_nil_r; [by apply Hext | done..].
  - split_and!; try done; cbn; rewrite ?app_nil_r; [by apply Hext | done..].
  - split_and!; try done; cbn; rewrite ?app_nil_r; [|done..].
    intros j x Hj. exists x. split; [|done]. by apply lookup_app_l_Some.
  - pose proof (exec_step_log rng closeErr (sideA p) s) as (_ & Hw & _). rewrite Hw by done.
    split_and!; try done; cbn; by rewrite ?app_nil_r.
  - pose proof (exec_step_log rng closeErr (sideB p) s) as (H1 & _ & Hd). rewrite Hd by done.
    split_and!; try done; cbn; by rewrite ?app_nil_r.
Qed.

Lemma runs_logs tr p p' : runs pair_step tr p p' ->
  steady (sideB p) (sideB p') /\ extends (links p) (links p') /\
  writes (log (sideA p')) = writes (log (sideA p)) ++ all_sent tr /\
  deliveries (log (sideB p')) = deliveries (log (sideB p)) ++ omap (delivery (sideB p') (links p')) tr.
Proof.
  assert (forall l tr p p1 p', pair_step l p p1 ->
    (steady (sideB p1) (sideB p') /\ extends (links p1) (links p') /\
     writes (log (sideA p')) = writes (log (sideA p1)) ++ all_sent tr /\
     deliveries (log (sideB p')) = deliveries (log (sideB p1)) ++ omap (delivery (sideB p') (links p')) tr) ->
    steady (sideB p) (sideB p') /\ extends (links p) (links p') /\
    writes (log (sideA p')) = writes (log (sideA p)) ++ all_sent (l :: tr) /\
    deliveries (log (sideB p')) = deliveries (log (sideB p)) ++ omap (delivery (sideB p') (links p')) (l :: tr)) as Hstep.
  { clear tr p p'. intros l tr p p1 p' Hs (I1 & I2 & I3 & I4). destruct (pair_step_logs _ _ _ Hs) as (J1 & J2 & J3 & J4 & J5).
    assert (steady (sideB p) (sideB p')) as S' by (by etrans). assert (extends (links p) (links p')) as X' by (by etrans).
    split; [done|]. split; [done|]. split.
    - rewrite I3, J3, <- app_assoc. f_equal. unfold all_sent. by rewrite <- omap_app.
    - rewrite I4, J4, <- app_assoc. f_equal. rewrite (omap_app _ [l] tr). f_equal. cbn.
      by rewrite (delivery_steady _ _ _ _ l S' X' J5). }
  induction 1 as [p|tr p p1 p' Hs Hr IH|l tr p p1 p' Hl Hs Hr IH].
  - split; [done|]. split; [done|]. cbn. by rewrite !app_nil_r.
  - apply (Hstep LTau _ _ _ _ Hs IH).
  - apply (Hstep l _ _ _ _ Hs IH).
Qed.

End Logs.

(** ** Properties *)

(** Two connected channels refine a queue per connection.  Whatever the
    channels, their loops, the network and the application do, everything that
    can be observed of the messages written and read is something the queues
    can do: a write appends to its connection's queue (unless the network has
    lost that connection), a failed write appends or not and is the last, a
    read takes the oldest message, with its content, and a loss drops the most
    recent.  What is written is, for each send, the message it was asked to
    write, once.  And what waits in a queue can be read: the receive loop, while
    it runs, finds the oldest message next, and an error only when there is
    none. *)
Theorem pair_refines_fifo {C : Type} `{TransportLaws C}
    (rng : gmap Z (waiter receiver) -> list (Z * waiter receiver)) (closeErr : nat -> option error)
    (injectType : bool) (tr : list label) (p p' : pair C) :
  links p = [] -> runs (pair_step rng closeErr injectType) tr p p' ->
  exists qs, runs fifo_step tr [] qs /\ length qs = length (links p') /\
    forall i k q, links p' !! i = Some k -> qs !! i = Some q ->
      stopped k = f_stopped q /\ cut k = f_cut q /\
      match pending q with
      | m :: _ => (exists c, Rx_next (data k) = Ret (wire_message m, c)) /\
          (reading k = true -> exists p'', pair_step rng closeErr injectType (LRead i (wire_message m)) p' p'')
      | [] => exists e, Rx_next (data k) = Err e
      end.
Proof.
  intros Hp Hr. destruct (run_simulated rng closeErr injectType tr p p' Hr []) as (qs & Hq & Hrel);
    [unfold related; by rewrite Hp|].
  exists qs. split; [done|]. split; [symmetry; by eapply Forall2_length|].
  intros i k q Hk Hi. destruct (matches_lookup _ _ _ _ Hrel Hk) as (q' & Hi' & Hs & Hc & clean & Hw & _).
  rewrite Hi in Hi'. injection Hi' as <-. split; [done|]. split; [done|]. destruct (pending q) as [|m rest].
  - by eapply law_end.
  - destruct (law_rx _ _ _ _ Hw) as (c' & E & _). split; [by exists c'|].
    intros Hrd. eexists. by eapply (step_read _ _ _ _ _ k _ c' 0).
Qed.

(** Messages arrive in order.  Over any run of two channels that starts
    without connections, the first channel's log has exactly the messages it
    handed to underlays, and the second channel has delivered exactly the
    messages read, in the order in which they were read.  On every connection
    the messages read are, in order and each once, the messages written to it,
    up to some point; all of them if the connection neither stopped nor lost
    anything and nothing is left to read. *)
Theorem pair_in_order {C : Type} `{TransportLaws C}
    (rng : gmap Z (waiter receiver) -> list (Z * waiter receiver)) (closeErr : nat -> option error)
    (injectType : bool) (tr : list label) (p p' : pair C) :
  links p = [] -> runs (pair_step rng closeErr injectType) tr p p' ->
  writes (log (sideA p')) = writes (log (sideA p)) ++ all_sent tr /\
  deliveries (log (sideB p')) =
    deliveries (log (sideB p)) ++ omap (delivery injectType (sideB p') (links p')) tr /\
  forall i, read i tr `prefix_of` (wire_message <$> sent i tr) /\
    (forall k e, links p' !! i = Some k -> stopped k = false -> cut k = false -> Rx_next (data k) = Err e ->
       read i tr = wire_message <$> sent i tr).
Proof.
  intros Hp Hr. destruct (runs_logs rng closeErr injectType tr p p' Hr) as (_ & _ & Hw & Hd).
  split; [done|]. split; [done|]. intros i.
  destruct (run_simulated rng closeErr injectType tr p p' Hr []) as (qs & Hq & Hrel); [unfold related; by rewrite Hp|].
  destruct (runs_order tr [] qs i Hq) as [H1 H2]. split; [exact H1|].
  intros k e Hk Hst Hc Herr. destruct (matches_lookup _ _ _ _ Hrel Hk) as (q & Hi & Hs' & Hc' & clean & Hwire & _).
  unfold stopped_at, cut_at, waiting in H2. rewrite Hi in H2. cbn in H2.
  rewrite Hst in Hs'. rewrite Hc in Hc'. specialize (H2 (eq_sym Hs') (eq_sym Hc')).
  destruct (pending q) as [|m rest]; [by rewrite app_nil_r in H2|].
  destruct (law_rx _ _ _ _ Hwire) as (c' & E & _). congruence.
Qed.
