(* ===== verification/Transports.v ===== *)
(** * The underlays as transports (src/classic_impl.go, src/datagram_underlay.go, src/websockets/ws_underlay.go)

    The library's underlays seen from the connection between their two ends.
    A stream carries the bytes of its messages one after the other and may
    deliver them in any chunks; a websocket carries whole messages; both keep
    the interface [Transport] of [Link], and its theorems are stated here for
    channels over them.  A packet underlay does not: packets can be lost, repeated and
    reordered, and one read takes at most 2000 bytes.

    Theorems: streams and websockets keep the laws of a transport, also when a
    write fails half way or the connection is cut anywhere; the operations of
    [classicImpl] are those of the stream transport; what a packet underlay
    receives. *)

From S2P Require Import Prelude Headers Codec Wire Handshake Underlays Waiters ChannelImpl Envelope Adapters Link.

(** ** Streams *)

(** A message is read only if all of its bytes are there. *)
Lemma parse_data_extends W s b q m t :
  parse_data W s b = FMessage m t -> parse_data W s (b ++ q) = FMessage m (t ++ q).
Proof.
  unfold parse_data. set (hl := le_get _). set (bl := le_get (take 4 (drop 16 s))).
  pose proof (le_get_range (take 4 (drop 12 s))) as [Hh _]. pose proof (le_get_range (take 4 (drop 16 s))) as [Hb _].
  fold hl in Hh. fold bl in Hb. case_decide as Hmax; [done|]. case_decide as Hlen; [done|].
  pose proof (len_nonneg q). rewrite (decide_False (P := len (b ++ q) < hl + bl)) by (rewrite len_app; lia).
  assert (Z.to_nat (hl + bl) <= length b)%nat as Hl by (unfold len in Hlen; lia).
  rewrite (take_app_le b) by lia.
  destruct (unmarshalHeaders W (take (Z.to_nat hl) b)) as [h|e| |]; try done. intros [= <- <-].
  rewrite !drop_app_le by lia. rewrite take_app_le by (rewrite length_drop; lia). done.
Qed.

Lemma parse_frame_extends W b q m t :
  parse_frame W b = FMessage m t -> parse_frame W (b ++ q) = FMessage m (t ++ q).
Proof.
  unfold parse_frame. pose proof (len_nonneg q). case_decide as H4; [done|].
  rewrite (decide_False (P := len (b ++ q) < 4)) by (rewrite len_app; lia).
  rewrite (take_app_le b q 4) by (unfold len in H4; lia). case_decide; [|by case_decide].
  case_decide as H20; [done|]. rewrite (decide_False (P := len (b ++ q) < 20)) by (rewrite len_app; lia).
  rewrite take_app_le, drop_app_le by (unfold len in H20; lia). apply parse_data_extends.
Qed.

Lemma drop_short {A} n (l : list A) : (n < length l)%nat -> drop n l ≠ [].
Proof. intros Hn E%(f_equal length). rewrite length_drop in E. simpl in E. lia. Qed.

(** A carriable message that is on a stream, in any chunks, is read. *)
Lemma stream_reads hrng `{!RangeOrder hrng} m r tail : carriable m -> concat (chunks r) = frame_bytes hrng m ++ tail ->
  exists r', ReadV2 64 r = Ret (wire_message m, r') /\ concat (chunks r') = tail.
Proof.
  intros [Hwf Hf] E. pose proof (ReadV2_refines 64 r (int_ok_64 _)) as R.
  rewrite E, (frame_parse hrng 64 m _ ltac:(lia) Hwf Hf) in R. destruct R as (r' & E' & Et & _). by exists r'.
Qed.

Section Stream.
Context (hrng : HeaderMap -> list (Z * bytes)) `{!RangeOrder hrng}.

Abbreviation frame := (frame_bytes hrng).

(** Nothing, or the beginning of a message. *)
Definition incomplete (b : bytes) : Prop :=
  b = [] \/ exists m more, carriable m /\ more ≠ [] /\ frame m = b ++ more.

Definition put (b : bytes) (r : reader) : reader := mkReader (chunks r ++ [b]) (fin r).

(** The connection is what the reading end will get, in chunks. *)
#[global] Instance stream_transport : Transport reader := {
  Tx_frame m r := match (MarshalV2 hrng m).1 with Ret b => Some (put b r) | _ => None end;
  Tx_part n m r := match (MarshalV2 hrng m).1 with Ret b => put (take n b) r | _ => r end;
  Rx_next r := ReadV2 64 r;
  moves r r' := concat (chunks r') = concat (chunks r);
  loses r r' := exists n, concat (chunks r') = take n (concat (chunks r));
  on_wire clean r q := Forall carriable q /\ exists rest,
    concat (chunks r) = concat (frame <$> q) ++ rest /\ incomplete rest /\ (clean = true -> rest = [])
}.

Lemma put_stream b r : concat (chunks (put b r)) = concat (chunks r) ++ b.
Proof using Type. unfold put. cbn [chunks]. rewrite concat_app. cbn [concat]. by rewrite app_nil_r. Qed.

Lemma frames_snoc q m : concat (frame <$> q ++ [m]) = concat (frame <$> q) ++ frame m.
Proof using Type. rewrite fmap_app, concat_app. cbn. by rewrite app_nil_r. Qed.

Lemma carriable_frame m : carriable m -> (MarshalV2 hrng m).1 = Ret (frame m).
Proof using RangeOrder0. intros [_ Hf]. by apply MarshalV2_bytes. Qed.

(** An incomplete message cannot be read. *)
Lemma incomplete_unread b : incomplete b -> forall m t, parse_frame 64 b ≠ FMessage m t.
Proof using RangeOrder0.
  intros [-> | (m0 & more & [Hwf Hf] & Hne & E)] m t Hp; [done|].
  apply (parse_frame_extends 64 b more) in Hp. rewrite <- E in Hp.
  pose proof (frame_parse hrng 64 m0 [] ltac:(lia) Hwf Hf) as Hfull. rewrite app_nil_r in Hfull.
  rewrite Hp in Hfull. injection Hfull as _ Ht. by apply app_nil in Ht as [_ ->].
Qed.

(** Cutting a stream of messages leaves whole messages and an incomplete one. *)
Lemma cut_frames q rest n : Forall carriable q -> incomplete rest ->
  exists kept rest', kept `prefix_of` q /\ take n (concat (frame <$> q) ++ rest) = concat (frame <$> kept) ++ rest' /\
    incomplete rest'.
Proof using Type.
  revert n. induction q as [|m q IH]; intros n Hq Hrest.
  - exists [], (take n rest). split; [done|]. split; [done|]. destruct Hrest as [-> | (m & more & Hm & Hne & E)].
    { left. by rewrite take_nil. }
    right. exists m, (drop n rest ++ more). split; [done|]. split; [by intros [_ ?]%app_nil|].
    by rewrite app_assoc, take_drop.
  - apply Forall_cons in Hq as [Hm Hq]. rewrite fmap_cons, concat_cons, <- app_assoc.
    destruct (decide (length (frame m) <= n)%nat) as [Hn|Hn].
    + destruct (IH (n - length (frame m))%nat Hq Hrest) as (kept & rest' & Hp & E & Hi).
      exists (m :: kept), rest'. split; [by apply prefix_cons|]. split; [|done].
      rewrite take_app_ge, E by lia. by rewrite fmap_cons, concat_cons, app_assoc.
    + exists [], (take n (frame m)). split; [apply prefix_nil|]. split.
      * by rewrite take_app_le by lia.
      * right. exists m, (drop n (frame m)). split; [done|]. split; [|by rewrite take_drop].
        apply drop_short. lia.
Qed.

#[global] Instance stream_laws : TransportLaws reader.
Proof using RangeOrder0.
  split.
  - intros c q m (Hq & rest & E & _ & Hc) Hm. cbn [Tx_frame Tx_part stream_transport]. rewrite carriable_frame by done. eexists. split; [done|].
    split; [by apply Forall_app; split; [|constructor]|]. exists []. split; [|split; [by left | done]].
    rewrite put_stream, E, Hc, frames_snoc, !app_nil_r by done. done.
  - intros c q m n (Hq & rest & E & _ & Hc) Hm. cbn [Tx_frame Tx_part stream_transport]. rewrite carriable_frame by done. rewrite Hc, app_nil_r in E by done.
    destruct (decide (length (frame m) <= n)%nat) as [Hn|Hn].
    + exists [m]. split; [by right|]. split; [by apply Forall_app; split; [|constructor]|]. exists [].
      rewrite put_stream, E, frames_snoc, app_nil_r, take_ge by done. split; [done|]. split; [by left | done].
    + exists []. split; [by left|]. rewrite app_nil_r. split; [done|]. exists (take n (frame m)).
      rewrite put_stream, E. split; [done|]. split; [|done]. right. exists m, (drop n (frame m)).
      split; [done|]. split; [|by rewrite take_drop]. apply drop_short. lia.
  - intros clean c m q (Hq & rest & E & Hi & Hc). apply Forall_cons in Hq as [Hm Hq]. cbn [Rx_next on_wire stream_transport].
    destruct (stream_reads hrng m c (concat (frame <$> q) ++ rest)) as (c' & E' & Hrest);
      [done | by rewrite E, fmap_cons, concat_cons, <- app_assoc |].
    exists c'. split; [done|]. split; [done|]. by exists rest.
  - intros clean c (_ & rest & E & Hi & _). cbn [Rx_next on_wire stream_transport]. pose proof (ReadV2_refines 64 c (int_ok_64 _)) as R.
    rewrite E in R. cbn [fmap list_fmap concat app] in R.
    destruct (parse_frame 64 rest) as [m t|e|] eqn:Ep; [by destruct (incomplete_unread rest Hi m t) | by exists e |].
    destruct R as (e & -> & _). by exists e.
  - intros clean c c' q (Hq & rest & E & Hr) Hm. split; [done|]. exists rest. split; [|done]. cbn [moves stream_transport] in Hm. congruence.
  - intros clean c c' q (Hq & rest & E & Hi & _) (n & En). destruct (cut_frames q rest n Hq Hi) as (kept & rest' & Hp & Ek & Hi').
    exists kept. split; [done|]. split; [destruct Hp as [? ->]; by apply Forall_app in Hq as [? _]|].
    exists rest'. split; [|done]. cbn [moves loses stream_transport] in *. congruence.
Qed.

(** [classicImpl.Tx] writes the message's bytes, and [classicImpl.Rx] reads the
    next one. *)
Lemma classic_Tx m i : ready 64 hrng i -> healthy (peer i) -> carriable m ->
  exists m' i', Handshake.Tx m i = (Ret m', i') /\ written (peer i') = written (peer i) ++ frame m /\
    forall r, Tx_frame m r = Some (put (frame m) r).
Proof using RangeOrder0.
  intros (Hc & _ & Hm) (Ho & Hw & _) Hcar. pose proof (carriable_frame m Hcar) as E.
  unfold Handshake.Tx. rewrite Hc, Hm. destruct (MarshalV2 hrng m) as [r m'] eqn:Em. cbn in E. subst r.
  assert (forall r, Tx_frame m r = Some (put (frame m) r)) as Ht
    by (intros r; unfold Tx_frame, stream_transport; by rewrite Em).
  unfold on_peer, conn_Write, on_open, mbind, ST_bind. rewrite decide_True by done. rewrite Hw. cbn -[frame_bytes Tx_frame].
  by eexists _, _.
Qed.

Lemma classic_Rx i : ready 64 hrng i -> healthy (peer i) ->
  Handshake.Rx i = match Rx_next (rd (peer i)) with
                   | Ret (m, r) => (Ret m, with_peer (with_rd r (peer i)) i)
                   | Err e => (Err e, with_peer (peer i) i)
                   | Panic => (Panic, with_peer (peer i) i)
                   | OutOfFuel => (OutOfFuel, with_peer (peer i) i)
                   end.
Proof using Type.
  intros (Hc & Hr & _) (Ho & _). unfold Handshake.Rx. rewrite Hc, Hr. unfold on_peer, conn_read, on_open.
  rewrite decide_True by done. cbn. by destruct (ReadV2 64 (rd (peer i))) as [[m r]| | |].
Qed.

End Stream.

(** ** Websockets *)

Section Websocket.
Context (hrng : HeaderMap -> list (Z * bytes)) `{!RangeOrder hrng} (readErr : error).

Abbreviation frame := (frame_bytes hrng).

(** The connection is the messages written and not yet read; reading from one
    that has ended gives [readErr].  A message cut short does not arrive: of
    [Tx_part], all or nothing. *)
#[global] Instance websocket_transport : Transport (list (Z * bytes)) := {
  Tx_frame m c := match (WS.Tx hrng m).1 with Ret w => Some (c ++ [w]) | _ => None end;
  Tx_part n m c := match (WS.Tx hrng m).1 with
                   | Ret w => if decide (length w.2 <= n)%nat then c ++ [w] else c
                   | _ => c
                   end;
  Rx_next c := match c with [] => Err readErr | w :: rest => m ← WS.Rx (Ret w); Ret (m, rest) end;
  moves c c' := c' = c;
  loses c c' := c' `prefix_of` c;
  on_wire _ c q := Forall carriable q /\ c = (fun m => (BinaryMessage, frame m)) <$> q
}.

Lemma websocket_Tx m : carriable m -> (WS.Tx hrng m).1 = Ret (BinaryMessage, frame m).
Proof using RangeOrder0.
  intros Hm. pose proof (carriable_frame hrng m Hm) as E. unfold WS.Tx. destruct (MarshalV2 hrng m) as [r m'].
  cbn in E. by subst r.
Qed.

Lemma websocket_Rx m : carriable m -> WS.Rx (Ret (BinaryMessage, frame m)) = Ret (wire_message m).
Proof using RangeOrder0.
  intros Hm. unfold WS.Rx. cbn [mbind outcome_bind]. rewrite decide_False by (intros Hn; by apply Hn).
  rewrite decide_False by done.
  by destruct (stream_reads hrng m (mkReader [frame m] io_EOF) []) as (r' & -> & _).
Qed.

#[global] Instance websocket_laws : TransportLaws (list (Z * bytes)).
Proof using RangeOrder0.
  split; cbn [Tx_frame Tx_part Rx_next moves loses on_wire websocket_transport].
  - intros c q m (Hq & ->) Hm. rewrite websocket_Tx by done. eexists. split; [done|].
    split; [by apply Forall_app; split; [|constructor]|]. by rewrite fmap_app.
  - intros c q m n (Hq & ->) Hm. rewrite websocket_Tx by done. case_decide.
    + exists [m]. split; [by right|]. split; [by apply Forall_app; split; [|constructor]|]. by rewrite fmap_app.
    + exists []. split; [by left|]. by rewrite app_nil_r.
  - intros clean c m q (Hq & ->). apply Forall_cons in Hq as [Hm Hq]. rewrite fmap_cons, websocket_Rx by done.
    by eexists.
  - intros clean c (_ & ->). by exists readErr.
  - by intros clean c c' q Hw ->.
  - intros clean c c' q (Hq & ->) [more E]. apply fmap_app_inv in E as (kept & lost & -> & _ & ->).
    exists kept. apply Forall_app in Hq as [? _]. split; [by apply prefix_app_r | done].
Qed.

End Websocket.

(** ** Packets *)

(** A packet underlay takes one packet per read, of which it sees at most
    [packet_buffer] bytes. *)
Section Packets.
Context (hrng : HeaderMap -> list (Z * bytes)) `{!RangeOrder hrng}.

Abbreviation frame := (frame_bytes hrng).

Lemma read_buffer_full m : carriable m -> read_buffer 64 (frame m) = Ret (wire_message m).
Proof using RangeOrder0.
  intros Hm. unfold read_buffer.
  by destruct (stream_reads hrng m (mkReader [frame m] io_EOF) []) as (r' & -> & _).
Qed.

Lemma read_buffer_cut m n : carriable m -> (n < length (frame m))%nat ->
  exists e, read_buffer 64 (take n (frame m)) = Err e.
Proof using RangeOrder0.
  intros Hm Hn. unfold read_buffer.
  pose proof (ReadV2_refines 64 (mkReader [take n (frame m)] io_EOF) (int_ok_64 _)) as R. cbn [chunks concat] in R.
  rewrite app_nil_r in R.
  assert (incomplete hrng (take n (frame m))) as Hi.
  { right. exists m, (drop n (frame m)). split; [done|]. split; [by apply drop_short | by rewrite take_drop]. }
  destruct (parse_frame 64 (take n (frame m))) as [m' t|e|] eqn:Ep.
  - by destruct (incomplete_unread hrng _ Hi m' t).
  - rewrite R. by exists e.
  - destruct R as (e & -> & _). by exists e.
Qed.

(** The messages a receive loop gets from packets until a read fails. *)
Fixpoint receive_packets (fuel : nat) (i : classicImpl) : list Message :=
  match fuel with
  | O => []
  | S fuel => match Datagram_Rx i with (Ret m, i') => m :: receive_packets fuel i' | _ => [] end
  end.

(** The messages before the first that does not fit into the buffer. *)
Fixpoint fitting (q : list Message) : list Message :=
  match q with
  | [] => []
  | m :: q => if decide (len (frame m) <= 2000) then m :: fitting q else []
  end.

Definition packets (q : list Message) (i : classicImpl) : classicImpl :=
  with_peer (with_rd (mkReader (frame <$> q) (fin (rd (peer i)))) (peer i)) i.

Lemma packets_read m q i : carriable m -> closes (peer i) = 0%nat -> readF i = packet_readF (read_buffer 64) ->
  if decide (len (frame m) <= 2000)
  then Datagram_Rx (packets (m :: q) i) = (Ret (wire_message m), packets q i)
  else exists e i', Datagram_Rx (packets (m :: q) i) = (Err e, i').
Proof using RangeOrder0.
  intros Hm Ho Hr. unfold Datagram_Rx, packets, on_peer, conn_read, on_open.
  cbn -[frame_bytes packet_readF read_buffer packet_buffer]. rewrite Ho, Hr. unfold packet_readF, read_packet.
  cbn -[frame_bytes read_buffer packet_buffer]. case_decide as Hl; unfold len in Hl.
  - rewrite take_ge by (unfold packet_buffer; lia). by rewrite read_buffer_full.
  - destruct (read_buffer_cut m (Z.to_nat packet_buffer) Hm) as (e & ->); [unfold packet_buffer in *; lia|]. by eexists _, _.
Qed.

Lemma receive_packets_fitting n q i : Forall carriable q -> closes (peer i) = 0%nat ->
  readF i = packet_readF (read_buffer 64) ->
  receive_packets n (packets q i) = wire_message <$> take n (fitting q).
Proof using RangeOrder0.
  revert q i. induction n as [|n IH]; intros q i Hq Ho Hr; [done|]. cbn [receive_packets]. destruct q as [|m q].
  { unfold Datagram_Rx, packets, on_peer, conn_read, on_open. cbn. by rewrite Ho, Hr. }
  apply Forall_cons in Hq as [Hm Hq]. pose proof (packets_read m q i Hm Ho Hr) as R. cbn [fitting]. case_decide.
  - rewrite R, IH by done. done.
  - destruct R as (e & i' & ->). done.
Qed.

End Packets.

(** ** Properties *)

(** C32: packets have at most 2000 bytes.  A packet underlay writes a message
    of any size as one packet and reports success.  The receive loop of its
    peer, which takes at most 2000 bytes of a packet, gets the messages in the
    order in which their packets arrive, each with its content, up to the first
    whose encoding is longer: reading that one fails, and the loop ends there. *)
Theorem packets_bounded (hrng : HeaderMap -> list (Z * bytes)) `{!RangeOrder hrng} (peerA peerB : Conn)
    (m : Message) (q : list Message) (n : nat) :
  healthy peerA -> healthy peerB -> carriable m -> Forall carriable q ->
  let a := newDatagramUnderlay 64 hrng None peerA 2 in
  let b := newDatagramUnderlay 64 hrng None peerB 2 in
  (exists m' a', Datagram_Tx m a = (Ret m', a') /\ written (peer a') = written peerA ++ frame_bytes hrng m) /\
  receive_packets n (packets hrng q b) = wire_message <$> take n (fitting hrng q).
Proof.
  intros (Ha & Hw & _) (Hb & _) Hm Hq a b. split.
  - pose proof (carriable_frame hrng m Hm) as E. unfold Datagram_Tx. change (marshalF a) with (MarshalV2 hrng).
    destruct (MarshalV2 hrng m) as [r m']. cbn in E. subst r. exists m'.
    unfold on_peer, conn_Write, on_open, mbind, ST_bind. cbn -[frame_bytes]. rewrite Ha, Hw. by eexists.
  - by apply receive_packets_fitting.
Qed.

(** C2: two channels over streams refine a queue per connection.  Whatever the
    channels, their loops, the network and the application do, everything that
    can be observed is something the queues can do.  A send whose time has not
    run out and whose deadline can be set hands its message, as the transform
    handlers leave it, to the underlay exactly once: it is appended to the
    connection's queue (unless the network has lost that connection); if the
    write fails, it arrives or not, and the send loop ends.  Other sends write
    nothing.  A read takes the oldest message, with its content, and a loss drops
    the most recent.  What waits in a queue can be read, by [ReadV2], while the
    receive loop runs, and an error is read only when nothing waits.  The log of
    the first channel has the messages written and that of the second the
    deliveries of those read.  The messages must be within the wire format. *)
Theorem link_refines_fifo (hrng : HeaderMap -> list (Z * bytes)) `{!RangeOrder hrng}
    (rng : gmap Z (waiter receiver) -> list (Z * waiter receiver)) (closeErr : nat -> option error)
    (injectType : bool) (tr : list label) (p p' : pair reader) :
  let stream_step := pair_step (H := stream_transport hrng) rng closeErr injectType in
  links p = [] -> runs stream_step tr p p' ->
  exists qs, runs fifo_step tr [] qs /\ length qs = length (links p') /\
    writes (log (sideA p')) = writes (log (sideA p)) ++ all_sent tr /\
    deliveries (log (sideB p')) = deliveries (log (sideB p)) ++ omap (delivery injectType (sideB p') (links p')) tr /\
    forall i k q, links p' !! i = Some k -> qs !! i = Some q ->
      stopped k = f_stopped q /\ cut k = f_cut q /\
      match pending q with
      | m :: _ => (exists r, ReadV2 64 (data k) = Ret (wire_message m, r)) /\
          (reading k = true -> exists p'', stream_step (LRead i (wire_message m)) p' p'')
      | [] => exists e, ReadV2 64 (data k) = Err e
      end.
Proof.
  intros stream_step Hp Hr.
  destruct (pair_refines_fifo (H0 := stream_laws hrng) rng closeErr injectType tr p p' Hp Hr) as (qs & Hq & Hl & Hall).
  destruct (runs_logs rng closeErr injectType tr p p' Hr) as (_ & _ & Hw & Hd).
  exists qs. split; [exact Hq|]. split; [exact Hl|]. split; [exact Hw|]. split; [exact Hd|]. exact Hall.
Qed.

(** C3: messages arrive in order over streams.  Over any run of two channels
    that starts without connections, the first channel's log has exactly the
    messages its sends were asked to write, and the second channel has delivered
    exactly the messages read, in the order in which they were read.  On every
    stream the messages read are, in order and each once, the messages written
    to it, up to some point; all of them if the stream neither stopped nor lost
    anything and nothing is left to read.  The messages must be within the wire
    format. *)
Theorem delivered_in_order (hrng : HeaderMap -> list (Z * bytes)) `{!RangeOrder hrng}
    (rng : gmap Z (waiter receiver) -> list (Z * waiter receiver)) (closeErr : nat -> option error)
    (injectType : bool) (tr : list label) (p p' : pair reader) :
  links p = [] -> runs (pair_step (H := stream_transport hrng) rng closeErr injectType) tr p p' ->
  writes (log (sideA p')) = writes (log (sideA p)) ++ all_sent tr /\
  deliveries (log (sideB p')) =
    deliveries (log (sideB p)) ++ omap (delivery injectType (sideB p') (links p')) tr /\
  forall i, read i tr `prefix_of` (wire_message <$> sent i tr) /\
    (forall k e, links p' !! i = Some k -> stopped k = false -> cut k = false -> ReadV2 64 (data k) = Err e ->
       read i tr = wire_message <$> sent i tr).
Proof. apply (pair_in_order (H0 := stream_laws hrng)). Qed.

(** Websockets carry the messages of two channels like streams do. *)
Theorem websockets_in_order (hrng : HeaderMap -> list (Z * bytes)) `{!RangeOrder hrng} (readErr : error)
    (rng : gmap Z (waiter receiver) -> list (Z * waiter receiver)) (closeErr : nat -> option error)
    (injectType : bool) (tr : list label) (p p' : pair (list (Z * bytes))) :
  links p = [] -> runs (pair_step (H := websocket_transport hrng readErr) rng closeErr injectType) tr p p' ->
  exists qs, runs fifo_step tr [] qs /\ length qs = length (links p') /\
    deliveries (log (sideB p')) = deliveries (log (sideB p)) ++ omap (delivery injectType (sideB p') (links p')) tr /\
    forall i, read i tr `prefix_of` (wire_message <$> sent i tr).
Proof.
  intros Hp Hr.
  destruct (pair_refines_fifo (H0 := websocket_laws hrng readErr) rng closeErr injectType tr p p' Hp Hr) as (qs & Hq & Hl & _).
  destruct (pair_in_order (H0 := websocket_laws hrng readErr) rng closeErr injectType tr p p' Hp Hr) as (_ & Hd & Ho).
  exists qs. split; [exact Hq|]. split; [exact Hl|]. split; [exact Hd|]. intros i. apply Ho.
Qed.

(** Structured values travel.  A list of strings or a map that is put into a
    header of a message, within the limits of the decoders, is what the peer
    gets from the header of the message it reads, whatever the chunks of the
    stream and the order in which the maps are written, if the message as a
    whole can be carried. *)
Theorem structured_headers_travel (hrng : HeaderMap -> list (Z * bytes)) `{!RangeOrder hrng}
    (rng1 rng2 : gmap Z bytes -> list (Z * bytes)) `{!RangeOrder rng1, !RangeOrder rng2}
    (srng1 srng2 : gmap gostring gostring -> list (gostring * gostring))
    `{!RangeOrder srng1, !RangeOrder srng2} (m : Message) (k : Z) (r : reader) (tail : bytes) :
  k ≠ ReplyForHeader ->
  let arrives (m' : Message) (ok : Message -> Prop) :=
    carriable m' -> concat (chunks r) = frame_bytes hrng m' ++ tail ->
    exists m2 r', ReadV2 64 r = Ret (m2, r') /\ ok m2 in
  (forall l, slice_limits l -> exists m', Codec.MessageHeader.PutStringSliceHeader k l m = Ret m' /\
     arrives m' (fun m2 => Codec.MessageHeader.GetStringSliceHeader m2 k = (true, Ret l))) /\
  (forall v, u32_map_limits v -> exists m', Codec.MessageHeader.PutU32ToBytesMapHeader rng1 rng2 k v m = Ret m' /\
     arrives m' (fun m2 => Codec.MessageHeader.GetU32ToBytesMapHeader m2 k = (true, Ret v))) /\
  (forall v, string_map_limits v -> exists m', Codec.MessageHeader.PutStringToStringMapHeader srng1 srng2 k v m = Ret m' /\
     arrives m' (fun m2 => Codec.MessageHeader.GetStringToStringMapHeader m2 k = (true, Ret v))).
Proof.
  intros Hk arrives. destruct (structured_header_values rng1 rng2 srng1 srng2 (Headers m) k) as (H1 & H2 & H3).
  split_and!; intros v Hv; [destruct (H1 v Hv) as (h & E & Eg & _) | destruct (H2 v Hv) as (h & E & Eg & _)
    | destruct (H3 v Hv) as (h & E & Eg & _)].
  all: exists (with_Headers (fun _ => h) m); (split; [|intros Hc Hs; destruct (stream_reads hrng _ _ _ Hc Hs) as (r' & Er & _);
    exists (wire_message (with_Headers (fun _ => h) m)), r'; split; [done|]]).
  - unfold Codec.MessageHeader.PutStringSliceHeader, Codec.MessageHeader.on_headers. by rewrite E.
  - unfold Codec.MessageHeader.GetStringSliceHeader, GetStringSliceHeader in *. by rewrite wire_header.
  - unfold Codec.MessageHeader.PutU32ToBytesMapHeader, Codec.MessageHeader.on_headers. by rewrite E.
  - unfold Codec.MessageHeader.GetU32ToBytesMapHeader, GetU32ToBytesMapHeader in *. by rewrite wire_header.
  - unfold Codec.MessageHeader.PutStringToStringMapHeader, Codec.MessageHeader.on_headers. by rewrite E.
  - unfold Codec.MessageHeader.GetStringToStringMapHeader, GetStringToStringMapHeader in *. by rewrite wire_header.
Qed.

(** *** Witnesses *)

Definition ex_message (contentType : Z) : Message := NewMessage contentType (lit "x").

Lemma ex_message_carriable contentType : is_i32 contentType -> carriable (ex_message contentType).
Proof.
  intros Hc. split; [|vm_compute; discriminate]. split; [done | vm_compute; split; discriminate || reflexivity | done |].
  intros k v Hk. change (Headers (ex_message contentType)) with (∅ : HeaderMap) in Hk. by rewrite lookup_empty in Hk.
Qed.

Lemma packets_bounded_witness :
  let hrng := (fun h => map_to_list h) : HeaderMap -> list (Z * bytes) in
  let c := mkConn (mkReader [] io_EOF) [] None None None None [] false 0 in
  let long := NewMessage 8 (repeat (Z2b 7) 1981) in
  receive_packets 9 (packets hrng [ex_message 7; long; ex_message 9] (newDatagramUnderlay 64 hrng None c 2)) =
    [wire_message (ex_message 7)].
Proof.
  intros hrng c long.
  assert (carriable long) as Hl.
  { split; [|vm_compute; discriminate]. split; [vm_compute; split; discriminate || reflexivity.. | done |].
    intros k v Hk. change (Headers long) with (∅ : HeaderMap) in Hk. by rewrite lookup_empty in Hk. }
  refine (proj2 (packets_bounded hrng c c (ex_message 7) [ex_message 7; long; ex_message 9] 9 _ _ _ _)).
  - done.
  - done.
  - apply ex_message_carriable. vm_compute. split; discriminate || reflexivity.
  - apply Forall_cons. split; [apply ex_message_carriable; vm_compute; split; discriminate || reflexivity|].
    apply Forall_cons. split; [exact Hl|]. apply Forall_cons. split; [|apply Forall_nil; exact I].
    apply ex_message_carriable. vm_compute. split; discriminate || reflexivity.
Defined.

(** A run of two channels over a stream: connect, write, read. *)
Definition ex_hrng : HeaderMap -> list (Z * bytes) := fun h => map_to_list h.
#[global] Instance ex_hrng_order : RangeOrder ex_hrng.
Proof. unfold ex_hrng. apply _. Qed.
Definition ex_wrng : gmap Z (waiter receiver) -> list (Z * waiter receiver) := fun w => map_to_list w.
Definition ex_underlay : Underlay := mkUnderlay 1 (lit "id") (lit "c") ∅ 0.
Definition ex_channel : channelImpl :=
  fresh_channel (mkArgs true true (Some ex_underlay) false ∅ 0 [] [] None) ex_underlay.
Definition ex_pair : pair reader := mkPair ex_channel ex_channel [].
Definition ex_trace : list label := [LWrite 0 (ex_message 7); LRead 0 (wire_message (ex_message 7))].

Lemma ex_run :
  exists p k, runs (pair_step (H := stream_transport ex_hrng) ex_wrng (fun _ => None) false) ex_trace ex_pair p /\
    links p = [k] /\ stopped k = false /\ cut k = false /\ (exists e, ReadV2 64 (data k) = Err e).
Proof.
  pose proof (ex_message_carriable 7 ltac:(vm_compute; split; discriminate || reflexivity)) as Hm.
  pose (k0 := mkLink (mkReader [] io_EOF) false false true ex_underlay ex_underlay : link reader).
  pose (k1 := with_data (put (frame_bytes ex_hrng (ex_message 7)) (data k0)) k0).
  pose (env := mkTxEnv None None false). pose (s := mkSendable None (Some (ex_message 7)) None None).
  destruct (tx env s 0 5 ex_channel) as [r a'] eqn:Etx.
  assert (r = Ret tt /\ new_writes ex_channel a' = [ex_message 7]) as [-> Hw]
    by (vm_compute in Etx; by injection Etx as <- <-).
  assert (on_wire (Transport := stream_transport ex_hrng) true (data k1) [ex_message 7]) as Hwire.
  { split; [apply Forall_singleton; exact Hm|]. exists []. split; [|split; [by left | done]].
    unfold k1. cbn [data with_data]. by rewrite put_stream, app_nil_r. }
  assert (after_tx (H := stream_transport ex_hrng) k0 env 0 (new_writes ex_channel a') (data k1)) as Eput.
  { rewrite Hw. unfold after_tx, carried, Tx_frame, stream_transport.
    rewrite (carriable_frame ex_hrng (ex_message 7) Hm). reflexivity. }
  destruct (law_rx (TransportLaws := stream_laws ex_hrng) _ _ _ _ Hwire) as (c' & Erx & Hw').
  eexists _, (with_data c' k1). split.
  - eapply runs_tau; [eapply (step_connect _ _ _ _ (mkReader [] io_EOF) ex_underlay ex_underlay)|].
    { split; [done|]. exists []. split; [done|]. split; [by left | done]. }
    pose proof (step_tx (H := stream_transport ex_hrng) ex_wrng (fun _ => None) false (mkPair ex_channel ex_channel [k0])
      0 k0 env s 0 5 (Ret tt) a' 0 (data k1) eq_refl eq_refl Etx Eput) as Hstep.
    eapply runs_label; [done | apply Hstep|].
    { intros m ok [= <- _]. exact Hm. }
    eapply runs_label; [done | eapply (step_read _ _ _ _ 0 k1 _ c' 6)|]; [done | done | exact Erx | apply runs_refl].
  - split; [done|]. split; [done|]. split; [done|].
    exact (law_end (TransportLaws := stream_laws ex_hrng) _ _ Hw').
Qed.

Lemma link_refines_fifo_witness :
  exists qs, runs fifo_step ex_trace [] qs /\ length qs = 1%nat.
Proof.
  destruct ex_run as (p & k & Hr & Hl & _).
  destruct (link_refines_fifo ex_hrng ex_wrng (fun _ => None)
    false ex_trace ex_pair p eq_refl Hr) as (qs & Hq & Hlen & _).
  exists qs. split; [exact Hq|]. rewrite Hlen, Hl. reflexivity.
Defined.

Lemma delivered_in_order_witness :
  exists p k, links p = [k] /\ writes (log (sideA p)) = [ex_message 7] /\
    deliveries (log (sideB p)) =
      omap (delivery (C := reader) false (sideB p) (links p)) ex_trace /\
    read 0 ex_trace = wire_message <$> sent 0 ex_trace.
Proof.
  destruct ex_run as (p & k & Hr & Hl & Hs & Hc & e & He). exists p, k. split; [exact Hl|].
  destruct (delivered_in_order ex_hrng ex_wrng (fun _ => None)
    false ex_trace ex_pair p eq_refl Hr) as (Hw & Hd & Ho).
  split; [exact Hw|]. split; [exact Hd|]. apply (proj2 (Ho 0%nat) k e); [rewrite Hl; reflexivity | exact Hs | exact Hc | exact He].
Defined.
