(* ===== verification/Contract.v ===== *)
(** * What an underlay promises (src/channel.go, and the underlays that keep it)

    The interface [Underlay] of src/channel.go as a class, its documented
    contract as laws, and every implementation in full: [classicImpl],
    [existingConnImpl], [DatagramUnderlay], [websockets.Underlay], the
    transport underlay [wsImpl], and [TypeLoggingUnderlay], which wraps any of
    them.  The parts of an underlay that the handshake works on are those of
    [Handshake]; this file adds the identity, the addresses, the write deadline
    and the time of creation.  Connections are parameters: what they answer.

    Theorems, proved against the interface and discharged for every
    implementation: closing is idempotent and reaches the connection once, a
    closed underlay stays closed, and nothing changes what an underlay reports
    about itself; a closed underlay neither receives nor sends, except
    [websockets.Underlay], which leaves that to its connection; the logging
    underlay is not noticed. *)

From S2P Require Import Prelude Headers Wire Handshake Underlays Adapters.

(** ** The interface *)

(** [op_closes] counts the calls of the connection's [Close]; an identity is
    behind a pointer in some underlays. *)
Class UnderlayOps (U : Type) : Type := {
  op_Rx : ST U Message;
  op_Tx : Message -> ST U Message;
  op_Id : U -> outcome gostring;
  op_LogicalName : U -> gostring;
  op_ConnectionId : U -> outcome gostring;
  op_Certificates : U -> list gostring;
  op_Label : U -> gostring;
  op_Close : ST U unit;
  op_IsClosed : U -> bool;
  op_Headers : U -> HeaderMap;
  op_SetWriteTimeout : Z -> Z -> ST U unit;      (* the time of the call and the duration *)
  op_SetWriteDeadline : Z -> ST U unit;
  op_CreatedAt : U -> Z;
  op_closes : U -> nat
}.

Class Addressed (U : Type) : Type := { op_GetLocalAddr : U -> gostring; op_GetRemoteAddr : U -> gostring }.

(** What an underlay reports about itself. *)
Definition identity {U} `{UnderlayOps U} (u : U) :=
  (op_Id u, op_LogicalName u, op_ConnectionId u, op_Certificates u, op_Label u, op_Headers u, op_CreatedAt u).

Definition addresses {U} `{Addressed U} (u : U) := (op_GetLocalAddr u, op_GetRemoteAddr u).

(** The calls of the interface that can change an underlay. *)
Inductive call : Type :=
  | CallRx
  | CallTx (m : Message)
  | CallClose
  | CallSetWriteTimeout (now duration : Z)
  | CallSetWriteDeadline (deadline : Z).

Definition is_close (k : call) : bool := match k with CallClose => true | _ => false end.

Definition is_transfer (k : call) : bool := match k with CallRx | CallTx _ => true | _ => false end.

Definition perform {U} `{UnderlayOps U} (k : call) (u : U) : outcome (option Message) * U :=
  match k with
  | CallRx => let '(r, u') := op_Rx u in (Some <$> r, u')
  | CallTx m => let '(r, u') := op_Tx m u in ((fun _ => None) <$> r, u')
  | CallClose => let '(r, u') := op_Close u in ((fun _ => None) <$> r, u')
  | CallSetWriteTimeout now d => let '(r, u') := op_SetWriteTimeout now d u in ((fun _ => None) <$> r, u')
  | CallSetWriteDeadline t => let '(r, u') := op_SetWriteDeadline t u in ((fun _ => None) <$> r, u')
  end.

Definition succeeded {A} (r : outcome A) : Prop := match r with Ret _ => True | _ => False end.

(** The contract, per call. *)
Class UnderlayLaws (U : Type) `{UnderlayOps U} : Prop := {
  law_open k (u : U) : is_close k = false -> op_IsClosed (perform k u).2 = op_IsClosed u /\
    op_closes (perform k u).2 = op_closes u;
  law_close (u : U) : op_IsClosed u = false ->
    op_IsClosed (op_Close u).2 = true /\ op_closes (op_Close u).2 = S (op_closes u);
  law_closed (u : U) : op_IsClosed u = true -> op_Close u = (Ret tt, u);
  law_identity k (u : U) : identity (perform k u).2 = identity u
}.

(** An underlay that has closed its connection neither receives nor sends. *)
Class SilentLaws (U : Type) `{UnderlayOps U} : Prop :=
  law_dead k (u : U) : op_IsClosed u = true -> (0 < op_closes u)%nat -> is_transfer k = true ->
    ~ succeeded (perform k u).1.

Class AddressLaws (U : Type) `{UnderlayOps U, Addressed U} : Prop :=
  law_addresses k (u : U) : addresses (perform k u).2 = addresses u.

(** A sequence of calls, with the answers. *)
Fixpoint perform_all {U} `{UnderlayOps U} (ks : list call) (u : U) : list (call * outcome (option Message)) * U :=
  match ks with
  | [] => ([], u)
  | k :: ks =>
      let '(r, u1) := perform k u in
      let '(rs, u2) := perform_all ks u1 in ((k, r) :: rs, u2)
  end.

(** ** Connections over a transport *)

(** The addresses, the write deadline with the answer to setting it, and the
    time of creation. *)
Record Net : Type := mkNet {
  localAddr : gostring;
  remoteAddr : gostring;
  writeDeadline : option Z;
  writeDeadlineErr : option error;
  createdAt : Z
}.

Definition with_writeDeadline (t : Z) (n : Net) : Net :=
  mkNet (localAddr n) (remoteAddr n) (Some t) (writeDeadlineErr n) (createdAt n).

Record socket : Type := mkSocket { base : classicImpl; net : Net }.

Definition on_base {A} (f : ST classicImpl A) : ST socket A := fun s =>
  let '(r, b) := f (base s) in (r, mkSocket b (net s)).

(** [peer.SetWriteDeadline] *)
Definition socket_SetWriteDeadline (t : Z) : ST socket unit := fun s =>
  if decide (closes (peer (base s)) = 0%nat) then
    match writeDeadlineErr (net s) with
    | Some e => (Err e, s)
    | None => (Ret tt, mkSocket (base s) (with_writeDeadline t (net s)))
    end
  else (Err net_ErrClosed, s).

Definition socket_SetWriteTimeout (now duration : Z) : ST socket unit := socket_SetWriteDeadline (now + duration).

(** ["u{%s}->i{%s}"] *)
Definition label_of (logicalName connectionId : gostring) : gostring :=
  lit "u{" ++ logicalName ++ lit "}->i{" ++ connectionId ++ lit "}".

(** ** [classicImpl] *)

Module Classic.

Record t : Type := mk { sock : socket }.

Definition on_sock {A} (f : ST socket A) : ST t A := fun u => let '(r, s) := f (sock u) in (r, mk s).

Definition impl (u : t) : classicImpl := base (sock u).

Definition Rx : ST t Message := on_sock (on_base Handshake.Rx).
Definition Tx (m : Message) : ST t Message := on_sock (on_base (Handshake.Tx m)).
Definition Id (u : t) : gostring := id (impl u).
Definition LogicalName : gostring := lit "classic".
Definition ConnectionId (u : t) : gostring := connectionId (impl u).
Definition Certificates (u : t) : list gostring := commonNames (peer (impl u)).
Definition Label (u : t) : gostring :=
  lit "u{" ++ LogicalName ++ lit "}->i{" ++ Id u ++ lit "/" ++ ConnectionId u ++ lit "}".
Definition Close : ST t unit := on_sock (on_base Handshake.Close).
Definition IsClosed (u : t) : bool := closed (impl u).
Definition Headers (u : t) : HeaderMap := headers (impl u).
Definition SetWriteTimeout (now duration : Z) : ST t unit := on_sock (socket_SetWriteTimeout now duration).
Definition SetWriteDeadline (deadline : Z) : ST t unit := on_sock (socket_SetWriteDeadline deadline).
Definition CreatedAt (u : t) : Z := createdAt (net (sock u)).
Definition GetLocalAddr (u : t) : gostring := localAddr (net (sock u)).
Definition GetRemoteAddr (u : t) : gostring := remoteAddr (net (sock u)).

#[global] Instance ops : UnderlayOps t := {
  op_Rx := Rx; op_Tx := Tx; op_Id u := Ret (Id u); op_LogicalName _ := LogicalName;
  op_ConnectionId u := Ret (ConnectionId u); op_Certificates := Certificates; op_Label := Label;
  op_Close := Close; op_IsClosed := IsClosed; op_Headers := Headers; op_SetWriteTimeout := SetWriteTimeout;
  op_SetWriteDeadline := SetWriteDeadline; op_CreatedAt := CreatedAt; op_closes u := closes (peer (impl u))
}.
#[global] Instance addrs : Addressed t := { op_GetLocalAddr := GetLocalAddr; op_GetRemoteAddr := GetRemoteAddr }.

End Classic.

(** ** [existingConnImpl] *)

Module Existing.

(** The identity is set when the handshake has succeeded. *)
Record t : Type := mk { sock : socket; token : option gostring }.

Definition on_sock {A} (f : ST socket A) : ST t A := fun u => let '(r, s) := f (sock u) in (r, mk s (token u)).

Definition impl (u : t) : classicImpl := base (sock u).

Definition Rx : ST t Message := on_sock (on_base Handshake.Rx).
Definition Tx (m : Message) : ST t Message := on_sock (on_base (Handshake.Tx m)).
Definition Id (u : t) : outcome gostring := match token u with Some i => Ret i | None => Panic end.
Definition LogicalName : gostring := lit "existing".
Definition ConnectionId (u : t) : gostring := connectionId (impl u).
Definition Certificates (u : t) : list gostring := [].
Definition Label (u : t) : gostring := label_of LogicalName (ConnectionId u).
Definition Close : ST t unit := on_sock (on_base Handshake.Close).
Definition IsClosed (u : t) : bool := closed (impl u).
Definition Headers (u : t) : HeaderMap := headers (impl u).
Definition SetWriteTimeout (now duration : Z) : ST t unit := on_sock (socket_SetWriteTimeout now duration).
Definition SetWriteDeadline (deadline : Z) : ST t unit := on_sock (socket_SetWriteDeadline deadline).
Definition CreatedAt (u : t) : Z := createdAt (net (sock u)).
Definition GetLocalAddr (u : t) : gostring := localAddr (net (sock u)).
Definition GetRemoteAddr (u : t) : gostring := remoteAddr (net (sock u)).

#[global] Instance ops : UnderlayOps t := {
  op_Rx := Rx; op_Tx := Tx; op_Id := Id; op_LogicalName _ := LogicalName;
  op_ConnectionId u := Ret (ConnectionId u); op_Certificates := Certificates; op_Label := Label;
  op_Close := Close; op_IsClosed := IsClosed; op_Headers := Headers; op_SetWriteTimeout := SetWriteTimeout;
  op_SetWriteDeadline := SetWriteDeadline; op_CreatedAt := CreatedAt; op_closes u := closes (peer (impl u))
}.
#[global] Instance addrs : Addressed t := { op_GetLocalAddr := GetLocalAddr; op_GetRemoteAddr := GetRemoteAddr }.

End Existing.

(** ** [DatagramUnderlay] *)

Module Datagram.

Record t : Type := mk { sock : socket }.

Definition on_sock {A} (f : ST socket A) : ST t A := fun u => let '(r, s) := f (sock u) in (r, mk s).

Definition impl (u : t) : classicImpl := base (sock u).

Definition Rx : ST t Message := on_sock (on_base Datagram_Rx).
Definition Tx (m : Message) : ST t Message := on_sock (on_base (Datagram_Tx m)).
Definition Id (u : t) : gostring := id (impl u).
Definition LogicalName : gostring := lit "datagram".
Definition ConnectionId (u : t) : gostring := connectionId (impl u).
Definition Certificates (u : t) : list gostring := commonNames (peer (impl u)).
Definition Label (u : t) : gostring := label_of LogicalName (ConnectionId u).
Definition Close : ST t unit := on_sock (on_base Handshake.Close).
Definition IsClosed (u : t) : bool := closed (impl u).
Definition Headers (u : t) : HeaderMap := headers (impl u).
Definition SetWriteTimeout (now duration : Z) : ST t unit := on_sock (socket_SetWriteTimeout now duration).
Definition SetWriteDeadline (deadline : Z) : ST t unit := on_sock (socket_SetWriteDeadline deadline).
Definition CreatedAt (u : t) : Z := createdAt (net (sock u)).
Definition GetLocalAddr (u : t) : gostring := localAddr (net (sock u)).
Definition GetRemoteAddr (u : t) : gostring := remoteAddr (net (sock u)).

#[global] Instance ops : UnderlayOps t := {
  op_Rx := Rx; op_Tx := Tx; op_Id u := Ret (Id u); op_LogicalName _ := LogicalName;
  op_ConnectionId u := Ret (ConnectionId u); op_Certificates := Certificates; op_Label := Label;
  op_Close := Close; op_IsClosed := IsClosed; op_Headers := Headers; op_SetWriteTimeout := SetWriteTimeout;
  op_SetWriteDeadline := SetWriteDeadline; op_CreatedAt := CreatedAt; op_closes u := closes (peer (impl u))
}.
#[global] Instance addrs : Addressed t := { op_GetLocalAddr := GetLocalAddr; op_GetRemoteAddr := GetRemoteAddr }.

End Datagram.

(** ** [wsImpl], which has no addresses *)

Module WsImpl.

(** The identity, which [newWSImpl] leaves nil. *)
Record t : Type := mk { sock : socket; token : option gostring }.

Definition on_sock {A} (f : ST socket A) : ST t A := fun u => let '(r, s) := f (sock u) in (r, mk s (token u)).

Definition impl (u : t) : classicImpl := base (sock u).

Definition Rx : ST t Message := on_sock (on_base Handshake.Rx).
Definition Tx (m : Message) : ST t Message := on_sock (on_base (Handshake.Tx m)).
Definition Id (u : t) : outcome gostring := match token u with Some i => Ret i | None => Panic end.
Definition LogicalName : gostring := lit "ws".
Definition ConnectionId (u : t) : gostring := connectionId (impl u).
Definition Certificates (u : t) : list gostring := commonNames (peer (impl u)).
Definition Label (u : t) : gostring := label_of LogicalName (ConnectionId u).
Definition Close : ST t unit := on_sock (on_base Handshake.Close).
Definition IsClosed (u : t) : bool := closed (impl u).
Definition Headers (u : t) : HeaderMap := headers (impl u).
Definition SetWriteTimeout (now duration : Z) : ST t unit := on_sock (socket_SetWriteTimeout now duration).
Definition SetWriteDeadline (deadline : Z) : ST t unit := on_sock (socket_SetWriteDeadline deadline).
Definition CreatedAt (u : t) : Z := createdAt (net (sock u)).

#[global] Instance ops : UnderlayOps t := {
  op_Rx := Rx; op_Tx := Tx; op_Id := Id; op_LogicalName _ := LogicalName;
  op_ConnectionId u := Ret (ConnectionId u); op_Certificates := Certificates; op_Label := Label;
  op_Close := Close; op_IsClosed := IsClosed; op_Headers := Headers; op_SetWriteTimeout := SetWriteTimeout;
  op_SetWriteDeadline := SetWriteDeadline; op_CreatedAt := CreatedAt; op_closes u := closes (peer (impl u))
}.

(** [NewWSListener] (ws_listener.go): the underlay of the listener. *)
Definition NewWSListener (W : Z) (rng : HeaderMap -> list (Z * bytes)) (peer : Conn) (n : Net) : t :=
  mk (mkSocket (newExistingImpl W rng peer 2) n) None.

End WsImpl.

(** ** [websockets.Underlay] *)

Module Websocket.

(** The connection of the websocket library, which is not modelled: what it
    answers to the reads and writes to come (an answer is there or the call
    waits), whatever was closed before, and to closing; and what was written. *)
Record WsConn : Type := mkWsConn {
  reads : list (outcome (Z * bytes));
  writeErrs : list (option error);
  outgoing : list (Z * bytes);
  closeErr : option error;
  closes : nat
}.

Record Underlay : Type := mkUnderlay {
  id : option gostring;
  peer : WsConn;
  closed : bool;
  certs : list gostring;
  net : Net
}.

Definition with_peer (c : WsConn) (u : Underlay) : Underlay := mkUnderlay (id u) c (closed u) (certs u) (net u).

Definition ReadMessage : ST WsConn (Z * bytes) := fun c =>
  match reads c with
  | [] => (OutOfFuel, c)
  | r :: rs => (r, mkWsConn rs (writeErrs c) (outgoing c) (closeErr c) (closes c))
  end.

Definition WriteMessage (w : Z * bytes) : ST WsConn unit := fun c =>
  match writeErrs c with
  | [] => (OutOfFuel, c)
  | Some e :: es => (Err e, mkWsConn (reads c) es (outgoing c) (closeErr c) (closes c))
  | None :: es => (Ret tt, mkWsConn (reads c) es (outgoing c ++ [w]) (closeErr c) (closes c))
  end.

Section Underlay.
Context (rng : HeaderMap -> list (Z * bytes)).

Definition NewUnderlayFactory (id : option gostring) (peer : WsConn) (certs : list gostring) (n : Net) : Underlay :=
  mkUnderlay id peer false certs n.

(** [Create] answers with the underlay itself. *)
Definition Create (timeout : Z) (u : Underlay) : outcome Underlay := Ret u.

Definition Rx : ST Underlay Message := fun u =>
  let '(answer, c) := ReadMessage (peer u) in (WS.Rx answer, with_peer c u).

Definition Tx (m : Message) : ST Underlay Message := fun u =>
  match WS.Tx rng m with
  | (Ret w, m') => let '(r, c) := WriteMessage w (peer u) in ((fun _ => m') <$> r, with_peer c u)
  | (Err e, _) => (Err e, u)
  | (Panic, _) => (Panic, u)
  | (OutOfFuel, _) => (OutOfFuel, u)
  end.

Definition Id (u : Underlay) : outcome gostring := match id u with Some i => Ret i | None => Panic end.
Definition LogicalName : gostring := lit "ws".
Definition ConnectionId (u : Underlay) : outcome gostring := match id u with Some i => Ret i | None => Panic end.
Definition Certificates (u : Underlay) : list gostring := certs u.
Definition Label : gostring := lit "ws".

Definition Close : ST Underlay unit := fun u =>
  if closed u then (Ret tt, u)
  else (answer (closeErr (peer u)),
        mkUnderlay (id u)
          (mkWsConn (reads (peer u)) (writeErrs (peer u)) (outgoing (peer u)) (closeErr (peer u))
             (S (closes (peer u)))) true (certs u) (net u)).

Definition IsClosed (u : Underlay) : bool := closed u.
Definition Headers (u : Underlay) : HeaderMap := ∅.

Definition SetWriteDeadline (deadline : Z) : ST Underlay unit := fun u =>
  match writeDeadlineErr (net u) with
  | Some e => (Err e, u)
  | None => (Ret tt, mkUnderlay (id u) (peer u) (closed u) (certs u) (with_writeDeadline deadline (net u)))
  end.

Definition SetWriteTimeout (now duration : Z) : ST Underlay unit := SetWriteDeadline (now + duration).
Definition CreatedAt (u : Underlay) : Z := createdAt (net u).
Definition GetLocalAddr (u : Underlay) : gostring := localAddr (net u).
Definition GetRemoteAddr (u : Underlay) : gostring := remoteAddr (net u).

#[global] Instance ops : UnderlayOps Underlay := {
  op_Rx := Rx; op_Tx := Tx; op_Id := Id; op_LogicalName _ := LogicalName;
  op_ConnectionId := ConnectionId; op_Certificates := Certificates; op_Label _ := Label;
  op_Close := Close; op_IsClosed := IsClosed; op_Headers := Headers; op_SetWriteTimeout := SetWriteTimeout;
  op_SetWriteDeadline := SetWriteDeadline; op_CreatedAt := CreatedAt; op_closes u := closes (peer u)
}.
#[global] Instance addrs : Addressed Underlay := { op_GetLocalAddr := GetLocalAddr; op_GetRemoteAddr := GetRemoteAddr }.

End Underlay.
End Websocket.

(** ** [TypeLoggingUnderlay] *)

(** [GetUnderlayType] of any underlay. *)
Definition underlay_type {U} `{UnderlayOps U} (u : U) : gostring :=
  let t := default [] (op_Headers u !! TypeHeader) in
  if decide (t ≠ []) then t else DefaultUnderlayType.

Module TypeLogging.

(** The wrapped underlay, and what was logged: the content type of each message
    sent and the type of the underlay. *)
Record t (U : Type) : Type := mk { wrapped : U; logged : list (Z * gostring) }.
#[global] Arguments mk {_}.
#[global] Arguments wrapped {_}.
#[global] Arguments logged {_}.

Section TypeLogging.
Context {U : Type} `{UnderlayOps U}.

Definition on_wrapped {A} (f : ST U A) : ST (t U) A := fun u =>
  let '(r, w) := f (wrapped u) in (r, mk w (logged u)).

Definition Rx : ST (t U) Message := on_wrapped op_Rx.

Definition Tx (m : Message) : ST (t U) Message := fun u =>
  on_wrapped (op_Tx m) (mk (wrapped u) (logged u ++ [(ContentType m, underlay_type (wrapped u))])).

Definition Id (u : t U) : outcome gostring := op_Id (wrapped u).
Definition LogicalName (u : t U) : gostring := op_LogicalName (wrapped u).
Definition ConnectionId (u : t U) : outcome gostring := op_ConnectionId (wrapped u).
Definition Certificates (u : t U) : list gostring := op_Certificates (wrapped u).
Definition Label (u : t U) : gostring := op_Label (wrapped u).
Definition Close : ST (t U) unit := on_wrapped op_Close.
Definition IsClosed (u : t U) : bool := op_IsClosed (wrapped u).
Definition Headers (u : t U) : HeaderMap := op_Headers (wrapped u).
Definition SetWriteTimeout (now duration : Z) : ST (t U) unit := on_wrapped (op_SetWriteTimeout now duration).
Definition SetWriteDeadline (deadline : Z) : ST (t U) unit := on_wrapped (op_SetWriteDeadline deadline).
Definition CreatedAt (u : t U) : Z := op_CreatedAt (wrapped u).

#[global] Instance ops : UnderlayOps (t U) := {
  op_Rx := Rx; op_Tx := Tx; op_Id := Id; op_LogicalName := LogicalName;
  op_ConnectionId := ConnectionId; op_Certificates := Certificates; op_Label := Label;
  op_Close := Close; op_IsClosed := IsClosed; op_Headers := Headers; op_SetWriteTimeout := SetWriteTimeout;
  op_SetWriteDeadline := SetWriteDeadline; op_CreatedAt := CreatedAt; op_closes u := op_closes (wrapped u)
}.

Definition GetLocalAddr `{Addressed U} (u : t U) : gostring := op_GetLocalAddr (wrapped u).
Definition GetRemoteAddr `{Addressed U} (u : t U) : gostring := op_GetRemoteAddr (wrapped u).

#[global] Instance addrs `{Addressed U} : Addressed (t U) :=
  { op_GetLocalAddr := GetLocalAddr; op_GetRemoteAddr := GetRemoteAddr }.

End TypeLogging.
End TypeLogging.

(** ** Lemmas: the operations of the handshake's underlay *)

(** What a call other than [Close] leaves as it is. *)
Definition undisturbed (i i' : classicImpl) : Prop :=
  closed i' = closed i /\ closes (peer i') = closes (peer i) /\ id i' = id i /\
  connectionId i' = connectionId i /\ headers i' = headers i /\ commonNames (peer i') = commonNames (peer i).

Lemma read_undisturbed i : undisturbed i (on_peer (conn_read (readF i)) i).2.
Proof. unfold on_peer, conn_read, on_open. by case_decide; [destruct (readF i (rd (peer i))) as [[]| | |]|]. Qed.

Lemma write_undisturbed data (m : Message) i : undisturbed i ((_ ← on_peer (conn_Write data); mret m) i).2.
Proof.
  unfold mbind, ST_bind, on_peer, conn_Write, on_open. by case_decide; [destruct (Handshake.writeErr (peer i))|].
Qed.

Lemma Rx_undisturbed i : undisturbed i (Handshake.Rx i).2.
Proof. unfold Handshake.Rx. destruct (closed i) eqn:E; [by repeat split | apply read_undisturbed]. Qed.

Lemma Datagram_Tx_undisturbed m i : undisturbed i (Datagram_Tx m i).2.
Proof. unfold Datagram_Tx. destruct (marshalF i m) as [[]]; [apply write_undisturbed | by repeat split..]. Qed.

Lemma Tx_undisturbed m i : undisturbed i (Handshake.Tx m i).2.
Proof.
  unfold Handshake.Tx. destruct (closed i) eqn:E; [by repeat split|].
  destruct (marshalF i m) as [[]]; [apply write_undisturbed | by repeat split..].
Qed.

Lemma read_dead i : (0 < closes (peer i))%nat -> (on_peer (conn_read (readF i)) i).1 = Err net_ErrClosed.
Proof. intros Hc. unfold on_peer, conn_read, on_open. by rewrite decide_False by lia. Qed.

Lemma write_dead data (m : Message) i : (0 < closes (peer i))%nat ->
  ((_ ← on_peer (conn_Write data); mret m) i).1 = Err net_ErrClosed.
Proof. intros Hc. unfold mbind, ST_bind, on_peer, conn_Write, on_open. by rewrite decide_False by lia. Qed.

Lemma Close_first i : closed i = false ->
  let i' := (Handshake.Close i).2 in
  closed i' = true /\ closes (peer i') = S (closes (peer i)) /\ id i' = id i /\
  connectionId i' = connectionId i /\ headers i' = headers i /\ commonNames (peer i') = commonNames (peer i).
Proof. intros Hc. unfold Handshake.Close. by rewrite Hc. Qed.

Lemma Close_again i : closed i = true -> Handshake.Close i = (Ret tt, i).
Proof. intros Hc. unfold Handshake.Close. by rewrite Hc. Qed.

(** ** The implementations keep the contract *)

(** The part of an underlay's state that its reports come from. *)
Definition reported (s : socket) :=
  (id (base s), connectionId (base s), headers (base s), commonNames (peer (base s)), createdAt (net s),
   (localAddr (net s), remoteAddr (net s))).

(** An underlay that works on a socket, receiving with [rx] and sending with
    [tx]. *)
Section Backed.
Context {U : Type} `{UnderlayOps U} (get : U -> socket) (put : socket -> U -> U)
  (rx : ST classicImpl Message) (tx : Message -> ST classicImpl Message).

Definition via {A} (f : ST socket A) : ST U A := fun u => let '(r, s) := f (get u) in (r, put s u).

Record backed : Prop := {
  get_put s u : get (put s u) = s;
  put_get u : put (get u) u = u;
  backed_Rx u : op_Rx u = via (on_base rx) u;
  backed_Tx m u : op_Tx m u = via (on_base (tx m)) u;
  backed_Close u : op_Close u = via (on_base Handshake.Close) u;
  backed_timeout now d u : op_SetWriteTimeout now d u = via (socket_SetWriteTimeout now d) u;
  backed_deadline t u : op_SetWriteDeadline t u = via (socket_SetWriteDeadline t) u;
  backed_IsClosed u : op_IsClosed u = closed (base (get u));
  backed_closes u : op_closes u = closes (peer (base (get u)));
  backed_identity s u : reported s = reported (get u) -> identity (put s u) = identity u;
  rx_undisturbed i : undisturbed i (rx i).2;
  tx_undisturbed m i : undisturbed i (tx m i).2;
  rx_dead i : closed i = true -> (0 < closes (peer i))%nat -> ~ succeeded (rx i).1;
  tx_dead m i : closed i = true -> (0 < closes (peer i))%nat -> ~ succeeded (tx m i).1
}.

Context (B : backed).

Lemma deadline_kept t s : base (socket_SetWriteDeadline t s).2 = base s /\
  reported (socket_SetWriteDeadline t s).2 = reported s.
Proof using Type. unfold socket_SetWriteDeadline. case_decide; [|done]. by destruct (writeDeadlineErr (net s)). Qed.

(** What a call does to the socket. *)
Lemma perform_socket k u : exists s, (perform k u).2 = put s u /\ reported s = reported (get u) /\
  (is_close k = false ->
     closed (base s) = closed (base (get u)) /\ closes (peer (base s)) = closes (peer (base (get u)))).
Proof using B.
  assert (forall rx, (forall i, undisturbed i (rx i).2) ->
    let s := (on_base (A := Message) rx (get u)).2 in reported s = reported (get u) /\
    closed (base s) = closed (base (get u)) /\ closes (peer (base s)) = closes (peer (base (get u)))) as Hbase.
  { intros f Hf. unfold on_base. specialize (Hf (base (get u))). destruct (f (base (get u))) as [r b].
    destruct Hf as (H1 & H2 & H3 & H4 & H5 & H6). cbn in *. unfold reported. cbn. by rewrite H3, H4, H5, H6. }
  destruct k as [|m| |now d|d]; cbn [perform is_close].
  - rewrite (backed_Rx B). unfold via. pose proof (Hbase rx (rx_undisturbed B)) as (H1 & H2 & H3).
    destruct (on_base rx (get u)) as [r s]. by exists s.
  - rewrite (backed_Tx B). unfold via. pose proof (Hbase (tx m) (tx_undisturbed B m)) as (H1 & H2 & H3).
    destruct (on_base (tx m) (get u)) as [r s]. by exists s.
  - rewrite (backed_Close B). unfold via, on_base. destruct (closed (base (get u))) eqn:E.
    + rewrite Close_again by done. by exists (mkSocket (base (get u)) (net (get u))).
    + pose proof (Close_first _ E) as (_ & _ & H3 & H4 & H5 & H6). destruct (Handshake.Close (base (get u))) as [r b].
      exists (mkSocket b (net (get u))). split; [done|]. split; [|done]. cbn in *. unfold reported. cbn.
      by rewrite H3, H4, H5, H6.
  - rewrite (backed_timeout B). unfold via, socket_SetWriteTimeout. pose proof (deadline_kept (now + d) (get u)) as [H1 H2].
    destruct (socket_SetWriteDeadline (now + d) (get u)) as [r s]. exists s. cbn in *. by rewrite H1.
  - rewrite (backed_deadline B). unfold via. pose proof (deadline_kept d (get u)) as [H1 H2].
    destruct (socket_SetWriteDeadline d (get u)) as [r s]. exists s. cbn in *. by rewrite H1.
Qed.

Lemma backed_laws : UnderlayLaws U.
Proof using B.
  split.
  - intros k u Hk. destruct (perform_socket k u) as (s & E & _ & Hs). destruct (Hs Hk) as [H1 H2].
    by rewrite E, !(backed_IsClosed B), !(backed_closes B), (get_put B).
  - intros u. rewrite (backed_IsClosed B), (backed_Close B). intros Hc. unfold via, on_base.
    pose proof (Close_first _ Hc) as (H1 & H2 & _). destruct (Handshake.Close (base (get u))) as [r b]. cbn in *.
    by rewrite (backed_IsClosed B), !(backed_closes B), (get_put B).
  - intros u. rewrite (backed_IsClosed B), (backed_Close B). intros Hc. unfold via, on_base.
    rewrite Close_again by done. f_equal. transitivity (put (get u) u); [by destruct (get u) | by apply (put_get B)].
  - intros k u. destruct (perform_socket k u) as (s & -> & Hr & _). by apply (backed_identity B).
Qed.

Lemma backed_silent : SilentLaws U.
Proof using B.
  intros k u. rewrite (backed_IsClosed B), (backed_closes B). intros Hc Hn Hk.
  destruct k as [|m| | |]; try done; cbn [perform].
  - rewrite (backed_Rx B). unfold via, on_base. pose proof (rx_dead B _ Hc Hn) as Hd.
    by destruct (rx (base (get u))) as [[] b].
  - rewrite (backed_Tx B). unfold via, on_base. pose proof (tx_dead B m _ Hc Hn) as Hd.
    by destruct (tx m (base (get u))) as [[] b].
Qed.

Lemma backed_addresses `{Addressed U} :
  (forall u, addresses u = (localAddr (net (get u)), remoteAddr (net (get u)))) -> AddressLaws U.
Proof using B.
  intros Ha k u. destruct (perform_socket k u) as (s & -> & Hr & _). rewrite !Ha, (get_put B).
  unfold reported in Hr. by injection Hr as _ _ _ _ _ -> ->.
Qed.

End Backed.

Lemma closed_rx_dead i : closed i = true -> ~ succeeded (Handshake.Rx i).1.
Proof. intros Hc. unfold Handshake.Rx. rewrite Hc. intros []. Qed.

Lemma closed_tx_dead m i : closed i = true -> ~ succeeded (Handshake.Tx m i).1.
Proof. intros Hc. unfold Handshake.Tx. rewrite Hc. intros []. Qed.

Lemma datagram_tx_dead m i : (0 < closes (peer i))%nat -> ~ succeeded (Datagram_Tx m i).1.
Proof. intros Hc. unfold Datagram_Tx. destruct (marshalF i m) as [[]]; [rewrite write_dead by done|..]; intros []. Qed.

Lemma reported_eq s s' : reported s = reported s' ->
  id (base s) = id (base s') /\ connectionId (base s) = connectionId (base s') /\
  headers (base s) = headers (base s') /\ commonNames (peer (base s)) = commonNames (peer (base s')) /\
  createdAt (net s) = createdAt (net s').
Proof. unfold reported. intros E. by injection E as -> -> -> -> -> _ _. Qed.

(** The obligations of [backed] that hold by computation, and the reports. *)
Ltac backed_by unfolds :=
  split; try done;
  [ by intros []
  | intros s [] Hr; apply reported_eq in Hr as (R1 & R2 & R3 & R4 & R5); cbn in R1, R2, R3, R4, R5;
    unfold identity; cbn; unfolds; cbn; by rewrite ?R1, ?R2, ?R3, ?R4, ?R5
  | .. ].

Lemma classic_backed : backed Classic.sock (fun s _ => Classic.mk s) Handshake.Rx Handshake.Tx.
Proof.
  backed_by ltac:(unfold Classic.Label, Classic.Id, Classic.ConnectionId, Classic.Certificates, Classic.Headers,
    Classic.CreatedAt, Classic.impl).
  - apply Rx_undisturbed.
  - apply Tx_undisturbed.
  - intros i Hc _. by apply closed_rx_dead.
  - intros m i Hc _. by apply closed_tx_dead.
Qed.

#[global] Instance classic_laws : UnderlayLaws Classic.t := backed_laws _ _ _ _ classic_backed.
#[global] Instance classic_silent : SilentLaws Classic.t := backed_silent _ _ _ _ classic_backed.

#[global] Instance classic_addresses : AddressLaws Classic.t.
Proof. by apply (backed_addresses _ _ _ _ classic_backed). Qed.

Lemma existing_backed : backed Existing.sock (fun s u => Existing.mk s (Existing.token u)) Handshake.Rx Handshake.Tx.
Proof.
  backed_by ltac:(unfold Existing.Label, Existing.Id, Existing.ConnectionId, Existing.Certificates, Existing.Headers,
    Existing.CreatedAt, Existing.impl).
  - apply Rx_undisturbed.
  - apply Tx_undisturbed.
  - intros i Hc _. by apply closed_rx_dead.
  - intros m i Hc _. by apply closed_tx_dead.
Qed.

#[global] Instance existing_laws : UnderlayLaws Existing.t := backed_laws _ _ _ _ existing_backed.
#[global] Instance existing_silent : SilentLaws Existing.t := backed_silent _ _ _ _ existing_backed.

#[global] Instance existing_addresses : AddressLaws Existing.t.
Proof. by apply (backed_addresses _ _ _ _ existing_backed). Qed.

Lemma wsImpl_backed : backed WsImpl.sock (fun s u => WsImpl.mk s (WsImpl.token u)) Handshake.Rx Handshake.Tx.
Proof.
  backed_by ltac:(unfold WsImpl.Label, WsImpl.Id, WsImpl.ConnectionId, WsImpl.Certificates, WsImpl.Headers,
    WsImpl.CreatedAt, WsImpl.impl).
  - apply Rx_undisturbed.
  - apply Tx_undisturbed.
  - intros i Hc _. by apply closed_rx_dead.
  - intros m i Hc _. by apply closed_tx_dead.
Qed.

#[global] Instance wsImpl_laws : UnderlayLaws WsImpl.t := backed_laws _ _ _ _ wsImpl_backed.
#[global] Instance wsImpl_silent : SilentLaws WsImpl.t := backed_silent _ _ _ _ wsImpl_backed.

Lemma datagram_backed : backed Datagram.sock (fun s _ => Datagram.mk s) Datagram_Rx Datagram_Tx.
Proof.
  backed_by ltac:(unfold Datagram.Label, Datagram.Id, Datagram.ConnectionId, Datagram.Certificates, Datagram.Headers,
    Datagram.CreatedAt, Datagram.impl).
  - apply read_undisturbed.
  - apply Datagram_Tx_undisturbed.
  - intros i _ Hc. unfold Datagram_Rx. rewrite read_dead by done. intros [].
  - intros m i _ Hc. by apply datagram_tx_dead.
Qed.

#[global] Instance datagram_laws : UnderlayLaws Datagram.t := backed_laws _ _ _ _ datagram_backed.
#[global] Instance datagram_silent : SilentLaws Datagram.t := backed_silent _ _ _ _ datagram_backed.

#[global] Instance datagram_addresses : AddressLaws Datagram.t.
Proof. by apply (backed_addresses _ _ _ _ datagram_backed). Qed.

Section WebsocketLaws.
Context (rng : HeaderMap -> list (Z * bytes)).

(** A transfer changes the connection only, and does not close it. *)
Lemma websocket_transfer k u : is_transfer k = true -> exists c,
  (perform (H := Websocket.ops rng) k u).2 = Websocket.with_peer c u /\
  Websocket.closes c = Websocket.closes (Websocket.peer u).
Proof using Type.
  destruct u as [i p cl cs n]. destruct k as [|m| | |]; try done; intros _;
    cbn [perform op_Rx op_Tx Websocket.ops].
  - unfold Websocket.Rx, Websocket.ReadMessage. cbn. destruct (Websocket.reads p); by eexists.
  - unfold Websocket.Tx, Websocket.WriteMessage. destruct (WS.Tx rng m) as [[w| | |] m']; [cbn | by exists p..].
    destruct (Websocket.writeErrs p) as [|[] ?]; by eexists.
Qed.

#[global] Instance websocket_underlay_laws : UnderlayLaws Websocket.Underlay (H := Websocket.ops rng).
Proof.
  split.
  - intros k u Hk. destruct (is_transfer k) eqn:Et.
    + destruct (websocket_transfer k u Et) as (c & -> & Ec). done.
    + destruct k as [|m| |now d|t]; try done; cbn [perform op_SetWriteTimeout op_SetWriteDeadline Websocket.ops];
        unfold Websocket.SetWriteTimeout, Websocket.SetWriteDeadline; by destruct (writeDeadlineErr _).
  - intros u Hc. cbn in *. unfold Websocket.IsClosed, Websocket.Close in *. by rewrite Hc.
  - intros u Hc. cbn in *. unfold Websocket.IsClosed, Websocket.Close in *. by rewrite Hc.
  - intros k u. destruct (is_transfer k) eqn:Et.
    + destruct (websocket_transfer k u Et) as (c & -> & Ec). done.
    + destruct k as [|m| |now d|t]; try done; cbn [perform op_Close op_SetWriteTimeout op_SetWriteDeadline Websocket.ops].
      * unfold Websocket.Close. by destruct (Websocket.closed u).
      * unfold Websocket.SetWriteTimeout, Websocket.SetWriteDeadline. by destruct (writeDeadlineErr _).
      * unfold Websocket.SetWriteDeadline. by destruct (writeDeadlineErr _).
Qed.

#[global] Instance websocket_addresses : AddressLaws Websocket.Underlay (H := Websocket.ops rng).
Proof.
  intros k u. destruct (is_transfer k) eqn:Et.
  - destruct (websocket_transfer k u Et) as (c & -> & Ec). done.
  - destruct k as [|m| |now d|t]; try done; cbn [perform op_Close op_SetWriteTimeout op_SetWriteDeadline Websocket.ops].
    + unfold Websocket.Close. by destruct (Websocket.closed u).
    + unfold Websocket.SetWriteTimeout, Websocket.SetWriteDeadline. by destruct (writeDeadlineErr _).
    + unfold Websocket.SetWriteDeadline. by destruct (writeDeadlineErr _).
Qed.

End WebsocketLaws.

(** *** The logging underlay *)

(** What a call adds to the log. *)
Definition logs {U} `{UnderlayOps U} (k : call) (u : U) : list (Z * gostring) :=
  match k with CallTx m => [(ContentType m, underlay_type u)] | _ => [] end.

Section LoggingLaws.
Context {U : Type} `{UnderlayLaws U}.

Lemma logging_perform k (u : TypeLogging.t U) :
  perform k u = ((perform k (TypeLogging.wrapped u)).1,
                 TypeLogging.mk (perform k (TypeLogging.wrapped u)).2
                   (TypeLogging.logged u ++ logs k (TypeLogging.wrapped u))).
Proof using Type.
  destruct u as [w l]. destruct k as [|m| |now d|t]; cbn; rewrite ?app_nil_r;
    unfold TypeLogging.Rx, TypeLogging.Tx, TypeLogging.Close, TypeLogging.SetWriteTimeout,
      TypeLogging.SetWriteDeadline, TypeLogging.on_wrapped; cbn.
  - by destruct (op_Rx w).
  - by destruct (op_Tx m w).
  - by destruct (op_Close w).
  - by destruct (op_SetWriteTimeout now d w).
  - by destruct (op_SetWriteDeadline t w).
Qed.

Lemma logging_identity (u : TypeLogging.t U) : identity u = identity (TypeLogging.wrapped u).
Proof using Type. done. Qed.

#[global] Instance logging_laws : UnderlayLaws (TypeLogging.t U).
Proof using H0.
  split.
  - intros k u Hk. rewrite logging_perform. exact (law_open k (TypeLogging.wrapped u) Hk).
  - intros [w l] Hc. cbn. unfold TypeLogging.Close, TypeLogging.on_wrapped. cbn.
    pose proof (law_close w Hc) as Hl. by destruct (op_Close w).
  - intros [w l] Hc. cbn. unfold TypeLogging.Close, TypeLogging.on_wrapped. cbn. by rewrite (law_closed w Hc).
  - intros k u. rewrite logging_perform, !logging_identity. exact (law_identity k (TypeLogging.wrapped u)).
Qed.

#[global] Instance logging_silent `{!SilentLaws U} : SilentLaws (TypeLogging.t U).
Proof using Type.
  intros k u Hc Hn Hk. rewrite logging_perform. exact (law_dead k (TypeLogging.wrapped u) Hc Hn Hk).
Qed.

#[global] Instance logging_addresses `{Addressed U, !AddressLaws U} : AddressLaws (TypeLogging.t U).
Proof using Type. intros k u. rewrite logging_perform. exact (law_addresses k (TypeLogging.wrapped u)). Qed.

End LoggingLaws.

(** ** Properties *)

(** The contract over any sequence of calls on an underlay that, if it is
    closed, has closed its connection. *)
Definition keeps_contract (U : Type) `{UnderlayOps U} : Prop := forall (ks : list call) (u : U),
  (op_IsClosed u = true -> (0 < op_closes u)%nat) ->
  let '(answers, u') := perform_all ks u in
  op_IsClosed u' = op_IsClosed u || existsb is_close ks /\
  op_closes u' = (op_closes u + if op_IsClosed u then 0 else if existsb is_close ks then 1 else 0)%nat /\
  identity u' = identity u /\
  forall before r after, answers = before ++ (CallClose, r) :: after ->
    op_IsClosed u || existsb is_close before.*1 = true -> r = Ret None.

(** Nothing is received or sent after the underlay was closed. *)
Definition silent_when_closed (U : Type) `{UnderlayOps U} : Prop := forall (ks : list call) (u : U),
  (op_IsClosed u = true -> (0 < op_closes u)%nat) ->
  forall before k r after, (perform_all ks u).1 = before ++ (k, r) :: after ->
    op_IsClosed u || existsb is_close before.*1 = true -> is_transfer k = true -> ~ succeeded r.

Section Contract.
Context {U : Type} `{UnderlayLaws U}.

(** One call. *)
Lemma perform_step k (u : U) : (op_IsClosed u = true -> (0 < op_closes u)%nat) ->
  let u' := (perform k u).2 in
  op_IsClosed u' = op_IsClosed u || is_close k /\
  op_closes u' = (op_closes u + if op_IsClosed u then 0 else if is_close k then 1 else 0)%nat /\
  (op_IsClosed u' = true -> (0 < op_closes u')%nat) /\
  (op_IsClosed u = true -> k = CallClose -> (perform k u).1 = Ret None).
Proof using H0.
  intros Hu. destruct (is_close k) eqn:Ek; cbn zeta.
  - destruct k; try done. cbn [perform]. destruct (op_IsClosed u) eqn:Ec.
    + rewrite (law_closed u Ec). cbn. rewrite Ec. split; [done|]. split; [lia|]. split; [done|]. done.
    + destruct (law_close u Ec) as [H1 H2]. destruct (op_Close u) as [r u']. cbn in *. rewrite H1, H2.
      split; [done|]. split; [lia|]. split; [lia | done].
  - destruct (law_open k u Ek) as [H1 H2]. rewrite H1, H2, orb_false_r.
    split; [done|]. split; [destruct (op_IsClosed u); lia|]. split; [done|]. intros Ec. by intros ->.
Qed.

Lemma contract_kept : keeps_contract U.
Proof using H0.
  intros ks. induction ks as [|k ks IH]; intros u Hu; cbn [perform_all existsb].
  - split; [by rewrite orb_false_r|]. split; [destruct (op_IsClosed u); lia|]. split; [done|].
    intros before r after E. by destruct before.
  - pose proof (perform_step k u Hu) as (H1 & H2 & H3 & H4). pose proof (law_identity k u) as Hi.
    destruct (perform k u) as [r u1]. cbn [fst snd] in *. specialize (IH u1 H3).
    destruct (perform_all ks u1) as [rs u2]. destruct IH as (I1 & I2 & I3 & I4).
    split; [by rewrite I1, H1, <- orb_assoc|].
    split; [rewrite I2, H2, H1; destruct (op_IsClosed u), (is_close k), (existsb is_close ks); cbn; lia|].
    split; [congruence|]. intros [|[k0 r0] before] r' after E; cbn [app] in E.
    + injection E as -> -> ->. cbn. rewrite orb_false_r. auto.
    + injection E as -> -> E. intros Hc. apply (I4 _ _ _ E). rewrite H1. cbn in Hc. by rewrite <- orb_assoc.
Qed.

Lemma silence_kept `{!SilentLaws U} : silent_when_closed U.
Proof using H0.
  intros ks. induction ks as [|k ks IH]; intros u Hu before k' r' after; cbn [perform_all].
  - by destruct before.
  - pose proof (perform_step k u Hu) as (H1 & _ & H3 & _). pose proof (law_dead k u) as Hd.
    destruct (perform k u) as [r u1]. cbn [fst snd] in *. specialize (IH u1 H3).
    destruct (perform_all ks u1) as [rs u2]. cbn [fst] in *. destruct before as [|[k0 r0] before]; cbn [app]; intros E.
    + injection E as -> -> ->. cbn. rewrite orb_false_r. auto.
    + injection E as -> -> E. intros Hc. apply (IH _ _ _ _ E). rewrite H1. cbn in Hc. by rewrite <- orb_assoc.
Qed.

End Contract.

(** C15: every underlay keeps the contract of the interface.  For the stream
    underlay, the underlay over an existing connection, the packet underlay, the
    two websocket underlays and the logging underlay around any underlay that
    does, over any sequence of calls: the underlay is closed from the first
    [Close] on and stays closed; the connection is closed once, by that call,
    and every later [Close] does nothing and returns nil; and what the underlay
    reports about itself never changes.  Nothing is received or sent after the
    first [Close]: by the flag that the stream underlay, the underlay over an
    existing connection and [wsImpl] look at, by the closed [net.Conn] of the
    packet underlay.  [websockets.Underlay] does not look at its flag: there it
    is up to the websocket library, of which nothing is assumed. *)
Theorem underlays_keep_contract (rng : HeaderMap -> list (Z * bytes)) :
  keeps_contract Classic.t /\ keeps_contract Existing.t /\ keeps_contract Datagram.t /\ keeps_contract WsImpl.t /\
  keeps_contract (H := Websocket.ops rng) Websocket.Underlay /\
  (forall U (O : UnderlayOps U), UnderlayLaws U -> keeps_contract (TypeLogging.t U)) /\
  silent_when_closed Classic.t /\ silent_when_closed Existing.t /\ silent_when_closed Datagram.t /\
  silent_when_closed WsImpl.t /\
  (forall U (O : UnderlayOps U), UnderlayLaws U -> SilentLaws U -> silent_when_closed (TypeLogging.t U)).
Proof.
  split_and!; try apply contract_kept; try (by apply silence_kept; apply _).
  - intros U O HL. apply contract_kept.
  - intros U O HL HS. by apply silence_kept.
Qed.

(** A connection that still has a message for a closed [websockets.Underlay]. *)
Example websocket_rx_after_close :
  let rng := fun h : HeaderMap => map_to_list h in
  let w := match (WS.Tx rng (NewMessage 7 [])).1 with Ret w => w | _ => (0, []) end in
  let u := Websocket.mkUnderlay None (Websocket.mkWsConn [Ret w] [] [] None 0) false [] (mkNet [] [] None None 0) in
  let u' := (Websocket.Close u).2 in
  Websocket.IsClosed u' = true /\ ContentType <$> (Websocket.Rx u').1 = Ret 7.
Proof. split; vm_compute; reflexivity. Qed.

(** The messages sent in a sequence of calls. *)
Definition sent_types (ks : list call) : list Z :=
  omap (fun k => match k with CallTx m => Some (ContentType m) | _ => None end) ks.

(** The logging underlay is not noticed.  Over any sequence of calls it
    answers as the underlay it wraps would, leaves that underlay in the same
    state and reports the same about itself; it has logged the content type of
    every message sent, in order, with the type of the underlay. *)
Theorem logging_underlay_transparent {U} `{UnderlayLaws U, !Addressed U} (ks : list call) (w : U)
    (l : list (Z * gostring)) :
  let '(answers, u') := perform_all ks (TypeLogging.mk w l) in
  perform_all ks w = (answers, TypeLogging.wrapped u') /\
  identity u' = identity w /\ addresses u' = addresses (TypeLogging.wrapped u') /\
  TypeLogging.logged u' = l ++ ((fun t => (t, underlay_type w)) <$> sent_types ks).
Proof.
  revert w l. induction ks as [|k ks IH]; intros w l; [cbn; by rewrite app_nil_r|]. cbn [perform_all].
  rewrite logging_perform. cbn [TypeLogging.wrapped TypeLogging.logged]. pose proof (law_identity k w) as Hi.
  destruct (perform k w) as [r w1]. cbn [fst snd] in *. specialize (IH w1 (l ++ logs k w)).
  destruct (perform_all ks (TypeLogging.mk w1 (l ++ logs k w))) as [answers u'].
  destruct IH as (I1 & I2 & I3 & I4). rewrite I1. split; [done|]. split; [congruence|]. split; [done|].
  assert (underlay_type w1 = underlay_type w) as Et by (unfold identity in Hi; unfold underlay_type; by injection Hi as _ _ _ _ _ -> _).
  rewrite I4, Et, <- app_assoc. f_equal. by destruct k.
Qed.

Lemma logging_underlay_transparent_witness :
  let c := mkConn (mkReader [] io_EOF) [] None None None None [] false 0 in
  let n := mkNet (lit "a") (lit "b") None None 0 in
  let w := Datagram.mk (mkSocket (newDatagramUnderlay 64 (fun h => map_to_list h) None c 2) n) in
  let u' := (perform_all [CallTx (NewMessage 7 []); CallClose; CallTx (NewMessage 8 [])] (TypeLogging.mk w [])).2 in
  TypeLogging.logged u' = [(7, DefaultUnderlayType); (8, DefaultUnderlayType)] /\ identity u' = identity w.
Proof.
  intros c n w u'.
  pose proof (logging_underlay_transparent [CallTx (NewMessage 7 []); CallClose; CallTx (NewMessage 8 [])] w []) as T.
  subst u'. destruct (perform_all _ (TypeLogging.mk w [])) as [answers u']. destruct T as (_ & T2 & _ & T4).
  split; [exact T4 | exact T2].
Defined.
