(* ===== verification/Groups.v ===== *)
(** * Groups of connections, end to end (src/dial_policy.go, src/classic_dialer.go, src/classic_listener.go, src/impl.go)

    How a channel with several underlays comes about: the dial policy chooses
    the headers of a dial, the hello exchange carries them to the listener, both
    ends make an underlay of what they have learned, and each channel decides
    whether it accepts it.  This file composes [DialPolicy], [Handshake] and
    [ChannelImpl].

    Theorems: an underlay dialed for a channel is accepted by that channel and
    by the channel the listener made for the group's first connection; when all
    underlays were lost, the group starts again under another id, and the same
    holds for it. *)

From S2P Require Import Prelude Headers Wire Handshake DialPolicy Underlays Waiters ChannelImpl Link.

(** ** Data *)

(** What a channel sees of an underlay made by a handshake. *)
Definition view (ptr : nat) (createdAt : Z) (i : classicImpl) : Underlay :=
  mkUnderlay ptr (id i) (connectionId i) (headers i) createdAt.

(** One dial that is answered: the two sides of the exchange. *)
Record dialing : Type := mkDialing {
  dialer : classicDialer;
  dialHeaders : HeaderMap;
  listenerSide : classicListener;
  nextId : outcome gostring;
  uuid : bytes;
  newSecret : bytes;
  dialed : classicImpl;
  accepted : classicImpl;
  hello : Message;
  afterHello : bytes;
  afterAck : bytes
}.

(** A dial by a channel's policy, with what it meets: the answered exchange, the
    clock of the dialer, the random number, the waits of [Dial], its timeout and
    the time at which the underlay is made. *)
Record dial_run : Type := mkRun {
  exch : dialing;
  dialClock : nat -> Z;
  dialRand : Float64.float64;
  dialEnv : dial_env;
  dialTimeout : Z;
  madeAt : Z
}.

Section Groups.
Context (W : Z) (rng : HeaderMap -> list (Z * bytes)) `{!RangeOrder rng} (f : ST classicImpl unit).

Definition good (x : dialing) : Prop :=
  exchange_ok W rng (dialer x) (dialHeaders x) (listenerSide x) (nextId x) (uuid x) (newSecret x)
    (dialed x) (accepted x) (hello x) (afterHello x) (afterAck x).

(** The exchange leaves [d] with the dialer and [l] with the listener, which
    goes on with [f]. *)
Definition exchanges (x : dialing) (d l : classicImpl) : Prop :=
  sendHello rng (dialer x) (dialHeaders x) (dialed x) = (Ret tt, d) /\
  acceptConnection W rng None (listenerSide x) (nextId x) (uuid x) (newSecret x) (HelloAcceptorF f) (accepted x) =
    deferred clear_or_close f l.

(** The dialer of the policy: [classicDialer.CreateWithHeaders] over the
    connection of the exchange. *)
Definition create (r : dial_run) (n : nat) (timeout : Z) (hs : HeaderMap) : outcome Underlay :=
  match (CreateWithHeaders W rng (dialer (exch r)) None false (fun _ => Ret (peer (dialed (exch r))))
           (dialClock r) hs timeout).1 with
  | Ret u => Ret (view n (madeAt r) u)
  | Err e => Err e
  | Panic => Panic
  | OutOfFuel => OutOfFuel
  end.

(** [BackoffDialPolicy.Dial] as the dial policy of a channel. *)
Definition policy_Dial (r : dial_run) (p : BackoffDialPolicy) (n : nat) (t : gostring) (isFirst : bool)
    (cid : gostring) (secret : bytes) : outcome Underlay * BackoffDialPolicy :=
  Dial (create r n) (dialRand r) (dialEnv r) t cid secret isFirst (dialTimeout r) p.

Definition policy_dial (r : dial_run) (p : BackoffDialPolicy) (n : nat) (t : gostring) (isFirst : bool)
    (cid : gostring) (secret : bytes) : outcome Underlay := (policy_Dial r p n t isFirst cid secret).1.

(** The dial reaches the listener in time and is not cancelled; no headers are
    added to the hello. *)
Record run_ok (r : dial_run) : Prop := {
  ro_good : good (exch r);
  ro_provider : helloHeaderProvider (dialer (exch r)) = None;
  ro_stream : dialed (exch r) = newClassicImpl W rng None (peer (dialed (exch r))) 2;
  ro_time : dialTimeout r ≠ 0 /\ dialClock r 1%nat < dialClock r 0%nat + dialTimeout r;
  ro_waits : cancel_interval (dialEnv r) = false /\ cancel_backoff (dialEnv r) = false /\ cancel_dial (dialEnv r) = false
}.

(** *** Lemmas: what a hello for a group leaves *)

Lemma hello_header d names hs request k v : helloHeaderProvider d = None ->
  hello_request rng d names hs = Ret request -> hs !! k = Some v -> Headers request !! k = Some v.
Proof using RangeOrder0.
  intros Hp. unfold hello_request. rewrite Hp. intros [= <-] Hk. cbn [Headers SetSequence with_Headers].
  rewrite (copy_entries_range rng) by done. by apply lookup_union_Some_l.
Qed.

(** Both sides hold the same id and the same secret, which are the requested
    ones if there were any. *)
Lemma grouped_exchange x : good x -> (MessageHeader.GetBoolHeader (hello x) IsGroupedHeader).1 = true ->
  let requested := default [] (Headers (hello x) !! ConnectionIdHeader) in
  let sent := default [] (Headers (hello x) !! GroupSecretHeader) in
  exists d l, exchanges x d l /\ connectionId d = connectionId l /\
    (requested ≠ [] -> connectionId l = requested) /\
    (requested = [] -> connectionId l = match nextId x with Ret c => c | _ => uuid x end) /\
    headers d !! GroupSecretHeader = headers l !! GroupSecretHeader /\
    default [] (headers l !! GroupSecretHeader) = (if decide (sent = []) then newSecret x else sent) /\
    newSecret x ≠ [] /\
    headers d !! TypeHeader = Some (default [] (Headers (hello x) !! TypeHeader)) /\
    headers l !! TypeHeader = Headers (hello x) !! TypeHeader /\
    headers l !! IsGroupedHeader = Headers (hello x) !! IsGroupedHeader.
Proof using RangeOrder0.
  intros Hx Hg requested sent. destruct (exchange_result W rng _ _ _ _ _ _ f _ _ _ _ _ Hx)
    as (l & d & EL & ED & _ & _ & _ & Ecid & Ehs & _ & Ecid3 & Ehs3 & _).
  destruct (ex_ack _ _ _ _ _ _ _ _ _ _ _ _ _ Hx) as (_ & _ & Hs).
  exists d, l. split; [done|]. rewrite Ecid, Ehs, Ehs3, Ecid3.
  split; [apply agreed_connectionId; by left|].
  unfold listener_connectionId. rewrite Hg. cbn [negb orb].
  assert ((MessageHeader.GetStringHeader (hello x) ConnectionIdHeader).1 = requested) as ->.
  { unfold requested, MessageHeader.GetStringHeader, GetStringHeader. by destruct (Headers (hello x) !! _). }
  split; [intros Hr; by rewrite bool_decide_eq_false_2|]. split; [intros Hr; by rewrite bool_decide_eq_true_2|].
  destruct (agreed_secret rng (listenerSide x) (nextId x) (uuid x) (newSecret x) (hello x) Hs Hg) as (_ & Sd & Sl).
  split; [lookup_keys; by rewrite Sl|]. split; [by rewrite Sl|].
  split; [intros E; by rewrite E in Hs|]. split; [by lookup_keys|].
  unfold with_group_secret. rewrite Hg. destruct (decide (len _ = 0)); [|done].
  cbn [Headers with_Headers]. by rewrite !lookup_insert_ne.
Qed.


(** *** Lemmas: channels *)

(** A channel keeps the configuration it was made with. *)
Lemma steps_cfg closeErr wrng steps c : cfg (foldl (exec_step closeErr wrng) c steps) = cfg c.
Proof using Type.
  revert c. induction steps as [|s steps IH]; intros c; [done|]. cbn [foldl]. rewrite IH.
  by destruct (exec_step_log wrng closeErr c s) as ((E & _) & _).
Qed.

Lemma NewChannel_cfg closeErr a u c : NewChannel closeErr a = (Ret tt, Some c) -> binder_ok (argBinder a) ->
  argUnderlay a = Some u -> cfg c = cfg (fresh_channel a u).
Proof using Type.
  unfold NewChannel. intros E Hb Hu. rewrite Hu in E. destruct (argSenders a), (argMessageSource a); try done.
  cbn [negb] in E. destruct (bool_decide _ && _); [done|]. destruct (Hb (fresh_channel a u)) as (E1 & _).
  destruct (bind (argBinder a) (fresh_channel a u)) as [[[]|e| |] c1];
    [|by destruct (ignore (Close closeErr) c1)|done|done].
  unfold mbind, ST_bind, add_underlay, startMultiplex, modify in E. cbn in E. injection E as <-. exact E1.
Qed.

(** A channel made with an underlay, after anything that happened to it. *)
Inductive made_with (u : Underlay) : channelImpl -> Prop :=
  | made closeErr wrng a c0 steps :
      NewChannel closeErr a = (Ret tt, Some c0) -> binder_ok (argBinder a) -> argUnderlay a = Some u ->
      made_with u (foldl (exec_step closeErr wrng) c0 steps).

Lemma made_with_cfg u c : made_with u c ->
  channelId (cfg c) = underlay_ConnectionId u /\ groupSecret (cfg c) = secret_of u.
Proof using Type. intros [closeErr wrng a c0 steps HN Hb Hu]. by rewrite steps_cfg, (NewChannel_cfg _ _ _ _ HN Hb Hu). Qed.

(** What accepting an underlay means. *)
Definition takes (u : Underlay) (c : channelImpl) : Prop :=
  isMultiUnderlayCapable c = true -> isClosed c = false ->
  exists c', AcceptUnderlay u c = (Ret tt, c') /\ entries (underlays c') = entries (underlays c) ++ [u].

Lemma takes_secret u c : secret_of u = groupSecret (cfg c) -> takes u c.
Proof using Type.
  intros Hs Hm Hc. destruct (AcceptUnderlay_ok u c Hm Hs Hc) as (c' & E & _ & _ & He). by exists c'.
Qed.

(** *** Lemmas: dialing for a group *)

Lemma dial_headers_lookup t g s first :
  let h := dial_headers t g s first in
  h !! TypeHeader = Some t /\ h !! ConnectionIdHeader = Some g /\ h !! GroupSecretHeader = Some s /\
  h !! IsGroupedHeader = Some [Z2b 1].
Proof using Type. unfold dial_headers. destruct first; split_and!; vm_compute; done. Qed.

(** A dial with a group's id and secret leaves both sides with them. *)
Lemma group_dial x t g s first : good x -> helloHeaderProvider (dialer x) = None ->
  dialHeaders x = dial_headers t g s first -> t ≠ [] -> g ≠ [] -> s ≠ [] ->
  exists d l, exchanges x d l /\ connectionId d = g /\ connectionId l = g /\ headers l !! IsGroupedHeader = Some [Z2b 1] /\
    forall n createdAt, secret_of (view n createdAt d) = s /\ secret_of (view n createdAt l) = s /\
      GetUnderlayType (view n createdAt d) = t /\ GetUnderlayType (view n createdAt l) = t.
Proof using RangeOrder0.
  intros Hx Hp Hh Ht Hg Hs. destruct (dial_headers_lookup t g s first) as (E1 & E2 & E3 & E4). cbn zeta in *.
  rewrite <- Hh in E1, E2, E3, E4. pose proof (ex_request _ _ _ _ _ _ _ _ _ _ _ _ _ Hx) as Hreq.
  apply (hello_header _ _ _ _ _ _ Hp Hreq) in E1, E2, E3, E4.
  destruct (grouped_exchange x Hx) as (d & l & Hdl & Ec & Ec' & _ & Es & Es' & _ & Et & Et' & Eg').
  { unfold MessageHeader.GetBoolHeader, GetBoolHeader. by rewrite E4. }
  rewrite E2 in Ec'. rewrite E3 in Es'. rewrite E1 in Et, Et'. cbn in *.
  exists d, l. split; [done|]. split; [rewrite Ec; by apply Ec'|]. split; [by apply Ec'|]. split; [by rewrite Eg'|].
  intros n createdAt. unfold secret_of, GetUnderlayType. cbn. rewrite Es, Es', Et, Et'. cbn.
  rewrite decide_False, decide_True by done. done.
Qed.

Lemma group_id_kept c p p2 : iteration p2 = iteration (groupConnectionId c true p).2 ->
  (groupConnectionId c false p2).1 = (groupConnectionId c true p).1.
Proof using Type. intros E. unfold groupConnectionId in *. cbn in *. by rewrite E. Qed.

Lemma Dial_iteration r p n t first cid secret :
  iteration (policy_Dial r p n t first cid secret).2 = iteration (groupConnectionId cid first p).2.
Proof using Type.
  unfold policy_Dial, Dial. destruct (groupConnectionId cid first p) as [g p1]. cbn [snd].
  assert (iteration (resetStaleFailures (now_reset (dialEnv r)) p1) = iteration p1) as E
    by (unfold resetStaleFailures; by repeat case_match).
  set (p2 := resetStaleFailures _ p1) in *. clearbody p2.
  destruct (_ && _); [done|]. destruct (_ && _); [done|]. destruct (cancel_dial _); [done|]. by case_match.
Qed.

Lemma Dial_creates r p n t first cid secret u : run_ok r ->
  create r n (dialTimeout r) (dial_headers t (groupConnectionId cid first p).1 secret first) = Ret u ->
  (policy_Dial r p n t first cid secret).1 = Ret u.
Proof using Type.
  intros [_ _ _ _ (C1 & C2 & C3)] E. unfold policy_Dial, Dial. destruct (groupConnectionId cid first p) as [g p1].
  cbn [fst snd] in *. by rewrite C1, C2, C3, !andb_false_r, E.
Qed.

(** A channel that dials through its policy, with a dial that is answered, gets
    the underlay, and both ends have the id of the dial. *)
Lemma channel_dials r p n t c : run_ok r -> isMultiUnderlayCapable c = true -> isClosed c = false ->
  let first := bool_decide (GetAll (underlays c) = []) in
  let g := (groupConnectionId (channelId (cfg c)) first p).1 in
  groupSecret (cfg c) ≠ [] -> t ≠ [] -> g ≠ [] ->
  dialHeaders (exch r) = dial_headers t g (groupSecret (cfg c)) first ->
  exists d l c', exchanges (exch r) d l /\ connectionId d = g /\ connectionId l = g /\
    dialUnderlay (policy_dial r p) n t c = (Ret tt, c') /\ GetAll (underlays c') = GetAll (underlays c) ++ [view n (madeAt r) d] /\
    cfg c' = cfg c /\ isClosed c' = false /\
    iteration (policy_Dial r p n t first (channelId (cfg c)) (groupSecret (cfg c))).2 =
      iteration (groupConnectionId (channelId (cfg c)) first p).2 /\
    forall m createdAt, secret_of (view m createdAt l) = groupSecret (cfg c).
Proof using RangeOrder0.
  intros Hr Hm Hc first g Hs Ht Hg Hh. destruct (group_dial (exch r) t g _ _ (ro_good r Hr) (ro_provider r Hr) Hh Ht Hg Hs)
    as (d & l & Hdl & E1 & E2 & _ & H2).
  assert (create r n (dialTimeout r) (dial_headers t g (groupSecret (cfg c)) first) = Ret (view n (madeAt r) d)) as Ec.
  { unfold create, CreateWithHeaders. destruct (ro_time r Hr) as [T1 T2]. rewrite (decide_False (P := _ = 0)) by done.
    cbn [dial_loop]. rewrite decide_True by done. unfold underlayFactory. rewrite <- (ro_stream r Hr), <- Hh.
    by rewrite (proj1 Hdl). }
  pose proof (Dial_creates r p n t first _ _ _ Hr Ec) as ED.
  destruct (H2 n (madeAt r)) as (S1 & _). destruct (AcceptUnderlay_ok _ _ Hm S1 Hc) as (c' & EA & Ek & Eo & Ee).
  exists d, l, c'. split; [done|]. split; [done|]. split; [done|]. split.
  { unfold dialUnderlay, policy_dial. fold first. rewrite ED. by eapply ignore_Ret. }
  split; [exact Ee|]. split; [done|]. split; [done|]. split; [apply Dial_iteration|]. intros m createdAt. apply H2.
Qed.

End Groups.

(** ** Properties *)

(** A group grows.  After the hello exchange for a group's first
    connection, a channel made by the dialing side with its underlay and a
    channel made by the listening side with its own have the same id and the
    same non-empty secret, whether these were requested or generated.  From
    then on, in any state of the two channels, a further underlay that is
    dialed the way the channel's dial policy does, with the channel's id and
    secret, has the channel's id and the requested type on both sides, and both
    channels accept it while they are open. *)
Theorem group_grows (W : Z) (rng : HeaderMap -> list (Z * bytes)) `{!RangeOrder rng} (f : ST classicImpl unit)
    (x : dialing) :
  good W rng x -> (MessageHeader.GetBoolHeader (hello x) IsGroupedHeader).1 = true ->
  (match nextId x with Ret c => c | _ => uuid x end) ≠ [] ->
  exists d l, exchanges W rng f x d l /\
  headers d !! GroupSecretHeader = headers l !! GroupSecretHeader /\
  forall n createdAt cA cB, made_with (view n createdAt d) cA -> made_with (view n createdAt l) cB ->
  channelId (cfg cA) = channelId (cfg cB) /\ groupSecret (cfg cA) = groupSecret (cfg cB) /\
  groupSecret (cfg cA) ≠ [] /\
  forall x2 p t, iteration p = 0 -> t ≠ [] -> good W rng x2 -> helloHeaderProvider (dialer x2) = None ->
    dialHeaders x2 =
      dial_headers t (groupConnectionId (channelId (cfg cA)) false p).1 (groupSecret (cfg cA)) false ->
    exists d2 l2, exchanges W rng f x2 d2 l2 /\ connectionId d2 = channelId (cfg cA) /\
      connectionId l2 = channelId (cfg cB) /\
      forall n2 at2, takes (view n2 at2 d2) cA /\ takes (view n2 at2 l2) cB /\
        GetUnderlayType (view n2 at2 d2) = t /\ GetUnderlayType (view n2 at2 l2) = t.
Proof.
  intros Hx Hg Hid. destruct (grouped_exchange W rng f x Hx Hg) as (d & l & Hdl & Ec & Ec1 & Ec2 & Es & Es' & Hns & _).
  exists d, l. split; [done|]. split; [done|]. intros n createdAt cA cB HA HB.
  apply made_with_cfg in HA as [A1 A2], HB as [B1 B2]. unfold secret_of in A2, B2. cbn in A1, A2, B1, B2.
  assert (groupSecret (cfg cA) ≠ []) as Hs by (rewrite A2, Es, Es'; by case_decide).
  assert (channelId (cfg cA) ≠ []) as Hc.
  { rewrite A1, Ec. destruct (decide (default [] (Headers (hello x) !! ConnectionIdHeader) = [])) as [E|E];
      [by rewrite Ec2 | by rewrite Ec1]. }
  split; [congruence|]. split; [congruence|]. split; [done|]. intros x2 p t Hp Ht Hx2 Hpr Hh.
  assert ((groupConnectionId (channelId (cfg cA)) false p).1 = channelId (cfg cA)) as E
    by (unfold groupConnectionId; cbn; by rewrite Hp).
  rewrite E in Hh. destruct (group_dial W rng f x2 _ _ _ _ Hx2 Hpr Hh Ht Hc Hs) as (d2 & l2 & Hdl2 & E1 & E2 & _ & H2).
  exists d2, l2. split; [done|]. split; [done|]. split; [congruence|].
  intros n2 at2. destruct (H2 n2 at2) as (S1 & S2 & T1 & T2).
  split; [by apply takes_secret|]. split; [|done]. apply takes_secret. congruence.
Qed.

(** C6: a group starts again.  A channel that has lost all of its underlays and
    dials through its policy makes the next connection a first one under another
    group id, with its old secret.  If the dial is answered, both ends have the
    new id, the channel has the new underlay, and a channel that the listening
    side makes with its end has the new id and the old secret.  While the channel
    keeps an underlay and the policy makes no other first connection, every
    further underlay that it dials through its policy has the new id on both
    sides, and both channels accept it while they are open. *)
Theorem group_restarts (W : Z) (rng : HeaderMap -> list (Z * bytes)) `{!RangeOrder rng} (f : ST classicImpl unit)
    (cA : channelImpl) (p : BackoffDialPolicy) (r : dial_run) (n : nat) (t : gostring) :
  isMultiUnderlayCapable cA = true -> isClosed cA = false -> GetAll (underlays cA) = [] ->
  channelId (cfg cA) ≠ [] -> groupSecret (cfg cA) ≠ [] -> t ≠ [] -> 0 <= iteration p -> is_u32 (iteration p + 1) ->
  let g := (groupConnectionId (channelId (cfg cA)) true p).1 in
  let p' := (policy_Dial W rng r p n t true (channelId (cfg cA)) (groupSecret (cfg cA))).2 in
  run_ok W rng r -> dialHeaders (exch r) = dial_headers t g (groupSecret (cfg cA)) true ->
  g ≠ channelId (cfg cA) /\
  exists d l cA1, exchanges W rng f (exch r) d l /\ connectionId d = g /\ connectionId l = g /\
    dialUnderlay (policy_dial W rng r p) n t cA = (Ret tt, cA1) /\
    GetAll (underlays cA1) = [view n (madeAt r) d] /\ cfg cA1 = cfg cA /\ isClosed cA1 = false /\
    forall m createdAt cB, secret_of (view m createdAt l) = groupSecret (cfg cA) /\
    (made_with (view m createdAt l) cB ->
     channelId (cfg cB) = g /\ groupSecret (cfg cB) = groupSecret (cfg cA) /\
     forall cA2 r2 p2 n2 t2, cfg cA2 = cfg cA -> isClosed cA2 = false -> GetAll (underlays cA2) ≠ [] ->
       iteration p2 = iteration p' -> t2 ≠ [] -> run_ok W rng r2 ->
       dialHeaders (exch r2) =
         dial_headers t2 (groupConnectionId (channelId (cfg cA)) false p2).1 (groupSecret (cfg cA)) false ->
       exists d2 l2 cA3, exchanges W rng f (exch r2) d2 l2 /\ connectionId d2 = g /\ connectionId l2 = g /\
         dialUnderlay (policy_dial W rng r2 p2) n2 t2 cA2 = (Ret tt, cA3) /\
         GetAll (underlays cA3) = GetAll (underlays cA2) ++ [view n2 (madeAt r2) d2] /\
         forall m2 at2, takes (view m2 at2 l2) cB).
Proof.
  intros Hm Ho He Hc Hs Ht H0 Hit g p' Hr Hh.
  assert (g ≠ channelId (cfg cA) /\ g ≠ []) as [Hne Hg].
  { unfold g, groupConnectionId. cbn [fst]. rewrite decide_False by (rewrite to_uint_id by done; lia).
    split; [|by destruct (channelId (cfg cA))]. intros E%(f_equal length). rewrite !length_app in E. cbn in E. lia. }
  split; [done|].
  pose proof (channel_dials W rng f r p n t cA Hr Hm Ho) as HD. cbn zeta in HD. rewrite He in HD.
  rewrite bool_decide_eq_true_2 in HD by done. fold g in HD.
  destruct (HD Hs Ht Hg Hh) as (d & l & cA1 & Hdl & E1 & E2 & ED & Eg & Ek & Eo & Eit & Hsec). clear HD.
  exists d, l, cA1. do 7 (split; [done|]). intros m createdAt cB. split; [apply Hsec|]. intros [B1 B2]%made_with_cfg.
  rewrite Hsec in B2. cbn in B1. rewrite E2 in B1. split; [done|]. split; [done|].
  intros cA2 r2 p2 n2 t2 K1 K2 K3 Hp2 Ht2 Hr2 Hh2.
  assert ((groupConnectionId (channelId (cfg cA)) false p2).1 = g) as Eg2.
  { apply group_id_kept. by rewrite Hp2. }
  pose proof (channel_dials W rng f r2 p2 n2 t2 cA2 Hr2) as HD. cbn zeta in HD. rewrite K1 in HD.
  rewrite bool_decide_eq_false_2, Eg2 in HD by done. rewrite Eg2 in Hh2.
  destruct HD as (d2 & l2 & cA3 & Hdl2 & F1 & F2 & FD & Fg & _ & _ & _ & Hsec2); try done.
  { unfold isMultiUnderlayCapable in *. by rewrite K1. }
  exists d2, l2, cA3. do 5 (split; [done|]). intros m2 at2. apply takes_secret. by rewrite Hsec2, B2.
Qed.

(** *** Witnesses *)

Definition ex_order : HeaderMap -> list (Z * bytes) := fun h => map_to_list h.

#[global] Instance ex_order_ok : RangeOrder ex_order.
Proof. unfold ex_order. apply _. Qed.

Definition ex_hello (hs : HeaderMap) : Message :=
  SetSequence HelloSequence (with_Headers (copy_entries (ex_order hs)) (NewHello ex_order (lit "dialer") ∅)).

Definition ex_listener : classicListener := mkListener (Some (lit "listener")) ∅ None [] false.

Definition ex_conn (data : bytes) : classicImpl :=
  newClassicImpl 64 ex_order None (mkConn (mkReader [data] io_EOF) [] None None None None [] false 0) 2.

(** A dial with headers [hs] that is answered. *)
Definition ex_dialing (hs : HeaderMap) : dialing :=
  mkDialing (mkDialer (lit "dialer") ∅ None) hs ex_listener (Ret (lit "n1")) [] (lit "secret")
    (ex_conn (frame_bytes ex_order (reply_sent ex_order ex_listener (Ret (lit "n1")) [] (lit "secret") (ex_hello hs))))
    (ex_conn (frame_bytes ex_order (ex_hello hs))) (ex_hello hs) [] [].

Lemma ex_good hs : keys_ok hs -> header_size (Headers (ex_hello hs)) <= 16384 ->
  fits (reply_sent ex_order ex_listener (Ret (lit "n1")) [] (lit "secret") (ex_hello hs)) ->
  good 64 ex_order (ex_dialing hs).
Proof.
  intros Hk Hh Hf. split; cbn [dialer dialHeaders listenerSide nextId uuid newSecret dialed accepted hello ex_dialing].
  - done.
  - split; [|split_and!; done]. split; [vm_compute; split; discriminate || reflexivity.. | done |].
    apply keys_ok_copy; [apply _ | done |]. apply keys_ok_copy; [apply _ | apply keys_ok_empty | apply keys_ok_empty].
  - done.
  - done.
  - split; [|done]. split; [apply keys_ok_empty | done].
  - done.
  - split; apply int_ok_64.
  - exact eq_refl.
  - exact eq_refl.
Qed.

Definition ex_first : HeaderMap := PutStringHeader ConnectionIdHeader (lit "g1") (PutBoolHeader IsGroupedHeader true ∅).

(** What the dialer of the first connection holds. *)
Lemma ex_dialed d : sendHello ex_order (dialer (ex_dialing ex_first)) ex_first (dialed (ex_dialing ex_first)) = (Ret tt, d) ->
  connectionId d = lit "g1" /\ headers d !! GroupSecretHeader = Some (lit "secret").
Proof.
  intros E. replace d with (sendHello ex_order (dialer (ex_dialing ex_first)) ex_first (dialed (ex_dialing ex_first))).2
    by (by rewrite E).
  split; vm_compute; reflexivity.
Qed.

(** A channel for one or more underlays can be made with any that has a secret. *)
Lemma ex_made u : secret_of u ≠ [] -> exists c, made_with u c /\ isMultiUnderlayCapable c = true /\ isClosed c = false.
Proof.
  intros Hs. pose (a := mkArgs true true (Some u) false ∅ 1 [] [] None).
  assert (exists c, NewChannel (fun _ => None) a = (Ret tt, Some c) /\ isMultiUnderlayCapable c = true /\ isClosed c = false)
    as (c & HN & Hm & Hc).
  { unfold NewChannel. cbn [argSenders argMessageSource argUnderlay a negb].
    rewrite bool_decide_eq_false_2; [by eexists|]. unfold len. change (groupSecret (cfg (fresh_channel a u))) with (secret_of u).
    by destruct (secret_of u). }
  exists c. split; [|done]. apply (made u (fun _ => None) (fun w => map_to_list w) a c []); [done | by intros ? | done].
Qed.

Lemma ex_dialing_good n first : good 64 ex_order
  (ex_dialing (dial_headers (lit "data") (lit (if n : bool then "g1" else "g1-1")) (lit "secret") first)).
Proof.
  apply ex_good; [|destruct n, first; vm_compute; discriminate..].
  unfold dial_headers. destruct first; repeat (apply keys_ok_insert; [|vm_compute; split; discriminate || reflexivity]);
    apply keys_ok_empty.
Qed.

Lemma group_grows_witness :
  exists d l cA cB d2 l2, exchanges 64 ex_order (mret tt) (ex_dialing ex_first) d l /\
    made_with (view 1 0 d) cA /\ made_with (view 1 0 l) cB /\
    exchanges 64 ex_order (mret tt) (ex_dialing (dial_headers (lit "data") (lit "g1") (lit "secret") false)) d2 l2 /\
    (exists cA', AcceptUnderlay (view 2 5 d2) cA = (Ret tt, cA')) /\
    (exists cB', AcceptUnderlay (view 2 5 l2) cB = (Ret tt, cB')).
Proof.
  destruct (group_grows 64 ex_order (mret tt) (ex_dialing ex_first)) as (d & l & Hdl & Hs & H).
  - apply ex_good; [|vm_compute; discriminate..].
    apply keys_ok_insert; [apply keys_ok_insert; [apply keys_ok_empty|] |]; vm_compute; split; discriminate || reflexivity.
  - reflexivity.
  - discriminate.
  - destruct (ex_dialed d (proj1 Hdl)) as [Ed Es].
    destruct (ex_made (view 1 0 d)) as (cA & HA & MA & OA); [unfold secret_of; cbn; rewrite Es; discriminate|].
    destruct (ex_made (view 1 0 l)) as (cB & HB & MB & OB);
      [unfold secret_of; cbn; rewrite <- Hs, Es; discriminate|].
    destruct (made_with_cfg _ _ HA) as [Ec Eg]. cbn in Ec. rewrite Ed in Ec. unfold secret_of in Eg. cbn in Eg. rewrite Es in Eg.
    destruct (H 1%nat 0 cA cB HA HB) as (_ & _ & _ & HX).
    destruct (HX (ex_dialing (dial_headers (lit "data") (lit "g1") (lit "secret") false))
      (mkPolicy (mkBackoff 2 60 30 10 (SpecFloat.S754_zero false)) 0 None None None 0) (lit "data")) as (d2 & l2 & Hdl2 & _ & _ & HT).
    + reflexivity.
    + discriminate.
    + exact (ex_dialing_good true false).
    + reflexivity.
    + rewrite Ec, Eg. reflexivity.
    + destruct (HT 2%nat 5) as (TA & TB & _). destruct (TA MA OA) as (cA' & EA & _). destruct (TB MB OB) as (cB' & EB & _).
      exists d, l, cA, cB, d2, l2. split; [exact Hdl|]. split; [exact HA|]. split; [exact HB|]. split; [exact Hdl2|].
      split; [exists cA'; exact EA | exists cB'; exact EB].
Defined.

(** A channel that had an underlay and lost it. *)
Definition ex_lost : channelImpl :=
  let u := mkUnderlay 9 (lit "listener") (lit "g1") (<[GroupSecretHeader := lit "secret"]> ∅) 0 in
  let a := mkArgs true true (Some u) true {[lit "data" := OptionalUnderlays 1]} 0 [] [] None in
  exec_step (fun _ => None) (fun w => map_to_list w) (default (fresh_channel a u) (NewChannel (fun _ => None) a).2)
    (SRemove u 5).

(** A dial with headers [hs] that is answered in time. *)
Definition ex_dial_run (hs : HeaderMap) : dial_run :=
  mkRun (ex_dialing hs) Z.of_nat (SpecFloat.S754_zero false) (mkEnv 100 100 false 105 false false 106) 1000 7.

Lemma ex_run_ok first : run_ok 64 ex_order (ex_dial_run (dial_headers (lit "data") (lit "g1-1") (lit "secret") first)).
Proof. split; [exact (ex_dialing_good false first) | done | done | done | done]. Qed.

Lemma group_restarts_witness :
  exists d l cA1 cB d2 l2 cA3,
    exchanges 64 ex_order (mret tt) (ex_dialing (dial_headers (lit "data") (lit "g1-1") (lit "secret") true)) d l /\
    connectionId d = lit "g1-1" /\ GetAll (underlays cA1) = [view 1 7 d] /\
    made_with (view 1 0 l) cB /\ channelId (cfg cB) = lit "g1-1" /\
    exchanges 64 ex_order (mret tt) (ex_dialing (dial_headers (lit "data") (lit "g1-1") (lit "secret") false)) d2 l2 /\
    GetAll (underlays cA3) = [view 1 7 d; view 2 7 d2] /\
    (exists cB', AcceptUnderlay (view 2 5 l2) cB = (Ret tt, cB')).
Proof.
  assert (isMultiUnderlayCapable ex_lost = true /\ isClosed ex_lost = false /\ GetAll (underlays ex_lost) = [] /\
    channelId (cfg ex_lost) = lit "g1" /\ groupSecret (cfg ex_lost) = lit "secret") as (M & O & G & Ec & Es)
    by (split_and!; vm_compute; reflexivity).
  pose (p := mkPolicy (mkBackoff 2 60 30 10 (SpecFloat.S754_zero false)) 0 None None None 0).
  pose (r1 := ex_dial_run (dial_headers (lit "data") (lit "g1-1") (lit "secret") true)).
  pose proof (group_restarts 64 ex_order (mret tt) ex_lost p r1 1 (lit "data")) as H.
  rewrite Ec, Es in H. cbn zeta in H.
  destruct H as (_ & d & l & cA1 & Hdl & Ed & El & _ & Eg & Ek & Eo & H).
  - exact M.
  - exact O.
  - exact G.
  - discriminate.
  - discriminate.
  - discriminate.
  - vm_compute. discriminate.
  - vm_compute. split; [discriminate | reflexivity].
  - exact (ex_run_ok true).
  - reflexivity.
  - destruct (H 1%nat 0 cA1) as (Hs & _).
    destruct (ex_made (view 1 0 l)) as (cB & HB & MB & OB); [rewrite Hs; discriminate|].
    destruct (H 1%nat 0 cB) as (_ & HC). destruct (HC HB) as (EB & _ & HX).
    destruct (HX cA1 (ex_dial_run (dial_headers (lit "data") (lit "g1-1") (lit "secret") false))
      (groupConnectionId (lit "g1") true p).2 2%nat (lit "data")) as (d2 & l2 & cA3 & Hdl2 & _ & _ & _ & Eg2 & HT).
    + exact Ek.
    + exact Eo.
    + rewrite Eg. discriminate.
    + symmetry. apply Dial_iteration.
    + discriminate.
    + exact (ex_run_ok false).
    + reflexivity.
    + destruct (HT 2%nat 5 MB OB) as (cB' & EB' & _). rewrite Eg in Eg2.
      exists d, l, cA1, cB, d2, l2, cA3. split; [exact Hdl|]. split; [exact Ed|]. split; [exact Eg|]. split; [exact HB|].
      split; [exact EB|]. split; [exact Hdl2|]. split; [exact Eg2 | exists cB'; exact EB'].
Defined.
