(* ===== verification/Binding.v ===== *)
(** * Setting up a channel (src/bind.go, src/handler.go, src/latency/latency.go)

    Binders, typed bindings and the functions that register receivers and
    probes with a binding.  The binding works on the channel of [ChannelImpl];
    this file adds the user data, the goroutines that are started, and what a
    registered handler is called with.

    Theorems: combining bind handlers is the same however they are nested, and
    stops at the first error; a message goes to the receiver registered last
    for its content type, else for any type, with the senders of the binder. *)

From S2P Require Import Prelude Headers Wire Underlays Waiters ChannelImpl.

(** ** Data *)

(** A function a goroutine was started with. *)
Inductive routine : Type :=
  | ProbeRun (probe : nat)                          (* latencyProbe.run *)
  | ResponderRun (responder : nat)                  (* Responder.responseSender *)
  | HandlerRun (handler : nat) (m : Message)        (* AsyncFunctionReceiveAdapter *)
  | PulseRun (heartbeater : nat) (checkInterval : Z). (* heartbeater.pulse *)

(** The channel with its user data, and the goroutines started. *)
Record setup : Type := mkSetup {
  setup_ch : channelImpl;
  userData : option nat;
  started : list routine
}.

Definition on_channel {A} (f : ST channelImpl A) : ST setup A := fun s =>
  let '(r, c) := f (setup_ch s) in (r, mkSetup c (userData s) (started s)).

Definition go (r : routine) : ST setup unit :=
  modify (fun s => mkSetup (setup_ch s) (userData s) (started s ++ [r])).

(** ** The binding (bind.go) *)

Section Binding.
Context {S : Type}.

(** [bindingImpl]: the channel is the state, the senders are fixed. *)
Record bindingImpl : Type := mkBinding { senders : S }.

Definition GetSenders (b : bindingImpl) : S := senders b.
Definition GetChannel : ST setup channelImpl := gets setup_ch.
Definition SetUserData (data : option nat) : ST setup unit :=
  modify (fun s => mkSetup (setup_ch s) data (started s)).
Definition GetUserData : ST setup (option nat) := gets userData.

(** A [TypedBindHandler], [None] for nil. *)
Definition TypedBindHandler : Type := option (bindingImpl -> ST setup unit).

(** The loop of [TypedBindHandlers]. *)
Fixpoint typed_bind_all (hs : list TypedBindHandler) (b : bindingImpl) : ST setup unit :=
  match hs with
  | [] => mret tt
  | None :: hs' => typed_bind_all hs' b
  | Some h :: hs' => _ ← h b; typed_bind_all hs' b
  end.

Definition TypedBindHandlers (hs : list TypedBindHandler) : TypedBindHandler :=
  match hs with
  | [h] => h
  | _ => Some (typed_bind_all hs)
  end.

(** A [Binder]; the zero value has no function. *)
Definition Binder : Type := option (ST setup unit).

Definition Binder_bind (self : Binder) : ST setup unit :=
  match self with None => mret tt | Some fn => fn end.

Definition MakeTypedBinder (s : S) (handler : TypedBindHandler) : Binder :=
  Some (match handler with None => mret tt | Some h => h (mkBinding s) end).

(** What the application's handler is called with. *)
Inductive invocation : Type :=
  | HandleReceive (h : nat) (m : Message)                  (* with the channel *)
  | HandleReceiveMsg (h : nat) (m : Message)               (* the message only *)
  | HandleReceiveTyped (h : nat) (m : Message) (s : S).    (* with the channel and the senders *)

(** The functions [AddReceiveHandler] and its variants store. *)
Definition receive_function (b : bindingImpl) (h : handler) (m : Message) : invocation :=
  match h with
  | Plain n => HandleReceive n m
  | MsgOnly n => HandleReceiveMsg n m
  | Typed n => HandleReceiveTyped n m (senders b)
  end.

(** The call that an event of the channel is. *)
Definition invoked (b : bindingImpl) (e : event) : option invocation :=
  match e with EvReceive h m => Some (receive_function b h m) | _ => None end.

End Binding.
Arguments bindingImpl : clear implicits.
Arguments TypedBindHandler : clear implicits.
Arguments invocation : clear implicits.

(** [MakeBinder]: the senders are those of the channel. *)
Definition MakeBinder {S} (channelSenders : S) (handler : option (bindingImpl S -> ST setup unit)) : Binder :=
  Some (match handler with None => mret tt | Some h => h (mkBinding channelSenders) end).

(** ** Receivers (handler.go) *)

(** A [ContentTypeReceiver]: the type it asks for, and which handler it is. *)
Record ContentTypeReceiver : Type := mkReceiver { ReceiverType : Z; receiver_handler : nat }.

Fixpoint AddReceiveHandlers (handlers : list ContentTypeReceiver) : ST setup unit :=
  match handlers with
  | [] => mret tt
  | h :: hs => _ ← on_channel (AddReceiveHandler (ReceiverType h) (receiver_handler h)); AddReceiveHandlers hs
  end.

(** [AsyncFunctionReceiveAdapter] *)
Record AsyncFunctionReceiveAdapter : Type := mkAsync { Type_ : Z; Handler : nat }.

Definition Async_ContentType (adapter : AsyncFunctionReceiveAdapter) : Z := Type_ adapter.

Definition Async_HandleReceive (m : Message) (adapter : AsyncFunctionReceiveAdapter) : ST setup unit :=
  go (HandlerRun (Handler adapter) m).

(** ** Probes (latency.go) *)

Definition AddLatencyProbe (probe : nat) : ST setup unit :=
  _ ← on_channel (AddReceiveHandler ContentTypeLatencyResponseType probe); go (ProbeRun probe).

Definition AddLatencyProbeResponder (responder : nat) : ST setup unit :=
  _ ← on_channel (AddReceiveHandler ContentTypeLatencyType responder); go (ResponderRun responder).

(** ** Lemmas *)

Lemma typed_bind_all_app {S} (hs hs' : list (TypedBindHandler S)) b s :
  typed_bind_all (hs ++ hs') b s = (_ ← typed_bind_all hs b; typed_bind_all hs' b) s.
Proof.
  revert s. induction hs as [|[h|] hs IH]; intros s; cbn [typed_bind_all app]; [done | | by rewrite IH].
  unfold mbind, ST_bind in *. by destruct (h b s) as [[u| | |] s1].
Qed.

(** A combination runs as its parts would. *)
Lemma TypedBindHandlers_run {S} (hs : list (TypedBindHandler S)) b s :
  match TypedBindHandlers hs with None => mret tt | Some h => h b end s = typed_bind_all hs b s.
Proof.
  destruct hs as [|h [|h' hs]]; [done | | done]. cbn. destruct h as [h|]; [|done].
  unfold mbind, ST_bind. by destruct (h b s) as [[[]| | |] s1].
Qed.

Lemma typed_bind_one {S} (h : TypedBindHandler S) b s :
  typed_bind_all [h] b s = match h with None => mret tt | Some h => h b end s.
Proof. symmetry. exact (TypedBindHandlers_run [h] b s). Qed.

Lemma typed_bind_cons {S} (h : TypedBindHandler S) hs b s :
  typed_bind_all (h :: hs) b s = (_ ← match h with None => mret tt | Some h => h b end; typed_bind_all hs b) s.
Proof. by destruct h. Qed.

(** The receivers registered last. *)
Definition last_for (t : Z) (rs : list ContentTypeReceiver) : option nat :=
  receiver_handler <$> last (filter (fun r => ReceiverType r = t) rs).

Lemma last_for_cons t r rs :
  last_for t (r :: rs) = match last_for t rs with
                         | Some h => Some h
                         | None => if decide (ReceiverType r = t) then Some (receiver_handler r) else None
                         end.
Proof.
  unfold last_for. rewrite filter_cons. case_decide; [|by destruct (last (filter _ rs))].
  destruct (filter (fun r => ReceiverType r = t) rs) as [|x l]; [done|].
  rewrite last_cons. destruct (last (x :: l)) eqn:E; [done|]. by apply last_None in E.
Qed.

Lemma AddReceiveHandlers_spec rs s : exists s', AddReceiveHandlers rs s = (Ret tt, s') /\
  userData s' = userData s /\ started s' = started s /\ log (setup_ch s') = log (setup_ch s) /\
  transformRx (handlers (setup_ch s')) = transformRx (handlers (setup_ch s)) /\
  peekHandlers (handlers (setup_ch s')) = peekHandlers (handlers (setup_ch s)) /\
  forall t, receiveHandlers (handlers (setup_ch s')) !! t =
    match last_for t rs with Some h => Some (Plain h) | None => receiveHandlers (handlers (setup_ch s)) !! t end.
Proof.
  revert s. induction rs as [|r rs IH]; intros s; [by exists s|]. cbn [AddReceiveHandlers].
  unfold mbind, ST_bind. cbn.
  destruct (IH (mkSetup (set_handlers (fun hs => mkHandlers (<[ReceiverType r := Plain (receiver_handler r)]> (receiveHandlers hs))
    (peekHandlers hs) (transformRx hs) (transformTx hs) (errorHandlers hs) (closeHandlers hs)) (setup_ch s))
    (userData s) (started s))) as (s' & E & H1 & H2 & H3 & H4 & H5 & H6).
  exists s'. split; [exact E|]. do 5 (split; [done|]). intros t. rewrite H6, last_for_cons.
  destruct (last_for t rs); [done|]. cbn. case_decide as Ht; [by subst t; rewrite lookup_insert_eq | by rewrite lookup_insert_ne].
Qed.

(** ** Properties *)

(** Combining bind handlers.  However bind handlers are nested
    into combinations (also of one, of none, and with nil handlers), the binder
    does what the flat combination does: the handlers run in order, each on
    what the one before it left, and the first error is the result. *)
Theorem binders_flatten {S} (s : S) (hss : list (list (TypedBindHandler S))) (st : setup) :
  Binder_bind (MakeTypedBinder s (TypedBindHandlers (TypedBindHandlers <$> hss))) st =
    Binder_bind (MakeTypedBinder s (TypedBindHandlers (concat hss))) st /\
  Binder_bind (MakeTypedBinder s (TypedBindHandlers (concat hss))) st = typed_bind_all (concat hss) (mkBinding s) st.
Proof.
  split; [|exact (TypedBindHandlers_run (concat hss) (mkBinding s) st)].
  change ((match TypedBindHandlers (TypedBindHandlers <$> hss) with None => mret tt | Some h => h (mkBinding s) end) st =
    (match TypedBindHandlers (concat hss) with None => mret tt | Some h => h (mkBinding s) end) st).
  rewrite !TypedBindHandlers_run. revert st. induction hss as [|hs hss IH]; intros st; [done|].
  rewrite fmap_cons, concat_cons, typed_bind_all_app, typed_bind_cons. unfold mbind, ST_bind.
  rewrite TypedBindHandlers_run. by destruct (typed_bind_all hs (mkBinding s) st) as [[]].
Qed.

(** What a received message calls: the receiver of its type, else the one for
    any type, else none. *)
Definition expected {S} (b : bindingImpl S) (lookup : Z -> option handler) (m : Message) : list (invocation S) :=
  match lookup (ContentType m) with
  | Some h => [receive_function b h m]
  | None => match lookup AnyContentType with Some h => [receive_function b h m] | None => [] end
  end.

(** Receivers get their messages.  After [AddReceiveHandlers], a
    message that is not a reply makes exactly one call: of the receiver that was
    registered last for its content type, where the new registrations replace
    older ones; if there is none, of the one for any content type; if there is
    none either, no call.  A typed handler is called with the senders of the
    binder.  Nothing but the receive handlers changes. *)
Theorem receivers_called {S} (rng : gmap Z (waiter receiver) -> list (Z * waiter receiver)) (b : bindingImpl S)
    (rs : list ContentTypeReceiver) (st : setup) (m : Message) (now : Z) :
  let m1 := foldl (fun m f => f m) m (transformRx (handlers (setup_ch st))) in
  reply_for_spec m1 = -1 ->
  exists st', AddReceiveHandlers rs st = (Ret tt, st') /\
    userData st' = userData st /\ started st' = started st /\ log (setup_ch st') = log (setup_ch st) /\
    omap (invoked b) (log (rx rng m now (setup_ch st')).2) = omap (invoked b) (log (setup_ch st)) ++
      expected b (fun t => match last_for t rs with
                           | Some h => Some (Plain h)
                           | None => receiveHandlers (handlers (setup_ch st)) !! t
                           end) (cacheReplyFor m1).
Proof.
  intros m1 Hr. destruct (AddReceiveHandlers_spec rs st) as (s' & E & H1 & H2 & H3 & H4 & H5 & H6).
  exists s'. do 4 (split; [done|]). rewrite rx_spec, H4, H5. fold m1. cbn zeta. rewrite decide_True by done.
  cbn [snd]. rewrite receive_log. cbn [log emit set_lastRead handlers]. rewrite !omap_app, H3, omap_fmap_none by done.
  rewrite app_nil_r. f_equal. unfold deliver_to, expected. rewrite !H6. by repeat case_match.
Qed.

Lemma receivers_called_witness :
  let u := mkUnderlay 1 (lit "id") (lit "c") ∅ 0 in
  let c := fresh_channel (mkArgs true true (Some u) false ∅ 0 [] [] None) u in
  let rs := [mkReceiver 7 1; mkReceiver 8 2; mkReceiver 7 3] in
  exists st', AddReceiveHandlers rs (mkSetup c None []) = (Ret tt, st') /\
    omap (invoked (mkBinding tt)) (log (rx (fun w => map_to_list w) (NewMessage 7 []) 5 (setup_ch st')).2) =
      [HandleReceive 3 (cacheReplyFor (NewMessage 7 []))].
Proof.
  intros u c rs. destruct (receivers_called (fun w => map_to_list w) (mkBinding tt) rs (mkSetup c None [])
    (NewMessage 7 []) 5 eq_refl) as (st' & E & _ & _ & _ & H).
  exists st'. split; [exact E|]. rewrite H. reflexivity.
Defined.
