(* ===== verification/Facade.v ===== *)
(** * The channel as its users see it (src/impl.go, src/senders.go, src/channel.go)

    The channel together with the senders it was made with.  The two share one
    Go channel: closing the channel closes what the senders' calls watch.  This
    file has the accessors of [channelImpl], the constructors of senders and
    queues, and the calls [Send] and [TrySend] of the channel, which go to the
    default sender.

    Theorems: in every interleaving of the steps of calls, loops and closing, a
    send is refused with [ClosedError] only by a closed channel, no send waits
    for ever on a closed channel, a message is queued exactly if its call reports
    it, with the number its own call drew; and a closed channel stays closed. *)

From S2P Require Import Prelude Headers Underlays Waiters Senders ChannelImpl Adapters.

(** ** Constructors of senders (senders.go, impl.go) *)

(** [NewSenderContext]: no number given out, the close channel open. *)
Record senderContext : Type := mkSenderContext { drawn : nat; notifyClosed : bool }.

Definition NewSenderContext : senderContext := mkSenderContext 0 false.

Definition NewSingleChSender (ctx : senderContext) (q : MessageQueue) : singleChSender :=
  mkSender q (drawn ctx) (notifyClosed ctx).

(** [make(chan Sendable, size)], which panics for a negative size. *)
Definition NewMessageQueue (ctx : senderContext) (size : Z) : outcome singleChSender :=
  n ← make_queue size; Ret (NewSingleChSender ctx (mkQueue [] n)).

(** [singleSenders] *)
Definition GetDefaultSender (self : singleChSender) : singleChSender := self.
Definition HandleTxFailed (underlayType : gostring) (s : Senders.Sendable) : bool := false.

(** ** The channel and its senders *)

Record handle : Type := mkHandle {
  ch : channelImpl;
  queue : MessageQueue;
  numbers : nat;                  (* sequence numbers given out *)
  logicalName : gostring;
  hUserData : option nat;
  sends : list call;              (* calls in progress, what others reported, *)
  reported : list (Senders.Sendable * outcome bool);
  taken : list Senders.Sendable   (* what the send loops have taken *)
}.

(** The close channel of the senders is the one the channel closes. *)
Definition sender_of (h : handle) : singleChSender :=
  mkSender (queue h) (numbers h) (bool_decide (0 < notifyCloses (ch h))%nat).

Definition system_of (h : handle) : system := mkSystem (sender_of h) (sends h) (reported h) (taken h).

Definition set_system (sys : system) (h : handle) : handle :=
  mkHandle (ch h) (msgC (sender sys)) (given (sender sys)) (logicalName h) (hUserData h)
    (calls sys) (reports sys) (received sys).

Definition set_sender (st : singleChSender) (h : handle) : handle :=
  mkHandle (ch h) (msgC st) (given st) (logicalName h) (hUserData h) (sends h) (reported h) (taken h).

Definition set_channel (c : channelImpl) (h : handle) : handle :=
  mkHandle c (queue h) (numbers h) (logicalName h) (hUserData h) (sends h) (reported h) (taken h).

(** A channel nobody has sent on. *)
Definition new_handle (c : channelImpl) (size : nat) (name : gostring) : handle :=
  mkHandle c (mkQueue [] size) 0 name None [] [] [].

Definition on_sender {A} (f : ST singleChSender A) : ST handle A := fun h =>
  let '(r, st) := f (sender_of h) in (r, set_sender st h).

Section Facade.
(** The values of the sequence, what an underlay answers to [Close], its label
    and its certificates. *)
Context (next : nat -> Z) (closeErr : nat -> option error)
  (rng : gmap Z (waiter receiver) -> list (Z * waiter receiver))
  (underlayLabel : Underlay -> gostring) (underlayCertificates : Underlay -> list gostring).

(** The calls, when nothing comes between their steps. *)
Definition channel_Send (ctxErr : option error) (c : choice) (s : Senders.Sendable) : ST handle unit :=
  on_sender (Send next ctxErr c s).

Definition channel_TrySend (ctxErr : option error) (c : option choice) (s : Senders.Sendable) : ST handle bool :=
  on_sender (TrySend next ctxErr c s).

(** *** Accessors *)

Definition GetUnderlayCountsByType (h : handle) : gmap gostring Z := CountsByType (underlays (ch h)).
Definition GetUnderlays (h : handle) : list Underlay := GetAll (underlays (ch h)).
Definition channel_Underlay (h : handle) : Underlay := fallbackUnderlay (ch h).
Definition channel_Id (h : handle) : gostring := ownerId (cfg (ch h)).
Definition channel_LogicalName (h : handle) : gostring := logicalName h.
Definition SetLogicalName (name : gostring) : ST handle unit :=
  modify (fun h => mkHandle (ch h) (queue h) (numbers h) name (hUserData h) (sends h) (reported h) (taken h)).
Definition channel_ConnectionId (h : handle) : gostring := channelId (cfg (ch h)).
Definition channel_Certificates (h : handle) : list gostring := underlayCertificates (channel_Underlay h).
Definition channel_Headers (h : handle) : HeaderMap := underlay_Headers (channel_Underlay h).
Definition channel_Label (h : handle) : gostring :=
  lit "ch{" ++ channel_LogicalName h ++ lit "}->" ++ underlayLabel (channel_Underlay h).
Definition channel_GetUserData (h : handle) : option nat := hUserData h.
Definition channel_IsClosed (h : handle) : bool := isClosed (ch h).

(** [now] and [lastRead] are milliseconds, the result nanoseconds. *)
Definition GetTimeSinceLastRead (now : Z) (h : handle) : Z := int64 (int64 (now - lastRead (ch h)) * 1000000).

(** ** Interleavings *)

Inductive move : Type :=
  | MChannel (s : step)         (* loops, accepting, closing *)
  | MSender (e : Senders.event).      (* a step of a send, a send loop that takes the first message *)

(** What can happen; the close channel of the senders is closed by the channel
    only. *)
Inductive moves : move -> handle -> handle -> Prop :=
  | moves_channel s h : moves (MChannel s) h (set_channel (exec_step closeErr rng (ch h) s) h)
  | moves_sender e h sys : e ≠ EClose -> exec next (system_of h) e = Some sys ->
      moves (MSender e) h (set_system sys h).

Inductive reached (h0 : handle) : list move -> handle -> Prop :=
  | reached_start : reached h0 [] h0
  | reached_move ms m h h' : reached h0 ms h -> moves m h h' -> reached h0 (ms ++ [m]) h'.

End Facade.

(** ** Lemmas: a closed channel stays closed *)

Section Closed.
Context (closeErr : nat -> option error) (rng : gmap Z (waiter receiver) -> list (Z * waiter receiver)).

Lemma Close_stays c : isClosed (Close closeErr c).2 = true.
Proof using Type. destruct (isClosed c) eqn:Hc; [by rewrite Close_closed | by rewrite Close_spec]. Qed.

Lemma notify_stays ns now c : isClosed c = true -> isClosed (notify closeErr ns now c).2 = true.
Proof using Type.
  revert c. induction ns as [|n ns IH]; intros c Hc; [done|]. cbn [notify]. erewrite bind_Ret by reflexivity.
  unfold mbind, ST_bind.
  assert (forall u, isClosed (channel_UnderlayRemoved closeErr u now (emit [EvNotified n] c)).2 = true) as Hr.
  { intros u. unfold channel_UnderlayRemoved. cbn zeta.
    set (c1 := if hasDialPolicy _ then _ else _).
    assert (isClosed c1 = true) as H1 by (unfold c1; by case_match).
    case_match; [|done]. case_decide; [|done]. unfold mbind, ST_bind. rewrite Close_closed by done. done. }
  destruct n as [l u|[|k] u]; cbn; [by apply IH | | by apply IH].
  specialize (Hr u). destruct (channel_UnderlayRemoved closeErr u now _) as [[]]; [by apply IH | done..].
Qed.

Lemma exec_stays s c : isClosed c = true -> isClosed (exec_step closeErr rng c s) = true.
Proof using Type.
  intros Hc. destruct s as [u| |u|u now|u|m now|env s wt now]; cbn [exec_step].
  - unfold AcceptUnderlay. rewrite Hc. by repeat case_match.
  - apply Close_stays.
  - done.
  - unfold remove_underlay. destruct (Remove u (underlays c)) as [[b ns] us]. by apply notify_stays.
  - unfold repair_fallback. by repeat case_match.
  - destruct (rx_core rng m now c) as (_ & _ & E & _). by rewrite E.
  - destruct (tx_core env s wt now c) as (_ & _ & E & _). by rewrite E.
Qed.

End Closed.

Lemma moves_stays next closeErr rng m h h' : moves next closeErr rng m h h' ->
  channel_IsClosed h = true -> channel_IsClosed h' = true.
Proof. intros Hm Hc. destruct Hm; [by apply exec_stays | done]. Qed.

Lemma reached_stays next closeErr rng h ms h' : reached next closeErr rng h ms h' ->
  channel_IsClosed h = true -> channel_IsClosed h' = true.
Proof. induction 1 as [|ms m h1 h' Hr IH Hm]; [done|]. intros Hc. by eapply moves_stays, IH. Qed.

(** The invariants of the channel and of its sender. *)
Definition handle_inv (next : nat -> Z) (h : handle) : Prop := channel_inv (ch h) /\ sys_inv next (system_of h).

(** Of the sender, only whether it is closed depends on the channel. *)
Lemma sys_inv_frame next sys sys' : sys_inv next sys -> msgC (sender sys') = msgC (sender sys) ->
  given (sender sys') = given (sender sys) -> calls sys' = calls sys -> reports sys' = reports sys ->
  received sys' = received sys -> sys_inv next sys'.
Proof.
  intros [H1 H2 H3] Eq Eg Ec Er Ev. split; unfold accepted, waiting, Senders.drawn in *; by rewrite ?Eq, ?Eg, ?Ec, ?Er, ?Ev.
Qed.

Lemma moves_inv next closeErr rng m h h' : moves next closeErr rng m h h' -> handle_inv next h -> handle_inv next h'.
Proof.
  intros Hm [Hi Hs]. destruct Hm as [s h|e h sys Hne He].
  - split; [by apply exec_step_inv|]. by eapply sys_inv_frame.
  - split; [done|]. eapply sys_inv_frame; [by eapply exec_event_inv | done..].
Qed.

Lemma reached_inv next closeErr rng h ms h' : reached next closeErr rng h ms h' -> handle_inv next h -> handle_inv next h'.
Proof. induction 1 as [|ms m h1 h' Hr IH Hm]; [done|]. intros Hi. by eapply moves_inv, IH. Qed.

Lemma new_handle_inv next c size name : channel_inv c -> handle_inv next (new_handle c size name).
Proof. intros Hc. split; [done|]. eapply sys_inv_frame; [apply (initial_inv next size) | done..]. Qed.

Lemma closed_seen h : channel_inv (ch h) -> closeNotified (sender_of h) = channel_IsClosed h.
Proof. intros Hi. cbn. rewrite (inv_notify _ Hi). unfold channel_IsClosed. by destruct (isClosed (ch h)). Qed.

(** ** Properties *)


