(* ===== verification/Sendables.v ===== *)
(** * The kinds of sendables (src/channel.go, src/message.go, src/envelope.go, src/latency/latency.go)

    The interfaces [Sendable] and [SendListener] as a class, with an instance
    per Go type: the default implementations [BaseSendable] and
    [BaseSendListener], messages, envelopes, the envelopes of the three waiting
    calls, which embed an envelope and replace some of its methods, error
    envelopes, and the two sendables of the latency probe.

    Theorems: the channel's view of a sendable, taken through the interface the
    way [channelImpl.tx] does, is the one [Envelope] and [Calls] work with, for
    every kind of envelope, and so are its callbacks; a time tracker is not
    written, and a round-trip probe is written with the time of its writing. *)

From S2P Require Import Prelude Headers Waiters Senders ChannelImpl Envelope Latency.

(** ** The interfaces *)

(** What callbacks change: the mailbox of the envelope, and what the handler of
    a latency probe is told. *)
Record surroundings : Type := mkSurroundings { box : mailbox; reports : list (latency_type * Z) }.

Definition on_box (f : ST mailbox unit) : ST surroundings unit := fun s =>
  let '(r, b) := f (box s) in (r, mkSurroundings b (reports s)).

(** The callbacks may change the sendable; [NotifyBeforeWrite] reads the clock. *)
Class SendListenerOps (T : Type) : Type := {
  l_NotifyQueued : ST (T * surroundings) unit;
  l_NotifyBeforeWrite : Z -> ST (T * surroundings) unit;
  l_NotifyAfterWrite : ST (T * surroundings) unit;
  l_NotifyErr : error -> ST (T * surroundings) unit
}.

(** [s_SendListener] gives the listener's own type; [s_WriteContext] is the
    optional interface [writeContextProvider]. *)
Class SendableOps (T : Type) : Type := {
  s_Msg : T -> option Message;
  s_SetSequence : Z -> T -> T;
  s_Sequence : T -> Z;
  s_Context : T -> option context.Context;
  s_ReplyReceiver : receiver -> T -> option receiver;
  s_WriteContext : T -> option context.Context;
  s_listener :: SendListenerOps T
}.

(** [writeContext(sendable)] *)
Definition write_context {T} `{SendableOps T} (t : T) : option context.Context :=
  match s_WriteContext t with Some c => Some c | None => s_Context t end.

(** What [tx] asks of a sendable. *)
Definition asked {T} `{SendableOps T} (self : receiver) (t : T) (w : context.world) : ChannelImpl.sendable :=
  ChannelImpl.mkSendable
    (match write_context t with Some c => context.Err c w | None => None end)
    (s_Msg t) (s_ReplyReceiver self t)
    (match s_Context t with Some c => (fun d => d / 1000000) <$> context.Deadline c | None => None end).

(** A callback that leaves the sendable alone. *)
Definition boxed {T} (f : T -> ST mailbox unit) : ST (T * surroundings) unit := fun '(t, s) =>
  let '(r, s') := on_box (f t) s in (r, (t, s')).

(** ** The defaults (channel.go) *)

Module BaseSendListener.

Definition NotifyQueued {T} : ST (T * surroundings) unit := mret tt.
Definition NotifyBeforeWrite {T} (now : Z) : ST (T * surroundings) unit := mret tt.
Definition NotifyAfterWrite {T} : ST (T * surroundings) unit := mret tt.
Definition NotifyErr {T} (err : error) : ST (T * surroundings) unit := mret tt.

Definition listener (T : Type) : SendListenerOps T := {|
  l_NotifyQueued := NotifyQueued; l_NotifyBeforeWrite := NotifyBeforeWrite;
  l_NotifyAfterWrite := NotifyAfterWrite; l_NotifyErr := NotifyErr
|}.

End BaseSendListener.

Module BaseSendable.

Definition Msg {T} (t : T) : option Message := None.
Definition Context {T} (t : T) : option context.Context := Some context.Background.
Definition SendListener (T : Type) : SendListenerOps T := BaseSendListener.listener T.
Definition ReplyReceiver {T} (self : receiver) (t : T) : option receiver := None.

End BaseSendable.

(** ** Messages (message.go) *)

Module MessageSendable.

Definition Msg (m : Message) : option Message := Some m.
Definition Context (m : Message) : option context.Context := Some context.Background.
Definition SendListener : SendListenerOps Message := BaseSendListener.listener Message.
Definition ReplyReceiver (self : receiver) (m : Message) : option receiver := None.
Definition ToSendable (m : Message) : Message := m.

#[global] Instance ops : SendableOps Message := {
  s_Msg := Msg; s_SetSequence := Headers.SetSequence; s_Sequence := Headers.sequence; s_Context := Context;
  s_ReplyReceiver := ReplyReceiver; s_WriteContext _ := None; s_listener := SendListener
}.

End MessageSendable.

(** ** Envelopes (envelope.go) *)

Module envelope.

Definition Msg (e : envelopeImpl) : option Message := Some (env_msg e).
Definition SetSequence (seq : Z) (e : envelopeImpl) : envelopeImpl :=
  mkEnvelope (Headers.SetSequence seq (env_msg e)) (Envelope.context e) (cancelF e).
Definition Sequence (e : envelopeImpl) : Z := Headers.sequence (env_msg e).
Definition ReplyReceiver (self : receiver) (e : envelopeImpl) : option receiver := None.
Definition ToSendable (e : envelopeImpl) : envelopeImpl := e.
Definition NotifyQueued : ST (envelopeImpl * surroundings) unit := mret tt.
Definition NotifyBeforeWrite (now : Z) : ST (envelopeImpl * surroundings) unit := mret tt.
Definition NotifyAfterWrite : ST (envelopeImpl * surroundings) unit := boxed CancelF.
Definition NotifyErr (err : error) : ST (envelopeImpl * surroundings) unit := mret tt.

(** The envelope is its own listener. *)
Definition SendListener : SendListenerOps envelopeImpl := {|
  l_NotifyQueued := NotifyQueued; l_NotifyBeforeWrite := NotifyBeforeWrite;
  l_NotifyAfterWrite := NotifyAfterWrite; l_NotifyErr := NotifyErr
|}.

#[global] Instance ops : SendableOps envelopeImpl := {
  s_Msg := Msg; s_SetSequence := SetSequence; s_Sequence := Sequence; s_Context := Envelope.context;
  s_ReplyReceiver := ReplyReceiver; s_WriteContext _ := None; s_listener := SendListener
}.

End envelope.

(** Methods of the embedded envelope, promoted to a type [T] that embeds it. *)
Section Promoted.
Context {T : Type} (get : T -> envelopeImpl) (put : envelopeImpl -> T).

Definition promoted (f : ST (envelopeImpl * surroundings) unit) : ST (T * surroundings) unit := fun '(t, s) =>
  let '(r, (e, s')) := f (get t, s) in (r, (put e, s')).

End Promoted.

(** [queueWaitEnvelope]: only the write context is its own. *)
Module queueWait.

Record queueWaitEnvelope : Type := mk { embedded : envelopeImpl }.

Definition ToSendable (t : queueWaitEnvelope) : queueWaitEnvelope := t.
Definition WriteContext (t : queueWaitEnvelope) : context.Context := context.Background.

(** [SendListener] is promoted: the listener is the embedded envelope. *)
Definition SendListener : SendListenerOps queueWaitEnvelope := {|
  l_NotifyQueued := promoted embedded mk envelope.NotifyQueued;
  l_NotifyBeforeWrite now := promoted embedded mk (envelope.NotifyBeforeWrite now);
  l_NotifyAfterWrite := promoted embedded mk envelope.NotifyAfterWrite;
  l_NotifyErr err := promoted embedded mk (envelope.NotifyErr err)
|}.

#[global] Instance ops : SendableOps queueWaitEnvelope := {
  s_Msg t := envelope.Msg (embedded t); s_SetSequence seq t := mk (envelope.SetSequence seq (embedded t));
  s_Sequence t := envelope.Sequence (embedded t); s_Context t := Envelope.context (embedded t);
  s_ReplyReceiver self t := envelope.ReplyReceiver self (embedded t);
  s_WriteContext t := Some (WriteContext t); s_listener := SendListener
}.

End queueWait.

(** [sendWaitEnvelope]: its own listener, with [NotifyAfterWrite] and
    [NotifyErr] on its channel, which is in the mailbox. *)
Module sendWait.

Record sendWaitEnvelope : Type := mk { embedded : envelopeImpl }.

Definition ToSendable (t : sendWaitEnvelope) : sendWaitEnvelope := t.
Definition NotifyAfterWrite : ST (sendWaitEnvelope * surroundings) unit := boxed (fun _ => on_errC chan_close).
Definition NotifyErr (err : error) : ST (sendWaitEnvelope * surroundings) unit :=
  boxed (fun _ => on_errC (chan_send err)).

Definition SendListener : SendListenerOps sendWaitEnvelope := {|
  l_NotifyQueued := promoted embedded mk envelope.NotifyQueued;
  l_NotifyBeforeWrite now := promoted embedded mk (envelope.NotifyBeforeWrite now);
  l_NotifyAfterWrite := NotifyAfterWrite; l_NotifyErr := NotifyErr
|}.

#[global] Instance ops : SendableOps sendWaitEnvelope := {
  s_Msg t := envelope.Msg (embedded t); s_SetSequence seq t := mk (envelope.SetSequence seq (embedded t));
  s_Sequence t := envelope.Sequence (embedded t); s_Context t := Envelope.context (embedded t);
  s_ReplyReceiver self t := envelope.ReplyReceiver self (embedded t);
  s_WriteContext _ := None; s_listener := SendListener
}.

End sendWait.

(** [replyEnvelope]: its own listener and its own reply receiver. *)
Module reply.

Record replyEnvelope : Type := mk { embedded : envelopeImpl }.

Definition ToSendable (t : replyEnvelope) : replyEnvelope := t.
Definition NotifyAfterWrite : ST (replyEnvelope * surroundings) unit := mret tt.
Definition NotifyErr (err : error) : ST (replyEnvelope * surroundings) unit :=
  boxed (fun _ => on_errC (chan_send err)).
Definition ReplyReceiver (self : receiver) (t : replyEnvelope) : option receiver := Some self.

Definition SendListener : SendListenerOps replyEnvelope := {|
  l_NotifyQueued := promoted embedded mk envelope.NotifyQueued;
  l_NotifyBeforeWrite now := promoted embedded mk (envelope.NotifyBeforeWrite now);
  l_NotifyAfterWrite := NotifyAfterWrite; l_NotifyErr := NotifyErr
|}.

#[global] Instance ops : SendableOps replyEnvelope := {
  s_Msg t := envelope.Msg (embedded t); s_SetSequence seq t := mk (envelope.SetSequence seq (embedded t));
  s_Sequence t := envelope.Sequence (embedded t); s_Context t := Envelope.context (embedded t);
  s_ReplyReceiver := ReplyReceiver; s_WriteContext _ := None; s_listener := SendListener
}.

End reply.

(** [errorEnvelope]: nothing but a context that has ended. *)
Module errorEnv.

Record errorEnvelope : Type := mk { ctx : context.Context }.

Definition SetSequence (seq : Z) (t : errorEnvelope) : errorEnvelope := t.
Definition Sequence (t : errorEnvelope) : Z := 0.
Definition Msg (t : errorEnvelope) : option Message := None.
Definition ReplyTo (o : Message) (t : errorEnvelope) : errorEnvelope := t.
Definition Context (t : errorEnvelope) : option context.Context := Some (ctx t).
Definition SendListener : SendListenerOps errorEnvelope := BaseSendListener.listener errorEnvelope.
Definition ReplyReceiver (self : receiver) (t : errorEnvelope) : option receiver := None.
Definition ToSendable (t : errorEnvelope) : errorEnvelope := t.
Definition WithTimeout (duration : Z) (t : errorEnvelope) : errorEnvelope := t.
Definition WithContext (c : option context.Context) (t : errorEnvelope) : errorEnvelope := t.
Definition Send (t : errorEnvelope) (w : context.world) : option error := context.Err (ctx t) w.

#[global] Instance ops : SendableOps errorEnvelope := {
  s_Msg := Msg; s_SetSequence := SetSequence; s_Sequence := Sequence; s_Context := Context;
  s_ReplyReceiver := ReplyReceiver; s_WriteContext _ := None; s_listener := SendListener
}.

End errorEnv.

(** ** The sendables of the latency probe (latency.go) *)

Module tracker.

Record SendTimeTracker : Type := mk { StartTime : Z; seq : Z }.

Definition SetSequence (s : Z) (t : SendTimeTracker) : SendTimeTracker := mk (StartTime t) s.
Definition Sequence (t : SendTimeTracker) : Z := seq t.

Definition NotifyBeforeWrite (now : Z) : ST (SendTimeTracker * surroundings) unit :=
  modify (fun '(t, s) => (t, mkSurroundings (box s) (reports s ++ [(BeforeSendType, now - StartTime t)]))).

(** The tracker is its own listener, with the other callbacks of the base. *)
Definition SendListener : SendListenerOps SendTimeTracker := {|
  l_NotifyQueued := BaseSendListener.NotifyQueued; l_NotifyBeforeWrite := NotifyBeforeWrite;
  l_NotifyAfterWrite := BaseSendListener.NotifyAfterWrite; l_NotifyErr := BaseSendListener.NotifyErr
|}.

#[global] Instance ops : SendableOps SendTimeTracker := {
  s_Msg := BaseSendable.Msg; s_SetSequence := SetSequence; s_Sequence := Sequence; s_Context := BaseSendable.Context;
  s_ReplyReceiver := BaseSendable.ReplyReceiver; s_WriteContext _ := None; s_listener := SendListener
}.

End tracker.

Module roundTrip.

Record RoundTripLatency : Type := mk { msg : Message }.

Definition SetSequence (seq : Z) (t : RoundTripLatency) : RoundTripLatency := mk (Headers.SetSequence seq (msg t)).
Definition Sequence (t : RoundTripLatency) : Z := Headers.sequence (msg t).
Definition Msg (t : RoundTripLatency) : option Message := Some (msg t).

Definition NotifyBeforeWrite (now : Z) : ST (RoundTripLatency * surroundings) unit :=
  modify (fun '(t, s) => (mk (MessageHeader.PutUint64Header probeTime (uint64 now) (msg t)), s)).

Definition SendListener : SendListenerOps RoundTripLatency := {|
  l_NotifyQueued := BaseSendListener.NotifyQueued; l_NotifyBeforeWrite := NotifyBeforeWrite;
  l_NotifyAfterWrite := BaseSendListener.NotifyAfterWrite; l_NotifyErr := BaseSendListener.NotifyErr
|}.

#[global] Instance ops : SendableOps RoundTripLatency := {
  s_Msg := Msg; s_SetSequence := SetSequence; s_Sequence := Sequence; s_Context := BaseSendable.Context;
  s_ReplyReceiver := BaseSendable.ReplyReceiver; s_WriteContext _ := None; s_listener := SendListener
}.

End roundTrip.

(** ** The kinds as [Envelope] has them *)

(** A Go value and its kind in [Envelope]: the same view for the channel, the
    same sequence, and the same callbacks on the mailbox. *)
Record represents {T} `{SendableOps T} (t : T) (s : Envelope.Sendable) : Prop := {
  rep_asked self w : asked self t w = to_channel self s w;
  rep_sequence : s_Sequence t = sendable_Sequence s;
  rep_queued sr : l_NotifyQueued (t, sr) = (Ret tt, (t, sr));
  rep_before now sr : l_NotifyBeforeWrite now (t, sr) = (Ret tt, (t, sr));
  rep_after sr : l_NotifyAfterWrite (t, sr) =
    let '(r, b) := NotifyAfterWrite s (box sr) in (r, (t, mkSurroundings b (reports sr)));
  rep_err err sr : l_NotifyErr err (t, sr) =
    let '(r, b) := NotifyErr s err (box sr) in (r, (t, mkSurroundings b (reports sr)))
}.

(** A callback of [boxed], in the form of [represents]. *)
Lemma boxed_eq {T} (f : T -> ST mailbox unit) t sr :
  boxed f (t, sr) = let '(r, b) := f t (box sr) in (r, (t, mkSurroundings b (reports sr))).
Proof. unfold boxed, on_box. by destruct (f t (box sr)). Qed.

Lemma promoted_eq {T} (get : T -> envelopeImpl) (put : envelopeImpl -> T) (f : envelopeImpl -> ST mailbox unit) t sr :
  put (get t) = t ->
  promoted get put (boxed f) (t, sr) =
    let '(r, b) := f (get t) (box sr) in (r, (t, mkSurroundings b (reports sr))).
Proof. intros E. unfold promoted. rewrite boxed_eq. destruct (f (get t) (box sr)). by rewrite E. Qed.

Lemma surroundings_eta (sr : surroundings) : mkSurroundings (box sr) (reports sr) = sr.
Proof. by destruct sr. Qed.

#[local] Ltac represent :=
  split; intros; try reflexivity; cbn -[boxed promoted on_errC chan_send chan_close CancelF];
  rewrite ?surroundings_eta; try reflexivity; try apply boxed_eq.

(** ** Properties *)

(** Go's method sets.  For every kind of message and envelope, what the channel
    asks through the interface and what the callbacks do is what [Envelope] says
    of that kind: of the methods of an embedded envelope, a queue wait replaces
    only the write context, a wire wait its two callbacks after the write, and a
    request these and the reply receiver. *)
Theorem kinds_represented (m : Message) (e : envelopeImpl) (c : context.Context) (seq : Z) :
  represents m (SMessage m) /\ represents e (SEnvelope e) /\ represents (queueWait.mk e) (SQueueWait e) /\
  represents (sendWait.mk e) (SSendWait e) /\ represents (reply.mk e) (SReply e) /\
  represents (errorEnv.mk c) (SError c) /\
  represents (s_SetSequence seq (reply.mk e)) (sendable_SetSequence seq (SReply e)) /\
  represents (s_SetSequence seq (errorEnv.mk c)) (sendable_SetSequence seq (SError c)).
Proof.
  split_and!; represent.
  - by apply (promoted_eq queueWait.embedded queueWait.mk CancelF).
  - apply (boxed_eq (fun _ => on_errC chan_close)).
  - apply (boxed_eq (fun _ => on_errC (chan_send err))).
  - apply (boxed_eq (fun _ => on_errC (chan_send err))).
  - apply (boxed_eq (fun _ => on_errC (chan_send err))).
Qed.

(** What the latency probe puts on the wire.  Before a time tracker reaches the
    wire its handler is told the time it has waited, and nothing is written and
    nobody is left waiting; a round-trip probe, if its write is attempted, is
    written with the time just before in its header (as the transform handlers
    leave it). *)
Theorem probes_on_the_wire (env : tx_env) (writeTimeout now : Z) (c : channelImpl) (self : receiver) (w : context.world)
    (t : tracker.SendTimeTracker) (p : roundTrip.RoundTripLatency) (sr : surroundings) :
  (let '(r, (t', sr')) := l_NotifyBeforeWrite now (t, sr) in
   r = Ret tt /\ reports sr' = reports sr ++ [(BeforeSendType, now - tracker.StartTime t)] /\ box sr' = box sr /\
   let '(r, c') := tx env (asked self t' w) writeTimeout now c in
   r = Ret tt /\ log c' = log c ++ [EvNotifyBeforeWrite] /\ waiters c' = waiters c) /\
  (let '(r, (p', sr')) := l_NotifyBeforeWrite now (p, sr) in
   let m := MessageHeader.PutUint64Header probeTime (uint64 now) (roundTrip.msg p) in
   r = Ret tt /\ sr' = sr /\ s_Msg p' = Some m /\
   (setTimeoutErr env = None ->
    writes (log (tx env (asked self p' w) writeTimeout now c).2) =
      writes (log c) ++ [foldl (fun m f => f m) m (transformTx (handlers c))])).
Proof.
  split; [by split|]. cbn -[tx asked transformed]. split; [done|]. split; [done|]. split; [done|]. intros He.
  set (p' := roundTrip.mk _). destruct (tx_writes env (asked self p' w) writeTimeout now c) as (r & c' & E & _ & _ & Hw).
  rewrite E. cbn in Hw. rewrite He in Hw. cbn [snd].
  destruct (decide (0 < writeTimeout)), (txErr env); by destruct Hw as [_ ->].
Qed.
