(* ===== verification/ListenerConfig.v ===== *)
(** * Making a classic listener and a classic dialer
    (src/classic_listener.go, src/classic_dialer.go, src/options.go)

    The configuration of a listener, the goroutine pool that runs its
    handshakes, and the constructors; and the configuration of a dialer with
    its constructor and [Create].  The pool and the endpoint are parameters:
    whether a pool can be made of a configuration, and what listening and
    dialing answer.

    Theorems: what a listener is made of; that validated options reach the pool
    as they are, while others wrap around; that a listener that cannot listen
    leaves its pool running; and that a dialer and a listener for endpoints of
    the same type make underlays of the same kind. *)

From S2P Require Import Prelude Headers Wire Handshake Options.

(** ** Data *)

(** What [newClassicListener] sets of the pool's configuration.  [CloseNotify]
    is the number of the Go channel that ends the pool. *)
Record PoolConfig : Type := mkPool {
  QueueSize : Z;
  MinWorkers : Z;
  MaxWorkers : Z;
  IdleTime : Z;
  CloseNotify : option nat
}.

Definition with_CloseNotify (c : nat) (p : PoolConfig) : PoolConfig :=
  mkPool (QueueSize p) (MinWorkers p) (MaxWorkers p) (IdleTime p) (Some c).

Record ListenerConfig : Type := mkListenerConfig {
  listenerOptions : ConnectOptions;
  configHeaders : HeaderMap;
  configHeadersF : option HeaderMap;
  PoolConfigurator : option (PoolConfig -> PoolConfig);
  ConnectionHandlers : list (Hello -> list gostring -> outcome unit);
  configStrategy : option MessageStrategy
}.

Definition DefaultListenerConfig : ListenerConfig := mkListenerConfig DefaultConnectOptions ∅ None None [] None.

(** A listener with its close channel and its pool, and the factory it makes
    underlays with. *)
Record made_listener : Type := mkMade {
  accepting : classicListener;
  close : nat;
  listenerPool : PoolConfig;
  messageStrategy : option MessageStrategy;
  underlayFactory : option MessageStrategy -> Conn -> Z -> classicImpl;
  timeouts : ConnectOptions
}.

Section ListenerConfig.
Context (W : Z) (rng : HeaderMap -> list (Z * bytes)) (NewPool : PoolConfig -> outcome unit).

(** The configuration of the pool before the configurator sees it. *)
Definition pool_config (o : ConnectOptions) : PoolConfig :=
  mkPool (uint32 (MaxQueuedConnects o)) 1 (uint32 (MaxOutstandingConnects o)) (10 * Second) None.

Definition configured (config : ListenerConfig) : PoolConfig :=
  match PoolConfigurator config with
  | Some f => f (pool_config (listenerOptions config))
  | None => pool_config (listenerOptions config)
  end.

(** [newClassicListener]; [closeNotify] is the channel it makes, and the pool
    must be made or it panics. *)
Definition newClassicListener (token : option gostring) (endpointType : gostring) (closeNotify : nat)
    (config : ListenerConfig) : outcome made_listener :=
  let poolConfig := with_CloseNotify closeNotify (configured config) in
  match NewPool poolConfig with
  | Ret _ =>
      let dtls := bool_decide (endpointType = lit "dtls") in
      Ret (mkMade
        (mkListener token (configHeaders config) (configHeadersF config) (ConnectionHandlers config) dtls)
        closeNotify poolConfig (configStrategy config)
        (if dtls then newDatagramUnderlay W rng else newClassicImpl W rng) (listenerOptions config))
  | Err _ => Panic
  | Panic => Panic
  | OutOfFuel => OutOfFuel
  end.

(** [NewClassicListenerWithAcceptor]: the listener returned, and the one made;
    [socket] is what listening on the endpoint answers. *)
Definition NewClassicListenerWithAcceptor (token : option gostring) (endpointType : gostring) (closeNotify : nat)
    (config : ListenerConfig) (acceptor : HelloAcceptor) (socket : outcome nat)
    : outcome (made_listener * HelloAcceptor * nat) * option made_listener :=
  match newClassicListener token endpointType closeNotify config with
  | Ret l =>
      (match socket with Ret s => Ret (l, acceptor, s) | Err e => Err e | Panic => Panic | OutOfFuel => OutOfFuel end,
       Some l)
  | Err e => (Err e, None)
  | Panic => (Panic, None)
  | OutOfFuel => (OutOfFuel, None)
  end.

(** [NewClassicListenerF] *)
Definition NewClassicListenerF (token : option gostring) (endpointType : gostring) (closeNotify : nat)
    (config : ListenerConfig) (f : ST classicImpl unit) (socket : outcome nat) :=
  NewClassicListenerWithAcceptor token endpointType closeNotify config (HelloAcceptorF f) socket.

(** *** The dialer *)

(** [DialerConfig], less what is only passed on to the transport (the local
    binding and the transport configuration), which is part of dialing. *)
Record DialerConfig : Type := mkDialerConfig {
  configIdentity : gostring;
  configEndpointType : gostring;
  dialHeaders : HeaderMap;
  dialStrategy : option MessageStrategy;
  configHelloHeaderProvider : option HelloHeaderProvider
}.

(** What [NewClassicDialer] makes: the dialer of the handshake with its message
    strategy and the choice of its underlay factory. *)
Record made_dialer : Type := mkMadeDialer {
  handshaker : classicDialer;
  dialerStrategy : option MessageStrategy;
  datagrams : bool
}.

Definition NewClassicDialer (cfg : DialerConfig) : made_dialer :=
  mkMadeDialer (mkDialer (configIdentity cfg) (dialHeaders cfg) (configHelloHeaderProvider cfg))
    (dialStrategy cfg) (bool_decide (configEndpointType cfg = lit "dtls")).

(** [classicDialer.Create]: a dial with no headers but the dialer's own. *)
Definition dialer_Create (self : made_dialer) (dial : nat -> outcome Conn) (clock : nat -> Z) (timeout : Z)
    : outcome classicImpl * list classicImpl :=
  CreateWithHeaders W rng (handshaker self) (dialerStrategy self) (datagrams self) dial clock ∅ timeout.

End ListenerConfig.

(** ** Properties *)

(** A listener as configured.  Whatever the configurator does, the pool ends
    with the listener's own close channel; its factory makes packet underlays
    for a dtls endpoint and stream underlays for any other.  With options that
    pass validation and no configurator the pool has the configured number of
    workers, at least the one that always runs, and the configured queue; a
    negative number, which is not validated here, wraps around instead.  A pool
    that cannot be made panics.  If listening fails, the error is returned, but
    the pool has been made, and its close channel is left to nobody. *)
Theorem listener_configured (W : Z) (rng : HeaderMap -> list (Z * bytes)) (NewPool : PoolConfig -> outcome unit)
    (token : option gostring) (endpointType : gostring) (closeNotify : nat) (config : ListenerConfig)
    (f : ST classicImpl unit) (socket : outcome nat) :
  let '(r, made) := NewClassicListenerF W rng NewPool token endpointType closeNotify config f socket in
  let wanted := with_CloseNotify closeNotify (configured config) in
  (made = None <-> ~ exists u, NewPool wanted = Ret u) /\
  (forall l, made = Some l ->
     NewPool (listenerPool l) = Ret tt /\ CloseNotify (listenerPool l) = Some (close l) /\ close l = closeNotify /\
     (forall strategy peer, underlayFactory l strategy peer 2 =
        if decide (endpointType = lit "dtls") then newDatagramUnderlay W rng strategy peer 2
        else newClassicImpl W rng strategy peer 2) /\
     (forall e, socket = Err e -> r = Err e) /\ (forall s, socket = Ret s -> r = Ret (l, HelloAcceptorF f, s)) /\
     (Validate (listenerOptions config) = Ret tt -> PoolConfigurator config = None ->
        QueueSize (listenerPool l) = MaxQueuedConnects (listenerOptions config) /\
        MaxWorkers (listenerPool l) = MaxOutstandingConnects (listenerOptions config) /\
        1 <= MinWorkers (listenerPool l) <= MaxWorkers (listenerPool l))) /\
  (QueueSize (pool_config (mkConnectOptions (-1) 1 0)) = 2 ^ 32 - 1).
Proof.
  unfold NewClassicListenerF, NewClassicListenerWithAcceptor, newClassicListener. cbn zeta.
  destruct (NewPool (with_CloseNotify closeNotify (configured config))) as [[]|e| |] eqn:E.
  2-4: split; [split; [intros _ [u Hu]; congruence | done]|]; split; [done | reflexivity].
  split; [split; [done | intros Hn; destruct Hn; by exists tt]|]. split; [|reflexivity]. intros l [= <-].
  cbn [listenerPool close underlayFactory timeouts accepting messageStrategy]. split; [done|]. split; [done|]. split; [done|].
  split; [intros strategy peer; by destruct (decide (endpointType = lit "dtls")) as [Hd|Hd];
    [rewrite bool_decide_eq_true_2 | rewrite bool_decide_eq_false_2]|].
  split; [by intros e ->|]. split; [by intros s ->|]. intros Hv Hc. unfold configured. rewrite Hc. cbn.
  apply validated in Hv as (_ & H1 & H2). rewrite !to_uint_id by (unfold is_uint; lia). split; [done|]. split; [done|]. lia.
Qed.

(** The underlay a dial returns is the last it made, for version 2. *)
Lemma dial_loop_last (W : Z) (rng : HeaderMap -> list (Z * bytes)) (d : classicDialer)
    (strategy : option MessageStrategy) (dtls : bool) (dial : nat -> outcome Conn) (clock : nat -> Z)
    (hs : HeaderMap) (timeout : Z) (u : classicImpl) :
  (CreateWithHeaders W rng d strategy dtls dial clock hs timeout).1 = Ret u ->
  exists n c, (n <= 1)%nat /\ dial n = Ret c /\
    sendHello rng d hs (Handshake.underlayFactory W rng dtls strategy c 2) = (Ret tt, u).
Proof.
  unfold CreateWithHeaders. set (deadline := clock 0%nat + _). clearbody deadline. cbn [dial_loop].
  case_decide; [|discriminate].
  destruct (dial 0%nat) as [c0|e0| |] eqn:E0; try discriminate.
  destruct (sendHello rng d hs (Handshake.underlayFactory W rng dtls strategy c0 2)) as [[[]|e| |] u0] eqn:ES;
    try discriminate.
  { intros [= <-]. exists 0%nat, c0. split; [lia|]. by split. }
  destruct (_ || _); [discriminate|]. destruct (GetRetryVersion e) as [v [|]] eqn:EV; cbn [negb]; [|discriminate].
  apply GetRetryVersion_true in EV as (vs & _ & _ & ->). case_decide; [|discriminate].
  destruct (dial 1%nat) as [c1|e1| |] eqn:E1; try discriminate.
  destruct (sendHello rng d hs (Handshake.underlayFactory W rng dtls strategy c1 2)) as [[[]|e1| |] u1] eqn:ES1;
    try discriminate.
  { intros [= <-]. exists 1%nat, c1. split; [lia|]. by split. }
Qed.

(** The two ends of an endpoint make underlays of the same kind: a listener and
    a dialer for endpoints of one type, with the same message strategy, have the
    same factory, so that packets meet packets and streams meet streams.  A dial
    by [Create] that succeeds returns an underlay that this factory made of one
    of the first two connections, for version 2, after its hello. *)
Theorem ends_match (W : Z) (rng : HeaderMap -> list (Z * bytes)) (NewPool : PoolConfig -> outcome unit)
    (token : option gostring) (closeNotify : nat) (config : ListenerConfig) (l : made_listener)
    (cfg : DialerConfig) (dial : nat -> outcome Conn) (clock : nat -> Z) (timeout : Z) :
  let d := NewClassicDialer cfg in
  newClassicListener W rng NewPool token (configEndpointType cfg) closeNotify config = Ret l ->
  underlayFactory l = Handshake.underlayFactory W rng (datagrams d) /\
  (forall u, (dialer_Create W rng d dial clock timeout).1 = Ret u ->
     exists n c, (n <= 1)%nat /\ dial n = Ret c /\
       sendHello rng (handshaker d) ∅ (underlayFactory l (dialStrategy cfg) c 2) = (Ret tt, u)).
Proof.
  intros d Hl. assert (underlayFactory l = Handshake.underlayFactory W rng (datagrams d)) as Hf.
  { revert Hl. unfold newClassicListener. destruct (NewPool _) as [[]|e| |]; intros [= <-].
    unfold d, NewClassicDialer, Handshake.underlayFactory. cbn [underlayFactory datagrams].
    by case_bool_decide. }
  split; [exact Hf|]. rewrite Hf. apply dial_loop_last.
Qed.

(** A dialer for a dtls endpoint and a listener for one both use packets. *)
Example ends_match_packets :
  let rng := fun h : HeaderMap => map_to_list h in
  let cfg := mkDialerConfig (lit "d") (lit "dtls") ∅ None None in
  exists l, newClassicListener 64 rng (fun _ => Ret tt) None (lit "dtls") 0 DefaultListenerConfig = Ret l /\
    underlayFactory l = newDatagramUnderlay 64 rng /\ datagrams (NewClassicDialer cfg) = true.
Proof. eexists. split; [reflexivity|]. split; reflexivity. Qed.
