(* ===== verification/TraceText.v ===== *)
(** * The text of a trace (src/trace.go, src/trace_decode.go)

    How a traced message is described in the log: the line of [msgToString] and
    the text of its metadata, which is decoded from JSON.  JSON decoding, the
    text of a number and Go's marks for values that do not fit a verb are
    parameters.

    Theorems: the text does not depend on the order in which Go ranges over the
    metadata, and it names every field but the two fixed ones once, in order. *)

From S2P Require Import Prelude Headers DialPolicy Trace.
From stdpp Require Import sorting.
#[local] Open Scope Z_scope.

(** ** Formatting *)

(** Columns are counted in runes: a continuation byte of UTF-8 adds none. *)
Definition is_continuation (b : byte) : bool := bool_decide (128 <= b2Z b < 192).

Definition rune_count (s : gostring) : nat := length (List.filter (fun b => negb (is_continuation b)) s).

Definition spaces (n : nat) : gostring := repeat (Z2b 32) n.

(** ["%-ns"] and ["%ns"] *)
Definition pad_right (n : nat) (s : gostring) : gostring := s ++ spaces (n - rune_count s).
Definition pad_left (n : nat) (s : gostring) : gostring := spaces (n - rune_count s) ++ s.

(** ["%d"] of a signed number. *)
Definition signed (n : Z) : gostring := if decide (n < 0) then lit "-" ++ decimal (- n) else decimal n.

(** ** Order of strings *)

Fixpoint string_leb (a b : gostring) : bool :=
  match a, b with
  | [], _ => true
  | _ :: _, [] => false
  | x :: a', y :: b' =>
      bool_decide (b2Z x < b2Z y) || (bool_decide (b2Z x = b2Z y) && string_leb a' b')
  end.

Definition string_le (a b : gostring) : Prop := string_leb a b = true.

#[global] Instance string_le_dec : RelDecision string_le.
Proof. intros a b. unfold string_le. apply _. Defined.

(** [sort.Strings] *)
Definition sort_Strings (keys : list gostring) : list gostring := merge_sort string_le keys.

(** ** The text of metadata *)

Section Text.
(** A JSON number, and its text under ["%0.0f"]. *)
Context {Number : Type} (format_number : Number -> gostring).

Inductive json_value : Type :=
  | JString (s : gostring)
  | JNumber (n : Number)
  | JBool (b : bool)
  | JOther (typeName : gostring).        (* as ["%s"] prints [reflect.TypeOf] *)

(** ["%s"] of a value that is not a string, or missing. *)
Context (bad_verb : option json_value -> gostring).

Definition verb_s (v : option json_value) : gostring :=
  match v with Some (JString s) => s | _ => bad_verb v end.

Definition field_text (v : json_value) : gostring :=
  match v with
  | JString s => s
  | JNumber n => format_number n
  | JBool b => lit (if b then "true" else "false")
  | JOther t => lit "<" ++ t ++ lit ">"
  end.

Context (rng : gmap gostring json_value -> list (gostring * json_value))
  (json_Unmarshal : bytes -> outcome (gmap gostring json_value)).

(** The keys in the order of the range, without the two fixed ones. *)
Definition other_keys (meta : gmap gostring json_value) : list gostring :=
  filter (fun k => k ≠ DecoderFieldName /\ k ≠ MessageFieldName) (rng meta).*1.

Definition field (meta : gmap gostring json_value) (k : gostring) : gostring :=
  k ++ lit "=[" ++ match meta !! k with Some v => field_text v | None => [] end ++ lit "]".

(** The loop over the sorted keys. *)
Fixpoint fields (meta : gmap gostring json_value) (first : bool) (keys : list gostring) : gostring :=
  match keys with
  | [] => []
  | k :: keys => (if first then [] else lit " ") ++ field meta k ++ fields meta false keys
  end.

Definition format_meta (meta : gmap gostring json_value) : gostring :=
  let out := pad_right 24 (pad_right 8 (verb_s (meta !! DecoderFieldName)) ++ lit " " ++
                           verb_s (meta !! MessageFieldName)) in
  if decide (2 < Z.of_nat (base.size meta))
  then out ++ lit " {" ++ fields meta true (sort_Strings (other_keys meta)) ++ lit "}" else out.

(** It panics if the metadata is not JSON. *)
Definition decodeTraceAndFormat (decode : bytes) : outcome gostring :=
  if decide (0 < len decode) then
    match json_Unmarshal decode with
    | Ret meta => Ret (format_meta meta)
    | Err _ => Panic
    | Panic => Panic
    | OutOfFuel => OutOfFuel
    end
  else Ret [].

Definition msgToString (t : ChannelMessage) : outcome gostring :=
  let flow := if cm_IsRx t then lit "<-" else lit "->" in
  let replyFor := if decide (cm_ReplyFor t ≠ -1) then lit ">" ++ signed (cm_ReplyFor t) else [] in
  text ← decodeTraceAndFormat (cm_Decode t);
  Ret (pad_right 16 (cm_Identity t) ++ lit " " ++ pad_left 8 (cm_Channel t) ++ lit " " ++ flow ++ lit " #" ++
       pad_right 5 (signed (cm_Sequence t)) ++ lit " " ++ pad_left 5 replyFor ++ lit " | " ++ text ++ [Z2b 10]).

End Text.

(** ** Lemmas: the order *)

#[global] Instance string_le_total : Total string_le.
Proof.
  intros a. unfold string_le. induction a as [|x a IH]; intros [|y b]; cbn; [by left | by left | by right |].
  destruct (Z.lt_trichotomy (b2Z x) (b2Z y)) as [H|[H|H]].
  - left. by rewrite bool_decide_eq_true_2.
  - rewrite !(bool_decide_eq_true_2 (_ = _)) by done.
    destruct (IH b) as [E|E]; rewrite E; [left | right]; by rewrite orb_true_r.
  - right. by rewrite bool_decide_eq_true_2.
Qed.

#[global] Instance string_le_trans : Transitive string_le.
Proof.
  intros a. unfold string_le. induction a as [|x a IH]; intros [|y b] [|z c]; cbn; try done.
  rewrite !orb_true_iff, !andb_true_iff, !bool_decide_eq_true. intros [H1|[H1 E1]] [H2|[H2 E2]].
  - left. lia.
  - left. lia.
  - left. lia.
  - right. split; [lia|]. by eapply IH.
Qed.

#[global] Instance string_le_antisym : AntiSymm (=) string_le.
Proof.
  intros a. unfold string_le. induction a as [|x a IH]; intros [|y b]; cbn; try done.
  rewrite !orb_true_iff, !andb_true_iff, !bool_decide_eq_true. intros [H1|[H1 E1]] [H2|[H2 E2]]; try lia.
  f_equal; [by rewrite <- (Z2b_b2Z x), <- (Z2b_b2Z y), H1 | by apply IH].
Qed.

Lemma sort_Strings_unique keys keys' : keys ≡ₚ keys' -> sort_Strings keys = sort_Strings keys'.
Proof.
  intros Hp. unfold sort_Strings. apply (Sorted_unique string_le); [apply Sorted_merge_sort, _ | apply Sorted_merge_sort, _ |].
  by rewrite !merge_sort_Permutation.
Qed.

(** ** Properties *)

(** The text of metadata is determined.  It does not depend on the order in
    which Go ranges over the map, and the keys that it lists are those of the
    map but the two fixed ones, each once and in order. *)
Theorem trace_text_determined {Number} (format_number : Number -> gostring) (bad_verb : option json_value -> gostring)
    (rng rng' : gmap gostring json_value -> list (gostring * json_value)) `{!RangeOrder rng, !RangeOrder rng'}
    (json_Unmarshal : bytes -> outcome (gmap gostring json_value)) (t : ChannelMessage)
    (meta : gmap gostring json_value) :
  msgToString format_number bad_verb rng json_Unmarshal t = msgToString format_number bad_verb rng' json_Unmarshal t /\
  let listed := sort_Strings (other_keys rng meta) in
  Sorted string_le listed /\ NoDup listed /\
  forall k, k ∈ listed <-> is_Some (meta !! k) /\ k ≠ DecoderFieldName /\ k ≠ MessageFieldName.
Proof.
  assert (forall meta, other_keys rng meta ≡ₚ other_keys rng' meta) as Hp.
  { intros m. unfold other_keys. apply filter_Permutation, fmap_Permutation. by rewrite (range_perm (rng := rng)), (range_perm (rng := rng')). }
  split.
  - assert (forall m, format_meta format_number bad_verb rng m = format_meta format_number bad_verb rng' m) as Hf.
    { intros m. unfold format_meta. by rewrite (sort_Strings_unique _ _ (Hp m)). }
    unfold msgToString, decodeTraceAndFormat. destruct (decide (0 < len (cm_Decode t))); [|done].
    destruct (json_Unmarshal (cm_Decode t)) as [m| | |]; [|done..]. by rewrite Hf.
  - assert (sort_Strings (other_keys rng meta) ≡ₚ other_keys rng meta) as Hs by apply merge_sort_Permutation.
    split; [apply Sorted_merge_sort, _|]. split.
    + rewrite Hs. unfold other_keys. apply NoDup_filter, range_NoDup. done.
    + intros k. rewrite Hs. unfold other_keys. rewrite list_elem_of_filter, (range_perm (rng := rng)), list_elem_of_fmap.
      split; [intros (? & [k' v] & -> & Hv%elem_of_map_to_list); split; [by exists v | done]|].
      intros ([v Hv] & ?). split; [done|]. exists (k, v). split; [done|]. by apply elem_of_map_to_list.
Qed.
