(* ===== verification/Server.v ===== *)
(** * A listener with its channels (src/multi_listener.go, src/impl.go)

    [MultiListener] knows channels by number and lets the outside close them;
    [ChannelImpl] has one channel by itself.  This file puts the two together:
    the factory of the listener, which is the application's, is taken to make
    channels with [NewChannel], attaching an
    underlay is [AcceptUnderlay] of the channel that was found, and the listener
    sees a channel as closed exactly when it is.  The accepts of all underlays,
    the loops of all channels and the close callbacks interleave freely.

    Theorems: every underlay a channel holds was routed to it, has the id and
    the secret of its group, and no underlay gets into two channels; an
    underlay that the listener has handed over is held by a channel of its own
    group or closed; and a further connection of a group that is dialed the way
    the dial policy does joins the channel its first connection made. *)

From S2P Require Import Prelude Headers Wire Handshake DialPolicy Underlays Waiters MultiListener ChannelImpl Link Groups Facade.

Abbreviation lworld := MultiListener.world.
Abbreviation lthread := MultiListener.thread.

(** ** Data *)

(** The listener, and the channels the factory has made; a channel is known by
    its place. *)
Record server : Type := mkServer { listening : lworld; store : list channelImpl }.

(** An underlay comes in; an accept goes on, with what the outside answers and,
    for the factory, what it makes the channel with; a goroutine of a channel
    takes a step; a close callback starts and ends. *)
Inductive server_action : Type :=
  | Incoming (u : Underlay)
  | Proceed (i : nat) (ok : bool) (a : NewChannelArgs)
  | InChannel (ch : nat) (s : step)
  | CallbackStarts (r : nat)
  | CallbackEnds (j : nat).

Section Server.
Context (closeErr : nat -> option error) (rng : gmap Z (waiter receiver) -> list (Z * waiter receiver)).

(** ** Operations *)

(** The application's factory is one that makes a channel with [NewChannel] for
    the underlay it is given, with any other arguments. *)
Definition with_underlay (u : Underlay) (a : NewChannelArgs) : NewChannelArgs :=
  mkArgs (argSenders a) (argMessageSource a) (Some u) (argDialPolicy a) (argConstraints a) (argMinTotal a)
    (argValidTypes a) (argListeners a) (argBinder a).

Definition factory (a : NewChannelArgs) (u : Underlay) : option channelImpl :=
  match NewChannel closeErr (with_underlay u a) with (Ret _, Some c) => Some c | _ => None end.

Definition on_listener (w : lworld) (act : action) (st : list channelImpl) : option server :=
  match exec w act with Some (Ret w') => Some (mkServer w' st) | _ => None end.

(** A step of [MultiListener.AcceptUnderlay], with its calls into channels. *)
Definition proceed (i : nat) (ok : bool) (a : NewChannelArgs) (sv : server) : option server :=
  let w := listening sv in
  th ← threads w !! i;
  match at_pc th with
  | PCreating _ _ =>
      match (if ok then factory a (MultiListener.underlay th) else None) with
      | Some c => on_listener w (Run i (mkAnswer true (length (store sv)))) (store sv ++ [c])
      | None => on_listener w (Run i (mkAnswer false 0)) (store sv)
      end
  | PAttach ch =>
      on_listener w (Run i (mkAnswer ok 0))
        (alter (fun c => (AcceptUnderlay (MultiListener.underlay th) c).2) ch (store sv))
  | _ => on_listener w (Run i (mkAnswer ok 0)) (store sv)
  end.

(** The steps of a channel's goroutines: underlays come from the listener, and
    [closeUnderlay] removes an underlay after it has closed it. *)
Definition allowed (c : channelImpl) (s : step) : bool :=
  match s with
  | SAccept _ => false
  | SRemove u _ => bool_decide (ptr u ∈ closedUnderlays c)
  | _ => true
  end.

Definition in_channel (ch : nat) (s : step) (sv : server) : option server :=
  c ← store sv !! ch;
  if allowed c s then
    let c' := exec_step closeErr rng c s in
    let st := <[ch := c']> (store sv) in
    if isClosed c' then on_listener (listening sv) (CloseChannel ch) st else Some (mkServer (listening sv) st)
  else None.

Definition exec_server (sv : server) (act : server_action) : option server :=
  match act with
  | Incoming u => on_listener (listening sv) (Arrive u) (store sv)
  | Proceed i ok a => proceed i ok a sv
  | InChannel ch s => in_channel ch s sv
  | CallbackStarts r => on_listener (listening sv) (StartCallback r) (store sv)
  | CallbackEnds j => on_listener (listening sv) (EndCallback j) (store sv)
  end.

Fixpoint exec_servers (sv : server) (acts : list server_action) : option server :=
  match acts with
  | [] => Some sv
  | act :: acts => sv' ← exec_server sv act; exec_servers sv' acts
  end.

Definition action_ok (act : server_action) : Prop :=
  match act with Proceed _ _ a => binder_ok (argBinder a) | _ => True end.

Inductive serving (adm : bool) : server -> Prop :=
  | serving_start l : NewMultiListenerWithConfig true true adm = Ret l -> serving adm (mkServer (start l) [])
  | serving_step sv act sv' : serving adm sv -> action_ok act -> exec_server sv act = Some sv' -> serving adm sv'.

(** ** Specifications *)

(** The channel an accept has given its underlay to. *)
Definition joined (es : list MultiListener.event) : list nat :=
  omap (fun e => match e with EvAttach ch | EvCreated ch _ => Some ch | _ => None end) es.

Record server_inv (adm : bool) (sv : server) : Prop := {
  si_listener : invariant adm (listening sv);
  si_channels ch c : store sv !! ch = Some c ->
    channel_inv c /\ (isClosed c = true <-> ch ∈ closedChs (sh (listening sv)));
  si_closed ch : ch ∈ closedChs (sh (listening sv)) -> (ch < length (store sv))%nat;
  si_regs id ch r : made_for (sh (listening sv)) id ch r ->
    exists c, store sv !! ch = Some c /\ channelId (cfg c) = id;
  si_members ch c u : store sv !! ch = Some c -> u ∈ entries (underlays c) ->
    exists i th, threads (listening sv) !! i = Some th /\ MultiListener.underlay th = u /\ ch ∈ joined (did th);
  si_joined i th ch : threads (listening sv) !! i = Some th -> ch ∈ joined (did th) ->
    exists c, store sv !! ch = Some c /\
      (MultiListener.underlay th ∈ entries (underlays c) \/ ptr (MultiListener.underlay th) ∈ closedUnderlays c);
  si_created i th ch r : threads (listening sv) !! i = Some th -> EvCreated ch r ∈ did th ->
    exists c, store sv !! ch = Some c /\ groupSecret (cfg c) = secret_of (MultiListener.underlay th)
}.

(** ** Lemmas: channels *)

(** A channel moves on: what it held it still holds, or has closed. *)
Record settles (c c' : channelImpl) : Prop := {
  se_cfg : cfg c' = cfg c;
  se_closed : closedUnderlays c ⊆ closedUnderlays c';
  se_held u : u ∈ entries (underlays c) -> u ∈ entries (underlays c') \/ ptr u ∈ closedUnderlays c'
}.

Lemma settles_refl c : settles c c.
Proof using Type. split; auto. Qed.

Lemma same_entries_settles c c' : cfg c' = cfg c -> underlays c' = underlays c ->
  closedUnderlays c ⊆ closedUnderlays c' -> settles c c'.
Proof using Type. intros E1 E2 Hs. split; [done | done|]. intros u Hu. left. by rewrite E2. Qed.

Lemma removed_entry x u es : u ∈ es -> u ∈ (remove_entry x es).2 \/ ptr u = ptr x.
Proof using Type.
  induction es as [|e es IH]; [by intros ?%elem_of_nil|]. cbn [remove_entry]. intros [->|H]%elem_of_cons.
  - destruct (decide (ptr e = ptr x)) as [E|E]; [by right|]. destruct (remove_entry x es). left. by left.
  - destruct (decide (ptr e = ptr x)) as [E|E]; [by left|]. destruct (IH H) as [H'|H']; [|by right].
    destruct (remove_entry x es). left. by right.
Qed.

Lemma remaining_entry x u es : u ∈ (remove_entry x es).2 -> u ∈ es.
Proof using Type.
  induction es as [|e es IH]; cbn [remove_entry]; [done|].
  destruct (decide (ptr e = ptr x)); [by right|]. destruct (remove_entry x es) as [b rest]. cbn in *.
  intros [->|H]%elem_of_cons; [by left | right; by apply IH].
Qed.

Lemma exec_step_settles c s : allowed c s = true ->
  let c' := exec_step closeErr rng c s in
  settles c c' /\ forall u, u ∈ entries (underlays c') -> u ∈ entries (underlays c).
Proof using Type.
  intros Ha. destruct s as [u| |u|u now|u|m now|env s wt now]; cbn [exec_step]; [done|..].
  - destruct (Close_tidy closeErr c) as (_ & T2 & T3 & T4 & _). rewrite T2. split; [|done]. by apply same_entries_settles.
  - split; [|done]. apply same_entries_settles; [done | done | apply union_subseteq_r].
  - apply bool_decide_eq_true in Ha. unfold remove_underlay, Remove.
    pose proof (fun x => removed_entry u x (entries (underlays c))) as Hr.
    pose proof (fun x => remaining_entry u x (entries (underlays c))) as Hk.
    destruct (remove_entry u (entries (underlays c))) as [b es].
    match goal with |- context [notify _ ?ns now ?x] => destruct (notify_tidy closeErr ns now x) as (c' & -> & T) end.
    destruct T as (_ & T2 & T3 & T4 & _). cbn in *. rewrite T2. cbn. split; [|done]. split; [done | done|].
    intros x [H|H]%Hr; [left; by rewrite T2 | right; rewrite H; by apply T4].
  - unfold repair_fallback. repeat case_match; (split; [by apply same_entries_settles | done]).
  - destruct (rx_core rng m now c) as (E1 & E2 & _ & _ & E5). rewrite E2. split; [|done].
    apply same_entries_settles; [done | done | by rewrite E5].
  - destruct (tx_core env s wt now c) as (E1 & E2 & _ & _ & E5). rewrite E2. split; [|done].
    apply same_entries_settles; [done | done | by rewrite E5].
Qed.

Lemma AcceptUnderlay_settles u c :
  let c' := (AcceptUnderlay u c).2 in
  settles c c' /\ isClosed c' = isClosed c /\ (forall x, x ∈ entries (underlays c') -> x ∈ entries (underlays c) \/ x = u) /\
  (u ∈ entries (underlays c') \/ ptr u ∈ closedUnderlays c').
Proof using Type.
  assert (forall c', c' = close_underlay u c -> settles c c' /\ isClosed c' = isClosed c /\
    (forall x, x ∈ entries (underlays c') -> x ∈ entries (underlays c) \/ x = u) /\
    (u ∈ entries (underlays c') \/ ptr u ∈ closedUnderlays c')) as Hno.
  { intros c' ->. split; [apply same_entries_settles; [done | done | apply union_subseteq_r]|]. split; [done|]. split; [by left|].
    right. by apply elem_of_union_l, elem_of_singleton. }
  unfold AcceptUnderlay. destruct (negb (isMultiUnderlayCapable c)); [by apply Hno|].
  case_decide; [by apply Hno|]. destruct (isClosed c) eqn:Hc; [by apply Hno|].
  unfold mbind, ST_bind, add_underlay, startMultiplex, modify. cbn. split.
  - split; [done | done|]. intros x Hx. left. cbn. apply elem_of_app. by left.
  - split; [done|]. split; [|left; apply elem_of_app; right; by left].
    intros x [Hx|Hx%list_elem_of_singleton]%elem_of_app; auto.
Qed.

Lemma factory_made a u c : binder_ok (argBinder a) -> factory a u = Some c ->
  channel_inv c /\ isClosed c = false /\ entries (underlays c) = [u] /\ channelId (cfg c) = underlay_ConnectionId u /\
  groupSecret (cfg c) = secret_of u.
Proof using Type.
  intros Hb. unfold factory. destruct (NewChannel closeErr (with_underlay u a)) as [[[]| | |] [c'|]] eqn:E; try done.
  intros [= ->]. assert (channel_inv c) as Hi by (by eapply NewChannel_inv).
  pose proof (NewChannel_cfg _ _ _ _ E Hb eq_refl) as Ec. split; [done|].
  unfold NewChannel in E. cbn [argUnderlay with_underlay argSenders argMessageSource argBinder] in E.
  destruct (argSenders a), (argMessageSource a); try done. cbn [negb] in E. case_match; [done|].
  destruct (Hb (fresh_channel (with_underlay u a) u)) as (_ & E2 & E3 & _).
  destruct (bind (argBinder a) (fresh_channel (with_underlay u a) u)) as [[[]|e| |] c1];
    [|by destruct (ignore (Close closeErr) c1)|done|done].
  unfold mbind, ST_bind, add_underlay, startMultiplex, modify in E. cbn -[fresh_channel] in E, E2, E3.
  injection E as <-. cbn -[fresh_channel] in *. split; [done|]. rewrite E2, fresh_entries. by rewrite Ec.
Qed.

(** ** Lemmas: accepts *)

(** The channel that the next step of an accept gives its underlay to. *)
Definition joining (a : answer) (p : pc) : list nat :=
  match p with
  | PAttach ch => [ch]
  | PCreating _ _ => if ok a then [newCh a] else []
  | _ => []
  end.

Lemma joined_app es es' : joined (es ++ es') = joined es ++ joined es'.
Proof using Type. apply omap_app. Qed.

Lemma reserve_same first id s : (reserve first id s).2 = s \/
  regs (reserve first id s).2 = regs s /\ closedChs (reserve first id s).2 = closedChs s.
Proof using Type. unfold reserve. destruct (createNotifiers (ml s) !! id); [by left|]. destruct first; [by right | by left]. Qed.

Lemma lookup_same first id s f s' : lookup_group first id s = Some (f, s') -> regs s' = regs s /\ closedChs s' = closedChs s.
Proof using Type.
  assert (forall s1, regs s1 = regs s -> closedChs s1 = closedChs s -> reserve first id s1 = (f, s') ->
    regs s' = regs s /\ closedChs s' = closedChs s) as Hr.
  { intros s1 <- <- E. destruct (reserve_same first id s1) as [H|H]; rewrite E in H; cbn in H; [by subst | done]. }
  unfold lookup_group. destruct (channels (ml s) !! id) as [r|]; [|intros [= E]; by apply (Hr s)].
  destruct (regs s !! r) as [reg|]; [|done]. destruct (live s reg); [by intros [= _ <-] | | done].
  intros [= E]. by refine (Hr _ _ _ E).
Qed.

Lemma run_effect a s th s' th' : run_thread a s th = Next s' th' ->
  closedChs s' = closedChs s /\ MultiListener.underlay th' = MultiListener.underlay th /\
  joined (did th') = joined (did th) ++ joining a (at_pc th) /\
  forall id ch r, made_for s' id ch r -> made_for s id ch r \/
    exists n reg, at_pc th = PCreating n r /\ ch ∈ joining a (at_pc th) /\ regs s !! r = Some reg /\ reg_id reg = id.
Proof using Type.
  assert (forall p es, did (goto th p es) = did th ++ es) as Hd by done.
  assert (forall s'', regs s'' = regs s -> forall id ch r, made_for s'' id ch r -> made_for s id ch r) as Hm
    by (unfold made_for; by intros s'' ->).
  unfold run_thread. destruct (at_pc th) as [| | | |n|n|[n|ch]|ch|n|n r|n r ch|n next| | |] eqn:Hp.
  all: try (intros E; repeat case_match; simplify_eq; rewrite ?Hd, ?joined_app; unfold joining; cbn;
    rewrite ?app_nil_r; split_and!; eauto; done).
  - destruct (lookup_group _ _ s) as [[f s1]|] eqn:E; [|done]. apply lookup_same in E as [E1 E2].
    destruct f; intros [= <- <-]; rewrite Hd, joined_app; cbn; rewrite ?app_nil_r; split_and!; eauto.
  - intros [= <- <-]. rewrite Hd, joined_app. cbn. rewrite !app_nil_r. split_and!; [done..|].
    intros id ch r (reg & [Hr|[_ Hr]]%lookup_app_Some & Hid & Hch); [left; by exists reg|].
    apply list_lookup_singleton_Some in Hr as [_ <-]. done.
  - destruct (ok a) eqn:Ea; intros [= <- <-]; rewrite Hd, joined_app; unfold joining; rewrite Ea; cbn;
      rewrite ?app_nil_r; split_and!; eauto.
    intros id ch r' (reg & Hr & Hid & Hch). destruct (decide (r' = r)) as [->|Hne].
    + cbn in Hr. rewrite list_lookup_alter_eq in Hr. destruct (regs s !! r) as [reg0|] eqn:Er; [|done].
      injection Hr as <-. cbn in Hid, Hch. injection Hch as <-. right. exists n, reg0. split_and!; try done. by left.
    + cbn in Hr. rewrite list_lookup_alter_ne in Hr by done. left. by exists reg.
  - unfold publish. destruct (regs s !! r) as [reg|]; cbn; [|done].
    destruct (_ || _); intros [= <- <-]; rewrite Hd, joined_app; cbn; rewrite ?app_nil_r; split_and!; eauto.
  - unfold releaseReservation. destruct (notifiers s !! n) as [[|k]|]; try done.
    intros [= <- <-]. rewrite Hd, joined_app. cbn. rewrite ?app_nil_r. split_and!; eauto.
Qed.

Lemma run_created a s th s' th' ch r : run_thread a s th = Next s' th' -> EvCreated ch r ∈ did th' ->
  EvCreated ch r ∈ did th \/ exists n, at_pc th = PCreating n r /\ ch ∈ joining a (at_pc th).
Proof using Type.
  intros E. assert (forall p es, did (goto th p es) = did th ++ es) as Hd by done.
  revert E. unfold run_thread. destruct (at_pc th) as [| | | |n|n|[n|ch']|ch'|n|n r'|n r' ch'|n next| | |];
    intros E; repeat case_match; simplify_eq; rewrite Hd; intros [HL|HL]%elem_of_app; try (by left);
    repeat match goal with H : _ ∈ _ :: _ |- _ => apply elem_of_cons in H as [H|H] | H : _ ∈ [] |- _ => by apply elem_of_nil in H end;
    simplify_eq.
  right. exists n. split; [done|]. cbn. match goal with H : ok a = true |- _ => rewrite H end. by left.
Qed.

(** An accept that has not given its underlay away has not joined before. *)
Lemma joins_once adm s th : thread_ok adm s th ->
  (length (joined (did th)) <= 1)%nat /\ (forall ch, ch ∈ joined (did th) -> exists r, made_for s (chId th) ch r) /\
  (joined (did th) ≠ [] -> isGrouped (MultiListener.underlay th) = true).
Proof using Type.
  intros Hok. assert (forall ch, ch ∈ joined (did th) -> exists r, made_for s (chId th) ch r) as Hj.
  { intros ch (e & He & Hc)%list_elem_of_omap. destruct e; try done; injection Hc as <-.
    - exists r. by apply (ok_created _ _ _ Hok).
    - apply (ok_attach _ _ _ Hok). auto. }
  assert (forall es, did_at adm (MultiListener.underlay th) (at_pc th) es ->
    (length (joined es) <= 1)%nat /\ (joined es ≠ [] -> isGrouped (MultiListener.underlay th) = true)) as Hd.
  { intros es. destruct (at_pc th) as [| | | |n|n|[n|ch]|ch|n|n r|n r ch|n []| | |]; cbn; intros Hd;
      repeat match goal with H : ending _ _ _ |- _ => destruct H | H : _ /\ _ |- _ => destruct H | H : _ \/ _ |- _ => destruct H | H : exists _, _ |- _ => destruct H end;
      subst; unfold admitted; try destruct adm; cbn; (split; [lia | done]). }
  destruct (Hd _ (ok_did _ _ _ Hok)). done.
Qed.

(** ** Lemmas: the invariant *)

(** What a step has to do with the channels for the invariant to last. *)
Lemma server_inv_move adm sv w' st' :
  server_inv adm sv -> invariant adm w' ->
  (forall ch c, store sv !! ch = Some c -> exists c', st' !! ch = Some c' /\ settles c c') ->
  (forall ch c', st' !! ch = Some c' -> channel_inv c' /\ (isClosed c' = true <-> ch ∈ closedChs (sh w')) /\
     forall u, u ∈ entries (underlays c') -> (exists c, store sv !! ch = Some c /\ u ∈ entries (underlays c)) \/
       exists i th', threads w' !! i = Some th' /\ MultiListener.underlay th' = u /\ ch ∈ joined (did th')) ->
  (forall ch, ch ∈ closedChs (sh w') -> (ch < length st')%nat) ->
  (forall id ch r, made_for (sh w') id ch r -> made_for (sh (listening sv)) id ch r \/
     exists c', st' !! ch = Some c' /\ channelId (cfg c') = id) ->
  (forall i th ch, threads (listening sv) !! i = Some th -> ch ∈ joined (did th) ->
     exists th', threads w' !! i = Some th' /\ MultiListener.underlay th' = MultiListener.underlay th /\ ch ∈ joined (did th')) ->
  (forall i th' ch, threads w' !! i = Some th' -> ch ∈ joined (did th') ->
     (exists th, threads (listening sv) !! i = Some th /\ MultiListener.underlay th' = MultiListener.underlay th /\
        ch ∈ joined (did th)) \/
     exists c', st' !! ch = Some c' /\ (MultiListener.underlay th' ∈ entries (underlays c') \/
       ptr (MultiListener.underlay th') ∈ closedUnderlays c')) ->
  (forall i th' ch r, threads w' !! i = Some th' -> EvCreated ch r ∈ did th' ->
     (exists th, threads (listening sv) !! i = Some th /\ MultiListener.underlay th' = MultiListener.underlay th /\
        EvCreated ch r ∈ did th) \/
     exists c', st' !! ch = Some c' /\ groupSecret (cfg c') = secret_of (MultiListener.underlay th')) ->
  server_inv adm (mkServer w' st').
Proof using Type.
  intros [I1 I2 I3 I4 I5 I6 I7] Hw Hs Hc Hl Hr HT1 HT2 HT3. split; cbn; [done | | done | | | |].
  - intros ch c' E. by destruct (Hc ch c' E) as (? & ? & _).
  - intros id ch r [H|H]%Hr; [|done]. destruct (I4 _ _ _ H) as (c & E & Hid). destruct (Hs _ _ E) as (c' & E' & [Ec _ _]).
    exists c'. split; [done|]. by rewrite Ec.
  - intros ch c' u E Hu. destruct (Hc ch c' E) as (_ & _ & Hm). destruct (Hm u Hu) as [(c & E0 & Hu0)|H]; [|done].
    destruct (I5 _ _ _ E0 Hu0) as (i & th & Ei & <- & Hj). destruct (HT1 _ _ _ Ei Hj) as (th' & Ei' & Eu & Hj'). eauto.
  - intros i th' ch Ei Hj. destruct (HT2 _ _ _ Ei Hj) as [(th & Ei0 & Eu & Hj0)|H]; [|done].
    destruct (I6 _ _ _ Ei0 Hj0) as (c & E & Hin). destruct (Hs _ _ E) as (c' & E' & [_ S2 S3]). exists c'.
    split; [done|]. rewrite Eu. destruct Hin as [Hin|Hin]; [by apply S3 | right; by apply S2].
  - intros i th' ch r Ei Hj. destruct (HT3 _ _ _ _ Ei Hj) as [(th & Ei0 & Eu & Hj0)|H]; [|done].
    destruct (I7 _ _ _ _ Ei0 Hj0) as (c & E & Hsec). destruct (Hs _ _ E) as (c' & E' & [S1 _ _]). exists c'.
    split; [done|]. by rewrite S1, Eu.
Qed.

(** A step of the listener that touches no channel. *)
Lemma server_inv_outside adm sv act sv' :
  server_inv adm sv -> on_listener (listening sv) act (store sv) = Some sv' ->
  match act with Arrive _ | StartCallback _ | EndCallback _ => True | _ => False end -> server_inv adm sv'.
Proof using Type.
  intros Hi E Hact. unfold on_listener in E. destruct (exec (listening sv) act) as [[w'| | |]|] eqn:Ex; try done.
  injection E as <-. destruct (exec_inv _ _ _ _ (si_listener _ _ Hi) Ex) as [He Hw].
  assert (closedChs (sh w') = closedChs (sh (listening sv)) /\
    (forall id ch r, made_for (sh w') id ch r -> made_for (sh (listening sv)) id ch r) /\
    exists new, threads w' = threads (listening sv) ++ new /\ forall th, th ∈ new -> did th = [])
    as (E1 & E2 & new & E3 & E4).
  { destruct act as [u|i a|ch|r|j]; cbn in Ex; try done.
    - injection Ex as <-. split; [done|]. split; [done|]. eexists. split; [reflexivity|].
      by intros th ->%list_elem_of_singleton.
    - destruct (regs (sh (listening sv)) !! r) as [reg|] eqn:Er; [|done]. injection Ex as <-. split; [done|]. split.
      + intros id ch r' (reg' & Hr & Hid & Hch). cbn [sh] in Hr. rewrite mark_closed_regs in Hr.
        destruct (regs (sh (listening sv)) !! r') as [reg0|] eqn:Er'; [|done]. injection Hr as <-.
        exists reg0. split; [done|]. destruct (decide (r' = r)); done.
      + exists []. cbn. rewrite app_nil_r. split; [done|]. by intros th ?%elem_of_nil.
    - destruct (callbacks (listening sv) !! j) as [[id r]|]; [|done]. injection Ex as <-.
      unfold closeRegistration. cbn. destruct (decide _); (split; [done|]; split; [done|]; exists []; cbn; rewrite app_nil_r;
        split; [done|]; by intros th ?%elem_of_nil). }
  apply (server_inv_move adm sv); [done | done | eauto using settles_refl | | | eauto | | |].
  - intros ch c E. rewrite E1. destruct (si_channels _ _ Hi ch c E). split_and!; eauto.
  - rewrite E1. apply Hi.
  - intros i th ch Ei Hj. exists th. rewrite E3. split; [by apply lookup_app_l_Some | done].
  - intros i th' ch Ei Hj. rewrite E3 in Ei. apply lookup_app_Some in Ei as [Ei|[_ Ei]]; [left; eauto|].
    apply list_elem_of_lookup_2, E4 in Ei. rewrite Ei in Hj. by apply elem_of_nil in Hj.
  - intros i th' ch r Ei Hj. rewrite E3 in Ei. apply lookup_app_Some in Ei as [Ei|[_ Ei]]; [left; eauto|].
    apply list_elem_of_lookup_2, E4 in Ei. rewrite Ei in Hj. by apply elem_of_nil in Hj.
Qed.

(** A step of an accept, with what it does to the channels. *)
Lemma server_inv_run adm sv i th a st' sv' :
  server_inv adm sv -> threads (listening sv) !! i = Some th ->
  on_listener (listening sv) (Run i a) st' = Some sv' ->
  (forall ch c, store sv !! ch = Some c -> exists c', st' !! ch = Some c' /\ settles c c') ->
  (forall ch c', st' !! ch = Some c' -> channel_inv c' /\
     (isClosed c' = true <-> ch ∈ closedChs (sh (listening sv))) /\
     forall u, u ∈ entries (underlays c') -> (exists c, store sv !! ch = Some c /\ u ∈ entries (underlays c)) \/
       u = MultiListener.underlay th /\ ch ∈ joining a (at_pc th)) ->
  (forall ch, ch ∈ joining a (at_pc th) -> exists c', st' !! ch = Some c' /\ channelId (cfg c') = chId th /\
     (MultiListener.underlay th ∈ entries (underlays c') \/ ptr (MultiListener.underlay th) ∈ closedUnderlays c') /\
     forall n r, at_pc th = PCreating n r -> groupSecret (cfg c') = secret_of (MultiListener.underlay th)) ->
  server_inv adm sv'.
Proof using Type.
  intros Hi Ei E Hs Hc Hj. unfold on_listener in E. cbn in E. rewrite Ei in E. cbn in E.
  destruct (run_thread a (sh (listening sv)) th) as [| |s' th'] eqn:Er; try done. injection E as <-.
  destruct (run_inv adm _ _ _ _ _ _ (si_listener _ _ Hi) Ei Er) as [_ Hw].
  destruct (run_effect _ _ _ _ _ Er) as (E1 & E2 & E3 & E4).
  assert (<[i := th']> (threads (listening sv)) !! i = Some th') as Ei'
    by (apply list_lookup_insert_eq; by eapply lookup_lt_Some).
  apply (server_inv_move adm sv); [done | done | done | | | | | |]; cbn [sh threads].
  - intros ch c' E. rewrite E1. destruct (Hc ch c' E) as (? & ? & Hm). split_and!; try done.
    intros u Hu. destruct (Hm u Hu) as [Hold|[-> Hin]]; [by left|]. right. exists i, th'. split_and!; [done | done|]. rewrite E3. apply elem_of_app. by right.
  - rewrite E1. intros ch Hch. apply (si_closed _ _ Hi) in Hch as [c Hch]%lookup_lt_is_Some.
    destruct (Hs _ _ Hch) as (c' & Hc' & _). by eapply lookup_lt_Some.
  - intros id ch r [H|(n & reg & Hp & Hin & Hr & Hid)]%E4; [by left|]. right.
    destruct (Hj ch Hin) as (c' & Ec & Hcid & _). exists c'. split; [done|]. rewrite Hcid, <- Hid.
    destruct (ok_creating _ _ _ (inv_threads _ _ (si_listener _ _ Hi) i th Ei) n r Hp) as (reg' & Hr' & Hid' & _). congruence.
  - intros j x ch Ej Hx. destruct (decide (j = i)) as [->|Hne].
    + exists th'. assert (x = th) as -> by congruence. split_and!; [done | done|]. rewrite E3. apply elem_of_app. by left.
    + exists x. by rewrite list_lookup_insert_ne.
  - intros j x ch Ej Hx. destruct (decide (j = i)) as [->|Hne].
    + assert (x = th') as -> by congruence. rewrite E3 in Hx. apply elem_of_app in Hx as [Hx|Hx]; [left; eauto|].
      right. destruct (Hj ch Hx) as (c' & Ec & _ & Hin & _). exists c'. by rewrite E2.
    + rewrite list_lookup_insert_ne in Ej by done. left. eauto.
  - intros j x ch r Ej Hx. destruct (decide (j = i)) as [->|Hne].
    + assert (x = th') as -> by congruence. destruct (run_created _ _ _ _ _ _ _ Er Hx) as [H|(n & Hp & Hin)]; [left; eauto|].
      right. destruct (Hj ch Hin) as (c' & Ec & _ & _ & Hsec). exists c'. rewrite E2. eauto.
    + rewrite list_lookup_insert_ne in Ej by done. left. eauto.
Qed.

Lemma server_inv_plain adm sv i th a sv' :
  server_inv adm sv -> threads (listening sv) !! i = Some th -> joining a (at_pc th) = [] ->
  on_listener (listening sv) (Run i a) (store sv) = Some sv' -> server_inv adm sv'.
Proof using Type.
  intros Hi Ei Hno E. apply (server_inv_run _ _ _ _ _ _ _ Hi Ei E); rewrite ?Hno; [eauto using settles_refl | |].
  - intros ch c Ec. destruct (si_channels _ _ Hi ch c Ec). split_and!; eauto.
  - by intros ch ?%elem_of_nil.
Qed.

Lemma proceed_inv adm sv i ok a sv' :
  server_inv adm sv -> binder_ok (argBinder a) -> proceed i ok a sv = Some sv' -> server_inv adm sv'.
Proof using Type.
  intros Hi Hb. unfold proceed. destruct (threads (listening sv) !! i) as [th|] eqn:Ei; [|done]. cbn [mbind option_bind].
  destruct (at_pc th) as [| | | |n|n|[n|ch]|ch|n|n r|n r ch|n next| | |] eqn:Hp;
    try (intros E; refine (server_inv_plain _ _ _ _ _ _ Hi Ei _ E); by rewrite Hp).
  - intros E. apply (server_inv_run _ _ _ _ _ _ _ Hi Ei E); rewrite ?Hp; cbn [joining].
    + intros k c Ec. destruct (decide (k = ch)) as [->|Hne].
      * rewrite list_lookup_alter_eq, Ec. eexists. split; [reflexivity | apply AcceptUnderlay_settles].
      * rewrite list_lookup_alter_ne by done. eauto using settles_refl.
    + intros k c' Ec'. destruct (decide (k = ch)) as [->|Hne].
      * rewrite list_lookup_alter_eq in Ec'. destruct (store sv !! ch) as [c|] eqn:Ec; [|done]. injection Ec' as <-.
        destruct (si_channels _ _ Hi ch c Ec) as [Hci Hcl].
        destruct (AcceptUnderlay_settles (MultiListener.underlay th) c) as (_ & A2 & A3 & _).
        split; [by apply AcceptUnderlay_inv|]. split; [by rewrite A2|].
        intros u Hu. destruct (A3 u Hu) as [H| ->]; [left; eauto|]. right. split; [done | by left].
      * rewrite list_lookup_alter_ne in Ec' by done. destruct (si_channels _ _ Hi k c' Ec'). split_and!; eauto.
    + intros k ->%list_elem_of_singleton. destruct (ok_attach _ _ _ (inv_threads _ _ (si_listener _ _ Hi) i th Ei) ch)
        as [r Hm]; [auto|]. destruct (si_regs _ _ Hi _ _ _ Hm) as (c & Ec & Hid). rewrite list_lookup_alter_eq, Ec.
      eexists. split; [reflexivity|]. destruct (AcceptUnderlay_settles (MultiListener.underlay th) c) as (A1 & _ & _ & A4).
      split; [by rewrite (se_cfg _ _ A1)|]. by split.
  - destruct (if ok then factory a (MultiListener.underlay th) else None) as [c|] eqn:Ef.
    2: { intros E. refine (server_inv_plain _ _ _ _ _ _ Hi Ei _ E). by rewrite Hp. }
    destruct ok; [|done]. intros E. destruct (factory_made _ _ _ Hb Ef) as (F1 & F2 & F3 & F4 & F5).
    assert (length (store sv) ∉ closedChs (sh (listening sv))) as Hfresh by (intros H%(si_closed _ _ Hi); lia).
    apply (server_inv_run _ _ _ _ _ _ _ Hi Ei E); rewrite ?Hp; cbn [joining MultiListener.ok newCh].
    + intros k x Ex. exists x. split; [by apply lookup_app_l_Some | apply settles_refl].
    + intros k x [Ex|[Hk Ex]]%lookup_app_Some.
      * destruct (si_channels _ _ Hi k x Ex). split_and!; eauto.
      * apply list_lookup_singleton_Some in Ex as [Hk' <-]. assert (k = length (store sv)) as -> by lia.
        split; [done|]. split; [rewrite F2; split; [done|]; intros H; by apply Hfresh in H|].
        intros u Hu. rewrite F3 in Hu. apply list_elem_of_singleton in Hu. right. split; [done | by left].
    + intros k ->%list_elem_of_singleton. exists c. split; [by apply list_lookup_middle|]. split; [done|].
      split; [left; rewrite F3; by left | done].
Qed.

Lemma in_channel_inv adm sv ch s sv' : server_inv adm sv -> in_channel ch s sv = Some sv' -> server_inv adm sv'.
Proof using Type.
  intros Hi. unfold in_channel. destruct (store sv !! ch) as [c|] eqn:Ec; [|done]. cbn [mbind option_bind].
  destruct (allowed c s) eqn:Ha; [|done]. destruct (exec_step_settles c s Ha) as [Hs Hk]. cbn zeta in Hs, Hk.
  destruct (si_channels _ _ Hi ch c Ec) as [Hci Hcl].
  pose proof (exec_step_inv closeErr rng c s Hci) as Hci'. pose proof (exec_stays closeErr rng s c) as Hst.
  set (c' := exec_step closeErr rng c s) in *. intros E.
  assert (exists w', sv' = mkServer w' (<[ch := c']> (store sv)) /\ invariant adm w' /\
    threads w' = threads (listening sv) /\ (forall id k r, made_for (sh w') id k r -> made_for (sh (listening sv)) id k r) /\
    forall k, k ∈ closedChs (sh w') <-> k ∈ closedChs (sh (listening sv)) \/ k = ch /\ isClosed c' = true)
    as (w' & -> & Hw & Et & Em & Ek).
  { destruct (isClosed c') eqn:Hc'.
    - unfold on_listener in E. cbn in E. injection E as <-. eexists. split; [reflexivity|].
      split; [eapply (exec_inv adm (listening sv) (CloseChannel ch)); [apply Hi | reflexivity]|]. split; [done|].
      split; [done|]. intros k. cbn. rewrite elem_of_union, elem_of_singleton. naive_solver.
    - injection E as <-. eexists. split; [reflexivity|]. split; [apply Hi|]. split; [done|]. split; [done|]. naive_solver. }
  apply (server_inv_move adm sv); [done | done | | | | eauto | rewrite Et; eauto..].
  - intros k x Ex. destruct (decide (k = ch)) as [->|Hne].
    + assert (x = c) as -> by congruence. exists c'. split; [|done]. apply list_lookup_insert_eq. by eapply lookup_lt_Some.
    + exists x. rewrite list_lookup_insert_ne by done. split; [done | apply settles_refl].
  - intros k x [(-> & <- & _)|[Hne Ex]]%list_lookup_insert_Some.
    + split; [done|]. split; [|intros u Hu; left; eauto]. rewrite Ek. split; [by right|].
      intros [H|[_ H]]; [|done]. by apply Hst, Hcl.
    + destruct (si_channels _ _ Hi k x Ex) as [X1 X2]. split; [done|]. split; [|eauto]. rewrite Ek, X2. naive_solver.
  - intros k. rewrite length_insert, Ek. intros [H|[-> _]]; [by apply (si_closed _ _ Hi) | by eapply lookup_lt_Some].
Qed.

Lemma serving_inv adm sv : serving adm sv -> server_inv adm sv.
Proof using Type.
  induction 1 as [l E|sv act sv' _ IH Ha E].
  - split; cbn; try done; [eapply reachable_inv, reach_start; exact E | by intros id ch r (reg & ? & _)].
  - destruct act as [u|i ok a|ch s|r|j].
    + exact (server_inv_outside _ _ (Arrive u) _ IH E I).
    + exact (proceed_inv _ _ _ _ _ _ IH Ha E).
    + exact (in_channel_inv _ _ _ _ _ IH E).
    + exact (server_inv_outside _ _ (StartCallback r) _ IH E I).
    + exact (server_inv_outside _ _ (EndCallback j) _ IH E I).
Qed.

(** ** Lemmas: joining a group *)

Lemma exec_servers_serving adm acts : forall sv sv', serving adm sv -> Forall action_ok acts ->
  exec_servers sv acts = Some sv' -> serving adm sv'.
Proof using Type.
  induction acts as [|act acts IH]; intros sv sv' Hs Ha E; [by injection E as <-|]. cbn [exec_servers] in E.
  apply Forall_cons in Ha as [Ha Has]. destruct (exec_server sv act) as [sv1|] eqn:E1; [|done].
  eapply IH; [by eapply serving_step | done | exact E].
Qed.

(** A grouped underlay comes in while its group's channel is registered. *)
Definition join_actions (sv : server) (u : Underlay) (a : NewChannelArgs) : list server_action :=
  Incoming u :: replicate 4 (Proceed (length (threads (listening sv))) true a).

Lemma join_run sv u a ch r : isGrouped u = true -> channels (ml (sh (listening sv))) !! underlay_ConnectionId u = Some r ->
  made_for (sh (listening sv)) (underlay_ConnectionId u) ch r -> ¬ gone (sh (listening sv)) ch r ->
  exists w', exec_servers sv (join_actions sv u a) =
    Some (mkServer w' (alter (fun c => (AcceptUnderlay u c).2) ch (store sv))).
Proof using Type.
  intros Hg Hc (reg & Hr & _ & Hch) Hn. destruct sv as [[s ths cbs] st]. cbn in *.
  assert (live s reg = Live ch) as Hl.
  { unfold live. destruct (reg_closed reg) eqn:E; [exfalso; apply Hn; right; eauto|]. rewrite Hch.
    rewrite decide_False; [done|]. intros H. apply Hn. by left. }
  assert (forall st0 th, proceed (length ths) true a (mkServer (mkWorld s (ths ++ [th]) cbs) st0) =
    match at_pc th with
    | PStart | PLookup | PAck _ =>
        match run_thread (mkAnswer true 0) s th with
        | Next s' th' => Some (mkServer (mkWorld s' (ths ++ [th']) cbs) st0)
        | _ => None
        end
    | _ => proceed (length ths) true a (mkServer (mkWorld s (ths ++ [th]) cbs) st0)
    end) as Hp.
  { intros st0 th. destruct (at_pc th) eqn:E; try done; unfold proceed, on_listener; cbn; rewrite list_lookup_middle by done;
      cbn; rewrite E; cbn; destruct (run_thread _ s th); try done;
      rewrite insert_app_r_alt by done; by rewrite Nat.sub_diag. }
  assert (run_thread (mkAnswer true 0) s (mkThread u PStart []) = Next s (mkThread u PLookup [])) as H1
    by (cbn; by rewrite Hg).
  assert (run_thread (mkAnswer true 0) s (mkThread u PLookup []) = Next s (mkThread u (PAck (Attaching ch)) [])) as H2
    by (unfold run_thread, lookup_group, chId; cbn; by rewrite Hc, Hr, Hl).
  assert (run_thread (mkAnswer true 0) s (mkThread u (PAck (Attaching ch)) []) =
    Next s (mkThread u (PAttach ch) [EvAck true])) as H3 by done.
  unfold join_actions. cbn [exec_servers replicate exec_server listening threads store].
  rewrite Hp. cbn [at_pc]. rewrite H1. cbn [mbind option_bind].
  rewrite Hp. cbn [at_pc]. rewrite H2. cbn [mbind option_bind].
  rewrite Hp. cbn [at_pc]. rewrite H3. cbn [mbind option_bind].
  unfold proceed, on_listener. cbn. rewrite list_lookup_middle by done. cbn. eauto.
Qed.

End Server.

(** ** Properties *)

(** C9: every underlay is in its group.  In every state that any interleaving
    of incoming underlays, accepts, channel loops and close callbacks reaches:
    an underlay that a channel holds was routed to that channel by a grouped
    accept and has the channel's id and the channel's secret; no accept gives
    its underlay to two channels; an underlay that an accept has handed over is
    held by a channel with the underlay's group id, or was closed; and an accept
    that is done has handed its underlay over, closed or rejected it. *)
Theorem underlays_in_their_group (closeErr : nat -> option error)
    (rng : gmap Z (waiter receiver) -> list (Z * waiter receiver)) (adm : bool) (sv : server) :
  serving closeErr rng adm sv ->
  (forall ch c u, store sv !! ch = Some c -> u ∈ entries (underlays c) ->
     underlay_ConnectionId u = channelId (cfg c) /\ secret_of u = groupSecret (cfg c) /\ isGrouped u = true /\
     exists i th, threads (listening sv) !! i = Some th /\ MultiListener.underlay th = u /\ joined (did th) = [ch]) /\
  (forall i th ch, threads (listening sv) !! i = Some th -> ch ∈ joined (did th) ->
     joined (did th) = [ch] /\
     exists c, store sv !! ch = Some c /\ channelId (cfg c) = chId th /\
       (MultiListener.underlay th ∈ entries (underlays c) \/ ptr (MultiListener.underlay th) ∈ closedUnderlays c)) /\
  (forall i th, threads (listening sv) !! i = Some th -> at_pc th = PDone -> isGrouped (MultiListener.underlay th) = true ->
     (exists ch, joined (did th) = [ch]) \/ EvClose ∈ did th \/ EvReject ∈ did th).
Proof.
  intros Hi%serving_inv.
  assert (forall i th, threads (listening sv) !! i = Some th -> thread_ok adm (sh (listening sv)) th) as Hth
    by (intros; by eapply (inv_threads _ _ (si_listener _ _ Hi))).
  assert (forall i th ch, threads (listening sv) !! i = Some th -> ch ∈ joined (did th) -> joined (did th) = [ch]) as Hone.
  { intros i th ch Ei Hj. destruct (joins_once _ _ _ (Hth _ _ Ei)) as [Hl _]. destruct (joined (did th)) as [|x [|y l]];
      [by apply elem_of_nil in Hj | by apply list_elem_of_singleton in Hj as -> | cbn in Hl; lia]. }
  split; [|split].
  - intros ch c u Ec Hu. destruct (si_members _ _ Hi _ _ _ Ec Hu) as (i & th & Ei & <- & Hj).
    destruct (joins_once _ _ _ (Hth _ _ Ei)) as (_ & Hm & Hg). destruct (Hm ch Hj) as [r Hr].
    destruct (si_regs _ _ Hi _ _ _ Hr) as (c' & Ec' & Hid). assert (c' = c) as -> by congruence.
    destruct (si_channels _ _ Hi _ _ Ec) as [Hci _]. split; [done|].
    split; [by eapply Forall_forall in Hu; [|exact (inv_members _ Hci)]|].
    split; [apply Hg; by rewrite (Hone _ _ _ Ei Hj)|]. exists i, th. eauto.
  - intros i th ch Ei Hj. split; [by eapply Hone|]. destruct (si_joined _ _ Hi _ _ _ Ei Hj) as (c & Ec & Hin).
    exists c. split; [done|]. split; [|done]. destruct (joins_once _ _ _ (Hth _ _ Ei)) as (_ & Hm & _).
    destruct (Hm ch Hj) as [r Hr]. destruct (si_regs _ _ Hi _ _ _ Hr) as (c' & Ec' & Hid). congruence.
  - intros i th Ei Hp Hg. pose proof (ok_did _ _ _ (Hth _ _ Ei)) as Hd. rewrite Hp in Hd. cbn in Hd.
    destruct Hd; try congruence; unfold admitted; try destruct adm; cbn; rewrite ?elem_of_cons; eauto 10.
Qed.

(** C5: a group's connections meet in one channel.  The hello exchange for a
    group's first connection leaves an underlay on each side.  Let the dialing
    side make a channel with its end, and let the listening side's server have
    accepted the other end and made a channel for it.  As long as that channel
    is open and registered, whatever else has happened on the server, a further
    underlay that is dialed the way the dial policy does, with the id and the
    secret of the dialing side's channel, is accepted by that channel, and its
    other end, when it comes in at the server and its hello can be acknowledged,
    joins the channel of the first connection, behind its other underlays. *)
Theorem group_meets (W : Z) (hrng : HeaderMap -> list (Z * bytes)) `{!RangeOrder hrng} (f : ST classicImpl unit)
    (closeErr : nat -> option error) (rng : gmap Z (waiter receiver) -> list (Z * waiter receiver)) (adm : bool)
    (x : dialing) :
  good W hrng x -> (MessageHeader.GetBoolHeader (hello x) IsGroupedHeader).1 = true ->
  (match nextId x with Ret c => c | _ => uuid x end) ≠ [] ->
  exists d l, exchanges W hrng f x d l /\ headers d !! GroupSecretHeader = headers l !! GroupSecretHeader /\
  forall n createdAt sv i th ch r c cA,
    serving closeErr rng adm sv -> threads (listening sv) !! i = Some th -> at_pc th = PDone ->
    MultiListener.underlay th = view n createdAt l -> EvCreated ch r ∈ did th ->
    store sv !! ch = Some c -> isMultiUnderlayCapable c = true -> ¬ gone (sh (listening sv)) ch r ->
    made_with (view n createdAt d) cA ->
  forall x2 p t n2 at2 a, iteration p = 0 -> t ≠ [] -> good W hrng x2 -> helloHeaderProvider (dialer x2) = None ->
    dialHeaders x2 =
      dial_headers t (groupConnectionId (channelId (cfg cA)) false p).1 (groupSecret (cfg cA)) false ->
    binder_ok (argBinder a) ->
  exists d2 l2, exchanges W hrng f x2 d2 l2 /\ takes (view n2 at2 d2) cA /\
    exists sv' c', exec_servers closeErr rng sv (join_actions sv (view n2 at2 l2) a) = Some sv' /\
      serving closeErr rng adm sv' /\ store sv' !! ch = Some c' /\
      entries (underlays c') = entries (underlays c) ++ [view n2 at2 l2].
Proof.
  intros Hx Hg Hid. destruct (grouped_exchange W hrng f x Hx Hg) as (d & l & Hdl & Ec & Ec1 & Ec2 & Es & Es' & Hns & _).
  exists d, l. split; [done|]. split; [done|].
  intros n createdAt sv i th ch r c cA Hsv Ei Hp Hu Hcr Hch Hm Hgone HA x2 p t n2 at2 a Hit Ht Hx2 Hpr Hh Hb.
  pose proof (serving_inv _ _ _ _ Hsv) as Hi. pose proof (inv_threads _ _ (si_listener _ _ Hi) i th Ei) as Hok.
  apply made_with_cfg in HA as [A1 A2]. unfold secret_of in A2. cbn in A1, A2.
  assert (groupSecret (cfg cA) ≠ []) as Hs by (rewrite A2, Es, Es'; by case_decide).
  assert (channelId (cfg cA) ≠ []) as Hc.
  { rewrite A1, Ec. destruct (decide (default [] (Headers (hello x) !! ConnectionIdHeader) = [])) as [E|E];
      [by rewrite Ec2 | by rewrite Ec1]. }
  replace (groupConnectionId (channelId (cfg cA)) false p).1 with (channelId (cfg cA)) in Hh
    by (unfold groupConnectionId; cbn; by rewrite Hit).
  destruct (group_dial W hrng f x2 _ _ _ _ Hx2 Hpr Hh Ht Hc Hs) as (d2 & l2 & Hdl2 & E1 & E2 & E3 & H2).
  exists d2, l2. split; [done|]. destruct (H2 n2 at2) as (S1 & S2 & _). split; [by apply takes_secret|].
  assert (underlay_ConnectionId (view n2 at2 l2) = chId th) as Eid
    by (unfold chId; rewrite Hu; cbn; congruence).
  assert (groupSecret (cfg c) = groupSecret (cfg cA)) as Esec.
  { destruct (si_created _ _ Hi _ _ _ _ Ei Hcr) as (c0 & Hc0 & Hsec). assert (c0 = c) as -> by congruence.
    rewrite Hsec, Hu. unfold secret_of. cbn. by rewrite A2, Es. }
  pose proof (ok_created _ _ _ Hok _ _ Hcr) as Hmade.
  destruct (ok_published _ _ _ Hok _ _ Hcr) as [H|Hpub]; [by rewrite Hp | done |].
  rewrite <- Eid in Hmade, Hpub.
  destruct (join_run closeErr rng sv (view n2 at2 l2) a ch r) as (w' & Ew); [|done..|].
  { unfold isGrouped, GetBoolHeader. cbn. by rewrite E3. }
  destruct (AcceptUnderlay_ok (view n2 at2 l2) c) as (c' & Eacc & _ & _ & Hent); [done | by rewrite S2 | |].
  { destruct (isClosed c) eqn:Hcl; [|done]. exfalso. apply Hgone. left. by apply (si_channels _ _ Hi ch c Hch). }
  eexists _, c'. split; [exact Ew|]. split; [|split; [|done]].
  - eapply exec_servers_serving; [exact Hsv | | exact Ew]. apply Forall_cons. split; [done|]. by apply Forall_replicate.
  - cbn. rewrite list_lookup_alter_eq, Hch. cbn. by rewrite Eacc.
Qed.

(** *** Witnesses *)

Definition ex_args : NewChannelArgs := mkArgs true true None false ∅ 1 [] [] None.

(** Reduces a step that was taken. *)
Ltac onwards := cbn [mbind option_bind]; unfold goto, set_ml;
  cbn [MultiListener.underlay did app ml regs notifiers closedChs length].

(** A first connection comes in at a new server and is accepted to its end. *)
Definition ex_accepting (u : Underlay) : list server_action := Incoming u :: replicate 8 (Proceed 0 true ex_args).

Lemma ex_accepted closeErr rng u c : isGrouped u = true -> isFirst u = true -> factory closeErr ex_args u = Some c ->
  exists sv, exec_servers closeErr rng (mkServer (start (mkListener ∅ ∅ false)) []) (ex_accepting u) = Some sv /\
    serving closeErr rng false sv /\ threads (listening sv) = [mkThread u PDone [EvAck true; EvCreated 0 0]] /\
    store sv = [c] /\ ¬ gone (sh (listening sv)) 0 0.
Proof.
  intros Hg Hf Hc. pose (id := underlay_ConnectionId u).
  assert (forall p es ms rs ns s' th', (match p with PCreating _ _ | PAttach _ => false | _ => true end) = true ->
    run_thread (mkAnswer true 0) (mkShared ms rs ns ∅) (mkThread u p es) = Next s' th' ->
    forall st, proceed closeErr 0 true ex_args (mkServer (mkWorld (mkShared ms rs ns ∅) [mkThread u p es] []) st) =
      Some (mkServer (mkWorld s' [th'] []) st)) as Hp.
  { intros p es ms rs ns s' th' Hpc E st. unfold proceed, on_listener. cbn -[run_thread]. rewrite E. by destruct p. }
  assert (forall ms ns reg, proceed closeErr 0 true ex_args (mkServer (mkWorld (mkShared ms [reg] ns ∅)
      [mkThread u (PCreating 0 0) [EvAck true]] []) []) =
    Some (mkServer (mkWorld (mkShared ms [mkReg (Some 0%nat) (reg_closed reg) (reg_id reg)] ns ∅)
      [mkThread u (PPublish 0 0 0) [EvAck true; EvCreated 0 0]] []) [c])) as Hmk.
  { intros ms ns reg. unfold proceed, on_listener. cbn -[factory]. by rewrite Hc. }
  eexists. assert (forall sv, exec_servers closeErr rng (mkServer (start (mkListener ∅ ∅ false)) []) (ex_accepting u) = Some sv ->
    serving closeErr rng false sv) as Hserv.
  { intros sv. apply exec_servers_serving; [by constructor|]. apply Forall_cons. split; [done|].
    apply Forall_replicate. intros c0. done. }
  assert (exec_servers closeErr rng (mkServer (start (mkListener ∅ ∅ false)) []) (ex_accepting u) =
    Some (mkServer (mkWorld (mkShared (mkListener (<[id := 0%nat]> ∅) (delete id (<[id := 0%nat]> ∅)) false)
      [mkReg (Some 0%nat) false id] [1%nat] ∅) [mkThread u PDone [EvAck true; EvCreated 0 0]] []) [c])) as E.
  { unfold ex_accepting. cbn [exec_servers replicate exec_server]. unfold on_listener at 1.
    cbn [exec listening start sh threads callbacks app mbind option_bind store].
    erewrite (Hp PStart); [|done | cbn; rewrite Hg; reflexivity]. onwards.
    erewrite (Hp PLookup); [|done | unfold run_thread, lookup_group, reserve, chId; cbn; rewrite !lookup_empty, Hf; reflexivity].
    onwards.
    erewrite (Hp (PAdmit _)); [|done | reflexivity]. onwards.
    erewrite (Hp (PAck _)); [|done | reflexivity]. onwards.
    erewrite (Hp (PFactory _)); [|done | reflexivity]. onwards.
    rewrite Hmk. onwards.
    erewrite (Hp (PPublish _ _ _)); [|done | unfold run_thread, publish; cbn; rewrite bool_decide_eq_false_2 by set_solver; reflexivity].
    onwards.
    erewrite (Hp (PRelease _ _)); [|done | reflexivity]. reflexivity. }
  split; [exact E|]. split; [by apply Hserv|]. split; [done|]. split; [done|]. cbn.
  intros [H|(reg & [= <-] & H)]; [set_solver | done].
Qed.

Definition ex_client (n : nat) (first : bool) : Underlay :=
  mkUnderlay n (lit "peer") (lit "g") (<[GroupSecretHeader := lit "s"]>
    (PutBoolHeader IsFirstGroupConnection first (PutBoolHeader IsGroupedHeader true ∅))) 0.

Lemma underlays_in_their_group_witness :
  let rng := fun w => map_to_list w in
  exists sv, exec_servers (fun _ => None) rng (mkServer (start (mkListener ∅ ∅ false)) [])
      (ex_accepting (ex_client 1 true)) = Some sv /\ serving (fun _ => None) rng false sv /\
    exists c, store sv !! 0%nat = Some c /\ channelId (cfg c) = lit "g" /\ joined [EvAck true; EvCreated 0 0] = [0%nat].
Proof.
  intros rng. destruct (ex_accepted (fun _ => None) rng (ex_client 1 true)
    (default (fresh_channel ex_args (ex_client 1 true)) (factory (fun _ => None) ex_args (ex_client 1 true))))
    as (sv & E & Hs & Ht & Hst & _); [reflexivity | reflexivity | vm_compute; reflexivity |].
  exists sv. split; [exact E|]. split; [exact Hs|].
  destruct (underlays_in_their_group (fun _ => None) rng false sv Hs) as (_ & H & _).
  destruct (H 0%nat (mkThread (ex_client 1 true) PDone [EvAck true; EvCreated 0 0]) 0%nat) as (Hj & c & Hc & Hid & _).
  - rewrite Ht. reflexivity.
  - left.
  - exists c. split; [exact Hc|]. split; [exact Hid | exact Hj].
Defined.

Definition ex_opening : HeaderMap := PutBoolHeader IsFirstGroupConnection true ex_first.

Lemma ex_opening_good : good 64 ex_order (ex_dialing ex_opening).
Proof.
  apply ex_good; [|vm_compute; discriminate..].
  repeat (apply keys_ok_insert; [|vm_compute; split; discriminate || reflexivity]). apply keys_ok_empty.
Qed.

Lemma clear_or_close_headers l : headers (deferred clear_or_close (mret tt) l).2 = headers l.
Proof.
  unfold deferred, clear_or_close, mbind, ST_bind, attempt, ignore, on_peer. cbn -[conn_SetDeadline conn_Close].
  destruct (conn_SetDeadline false (peer l)) as [[] c1]; [reflexivity | | reflexivity..].
  unfold ignore, mbind, ST_bind, attempt, Handshake.answer. cbn. by destruct (Handshake.closeErr c1).
Qed.

(** What the two ends of the first connection hold. *)
Lemma ex_ends d l : exchanges 64 ex_order (mret tt) (ex_dialing ex_opening) d l ->
  connectionId d = lit "g1" /\ headers d !! GroupSecretHeader = Some (lit "secret") /\
  forall n t, isGrouped (view n t l) = true /\ isFirst (view n t l) = true.
Proof.
  intros [E1 E2].
  assert (d = (sendHello ex_order (dialer (ex_dialing ex_opening)) (dialHeaders (ex_dialing ex_opening)) (dialed (ex_dialing ex_opening))).2) as ->
    by (by rewrite E1).
  split; [vm_compute; reflexivity|]. split; [vm_compute; reflexivity|].
  pose proof (clear_or_close_headers l) as Hh.
  rewrite <- E2 in Hh. intros n t. unfold isGrouped, isFirst. cbn [underlay_Headers view]. rewrite <- Hh.
  split; vm_compute; reflexivity.
Qed.

Lemma group_meets_witness :
  let rng := fun w => map_to_list w in
  exists d l sv c cA d2 l2 sv' c',
    exchanges 64 ex_order (mret tt) (ex_dialing ex_opening) d l /\ serving (fun _ => None) rng false sv /\
    store sv = [c] /\ made_with (view 1 0 d) cA /\
    exchanges 64 ex_order (mret tt) (ex_dialing (dial_headers (lit "data") (lit "g1") (lit "secret") false)) d2 l2 /\
    takes (view 2 5 d2) cA /\ exec_servers (fun _ => None) rng sv (join_actions sv (view 2 5 l2) ex_args) = Some sv' /\
    store sv' !! 0%nat = Some c' /\ entries (underlays c') = entries (underlays c) ++ [view 2 5 l2].
Proof.
  intros rng. destruct (group_meets 64 ex_order (mret tt) (fun _ => None) rng false (ex_dialing ex_opening))
    as (d & l & Hdl & Hs & H).
  - exact ex_opening_good.
  - reflexivity.
  - discriminate.
  - destruct (ex_ends d l Hdl) as (Ed & Es & Hgf). destruct (Hgf 1%nat 0) as [Hg Hf].
    destruct (ex_made (view 1 0 d)) as (cA & HA & _ & _); [unfold secret_of; cbn; rewrite Es; discriminate|].
    destruct (made_with_cfg _ _ HA) as [Ec Eg]. cbn in Ec. rewrite Ed in Ec. unfold secret_of in Eg. cbn in Eg. rewrite Es in Eg.
    assert (exists c, factory (fun _ => None) ex_args (view 1 0 l) = Some c /\ isMultiUnderlayCapable c = true) as (c & Hc & Hm).
    { unfold factory, NewChannel. cbn -[len]. unfold view at 1. cbn -[len]. rewrite <- Hs, Es. cbn. eauto. }
    destruct (ex_accepted (fun _ => None) rng (view 1 0 l) c Hg Hf Hc) as (sv & _ & Hsv & Ht & Hst & Hng).
    destruct (H 1%nat 0 sv 0%nat (mkThread (view 1 0 l) PDone [EvAck true; EvCreated 0 0]) 0%nat 0%nat c cA Hsv) with
      (x2 := ex_dialing (dial_headers (lit "data") (lit "g1") (lit "secret") false))
      (p := mkPolicy (mkBackoff 2 60 30 10 (SpecFloat.S754_zero false)) 0 None None None 0) (t := lit "data") (n2 := 2%nat) (at2 := 5) (a := ex_args)
      as (d2 & l2 & Hdl2 & Htk & sv' & c' & Ex & _ & Hst' & He).
    + rewrite Ht. reflexivity.
    + reflexivity.
    + reflexivity.
    + right. left.
    + rewrite Hst. reflexivity.
    + exact Hm.
    + exact Hng.
    + exact HA.
    + reflexivity.
    + discriminate.
    + exact (ex_dialing_good true false).
    + reflexivity.
    + rewrite Ec, Eg. reflexivity.
    + intros c0. repeat split.
    + exists d, l, sv, c, cA, d2, l2, sv', c'. split; [exact Hdl|]. split; [exact Hsv|]. split; [exact Hst|].
      split; [exact HA|]. split; [exact Hdl2|]. split; [exact Htk|]. split; [exact Ex|]. split; [exact Hst' | exact He].
Defined.
