(* ===== verification/Beats.v ===== *)
(** * Heartbeats between two channels (src/heartbeater.go)

    [Heartbeat] has the heartbeater by itself, with each operation run alone.
    Here it is used: [ConfigureHeartbeat] registers it with a binding, the
    channel calls it from its send and receive loops among its other transform
    handlers, and two such channels exchange messages.

    The transmissions of several send loops run [Tx] at once, so its model here
    is a thread that makes one access of shared state per step; a pulse loop that
    handles a received heartbeat stores it in one step and reports it in a later
    one.  The steps of all threads of both sides, the network, the pulse loops
    and the timers interleave freely; messages may be lost and overtake each
    other.

    Theorems: a thread that runs alone does what [Tx] does; under every
    interleaving, a message gets a heartbeat or one was sent at most the interval
    before; a heartbeat that is reported was sent by the peer, and a response
    that is reported answers a heartbeat that was sent by this side and reported
    by the peer, or is about to be; a configured channel puts heartbeats on its own
    messages, answers those of its peer, and takes standalone ones itself. *)

From stdpp Require Import functions.
From S2P Require Import Prelude Headers Wire Options Heartbeat Underlays Waiters ChannelImpl Binding.
#[local] Open Scope Z_scope.

(** ** One transmission, step by step *)

(** What [Tx] does next, with the time it has read and its message. *)
Inductive tx_pc : Type :=
  | TLast (now : Z) (m : Message)                 (* lastHeartbeatTx.Load() *)
  | TInterval (now last : Z) (m : Message)        (* heartBeatIntervalNs.Load() *)
  | TRecord (now : Z) (m : Message)               (* lastHeartbeatTx.Store(now) *)
  | TAnnounce (now : Z) (m : Message)             (* queueEvent(heartbeatTxEvent(now)) *)
  | TAnswer (now : Z) (m : Message)               (* unrespondedHeartbeat.Load() *)
  | TClear (now : Z) (m : Message)                (* unrespondedHeartbeat.Store(0) *)
  | TAnnounceResp (now : Z) (m : Message)         (* queueEvent(heartbeatRespTxEvent(now)) *)
  | TDone (m : Message).

Definition tx_begin (now : Z) (m : Message) : tx_pc :=
  if decide (ContentType m = ContentTypeRaw) then TDone m else TLast now m.

Definition tx_step (pc : tx_pc) (h : heartbeater) : tx_pc * heartbeater :=
  match pc with
  | TLast now m => (TInterval now (lastHeartbeatTx h) m, h)
  | TInterval now last m =>
      if decide (heartBeatIntervalNs h < int64 (now - last))
      then (TRecord now (MessageHeader.PutUint64Header HeartbeatHeader (uint64 now) m), h)
      else (TAnswer now m, h)
  | TRecord now m => (TAnnounce now m, set_last now h)
  | TAnnounce now m => (TAnswer now m, queueEvent (heartbeatTxEvent now) h)
  | TAnswer now m =>
      if decide (unrespondedHeartbeat h ≠ 0)
      then (TClear now (MessageHeader.PutUint64Header HeartbeatResponseHeader (uint64 (unrespondedHeartbeat h)) m), h)
      else (TDone m, h)
  | TClear now m => (TAnnounceResp now m, set_unresponded 0 h)
  | TAnnounceResp now m => (TDone m, queueEvent (heartbeatRespTxEvent now) h)
  | TDone m => (TDone m, h)
  end.

Fixpoint tx_run (n : nat) (pc : tx_pc) (h : heartbeater) : tx_pc * heartbeater :=
  match n with
  | O => (pc, h)
  | S n => let '(pc, h) := tx_step pc h in tx_run n pc h
  end.

(** The message of a transmission. *)
Definition msg_of (pc : tx_pc) : Message :=
  match pc with
  | TLast _ m | TInterval _ _ m | TRecord _ m | TAnnounce _ m | TAnswer _ m | TClear _ m | TAnnounceResp _ m | TDone m => m
  end.

(** ** Two heartbeaters *)

(** What the pulse loop does next: a round of its own choice, or the rest of
    [heartbeatRxEvent.handle]. *)
Inductive pulse_pc : Type :=
  | PIdle
  | PStore (t : Z)                                (* unrespondedHeartbeat.Store(t) *)
  | PReport (t : Z).                              (* callback.HeartbeatRx(t) *)

(** A side: its heartbeater, its transmissions under way, the times of the
    heartbeats it has put on messages, and its pulse loop. *)
Record peer : Type := mkPeer { beater : heartbeater; sending : list tx_pc; beats : list Z; pulsing : pulse_pc }.

(** Both sides, and the messages on their way from each. *)
Record net : Type := mkNet { side : bool -> peer; flight : bool -> list Message }.

Definition time_of (k : Z) (m : Message) : option Z :=
  match MessageHeader.GetUint64Header m k with (v, true) => Some (int64 v) | (_, false) => None end.

(** What a side has told its application. *)
Definition reported (p : peer) (o : output) : Prop := o ∈ outputs (beater p).

(** It has reported a heartbeat, or its pulse loop is about to. *)
Definition heard (p : peer) (t : Z) : Prop := reported p (HeartbeatRx t) \/ pulsing p = PReport t.

(** The heartbeat headers of a message that a side sends: none, or, where a
    message is sent again, those this side put there. *)
Definition genuine (p : peer) (m : Message) : Prop :=
  (forall t, time_of HeartbeatHeader m = Some t -> t ∈ beats p) /\
  (forall t, time_of HeartbeatResponseHeader m = Some t -> heard p t).

Definition set_beater (h : heartbeater) (p : peer) : peer := mkPeer h (sending p) (beats p) (pulsing p).
Definition set_sending (l : list tx_pc) (p : peer) : peer := mkPeer (beater p) l (beats p) (pulsing p).
Definition set_pulsing (pc : pulse_pc) (p : peer) : peer := mkPeer (beater p) (sending p) (beats p) pc.

(** The heartbeat a step of a transmission puts on its message. *)
Definition new_beat (pc pc' : tx_pc) : list Z :=
  match pc, pc' with TInterval now _ _, TRecord _ _ => [now] | _, _ => [] end.

Definition step_thread (i : nat) (pc : tx_pc) (p : peer) : peer :=
  let '(pc', h) := tx_step pc (beater p) in
  mkPeer h (<[i := pc']> (sending p)) (beats p ++ new_beat pc pc') (pulsing p).

(** A step of the pulse loop; [c] is the case its select takes, if it is there. *)
Definition pulse_step (c : pulse_choice) (p : peer) : option peer :=
  let h := beater p in
  match pulsing p with
  | PStore t => Some (set_pulsing (PReport t) (set_beater (set_unresponded t h) p))
  | PReport t => Some (set_pulsing PIdle (set_beater (put (AfterFunc (2 * Millisecond)) (put (HeartbeatRx t) h)) p))
  | PIdle =>
      match c, events h with
      | PEvent, heartbeatRxEvent t :: rest => Some (set_pulsing (PStore t) (set_beater (set_events rest h) p))
      | _, _ =>
          match pulse_round c h with
          | (Ret tt, h') => Some (set_beater h' p)
          | _ => None
          end
      end
  end.

Definition set_side (b : bool) (p : peer) (n : net) : net := mkNet (<[b := p]> (side n)) (flight n).
Definition set_flight (b : bool) (l : list Message) (n : net) : net := mkNet (side n) (<[b := l]> (flight n)).

Inductive beat_step : net -> net -> Prop :=
  | beat_begin b now m n : is_time now -> genuine (side n b) m ->
      beat_step n (set_side b (set_sending (sending (side n b) ++ [tx_begin now m]) (side n b)) n)
  | beat_thread b i pc n : sending (side n b) !! i = Some pc ->
      beat_step n (set_side b (step_thread i pc (side n b)) n)
  | beat_transmit b i m n : sending (side n b) !! i = Some (TDone m) ->
      beat_step n (set_flight b (flight n b ++ [m]) (set_side b (set_sending (delete i (sending (side n b))) (side n b)) n))
  | beat_lose b j n : beat_step n (set_flight b (delete j (flight n b)) n)
  | beat_deliver b j m n : flight n b !! j = Some m ->
      beat_step n (set_flight b (delete j (flight n b))
        (set_side (negb b) (set_beater (Rx (wire_message m) (beater (side n (negb b)))) (side n (negb b))) n))
  | beat_pulse b c p n : pulse_step c (side n b) = Some p -> beat_step n (set_side b p n)
  | beat_timer b n : beat_step n (set_side b (set_beater (timer (beater (side n b))) (side n b)) n)
  | beat_update b s c n : beat_step n (set_side b (set_beater (UpdateIntervals s c (beater (side n b))) (side n b)) n).

(** Two heartbeaters as they are configured. *)
Definition beat_start (i1 i2 c1 c2 : Z) : net :=
  mkNet (fun b => mkPeer (set_ticker (if b then c1 else c2) (ConfigureHeartbeat (if b then i1 else i2))) [] [] PIdle) (fun _ => []).

(** ** Lemmas: one transmission *)

Lemma tx_done n m h : tx_run n (TDone m) h = (TDone m, h).
Proof. by induction n. Qed.

Lemma tx_answers n now m h : tx_run (3 + n) (TAnswer now m) h =
  (TDone (tx_response now m h).1, (tx_response now m h).2).
Proof.
  unfold tx_response. cbn [tx_run tx_step Nat.add].
  destruct (decide (unrespondedHeartbeat h ≠ 0)); cbn [tx_step fst snd]; by rewrite tx_done.
Qed.

(** A transmission that runs alone does what [Tx] does. *)
Lemma tx_alone now m h : tx_run 7 (tx_begin now m) h = (TDone (Tx now m h).1, (Tx now m h).2).
Proof.
  unfold tx_begin, Tx. destruct (decide (ContentType m = ContentTypeRaw)) as [Hr|Hr]; [apply tx_done|].
  unfold tx_heartbeat. cbn [tx_run tx_step].
  destruct (decide (heartBeatIntervalNs h < int64 (now - lastHeartbeatTx h))); [|exact (tx_answers 2 now m h)].
  cbn [tx_step]. exact (tx_answers 0 now _ _).
Qed.

(** Nor does a pulse loop that nothing comes between do anything else than
    [pulse_round]. *)
Lemma pulse_alone h l bs t rest : events h = heartbeatRxEvent t :: rest ->
  (p1 ← pulse_step PEvent (mkPeer h l bs PIdle); p2 ← pulse_step PEvent p1; pulse_step PEvent p2) =
  Some (mkPeer (pulse_round PEvent h).2 l bs PIdle).
Proof. intros E. cbn. by rewrite E. Qed.

(** ** Lemmas: headers *)

Lemma time_put k t m : is_time t -> time_of k (MessageHeader.PutUint64Header k (uint64 t) m) = Some t.
Proof. intros Ht. unfold time_of. rewrite put_get by done. by rewrite int64_time. Qed.

Lemma time_put_ne k k' v m : k ≠ k' -> time_of k (MessageHeader.PutUint64Header k' v m) = time_of k m.
Proof.
  intros Hk. unfold time_of, MessageHeader.GetUint64Header, GetUint64Header. cbn. unfold PutUint64Header.
  by rewrite lookup_insert_ne.
Qed.

Lemma time_wire k m : k ≠ ReplyForHeader -> time_of k (wire_message m) = time_of k m.
Proof. intros Hk. unfold time_of. by rewrite GetUint64_wire. Qed.

(** ** Lemmas: the heartbeater *)

(** An event that may be queued on one side. *)
Definition event_ok (p q : peer) (e : heartbeatEvent) : Prop :=
  match e with
  | heartbeatRxEvent t => t ∈ beats q
  | heartbeatRespRxEvent t => heard q t
  | _ => True
  end.

(** What holds between a side and the other. *)
Record peers_ok (p q : peer) : Prop := {
  po_times : Forall is_time (beats p);
  po_sending pc : pc ∈ sending p -> genuine p (msg_of pc);
  po_now pc : pc ∈ sending p -> match pc with TLast t _ | TInterval t _ _ => is_time t | _ => True end;
  po_events e : e ∈ events (beater p) -> event_ok p q e;
  po_unresponded : unrespondedHeartbeat (beater p) = 0 \/ heard p (unrespondedHeartbeat (beater p));
  po_storing t : pulsing p = PStore t -> t ∈ beats q;
  po_heard t : heard p t -> t ∈ beats q;
  po_answered t : reported p (HeartbeatRespRx t) -> heard q t
}.

Record net_inv (n : net) : Prop := {
  ni_peers b : peers_ok (side n b) (side n (negb b));
  ni_flight b m : m ∈ flight n b -> genuine (side n b) m
}.

(** A side goes on: what it has sent and reported stays. *)
Definition grows (p p' : peer) : Prop :=
  (forall t, t ∈ beats p -> t ∈ beats p') /\ (forall t, heard p t -> heard p' t).

#[global] Instance grows_preorder : PreOrder grows.
Proof. split; [done|]. intros p1 p2 p3 [H1 H2] [H3 H4]. split; auto. Qed.

Lemma genuine_grows p p' m : grows p p' -> genuine p m -> genuine p' m.
Proof. intros [H1 H2] [G1 G2]. split; auto. Qed.

Lemma peers_ok_grows p q q' : grows q q' -> peers_ok p q -> peers_ok p q'.
Proof.
  intros [H1 H2] [P1 P2 P3 P4 P5 P6 P7 P8]. split; auto. intros e He. specialize (P4 e He). destruct e; cbn in *; auto.
Qed.

(** One side changes. *)
Lemma net_inv_side n b p : net_inv n -> grows (side n b) p -> peers_ok p (side n (negb b)) -> net_inv (set_side b p n).
Proof.
  intros [H1 H2] Hg Hp. split; unfold set_side; cbn.
  - intros b'. destruct (decide (b' = b)) as [->|Hne].
    + rewrite fn_lookup_insert, fn_lookup_insert_ne by (by destruct b). done.
    + assert (b' = negb b) as -> by (by destruct b, b'). rewrite negb_involutive.
      rewrite fn_lookup_insert, fn_lookup_insert_ne by (by destruct b).
      eapply peers_ok_grows; [exact Hg|]. specialize (H1 (negb b)). by rewrite negb_involutive in H1.
  - intros b' m Hm. destruct (decide (b' = b)) as [->|Hne].
    + rewrite fn_lookup_insert. eapply genuine_grows; [exact Hg | by apply H2].
    + rewrite fn_lookup_insert_ne by done. by apply H2.
Qed.

Lemma net_inv_flight n b l : net_inv n -> (forall m, m ∈ l -> genuine (side n b) m) -> net_inv (set_flight b l n).
Proof.
  intros [H1 H2] Hl. split; unfold set_flight; cbn; [done|]. intros b' m. destruct (decide (b' = b)) as [->|Hne].
  - rewrite fn_lookup_insert. apply Hl.
  - rewrite fn_lookup_insert_ne by done. apply H2.
Qed.

(** *** Changes of the heartbeater *)

Definition output_ok (q : peer) (o : output) : Prop :=
  match o with
  | HeartbeatRx t => t ∈ beats q
  | HeartbeatRespRx t => heard q t
  | _ => True
  end.

(** The heartbeater gets from [h] to [h'] with what the other side [q] allows. *)
Record evolves (p q : peer) (h h' : heartbeater) : Prop := {
  ev_outputs : exists os, outputs h' = outputs h ++ os /\ Forall (output_ok q) os;
  ev_events e : e ∈ events h' -> e ∈ events h \/ event_ok p q e;
  ev_unresponded : unrespondedHeartbeat h' = unrespondedHeartbeat h \/ unrespondedHeartbeat h' = 0 \/
    HeartbeatRx (unrespondedHeartbeat h') ∈ outputs h'
}.

#[global] Instance evolves_preorder p q : PreOrder (evolves p q).
Proof.
  split.
  - intros h. split; [exists []; by rewrite app_nil_r | auto | auto].
  - intros h1 h2 h3 [(os1 & E1 & F1) A2 A3] [(os2 & E2 & F2) B2 B3]. split.
    + exists (os1 ++ os2). rewrite E2, E1, app_assoc. split; [done | by apply Forall_app].
    + intros e [H|H]%B2; [by apply A2 | by right].
    + destruct B3 as [B3|[B3|B3]]; [|auto..]. rewrite B3. destruct A3 as [A3|[A3|A3]]; auto. right. right.
      rewrite E2. apply elem_of_app. by left.
Qed.

Lemma evolves_queue p q e h : event_ok p q e -> evolves p q h (queueEvent e h).
Proof.
  intros He. destruct (queueEvent_frame e h) as (_ & _ & Eu & _ & _ & Eo). split.
  - exists []. by rewrite app_nil_r.
  - intros e' He'. rewrite queueEvent_events in He'. case_decide; [|by left].
    apply elem_of_app in He' as [He'|He']; [by left|]. apply list_elem_of_singleton in He' as ->. by right.
  - by left.
Qed.

Lemma evolves_put p q o h : output_ok q o -> evolves p q h (put o h).
Proof. intros Ho. split; [exists [o]; split; [done | by apply Forall_singleton] | by left | by left]. Qed.

(** A change of neither queue, outputs nor the unanswered heartbeat. *)
Lemma evolves_same p q h h' : outputs h' = outputs h -> (forall e, e ∈ events h' -> e ∈ events h) ->
  unrespondedHeartbeat h' = unrespondedHeartbeat h \/ unrespondedHeartbeat h' = 0 -> evolves p q h h'.
Proof. intros E1 E2 E3. split; [exists []; by rewrite app_nil_r | auto | tauto]. Qed.

#[local] Hint Resolve evolves_queue evolves_put : heartbeat.

Lemma evolves_Rx p q m h : genuine q m -> evolves p q h (Rx (wire_message m) h).
Proof.
  intros [G1 G2]. pose proof (time_wire HeartbeatHeader m) as E1. pose proof (time_wire HeartbeatResponseHeader m) as E2.
  rewrite <- E1 in G1 by done. rewrite <- E2 in G2 by done. unfold time_of in G1, G2. unfold Rx.
  assert (evolves p q h (match MessageHeader.GetUint64Header (wire_message m) HeartbeatHeader with
    | (val, true) => queueEvent (heartbeatRxEvent (int64 val)) h | (_, false) => h end)) as H1.
  { destruct (MessageHeader.GetUint64Header (wire_message m) HeartbeatHeader) as [v []]; [|done].
    apply evolves_queue. by apply G1. }
  etrans; [exact H1|]. destruct (MessageHeader.GetUint64Header (wire_message m) HeartbeatResponseHeader) as [v []]; [|done].
  apply evolves_queue. by apply G2.
Qed.

Lemma evolves_handle p q e h : event_ok p q e -> evolves p q h (handle e h).
Proof.
  intros He. destruct e as [t|t|t|t|]; cbn.
  - by apply evolves_put.
  - etrans; [|by apply evolves_put]. split.
    + exists [HeartbeatRx t]. split; [done | by apply Forall_singleton].
    + by left.
    + right. right. cbn. apply elem_of_app. right. by left.
  - by apply evolves_put.
  - by apply evolves_put.
  - case_decide; [by apply evolves_put | done].
Qed.

Lemma evolves_pulse p q c h h' : (forall e, e ∈ events h -> event_ok p q e) ->
  pulse_round c h = (Ret tt, h') -> evolves p q h h'.
Proof.
  intros He. destruct c as [now| |]; cbn.
  - intros [= <-]. etrans; [|by apply evolves_put]. case_decide; [by apply evolves_put | done].
  - destruct (events h) as [|e rest] eqn:E; [done|]. intros [= <-].
    etrans; [|apply evolves_handle, He; by left]. apply evolves_same; [done | | by left].
    intros e'. rewrite E. cbn. by right.
  - destruct (reconfigC h) as [|i rest]; [done|]. intros [= <-]. apply evolves_same; case_decide; auto.
Qed.

Lemma evolves_update p q s c h : evolves p q h (UpdateIntervals s c h).
Proof. unfold UpdateIntervals. apply evolves_same; case_decide; auto. Qed.

Lemma evolves_tx_step p q pc h : evolves p q h (tx_step pc h).2.
Proof.
  destruct pc; cbn; try done; try (case_decide; done); try (by apply evolves_queue).
  - by apply evolves_same; [| |left].
  - by apply evolves_same; [| |right].
Qed.

(** A side whose heartbeater evolves. *)
Lemma beater_evolves p q h : peers_ok p q -> evolves p q (beater p) h ->
  grows p (set_beater h p) /\ peers_ok (set_beater h p) q.
Proof.
  intros [P1 P2 P3 P4 P5 P6 P7 P8] [(os & E & F) E2 E3].
  assert (forall o, reported p o -> reported (set_beater h p) o) as Hr
    by (intros o Ho; unfold reported; cbn; rewrite E; apply elem_of_app; by left).
  assert (grows p (set_beater h p)) as Hg by (split; [done|]; intros t [Ht|Ht]; [left; by apply Hr | by right]).
  assert (forall o, o ∈ outputs h -> reported p o \/ output_ok q o) as Ho.
  { intros o. rewrite E. intros Hin. apply elem_of_app in Hin as [Hin|Hin]; [by left|]. right.
    rewrite Forall_forall in F. exact (F o Hin). }
  split; [done|]. split; cbn.
  - done.
  - intros pc Hpc. eapply genuine_grows; [exact Hg | by apply P2].
  - done.
  - intros e [H|H]%E2; [by apply P4 in H; destruct e | by destruct e].
  - destruct E3 as [E3|[E3|E3]]; [|by left | by right; left]. rewrite E3. destruct P5 as [P5|P5]; [by left|]. right. by apply Hg.
  - done.
  - intros t [[H|H]%Ho|H]; [apply P7; by left | exact H | apply P7; by right].
  - intros t [H|H]%Ho; [by apply P8 | exact H].
Qed.

(** The pulse loop. *)
Lemma pulse_ok p q c p' : peers_ok p q -> pulse_step c p = Some p' -> grows p p' /\ peers_ok p' q.
Proof.
  intros Hp. pose proof Hp as [P1 P2 P3 P4 P5 P6 P7 P8]. unfold pulse_step. destruct (pulsing p) as [|t|t] eqn:Epc.
  - intros H. assert ((exists t rest, events (beater p) = heartbeatRxEvent t :: rest /\
      p' = set_pulsing (PStore t) (set_beater (set_events rest (beater p)) p)) \/
      exists h, pulse_round c (beater p) = (Ret tt, h) /\ p' = set_beater h p) as [(t & rest & E & ->)|(h & E & ->)].
    { destruct c; [|destruct (events (beater p)) as [|[] rest] eqn:E; try (by injection H as <-; eauto)|];
        (destruct (pulse_round _ _) as [[[]| | |] h]; [|done..]); injection H as <-; eauto. }
    + assert (grows p (set_pulsing (PStore t) (set_beater (set_events rest (beater p)) p))) as Hg.
      { split; [done|]. intros t0 [H0|H0]; [by left | congruence]. }
      split; [exact Hg|]. split; cbn; auto.
      * intros pc Hpc. eapply genuine_grows; [exact Hg | by apply P2].
      * intros e He. specialize (P4 e). rewrite E in P4. destruct e; apply P4; by right.
      * destruct P5 as [|P5]; [by left|]. right. by apply Hg.
      * intros t0 [= <-]. apply (P4 (heartbeatRxEvent t)). rewrite E. by left.
      * intros t0 [H0|H0]; [apply P7; by left | done].
    + apply beater_evolves; [done|]. by eapply evolves_pulse.
  - intros [= <-]. assert (grows p (set_pulsing (PReport t) (set_beater (set_unresponded t (beater p)) p))) as Hg.
    { split; [done|]. intros t0 [H0|H0]; [by left | congruence]. }
    split; [exact Hg|]. split; cbn; auto; try done.
    + intros pc Hpc. eapply genuine_grows; [exact Hg | by apply P2].
    + right. by right.
    + intros t0 [H0|H0]; [apply P7; by left | injection H0 as <-; by apply P6].
  - intros [= <-]. set (h := put _ _).
    assert (grows p (set_pulsing PIdle (set_beater h p))) as Hg.
    { split; [done|]. intros t0 [H0|H0]; left; unfold reported, h; cbn; rewrite !elem_of_app; [by left; left|].
      rewrite Epc in H0. injection H0 as <-. left. right. by left. }
    split; [exact Hg|]. split; cbn; auto; try done.
    + intros pc Hpc. eapply genuine_grows; [exact Hg | by apply P2].
    + destruct P5 as [|P5]; [by left|]. right. by apply Hg.
    + intros t0 [H0|H0]; [|done]. unfold reported, h in H0. cbn in H0. rewrite !elem_of_app in H0.
      destruct H0 as [[H0|H0]|H0]; [apply P7; by left | | by apply list_elem_of_singleton in H0].
      apply list_elem_of_singleton in H0. injection H0 as ->. apply P7. by right.
    + intros t0 H0. unfold reported, h in H0. cbn in H0. rewrite !elem_of_app in H0.
      destruct H0 as [[H0|H0]|H0]; [by apply P8 | by apply list_elem_of_singleton in H0..].
Qed.

(** *** Transmissions *)

(** A step of a transmission puts only its own side's times on the message. *)
Lemma tx_step_genuine p q pc : peers_ok p q -> Forall is_time (beats q) -> pc ∈ sending p ->
  let r := tx_step pc (beater p) in
  let p' := mkPeer r.2 (sending p) (beats p ++ new_beat pc r.1) (pulsing p) in
  genuine p' (msg_of r.1) /\ Forall is_time (new_beat pc r.1) /\
  match r.1 with TLast t _ | TInterval t _ _ => is_time t | _ => True end.
Proof.
  intros Hp Hq Hpc r p'. pose proof (po_sending _ _ Hp _ Hpc) as [G1 G2]. pose proof (po_now _ _ Hp _ Hpc) as Hn.
  destruct (ev_outputs _ _ _ _ (evolves_tx_step p q pc (beater p))) as (os & Eo & _). fold r in Eo.
  assert (forall t, heard p t -> heard p' t) as Hr
    by (intros t [Ho|Ho]; [left; unfold reported; cbn; rewrite Eo; apply elem_of_app; by left | by right]).
  assert (forall t, t ∈ beats p -> t ∈ beats p') as Hb by (intros t Ht; cbn; apply elem_of_app; by left).
  assert (genuine p' (msg_of pc)) as Hsame by (split; auto).
  subst p'. revert Hr Hb Hsame. destruct pc as [now m|now last m|now m|now m|now m|now m|now m|m]; subst r; cbn in *;
    try (intros Hr Hb Hsame; split_and!; done).
  - destruct (decide _) as [Hd|Hd]; cbn; intros Hr Hb Hsame; [|split_and!; done].
    split; [split|]; cbn; [| |split; [by apply Forall_singleton | done]].
    + intros t. rewrite time_put by done. intros [= <-]. apply elem_of_app. right. by left.
    + intros t. rewrite time_put_ne by done. apply Hsame.
  - destruct (decide _) as [Hd|Hd]; cbn; intros Hr Hb Hsame; [|split_and!; done].
    split; [split|]; cbn; [| |done].
    + intros t. rewrite time_put_ne by done. apply Hsame.
    + destruct (po_unresponded _ _ Hp) as [H0|Hu]; [done|].
      assert (is_time (unrespondedHeartbeat (beater p))) as Ht by (rewrite Forall_forall in Hq; by apply Hq, (po_heard _ _ Hp)).
      intros t. rewrite time_put by done. intros [= <-]. by apply Hr.
Qed.

Lemma step_thread_ok p q i pc : peers_ok p q -> Forall is_time (beats q) -> sending p !! i = Some pc ->
  grows p (step_thread i pc p) /\ peers_ok (step_thread i pc p) q.
Proof.
  intros Hp Hq Hi. assert (pc ∈ sending p) as Hpc by (by eapply list_elem_of_lookup_2).
  destruct (tx_step_genuine p q pc Hp Hq Hpc) as (G & T & N). cbn zeta in *.
  pose proof (evolves_tx_step p q pc (beater p)) as He. unfold step_thread.
  destruct (tx_step pc (beater p)) as [pc' h]. cbn [fst snd] in *.
  destruct (beater_evolves p q h Hp He) as [[_ Hg] [P1 P2 P3 P4 P5 P6 P7 P8]].
  assert (grows p (mkPeer h (<[i:=pc']> (sending p)) (beats p ++ new_beat pc pc') (pulsing p))) as Hgr.
  { split; [|exact Hg]. intros t Ht. cbn. apply elem_of_app. by left. }
  split; [exact Hgr|]. split; cbn in *; try done.
  - by apply Forall_app.
  - intros x (j & Hx)%list_elem_of_lookup. apply list_lookup_insert_Some in Hx as [(-> & <- & _)|[_ Hx]]; [exact G|].
    eapply genuine_grows; [exact Hgr|]. apply (po_sending _ _ Hp). by eapply list_elem_of_lookup_2.
  - intros x (j & Hx)%list_elem_of_lookup. apply list_lookup_insert_Some in Hx as [(-> & <- & _)|[_ Hx]]; [exact N|].
    apply P3. by eapply list_elem_of_lookup_2.
Qed.

(** Only the transmissions change. *)
Lemma sending_ok p q l : peers_ok p q ->
  (forall pc, pc ∈ l -> pc ∈ sending p \/
     genuine p (msg_of pc) /\ match pc with TLast t _ | TInterval t _ _ => is_time t | _ => True end) ->
  peers_ok (set_sending l p) q.
Proof.
  intros [P1 P2 P3 P4 P5 P6 P7 P8] Hl. split; try done; cbn.
  - intros pc Hpc. destruct (Hl pc Hpc) as [Hin|[Hg _]]; [exact (P2 pc Hin) | exact Hg].
  - intros pc Hpc. destruct (Hl pc Hpc) as [Hin|[_ Hn]]; [exact (P3 pc Hin) | exact Hn].
Qed.

Lemma beat_step_inv n n' : net_inv n -> beat_step n n' -> net_inv n'.
Proof.
  intros Hi Hs.
  assert (forall b h, evolves (side n b) (side n (negb b)) (beater (side n b)) h ->
    net_inv (set_side b (set_beater h (side n b)) n)) as Hbeat.
  { intros b h He. destruct (beater_evolves _ _ h (ni_peers _ Hi b) He). by apply net_inv_side. }
  destruct Hs as [b now m n Ht Hg|b i pc n Hp|b i m n Hp|b j n|b j m n Hm|b c p n Hc|b n|b s c n].
  - apply net_inv_side; [done | done|]. apply sending_ok; [apply Hi|]. intros pc [Hpc|Hpc]%elem_of_app; [by left|].
    apply list_elem_of_singleton in Hpc as ->. right. unfold tx_begin. by case_decide.
  - pose proof (po_times _ _ (ni_peers _ Hi (negb b))) as Hq.
    destruct (step_thread_ok _ _ _ _ (ni_peers _ Hi b) Hq Hp). by apply net_inv_side.
  - assert (genuine (side n b) m) as Hg by (apply (po_sending _ _ (ni_peers _ Hi b) (TDone m)); by eapply list_elem_of_lookup_2).
    apply net_inv_flight.
    + apply net_inv_side; [done | done|]. apply sending_ok; [apply Hi|]. intros pc Hpc. left. by eapply list_elem_of_delete_inv.
    + intros m' [Hm'|Hm']%elem_of_app; unfold set_side; cbn; rewrite fn_lookup_insert;
        [exact (ni_flight _ Hi b m' Hm') | by apply list_elem_of_singleton in Hm' as ->].
  - apply net_inv_flight; [done|]. intros m Hm. apply (ni_flight _ Hi). by eapply list_elem_of_delete_inv.
  - assert (genuine (side n b) m) as Hg by (apply (ni_flight _ Hi); by eapply list_elem_of_lookup_2).
    apply net_inv_flight.
    + apply Hbeat. apply evolves_Rx. by rewrite negb_involutive.
    + intros m' Hm'. unfold set_side. cbn. rewrite fn_lookup_insert_ne by (by destruct b).
      apply (ni_flight _ Hi). by eapply list_elem_of_delete_inv.
  - destruct (pulse_ok _ _ _ _ (ni_peers _ Hi b) Hc). by apply net_inv_side.
  - apply Hbeat. by apply evolves_queue.
  - apply Hbeat. apply evolves_update.
Qed.

Lemma beat_reachable_inv i1 i2 c1 c2 n : rtc beat_step (beat_start i1 i2 c1 c2) n -> net_inv n.
Proof.
  assert (net_inv (beat_start i1 i2 c1 c2)) as H0.
  { split; cbn; [|by intros b m ?%elem_of_nil]. intros b. split; cbn; try done; try (by intros ? ?%elem_of_nil); [by left|].
    intros t [Ht|Ht]; [by apply elem_of_nil in Ht | done]. }
  intros Hr. revert H0. induction Hr as [|n1 n2 n3 Hs _ IH]; intros H0; [done|]. apply IH. by eapply beat_step_inv.
Qed.

(** ** Lemmas: what transmissions compare with *)

(** The last heartbeat, stored or read by a transmission, is one that was put on
    a message; 0 before the first. *)
Definition was_sent (p : peer) (t : Z) : Prop := t = 0 \/ t ∈ beats p.

Record clock_ok (p : peer) : Prop := {
  co_last : was_sent p (lastHeartbeatTx (beater p));
  co_sending pc : pc ∈ sending p ->
    match pc with TInterval _ last _ => was_sent p last | TRecord now _ => now ∈ beats p | _ => True end
}.

(** A change of the rest. *)
Lemma clock_frame p p' : clock_ok p -> lastHeartbeatTx (beater p') = lastHeartbeatTx (beater p) ->
  sending p' = sending p -> beats p' = beats p -> clock_ok p'.
Proof. intros [H1 H2] E1 E2 E3. split; unfold was_sent in *; by rewrite ?E1, ?E2, ?E3. Qed.

Lemma clock_sending p l : clock_ok p ->
  (forall pc, pc ∈ l -> pc ∈ sending p \/ match pc with TLast _ _ | TDone _ => True | _ => False end) ->
  clock_ok (set_sending l p).
Proof.
  intros [H1 H2] Hl. split; [done|]. cbn. intros pc Hpc. destruct (Hl pc Hpc) as [Hin|Hn]; [exact (H2 pc Hin)|].
  by destruct pc.
Qed.

Lemma clock_thread p i pc : clock_ok p -> sending p !! i = Some pc -> clock_ok (step_thread i pc p).
Proof.
  intros [H1 H2] Hi. pose proof (H2 pc ltac:(by eapply list_elem_of_lookup_2)) as Hpc. unfold step_thread.
  assert (let r := tx_step pc (beater p) in
    was_sent (mkPeer r.2 (<[i := r.1]> (sending p)) (beats p ++ new_beat pc r.1) (pulsing p)) (lastHeartbeatTx r.2) /\
    match r.1 with TInterval _ last _ => was_sent p last | TRecord now _ => now ∈ beats p ++ new_beat pc r.1 | _ => True end) as [L1 L2].
  { unfold was_sent in *. destruct pc; cbn in *; rewrite ?app_nil_r; try done; try (destruct (queueEvent_frame (heartbeatTxEvent now) (beater p)) as (-> & _); done);
      try (destruct (queueEvent_frame (heartbeatRespTxEvent now) (beater p)) as (-> & _); done); try (by split; [right|]).
    - case_decide; cbn; rewrite ?app_nil_r; [|done]. split; [|apply elem_of_app; right; by left].
      destruct H1; [by left | right; apply elem_of_app; by left].
    - by case_decide. }
  destruct (tx_step pc (beater p)) as [pc' h]. cbn [fst snd] in *. split; [exact L1|]. cbn.
  assert (forall t, was_sent p t -> was_sent (mkPeer h (<[i := pc']> (sending p)) (beats p ++ new_beat pc pc') (pulsing p)) t) as Hgr.
  { intros t [->|Ht]; [by left | right; cbn; apply elem_of_app; by left]. }
  intros x (j & Hx)%list_elem_of_lookup. apply list_lookup_insert_Some in Hx as [(-> & <- & _)|[_ Hx]].
  - destruct pc'; auto.
  - specialize (H2 x ltac:(by eapply list_elem_of_lookup_2)). destruct x; auto. apply elem_of_app. by left.
Qed.

Lemma pulse_clock p c p' : pulse_step c p = Some p' ->
  lastHeartbeatTx (beater p') = lastHeartbeatTx (beater p) /\ sending p' = sending p /\ beats p' = beats p.
Proof.
  unfold pulse_step. destruct (pulsing p); [|by intros [= <-]..].
  assert (forall h, pulse_round c (beater p) = (Ret tt, h) -> lastHeartbeatTx h = lastHeartbeatTx (beater p)) as Hr.
  { intros h. destruct c; cbn.
    - intros [= <-]. by case_decide.
    - destruct (events (beater p)) as [|[] ?]; cbn; try case_decide; by intros [= <-].
    - destruct (reconfigC (beater p)); [done|]. case_decide; by intros [= <-]. }
  intros H. destruct c; [|destruct (events (beater p)) as [|[] rest]; try (by injection H as <-)|];
    (destruct (pulse_round _ _) as [[[]| | |] h]; [|done..]); injection H as <-; (split; [by apply Hr | done]).
Qed.

Lemma Rx_clock m h : lastHeartbeatTx (Rx m h) = lastHeartbeatTx h.
Proof.
  unfold Rx. assert (forall e h, lastHeartbeatTx (queueEvent e h) = lastHeartbeatTx h) as E by (intros; apply queueEvent_frame).
  repeat case_match; by rewrite ?E.
Qed.

Lemma clock_side n b p : (forall b', clock_ok (side n b')) -> clock_ok p -> forall b', clock_ok (side (set_side b p n) b').
Proof.
  intros H Hp b'. unfold set_side. cbn. destruct (decide (b' = b)) as [->|Hne].
  - by rewrite fn_lookup_insert.
  - by rewrite fn_lookup_insert_ne by done.
Qed.

Lemma beat_step_clock n n' : beat_step n n' -> (forall b, clock_ok (side n b)) -> forall b, clock_ok (side n' b).
Proof.
  intros Hs H. destruct Hs as [b now m n Ht Hg|b i pc n Hp|b i m n Hp|b j n|b j m n Hm|b c p n Hc|b n|b s c n];
    try apply clock_side; try done.
  - apply clock_sending; [done|]. intros pc [Hpc|Hpc]%elem_of_app; [by left|]. apply list_elem_of_singleton in Hpc as ->.
    right. unfold tx_begin. by case_decide.
  - by apply clock_thread.
  - apply clock_sending; [done|]. intros pc Hpc. left. by eapply list_elem_of_delete_inv.
  - eapply clock_frame; [apply H | apply Rx_clock | done..].
  - destruct (pulse_clock _ _ _ Hc) as (E1 & E2 & E3). by eapply clock_frame.
  - eapply clock_frame; [apply H | apply queueEvent_frame | done..].
  - eapply clock_frame; [apply H | unfold UpdateIntervals; by case_decide | done..].
Qed.

Lemma beat_reachable_clock i1 i2 c1 c2 n b : rtc beat_step (beat_start i1 i2 c1 c2) n -> clock_ok (side n b).
Proof.
  intros Hr. revert b. assert (forall b, clock_ok (side (beat_start i1 i2 c1 c2) b)) as H0.
  { intros b. split; cbn; [by left | by intros pc ?%elem_of_nil]. }
  revert H0. induction Hr as [|n1 n2 n3 Hs _ IH]; intros H0; [done|]. apply IH. by eapply beat_step_clock.
Qed.

(** ** Properties *)

(** C26: heartbeats are sent when due.  Two sides have heartbeats configured.
    However the accesses of several transmissions of a side interleave with each
    other and with everything else: a message that is not raw gets a heartbeat
    with the time its transmission has read, or the heartbeat that it is compared
    with is at most the send interval old and was put on a message (or is the
    initial 0).  When the transmissions of a heartbeater do not overlap, the
    times they read do not go back, the interval is not changed and the messages
    bring no heartbeat of their own, the heartbeats are also more than the send
    interval apart, and at every message that is not raw the latest is at most
    the send interval old.  When the pulse loop ticks and a heartbeat is
    overdue, it sends a standalone message, and that message carries a heartbeat
    when it is transmitted, unless another one was sent in the meantime. *)
Theorem heartbeats_on_time (i1 i2 c1 c2 : Z) (n : net) (b : bool) (l : list (Z * Message)) (t tick now : Z)
    (h : heartbeater) :
  rtc beat_step (beat_start i1 i2 c1 c2) n ->
  is_time (lastHeartbeatTx h) -> 0 <= heartBeatIntervalNs h ->
  lastHeartbeatTx h <= t -> in_time t l -> is_time tick -> is_time now -> tick <= now ->
  let i := heartBeatIntervalNs h in
  let ms := (tx_all l h).1 in
  (forall j now last m, sending (side n b) !! j = Some (TInterval now last m) ->
     let p' := step_thread j (TInterval now last m) (side n b) in
     (exists m', sending p' !! j = Some (TRecord now m') /\ time_of HeartbeatHeader m' = Some now /\ now ∈ beats p') \/
     (sending p' !! j = Some (TAnswer now m) /\ int64 (now - last) <= heartBeatIntervalNs (beater (side n b)) /\
      was_sent (side n b) last)) /\
  spaced i (lastHeartbeatTx h) (omap beat ms) /\ covered i (lastHeartbeatTx h) l ms /\
  (exists h', pulse_round (PTick tick) h = (Ret tt, h') /\ lastHeartbeatTx h' = lastHeartbeatTx h /\
     (tick - lastHeartbeatTx h <= i \/
      exists m, outputs h' = outputs h ++ [Standalone m Second true; CheckHeartBeat] /\
        beat (Tx now m h').1 = Some now)).
Proof.
  intros Hr Hl Hi Ht Hin Htick Hnow Hle i ms. split.
  - intros j now0 last m Hj p'. pose proof (beat_reachable_clock _ _ _ _ _ b Hr) as Hc.
    pose proof (ni_peers _ (beat_reachable_inv _ _ _ _ _ Hr) b) as Hp.
    assert (TInterval now0 last m ∈ sending (side n b)) as Hel by (by eapply list_elem_of_lookup_2).
    pose proof (co_sending _ Hc _ Hel) as Hlast. pose proof (po_now _ _ Hp _ Hel) as Htime. cbn in Hlast, Htime.
    unfold p', step_thread. cbn [tx_step].
    case_decide as Hd; [left | right]; cbn [sending beats new_beat]; rewrite list_lookup_insert_eq by (by eapply lookup_lt_Some).
    + eexists. split; [done|]. split; [by apply time_put|]. apply elem_of_app. right. by left.
    + split; [done|]. split; [lia | done].
  - destruct (spacing l t h Hl Hi Ht Hin) as [H1 H2]. split; [exact H1|]. split; [exact H2|].
    by apply tick_overdue.
Qed.

(** Transmissions that overlap: both read the last heartbeat before either stores
    its own, and two messages of one instant carry heartbeats. *)
Example overlapping_heartbeats :
  let h := ConfigureHeartbeat 10 in
  let m := NewMessage 7 [] in
  let '(a, h) := tx_run 2 (tx_begin 50 m) h in
  let '(b, h) := tx_run 5 (tx_begin 50 m) h in
  let '(a, h) := tx_run 3 a h in
  time_of HeartbeatHeader (msg_of a) = Some 50 /\ time_of HeartbeatHeader (msg_of b) = Some 50.
Proof. vm_compute. split; reflexivity. Qed.

(** C27: heartbeats that are reported are real.  Two sides have heartbeats
    configured.  However the accesses of their transmissions, receipts, pulse
    loops, timers and retunings interleave, whatever is lost or overtaken on the
    network and whatever is sent again: a heartbeat that a side reports to its
    application was put on a message by the other side, at the reported time;
    and a response that it reports answers a heartbeat that it sent itself and
    that the other side has reported before, or has stored for answering and
    reports in the next step of its pulse loop.  The steps of a transmission,
    and those of a pulse loop with a received heartbeat, are without others in
    between those of [Tx] and [pulse_round]. *)
Theorem reports_are_real (i1 i2 c1 c2 : Z) (n : net) (b : bool) (t : Z) :
  rtc beat_step (beat_start i1 i2 c1 c2) n ->
  (reported (side n b) (HeartbeatRx t) -> t ∈ beats (side n (negb b)) /\ is_time t) /\
  (reported (side n b) (HeartbeatRespRx t) -> t ∈ beats (side n b) /\
     (reported (side n (negb b)) (HeartbeatRx t) \/
      pulsing (side n (negb b)) = PReport t /\
      forall c, exists p, pulse_step c (side n (negb b)) = Some p /\ reported p (HeartbeatRx t))) /\
  (forall now m h, tx_run 7 (tx_begin now m) h = (TDone (Tx now m h).1, (Tx now m h).2)) /\
  (forall h l bs t rest, events h = heartbeatRxEvent t :: rest ->
     (p1 ← pulse_step PEvent (mkPeer h l bs PIdle); p2 ← pulse_step PEvent p1; pulse_step PEvent p2) =
     Some (mkPeer (pulse_round PEvent h).2 l bs PIdle)).
Proof.
  intros Hi%beat_reachable_inv. split; [|split; [|split; [exact tx_alone | exact pulse_alone]]].
  - intros Hr. pose proof (po_heard _ _ (ni_peers _ Hi b) t (or_introl Hr)) as Ht. split; [exact Ht|].
    pose proof (po_times _ _ (ni_peers _ Hi (negb b))) as Hq. rewrite Forall_forall in Hq. by apply Hq.
  - intros Hr. pose proof (po_answered _ _ (ni_peers _ Hi b) t Hr) as Ha.
    pose proof (po_heard _ _ (ni_peers _ Hi (negb b)) t Ha) as Hb. rewrite negb_involutive in Hb. split; [exact Hb|].
    destruct Ha as [Ha|Ha]; [by left|]. right. split; [exact Ha|]. intros c. unfold pulse_step. rewrite Ha.
    eexists. split; [reflexivity|]. unfold reported. cbn. rewrite !elem_of_app. left. right. by left.
Qed.

(** *** Witness: a heartbeat and its answer *)

(** Steps that can be run: messages are new, and nothing is lost. *)
Inductive play : Type :=
  | Begins (b : bool) (now : Z) (m : Message)
  | Thread (b : bool) (i : nat)
  | Transmits (b : bool) (i : nat)
  | Delivers (b : bool) (j : nat)
  | Pulses (b : bool).

Definition play_step (n : net) (a : play) : option net :=
  match a with
  | Begins b now m =>
      if decide (0 <= now < 2 ^ 63 /\ time_of HeartbeatHeader m = None /\ time_of HeartbeatResponseHeader m = None)
      then Some (set_side b (set_sending (sending (side n b) ++ [tx_begin now m]) (side n b)) n) else None
  | Thread b i => pc ← sending (side n b) !! i; Some (set_side b (step_thread i pc (side n b)) n)
  | Transmits b i =>
      match sending (side n b) !! i with
      | Some (TDone m) =>
          Some (set_flight b (flight n b ++ [m]) (set_side b (set_sending (delete i (sending (side n b))) (side n b)) n))
      | _ => None
      end
  | Delivers b j =>
      m ← flight n b !! j;
      Some (set_flight b (delete j (flight n b))
        (set_side (negb b) (set_beater (Rx (wire_message m) (beater (side n (negb b)))) (side n (negb b))) n))
  | Pulses b => p ← pulse_step PEvent (side n b); Some (set_side b p n)
  end.

Fixpoint plays (l : list play) (n : net) : option net :=
  match l with
  | [] => Some n
  | a :: l => n' ← play_step n a; plays l n'
  end.

Lemma play_step_ok n a n' : play_step n a = Some n' -> beat_step n n'.
Proof.
  destruct a as [b now m|b i|b i|b j|b]; cbn -[pulse_step].
  - case_decide as H; [|done]. destruct H as (Ht & H1 & H2). intros [= <-]. constructor; [done|].
    split; intros t; congruence.
  - destruct (sending (side n b) !! i) as [pc|] eqn:E; [|done]. intros [= <-]. by constructor.
  - destruct (sending (side n b) !! i) as [[]|] eqn:E; try done. intros [= <-]. by constructor.
  - destruct (flight n b !! j) as [m|] eqn:E; [|done]. intros [= <-]. by constructor.
  - destruct (pulse_step PEvent (side n b)) as [p|] eqn:E; [|done]. intros [= <-]. by apply (beat_pulse b PEvent).
Qed.

Lemma plays_ok l : forall n n', plays l n = Some n' -> rtc beat_step n n'.
Proof.
  induction l as [|a l IH]; intros n n' E; cbn in E; [by injection E as <-|].
  destruct (play_step n a) as [n1|] eqn:E1; [|done]. eapply rtc_l; [by eapply play_step_ok | by apply IH].
Qed.

(** One side sends a heartbeat, the other answers it. *)
Definition ex_play : list play :=
  [Begins true 50 (NewMessage 7 [])] ++ replicate 5 (Thread true 0) ++ [Transmits true 0; Delivers true 0] ++
  replicate 3 (Pulses false) ++ [Begins false 60 (NewMessage 7 [])] ++ replicate 5 (Thread false 0) ++
  [Transmits false 0; Delivers false 0; Pulses true; Pulses true].

Lemma reports_are_real_witness :
  exists n, rtc beat_step (beat_start 10 1000 5 5) n /\ reported (side n true) (HeartbeatRespRx 50) /\
    50 ∈ beats (side n true).
Proof.
  destruct (plays ex_play (beat_start 10 1000 5 5)) as [n|] eqn:E; [|vm_compute in E; discriminate E].
  exists n. pose proof (plays_ok _ _ _ E) as Hr. split; [exact Hr|].
  assert (outputs (beater (side n true)) = [HeartbeatTx 50; HeartbeatRespRx 50]) as Ho.
  { transitivity (from_option (fun n => outputs (beater (side n true))) [] (plays ex_play (beat_start 10 1000 5 5))).
    - rewrite E. reflexivity.
    - vm_compute. reflexivity. }
  assert (reported (side n true) (HeartbeatRespRx 50)) as H50 by (unfold reported; rewrite Ho; right; left).
  split; [exact H50|]. exact (proj1 (proj1 (proj2 (reports_are_real 10 1000 5 5 n true 50 Hr)) H50)).
Defined.

(** A transmission between the two steps of the pulse loop: the response is
    reported while the heartbeat is not yet. *)
Definition early_play : list play :=
  [Begins true 50 (NewMessage 7 [])] ++ replicate 5 (Thread true 0) ++ [Transmits true 0; Delivers true 0] ++
  replicate 2 (Pulses false) ++ [Begins false 60 (NewMessage 7 [])] ++ replicate 5 (Thread false 0) ++
  [Transmits false 0; Delivers false 0; Pulses true; Pulses true].

Example answered_before_reported :
  (fun n => (outputs (beater (side n true)), outputs (beater (side n false)), pulsing (side n false))) <$>
    plays early_play (beat_start 10 1000 5 5) = Some ([HeartbeatTx 50; HeartbeatRespRx 50], [], PReport 50).
Proof. vm_compute. reflexivity. Qed.

Lemma heartbeats_on_time_witness :
  let h := ConfigureHeartbeat 10 in
  let m := NewMessage 7 [] in
  omap beat (tx_all [(11, m); (15, m); (30, m)] h).1 = [11; 30] /\
  spaced 10 0 (omap beat (tx_all [(11, m); (15, m); (30, m)] h).1).
Proof.
  intros h m. split; [vm_compute; reflexivity|].
  refine (proj1 (proj2 (heartbeats_on_time 10 10 5 5 _ true [(11, m); (15, m); (30, m)] 0 5 5 h (rtc_refl _ _) _ _ _ _ _ _ _)));
    unfold is_time; try (cbn; lia).
  cbn [in_time]. unfold is_time. repeat split; (reflexivity || lia).
Defined.
