(* ===== verification/Monitor.v ===== *)
(** * A channel with heartbeats (src/heartbeater.go, src/bind.go, src/impl.go)

    [ConfigureHeartbeat] registers a heartbeater with a binding: as the receive
    handler for standalone heartbeat messages, which it ignores, and as a
    transform handler, which the channel calls with every message it sends or
    receives; and it starts the pulse loop.  The transform functions of
    [ChannelImpl] have no state, so the channel keeps a place for the heartbeater
    among its handlers, and the operations of this file fill the place with the
    methods of the heartbeater in the state it has at the call.

    Theorem: what two such channels, with any other transform handlers that
    leave the heartbeat headers alone, do with a heartbeat, from the write of the
    message that carries it to the report of its answer. *)

From S2P Require Import Prelude Headers Wire Options Heartbeat Underlays Waiters ChannelImpl Link Binding.

(** ** Configuring *)

(** The channel, the heartbeater and its places among the transform handlers. *)
Record monitored : Type := mkMonitored {
  bound : setup;
  hb : heartbeater;
  placeRx : nat;
  placeTx : nat
}.

(** [HandleReceive] of the heartbeater ignores its message. *)
Definition HandleReceive (m : Message) (h : heartbeater) : heartbeater := h.

(** The place of the heartbeater in the lists of transforms. *)
Definition slot (m : Message) : Message := m.

(** [AddReceiveHandler], [AddTransformHandler] and [go hb.pulse(checkInterval)]. *)
Definition register (handlerId : nat) (checkInterval : Z) : ST setup unit :=
  _ ← on_channel (AddReceiveHandler ContentTypeHeartbeat handlerId);
  _ ← on_channel (AddTransformHandler slot slot);
  go (PulseRun handlerId checkInterval).

Definition configure (handlerId : nat) (heartbeatInterval checkInterval : Z) (s : setup) : outcome unit * monitored :=
  let '(r, s') := register handlerId checkInterval s in
  (r, mkMonitored s' (ConfigureHeartbeat heartbeatInterval)
        (length (transformRx (handlers (setup_ch s)))) (length (transformTx (handlers (setup_ch s))))).

(** ** Operations *)

Definition chan (x : monitored) : channelImpl := setup_ch (bound x).
Definition set_chan (c : channelImpl) (x : monitored) : monitored :=
  mkMonitored (mkSetup c (userData (bound x)) (started (bound x))) (hb x) (placeRx x) (placeTx x).
Definition set_hb (h : heartbeater) (x : monitored) : monitored := mkMonitored (bound x) h (placeRx x) (placeTx x).

Definition set_transformTx (l : list (Message -> Message)) : channelImpl -> channelImpl :=
  set_handlers (fun hs => mkHandlers (receiveHandlers hs) (peekHandlers hs) (transformRx hs) l
    (errorHandlers hs) (closeHandlers hs)).

Definition run_transforms (l : list (Message -> Message)) (m : Message) : Message := foldl (fun m f => f m) m l.

(** The message as the heartbeater sees it. *)
Definition seen_tx (x : monitored) (m : Message) : Message :=
  run_transforms (take (placeTx x) (transformTx (handlers (chan x)))) m.
Definition seen_rx (x : monitored) (m : Message) : Message :=
  run_transforms (take (placeRx x) (transformRx (handlers (chan x)))) m.

(** [channelImpl.tx], with the heartbeater in its place; [clock] is the time the
    heartbeater reads. *)
Definition mon_tx (env : tx_env) (s : sendable) (writeTimeout now clock : Z) : ST monitored unit := fun x =>
  let c := chan x in
  let l := transformTx (handlers c) in
  let '(r, c') := tx env s writeTimeout now
    (set_transformTx (<[placeTx x := fun m => (Tx clock m (hb x)).1]> l) c) in
  let h := match writeContextErr s, msg s with
           | None, Some m => (Tx clock (seen_tx x m) (hb x)).2
           | _, _ => hb x
           end in
  (r, set_hb h (set_chan (set_transformTx l c') x)).

(** [channelImpl.rx]; the heartbeater does not change what it receives. *)
Definition mon_rx (rng : gmap Z (waiter receiver) -> list (Z * waiter receiver)) (m : Message) (now : Z)
    : ST monitored unit := fun x =>
  let '(r, c') := rx rng m now (chan x) in (r, set_hb (Rx (seen_rx x m) (hb x)) (set_chan c' x)).

(** Rounds of the pulse loop. *)
Definition mon_pulse (cs : list pulse_choice) : ST monitored unit := fun x =>
  let '(r, h) := pulse_rounds cs (hb x) in (r, set_hb h x).

(** ** Specifications *)

(** A transform that leaves the heartbeat headers and the content type alone. *)
Definition neutral (f : Message -> Message) : Prop := forall m,
  Headers (f m) !! HeartbeatHeader = Headers m !! HeartbeatHeader /\
  Headers (f m) !! HeartbeatResponseHeader = Headers m !! HeartbeatResponseHeader /\ ContentType (f m) = ContentType m.

Record monitored_ok (x : monitored) : Prop := {
  mo_place : (placeTx x < length (transformTx (handlers (chan x))))%nat;
  mo_tx : Forall neutral (transformTx (handlers (chan x)));
  mo_rx : Forall neutral (transformRx (handlers (chan x)))
}.

(** A sendable that is written. *)
Definition written_as (env : tx_env) (s : sendable) (writeTimeout : Z) (m : Message) : Prop :=
  writeContextErr s = None /\ msg s = Some m /\
  (if decide (0 < writeTimeout) then setTimeoutErr env else None) = None /\ txErr env = None.

(** ** Lemmas *)

Lemma neutral_slot : neutral slot.
Proof. done. Qed.

Lemma neutral_run l : Forall neutral l -> neutral (run_transforms l).
Proof.
  induction 1 as [|f l Hf _ IH]; [done|]. intros m. cbn. destruct (IH (f m)) as (E1 & E2 & E3), (Hf m) as (F1 & F2 & F3).
  unfold run_transforms in *. cbn. by rewrite E1, E2, E3.
Qed.

Lemma run_transforms_app l l' m : run_transforms (l ++ l') m = run_transforms l' (run_transforms l m).
Proof. apply foldl_app. Qed.

(** [Rx] depends on the heartbeat headers only. *)
Lemma Rx_headers m m' h :
  Headers m !! HeartbeatHeader = Headers m' !! HeartbeatHeader ->
  Headers m !! HeartbeatResponseHeader = Headers m' !! HeartbeatResponseHeader -> Rx m h = Rx m' h.
Proof. intros E1 E2. unfold Rx, MessageHeader.GetUint64Header, GetUint64Header. by rewrite E1, E2. Qed.

Lemma Rx_neutral f m h : neutral f -> Rx (f m) h = Rx m h.
Proof. intros Hf. destruct (Hf m) as (E1 & E2 & _). by apply Rx_headers. Qed.

Lemma Rx_wire_neutral f m h : neutral f -> Rx (wire_message (f m)) h = Rx (wire_message m) h.
Proof. intros Hf. destruct (Hf m) as (E1 & E2 & _). apply Rx_headers; by rewrite !wire_header. Qed.

Lemma seen_tx_neutral x : monitored_ok x -> neutral (seen_tx x).
Proof. intros Hx. apply neutral_run, Forall_take, Hx. Qed.

(** After configuring, the heartbeater has its place. *)
Lemma configure_ok handlerId i ci s : Forall neutral (transformTx (handlers (setup_ch s))) ->
  Forall neutral (transformRx (handlers (setup_ch s))) ->
  let x := (configure handlerId i ci s).2 in
  (configure handlerId i ci s).1 = Ret tt /\ monitored_ok x /\ hb x = ConfigureHeartbeat i /\
  receiveHandlers (handlers (chan x)) !! ContentTypeHeartbeat = Some (Plain handlerId) /\
  last (started (bound x)) = Some (PulseRun handlerId ci).
Proof.
  intros Ht Hr. set (l := transformTx (handlers (setup_ch s))) in *. set (l' := transformRx (handlers (setup_ch s))) in *.
  intros x. split; [done|].
  assert (transformTx (handlers (chan x)) = l ++ [slot] /\ transformRx (handlers (chan x)) = l' ++ [slot] /\
    placeTx x = length l) as (E1 & E2 & E3) by done.
  split; [|split; [done|]; split; [apply lookup_insert_eq | apply last_snoc]].
  split; rewrite ?E1, ?E2, ?E3; [rewrite length_app; cbn; lia | ..]; apply Forall_app;
    (split; [done | by apply Forall_singleton]).
Qed.

(** A written message is what the heartbeater made of it, but for the
    transforms of others. *)
Lemma mon_tx_written env s wt now clock x m : monitored_ok x -> written_as env s wt m ->
  exists w f, mon_tx env s wt now clock x = (Ret tt, (mon_tx env s wt now clock x).2) /\
    writes (log (chan (mon_tx env s wt now clock x).2)) = writes (log (chan x)) ++ [w] /\
    w = f (Tx clock (seen_tx x m) (hb x)).1 /\ neutral f /\
    hb (mon_tx env s wt now clock x).2 = (Tx clock (seen_tx x m) (hb x)).2 /\
    handlers (chan (mon_tx env s wt now clock x).2) = handlers (chan x) /\ monitored_ok (mon_tx env s wt now clock x).2.
Proof.
  intros [Hp Htx Hrx] (H1 & H2 & H3 & H4). unfold mon_tx. set (c := chan x) in *. set (l := transformTx (handlers c)) in *.
  set (c1 := set_transformTx _ c). pose proof (tx_writes env s wt now c1) as (r & c' & E & Eh & _ & Hw). cbn zeta in Hw.
  rewrite H1, H2, H3, H4 in Hw. destruct Hw as [-> Hw]. rewrite E, H1, H2. cbn [snd].
  exists (transformed c1 m), (run_transforms (drop (S (placeTx x)) l)). split; [done|].
  assert (handlers (set_transformTx l c') = handlers c) as Ehs.
  { cbn. rewrite Eh. cbn. unfold l. by destruct (handlers c). }
  assert (log (set_transformTx l c') = log c') as El by done.
  split; [cbn; exact Hw|]. split.
  - unfold transformed. cbn. change (foldl (fun m f => f m) m ?l) with (run_transforms l m).
    rewrite insert_take_drop by done. rewrite run_transforms_app. done.
  - split; [apply neutral_run; by apply Forall_drop|]. split; [done|]. split; [exact Ehs|].
    split; unfold chan; cbn [bound set_hb set_chan setup_ch placeTx placeRx]; by rewrite Ehs.
Qed.

Lemma mon_rx_hb rng m now x : monitored_ok x ->
  exists x', mon_rx rng m now x = (Ret tt, x') /\ hb x' = Rx m (hb x) /\ writes (log (chan x')) = writes (log (chan x)) /\
    monitored_ok x'.
Proof.
  intros [Hp Htx Hrx]. unfold mon_rx. pose proof (rx_spec rng m now (chan x)) as E. cbn zeta in E.
  pose proof (rx_quiet rng m now (chan x)) as Eh. pose proof (rx_writes rng m now (chan x)) as Ew.
  destruct (rx rng m now (chan x)) as [r c'] eqn:Er. injection E as -> _. cbn [snd] in *.
  eexists. split; [reflexivity|]. split; [|split; [exact Ew|]].
  - cbn. apply Rx_neutral, neutral_run, Forall_take, Hrx.
  - split; unfold chan; cbn [bound set_hb set_chan setup_ch placeTx placeRx]; by rewrite (proj1 Eh).
Qed.

(** ** Properties *)

(** C28: heartbeats between two channels, undisturbed.  Let heartbeats be
    configured on both ends, with any other transform handlers that leave the
    heartbeat headers alone.  Let the event queues of the two heartbeaters be
    empty when the messages arrive (a full queue drops events), and let the
    transmissions and the rounds of the pulse loops run one after the other, as
    listed, without others in between (overlapping transmissions may answer
    twice).  Sending a message when a heartbeat is due, at time [t], writes it
    with the heartbeat; when the other channel receives what was written, its
    pulse loop reports the heartbeat; the next message that this channel writes
    carries the answer, the one after does not; and when the first channel
    receives the answer, at most two rounds of its pulse loop report it with
    [t].  Configuring itself gives the heartbeater its place behind the
    transform handlers there are, makes it the receiver of standalone heartbeat
    messages, and starts the pulse loop. *)
Theorem heartbeats_between_channels (rng : gmap Z (waiter receiver) -> list (Z * waiter receiver))
    (xa xa' xb : monitored) (env : tx_env) (s s2 s3 : sendable) (m m2 m3 : Message) (wt now t t2 t3 : Z) :
  monitored_ok xa -> monitored_ok xa' -> monitored_ok xb ->
  written_as env s wt m -> written_as env s2 wt m2 -> written_as env s3 wt m3 ->
  is_time t -> t ≠ 0 -> is_time (lastHeartbeatTx (hb xa)) ->
  ContentType m ≠ ContentTypeRaw -> ContentType m2 ≠ ContentTypeRaw ->
  Headers m !! HeartbeatHeader = None -> Headers m3 !! HeartbeatResponseHeader = None ->
  heartBeatIntervalNs (hb xa) < t - lastHeartbeatTx (hb xa) -> events (hb xb) = [] -> events (hb xa') = [] ->
  (exists xa1 w, mon_tx env s wt now t xa = (Ret tt, xa1) /\ writes (log (chan xa1)) = writes (log (chan xa)) ++ [w] /\
   exists xb1 xb2, mon_rx rng (wire_message w) now xb = (Ret tt, xb1) /\ mon_pulse [PEvent] xb1 = (Ret tt, xb2) /\
     outputs (hb xb2) = outputs (hb xb) ++ [HeartbeatRx t; AfterFunc (2 * Millisecond)] /\
   exists xb3 w2 xb4 w3, mon_tx env s2 wt now t2 xb2 = (Ret tt, xb3) /\
     writes (log (chan xb3)) = writes (log (chan xb)) ++ [w2] /\
     mon_tx env s3 wt now t3 xb3 = (Ret tt, xb4) /\ writes (log (chan xb4)) = writes (log (chan xb3)) ++ [w3] /\
     Headers w3 !! HeartbeatResponseHeader = None /\
   exists cs xa2 xa3, (cs = [PEvent] \/ cs = [PEvent; PEvent]) /\ mon_rx rng (wire_message w2) now xa' = (Ret tt, xa2) /\
     mon_pulse cs xa2 = (Ret tt, xa3) /\ last (outputs (hb xa3)) = Some (HeartbeatRespRx t)) /\
  forall handlerId i ci st, Forall neutral (transformTx (handlers (setup_ch st))) ->
    Forall neutral (transformRx (handlers (setup_ch st))) ->
    exists x, configure handlerId i ci st = (Ret tt, x) /\ monitored_ok x /\ hb x = ConfigureHeartbeat i /\
      receiveHandlers (handlers (chan x)) !! ContentTypeHeartbeat = Some (Plain handlerId) /\
      last (started (bound x)) = Some (PulseRun handlerId ci).
Proof.
  intros Ha Ha' Hb Hs Hs2 Hs3 Ht Ht0 Hl Hr1 Hr2 Hm Hm3 Hdue Eb Ea'. split.
  2: { intros handlerId i ci st Hn1 Hn2. destruct (configure_ok handlerId i ci st Hn1 Hn2) as (E1 & E2 & E3 & E4 & E5).
       eexists. split; [|split; [exact E2 | done]]. rewrite <- E1. by destruct (configure handlerId i ci st). }
  destruct (mon_tx_written env s wt now t xa m Ha Hs) as (w & f & E1 & W1 & -> & Nf & _ & _ & _).
  destruct (seen_tx_neutral xa Ha m) as (S1 & _ & S3).
  eexists _, _. split; [exact E1|]. split; [exact W1|].
  destruct (mon_rx_hb rng (wire_message (f (Tx t (seen_tx xa m) (hb xa)).1)) now xb Hb) as (xb1 & E2 & H2 & W2 & Hb1).
  rewrite Rx_wire_neutral in H2 by done.
  (* the exchange of the heartbeaters, for the messages as they see them *)
  pose proof (fun xb2 => heartbeat_roundtrip (seen_tx xa m) (seen_tx xb2 m2)) as RT.
  destruct (RT xb1 m3 t t2 t3 (hb xa) (hb xa') (hb xb)) as (b1 & P1 & O1 & _); try done; try congruence.
  { rewrite (proj2 (proj2 (seen_tx_neutral xb1 Hb1 m2))). done. }
  exists xb1, (set_hb b1 xb1). split; [exact E2|].
  assert (mon_pulse [PEvent] xb1 = (Ret tt, set_hb b1 xb1)) as P1'.
  { unfold mon_pulse. rewrite H2. cbn [pulse_rounds]. unfold mbind, ST_bind. rewrite P1. done. }
  split; [exact P1'|]. split; [exact O1|].
  set (xb2 := set_hb b1 xb1) in *. assert (monitored_ok xb2) as Hb2 by (destruct Hb1; by split).
  destruct (mon_tx_written env s2 wt now t2 xb2 m2 Hb2 Hs2) as (w2 & f2 & E3 & W3 & -> & Nf2 & Hh3 & _ & Hb3).
  set (xb3 := (mon_tx env s2 wt now t2 xb2).2) in *.
  destruct (mon_tx_written env s3 wt now t3 xb3 m3 Hb3 Hs3) as (w3 & f3 & E4 & W4 & -> & Nf3 & _ & _ & _).
  eexists xb3, _, _, _. split; [exact E3|]. split; [rewrite <- W2; exact W3|]. split; [exact E4|]. split; [exact W4|].
  destruct (RT xb2 (seen_tx xb3 m3) t t2 t3 (hb xa) (hb xa') (hb xb)) as (b1' & P2 & _ & A1 & A2 & cs & a1 & Hcs & P3 & L1);
    try done; try congruence.
  { rewrite (proj2 (proj2 (seen_tx_neutral xb2 Hb2 m2))). done. }
  { rewrite (proj1 (proj2 (seen_tx_neutral xb3 Hb3 m3))). done. }
  assert (b1' = b1) as -> by congruence. cbn zeta in A1, A2, P3. change (hb xb2) with b1 in *.
  rewrite Hh3. split; [rewrite (proj1 (proj2 (Nf3 _))); exact A2|].
  destruct (mon_rx_hb rng (wire_message (f2 (Tx t2 (seen_tx xb2 m2) b1).1)) now xa' Ha') as (xa2 & E5 & H5 & _ & _).
  rewrite Rx_wire_neutral in H5 by done. exists cs, xa2, (set_hb a1 xa2). split; [exact Hcs|]. split; [exact E5|].
  split; [|exact L1]. unfold mon_pulse. rewrite H5, P3. done.
Qed.

Lemma heartbeats_between_channels_witness :
  let u := mkUnderlay 1 (lit "id") (lit "c") ∅ 0 in
  let c := fresh_channel (mkArgs true true (Some u) false ∅ 0 [] [] None) u in
  let rng := fun w => map_to_list w in
  let m := NewMessage 7 [] in
  exists x, configure 3 10 5 (mkSetup c None []) = (Ret tt, x) /\
  exists x1 w, mon_tx (mkTxEnv None None false) (mkSendable None (Some m) None None) 0 0 50 x = (Ret tt, x1) /\
    writes (log (chan x1)) = [w] /\
  exists y1 y2, mon_rx rng (wire_message w) 0 x = (Ret tt, y1) /\ mon_pulse [PEvent] y1 = (Ret tt, y2) /\
    outputs (hb y2) = [HeartbeatRx 50; AfterFunc (2 * Millisecond)].
Proof.
  intros u c rng m. pose (x := (configure 3 10 5 (mkSetup c None [])).2).
  assert (monitored_ok x) as Hx by (apply configure_ok; apply Forall_nil; exact I).
  assert (written_as (mkTxEnv None None false) (mkSendable None (Some m) None None) 0 m) as Hw by (repeat split).
  exists x. split; [reflexivity|].
  destruct (heartbeats_between_channels rng x x x (mkTxEnv None None false) (mkSendable None (Some m) None None)
    (mkSendable None (Some m) None None) (mkSendable None (Some m) None None) m m m 0 0 50 60 70)
    as [(x1 & w & E1 & W1 & y1 & y2 & E2 & P2 & O2 & _) _].
  1-3: exact Hx.
  1-3: exact Hw.
  - split; [discriminate | reflexivity].
  - discriminate.
  - split; [discriminate | reflexivity].
  - discriminate.
  - discriminate.
  - reflexivity.
  - reflexivity.
  - reflexivity.
  - reflexivity.
  - reflexivity.
  - exists x1, w. split; [exact E1|]. split; [exact W1|]. exists y1, y2. split; [exact E2|]. split; [exact P2 | exact O2].
Defined.
