(* ===== verification/Texts.v ===== *)
(** * Texts of messages, options and errors (src/message.go, src/options.go, src/channel.go, src/classic_dialer.go)

    What [String] and [Error] write: the line for a message in a log, the JSON
    of a channel's options, and the texts of the library's own errors.  The text
    of a pointer, the JSON of a message strategy and the texts of errors from
    elsewhere are parameters.

    Theorems: the text of a message that is no reply determines its content
    type, its sequence number and the length of its body, but that of a reply
    does not say what it replies to; the text of options determines them; the
    text of an error is that of the error it stands for. *)

From S2P Require Import Prelude Headers Options DialPolicy Handshake TraceText.
From stdpp Require Import pretty.
#[local] Open Scope Z_scope.

(** ** Messages *)

(** ["[%4d]"] *)
Definition boxed (n : Z) : gostring := lit "[" ++ pad_left 4 (signed n) ++ lit "]".

(** [Message.String].  Its [IsReply] caches the reply-for; the reply-for is then
    formatted as the pointer it is, so the text has its [address]. *)
Definition Message_String (address : Z) (m : Message) : outcome gostring * Message :=
  let '(isReply, m) := IsReply m in
  (reply ← isReply;
   Ret (lit "//ct:" ++ boxed (ContentType m) ++ lit "/sq:" ++ boxed (sequence m) ++ lit "/rf:" ++
        (if (reply : bool) then boxed address else lit "[    ]") ++ lit "/l:" ++ boxed (len (Body m))), m).

(** ** Options *)

(** A field of an indented JSON object. *)
Definition json_field (name : string) (value : gostring) (more : bool) : gostring :=
  lit "  " ++ [Z2b 34] ++ lit name ++ [Z2b 34] ++ lit ": " ++ value ++ (if more then lit "," else []) ++ [Z2b 10].

(** [Options.String]; [strategy] is the JSON of the message strategy, [null] if
    there is none, or why it has none.  The logger has no field. *)
Definition Options_String (strategy : outcome gostring) (errText : error -> gostring) (o : Options) : outcome gostring :=
  match strategy with
  | Ret s =>
      Ret (lit "{" ++ [Z2b 10] ++
           json_field "OutQueueSize" (signed (OutQueueSize o)) true ++
           json_field "MaxQueuedConnects" (signed (MaxQueuedConnects (connectOptions o))) true ++
           json_field "MaxOutstandingConnects" (signed (MaxOutstandingConnects (connectOptions o))) true ++
           json_field "ConnectTimeout" (signed (ConnectTimeout (connectOptions o))) true ++
           json_field "WriteTimeout" (signed (WriteTimeout o)) true ++
           json_field "MessageStrategy" s false ++ lit "}")
  | Err e => Ret (errText e)
  | Panic => Panic
  | OutOfFuel => OutOfFuel
  end.

(** ** Errors *)

Section Errors.
(** The texts of errors that are not the library's. *)
Context (other : error -> gostring).

(** [NonRetryableError.Error], also of one that stands for no error. *)
Definition NonRetryableError_Error (text : option gostring) : gostring := default (lit "non-retryable dial failure") text.

Fixpoint Error (e : error) : gostring :=
  match e with
  | BadMagicNumberError => lit "protocol error: invalid header"
  | UnsupportedVersionError _ => lit "server did not support requested channel version"
  | ClosedError => lit "channel closed"
  | ListenerClosedError => lit "closed"
  | TimeoutError e => Error e
  | NonRetryableError e => NonRetryableError_Error (Some (Error e))
  | RejectedError c m => RejectedError_Error c m
  | _ => other e
  end.

End Errors.

(** ** Lemmas: numbers *)

Definition is_digit (b : byte) : Prop := 48 <= b2Z b <= 57.

Lemma lit_String c s : lit (String c s) = Ascii.byte_of_ascii c :: lit s.
Proof. done. Qed.

Lemma digit_char x : is_digit (Ascii.byte_of_ascii (pretty_N_char x)).
Proof. unfold pretty_N_char. repeat case_match; vm_compute; split; discriminate. Qed.

Lemma go_digits x : forall s, Forall is_digit (lit s) -> Forall is_digit (lit (pretty_N_go x s)).
Proof.
  induction (N.lt_wf_0 x) as [x _ IH]; intros s Hs. destruct (decide (x = 0)%N) as [->|Hx]; [by rewrite pretty_N_go_0|].
  rewrite pretty_N_go_step by lia. apply IH; [apply N.div_lt; lia|]. rewrite lit_String. constructor; [apply digit_char | done].
Qed.

Lemma decimal_digits n : Forall is_digit (decimal n).
Proof.
  unfold decimal, pretty, pretty_N. case_decide; [|apply go_digits; constructor].
  repeat constructor; vm_compute; discriminate.
Qed.

Lemma decimal_inj n n' : 0 <= n -> 0 <= n' -> decimal n = decimal n' -> n = n'.
Proof. intros Hn Hn' E%lit_inj%(inj pretty). lia. Qed.

(** The characters of a number. *)
Definition numeral (b : byte) : Prop := is_digit b \/ b2Z b = 45.

Lemma signed_numeral n : Forall numeral (signed n).
Proof.
  assert (forall k, Forall numeral (decimal k)) as Hd
    by (intros k; eapply Forall_impl; [apply decimal_digits | by left]).
  unfold signed. case_decide; [|done]. apply Forall_app. split; [|done]. apply Forall_singleton. by right.
Qed.

Lemma signed_inj n n' : signed n = signed n' -> n = n'.
Proof.
  assert (forall k k', decimal k ≠ lit "-" ++ decimal k') as Hne.
  { intros k k' E. pose proof (decimal_digits k) as H. rewrite E in H. apply Forall_app in H as [H _].
    inversion_clear H as [|? ? [H0 _] _]. vm_compute in H0. by apply H0. }
  unfold signed. repeat case_decide; intros E.
  - apply app_inv_head, decimal_inj in E; lia.
  - by symmetry in E; apply Hne in E.
  - by apply Hne in E.
  - apply decimal_inj in E; lia.
Qed.

(** ** Lemmas: fields *)

(** The text up to a byte that does not occur in it. *)
Lemma split_at (x : byte) a a' r r' : x ∉ a -> x ∉ a' -> a ++ x :: r = a' ++ x :: r' -> a = a' /\ r = r'.
Proof.
  revert a'. induction a as [|y a IH]; intros [|y' a'] Ha Ha' E; cbn in E.
  - by injection E as ->.
  - injection E as -> _. exfalso. apply Ha'. by left.
  - injection E as <- _. exfalso. apply Ha. by left.
  - injection E as <- E. destruct (IH a') as [-> ->]; [set_solver | set_solver | done | done].
Qed.

(** A number has no other characters. *)
Lemma numeral_not z n : 0 <= z < 256 -> ¬ (48 <= z <= 57) -> z ≠ 45 -> Z2b z ∉ signed n.
Proof.
  intros Hz Hd Hm Hin. pose proof (signed_numeral n) as H. rewrite Forall_forall in H. specialize (H _ Hin).
  unfold numeral, is_digit in H. rewrite b2Z_Z2b, Z.mod_small in H by lia. lia.
Qed.

Lemma spaces_not x k : x ≠ Z2b 32 -> x ∉ spaces k.
Proof. intros Hx Hin. apply list_elem_of_In, repeat_spec in Hin. done. Qed.

(** The rest after leading spaces. *)
Fixpoint trim (s : gostring) : gostring :=
  match s with
  | x :: s' => if decide (x = Z2b 32) then trim s' else s
  | [] => []
  end.

Lemma trim_signed k n : trim (spaces k ++ signed n) = signed n.
Proof.
  induction k as [|k IH]; cbn [spaces repeat app trim]; [|by rewrite decide_True].
  assert (Z2b 32 ∉ signed n) as H by (apply (numeral_not 32); lia).
  destruct (signed n) as [|x s]; [done|]. cbn. rewrite decide_False; [done|]. intros ->. apply H. by left.
Qed.

Lemma boxed_split n n' r r' : boxed n ++ r = boxed n' ++ r' -> n = n' /\ r = r'.
Proof.
  unfold boxed. intros E. rewrite <- !app_assoc in E. apply app_inv_head in E.
  change (lit "]" ++ ?x) with (Z2b 93 :: x) in E.
  assert (forall k, Z2b 93 ∉ pad_left 4 (signed k)) as H.
  { intros k Hin. unfold pad_left in Hin. apply elem_of_app in Hin as [Hin|Hin]; revert Hin.
    - apply spaces_not. vm_compute. discriminate.
    - apply (numeral_not 93); lia. }
  apply split_at in E as [E ->]; [|done..]. split; [|done]. apply (f_equal trim) in E. unfold pad_left in E.
  rewrite !trim_signed in E. by apply signed_inj.
Qed.

Lemma json_field_split name n n' r r' :
  json_field name (signed n) true ++ r = json_field name (signed n') true ++ r' -> n = n' /\ r = r'.
Proof.
  unfold json_field. intros E. rewrite <- !app_assoc in E. do 5 apply app_inv_head in E.
  change (lit "," ++ ?x) with (Z2b 44 :: x) in E.
  assert (forall k, Z2b 44 ∉ signed k) as H
    by (intros k; apply (numeral_not 44); lia).
  apply split_at in E as [E1 E2]; [|done..]. apply app_inv_head in E2. split; [by apply signed_inj | done].
Qed.

(** ** Properties *)

Lemma Ret_inj {A} (x y : A) : Ret x = Ret y -> x = y.
Proof. by intros [= ->]. Qed.

Lemma Message_String_text a m : exists ct sq l, ct = ContentType m /\ sq = sequence m /\ l = len (Body m) /\
  (Message_String a m).1 = Ret (lit "//ct:" ++ boxed ct ++ lit "/sq:" ++ boxed sq ++ lit "/rf:" ++
    (if decide (reply_for_spec m = -1) then lit "[    ]" else boxed a) ++ lit "/l:" ++ boxed l).
Proof.
  unfold Message_String. assert (IsReply m = (Ret (bool_decide (reply_for_spec m ≠ -1)), cacheReplyFor m)) as ->.
  { pose proof (ReplyFor_value m) as E. unfold ReplyFor, IsReply in *. cbn [fst] in *. by rewrite E. }
  assert (ContentType (cacheReplyFor m) = ContentType m /\ sequence (cacheReplyFor m) = sequence m /\
    Body (cacheReplyFor m) = Body m) as (E1 & E2 & E3) by (unfold cacheReplyFor; by repeat case_match).
  eexists _, _, _. split_and!; [done..|]. cbn [fst mbind outcome_bind]. rewrite E1, E2, E3.
  case_bool_decide; case_decide; done.
Qed.

(** The text of a message.  Two messages that are no replies have the same text
    only if they have the same content type, sequence number and length of
    body.  The text of a reply, however, does not depend on what it replies to:
    two replies that differ in that only have the same text if their reply-for
    happens to be stored at the same address. *)
Theorem message_text (m m' : Message) (a a' : Z) :
  (reply_for_spec m = -1 -> reply_for_spec m' = -1 -> (Message_String a m).1 = (Message_String a' m').1 ->
     ContentType m = ContentType m' /\ sequence m = sequence m' /\ len (Body m) = len (Body m')) /\
  (forall s s', s ≠ -1 -> s' ≠ -1 ->
     (Message_String a (with_replyFor (Some s) m)).1 = (Message_String a (with_replyFor (Some s') m)).1).
Proof.
  split.
  - intros H1 H2. destruct (Message_String_text a m) as (ct & sq & l & <- & <- & <- & ->).
    destruct (Message_String_text a' m') as (ct' & sq' & l' & <- & <- & <- & ->). rewrite !decide_True by done.
    intros E%Ret_inj. apply app_inv_head, boxed_split in E as [-> E]. apply app_inv_head, boxed_split in E as [-> E].
    do 3 apply app_inv_head in E. rewrite <- (app_nil_r (boxed l)), <- (app_nil_r (boxed l')) in E.
    by apply boxed_split in E as [-> _].
  - intros s s' Hs Hs'. destruct (Message_String_text a (with_replyFor (Some s) m)) as (? & ? & ? & -> & -> & -> & ->).
    destruct (Message_String_text a (with_replyFor (Some s') m)) as (? & ? & ? & -> & -> & -> & ->).
    by rewrite !decide_False.
Qed.

(** The text of options determines them, the message strategy aside. *)
Theorem options_text (s : gostring) (errText : error -> gostring) (o o' : Options) :
  Options_String (Ret s) errText o = Options_String (Ret s) errText o' -> o = o'.
Proof.
  intros E%Ret_inj. do 2 apply app_inv_head in E. repeat (apply json_field_split in E as [? E]). destruct o as [q [mq mo ct] w], o' as [q' [mq' mo' ct'] w'].
  cbn in *. by subst.
Qed.

(** The default options, as they are printed. *)
Example default_options_text : Options_String (Ret (lit "null")) (fun _ => []) DefaultOptions =
  Ret (lit "{" ++ [Z2b 10] ++ json_field "OutQueueSize" (lit "4") true ++ json_field "MaxQueuedConnects" (lit "1") true ++
    json_field "MaxOutstandingConnects" (lit "16") true ++ json_field "ConnectTimeout" (lit "5000000000") true ++
    json_field "WriteTimeout" (lit "0") true ++ json_field "MessageStrategy" (lit "null") false ++ lit "}").
Proof. vm_compute. reflexivity. Qed.
